(* ===== verification/_CoqProject ===== *)
-Q . S2P
Prelude.v
Netip.v
GoStd.v
Pkg.v
NetipText.v
Log.v
Bencode.v
Bittorrent.v
Packet.v
Storage.v
GoFloat.v
Threads.v
Memory.v
MemoryConc.v
MemorySafe.v
Background.v
DataStore.v
StorageTest.v
Redis.v
SwarmKeys.v
RedisSpec.v
RedisConc.v
Keydb.v
KeydbConc.v
Pg.v
PgSpec.v
Frontend.v
Metrics.v
Hooks.v
Tracker.v
Server.v
Main.v
Approval.v
VarInterval.v
Jwt.v
UdpParser.v
UdpAlias.v
Udp.v
UdpServe.v
Http.v
HttpServe.v
Requests.v
E2e.v
HooksConc.v
