(* ===== verification/Prelude.v ===== *)
(** * Mochi: a verification library for the MoChi BitTorrent tracker

    MoChi (Go, src/) is a BitTorrent tracker.  A frontend (UDP or HTTP) parses a
    client's announce or scrape, hands it to the logic, writes the answer and
    leaves the rest to a goroutine.  The logic runs a chain of pre-hooks, the last
    of which fills the answer from the peer storage, and afterwards a chain of
    post-hooks, the last of which records the announcing peer.  A storage keeps,
    per info hash, the seeders and the leechers; a collector removes the peers
    that stopped announcing.

    ** Files and the code they model

    - [Prelude] (this file): bytes, machine integers with their wrap-around
      ([wrap], [iwrap]), big-endian numbers, slices that panic, [result] for calls
      that may fail, [M] for handlers over a state that may panic ([None]),
      [Shuffle] for the order of a [range] over a map, totals over maps.
    - [Netip], [NetipText], [GoStd], [GoFloat], [Bencode]: what the code uses of
      the standard library (net/netip, strings, strconv, net/url, encoding/hex,
      IEEE numbers) and the encoding its clients read.
    - [Threads]: goroutines as programs of atomic steps, their interleavings, and
      what a program does to a shared state that others change ([carries], and
      [yields] where the program decides on its effects while it runs).
    - [Pkg]: src/pkg/timecache (the cached clock as a step relation),
      src/pkg/xorshift and src/pkg/conf; [Log]: src/pkg/log; [Metrics]:
      src/pkg/metrics and the labels of the measured durations.
    - [Bittorrent]: src/bittorrent: events, info hashes, peer IDs, peers, the
      addresses of a request, requests, responses, route parameters, sanitizing.
    - [Storage]: src/storage/storage.go.  [PeerStorage] and [DataStorage] are the
      code's interfaces as classes over the state of a backend; [view] is the
      abstract state, the set of peers of each swarm; [StorageSpec] is the
      contract that a backend keeps and that all the logic is proved against.
      Also the driver registry and the scheduling of collections.
    - [Memory] (MemStore) and [DataStore] (MemData): src/storage/memory, the
      sharded store, its collector and statistics, and the key-value store with
      its contract [DataSpec]; [StorageTest]: src/storage/test, the repository's own
      tests of a storage, over any storage; [MemoryConc] (MemConc): the in-memory
      store lock by lock, its methods and collector as programs of [Threads];
      [MemorySafe] (MemSafe): what holds of calls and collections together;
      [Background]: the collectors, reports and closing of all storages, as
      labelled steps, and the infinite runs of a fair scheduler.
    - [Redis] (RedisStore): src/storage/redis over the commands of a server, a
      parameter; [SwarmKeys] the packed peers and keys shared with KeyDB, and what
      the shared methods return; [RedisSpec] (RedisFacts) the documented effect of
      the commands, a reference server that has it, and the proofs; [RedisConc]
      the same methods as programs of [Threads], a step per command or pipeline,
      beside the collectors of any number of trackers that share the server.
    - [Keydb] (KeydbStore, KeydbFacts) and [KeydbConc]: src/storage/keydb, likewise;
      there the server's expiries come between the commands too.
    - [Pg] (PgStore) and [PgSpec] (PgFacts): src/storage/pg over the client library,
      the effect of the sample queries (named arguments; the storage's own test and
      dist/example_config_pg.yaml) on a table of peers, and the proofs.
    - [Hooks]: src/middleware/hooks.go, logic.go and middleware.go, every function
      under its Go name, over any storage; [Tracker]: the theorems about them,
      proved from [StorageSpec] alone; [HooksConc]: the hook that records peers as
      a program over a storage that others use ([ConcStorage], [ConcSpec]).
    - [Approval] (ClientApproval, Container, HashList, Directory,
      TorrentApproval), [VarInterval], [Jwt]: the pre-hooks of src/middleware.
    - [Frontend]: src/frontend: options, registry, closing a group of frontends.
    - [Packet], [UdpParser], [Udp]: src/frontend/udp: queries, packets, connection
      IDs, [handleRequest]; [UdpAlias]: the strings that share a pooled buffer;
      [UdpServe] (Serve): the listening loops, the pool and the shutdown.  [Http]:
      src/frontend/http: arguments, addresses, the bencoded answers, routing and
      handlers; [HttpServe]: building and running its server.  [Requests]: what both
      frontends promise the logic of the requests they accept.
    - [Server] and [Main]: src/cmd/mochi: the composition of all parts from a
      configuration, its shutdown, and the program around it.  [E2e]:
      src/cmd/mochi-e2e, the end-to-end test and its program.

    A handler returns the state, what it sends, its error and the goroutine it
    starts as a [task]; [run_task] of [Hooks] runs it, at any later time.

    ** What is proved

    - Storages: the in-memory store ([memory_refinement]), the store over Redis
      ([redis_refinement]) and the one over KeyDB ([keydb_refinement]) implement
      the abstract swarms under every sequence of writing calls, and all three are
      instances of [StorageSpec]; for memory also the exact results of announces,
      the exactness of the counters and the completeness of a collection, for
      Redis the effect of a collection and of one that an announce interrupts.
      In every fair run the closing of a storage, once called, returns
      ([close_quiesces]); until it is called the jobs whose timer is reset are done
      again and again, and memory's collection once ([collections_recur]).
      Every storage of the contract that reports what it finds without an error
      ([StorageAnswers]) passes the repository's tests ([storage_tests_pass]).
      The store over PostgreSQL keeps peers in one role at most, and so has a
      specification of its own ([pg_refinement], [pg_reads]).
    - Concurrency in the in-memory store: interleaved client calls end as some
      order of their effects does ([calls_interleaved]), alone they are the
      sequential methods ([calls_alone]), and what a collection beside an announce
      can lose ([collection_loses_announce]);
      it never invents anything ([no_phantom_peers]).
    - Concurrency over a Redis server: sessions of calls of several trackers, with
      collections in between, leave the swarms as some order of the calls' effects
      ([redis_calls_interleaved]); alone each call is the sequential method
      ([redis_calls_alone]); a write reports an error exactly when a counter is
      full or its peer is not there, also where the client returns the error of the
      first failed command in place of the commands ([redis_write_errors]).  The same over KeyDB,
      beside the server's expiries ([keydb_calls_interleaved], [keydb_calls_alone]).
      Announces carried out at the same time, over any of these stores: each peer ends
      where one of its own announces put it ([concurrent_announces]).
    - Logic, over any storage that keeps the contract: the exact membership of
      every swarm after an announce ([announce_effect]), what an answer holds
      ([announce_response], [scrape_response]), that a leecher is given the
      seeders that announced before it ([leecher_finds_seeder]), that a failing
      pre-hook ends a request.
    - End to end: the same from the bytes of a request to the bytes of the answer,
      over UDP ([udp_leecher_finds_seeder]) and HTTP
      ([http_leecher_finds_seeder]).
      The end-to-end program's verdict on this tracker: it succeeds
      ([e2e_succeeds]), and would against one that stores no peers too
      ([blind_to_storage]).
    - Wire formats: round trips of the UDP packets and of the URL data in them,
      and of the bencoded HTTP answers against a decoder; the parsers never panic;
      what a request must be to be accepted.
      Every accepted announce is well typed, and so are the storage calls made for
      it ([accepted_announces_typed]).
    - The running UDP frontend: a request is handled on its own datagram
      ([requests_isolated]), closing returns ([close_returns]); but the URL
      parameters of an announce do not outlive its parsing: the next user of the
      pooled buffer overwrites them as far as its writes fit ([params_overwritten]).
    - Guards: a UDP request without a valid connection ID neither changes the storage
      nor starts any work; addresses cannot be spoofed unless configured; torrent
      approval and tokens let exactly the requests through that they should.
    - The server: a start without error composes exactly the configured parts, and
      a shutdown closes them in order ([Run_composes]); a group of frontends closes
      exactly when none of them is nil, with all their errors in order whatever the
      interleaving ([group_noted]).
    - Divergences from what the code means to do are theorems too, stated of the
      code as it is: [connection_id_lives_one_period], [gc_runs_once],
      [seeder_counter_wraps], [invalid_variation_panics],
      [keydb_graduated_never_expires], [child_keeps_first_root],
      [zones_are_peers] and others.

    ** Conventions and bounds

    Loops over data are structural, or take fuel that each turn spends while it
    shortens the input or raises an index: [UdpParser.query_loop], [options_loop] and
    [info_hashes] get one more than there are bytes, and have no result without fuel,
    so that [parsers_never_panic] and the round trips prove that they end;
    [Bencode.bdecode] gets the length of its input, enough by its round trips, and
    [view_loop] likewise, by its equality with what queries mean.
    Liveness is stated of infinite runs: a weakly fair label is taken or impossible
    again and again, a strongly fair one taken again and again or impossible for
    good; the case [closed] of a [select] is strongly fair.
    Integers are [Z] in the range of their Go type and wrap where the code wraps.
    Code outside the repository is a parameter with its documented behaviour as
    laws and an instance that satisfies them: Unicode lowercasing, the HMAC of
    connection IDs, fasthttp, the servers of Redis, KeyDB and PostgreSQL, the verification of
    tokens, the directory watcher.  Clocks and random numbers are arguments or
    streams in the state.

    ** Not modelled, and why

    - The benchmarks of src/storage/test, which check nothing.  Flags, signals, files and the YAML decoder
      are parameters of [Main], the BitTorrent client of the end-to-end program one
      of [E2e].
    - Sockets, TLS and the fasthttp server are parameters, their results arguments.
      Timers fire at any time; durations are not measured.
    - The goroutines that handlers start for [AfterAnnounce] and [AfterScrape] are
      outside the frontends' wait groups: [Serve.step] leaves them out, and its
      [close_returns] says nothing of them ([run_task] carries them out).
    - [Server.Run] builds the logic over the storage of the class; only what the
      hooks are built with is tied to the result of [newStorage].
    - The values given to prometheus and the zerolog marshallers: output only.
    - The sequential model of the in-memory store ([Memory]) runs a method as one
      step; [MemoryConc] drops this, as do [RedisConc] and [KeydbConc] for the peers
      over Redis and KeyDB.  The store over PostgreSQL, whose writing methods are one
      statement or one transaction each, and the data over Redis are modelled
      command by command, but one method after another.
    - When KeyDB drops a member: it may drop any of them, at any time.
    - Data races of Go's memory model: an atomic step is a critical section, or an
      access to a variable; the one access without its lock is a finding. *)

From Stdlib Require Export ZArith Lia Strings.Byte.
From stdpp Require Export base sorting gmap sets list strings fin_maps countable.

Declare Scope mochi_scope.
Delimit Scope mochi_scope with mochi.
Open Scope mochi_scope.

(** ** Bytes

    Go's [byte], [[]byte] and [string] are sequences of bytes: [bytes]. *)

Abbreviation byte := Byte.byte.
Abbreviation bytes := (list Byte.byte).

#[export] Instance byte_eq_dec : EqDecision byte := Byte.byte_eq_dec.

#[export] Instance byte_countable : Countable byte :=
  inj_countable Byte.to_N Byte.of_N Byte.of_to_N.

#[export] Instance byte_inhabited : Inhabited byte := populate Byte.x00.

(** The bytes of a string literal. *)
Definition bs (s : string) : bytes := String.list_byte_of_string s.
Arguments bs _%_string.

(** The unsigned value of a byte, and Go's conversion [byte(z)]. *)
Definition byte_to_Z (b : byte) : Z := Z.of_N (Byte.to_N b).
Definition byte_of_Z (z : Z) : byte :=
  default Byte.x00 (Byte.of_N (Z.to_N (z mod 256))).

Lemma byte_to_Z_range b : (0 <= byte_to_Z b < 256)%Z.
Proof. unfold byte_to_Z. pose proof (Byte.to_N_bounded b). lia. Qed.

Lemma byte_to_of_Z z : byte_to_Z (byte_of_Z z) = (z mod 256)%Z.
Proof.
  unfold byte_to_Z, byte_of_Z.
  pose proof (Z.mod_pos_bound z 256 eq_refl) as Hb.
  destruct (Byte.of_N _) as [b|] eqn:Hof; simpl.
  - apply Byte.to_of_N in Hof. rewrite Hof. lia.
  - apply Byte.of_N_None_iff in Hof. lia.
Qed.

Lemma byte_to_Z_inj b1 b2 : byte_to_Z b1 = byte_to_Z b2 → b1 = b2.
Proof.
  unfold byte_to_Z. intros H%N2Z.inj.
  assert (Some b1 = Some b2) as [=]; [|done].
  by rewrite <-!Byte.of_to_N, H.
Qed.

Lemma byte_of_to_Z b : byte_of_Z (byte_to_Z b) = b.
Proof.
  apply byte_to_Z_inj. rewrite byte_to_of_Z.
  apply Z.mod_small, byte_to_Z_range.
Qed.

(** ** Machine integers

    A [w]-bit unsigned integer is a [Z] in [0, 2^w); [wrap w] is Go's
    conversion to it, [iwrap w] the conversion to the signed type. *)

Definition wrap (w z : Z) : Z := (z mod 2 ^ w)%Z.
Definition iwrap (w z : Z) : Z := (wrap w (z + 2 ^ (w - 1)) - 2 ^ (w - 1))%Z.
Definition uint (w z : Z) : Prop := (0 <= z < 2 ^ w)%Z.
Definition sint (w z : Z) : Prop := (- 2 ^ (w - 1) <= z < 2 ^ (w - 1))%Z.

Lemma wrap_uint w z : (0 <= w)%Z → uint w (wrap w z).
Proof. intros Hw. apply Z.mod_pos_bound. lia. Qed.

Lemma wrap_small w z : uint w z → wrap w z = z.
Proof. apply Z.mod_small. Qed.

Lemma iwrap_small w z : sint w z → (1 <= w)%Z → iwrap w z = z.
Proof.
  unfold sint, iwrap, wrap. intros Hz Hw.
  assert (2 ^ w = 2 * 2 ^ (w - 1))%Z as Hp.
  { rewrite <-Z.pow_succ_r by lia. f_equal. lia. }
  rewrite Z.mod_small; lia.
Qed.

Lemma wrap_wrap w z : wrap w (wrap w z) = wrap w z.
Proof. apply Zmod_mod. Qed.

Lemma wrap_add_l w a b : wrap w (wrap w a + b) = wrap w (a + b).
Proof. unfold wrap. apply Zplus_mod_idemp_l. Qed.

Lemma wrap_add_r w a b : wrap w (a + wrap w b) = wrap w (a + b).
Proof. unfold wrap. apply Zplus_mod_idemp_r. Qed.

(** ** Big-endian integers ([encoding/binary]) *)

(** [binary.BigEndian.UintN] on a slice of the right length. *)
Definition be_get (l : bytes) : Z :=
  foldl (λ acc b, (acc * 256 + byte_to_Z b)%Z) 0%Z l.

(** [binary.BigEndian.PutUintN]: the low [n] bytes of [z]. *)
Fixpoint be_put (n : nat) (z : Z) : bytes :=
  match n with
  | O => []
  | S n => be_put n (z / 256)%Z ++ [byte_of_Z z]
  end.

Lemma be_get_snoc l b : be_get (l ++ [b]) = (be_get l * 256 + byte_to_Z b)%Z.
Proof. unfold be_get. by rewrite foldl_app. Qed.

Lemma length_be_put n z : length (be_put n z) = n.
Proof. revert z. induction n; intros z; simpl; [done|]. rewrite length_app, IHn. simpl. lia. Qed.

Lemma be_get_put n z : be_get (be_put n z) = (z mod 256 ^ Z.of_nat n)%Z.
Proof.
  revert z. induction n as [|n IH]; intros z; simpl be_put.
  - by rewrite Z.mod_1_r.
  - rewrite be_get_snoc, IH, byte_to_of_Z.
    replace (Z.of_nat (S n)) with (1 + Z.of_nat n)%Z by lia.
    rewrite Z.pow_add_r by lia. rewrite Z.pow_1_r.
    rewrite Z.rem_mul_r by lia. lia.
Qed.

Lemma be_put_get l : be_put (length l) (be_get l) = l.
Proof.
  induction l as [|b l IH] using rev_ind; [done|].
  rewrite length_app, be_get_snoc. simpl. rewrite Nat.add_1_r. simpl.
  pose proof (byte_to_Z_range b).
  rewrite Z.div_add_l, Z.div_small, Z.add_0_r, IH by lia. f_equal.
  f_equal. apply byte_to_Z_inj. rewrite byte_to_of_Z.
  rewrite Z.add_comm, Z_mod_plus_full. by apply Z.mod_small.
Qed.

Lemma be_put_get' n l : length l = n → be_put n (be_get l) = l.
Proof. intros <-. apply be_put_get. Qed.

Lemma be_get_range l : (0 <= be_get l < 256 ^ Z.of_nat (length l))%Z.
Proof.
  rewrite <-(be_put_get l) at 1 2. rewrite be_get_put.
  apply Z.mod_pos_bound. lia.
Qed.

Lemma be_get_uint l w : (w = 8 * Z.of_nat (length l))%Z → uint w (be_get l).
Proof.
  intros ->. unfold uint. rewrite Z.pow_mul_r by lia. apply be_get_range.
Qed.

Lemma be_get_put_uint n z w :
  (w = 8 * Z.of_nat n)%Z → uint w z → be_get (be_put n z) = z.
Proof.
  intros ->. unfold uint. rewrite Z.pow_mul_r by lia. intros Hz.
  rewrite be_get_put. by apply Z.mod_small.
Qed.

Lemma be_get_inj l1 l2 : length l1 = length l2 → be_get l1 = be_get l2 → l1 = l2.
Proof. intros Hl Hg. rewrite <-(be_put_get l1), <-(be_put_get l2). congruence. Qed.

(** ** Slicing

    [slice l i j] is Go's [l[i:j]]: [None] is the run-time panic.  The bound is
    the length and not the capacity, so a definition proved never to panic never
    reads the stale bytes behind the end of a pooled buffer either. *)
Definition slice {A} (l : list A) (i j : nat) : option (list A) :=
  if decide (i ≤ j ∧ j ≤ length l) then Some (take (j - i) (drop i l)) else None.

Lemma slice_Some {A} (l : list A) i j :
  i ≤ j → j ≤ length l → slice l i j = Some (take (j - i) (drop i l)).
Proof. intros. unfold slice. by rewrite decide_True. Qed.

Lemma slice_length {A} (l s : list A) i j : slice l i j = Some s → length s = j - i.
Proof.
  unfold slice. case_decide; [|done]. intros [= <-].
  rewrite length_take, length_drop. lia.
Qed.

(** A slice of a concatenation whose parts end exactly at the slice's ends. *)
Lemma slice_middle {A} (l1 l2 l3 : list A) i j :
  length l1 = i → i + length l2 = j → slice (l1 ++ l2 ++ l3) i j = Some l2.
Proof.
  intros <- <-. rewrite slice_Some; [|lia|rewrite !length_app; lia].
  rewrite drop_app_length. f_equal. replace (_ + _ - _) with (length l2) by lia.
  by rewrite take_app_length.
Qed.

(** ** Errors

    A Go [error] is [nil] or a value; the code distinguishes a
    [bittorrent.ClientError], whose text is shown to the client, the error of a
    cancelled context and every other error. *)
Inductive GoError :=
  | ClientError (msg : bytes)
  | ContextCanceled
  | OtherError (msg : bytes).

Abbreviation error := (option GoError).

#[export] Instance GoError_eq_dec : EqDecision GoError.
Proof. solve_decision. Defined.

(** A call that returns a value or an error. *)
Inductive result (A : Type) :=
  | Ok (a : A)
  | Err (e : GoError).
Arguments Ok {_} _.
Arguments Err {_} _.

#[export] Instance result_ret : MRet result := λ A a, Ok a.
#[export] Instance result_bind : MBind result := λ A B f r,
  match r with Ok a => f a | Err e => Err e end.

Definition of_option {A} (e : GoError) (o : option A) : result A :=
  match o with Some a => Ok a | None => Err e end.

(** ** State and panics

    A handler over a state [S]: [None] is a panic, otherwise the new state and
    what the call returns. *)
Definition M (S A : Type) : Type := S → option (S * A).
#[export] Instance M_ret S : MRet (M S) := λ A a s, Some (s, a).
#[export] Instance M_bind S : MBind (M S) := λ A B f m s,
  match m s with Some (s', a) => f a s' | None => None end.

Definition panic {S A} : M S A := λ _, None.

Lemma M_bind_ret_l {S A B} (a : A) (f : A → M S B) s : (mret a ≫= f) s = f a s.
Proof. done. Qed.

Lemma M_bind_Some {S A B} (m : M S A) (f : A → M S B) s s' a :
  m s = Some (s', a) → (m ≫= f) s = f a s'.
Proof. intros H. unfold mbind, M_bind. by rewrite H. Qed.

(** ** Iteration order

    A [range] over a Go map visits the entries in an order the language leaves
    open.  A [shuffle] stands for one run's order: the model is given one and
    the theorems hold for all of them. *)
Class Shuffle := {
  shuffle : ∀ {A : Type}, list A → list A;
  shuffle_perm : ∀ {A : Type} (l : list A), shuffle l ≡ₚ l;
}.

#[export, refine] Instance shuffle_id : Shuffle | 100 := {| shuffle A l := l |}.
Proof. done. Defined.

Definition shuffle_rev : Shuffle := {| shuffle A l := reverse l; shuffle_perm A l := reverse_Permutation l |}.

(** The entries of a Go map in the order of one [range] over it. *)
Definition range `{Shuffle} `{Countable K} {A} (m : gmap K A) : list (K * A) :=
  shuffle (map_to_list m).

Lemma range_perm `{Shuffle} `{Countable K} {A} (m : gmap K A) : range m ≡ₚ map_to_list m.
Proof. apply shuffle_perm. Qed.

Lemma elem_of_range `{Shuffle} `{Countable K} {A} (m : gmap K A) k x :
  (k, x) ∈ range m ↔ m !! k = Some x.
Proof. by rewrite range_perm, elem_of_map_to_list. Qed.

Lemma NoDup_range_keys `{Shuffle} `{Countable K} {A} (m : gmap K A) : NoDup (range m).*1.
Proof. rewrite range_perm. apply NoDup_fst_map_to_list. Qed.

Lemma length_range `{Shuffle} `{Countable K} {A} (m : gmap K A) : length (range m) = size m.
Proof. rewrite range_perm. apply length_map_to_list. Qed.

Lemma NoDup_take {A} n (l : list A) : NoDup l → NoDup (take n l).
Proof. intros H. rewrite <-(take_drop n l) in H. by apply list.NoDup_app in H as [? _]. Qed.

(** ** Deletes from a map *)

Lemma lookup_deletes `{Countable K} {A} (ks : list K) (m : gmap K A) k :
  foldl (λ m k, delete k m) m ks !! k = if decide (k ∈ ks) then None else m !! k.
Proof.
  revert m. induction ks as [|k' ks IH]; intros m; cbn [foldl]; [done|].
  rewrite IH. destruct (decide (k = k')) as [<-|Hne].
  - rewrite lookup_delete_eq, (decide_True (P := k ∈ k :: ks)) by left. by case_decide.
  - rewrite lookup_delete_ne by done.
    apply decide_ext. rewrite list.elem_of_cons. naive_solver.
Qed.

(** ** Totals over a map *)

Definition map_total `{Countable K} {A} (f : A → nat) (m : gmap K A) : nat :=
  map_fold (λ _ x acc, f x + acc) 0 m.

Lemma map_total_new `{Countable K} {A} (f : A → nat) (m : gmap K A) k x :
  m !! k = None → map_total f (<[k := x]> m) = f x + map_total f m.
Proof. intros Hk. unfold map_total. rewrite map_fold_insert_L; [done|lia|done]. Qed.

Lemma map_total_delete `{Countable K} {A} (f : A → nat) (m : gmap K A) k x :
  m !! k = Some x → map_total f m = f x + map_total f (delete k m).
Proof.
  intros Hk. unfold map_total.
  apply (map_fold_delete_L (λ _ x acc, f x + acc)); [intros; lia|done].
Qed.

Lemma map_total_update `{Countable K} {A} (f : A → nat) (m : gmap K A) k x y :
  m !! k = Some x → map_total f (<[k := y]> m) + f x = f y + map_total f m.
Proof.
  intros Hk. rewrite <-insert_delete_eq, map_total_new by apply lookup_delete_eq.
  rewrite (map_total_delete f m k x) by done. lia.
Qed.

(** ** Automation *)
Create HintDb mochi.
Create Rewrite HintDb mochi.
#[export] Hint Resolve byte_to_Z_range wrap_uint be_get_range : mochi.
#[export] Hint Rewrite byte_of_to_Z byte_to_of_Z length_be_put @length_app : mochi.

(** Splits conjunctions, simplifies and tries the development's hints. *)
Ltac mochi := repeat split; simplify_eq/=; eauto with mochi; try lia; try done.
