(* ===== verification/Netip.v ===== *)
(** * The part of Go's [net/netip] the tracker uses

    The standard library's address type and its predicates, as of Go 1.22.4
    (the predicates look through IPv4-mapped IPv6 addresses).  Addresses are
    the 32 or 128 bits as an integer; an IPv6 address also carries its zone. *)

From S2P Require Import Prelude.

Local Open Scope Z_scope.

(** [netip.Addr]: the zero [Addr], an IPv4 and an IPv6 address. *)
Inductive Addr :=
  | AddrNone
  | Addr4 (ip : Z)
  | Addr6 (ip : Z) (zone : bytes).

#[export] Instance Addr_eq_dec : EqDecision Addr.
Proof. solve_decision. Defined.

#[export] Instance Addr_countable : Countable Addr.
Proof.
  refine (inj_countable'
    (λ a, match a with
          | AddrNone => inl () | Addr4 ip => inr (inl ip) | Addr6 ip z => inr (inr (ip, z))
          end)
    (λ x, match x with
          | inl _ => AddrNone | inr (inl ip) => Addr4 ip | inr (inr (ip, z)) => Addr6 ip z
          end) _).
  by intros [].
Defined.

(** The bits fit the family's width: what every constructor of the package
    guarantees. *)
Definition Addr_wf (a : Addr) : Prop :=
  match a with AddrNone => True | Addr4 ip => uint 32 ip | Addr6 ip _ => uint 128 ip end.

Definition IsValid (a : Addr) : bool := match a with AddrNone => false | _ => true end.
Definition Is4 (a : Addr) : bool := match a with Addr4 _ => true | _ => false end.
(** IPv4-mapped addresses included. *)
Definition Is6 (a : Addr) : bool := match a with Addr6 _ _ => true | _ => false end.
Definition Is4In6 (a : Addr) : bool :=
  match a with Addr6 ip _ => Z.shiftr ip 32 =? 0xffff | _ => false end.

(** [Unmap] drops the mapping prefix, and the zone with it. *)
Definition Unmap (a : Addr) : Addr :=
  match a with
  | Addr6 ip _ => if Is4In6 a then Addr4 (Z.land ip 0xffffffff) else a
  | _ => a
  end.

(** Octet [i] of an IPv4 address, 16-bit group [i] of an IPv6 address. *)
Definition v4 (ip : Z) (i : Z) : Z := Z.land (Z.shiftr ip (8 * (3 - i))) 0xff.
Definition v6u16 (ip : Z) (i : Z) : Z := Z.land (Z.shiftr ip (16 * (7 - i))) 0xffff.

Definition IsUnspecified (a : Addr) : bool :=
  bool_decide (a = Addr4 0) || bool_decide (a = Addr6 0 []).

Definition IsLoopback (a : Addr) : bool :=
  match Unmap a with
  | Addr4 ip => v4 ip 0 =? 127
  | Addr6 ip _ => ip =? 1
  | AddrNone => false
  end.

Definition IsMulticast (a : Addr) : bool :=
  match Unmap a with
  | Addr4 ip => Z.land (v4 ip 0) 0xf0 =? 0xe0
  | Addr6 ip _ => Z.shiftr ip 120 =? 0xff
  | AddrNone => false
  end.

Definition IsLinkLocalUnicast (a : Addr) : bool :=
  match Unmap a with
  | Addr4 ip => (v4 ip 0 =? 169) && (v4 ip 1 =? 254)
  | Addr6 ip _ => Z.land (v6u16 ip 0) 0xffc0 =? 0xfe80
  | AddrNone => false
  end.

Definition IsPrivate (a : Addr) : bool :=
  match Unmap a with
  | Addr4 ip =>
      (v4 ip 0 =? 10)
      || ((v4 ip 0 =? 172) && (Z.land (v4 ip 1) 0xf0 =? 16))
      || ((v4 ip 0 =? 192) && (v4 ip 1 =? 168))
  | Addr6 ip _ => Z.land (Z.shiftr ip 120) 0xfe =? 0xfc
  | AddrNone => false
  end.

Definition IsGlobalUnicast (a : Addr) : bool :=
  match Unmap a with
  | AddrNone => false
  | a' =>
      if bool_decide (a' = Addr4 0) || bool_decide (a' = Addr4 0xffffffff) then false
      else negb (bool_decide (a' = Addr6 0 [])) && negb (IsLoopback a')
           && negb (IsMulticast a') && negb (IsLinkLocalUnicast a')
  end.

(** The bytes of an address, 0, 4 or 16 of them, and back. *)
Definition AsSlice (a : Addr) : bytes :=
  match a with AddrNone => [] | Addr4 ip => be_put 4 ip | Addr6 ip _ => be_put 16 ip end.

Definition AddrFromSlice (l : bytes) : option Addr :=
  if decide (length l = 4%nat) then Some (Addr4 (be_get l))
  else if decide (length l = 16%nat) then Some (Addr6 (be_get l) [])
  else None.

Definition BitLen (a : Addr) : Z :=
  match a with AddrNone => 0 | Addr4 _ => 32 | Addr6 _ _ => 128 end.

(** ** Facts *)

Lemma Is4_Is6 a : Is4 a = true → Is6 a = false.
Proof. by destruct a. Qed.

Lemma IsValid_families a : IsValid a = Is4 a || Is6 a.
Proof. by destruct a. Qed.

Lemma Unmap_cases a :
  (Is4In6 a = false ∧ Unmap a = a) ∨
  (∃ ip z, a = Addr6 ip z ∧ Is4In6 a = true ∧ Unmap a = Addr4 (Z.land ip 0xffffffff)).
Proof.
  destruct a as [|ip|ip z]; [by left..|].
  unfold Unmap. destruct (Is4In6 (Addr6 ip z)); eauto 10.
Qed.

Lemma Unmap_not_4In6 a : Is4In6 (Unmap a) = false.
Proof. destruct (Unmap_cases a) as [[? ->]|(? & ? & -> & _ & ->)]; done. Qed.

Lemma Unmap_id a : Is4In6 a = false → Unmap a = a.
Proof. destruct (Unmap_cases a) as [[? ->]|(? & ? & -> & ? & _)]; congruence. Qed.

Lemma Unmap_Unmap a : Unmap (Unmap a) = Unmap a.
Proof. apply Unmap_id, Unmap_not_4In6. Qed.

Lemma Unmap_IsValid a : IsValid (Unmap a) = IsValid a.
Proof. destruct (Unmap_cases a) as [[? ->]|(? & ? & -> & _ & ->)]; done. Qed.

Lemma Unmap_wf a : Addr_wf a → Addr_wf (Unmap a).
Proof.
  destruct (Unmap_cases a) as [[? ->]|(ip & ? & -> & _ & ->)]; [done|].
  intros _. change 0xffffffff with (Z.ones 32). cbn [Addr_wf].
  rewrite Z.land_ones by lia. apply Z.mod_pos_bound. lia.
Qed.

Lemma length_AsSlice a : length (AsSlice a) = Z.to_nat (BitLen a / 8).
Proof. destruct a; cbn [AsSlice BitLen]; by rewrite ?length_be_put. Qed.

(** Decoding the bytes of an address gives it back, without its zone. *)
Lemma AddrFromSlice_AsSlice a :
  Addr_wf a → IsValid a = true →
  AddrFromSlice (AsSlice a) =
    Some (match a with Addr6 ip _ => Addr6 ip [] | _ => a end).
Proof.
  destruct a as [|ip|ip z]; cbn [Addr_wf AsSlice]; intros Hwf Hv; [done| |];
    unfold AddrFromSlice; rewrite !length_be_put.
  - rewrite decide_True by done. do 2 f_equal. by apply (be_get_put_uint _ _ 32).
  - rewrite decide_False, decide_True by done. do 2 f_equal.
    by apply (be_get_put_uint _ _ 128).
Qed.

Lemma AddrFromSlice_wf l a : AddrFromSlice l = Some a → Addr_wf a.
Proof.
  unfold AddrFromSlice. repeat case_decide; intros [= <-]; cbn [Addr_wf];
    apply be_get_uint; lia.
Qed.

Lemma AddrFromSlice_valid l a : AddrFromSlice l = Some a → IsValid a = true.
Proof. unfold AddrFromSlice. by repeat case_decide; intros [= <-]. Qed.

#[export] Hint Resolve Unmap_wf AddrFromSlice_wf : mochi.
