(* ===== verification/GoStd.v ===== *)
(** * The part of Go's string packages the tracker uses

    [strings], [bytes], [strconv], [encoding/hex] and [net/url]: the functions
    the tracker calls, on byte strings.  The Unicode tables behind
    [strings.ToLower] are a parameter, used on non-ASCII strings only. *)

From S2P Require Import Prelude.

Local Open Scope Z_scope.

(** ** Letter case *)

Definition is_ascii (s : bytes) : bool := forallb (λ c, byte_to_Z c <? 0x80) s.

Definition lower_byte (c : byte) : byte :=
  let z := byte_to_Z c in
  if (65 <=? z) && (z <=? 90) then byte_of_Z (z + 32) else c.

(** What [unicode.ToLower], mapped over the runes of a string, gives. *)
Class Unicode := { unicode_to_lower : bytes → bytes }.

(** [strings.ToLower]. *)
Definition ToLower `{Unicode} (s : bytes) : bytes :=
  if is_ascii s then map lower_byte s else unicode_to_lower s.

(** ** Searching *)

(** [bytes.IndexByte] with a predicate: the first index that satisfies it. *)
Fixpoint index_of (p : byte → bool) (s : bytes) : option nat :=
  match s with
  | [] => None
  | c :: s => if p c then Some O else S <$> index_of p s
  end.

Definition byte_eqb (a b : byte) : bool := bool_decide (a = b).

(** [strings.HasPrefix]. *)
Fixpoint HasPrefix (s p : bytes) : bool :=
  match p, s with
  | [], _ => true
  | b :: p, c :: s => byte_eqb b c && HasPrefix s p
  | _ :: _, [] => false
  end.

Lemma HasPrefix_length s p : HasPrefix s p = true → (length p <= length s)%nat.
Proof.
  revert s. induction p as [|b p IH]; intros [|c s]; cbn [HasPrefix length]; [lia|lia|done|].
  intros [_ H%IH]%andb_true_iff. lia.
Qed.

(** [bytes.Split] at a separator byte: never the empty list. *)
Fixpoint Split (sep : byte) (s : bytes) : list bytes :=
  match s with
  | [] => [[]]
  | c :: s =>
      if byte_eqb c sep then [] :: Split sep s
      else match Split sep s with [] => [[c]] | w :: ws => (c :: w) :: ws end
  end.

(** The ASCII white space of [bytes.TrimSpace]. *)
Definition is_space (c : byte) : bool :=
  let z := byte_to_Z c in ((9 <=? z) && (z <=? 13)) || (z =? 32).

Fixpoint trim_left (s : bytes) : bytes :=
  match s with
  | [] => []
  | c :: s' => if is_space c then trim_left s' else s
  end.

(** [bytes.TrimSpace] on ASCII input. *)
Definition TrimSpace (s : bytes) : bytes :=
  reverse (trim_left (reverse (trim_left s))).

(** ** Hexadecimal digits *)

Definition unhex (c : byte) : option Z :=
  let z := byte_to_Z c in
  if (48 <=? z) && (z <=? 57) then Some (z - 48)
  else if (97 <=? z) && (z <=? 102) then Some (z - 97 + 10)
  else if (65 <=? z) && (z <=? 70) then Some (z - 65 + 10)
  else None.

Definition hex_digit (z : Z) : byte :=
  byte_of_Z (if z <? 10 then z + 48 else z - 10 + 97).

(** [hex.EncodeToString]. *)
Definition hex_encode (s : bytes) : bytes :=
  s ≫= λ c, [hex_digit (Z.shiftr (byte_to_Z c) 4); hex_digit (Z.land (byte_to_Z c) 15)].

(** [hex.Decode] of a string of even length; [None] is its error. *)
Fixpoint hex_decode (s : bytes) : option bytes :=
  match s with
  | p :: q :: s =>
      a ← unhex p; b ← unhex q; rest ← hex_decode s;
      Some (byte_of_Z (Z.lor (Z.shiftl a 4) b) :: rest)
  | _ => Some []
  end.

(** ** Decimal numbers *)

Fixpoint digits (fuel : nat) (n : Z) : bytes :=
  match fuel with
  | O => []
  | S fuel => (if n <? 10 then [] else digits fuel (n / 10)) ++ [byte_of_Z (48 + n mod 10)]
  end.

(** [strconv.Itoa]; a number of [k] bits has at most [k] digits. *)
Definition Itoa (n : Z) : bytes :=
  if n <? 0 then bs "-" ++ digits (S (Z.to_nat (Z.log2 (- n)))) (- n)
  else digits (S (Z.to_nat (Z.log2 n))) n.

Definition is_digit (c : byte) : bool := (48 <=? byte_to_Z c) && (byte_to_Z c <=? 57).
Definition dec_value (s : bytes) : Z := foldl (λ acc c, acc * 10 + (byte_to_Z c - 48)) 0 s.

Definition ErrSyntax : GoError := OtherError (bs "invalid syntax").
Definition ErrRange : GoError := OtherError (bs "value out of range").

(** [strconv.ParseUint] in base 10. *)
Definition ParseUint (s : bytes) (bitSize : Z) : result Z :=
  if bool_decide (s = []) || negb (forallb is_digit s) then Err ErrSyntax
  else if dec_value s <? 2 ^ bitSize then Ok (dec_value s) else Err ErrRange.

(** [strconv.ParseInt] in base 10: a sign and an unsigned number. *)
Definition ParseInt (s : bytes) (bitSize : Z) : result Z :=
  let '(neg, s') :=
    match s with
    | x2d :: s' => (true, s')
    | x2b :: s' => (false, s')
    | _ => (false, s)
    end in
  un ← ParseUint s' 64;
  if neg then if 2 ^ (bitSize - 1) <? un then Err ErrRange else Ok (- un)
  else if 2 ^ (bitSize - 1) <=? un then Err ErrRange else Ok un.

(** ** Errors and text *)

Definition Error_msg (e : GoError) : bytes :=
  match e with
  | ClientError m | OtherError m => m
  | ContextCanceled => bs "context canceled"
  end.

(** [strings.Contains], [strings.Join]. *)
Fixpoint str_contains (s sub : bytes) : bool :=
  HasPrefix s sub || match s with [] => false | _ :: s' => str_contains s' sub end.

Fixpoint str_join (sep : bytes) (l : list bytes) : bytes :=
  match l with
  | [] => []
  | [x] => x
  | x :: l => x ++ sep ++ str_join sep l
  end.

(** ** Query strings *)

(** [url.QueryUnescape]; [None] is its [EscapeError]. *)
Fixpoint QueryUnescape (s : bytes) : option bytes :=
  match s with
  | [] => Some []
  | c :: s' =>
      if byte_eqb c "%"%byte then
        match s' with
        | p :: q :: s'' =>
            a ← unhex p; b ← unhex q; rest ← QueryUnescape s'';
            Some (byte_of_Z (Z.lor (Z.shiftl a 4) b) :: rest)
        | _ => None
        end
      else
        rest ← QueryUnescape s';
        Some ((if byte_eqb c "+"%byte then " "%byte else c) :: rest)
  end.

(** ** Facts *)

Lemma index_of_Some p s i :
  index_of p s = Some i →
  ∃ c, s !! i = Some c ∧ p c = true ∧ forallb (negb ∘ p) (take i s) = true.
Proof.
  revert i. induction s as [|c s IH]; intros i; simpl; [done|].
  destruct (p c) eqn:Hc.
  - intros [= <-]. by exists c.
  - destruct (index_of p s) as [j|] eqn:Hj; [|done]. intros [= <-].
    destruct (IH j eq_refl) as (d & ? & ? & ?).
    exists d. simpl. by rewrite Hc.
Qed.

Lemma index_of_None p s : index_of p s = None ↔ forallb (negb ∘ p) s = true.
Proof.
  induction s as [|c s IH]; simpl; [done|].
  destruct (p c); simpl; [done|]. rewrite <-IH. by destruct (index_of p s).
Qed.

(** Everything before the separator, the separator and the rest. *)
Lemma index_of_app p s1 c s2 :
  forallb (negb ∘ p) s1 = true → p c = true →
  index_of p (s1 ++ c :: s2) = Some (length s1).
Proof.
  induction s1 as [|d s1 IH]; simpl; [by intros _ ->|].
  intros [Hd Hs1]%andb_prop Hc. destruct (p d); [done|]. by rewrite IH.
Qed.

Lemma index_of_lt p s i : index_of p s = Some i → (i < length s)%nat.
Proof. intros (c & Hc & _)%index_of_Some. eapply lookup_lt_Some, Hc. Qed.

Lemma unhex_digit z : 0 <= z < 16 → unhex (hex_digit z) = Some z.
Proof.
  intros Hz.
  assert (∀ n, (n < 16)%nat → unhex (hex_digit (Z.of_nat n)) = Some (Z.of_nat n)) as H.
  { intros n Hn. do 16 (destruct n as [|n]; [reflexivity|]). lia. }
  specialize (H (Z.to_nat z)). rewrite Z2Nat.id in H by lia. apply H. lia.
Qed.

Lemma nibbles c :
  byte_of_Z (Z.lor (Z.shiftl (Z.shiftr (byte_to_Z c) 4) 4) (Z.land (byte_to_Z c) 15)) = c.
Proof. destruct c; reflexivity. Qed.

Lemma nibble_ranges c :
  0 <= Z.shiftr (byte_to_Z c) 4 < 16 ∧ 0 <= Z.land (byte_to_Z c) 15 < 16.
Proof. by destruct c. Qed.

(** Decoding what [EncodeToString] writes gives the bytes back. *)
Lemma hex_decode_encode s : hex_decode (hex_encode s) = Some s.
Proof.
  induction s as [|c s IH]; [done|].
  unfold hex_encode in *. cbn [mbind list_bind app hex_decode].
  destruct (nibble_ranges c). rewrite !unhex_digit by done. simpl.
  rewrite IH. simpl. by rewrite nibbles.
Qed.

Lemma length_hex_encode s : length (hex_encode s) = (2 * length s)%nat.
Proof.
  unfold hex_encode. induction s; [done|]. cbn [mbind list_bind app length].
  rewrite IHs. lia.
Qed.

Lemma hex_decode_length s t :
  hex_decode s = Some t → length t = (length s / 2)%nat.
Proof.
  revert t. induction s as [s IH] using (induction_ltof1 _ length).
  destruct s as [|p [|q s]]; intros t; [by intros [= <-]..|]. cbn [hex_decode].
  destruct (unhex p); [|done]. destruct (unhex q); [|done]. cbn [mbind option_bind].
  destruct (hex_decode s) as [r|] eqn:Hr; [|done]. intros [= <-]. cbn [length].
  rewrite (IH s ltac:(unfold ltof; simpl; lia) r Hr).
  replace (S (S (length s))) with (length s + 1 * 2)%nat by lia.
  rewrite Nat.div_add by lia. lia.
Qed.

Lemma digit_byte n : 0 <= n < 10 →
  byte_to_Z (byte_of_Z (48 + n)) = 48 + n ∧ is_digit (byte_of_Z (48 + n)) = true.
Proof.
  intros Hn. unfold is_digit. rewrite byte_to_of_Z, Z.mod_small by lia. lia.
Qed.

Lemma digits_spec fuel n :
  0 <= n → n < 2 ^ Z.of_nat fuel → (0 < fuel)%nat →
  dec_value (digits fuel n) = n ∧ forallb is_digit (digits fuel n) = true
  ∧ digits fuel n ≠ [].
Proof.
  revert n. induction fuel as [|fuel IH]; intros n H0 Hn Hf; [lia|].
  cbn [digits]. pose proof (Z.mod_pos_bound n 10 eq_refl) as Hm.
  destruct (digit_byte (n mod 10) Hm) as [Hv Hd].
  pose proof (Z.div_mod n 10 ltac:(lia)) as Hdm.
  unfold dec_value. rewrite foldl_app, forallb_app. cbn [foldl forallb].
  rewrite Hv, Hd, andb_true_r.
  destruct (Z.ltb_spec n 10) as [Hlt|Hge].
  - cbn [foldl forallb app]. split; [|done]. rewrite Z.mod_small; lia.
  - destruct (IH (n / 10)) as (IHv & IHd & _).
    + apply Z.div_pos; lia.
    + apply Z.div_lt_upper_bound; [lia|].
      rewrite Nat2Z.inj_succ, Z.pow_succ_r in Hn by lia. lia.
    + destruct fuel; [simpl in Hn|]; lia.
    + fold (dec_value (digits fuel (n / 10))). rewrite IHv, IHd.
      split; [lia|]. split; [done|]. by destruct (digits fuel _).
Qed.

(** [Itoa] of a non-negative number is a non-empty string of digits with that value. *)
Lemma Itoa_spec n :
  0 <= n →
  dec_value (Itoa n) = n ∧ forallb is_digit (Itoa n) = true ∧ Itoa n ≠ [].
Proof.
  intros Hn. unfold Itoa. rewrite (proj2 (Z.ltb_ge _ _)) by lia.
  apply digits_spec; [done| |lia].
  rewrite Nat2Z.inj_succ, Z2Nat.id by apply Z.log2_nonneg.
  destruct (Z.eq_dec n 0) as [->|]; [done|]. apply Z.log2_spec. lia.
Qed.

Lemma ParseUint_Itoa n bits : 0 <= n < 2 ^ bits → ParseUint (Itoa n) bits = Ok n.
Proof.
  intros [H0 H1]. destruct (Itoa_spec n H0) as (Hv & Hd & Hn). unfold ParseUint.
  rewrite bool_decide_eq_false_2, Hd, Hv by done. simpl.
  by rewrite (proj2 (Z.ltb_lt _ _) H1).
Qed.

Lemma digit_no_sign c s : forallb is_digit (c :: s) = true → c ≠ x2d ∧ c ≠ x2b.
Proof. intros H. split; intros ->; by vm_compute in H. Qed.

Lemma digits_no_sign {A} s (f g : bytes → A) : forallb is_digit s = true →
  match s with x2d :: s' => f s' | x2b :: s' => g s' | _ => g s end = g s.
Proof.
  intros Hd. destruct s as [|c s]; [done|]. apply digit_no_sign in Hd as [H1 H2]. by destruct c.
Qed.

(** A 64-bit integer survives printing and parsing. *)
Lemma ParseInt_Itoa n : - 2 ^ 63 <= n < 2 ^ 63 → ParseInt (Itoa n) 64 = Ok n.
Proof.
  intros Hn. unfold ParseInt. destruct (Z.ltb_spec n 0) as [Hneg|Hpos].
  - assert (Itoa n = x2d :: Itoa (- n)) as ->.
    { unfold Itoa. rewrite (proj2 (Z.ltb_lt _ _) Hneg), (proj2 (Z.ltb_ge _ _)) by lia. done. }
    cbv iota beta. rewrite ParseUint_Itoa by lia. cbn [mbind result_bind].
    rewrite (proj2 (Z.ltb_ge _ _)) by lia. f_equal. lia.
  - destruct (Itoa_spec n Hpos) as (_ & Hd & _).
    rewrite (digits_no_sign _ (λ s, (true, s)) (λ s, (false, s)) Hd).
    rewrite ParseUint_Itoa by lia. cbn [mbind result_bind].
    rewrite (proj2 (Z.leb_gt _ _)) by lia. done.
Qed.

Lemma HasPrefix_nil s : HasPrefix s [] = true.
Proof. by destruct s. Qed.

(** A prefix of known length decides [HasPrefix]. *)
Lemma HasPrefix_app k p s : length k = length p → HasPrefix (k ++ s) p = bool_decide (k = p).
Proof.
  revert p. induction k as [|c k IH]; intros [|c' p] Hl; try done.
  - cbn [app]. rewrite HasPrefix_nil. by rewrite bool_decide_true.
  - cbn [app HasPrefix]. rewrite IH by (simpl in Hl; congruence). unfold byte_eqb.
    repeat case_bool_decide; naive_solver.
Qed.
