(* ===== verification/Pkg.v ===== *)
(** * Packages under [pkg]: the cached clock, random numbers, configurations

    The cache of src/pkg/timecache/timecache.go as a step relation, with
    [TimeCache.NowUnix]; the generators of src/pkg/xorshift/prng.go on 64-bit
    words; [MapConfig.Unmarshal] of src/pkg/conf/config.go. *)

From S2P Require Import Prelude GoStd.

Local Open Scope Z_scope.

(** ** The clock *)

(** Where the one execution of [Run] is: not begun, in its loop, returned. *)
Inductive run_phase := RunIdle | RunLoop | RunDone.

Record TimeCache := MkTimeCache {
  clock : Z;                    (* nanoseconds *)
  closed : bool;
  onceExecutor : run_phase;
  onceStopper : bool;
}.

Definition New (now : Z) : TimeCache := MkTimeCache now false RunIdle false.

(** What a goroutine does on the cache next: a call of [Run], the two cases of
    its select, a call of [Stop].  A time is the system clock's. *)
Inductive tc_event := RunBegins (now : Z) | Ticks (now : Z) | SeesClosed | Stops.

(** Only one call of [Run] enters the loop; a closed channel is ready whatever
    else is, and closing it twice would panic. *)
Inductive tc_step : TimeCache → tc_event → TimeCache → Prop :=
  | step_run c cl st now :
      tc_step (MkTimeCache c cl RunIdle st) (RunBegins now) (MkTimeCache now cl RunLoop st)
  | step_run_again c cl ph st now : ph ≠ RunIdle →
      tc_step (MkTimeCache c cl ph st) (RunBegins now) (MkTimeCache c cl ph st)
  | step_tick c cl st now :
      tc_step (MkTimeCache c cl RunLoop st) (Ticks now) (MkTimeCache now cl RunLoop st)
  | step_closed c st :
      tc_step (MkTimeCache c true RunLoop st) SeesClosed (MkTimeCache c true RunDone st)
  | step_stop c ph :
      tc_step (MkTimeCache c false ph false) Stops (MkTimeCache c true ph true)
  | step_stop_again c cl ph :
      tc_step (MkTimeCache c cl ph true) Stops (MkTimeCache c cl ph true).

Inductive tc_steps : TimeCache → list tc_event → TimeCache → Prop :=
  | steps_nil t : tc_steps t [] t
  | steps_cons t e t' es t'' : tc_step t e t' → tc_steps t' es t'' → tc_steps t (e :: es) t''.

Definition event_time (e : tc_event) : option Z :=
  match e with RunBegins now | Ticks now => Some now | _ => None end.

(** Seconds of a clock that reads [nsec] nanoseconds; Go's [/] rounds towards
    zero. *)
Definition NowUnix (nsec : Z) : Z :=
  let sec := Z.quot nsec 1000000000 in
  let nsec := nsec - sec * 1000000000 in
  if nsec <? 0 then sec - 1 else sec.

Lemma NowUnix_floor nsec : NowUnix nsec = nsec / 1000000000.
Proof.
  unfold NowUnix. pose proof (Z.quot_rem' nsec 1000000000) as E.
  destruct (Z.le_gt_cases 0 nsec) as [H|H].
  - rewrite (proj2 (Z.ltb_ge _ _)); [by apply Z.quot_div_nonneg|].
    pose proof (Z.rem_bound_pos nsec 1000000000 H eq_refl). lia.
  - pose proof (Z.rem_bound_pos_neg nsec 1000000000 eq_refl ltac:(lia)) as Hr.
    destruct (Z.ltb_spec (nsec - Z.quot nsec 1000000000 * 1000000000) 0) as [Hl|Hl].
    + apply (Z.div_unique _ _ _ (nsec - (Z.quot nsec 1000000000 - 1) * 1000000000)); lia.
    + apply (Z.div_unique _ _ _ 0); lia.
Qed.

(** The channel is closed exactly when [Stop] ran: it is never closed twice, so
    that [Stop] can always be called. *)
Definition tc_wf (t : TimeCache) : Prop :=
  closed t = onceStopper t ∧ (onceExecutor t = RunDone → closed t = true).

Lemma tc_step_wf t e t' : tc_step t e t' → tc_wf t → tc_wf t'.
Proof. unfold tc_wf. destruct 1; naive_solver. Qed.

Lemma tc_steps_wf t es t' : tc_steps t es t' → tc_wf t → tc_wf t'.
Proof. induction 1; eauto using tc_step_wf. Qed.

Lemma Stop_enabled t : tc_wf t → ∃ t', tc_step t Stops t' ∧ closed t' = true ∧ clock t' = clock t.
Proof.
  destruct t as [c cl ph []]; intros [Hcl _]; cbn in Hcl; subst cl;
    eexists; (split; [constructor|done]).
Qed.

(** A loop whose cache was stopped can return. *)
Lemma stopped_loop_returns t :
  closed t = true → onceExecutor t = RunLoop → ∃ t', tc_step t SeesClosed t' ∧ clock t' = clock t.
Proof. destruct t as [c cl ph st]; intros; simplify_eq/=. eexists. by split; [constructor|]. Qed.

(** Once the loop returned the clock stands still for ever. *)
Lemma returned_clock_stands t es t' :
  tc_steps t es t' → onceExecutor t = RunDone → clock t' = clock t ∧ onceExecutor t' = RunDone.
Proof.
  induction 1 as [|t e t1 es t2 Hs _ IH]; [done|]. intros Hd.
  assert (clock t1 = clock t ∧ onceExecutor t1 = RunDone) as [E Hd1] by (destruct Hs; naive_solver).
  rewrite <-E. by apply IH.
Qed.

(** The cached time is the last one a step stored, hence never ahead of a clock
    that does not go back, and itself never goes back. *)
Lemma cached_time_monotone t es t' now :
  tc_steps t es t' → StronglySorted Z.le (clock t :: omap event_time es ++ [now]) →
  clock t ≤ clock t' ≤ now.
Proof.
  intros Hs. revert now. induction Hs as [t|t e t1 es t2 Hs _ IH]; intros now.
  { intros [_ Hall]%StronglySorted_inv. apply list.Forall_app in Hall as [_ Hall%Forall_inv]. lia. }
  cbn [omap list_omap]. destruct (event_time e) as [n|] eqn:En.
  - cbn [app]. intros [Hso Hall]%StronglySorted_inv. assert (clock t ≤ n) by by apply Forall_inv in Hall.
    assert (clock t1 = n ∨ clock t1 = clock t) as [E|E] by (destruct Hs; naive_solver).
    + rewrite <-E in Hso. apply IH in Hso. lia.
    + rewrite <-E. apply IH. apply StronglySorted_inv in Hso as [Hso _].
      constructor; [done|]. rewrite E. by apply Forall_inv_tail in Hall.
  - assert (clock t1 = clock t) as <- by (destruct Hs; naive_solver). apply IH.
Qed.

(** ** Random numbers *)

Definition u64 (z : Z) : Z := wrap 64 z.
Definition shl64 (s : Z) (k : Z) : Z := u64 (Z.shiftl s k).
Definition rotl64 (s k : Z) : Z := Z.lor (shl64 s k) (Z.shiftr s (64 - k)).

(** The output and the next state. *)
Definition XoRoShiRo128SS (s0 s1 : Z) : Z * Z * Z :=
  let r := u64 (s0 * 5) in
  let r := u64 (rotl64 r 7 * 9) in
  let s1 := Z.lxor s1 s0 in
  let s0 := Z.lxor (Z.lxor (rotl64 s0 24) s1) (shl64 s1 16) in
  let s1 := rotl64 s1 37 in
  (r, s0, s1).

Definition XorShift64S (s : Z) : Z * Z :=
  let s := Z.lxor s (Z.shiftr s 12) in
  let s := Z.lxor s (shl64 s 25) in
  let s := Z.lxor s (Z.shiftr s 27) in
  (u64 (s * 0x2545F4914F6CDD1D), s).

Lemma u64_range z : uint 64 (u64 z).
Proof. apply wrap_uint. lia. Qed.

Lemma XoRoShiRo128SS_range s0 s1 : uint 64 (XoRoShiRo128SS s0 s1).1.1.
Proof. apply u64_range. Qed.

Example XorShift64S_1 : XorShift64S 1 = (0x47e4ce4b896cdd1d, 0x2000001).
Proof. vm_compute. reflexivity. Qed.

(** ** Configuration maps

    Values ([any]) and their decoding (mapstructure) are parameters; a nil map
    is [None]. *)

Definition MapConfig (V : Type) : Type := option (gmap bytes V).

Definition ErrNilConfigMap : GoError := OtherError (bs "unable to process nil map").

(** What [into] holds afterwards, and the error. *)
Definition Unmarshal {V T} (Decode : gmap bytes V → T → T * error) (m : MapConfig V) (into : T) : T * error :=
  match m with
  | None => (into, Some ErrNilConfigMap)
  | Some m => if decide (m = ∅) then (into, None) else Decode m into
  end.
