(* ===== verification/NetipText.v ===== *)
(** * The textual forms of [net/netip] addresses

    [netip.ParseAddr], [netip.ParseAddrPort] and [Addr.String], as of Go 1.22.4;
    an error is [None], since the code never looks at it. *)

From S2P Require Import Prelude GoStd Netip.

Local Open Scope Z_scope.

(** ** IPv4 *)

(** One octet: decimal digits without a leading zero, at most 255. *)
Definition parse_octet (s : bytes) : option Z :=
  match s with
  | [] => None
  | c :: rest =>
      if negb (forallb is_digit s) then None
      else if byte_eqb c "0"%byte && negb (bool_decide (rest = [])) then None
      else if (3 <? length s)%nat then None
      else if 255 <? dec_value s then None else Some (dec_value s)
  end.

(** The four fields of [parseIPv4Fields]. *)
Definition parseIPv4Fields (s : bytes) : option bytes :=
  match Split "."%byte s with
  | [a; b; c; d] =>
      a ← parse_octet a; b ← parse_octet b; c ← parse_octet c; d ← parse_octet d;
      Some (byte_of_Z <$> [a; b; c; d])
  | _ => None
  end.

Definition parseIPv4 (s : bytes) : option Addr := Addr4 ∘ be_get <$> parseIPv4Fields s.

(** ** IPv6 *)

(** The hexadecimal digits at the front: their value, how many, and the rest.
    A fifth digit, or a value above 16 bits, is an error. *)
Fixpoint hex_group (s : bytes) (off : nat) (acc : Z) : option (Z * nat * bytes) :=
  match s with
  | [] => Some (acc, off, [])
  | c :: s' =>
      match unhex c with
      | None => Some (acc, off, s)
      | Some d =>
          let acc := Z.shiftl acc 4 + d in
          if (3 <? off)%nat || (0xffff <? acc) then None else hex_group s' (S off) acc
      end
  end.

(** The loop over the groups: [ip] holds the bytes read so far, [ellipsis] where
    "::" was; it ends after at most eight groups. *)
Fixpoint ipv6_loop (fuel : nat) (s ip : bytes) (ellipsis : option nat) : option (bytes * bytes * option nat) :=
  match fuel with
  | O => Some (s, ip, ellipsis)
  | S fuel =>
      if (16 <=? length ip)%nat then Some (s, ip, ellipsis)
      else
        '(acc, off, rest) ← hex_group s 0 0;
        if decide (off = 0%nat) then None
        else
          match rest with
          | [] => Some ([], ip ++ be_put 2 acc, ellipsis)
          | c :: rest' =>
              if byte_eqb c "."%byte then
                if bool_decide (ellipsis = None) && negb (length ip =? 12)%nat then None
                else if (16 <? length ip + 4)%nat then None
                else v4 ← parseIPv4Fields s; Some ([], ip ++ v4, ellipsis)
              else
                let ip := ip ++ be_put 2 acc in
                if negb (byte_eqb c ":"%byte) then None
                else
                  match rest' with
                  | [] => None
                  | c' :: rest'' =>
                      if byte_eqb c' ":"%byte then
                        if bool_decide (ellipsis ≠ None) then None
                        else if decide (rest'' = []) then Some ([], ip, Some (length ip))
                        else ipv6_loop fuel rest'' ip (Some (length ip))
                      else ipv6_loop fuel rest' ip ellipsis
                  end
          end
  end.

(** The ellipsis expanded to zeros. *)
Definition expand (ip : bytes) (ellipsis : option nat) : option bytes :=
  if (length ip <? 16)%nat then
    e ← ellipsis; Some (take e ip ++ replicate (16 - length ip) x00 ++ drop e ip)
  else match ellipsis with Some _ => None | None => Some ip end.

Definition parseIPv6 (s : bytes) : option Addr :=
  '(s, zone) ←
    match index_of (byte_eqb "%"%byte) s with
    | Some i => let zone := drop (S i) s in if decide (zone = []) then None else Some (take i s, zone)
    | None => Some (s, [])
    end;
  let '(s, ellipsis) :=
    if HasPrefix s (bs "::") then (drop 2 s, Some 0%nat) else (s, None) in
  if bool_decide (s = []) && bool_decide (ellipsis = Some 0%nat) then Some (Addr6 0 zone)
  else
    '(rest, ip, ellipsis) ← ipv6_loop 8 s [] ellipsis;
    if decide (rest ≠ []) then None
    else ip ← expand ip ellipsis; Some (Addr6 (be_get ip) zone).

(** [netip.ParseAddr]: the first of "." ":" "%" decides. *)
Definition is_addr_mark (c : byte) : bool :=
  byte_eqb c "."%byte || byte_eqb c ":"%byte || byte_eqb c "%"%byte.

Definition ParseAddr (s : bytes) : option Addr :=
  i ← index_of is_addr_mark s;
  c ← s !! i;
  if byte_eqb c "."%byte then parseIPv4 s
  else if byte_eqb c ":"%byte then parseIPv6 s
  else None.

(** [strings.LastIndexByte]. *)
Definition last_index_of (p : byte → bool) (s : bytes) : option nat :=
  i ← index_of p (reverse s); Some (length s - 1 - i)%nat.

(** [netip.ParseAddrPort]: the address and the port. *)
Definition ParseAddrPort (s : bytes) : option (Addr * Z) :=
  i ← last_index_of (byte_eqb ":"%byte) s;
  let ip := take i s in
  let port := drop (S i) s in
  if decide (ip = [] ∨ port = []) then None
  else
    '(ip, v6) ←
      match ip with
      | "["%byte :: rest =>
          if bool_decide (list.last rest = Some "]"%byte) then Some (take (length rest - 1) rest, true) else None
      | _ => Some (ip, false)
      end;
    match ParseUint port 16 with
    | Err _ => None
    | Ok port =>
        a ← ParseAddr ip;
        if v6 && Is4 a then None else if negb v6 && Is6 a then None else Some (a, port)
    end.

(** ** Text of an address *)

(** Lower case hexadecimal without leading zeros ([appendHex]). *)
Fixpoint hex_digits (fuel : nat) (n : Z) : bytes :=
  match fuel with
  | O => []
  | S fuel => (if n <? 16 then [] else hex_digits fuel (n / 16)) ++ [hex_digit (n mod 16)]
  end.

Definition appendHex (x : Z) : bytes := hex_digits 4 x.

(** How many groups from [i] on are zero. *)
Fixpoint zero_run (ip : Z) (n : nat) (i : Z) : Z :=
  match n with
  | O => 0
  | S n => if (i <? 8) && (v6u16 ip i =? 0) then 1 + zero_run ip n (i + 1) else 0
  end.

(** The first of the longest runs of at least two zero groups. *)
Definition longest_zeros (ip : Z) : Z * Z :=
  foldl (λ '(zs, ze) i,
    let l := zero_run ip 8 i in
    if (2 <=? l) && (ze - zs <? l) then (i, i + l) else (zs, ze)) (255, 255) (seqZ 0 8).

Fixpoint groups (fuel : nat) (ip zs ze i : Z) : bytes :=
  match fuel with
  | O => []
  | S fuel =>
      if i >=? 8 then []
      else if i =? zs then
        bs "::" ++ (if ze >=? 8 then [] else appendHex (v6u16 ip ze) ++ groups fuel ip zs ze (ze + 1))
      else (if i >? 0 then bs ":" else []) ++ appendHex (v6u16 ip i) ++ groups fuel ip zs ze (i + 1)
  end.

Definition Addr_String (a : Addr) : bytes :=
  match a with
  | AddrNone => bs "invalid IP"
  | Addr4 ip => str_join (bs ".") ((λ i, Itoa (v4 ip i)) <$> [0; 1; 2; 3])
  | Addr6 ip zone =>
      (if Is4In6 a then
         bs "::ffff:" ++ str_join (bs ".") ((λ i, Itoa (v4 (Z.land ip 0xffffffff) i)) <$> [0; 1; 2; 3])
       else let '(zs, ze) := longest_zeros ip in groups 9 ip zs ze 0) ++
      (if decide (zone = []) then [] else bs "%" ++ zone)
  end.

(** ** Examples *)

Example parse_v4 : ParseAddr (bs "192.168.1.20") = Some (Addr4 0xc0a80114).
Proof. reflexivity. Qed.
Example parse_v4_zero : ParseAddr (bs "192.168.01.20") = None.
Proof. reflexivity. Qed.
Example parse_v6 : ParseAddr (bs "2001:db8::1") = Some (Addr6 0x20010db8000000000000000000000001 []).
Proof. reflexivity. Qed.
Example parse_v6_mixed : ParseAddr (bs "::ffff:1.2.3.4%eth0") = Some (Addr6 0xffff01020304 (bs "eth0")).
Proof. reflexivity. Qed.
Example parse_v6_full : ParseAddr (bs "1:2:3:4:5:6:7::8") = None.
Proof. reflexivity. Qed.
Example parse_v6_seven : ParseAddr (bs "1:2:3:4:5:6:7::") = Some (Addr6 0x00010002000300040005000600070000 []).
Proof. reflexivity. Qed.
Example parse_addr_port : ParseAddrPort (bs "[::1]:8080") = Some (Addr6 1 [], 8080).
Proof. reflexivity. Qed.
Example print_v6 : Addr_String (Addr6 0x20010db8000000000001000000000001 []) = bs "2001:db8::1:0:0:1".
Proof. reflexivity. Qed.
Example print_v6_last : Addr_String (Addr6 0x00010002000300040005000600000000 []) = bs "1:2:3:4:5:6::".
Proof. reflexivity. Qed.
Example print_v4 : Addr_String (Addr4 0xc0a80114) = bs "192.168.1.20".
Proof. reflexivity. Qed.
