(* ===== verification/Log.v ===== *)
(** * Logging

    src/pkg/log: the root logger, [ConfigureLogger], and the child loggers that
    take a copy of the root logger when they are first used.  zerolog, the
    writers and the opening of files are parameters; a call of a wrapper is
    which zerolog logger it delegates to and what it asks of it. *)

From S2P Require Import Prelude GoStd.

Module Log.

(** What the code uses of zerolog, of [os] and of the diode writer. *)
Class Zerolog := {
  ZLogger : Type;                              (* zerolog.Logger *)
  Writer : Type;
  Level : Type;                                (* zerolog.Level *)
  File : Type;
  Stderr : Writer;
  Stdout : Writer;
  OpenFile : bytes → File + GoError;
  diode_NewWriter : File → Writer;
  ConsoleWriter : Writer → bool → Writer;      (* Out, NoColor *)
  WarnLevel : Level;
  ParseLevel : bytes → Level + GoError;
  New : Writer → ZLogger;                      (* New(w).With().Timestamp().Logger() *)
  With_component : bytes → ZLogger → ZLogger;  (* With().Str("component", c).Logger() *)
  global : ZLogger;                            (* the Logger of zerolog/log *)
}.

Section Log.
Context `{Zerolog} `{Unicode}.

(** The method of the zerolog logger that a wrapper calls, with its arguments. *)
Inductive call :=
  | CTrace | CDebug | CInfo | CWarn | CError | CErr (err : option GoError) | CFatal | CPanic
  | CWithLevel (level : Level) | CLog | CPrint (v : list bytes) | CPrintf (format : bytes) (v : list bytes)
  | CWrite (p : bytes).

(** ** The package's state *)

Record Logger := MkLogger {
  lg_comp : bytes;
  lg_zlOnce : option ZLogger;    (* the logger its once has set *)
}.

Record state := MkState {
  root : ZLogger;
  customOut : option Writer;
  globalLevel : option Level;    (* [None]: zerolog's default *)
  children : list Logger;        (* those made by [NewLogger] *)
}.

Definition initial : state := MkState global None None [].

Definition set_root (z : ZLogger) (s : state) : state := MkState z (customOut s) (globalLevel s) (children s).
Definition set_customOut (w : option Writer) (s : state) : state := MkState (root s) w (globalLevel s) (children s).
Definition SetGlobalLevel (l : Level) (s : state) : state := MkState (root s) (customOut s) (Some l) (children s).
Definition set_children (c : list Logger) (s : state) : state := MkState (root s) (customOut s) (globalLevel s) c.

Definition NewLogger (component : bytes) (s : state) : state :=
  set_children (children s ++ [MkLogger component None]) s.

(** ** [ConfigureLogger] *)

(** The writer of an output, and whether it is one of the standard ones; a file
    becomes the custom output. *)
Definition open_output (output : bytes) (s : state) : state * ((Writer * bool) + GoError) :=
  if decide (output = bs "stderr" ∨ output = []) then (s, inl (Stderr, true))
  else if decide (output = bs "stdout") then (s, inl (Stdout, true))
  else
    match OpenFile output with
    | inl f => let w := diode_NewWriter f in (set_customOut (Some w) s, inl (w, false))
    | inr err => (s, inr err)
    end.

Definition ConfigureLogger (output level : bytes) (formatted colored : bool) (s : state) : state * option GoError :=
  let output := ToLower output in
  let '(s, opened) := open_output output s in
  match opened with
  | inr err => (s, Some err)
  | inl (w, stdAny) =>
      let w := if stdAny && formatted then ConsoleWriter w (negb colored) else w in
      match (if decide (level = []) then inl WarnLevel else ParseLevel (ToLower level)) with
      | inr err => (s, Some err)
      | inl lvl => (SetGlobalLevel lvl (set_root (New w) s), None)
      end
  end.

(** What [Close] closes, and the state after it. *)
Definition Close (s : state) : state * option Writer :=
  match customOut s with Some w => (set_customOut None s, Some w) | None => (s, None) end.

(** ** Child loggers *)

(** [init], and the embedded logger after it. *)
Definition init (z : ZLogger) (l : Logger) : Logger * ZLogger :=
  match lg_zlOnce l with
  | Some z' => (l, z')
  | None => let z' := With_component (lg_comp l) z in (MkLogger (lg_comp l) (Some z'), z')
  end.

(** [l.init(); return l.Logger.m(...)] for the [i]th child, [None] when there is
    none: the zerolog logger called and the method. *)
Definition delegate (m : call) (i : nat) (s : state) : option (state * (ZLogger * call)) :=
  l ← children s !! i;
  let '(l, z) := init (root s) l in
  Some (set_children (<[i := l]> (children s)) s, (z, m)).

Definition Logger_Trace := delegate CTrace.
Definition Logger_Debug := delegate CDebug.
Definition Logger_Info := delegate CInfo.
Definition Logger_Warn := delegate CWarn.
Definition Logger_Error := delegate CError.
Definition Logger_Err (err : option GoError) := delegate (CErr err).
Definition Logger_Fatal := delegate CFatal.
Definition Logger_Panic := delegate CPanic.
Definition Logger_WithLevel (level : Level) := delegate (CWithLevel level).
Definition Logger_Log := delegate CLog.
Definition Logger_Print (v : list bytes) := delegate (CPrint v).
Definition Logger_Printf (format : bytes) (v : list bytes) := delegate (CPrintf format v).
Definition Logger_Write (p : bytes) := delegate (CWrite p).

(** ** The root logger *)

Definition on_root (m : call) (s : state) : ZLogger * call := (root s, m).

Definition Err (err : option GoError) := on_root (CErr err).
Definition Trace := on_root CTrace.
Definition Debug := on_root CDebug.
Definition Info := on_root CInfo.
Definition Warn := on_root CWarn.
Definition Error := on_root CError.
Definition Fatal := on_root CFatal.
Definition Panic := on_root CPanic.
Definition WithLevel (level : Level) := on_root (CWithLevel level).
Definition Log := on_root CLog.
Definition Print (v : list bytes) := on_root (CPrint v).
Definition Printf (format : bytes) (v : list bytes) := on_root (CPrintf format v).

(** ** Sequences of calls *)

Inductive op :=
  | OConfigure (output level : bytes) (formatted colored : bool)
  | ONew (component : bytes)
  | OChild (i : nat) (m : call)
  | ORoot (m : call)
  | OClose.

(** The state after a call, and the event it starts if any. *)
Definition run_op (o : op) (s : state) : option (state * option (ZLogger * call)) :=
  match o with
  | OConfigure output level formatted colored => Some ((ConfigureLogger output level formatted colored s).1, None)
  | ONew component => Some (NewLogger component s, None)
  | OChild i m => '(s, e) ← delegate m i s; Some (s, Some e)
  | ORoot m => Some (s, Some (on_root m s))
  | OClose => Some ((Close s).1, None)
  end.

Fixpoint run_ops (os : list op) (s : state) : option (state * list (op * (ZLogger * call))) :=
  match os with
  | [] => Some (s, [])
  | o :: os =>
      '(s, e) ← run_op o s;
      '(s, es) ← run_ops os s;
      Some (s, match e with Some e => (o, e) :: es | None => es end)
  end.

(** ** Facts *)

Definition is_child (i : nat) (o : op) : Prop := match o with OChild j _ => i = j | _ => False end.
Definition configures (o : op) : Prop := match o with OConfigure _ _ _ _ => True | _ => False end.

(** What a call leaves of a child that is not its receiver, of a child whose
    once has run, and of the root logger. *)
Lemma run_op_keeps o s s' e i l :
  run_op o s = Some (s', e) → children s !! i = Some l → ¬ is_child i o ∨ lg_zlOnce l ≠ None →
  children s' !! i = Some l.
Proof.
  destruct o as [output level f c|comp|j m|m|]; cbn [run_op].
  - intros [= <- _] Hl _. unfold ConfigureLogger, open_output.
    repeat (case_decide || destruct (OpenFile _)); try done;
      destruct (ParseLevel _); done.
  - intros [= <- _] Hl _. cbn [NewLogger set_children children]. by apply lookup_app_l_Some.
  - unfold delegate. destruct (children s !! j) as [l'|] eqn:Hj; [|done]. cbn [mbind option_bind].
    destruct (init (root s) l') as [l2 z] eqn:Hi. intros [= <- _] Hl Hor. cbn [set_children children].
    destruct (decide (i = j)) as [<-|Hij]; [|by rewrite list_lookup_insert_ne].
    rewrite Hl in Hj. injection Hj as <-. destruct Hor as [[]|Ho]; [done|].
    unfold init in Hi. destruct (lg_zlOnce l); [|done]. injection Hi as <- _.
    rewrite list_lookup_insert_eq; [done|]. by eapply lookup_lt_Some.
  - by intros [= <- _] Hl _.
  - intros [= <- _] Hl _. unfold Close. by destruct (customOut s).
Qed.

Lemma run_op_root o s s' e : run_op o s = Some (s', e) → ¬ configures o → root s' = root s.
Proof.
  destruct o as [output level f c|comp|j m|m|]; cbn [run_op configures]; [tauto|..].
  - by intros [= <- _].
  - unfold delegate. destruct (children s !! j) as [l|]; [|done]. cbn [mbind option_bind].
    destruct (init (root s) l). by intros [= <- _].
  - by intros [= <- _].
  - intros [= <- _]. unfold Close. by destruct (customOut s).
Qed.

Lemma run_ops_app os1 os2 s s' es :
  run_ops (os1 ++ os2) s = Some (s', es) →
  ∃ s1 es1 es2, run_ops os1 s = Some (s1, es1) ∧ run_ops os2 s1 = Some (s', es2) ∧ es = es1 ++ es2.
Proof.
  revert s es. induction os1 as [|o os1 IH]; intros s es; cbn [run_ops app]; [by eauto 6|].
  destruct (run_op o s) as [[s2 e]|]; [|done]. cbn [mbind option_bind].
  destruct (run_ops (os1 ++ os2) s2) as [[s3 es3]|] eqn:E; [|done]. cbn [mbind option_bind]. intros [= <- <-].
  destruct (IH _ _ E) as (s1 & es1 & es2 & -> & ? & ->). cbn [mbind option_bind].
  exists s1. destruct e; by eauto 6.
Qed.

Lemma run_ops_keeps os s s' es i l :
  run_ops os s = Some (s', es) → children s !! i = Some l → Forall (λ o, ¬ is_child i o ∨ lg_zlOnce l ≠ None) os →
  children s' !! i = Some l.
Proof.
  revert s es. induction os as [|o os IH]; intros s es; cbn [run_ops]; [by intros [= <- _]|].
  destruct (run_op o s) as [[s2 e]|] eqn:Eo; [|done]. cbn [mbind option_bind].
  destruct (run_ops os s2) as [[s3 es3]|] eqn:E; [|done]. cbn [mbind option_bind]. intros [= <- _] Hl [Ho Hos]%list.Forall_cons.
  eapply IH; [done| |done]. by eapply run_op_keeps.
Qed.

Lemma run_ops_root os s s' es : run_ops os s = Some (s', es) → Forall (λ o, ¬ configures o) os → root s' = root s.
Proof.
  revert s es. induction os as [|o os IH]; intros s es; cbn [run_ops]; [by intros [= <- _]|].
  destruct (run_op o s) as [[s2 e]|] eqn:Eo; [|done]. cbn [mbind option_bind].
  destruct (run_ops os s2) as [[s3 es3]|] eqn:E; [|done]. cbn [mbind option_bind]. intros [= <- _] [Ho Hos]%list.Forall_cons.
  rewrite (IH _ _ E Hos). by eapply run_op_root.
Qed.

(** The events of a child whose once has run. *)
Lemma run_ops_bound os s s' es i c z m e :
  run_ops os s = Some (s', es) → children s !! i = Some (MkLogger c (Some z)) → (OChild i m, e) ∈ es → e = (z, m).
Proof.
  revert s es. induction os as [|o os IH]; intros s es; cbn [run_ops].
  { intros [= <- <-] _ []%elem_of_nil. }
  destruct (run_op o s) as [[s2 e2]|] eqn:Eo; [|done]. cbn [mbind option_bind].
  destruct (run_ops os s2) as [[s3 es3]|] eqn:E; [|done]. cbn [mbind option_bind]. intros [= <- <-] Hl Hin.
  assert (children s2 !! i = Some (MkLogger c (Some z))) as Hl2 by (eapply run_op_keeps; [done..|by right]).
  destruct e2 as [e2|]; [|by eapply IH]. apply list.elem_of_cons in Hin as [[= <- ->]|Hin]; [|by eapply IH].
  revert Eo. cbn [run_op]. unfold delegate. rewrite Hl. cbn [mbind option_bind init lg_zlOnce]. by intros [= _ <-].
Qed.

Lemma run_ops_silent os s s' es i m e :
  run_ops os s = Some (s', es) → Forall (λ o, ¬ is_child i o) os → (OChild i m, e) ∉ es.
Proof.
  revert s es. induction os as [|o os IH]; intros s es; cbn [run_ops].
  { intros [= <- <-] _. apply not_elem_of_nil. }
  destruct (run_op o s) as [[s2 e2]|] eqn:Eo; [|done]. cbn [mbind option_bind].
  destruct (run_ops os s2) as [[s3 es3]|] eqn:E; [|done]. cbn [mbind option_bind]. intros [= <- <-] [Ho Hos]%list.Forall_cons.
  destruct e2; [|by eapply IH]. intros [[= <- _]|Hin]%list.elem_of_cons; [|by eapply IH].
  by apply Ho.
Qed.

(** ** Properties *)

(** A child logger never waits for [ConfigureLogger]: its first call takes
    the root logger as it is then, and every event it ever starts goes to that
    copy, however the root is configured afterwards; so a child first used
    before any configuration keeps writing to the unconfigured root. *)
Theorem child_keeps_first_root (before after : list op) (i : nat) (m : call) (c : bytes) (s s' : state) es :
  children s !! i = Some (MkLogger c None) → Forall (λ o, ¬ is_child i o) before →
  run_ops (before ++ OChild i m :: after) s = Some (s', es) →
  ∃ s1 es1, run_ops before s = Some (s1, es1) ∧
    (OChild i m, (With_component c (root s1), m)) ∈ es ∧
    (∀ m' e, (OChild i m', e) ∈ es → e = (With_component c (root s1), m')) ∧
    (Forall (λ o, ¬ configures o) before → root s1 = root s).
Proof.
  intros Hc Hb (s1 & es1 & es2 & H1 & H2 & ->)%run_ops_app. exists s1, es1. split; [done|].
  assert (children s1 !! i = Some (MkLogger c None)) as Hc1.
  { eapply run_ops_keeps; [done..|]. eapply list.Forall_impl; [exact Hb|]. by left. }
  revert H2. cbn [run_ops run_op]. unfold delegate. rewrite Hc1. cbn [mbind option_bind init lg_zlOnce lg_comp].
  set (z := With_component c (root s1)).
  destruct (run_ops after _) as [[s3 es3]|] eqn:E; [|done]. cbn [mbind option_bind]. intros [= -> <-].
  split; [apply elem_of_app; right; apply list.elem_of_cons; by left|]. split; [|by apply (run_ops_root _ _ _ _ H1)].
  intros m' e [Hin|[[= -> ->]|Hin]%list.elem_of_cons]%elem_of_app; [by destruct (run_ops_silent _ _ _ _ _ m' e H1 Hb)|done|].
  eapply run_ops_bound; [exact E| |exact Hin]. cbn [set_children children].
  apply list_lookup_insert_eq. by eapply lookup_lt_Some.
Qed.
End Log.

(** ** A concrete logger *)

(** A logger is the writer it has and its component; files are their names. *)
#[export] Instance simple_zerolog : Zerolog := {|
  ZLogger := bytes * bytes; Writer := bytes; Level := bytes; File := bytes;
  Stderr := bs "stderr"; Stdout := bs "stdout"; OpenFile f := inl f; diode_NewWriter f := f;
  ConsoleWriter w _ := w; WarnLevel := bs "warn"; ParseLevel l := inl l;
  New w := (w, []); With_component c z := (z.1, c); global := (bs "stderr", []) |}.

#[local] Instance ascii_lower : Unicode := {| unicode_to_lower s := s |}.

(** The first message of a component before the configuration, and a second
    after it. *)
Definition early_use : list op :=
  [OChild 0 CInfo; OConfigure (bs "stdout") [] false false; OChild 0 CWarn; ORoot CWarn].

Lemma child_keeps_first_root_witness :
  let s := NewLogger (bs "redis") initial in
  ∃ s' es, run_ops early_use s = Some (s', es) ∧
    (∀ m e, (OChild 0 m, e) ∈ es → e = ((bs "stderr", bs "redis"), m)) ∧
    (ORoot CWarn, ((bs "stdout", []), CWarn)) ∈ es.
Proof.
  cbv zeta. destruct (run_ops early_use (NewLogger (bs "redis") initial)) as [[s' es]|] eqn:E;
    [|vm_compute in E; discriminate E].
  exists s', es. split; [reflexivity|].
  destruct (child_keeps_first_root [] (tail early_use) 0 CInfo (bs "redis") (NewLogger (bs "redis") initial) s' es
    eq_refl (List.Forall_nil _) E) as (s1 & es1 & H1 & _ & H2 & _).
  injection H1 as <- _. split; [exact H2|]. vm_compute in E. injection E as _ <-. vm_compute.
  repeat first [apply list_elem_of_here | apply list_elem_of_further].
Defined.

(** The name of a log file is lowercased: the file written is another one. *)
Example log_file_lowercased :
  customOut (ConfigureLogger (bs "/var/log/MoChi.log") [] false false initial).1 = Some (bs "/var/log/mochi.log").
Proof. vm_compute. reflexivity. Qed.

(** A second configuration forgets the first file without closing it. *)
Example reconfigured_file_left_open :
  (Close (ConfigureLogger (bs "b") [] false false (ConfigureLogger (bs "a") [] false false initial).1).1).2 = Some (bs "b").
Proof. vm_compute. reflexivity. Qed.
End Log.
