(* ===== verification/Bencode.v ===== *)
(** * Bencoding (BEP 3)

    The reference for what the HTTP frontend writes: values, their encoding and
    a decoder, with the round trip for any bytes that follow. *)

From S2P Require Import Prelude GoStd.

Local Open Scope Z_scope.

#[warnings="-register-all"]
Inductive bvalue :=
  | BInt (n : Z)
  | BStr (s : bytes)
  | BList (l : list bvalue)
  | BDict (d : list (bytes * bvalue)).

Definition bencode_str (s : bytes) : bytes := Itoa (Z.of_nat (length s)) ++ bs ":" ++ s.

Fixpoint bencode (v : bvalue) : bytes :=
  match v with
  | BInt n => bs "i" ++ Itoa n ++ bs "e"
  | BStr s => bencode_str s
  | BList l => bs "l" ++ concat (map bencode l) ++ bs "e"
  | BDict d => bs "d" ++ concat (map (λ kv, bencode_str kv.1 ++ bencode kv.2) d) ++ bs "e"
  end.

(** ** Decoding: a value and what is left *)

Definition bdecode_str (s : bytes) : option (bytes * bytes) :=
  i ← index_of (byte_eqb ":"%byte) s;
  match ParseUint (take i s) 63 with
  | Err _ => None
  | Ok n =>
      let rest := drop (S i) s in
      if Z.of_nat (length rest) <? n then None
      else Some (take (Z.to_nat n) rest, drop (Z.to_nat n) rest)
  end.

Definition bdecode_int (s : bytes) : option (Z * bytes) :=
  i ← index_of (byte_eqb "e"%byte) s;
  match ParseInt (take i s) 64 with Err _ => None | Ok n => Some (n, drop (S i) s) end.

(** Reads with [dec] up to the end mark. *)
Fixpoint read_many {A} (fuel : nat) (dec : bytes → option (A * bytes)) (s : bytes) : option (list A * bytes) :=
  match fuel, s with
  | O, _ | _, [] => None
  | S fuel, c :: s' =>
      if byte_eqb c "e"%byte then Some ([], s')
      else '(x, s) ← dec s; '(l, s) ← read_many fuel dec s; Some (x :: l, s)
  end.

Fixpoint bdecode (fuel : nat) (s : bytes) : option (bvalue * bytes) :=
  match fuel, s with
  | O, _ | _, [] => None
  | S fuel, c :: s' =>
      if byte_eqb c "i"%byte then '(n, s) ← bdecode_int s'; Some (BInt n, s)
      else if byte_eqb c "l"%byte then '(l, s) ← read_many fuel (bdecode fuel) s'; Some (BList l, s)
      else if byte_eqb c "d"%byte then
        '(d, s) ← read_many fuel (λ s, '(k, s) ← bdecode_str s; '(v, s) ← bdecode fuel s; Some ((k, v), s)) s';
        Some (BDict d, s)
      else '(x, s) ← bdecode_str s; Some (BStr x, s)
  end.

(** A whole document. *)
Definition bdecode_all (s : bytes) : option bvalue :=
  '(v, rest) ← bdecode (length s) s;
  if decide (rest = []) then Some v else None.

(** ** Round trip *)

(** Integers fit 64 bits and strings a 63-bit length. *)
Fixpoint bvalue_wf (v : bvalue) : Prop :=
  match v with
  | BInt n => sint 64 n
  | BStr s => uint 63 (Z.of_nat (length s))
  | BList l => foldr (λ v P, bvalue_wf v ∧ P) True l
  | BDict d => foldr (λ kv P, (uint 63 (Z.of_nat (length kv.1)) ∧ bvalue_wf kv.2) ∧ P) True d
  end.

(** What a reader needs to read a text back, whatever follows it. *)
Definition reads {A} (dec : bytes → option (A * bytes)) (e : bytes) (x : A) : Prop :=
  ∀ rest, dec (e ++ rest) = Some (x, rest).

Lemma digits_free c (s : bytes) : is_digit c = false → forallb is_digit s = true →
  index_of (byte_eqb c) s = None.
Proof.
  intros Hc Hs. apply index_of_None. rewrite forallb_forall in Hs |- *.
  intros d Hd%Hs. simpl. unfold byte_eqb. case_bool_decide; [congruence|done].
Qed.

(** A text without the mark, the mark, and the rest. *)
Lemma index_of_mark c s rest :
  index_of (byte_eqb c) s = None → index_of (byte_eqb c) (s ++ c :: rest) = Some (length s).
Proof.
  intros Hs. apply index_of_app; [by apply index_of_None|]. unfold byte_eqb. by rewrite bool_decide_true.
Qed.

Lemma take_drop_mark {A} (s : list A) c rest :
  take (length s) (s ++ c :: rest) = s ∧ drop (S (length s)) (s ++ c :: rest) = rest.
Proof.
  split; [apply take_app_length|]. rewrite drop_app_ge by lia.
  by replace (S (length s) - length s)%nat with 1%nat by lia.
Qed.

Lemma bdecode_str_reads s : uint 63 (Z.of_nat (length s)) → reads bdecode_str (bencode_str s) s.
Proof.
  intros Hs rest. unfold bdecode_str, bencode_str. rewrite <-!app_assoc. change (bs ":") with [":"%byte].
  cbn [app]. destruct (Itoa_spec (Z.of_nat (length s)) ltac:(lia)) as (_ & Hd & _).
  rewrite index_of_mark by by apply digits_free. cbn [mbind option_bind].
  destruct (take_drop_mark (Itoa (Z.of_nat (length s))) ":"%byte (s ++ rest)) as [-> ->].
  rewrite ParseUint_Itoa by apply Hs.
  rewrite (proj2 (Z.ltb_ge _ _)) by (rewrite length_app; lia).
  by rewrite Nat2Z.id, take_app_length, drop_app_length.
Qed.

Lemma Itoa_no_e n : index_of (byte_eqb "e"%byte) (Itoa n) = None.
Proof.
  unfold Itoa. destruct (Z.ltb_spec n 0) as [Hn|Hn].
  - change (bs "-") with ["-"%byte]. cbn [app index_of].
    destruct (Itoa_spec (- n) ltac:(lia)) as (_ & Hd & _). unfold Itoa in Hd.
    rewrite (proj2 (Z.ltb_ge _ _)) in Hd by lia. by rewrite (digits_free "e"%byte).
  - destruct (Itoa_spec n Hn) as (_ & Hd & _). unfold Itoa in Hd.
    rewrite (proj2 (Z.ltb_ge _ _)) in Hd by lia. by apply digits_free.
Qed.

Lemma bdecode_int_reads n : sint 64 n → reads bdecode_int (Itoa n ++ bs "e") n.
Proof.
  intros Hn rest. unfold bdecode_int. rewrite <-app_assoc. change (bs "e" ++ rest) with ("e"%byte :: rest).
  rewrite index_of_mark by apply Itoa_no_e. cbn [mbind option_bind].
  destruct (take_drop_mark (Itoa n) "e"%byte rest) as [-> ->]. by rewrite ParseInt_Itoa.
Qed.

(** The first byte of a value is never the end mark. *)
Definition starts_value (e : bytes) : Prop := ∃ c t, e = c :: t ∧ c ≠ "e"%byte.

Lemma bencode_str_starts s : ∃ c t, bencode_str s = c :: t ∧ is_digit c = true.
Proof.
  unfold bencode_str. destruct (Itoa_spec (Z.of_nat (length s)) ltac:(lia)) as (_ & Hd & Hne).
  destruct (Itoa _) as [|c t]; [done|]. exists c. eexists. split; [done|].
  simpl in Hd. by apply andb_prop in Hd as [? _].
Qed.

Lemma bencode_starts v : starts_value (bencode v).
Proof.
  destruct v; cbn [bencode]; try by eexists _, _.
  destruct (bencode_str_starts s) as (c & t & -> & Hd). exists c, t. split; [done|]. by intros ->.
Qed.

Lemma read_many_reads {A} (dec : bytes → option (A * bytes)) (enc : A → bytes) l fuel :
  Forall (λ x, reads dec (enc x) x ∧ starts_value (enc x)) l → (length l < fuel)%nat →
  reads (read_many fuel dec) (concat (map enc l) ++ bs "e") l.
Proof.
  intros Hl. revert fuel. induction Hl as [|x l [Hr (c & t & Hc & Hne)] Hl IH]; intros fuel Hf rest.
  - by destruct fuel; [simpl in Hf; lia|].
  - destruct fuel as [|fuel]; [simpl in Hf; lia|]. cbn [map concat]. rewrite <-!app_assoc.
    specialize (Hr (concat (map enc l) ++ bs "e" ++ rest)). rewrite Hc in Hr |- *.
    cbn [app read_many] in *. unfold byte_eqb at 1. rewrite bool_decide_false by done.
    rewrite Hr. cbn [mbind option_bind]. rewrite app_assoc, IH by (simpl in Hf; lia). done.
Qed.

(** Fuel enough: the depth of the value, and its widest part. *)
Fixpoint bsize (v : bvalue) : nat :=
  match v with
  | BInt _ | BStr _ => 1%nat
  | BList l => S (Nat.max (S (length l)) (foldr (λ v n, Nat.max (bsize v) n)%nat 0%nat l))
  | BDict d => S (Nat.max (S (length d)) (foldr (λ kv n, Nat.max (bsize kv.2) n)%nat 0%nat d))
  end.

Lemma bdecode_bencode v : ∀ fuel, bvalue_wf v → (bsize v ≤ fuel)%nat → reads (bdecode fuel) (bencode v) v.
Proof.
  revert v. fix IH 1. intros [n|s|l|d] fuel Hwf Hf rest; (destruct fuel as [|fuel]; [simpl in Hf; lia|]).
  - cbn [bencode]. change (bs "i") with ["i"%byte]. rewrite <-!app_assoc. cbn [app bdecode].
    change (byte_eqb "i"%byte "i"%byte) with true. cbv iota. rewrite app_assoc.
    by rewrite (bdecode_int_reads n Hwf rest).
  - cbn [bencode]. destruct (bencode_str_starts s) as (c & t & E & Hd).
    pose proof (bdecode_str_reads s Hwf rest) as Hr. rewrite E in Hr |- *. cbn [app bdecode] in *.
    unfold byte_eqb. rewrite !bool_decide_false by (by intros ->). by rewrite Hr.
  - assert (Forall (λ v, reads (bdecode fuel) (bencode v) v ∧ starts_value (bencode v)) l) as Hl.
    { simpl in Hf, Hwf. assert (foldr (λ v n, Nat.max (bsize v) n)%nat 0%nat l ≤ fuel)%nat as Hf' by lia. clear Hf.
      revert Hwf Hf'. induction l as [|v l IHl]; intros Hwf Hf'; [by constructor|].
      simpl in Hwf, Hf'. destruct Hwf as [Hv Hwf]. constructor; [|apply IHl; [done|lia]].
      split; [|apply bencode_starts]. apply IH; [done|lia]. }
    cbn [bencode]. change (bs "l") with ["l"%byte]. rewrite <-!app_assoc. cbn [app bdecode].
    change (byte_eqb "l"%byte "i"%byte) with false. change (byte_eqb "l"%byte "l"%byte) with true. cbv iota.
    rewrite app_assoc, (read_many_reads _ bencode l fuel Hl) by (simpl in Hf; lia). done.
  - set (dec := λ s, '(k, s) ← bdecode_str s; '(v, s) ← bdecode fuel s; Some ((k, v), s)).
    set (enc := λ kv : bytes * bvalue, bencode_str kv.1 ++ bencode kv.2).
    assert (Forall (λ kv, reads dec (enc kv) kv ∧ starts_value (enc kv)) d) as Hd.
    { simpl in Hf, Hwf. assert (foldr (λ kv n, Nat.max (bsize kv.2) n)%nat 0%nat d ≤ fuel)%nat as Hf' by lia. clear Hf.
      revert Hwf Hf'. induction d as [|[k v] d IHd]; intros Hwf Hf'; [by constructor|].
      simpl in Hwf, Hf'. destruct Hwf as [[Hk Hv] Hwf]. constructor; [|apply IHd; [done|lia]].
      unfold dec, enc. cbn [fst snd]. split.
      - intros rest'. rewrite <-app_assoc, (bdecode_str_reads k Hk). cbn [mbind option_bind].
        by rewrite (IH v fuel Hv ltac:(lia) rest').
      - destruct (bencode_str_starts k) as (c & t & -> & Hdig). eexists _, _. split; [done|]. by intros ->. }
    cbn [bencode]. change (bs "d") with ["d"%byte]. rewrite <-!app_assoc. cbn [app bdecode].
    change (byte_eqb "d"%byte "i"%byte) with false. change (byte_eqb "d"%byte "l"%byte) with false.
    change (byte_eqb "d"%byte "d"%byte) with true. cbv iota.
    rewrite app_assoc, (read_many_reads dec enc d fuel Hd) by (simpl in Hf; lia). done.
Qed.

Lemma bencode_str_length s : (2 ≤ length (bencode_str s))%nat.
Proof.
  destruct (bencode_str_starts s) as (c & t & E & _). rewrite E. unfold bencode_str in E.
  destruct (Itoa_spec (Z.of_nat (length s)) ltac:(lia)) as (_ & _ & Hne).
  apply (f_equal length) in E. rewrite !length_app in E. simpl in E |- *.
  destruct (Itoa _); [done|]. simpl in E. lia.
Qed.

(** Every byte of a document is enough fuel to decode it. *)
Lemma bsize_length v : (2 ≤ length (bencode v))%nat ∧ (bsize v ≤ length (bencode v))%nat.
Proof.
  revert v. fix IH 1. intros [n|s|l|d].
  - cbn [bencode bsize]. rewrite !length_app. simpl. lia.
  - cbn [bencode bsize]. pose proof (bencode_str_length s). lia.
  - assert (length l + length l ≤ length (concat (map bencode l)) ∧
      foldr (λ v n, Nat.max (bsize v) n) 0 l ≤ length (concat (map bencode l)))%nat as H.
    { induction l as [|v l IHl]; [simpl; lia|]. cbn [map concat foldr length]. rewrite length_app.
      pose proof (IH v). lia. }
    cbn [bencode bsize]. rewrite !length_app. simpl. lia.
  - assert (length d + length d ≤ length (concat (map (λ kv, bencode_str kv.1 ++ bencode kv.2) d)) ∧
      foldr (λ kv n, Nat.max (bsize kv.2) n) 0 d ≤ length (concat (map (λ kv, bencode_str kv.1 ++ bencode kv.2) d)))%nat as H.
    { induction d as [|[k v] d IHd]; [simpl; lia|]. cbn [map concat foldr length fst snd]. rewrite !length_app.
      pose proof (IH v). lia. }
    cbn [bencode bsize]. rewrite !length_app. simpl. lia.
Qed.

Lemma bdecode_all_bencode v : bvalue_wf v → bdecode_all (bencode v) = Some v.
Proof.
  intros Hv. unfold bdecode_all.
  pose proof (bdecode_bencode v (length (bencode v)) Hv (proj2 (bsize_length v)) []) as E.
  rewrite app_nil_r in E. by rewrite E.
Qed.

(** Well-formedness of the keys and numbers of an answer. *)
Lemma small_key (s : bytes) : (length s <= 100)%nat → uint 63 (Z.of_nat (length s)).
Proof. unfold uint. lia. Qed.

Lemma uint32_sint64 z : uint 32 z → sint 64 z.
Proof. unfold uint, sint. lia. Qed.

Ltac small_key := apply small_key; vm_compute; repeat constructor.
