(* ===== verification/Bittorrent.v ===== *)
(** * Package [bittorrent]: the data every other package works on

    Events, peer IDs, info hashes, peers and requests
    (src/bittorrent/event.go, peer.go, request.go, params.go, sanitize.go),
    with the sanitizing every announce and scrape goes through. *)

From S2P Require Import Prelude GoStd Netip.

Local Open Scope Z_scope.

(** ** Events *)

(** [Event], a [uint8]: the four named values and the others. *)
Inductive Event :=
  | EvNone | Started | Stopped | Completed
  | EvOther (v : Z).

#[export] Instance Event_eq_dec : EqDecision Event.
Proof. solve_decision. Defined.

Definition NoneStr : bytes := bs "none".
Definition StartedStr : bytes := bs "started".
Definition StoppedStr : bytes := bs "stopped".
Definition CompletedStr : bytes := bs "completed".

Definition ErrUnknownEvent : GoError := ClientError (bs "unknown event").

Definition NewEvent `{Unicode} (eventStr : bytes) : result Event :=
  let s := ToLower eventStr in
  if decide (s = NoneStr ∨ s = []) then Ok EvNone
  else if decide (s = StartedStr) then Ok Started
  else if decide (s = StoppedStr) then Ok Stopped
  else if decide (s = CompletedStr) then Ok Completed
  else Err ErrUnknownEvent.

(** [Event.String]. *)
Definition Event_String (e : Event) : bytes :=
  match e with
  | EvNone => NoneStr
  | Started => StartedStr
  | Stopped => StoppedStr
  | Completed => CompletedStr
  | EvOther _ => bs "<unknown>"
  end.

(** The four events a client can send. *)
Definition Event_named (e : Event) : bool :=
  match e with EvOther _ => false | _ => true end.

(** ** Peer IDs and info hashes *)

Definition PeerIDLen : nat := 20.
(** [PeerID] is a 20-byte array, [InfoHash] a string. *)
Abbreviation PeerID := bytes.
Abbreviation InfoHash := bytes.

Definition ErrInvalidPeerIDSize : GoError := OtherError (bs "peer ID must be 20 bytes").

Definition NewPeerID (b : bytes) : result PeerID :=
  if decide (length b ≠ PeerIDLen) then Err ErrInvalidPeerIDSize else Ok b.

Definition InfoHashV1Len : nat := 20.
Definition InfoHashV2Len : nat := 32.

Definition ErrInvalidHashSize : GoError :=
  OtherError (bs "info hash must be either 20 (for torrent V1) or 32 (V2) bytes or same sizes x2 (if HEX encoded)").
(** [hex.InvalidByteError]. *)
Definition ErrInvalidHexByte : GoError := OtherError (bs "encoding/hex: invalid byte").

Definition NewInfoHash (data : bytes) : result InfoHash :=
  let l := length data in
  if decide (l = InfoHashV1Len ∨ l = InfoHashV2Len) then Ok data
  else if decide (l = InfoHashV1Len * 2 ∨ l = InfoHashV2Len * 2)%nat then
    of_option ErrInvalidHexByte (hex_decode data)
  else Err ErrInvalidHashSize.

Definition NewInfoHashString (data : bytes) : result InfoHash := NewInfoHash data.

Definition TruncateV1 (i : InfoHash) : InfoHash :=
  if decide (length i = InfoHashV2Len) then take InfoHashV1Len i else i.

(** [InfoHash.String] and [PeerID.String]. *)
Definition hex_String (i : bytes) : bytes := hex_encode i.

(** What [NewInfoHash] builds: 20 or 32 bytes. *)
Definition InfoHash_wf (i : InfoHash) : Prop :=
  length i = InfoHashV1Len ∨ length i = InfoHashV2Len.

(** ** Peers *)

Record Peer := MkPeer {
  peer_ID : PeerID;
  peer_addr : Addr;   (* AddrPort.Addr() *)
  peer_Port : Z;      (* AddrPort.Port() *)
}.

#[export] Instance Peer_eq_dec : EqDecision Peer.
Proof. solve_decision. Defined.

#[export] Instance Peer_countable : Countable Peer.
Proof.
  refine (inj_countable' (λ p, (peer_ID p, peer_addr p, peer_Port p))
    (λ x, MkPeer x.1.1 x.1.2 x.2) _).
  by intros [].
Defined.

(** [Peer.Addr]: the unmapped address. *)
Definition Peer_Addr (p : Peer) : Addr := Unmap (peer_addr p).
Definition Peer_Is6 (p : Peer) : bool := Is6 (Peer_Addr p).

(** ** Request addresses *)

Record RequestAddress := MkRequestAddress {
  ra_Addr : Addr;
  ra_Provided : bool;
}.

#[export] Instance RequestAddress_eq_dec : EqDecision RequestAddress.
Proof. solve_decision. Defined.

Definition globalBroadcastIPv4 : Addr := Addr4 (be_get [xff; xff; xff; xff]%byte).

(** [RequestAddress.IsValid]. *)
Definition ra_IsValid (a : RequestAddress) : bool :=
  IsValid (ra_Addr a)
  && negb (IsUnspecified (ra_Addr a) || IsMulticast (ra_Addr a)
           || bool_decide (ra_Addr a = globalBroadcastIPv4)).

Abbreviation RequestAddresses := (list RequestAddress).

(** [RequestAddresses.Less] on two elements. *)
Definition Less (a b : RequestAddress) : bool := ra_Provided a && negb (ra_Provided b).

(** The order [sort.Sort] establishes: no element is less than one before it. *)
Definition not_after (a b : RequestAddress) : Prop := Less b a = false.
#[export] Instance not_after_dec : RelDecision not_after.
Proof. intros a b. unfold not_after. apply _. Defined.

(** [RequestAddresses.Add]. *)
Definition Add (aa : RequestAddresses) (a : RequestAddress) : RequestAddresses :=
  if ra_IsValid a then aa ++ [MkRequestAddress (Unmap (ra_Addr a)) (ra_Provided a)] else aa.

(** Whether [Sanitize] keeps an address. *)
Definition keeps (ignorePrivate : bool) (a : RequestAddress) : bool :=
  ra_IsValid a && (negb ignorePrivate || IsGlobalUnicast (ra_Addr a) && negb (IsPrivate (ra_Addr a))).

(** The loop of [Sanitize] that fills [uniqueAddresses]. *)
Definition collect (ignorePrivate : bool) (m : gmap Addr bool) (a : RequestAddress) : gmap Addr bool :=
  if keeps ignorePrivate a then
    match m !! ra_Addr a with
    | None => <[ra_Addr a := ra_Provided a]> m
    | Some provided =>
        if negb provided && ra_Provided a then <[ra_Addr a := ra_Provided a]> m else m
    end
  else m.

(** [RequestAddresses.Sanitize]: what it returns and the new receiver.  The
    range over the map gives the entries in any order and [sort.Sort] is not
    stable; sorting a shuffled list stably covers every outcome of both. *)
Definition Sanitize `{Shuffle} (aa : RequestAddresses) (ignorePrivate : bool)
    : bool * RequestAddresses :=
  if decide (length aa = 0%nat) then (false, aa)
  else
    let uniqueAddresses := foldl (collect ignorePrivate) ∅ aa in
    let aa' := (λ '(a, p), MkRequestAddress a p) <$> range uniqueAddresses in
    let aa'' := if decide (1 < length aa')%nat then merge_sort not_after aa' else aa' in
    (bool_decide (0 < size uniqueAddresses)%nat, aa'').

(** [RequestAddresses.GetFirst]. *)
Definition GetFirst (aa : RequestAddresses) : Addr :=
  match aa with a :: _ => ra_Addr a | [] => AddrNone end.

(** ** Requests and responses *)

(** [Params]: the interface's [GetString]. *)
Definition Params := bytes → option bytes.

Record RequestPeer := MkRequestPeer {
  rp_ID : PeerID;
  rp_Port : Z;
  rp_Addresses : RequestAddresses;
}.

(** [RequestPeer.Peers]. *)
Definition Peers (rp : RequestPeer) : list Peer :=
  (λ a, MkPeer (rp_ID rp) (ra_Addr a) (rp_Port rp)) <$> rp_Addresses rp.

Record AnnounceRequest := MkAnnounceRequest {
  ar_Event : Event;
  ar_InfoHash : InfoHash;
  ar_EventProvided : bool;
  ar_NumWantProvided : bool;
  ar_NumWant : Z;
  ar_Left : Z;
  ar_Downloaded : Z;
  ar_Uploaded : Z;
  ar_RequestPeer : RequestPeer;
  ar_Params : option Params;
}.

Record AnnounceResponse := MkAnnounceResponse {
  resp_Complete : Z;
  resp_Incomplete : Z;
  resp_Interval : Z;      (* time.Duration, nanoseconds *)
  resp_MinInterval : Z;
  resp_IPv4Peers : list Peer;
  resp_IPv6Peers : list Peer;
}.

Record ScrapeRequest := MkScrapeRequest {
  sr_Addresses : RequestAddresses;
  sr_InfoHashes : list InfoHash;
  sr_Params : option Params;
}.

Record Scrape := MkScrape {
  sc_InfoHash : InfoHash;
  sc_Snatches : Z;
  sc_Complete : Z;
  sc_Incomplete : Z;
}.

(** [ScrapeResponse.Data]. *)
Abbreviation ScrapeResponse := (list Scrape).

(** Record updates the code makes through the embedded [RequestPeer]. *)
Definition ar_with_peer (f : RequestPeer → RequestPeer) (r : AnnounceRequest) : AnnounceRequest :=
  {| ar_Event := ar_Event r; ar_InfoHash := ar_InfoHash r;
     ar_EventProvided := ar_EventProvided r; ar_NumWantProvided := ar_NumWantProvided r;
     ar_NumWant := ar_NumWant r; ar_Left := ar_Left r; ar_Downloaded := ar_Downloaded r;
     ar_Uploaded := ar_Uploaded r; ar_RequestPeer := f (ar_RequestPeer r);
     ar_Params := ar_Params r |}.

Definition ar_with_numwant (n : Z) (r : AnnounceRequest) : AnnounceRequest :=
  {| ar_Event := ar_Event r; ar_InfoHash := ar_InfoHash r;
     ar_EventProvided := ar_EventProvided r; ar_NumWantProvided := ar_NumWantProvided r;
     ar_NumWant := n; ar_Left := ar_Left r; ar_Downloaded := ar_Downloaded r;
     ar_Uploaded := ar_Uploaded r; ar_RequestPeer := ar_RequestPeer r;
     ar_Params := ar_Params r |}.

Definition rp_with_addresses (aa : RequestAddresses) (rp : RequestPeer) : RequestPeer :=
  MkRequestPeer (rp_ID rp) (rp_Port rp) aa.

Abbreviation ar_Addresses r := (rp_Addresses (ar_RequestPeer r)).

(** ** Sanitizing requests *)

Definition ErrInvalidIP : GoError := ClientError (bs "invalid IP").
Definition ErrInvalidPort : GoError := ClientError (bs "invalid port").

Definition SanitizeAnnounce `{Shuffle} (r : AnnounceRequest)
    (maxNumWant defaultNumWant : Z) (filterPrivate : bool) : result AnnounceRequest :=
  if rp_Port (ar_RequestPeer r) =? 0 then Err ErrInvalidPort
  else
    let '(ok, aa) := Sanitize (ar_Addresses r) filterPrivate in
    let r := ar_with_peer (rp_with_addresses aa) r in
    if negb ok then Err ErrInvalidIP
    else if negb (ar_NumWantProvided r) then Ok (ar_with_numwant defaultNumWant r)
    else if ar_NumWant r >? maxNumWant then Ok (ar_with_numwant maxNumWant r)
    else Ok r.

Definition SanitizeScrape `{Shuffle} (r : ScrapeRequest)
    (maxScrapeInfoHashes : Z) (filterPrivate : bool) : result ScrapeRequest :=
  let ihs := if Z.of_nat (length (sr_InfoHashes r)) >? maxScrapeInfoHashes
             then take (Z.to_nat maxScrapeInfoHashes) (sr_InfoHashes r)
             else sr_InfoHashes r in
  let '(ok, aa) := Sanitize (sr_Addresses r) filterPrivate in
  if negb ok then Err ErrInvalidIP else Ok (MkScrapeRequest aa ihs (sr_Params r)).

(** ** Route parameters and contexts *)

Record RouteParam := MkRouteParam { rparam_Key : bytes; rparam_Value : bytes }.

Fixpoint ByName (rp : list RouteParam) (name : bytes) : bytes :=
  match rp with
  | [] => []
  | p :: rp => if decide (rparam_Key p = name) then rparam_Value p else ByName rp name
  end.

(** A [context.Context]: the values of the three keys the tracker uses and
    [Err()].  [ctx_skip_swarm] and [ctx_skip_response] say whether a non-nil
    value is set for [SkipSwarmInteractionKey] and [SkipResponseHookKey]. *)
Record Context := MkContext {
  ctx_route : option (list RouteParam);
  ctx_skip_swarm : bool;
  ctx_skip_response : bool;
  ctx_Err : error;
}.

Definition Background : Context := MkContext None false false None.

(** [rp = None] is the nil slice. *)
Definition InjectRouteParamsToContext (ctx : Context) (rp : option (list RouteParam)) : Context :=
  MkContext (Some (default [] rp)) (ctx_skip_swarm ctx) (ctx_skip_response ctx) (ctx_Err ctx).

Definition RemapRouteParamsToBgContext (inCtx : Context) : Context :=
  let rp := match ctx_route inCtx with Some rp => rp | None => [] end in
  MkContext (Some rp) (ctx_skip_swarm Background) (ctx_skip_response Background)
    (ctx_Err Background).

(** ** Facts *)

Lemma NewPeerID_length b id : NewPeerID b = Ok id → b = id ∧ length id = PeerIDLen.
Proof. unfold NewPeerID. case_decide; [done|]. by intros [= <-]. Qed.

Lemma NewPeerID_Ok b : length b = PeerIDLen → NewPeerID b = Ok b.
Proof. intros Hb. unfold NewPeerID. by rewrite decide_False by auto. Qed.

Lemma NewInfoHash_raw i : InfoHash_wf i → NewInfoHash i = Ok i.
Proof. intros Hi. unfold NewInfoHash. by rewrite decide_True. Qed.

Lemma TruncateV1_length i : InfoHash_wf i → length (TruncateV1 i) = InfoHashV1Len.
Proof.
  unfold InfoHash_wf, TruncateV1, InfoHashV1Len, InfoHashV2Len. intros Hi.
  case_decide; rewrite ?length_take; lia.
Qed.

Lemma TruncateV1_wf i : InfoHash_wf i → InfoHash_wf (TruncateV1 i).
Proof. left. by apply TruncateV1_length. Qed.

Lemma NewInfoHash_wf data i : NewInfoHash data = Ok i → InfoHash_wf i.
Proof.
  unfold NewInfoHash. case_decide as H1; [by intros [= <-]|].
  case_decide as H2; [|done].
  destruct (hex_decode data) as [t|] eqn:Ht; [|done]. intros [= <-].
  apply hex_decode_length in Ht. unfold InfoHash_wf, InfoHashV1Len, InfoHashV2Len in *.
  destruct H2 as [H2|H2]; rewrite Ht, H2; [left|right]; done.
Qed.

#[export] Hint Resolve TruncateV1_wf NewInfoHash_wf : mochi.

(** The entry [Sanitize] makes for an address [x]: none when no occurrence of it
    is kept, otherwise whether one of the kept occurrences was provided. *)
Definition kept_at (ign : bool) (x : Addr) (a : RequestAddress) : bool :=
  keeps ign a && bool_decide (ra_Addr a = x).

Definition merged (ign : bool) (aa : RequestAddresses) (x : Addr) : option bool :=
  if existsb (kept_at ign x) aa
  then Some (existsb (λ a, kept_at ign x a && ra_Provided a) aa) else None.

Lemma existsb_elem_of {A} (f : A → bool) (l : list A) :
  existsb f l = true ↔ ∃ x, x ∈ l ∧ f x = true.
Proof. rewrite existsb_exists. by setoid_rewrite list_elem_of_In. Qed.

Lemma merged_snoc ign aa a x :
  merged ign (aa ++ [a]) x =
    if kept_at ign x a
    then Some (default false (merged ign aa x) || ra_Provided a) else merged ign aa x.
Proof.
  unfold merged. rewrite !existsb_app. cbn [existsb]. rewrite !orb_false_r.
  destruct (kept_at ign x a); simpl; [|by rewrite !orb_false_r].
  rewrite orb_true_r. destruct (existsb (kept_at ign x) aa) eqn:He; [done|]. simpl.
  destruct (existsb (λ b, kept_at ign x b && ra_Provided b) aa) eqn:He2; [|done].
  apply existsb_elem_of in He2 as (b & Hb & [Hk _]%andb_prop).
  assert (existsb (kept_at ign x) aa = true) by (apply existsb_elem_of; eauto).
  congruence.
Qed.

Lemma collect_merged ign aa x : foldl (collect ign) ∅ aa !! x = merged ign aa x.
Proof.
  induction aa as [|a aa IH] using rev_ind; [done|].
  rewrite foldl_snoc, merged_snoc, <-IH. unfold collect at 1, kept_at.
  destruct (keeps ign a) eqn:Hk; simpl; [|done].
  case_bool_decide as Hx; [subst x|];
    destruct (foldl _ _ _ !! ra_Addr a) as [[]|] eqn:Hl;
    destruct (ra_Provided a); simpl;
    rewrite ?lookup_insert_eq, ?lookup_insert_ne by done; simpl; congruence.
Qed.

(** What [Sanitize] leaves in the receiver, whatever the iteration order. *)
Lemma Sanitize_eq `{Shuffle} aa ign :
  aa ≠ [] →
  ∃ aa', Sanitize aa ign = (bool_decide (aa' ≠ []), aa') ∧
    aa' ≡ₚ (λ '(a, p), MkRequestAddress a p) <$> map_to_list (foldl (collect ign) ∅ aa) ∧
    Sorted not_after aa'.
Proof.
  intros Haa. unfold Sanitize. rewrite decide_False by by destruct aa.
  set (m := foldl _ _ _). set (l := _ <$> range m).
  assert (l ≡ₚ (λ '(a, p), MkRequestAddress a p) <$> map_to_list m) as Hl.
  { unfold l. by rewrite range_perm. }
  assert (Hlen : length l = size m).
  { unfold l. by rewrite length_fmap, length_range. }
  assert (Hb : ∀ l' : RequestAddresses, length l' = length l →
    bool_decide (0 < size m)%nat = bool_decide (l' ≠ [])).
  { intros l' Hl'. apply bool_decide_ext. rewrite <-length_zero_iff_nil. lia. }
  destruct (decide (1 < length l)%nat) as [Hd|Hd].
  - exists (merge_sort not_after l).
    rewrite (Hb (merge_sort not_after l)) by by rewrite merge_sort_Permutation.
    split_and!; [done| |].
    + by rewrite merge_sort_Permutation.
    + apply Sorted_merge_sort. intros a b. unfold not_after, Less.
      destruct (ra_Provided a), (ra_Provided b); auto.
  - exists l. rewrite (Hb l) by done. split_and!; [done..|].
    destruct l as [|? [|]]; simpl in Hd; [constructor|by repeat constructor|lia].
Qed.

Lemma keeps_valid ign a : keeps ign a = true → ra_IsValid a = true.
Proof. by intros [? _]%andb_prop. Qed.

Lemma elem_of_sanitized ign aa aa' a p :
  aa' ≡ₚ (λ '(a, p), MkRequestAddress a p) <$> map_to_list (foldl (collect ign) ∅ aa) →
  MkRequestAddress a p ∈ aa' ↔ merged ign aa a = Some p.
Proof.
  intros ->. rewrite list_elem_of_fmap, <-collect_merged, <-elem_of_map_to_list.
  split; [by intros ([] & [= -> ->] & ?)|]. intros. by exists (a, p).
Qed.

Lemma merged_keeps ign aa a p :
  merged ign aa a = Some p → keeps ign (MkRequestAddress a p) = true ∧ ∃ b, b ∈ aa ∧ ra_Addr b = a.
Proof.
  unfold merged. destruct (existsb (kept_at _ _) _) eqn:He; [|done]. intros _.
  apply existsb_elem_of in He as ([b q] & Hb & [Hk ?%bool_decide_eq_true]%andb_prop).
  simpl in *; subst. eauto.
Qed.

Lemma keeps_merged ign aa a :
  a ∈ aa → keeps ign a = true → is_Some (merged ign aa (ra_Addr a)).
Proof.
  intros Ha Hk. unfold merged.
  rewrite (proj2 (existsb_elem_of (kept_at ign (ra_Addr a)) aa)); [eauto|].
  exists a. unfold kept_at. rewrite Hk, bool_decide_true by done. done.
Qed.

(** ** Properties *)

(** [NewEvent] inverts [Event.String] up to ASCII letter case: a string is
    accepted exactly when its lower case is the name of one of the four events
    or empty, the empty string means "none", and everything else is
    [ErrUnknownEvent]. *)
Theorem NewEvent_spec `{Unicode} (s : bytes) :
  match NewEvent s with
  | Ok e => Event_named e = true ∧
            (ToLower s = Event_String e ∨ ToLower s = [] ∧ e = EvNone)
  | Err err => err = ErrUnknownEvent ∧
      ToLower s ≠ [] ∧
      ∀ e, Event_named e = true → ToLower s ≠ Event_String e
  end.
Proof.
  unfold NewEvent. repeat case_decide; try (split; [done|simpl; tauto]).
  split_and!; [done|naive_solver|]. intros [] He; simpl; naive_solver.
Qed.

(** An info hash survives both of its textual forms: [NewInfoHash] accepts
    the raw bytes and the hexadecimal text [String] prints, with the same
    value, accepts nothing that is not 20 or 32 bytes long once decoded, and
    truncating to V1 length is idempotent and stays well formed. *)
Theorem InfoHash_roundtrip (i : InfoHash) :
  InfoHash_wf i →
  NewInfoHash i = Ok i ∧ NewInfoHashString (hex_String i) = Ok i ∧
  length (TruncateV1 i) = InfoHashV1Len ∧ TruncateV1 (TruncateV1 i) = TruncateV1 i.
Proof.
  intros Hi. pose proof (TruncateV1_length i Hi) as Ht.
  split_and!; [by apply NewInfoHash_raw| |done|].
  - unfold NewInfoHashString, NewInfoHash, hex_String.
    rewrite length_hex_encode, hex_decode_encode.
    unfold InfoHash_wf, InfoHashV1Len, InfoHashV2Len in *.
    rewrite decide_False, decide_True; [done|lia..].
  - unfold TruncateV1 at 1. rewrite decide_False; [done|]. by rewrite Ht.
Qed.

Lemma InfoHash_roundtrip_witness :
  let i := replicate 32 xab in
  InfoHash_wf i ∧ NewInfoHashString (hex_String i) = Ok i ∧ length (TruncateV1 i) = 20%nat.
Proof.
  split; [by right|].
  destruct (InfoHash_roundtrip (replicate 32 xab) (or_intror eq_refl)) as (_ & H1 & H2 & _).
  split; [exact H1|exact H2].
Defined.

(** What [Sanitize] leaves of the addresses [aa]. *)
Definition sanitized (aa : RequestAddresses) (ign ok : bool) (aa' : RequestAddresses) : Prop :=
  (ok = true ↔ aa' ≠ []) ∧
  NoDup (ra_Addr <$> aa') ∧ Sorted not_after aa' ∧
  (∀ x, x ∈ ra_Addr <$> aa' ↔ ∃ a, a ∈ aa ∧ ra_Addr a = x ∧ keeps ign a = true) ∧
  (∀ a, a ∈ aa' → keeps ign a = true ∧
     (ra_Provided a = true ↔ MkRequestAddress (ra_Addr a) true ∈ aa)).

Lemma Sanitize_run `{Shuffle} aa aa' ign ok : Sanitize aa ign = (ok, aa') → sanitized aa ign ok aa'.
Proof.
  unfold sanitized.
  destruct (decide (aa = [])) as [->|Haa].
  { intros [= <- <-]. split_and!; [naive_solver|constructor|constructor| |].
    - intros x. split; [set_solver|intros (a & []%elem_of_nil & _)].
    - by intros a ?%elem_of_nil. }
  destruct (Sanitize_eq aa ign Haa) as (l & -> & Hl & Hs). intros [= <- <-].
  pose proof (λ a p, elem_of_sanitized ign aa l a p Hl) as Hin.
  split_and!; [by rewrite bool_decide_eq_true| |done| |].
  - rewrite Hl, <-list_fmap_compose.
    assert (ra_Addr ∘ (λ '(a, p), MkRequestAddress a p) <$> map_to_list (foldl (collect ign) ∅ aa)
      = (map_to_list (foldl (collect ign) ∅ aa)).*1) as ->.
    { apply list_fmap_ext. by intros ? []. }
    apply NoDup_fst_map_to_list.
  - intros x. rewrite list_elem_of_fmap. split.
    + intros ([a p] & -> & Ha%Hin). apply merged_keeps in Ha as [Hk (b & Hb & <-)].
      exists b. split_and!; [done..|]. by destruct b.
    + intros (a & Ha & <- & Hk). destruct (keeps_merged ign aa a Ha Hk) as [p Hp%Hin].
      by exists (MkRequestAddress (ra_Addr a) p).
  - intros [a p] Ha%Hin. destruct (merged_keeps _ _ _ _ Ha) as [Hk _]. split; [done|].
    simpl. unfold merged in Ha. destruct (existsb (kept_at _ _) _); [|done].
    injection Ha as <-. rewrite existsb_elem_of. split.
    + intros ([b q] & Hb & [[_ Hx%bool_decide_eq_true]%andb_prop Hq]%andb_prop).
      simpl in *. by subst.
    + intros Ht. exists (MkRequestAddress a true). split; [done|].
      unfold kept_at. simpl. rewrite bool_decide_true by done.
      by rewrite !andb_true_r.
Qed.



(** [SanitizeAnnounce] refuses exactly the requests with port 0
    ([ErrInvalidPort]) and those without an acceptable address
    ([ErrInvalidIP]); an accepted request keeps its port and ID, has at least one
    address, all of them acceptable, and asks for the default number of peers,
    or for what the client wanted cut at the maximum. *)
Lemma SanitizeAnnounce_spec `{Shuffle} (r : AnnounceRequest) (mx df : Z) (priv : bool) :
  match SanitizeAnnounce r mx df priv with
  | Ok r' =>
      rp_Port (ar_RequestPeer r') = rp_Port (ar_RequestPeer r) ∧
      rp_Port (ar_RequestPeer r') ≠ 0 ∧
      rp_ID (ar_RequestPeer r') = rp_ID (ar_RequestPeer r) ∧
      ar_InfoHash r' = ar_InfoHash r ∧ ar_Event r' = ar_Event r ∧ ar_Left r' = ar_Left r ∧
      ar_Downloaded r' = ar_Downloaded r ∧ ar_Uploaded r' = ar_Uploaded r ∧
      ar_Addresses r' ≠ [] ∧ Forall (λ a, keeps priv a = true) (ar_Addresses r') ∧
      ar_NumWant r' = (if ar_NumWantProvided r then Z.min (ar_NumWant r) mx else df)
  | Err e =>
      e = ErrInvalidPort ∧ rp_Port (ar_RequestPeer r) = 0 ∨
      e = ErrInvalidIP ∧ rp_Port (ar_RequestPeer r) ≠ 0 ∧
      Forall (λ a, keeps priv a = false) (ar_Addresses r)
  end.
Proof.
  unfold SanitizeAnnounce. destruct (Z.eqb_spec (rp_Port (ar_RequestPeer r)) 0) as [|Hp].
  { by left. }
  destruct (Sanitize (ar_Addresses r) priv) as [ok aa'] eqn:Hs.
  destruct (Sanitize_run _ _ _ _ Hs) as (Hok & _ & _ & Hin & Hk).
  assert (Forall (λ a, keeps priv a = true) aa') by (apply list.Forall_forall; intros a Ha; by destruct (Hk a Ha)).
  destruct ok; simpl.
  - assert (aa' ≠ []) by by apply Hok.
    destruct (ar_NumWantProvided r); simpl; [destruct (Z.gtb_spec (ar_NumWant r) mx)|];
      split_and!; try done; simpl; lia.
  - right. split_and!; [done..|]. apply list.Forall_forall. intros a Ha.
    destruct (keeps priv a) eqn:Hka; [|done].
    assert (ra_Addr a ∈ ra_Addr <$> aa') as Hx by (apply Hin; eauto).
    destruct aa'; [by apply elem_of_nil in Hx|].
    destruct Hok as [_ Hok]. by discriminate Hok.
Qed.

(** The context handed to the hooks that run after a response has been
    written carries the route parameters only: whatever was set for
    [SkipSwarmInteractionKey], [SkipResponseHookKey] or cancellation is gone. *)
Theorem Remap_keeps_only_route (ctx : Context) :
  let ctx' := RemapRouteParamsToBgContext ctx in
  ctx_route ctx' = Some (default [] (ctx_route ctx)) ∧
  ctx_skip_swarm ctx' = false ∧ ctx_skip_response ctx' = false ∧ ctx_Err ctx' = None.
Proof. by destruct ctx as [[]]. Qed.
