(* ===== verification/Packet.v ===== *)
(** * Reading binary packets

    The fields of a packet by position, and the compact form of peers that the
    UDP packets and the bencoded answers share, with the lemmas that read a
    field behind others of known length. *)

From S2P Require Import Prelude GoStd Netip Bittorrent.

Local Open Scope Z_scope.

(** Big-endian integers and slices of a packet. *)
Definition be_at (p : bytes) (i j : nat) : option Z := be_get <$> slice p i j.

(** ** Facts about slices and fields of a packet *)

Lemma be_at_middle (l1 l2 l3 : bytes) i j :
  length l1 = i → (i + length l2 = j)%nat → be_at (l1 ++ l2 ++ l3) i j = Some (be_get l2).
Proof. intros. unfold be_at. by rewrite slice_middle. Qed.

Lemma slice_ok (l : bytes) i j : (i ≤ j ≤ length l)%nat →
  ∃ s, slice l i j = Some s ∧ length s = (j - i)%nat.
Proof.
  intros [H1 H2]. eexists. split; [by apply slice_Some|]. rewrite length_take, length_drop. lia.
Qed.

Lemma be_at_ok (l : bytes) i j : (i ≤ j ≤ length l)%nat → ∃ z, be_at l i j = Some z.
Proof. intros (s & Hs & _)%slice_ok. unfold be_at. rewrite Hs. by eexists. Qed.

(** Slicing behind a prefix of known length. *)
Lemma slice_app_ge {A} (l1 l2 : list A) i j :
  (length l1 ≤ i)%nat → (i ≤ j)%nat →
  slice (l1 ++ l2) i j = slice l2 (i - length l1) (j - length l1).
Proof.
  intros H1 H2. unfold slice. rewrite length_app, drop_app_ge by lia.
  replace (j - length l1 - (i - length l1))%nat with (j - i)%nat by lia.
  apply decide_ext. lia.
Qed.

Lemma slice_0 {A} (l1 l2 : list A) i n : i = 0%nat → length l1 = n → slice (l1 ++ l2) i n = Some l1.
Proof. intros -> Hn. by apply (slice_middle [] l1 l2). Qed.

Lemma slice_suffix {A} (l1 l2 : list A) i j :
  length l1 = i → (i + length l2)%nat = j → slice (l1 ++ l2) i j = Some l2.
Proof.
  intros Hi Hj. rewrite <-(app_nil_r l2) at 1. by apply slice_middle.
Qed.

Lemma be_at_app_ge (l1 l2 : bytes) i j :
  (length l1 ≤ i)%nat → (i ≤ j)%nat →
  be_at (l1 ++ l2) i j = be_at l2 (i - length l1) (j - length l1).
Proof. intros. unfold be_at. by rewrite slice_app_ge. Qed.

Lemma be_at_put m z (l : bytes) i n w :
  i = 0%nat → m = n → w = 8 * Z.of_nat m → uint w z → be_at (be_put m z ++ l) i n = Some z.
Proof.
  intros -> <- Hw Hz. unfold be_at. rewrite slice_0 by (done || apply length_be_put). simpl.
  by rewrite (be_get_put_uint m z w).
Qed.

(** The least significant byte of an encoded number. *)
Lemma lookup_be_put n z (l : bytes) i :
  i = n → (be_put (S n) z ++ l) !! i = Some (byte_of_Z z).
Proof.
  intros ->. cbn [be_put]. rewrite <-app_assoc, lookup_app_r by by rewrite length_be_put.
  by rewrite length_be_put, Nat.sub_diag.
Qed.

Lemma slice_skip {A} (l1 l2 : list A) n i j :
  length l1 = n → (n ≤ i)%nat → (i ≤ j)%nat → slice (l1 ++ l2) i j = slice l2 (i - n) (j - n).
Proof. intros <-. apply slice_app_ge. Qed.

Lemma be_at_skip (l1 l2 : bytes) n i j :
  length l1 = n → (n ≤ i)%nat → (i ≤ j)%nat → be_at (l1 ++ l2) i j = be_at l2 (i - n) (j - n).
Proof. intros <-. apply be_at_app_ge. Qed.

Lemma lookup_skip {A} (l1 l2 : list A) n i :
  length l1 = n → (n ≤ i)%nat → (l1 ++ l2) !! i = l2 !! (i - n)%nat.
Proof. intros <-. apply lookup_app_r. Qed.

(** Reads a field of an encoded packet: drops the fields before it, whose
    lengths are hypotheses. *)
Ltac field_length := first [eassumption | apply length_be_put | reflexivity].
Ltac skip_fields :=
  repeat (first [ erewrite slice_skip; [|field_length|lia..]
                | erewrite be_at_skip; [|field_length|lia..]
                | erewrite lookup_skip; [|field_length|lia..] ]; cbn [Nat.sub Nat.add]).

(** ** Compact peers *)

(** An address and a port, as both frontends write them. *)
Definition write_peer (peer : Peer) : bytes := AsSlice (Peer_Addr peer) ++ be_put 2 (peer_Port peer).

(** Reads addresses of [k] bytes with their ports. *)
Fixpoint decode_peers (fuel k : nat) (l : bytes) : option (list (bytes * Z)) :=
  match fuel, l with
  | _, [] => Some []
  | O, _ => None
  | S fuel, _ =>
      a ← slice l 0 k; port ← be_at l k (k + 2);
      rest ← decode_peers fuel k (drop (k + 2) l);
      Some ((a, port) :: rest)
  end.

(** A peer of one family with a port. *)
Definition peer_wf (v6 : bool) (p : Peer) : Prop :=
  (if v6 then Is6 (Peer_Addr p) else Is4 (Peer_Addr p)) = true ∧ uint 16 (peer_Port p).

Definition addr_len (v6 : bool) : nat := if v6 then 16 else 4.

Lemma length_AsSlice_family (v6 : bool) a :
  (if v6 then Is6 a else Is4 a) = true → length (AsSlice a) = addr_len v6.
Proof. destruct v6, a; try done; intros _; apply length_be_put. Qed.

Lemma decode_write_peers v6 peers fuel :
  Forall (peer_wf v6) peers → (length (peers ≫= write_peer) ≤ fuel)%nat →
  decode_peers fuel (addr_len v6) (peers ≫= write_peer) =
    Some ((λ p, (AsSlice (Peer_Addr p), peer_Port p)) <$> peers).
Proof.
  intros Hp. revert fuel. induction Hp as [|p peers [Ha Hport] Hp IH]; intros fuel Hf.
  { by destruct fuel. }
  apply length_AsSlice_family in Ha. rewrite fmap_cons.
  change ((p :: peers) ≫= write_peer) with (write_peer p ++ peers ≫= write_peer) in *.
  unfold write_peer at 1 in Hf. unfold write_peer at 1. rewrite !length_app, Ha, length_be_put in Hf.
  rewrite <-app_assoc. destruct fuel as [|fuel]; [lia|].
  assert (∃ c t, AsSlice (Peer_Addr p) ++ be_put 2 (peer_Port p) ++ (peers ≫= write_peer) = c :: t)
    as (c & t & E).
  { destruct (AsSlice (Peer_Addr p)) eqn:E; [by destruct v6|]. by eexists _, _. }
  cbn [decode_peers]. rewrite E. rewrite <-E. clear E.
  rewrite slice_0 by done. cbn [mbind option_bind].
  erewrite be_at_skip; [|exact Ha|lia..].
  rewrite (be_at_put 2 _ _ _ _ 16) by (done || lia). cbn [mbind option_bind].
  assert (drop (addr_len v6 + 2) (AsSlice (Peer_Addr p) ++ be_put 2 (peer_Port p) ++ (peers ≫= write_peer))
    = peers ≫= write_peer) as ->.
  { rewrite app_assoc. apply drop_app_length'. rewrite length_app, Ha, length_be_put. done. }
  rewrite IH by lia. done.
Qed.
