(* ===== verification/Storage.v ===== *)
(** * Package [storage]: the contract of a peer storage

    The operations of [PeerStorage] and [DataStorage] as type classes over the
    storage's state, the abstract swarms a storage implements and the laws that
    say so, the sanitizing of the scheduling options, and the driver registry
    with [NewStorage] (src/storage/storage.go). *)

From S2P Require Import Prelude GoStd Netip Bittorrent.

Local Open Scope Z_scope.

Definition ErrResourceDoesNotExist : GoError := ClientError (bs "resource does not exist").

(** ** The interfaces

    The [context.Context] argument only carries cancellation to remote
    storages and is left out. *)

Record Entry := MkEntry { entry_Key : bytes; entry_Value : bytes }.

Class DataStorage (S : Type) := {
  Put : bytes → list Entry → M S error;
  Contains : bytes → bytes → M S (bool * error);
  Load : bytes → bytes → M S (option bytes * error);
  Delete : bytes → list bytes → M S error;
  Preservable : bool;
}.

Class PeerStorage (S : Type) := {
  PutSeeder : InfoHash → Peer → M S error;
  DeleteSeeder : InfoHash → Peer → M S error;
  PutLeecher : InfoHash → Peer → M S error;
  DeleteLeecher : InfoHash → Peer → M S error;
  GraduateLeecher : InfoHash → Peer → M S error;
  (* info hash, for a seeder, number wanted, IPv6 *)
  AnnouncePeers : InfoHash → bool → Z → bool → M S (list Peer * error);
  (* leechers, seeders, snatches *)
  ScrapeSwarm : InfoHash → M S (Z * Z * Z * error);
  Ping : M S error;
}.

(** ** The abstract swarms *)

Inductive role := Seeder | Leecher.
#[export] Instance role_eq_dec : EqDecision role.
Proof. solve_decision. Defined.

(** For each role and info hash, the peers of the swarm.  Two views are equal
    when they are so at every role and info hash. *)
Definition view := role → InfoHash → gset Peer.
#[export] Instance view_equiv : Equiv view := λ v w, ∀ r ih, v r ih = w r ih.
#[export] Instance view_equivalence : Equivalence (≡@{view}).
Proof.
  split; [by intros v r ih|by intros v w H r ih; rewrite H|].
  intros u v w H1 H2 r ih. by rewrite H1, H2.
Qed.

Definition view_update (r : role) (ih : InfoHash) (f : gset Peer → gset Peer) (v : view) : view :=
  λ r' ih', if decide (r' = r ∧ ih' = ih) then f (v r' ih') else v r' ih'.

Definition view_add r ih p : view → view := view_update r ih (λ s, {[p]} ∪ s).
Definition view_remove r ih p : view → view := view_update r ih (λ s, s ∖ {[p]}).

#[export] Instance view_update_proper r ih f : Proper ((≡) ==> (≡)) (view_update r ih f).
Proof. intros v w H r' ih'. unfold view_update. by rewrite H. Qed.
#[export] Instance view_add_proper r ih p : Proper ((≡) ==> (≡)) (view_add r ih p).
Proof. apply view_update_proper. Qed.
#[export] Instance view_remove_proper r ih p : Proper ((≡) ==> (≡)) (view_remove r ih p).
Proof. apply view_update_proper. Qed.

(** The peers of one address family. *)
Definition of_family (v6 : bool) (s : gset Peer) : gset Peer :=
  filter (λ p, Peer_Is6 p = v6) s.

(** The peers [AnnouncePeers] may draw from, in the order it does. *)
Definition candidates (v : view) (ih : InfoHash) (forSeeder v6 : bool) : list (gset Peer) :=
  if forSeeder then [of_family v6 (v Leecher ih)]
  else [of_family v6 (v Seeder ih); of_family v6 (v Leecher ih)].

Definition available (v : view) (ih : InfoHash) (forSeeder v6 : bool) : nat :=
  sum_list (size <$> candidates v ih forSeeder v6).

Lemma candidates_proper (v w : view) ih b v6 : v ≡ w → candidates v ih b v6 = candidates w ih b v6.
Proof. intros Hvw. unfold candidates. by rewrite (Hvw Leecher ih), (Hvw Seeder ih). Qed.

Lemma available_proper (v w : view) ih b v6 : v ≡ w → available v ih b v6 = available w ih b v6.
Proof. intros Hvw. unfold available. by rewrite (candidates_proper v w). Qed.

(** ** The laws

    What a storage in good health promises: the writing operations act on the
    abstract swarms, the reading ones leave them alone; an absent resource is at
    most reported as [ErrResourceDoesNotExist].  [st_inv n s]: the storage is in
    good health and stays so for [n] more writing calls (a remote storage counts
    in 64-bit integers and refuses to overflow them); [st_peer]: the peers it
    can tell apart. *)

Definition benign (e : error) : Prop := e = None ∨ e = Some ErrResourceDoesNotExist.

Class StorageSpec (S : Type) `{PeerStorage S} := {
  st_inv : nat → S → Prop;
  st_view : S → view;
  st_peer : Peer → Prop;
  st_inv_weaken n s : st_inv (1 + n) s → st_inv n s;
  put_seeder_spec n s ih p : st_inv (1 + n) s → InfoHash_wf ih → st_peer p →
    ∃ s', PutSeeder ih p s = Some (s', None) ∧ st_inv n s' ∧
          st_view s' ≡ view_add Seeder ih p (st_view s);
  delete_seeder_spec n s ih p : st_inv (1 + n) s → InfoHash_wf ih → st_peer p →
    ∃ s' e, DeleteSeeder ih p s = Some (s', e) ∧ benign e ∧ st_inv n s' ∧
          st_view s' ≡ view_remove Seeder ih p (st_view s);
  put_leecher_spec n s ih p : st_inv (1 + n) s → InfoHash_wf ih → st_peer p →
    ∃ s', PutLeecher ih p s = Some (s', None) ∧ st_inv n s' ∧
          st_view s' ≡ view_add Leecher ih p (st_view s);
  delete_leecher_spec n s ih p : st_inv (1 + n) s → InfoHash_wf ih → st_peer p →
    ∃ s' e, DeleteLeecher ih p s = Some (s', e) ∧ benign e ∧ st_inv n s' ∧
          st_view s' ≡ view_remove Leecher ih p (st_view s);
  graduate_leecher_spec n s ih p : st_inv (1 + n) s → InfoHash_wf ih → st_peer p →
    ∃ s', GraduateLeecher ih p s = Some (s', None) ∧ st_inv n s' ∧
          st_view s' ≡ view_add Seeder ih p (view_remove Leecher ih p (st_view s));
  announce_peers_spec n s ih forSeeder numWant v6 :
    st_inv n s → InfoHash_wf ih → 0 < numWant →
    ∃ s' ps e, AnnouncePeers ih forSeeder numWant v6 s = Some (s', (ps, e)) ∧ benign e ∧
      st_inv n s' ∧ st_view s' ≡ st_view s ∧
      Forall (λ p, p ∈ ⋃ candidates (st_view s) ih forSeeder v6) ps ∧
      Z.of_nat (length ps) =
        Z.min numWant (Z.of_nat (available (st_view s) ih forSeeder v6)) ∧
      (Z.of_nat (available (st_view s) ih forSeeder v6) ≤ numWant →
       ∀ p, p ∈ ⋃ candidates (st_view s) ih forSeeder v6 → p ∈ ps);
  scrape_swarm_spec n s ih : st_inv n s → InfoHash_wf ih →
    ∃ s' d, ScrapeSwarm ih s =
        Some (s', (wrap 32 (Z.of_nat (size (st_view s Leecher ih))),
                   wrap 32 (Z.of_nat (size (st_view s Seeder ih))), d, None)) ∧
      st_inv n s' ∧ st_view s' ≡ st_view s;
}.

(** ** Sequences of writing calls *)

Inductive wop :=
  | WPutSeeder (ih : InfoHash) (p : Peer)
  | WDeleteSeeder (ih : InfoHash) (p : Peer)
  | WPutLeecher (ih : InfoHash) (p : Peer)
  | WDeleteLeecher (ih : InfoHash) (p : Peer)
  | WGraduateLeecher (ih : InfoHash) (p : Peer).

Definition wop_args (o : wop) : InfoHash * Peer :=
  match o with
  | WPutSeeder ih p | WDeleteSeeder ih p | WPutLeecher ih p
  | WDeleteLeecher ih p | WGraduateLeecher ih p => (ih, p)
  end.

(** What the call does to the abstract swarms, and the call. *)
Definition view_wop (o : wop) (v : view) : view :=
  match o with
  | WPutSeeder ih p => view_add Seeder ih p v
  | WDeleteSeeder ih p => view_remove Seeder ih p v
  | WPutLeecher ih p => view_add Leecher ih p v
  | WDeleteLeecher ih p => view_remove Leecher ih p v
  | WGraduateLeecher ih p => view_add Seeder ih p (view_remove Leecher ih p v)
  end.

Definition run_wop {S : Type} `{PeerStorage S} (o : wop) : M S error :=
  match o with
  | WPutSeeder ih p => PutSeeder ih p
  | WDeleteSeeder ih p => DeleteSeeder ih p
  | WPutLeecher ih p => PutLeecher ih p
  | WDeleteLeecher ih p => DeleteLeecher ih p
  | WGraduateLeecher ih p => GraduateLeecher ih p
  end.

Fixpoint run_wops {S : Type} `{PeerStorage S} (os : list wop) (s : S) : option S :=
  match os with
  | [] => Some s
  | o :: os => match run_wop o s with Some (s, _) => run_wops os s | None => None end
  end.

(** ** Scheduling options *)

Definition Second : Z := 1000000000.
Definition Minute : Z := 60 * Second.

Definition DefaultPrometheusReportingInterval : Z := Second * 1.
Definition DefaultGarbageCollectionInterval : Z := Minute * 3.
Definition DefaultPeerLifetime : Z := Minute * 30.

Record Config := MkConfig {
  GarbageCollectionInterval : Z;
  PeerLifetime : Z;
  PrometheusReportingInterval : Z;
}.

Definition sanitizeGCConfig (c : Config) : Z * Z :=
  (if GarbageCollectionInterval c <=? 0 then DefaultGarbageCollectionInterval
   else GarbageCollectionInterval c,
   if PeerLifetime c <=? 0 then DefaultPeerLifetime else PeerLifetime c).

(** The named result [statInterval] starts as 0 and is assigned in one branch. *)
Definition sanitizeStatisticsConfig (c : Config) : Z :=
  let statInterval := 0 in
  if PrometheusReportingInterval c <? 0 then DefaultPrometheusReportingInterval
  else statInterval.

(** ** Drivers *)

Section Drivers.
(** The parsed configuration map, a storage, and [mapstructure]'s decoding. *)
Context {MapConfig St : Type} (Unmarshal : MapConfig → result Config).

Definition Driver := MapConfig → result St.

Definition RegisterDriver (name : bytes) (d : option Driver) : M (gmap bytes Driver) unit :=
  λ drivers,
    if decide (name = []) then None
    else match d with
         | None => None
         | Some d =>
             match drivers !! name with
             | Some _ => None
             | None => Some (<[name := d]> drivers, ())
             end
         end.

(** Which of the optional interfaces a storage implements. *)
Context (isGarbageCollector isStatisticsCollector : St → bool).

Inductive schedule :=
  | ScheduleGC (gcInterval peerTTL : Z)
  | ScheduleStatisticsCollection (reportInterval : Z).

Definition ErrNoDriver (name : bytes) : GoError :=
  OtherError (bs "storage with name '" ++ name ++ bs "' does not exists").

(** [NewStorage]: the storage and what is scheduled on it. *)
Definition NewStorage (drivers : gmap bytes Driver) (name : bytes) (cfg : MapConfig)
    : result (St * list schedule) :=
  b ← of_option (ErrNoDriver name) (drivers !! name);
  c ← Unmarshal cfg;
  ps ← (b cfg : result St);
  let gc := if isGarbageCollector ps
            then let '(gcInterval, peerTTL) := sanitizeGCConfig c in [ScheduleGC gcInterval peerTTL]
            else [] in
  let st := if isStatisticsCollector ps
            then let statInterval := sanitizeStatisticsConfig c in
                 if statInterval >? 0 then [ScheduleStatisticsCollection statInterval] else []
            else [] in
  Ok (ps, gc ++ st).
End Drivers.

(** ** Facts *)

Lemma elem_of_view_add r ih p v q r' ih' :
  q ∈ view_add r ih p v r' ih' ↔ (r' = r ∧ ih' = ih ∧ q = p) ∨ q ∈ v r' ih'.
Proof. unfold view_add, view_update. case_decide; set_solver. Qed.

Lemma elem_of_view_remove r ih p v q r' ih' :
  q ∈ view_remove r ih p v r' ih' ↔ ¬ (r' = r ∧ ih' = ih ∧ q = p) ∧ q ∈ v r' ih'.
Proof. unfold view_remove, view_update. case_decide; set_solver. Qed.

(** Adding or removing the same peer twice changes nothing more. *)
Lemma view_add_idemp r ih p v : view_add r ih p (view_add r ih p v) ≡ view_add r ih p v.
Proof. intros r' ih'. apply set_eq. intros q. rewrite !elem_of_view_add. tauto. Qed.

Lemma view_remove_idemp r ih p v :
  view_remove r ih p (view_remove r ih p v) ≡ view_remove r ih p v.
Proof. intros r' ih'. apply set_eq. intros q. rewrite !elem_of_view_remove. tauto. Qed.

#[export] Instance view_wop_proper o : Proper ((≡) ==> (≡)) (view_wop o).
Proof. intros v w H. destruct o; simpl; by rewrite ?H. Qed.

Lemma view_wops_proper os (v w : view) : v ≡ w → foldl (flip view_wop) v os ≡ foldl (flip view_wop) w os.
Proof.
  revert v w. induction os as [|o os IH]; intros v w H; [done|]. apply IH. by apply view_wop_proper.
Qed.

Lemma run_wop_spec {S : Type} `{StorageSpec S} n (s : S) o :
  st_inv (1 + n) s → InfoHash_wf (wop_args o).1 → st_peer (wop_args o).2 →
  ∃ s' e, run_wop o s = Some (s', e) ∧ benign e ∧ st_inv n s' ∧ st_view s' ≡ view_wop o (st_view s).
Proof.
  intros Hi Hih Hp. destruct o as [ih p|ih p|ih p|ih p|ih p]; simpl in *.
  - destruct (put_seeder_spec n s ih p Hi Hih Hp) as (s' & ? & ? & ?). exists s', None. unfold benign; auto.
  - by apply delete_seeder_spec.
  - destruct (put_leecher_spec n s ih p Hi Hih Hp) as (s' & ? & ? & ?). exists s', None. unfold benign; auto.
  - by apply delete_leecher_spec.
  - destruct (graduate_leecher_spec n s ih p Hi Hih Hp) as (s' & ? & ? & ?). exists s', None. unfold benign; auto.
Qed.

(** Any storage that keeps the laws refines the abstract swarms. *)
Lemma run_wops_spec {S : Type} `{StorageSpec S} os : ∀ s : S,
  st_inv (length os) s → Forall (λ o, InfoHash_wf (wop_args o).1 ∧ st_peer (wop_args o).2) os →
  ∃ s', run_wops os s = Some s' ∧ st_inv 0 s' ∧ st_view s' ≡ foldl (flip view_wop) (st_view s) os.
Proof.
  induction os as [|o os IH]; intros s Hi Hos; [by exists s|].
  apply list.Forall_cons in Hos as [[Hih Hp] Hos].
  destruct (run_wop_spec _ s o Hi Hih Hp) as (s1 & e & E & _ & Hi1 & Hv).
  destruct (IH s1 Hi1 Hos) as (s' & E' & ? & Hv'). exists s'. cbn [run_wops]. rewrite E.
  split; [done|]. split; [done|]. rewrite Hv'. cbn [foldl]. by apply view_wops_proper.
Qed.

(** ** Properties *)

(** No positive reporting interval ever reaches a storage: the statistics
    of a storage are collected only for a negative configured interval, and
    then at the default one.  The garbage collection options, in contrast, are
    handed over as configured when they are positive. *)
Theorem statistics_only_when_negative {MapConfig St} (Unmarshal : MapConfig → result Config)
    (isGC isStats : St → bool) drivers name cfg c st sched :
  NewStorage Unmarshal isGC isStats drivers name cfg = Ok (st, sched) →
  Unmarshal cfg = Ok c →
  sched =
    (if isGC st then [ScheduleGC (sanitizeGCConfig c).1 (sanitizeGCConfig c).2] else []) ++
    (if isStats st && (PrometheusReportingInterval c <? 0)
     then [ScheduleStatisticsCollection Second] else []).
Proof.
  unfold NewStorage. destruct (drivers !! name) as [b|]; [|done]. simpl. intros H Hu.
  rewrite Hu in H. simpl in H. destruct (b cfg) as [ps|]; [|done]. simpl in H.
  injection H as <- <-. destruct (sanitizeGCConfig c) as [gi pt]. f_equal.
  unfold sanitizeStatisticsConfig.
  by destruct (isStats ps), (Z.ltb_spec (PrometheusReportingInterval c) 0).
Qed.

Lemma statistics_only_when_negative_witness :
  let c := MkConfig 0 0 (5 * Second) in
  let ok := λ _ : unit, Ok c in
  let drivers := {[ bs "memory" := λ _ : unit, Ok () ]} in
  NewStorage ok (λ _ : unit, true) (λ _, true) drivers (bs "memory") () =
    Ok ((), [ScheduleGC (3 * Minute) (30 * Minute)]) ∧
  [ScheduleGC (3 * Minute) (30 * Minute)] =
    [ScheduleGC (sanitizeGCConfig c).1 (sanitizeGCConfig c).2] ++
    (if true && (PrometheusReportingInterval c <? 0)
     then [ScheduleStatisticsCollection Second] else []).
Proof.
  split; [vm_compute; reflexivity|].
  apply (statistics_only_when_negative (λ _ : unit, Ok (MkConfig 0 0 (5 * Second)))
    (λ _ : unit, true) (λ _, true) {[ bs "memory" := λ _ : unit, Ok () ]} (bs "memory") ()
    (MkConfig 0 0 (5 * Second)) () [ScheduleGC (3 * Minute) (30 * Minute)]);
    vm_compute; reflexivity.
Defined.
