(* ===== verification/GoFloat.v ===== *)
(** * Floating-point numbers of Go

    [float64] and [float32] as IEEE 754 numbers ([SpecFloat]): 53 and 24 bits of
    precision, rounding to the nearest, to even in a tie. *)

From Stdlib Require Export Floats.SpecFloat.
From S2P Require Import Prelude Storage.

Local Open Scope Z_scope.

(** Conversions from integers and to [float32]. *)
Definition float64_of_Z (z : Z) : spec_float := binary_normalize 53 1024 z 0 false.
Definition float32_of_float64 (x : spec_float) : spec_float :=
  match x with
  | S754_finite s m e => binary_normalize 24 128 (cond_Zopp s (Zpos m)) e s
  | _ => x
  end.

Definition float64_add (x y : spec_float) : spec_float := SFadd 53 1024 x y.
Definition float64_div (x y : spec_float) : spec_float := SFdiv 53 1024 x y.

(** The conversion of a finite number to an integer, towards zero. *)
Definition float_trunc (x : spec_float) : Z :=
  match x with
  | S754_finite s m e =>
      let abs := if 0 <=? e then Zpos m * 2 ^ e else Zpos m / 2 ^ (- e) in
      if s then - abs else abs
  | _ => 0
  end.

(** [time.Duration.Seconds]. *)
Definition Seconds (d : Z) : spec_float :=
  float64_add (float64_of_Z (Z.quot d Second)) (float64_div (float64_of_Z (Z.rem d Second)) (float64_of_Z 1000000000)).

Example Seconds_half_hour : float_trunc (Seconds DefaultPeerLifetime) = 1800.
Proof. reflexivity. Qed.
Example Seconds_fraction : float_trunc (Seconds 2999999999) = 2.
Proof. reflexivity. Qed.
