(* ===== verification/Threads.v ===== *)
(** * Goroutines over shared memory

    A goroutine is a program of critical sections: what it does under a lock, or
    by one atomic access, is one step on the shared state.  A pool of them runs
    interleaved, in any order.  [carries] says which effects on an abstract view
    a program has, whatever the others do meanwhile within the rely [le], and
    [pool_effects] composes such programs. *)

From S2P Require Import Prelude.

Section Prog.
Context {St : Type}.

Inductive prog (A : Type) : Type :=
  | Ret (a : A)
  | Panic
  | Atomic (B : Type) (f : St → St * B) (k : B → prog A).
End Prog.

Arguments prog : clear implicits.
Arguments Ret {St A}.
Arguments Panic {St A}.
Arguments Atomic {St A B}.

#[export] Instance prog_ret St : MRet (prog St) := λ A a, Ret a.
#[export] Instance prog_bind St : MBind (prog St) := λ A B g,
  fix go m :=
    match m with
    | Ret a => g a
    | Panic => Panic
    | Atomic f k => Atomic f (λ b, go (k b))
    end.

(** One critical section. *)
Definition atomically {St B} (f : St → St * B) : prog St B := Atomic f mret.
Definition reads {St B} (f : St → B) : prog St B := atomically (λ s, (s, f s)).

Fixpoint for_each {St A} (l : list A) (body : A → prog St ()) : prog St () :=
  match l with
  | [] => mret tt
  | a :: l => body a;; for_each l body
  end.

(** A program alone, undisturbed. *)
Fixpoint run {St A} (m : prog St A) : M St A :=
  match m with
  | Ret a => mret a
  | Panic => panic
  | Atomic f k => λ s, run (k (f s).2) (f s).1
  end.

Lemma run_bind {St A B} (m : prog St A) (g : A → prog St B) s : run (m ≫= g) s = (run m ≫= λ a, run (g a)) s.
Proof.
  revert s. induction m as [a| |C f k IH]; intros s; [done..|].
  change (run (k (f s).2 ≫= g) (f s).1 = (run (k (f s).2) ≫= λ a, run (g a)) (f s).1). apply IH.
Qed.

Lemma run_bind_Some {St A B} (m : prog St A) (g : A → prog St B) s s' a :
  run m s = Some (s', a) → run (m ≫= g) s = run (g a) s'.
Proof. intros H. rewrite run_bind. exact (M_bind_Some _ (λ a, run (g a)) _ _ _ H). Qed.

(** ** Pools *)

Definition pool (St A : Type) : Type := list (prog St A) * St.

Inductive pool_step {St A} : pool St A → pool St A → Prop :=
  | pool_atomic ms i B (f : St → St * B) k s :
      ms !! i = Some (Atomic f k) →
      pool_step (ms, s) (<[i := k (f s).2]> ms, (f s).1).

Definition result_of {St A} (m : prog St A) : option A :=
  match m with Ret a => Some a | _ => None end.

(** A choice of one goroutine after the other, by number; a number whose
    goroutine has nothing to do is skipped. *)
Fixpoint schedule {St A} (js : list nat) (c : pool St A) : pool St A :=
  match js with
  | [] => c
  | i :: js =>
      match c.1 !! i with
      | Some (Atomic f k) => schedule js (<[i := k (f c.2).2]> c.1, (f c.2).1)
      | _ => schedule js c
      end
  end.

Lemma schedule_steps {St A} js (c : pool St A) : rtc pool_step c (schedule js c).
Proof.
  revert c. induction js as [|i js IH]; intros [ms s]; [done|]. cbn [schedule fst snd].
  destruct (ms !! i) as [[a| |B f k]|] eqn:E; [apply IH..| |apply IH].
  eapply rtc_l; [by eapply pool_atomic|]. apply IH.
Qed.

(** ** Interleavings of lists *)

Inductive interleaving {E : Type} : list (list E) → list E → Prop :=
  | interleaving_nil ls : Forall (λ l, l = []) ls → interleaving ls []
  | interleaving_cons ls i e l es :
      ls !! i = Some (e :: l) → interleaving (<[i := l]> ls) es → interleaving ls (e :: es).

(** Without another goroutine there is one order. *)
Lemma interleaving_single {E} (l es : list E) : interleaving [l] es ↔ es = l.
Proof.
  split.
  - intros H. remember [l] as ls eqn:Els. revert l Els.
    induction H as [ls Hls|ls i e l' es Hi _ IH]; intros l ->.
    + by apply Forall_inv in Hls.
    + destruct i as [|i]; [|done]. injection Hi as ->. f_equal. by apply IH.
  - intros ->. induction l as [|e l IH]; [by repeat constructor|]. by apply (interleaving_cons _ 0%nat e l).
Qed.

Lemma Forall3_fixed {B C D} (f : D → C → Prop) (l : list D) (k : list B) (k' : list C) :
  Forall3 (λ (T : B → C → Prop) b c, T b c) ((λ d _, f d) <$> l) k k' → Forall2 f l k'.
Proof. revert k k'. induction l as [|d l IH]; intros k k' H; inversion H; subst; constructor; eauto. Qed.

Lemma all_results {St A} (ms : list (prog St A)) : Forall (λ m, is_Some (result_of m)) ms → ∃ l, ms = Ret <$> l.
Proof.
  induction 1 as [|m ms [a Ha] _ [l ->]]; [by exists []|]. exists (a :: l). by destruct m; simplify_eq/=.
Qed.

Lemma Forall3_exchange {A B C} (P : A → B → C → Prop) l k k' i x x' y z :
  Forall3 P (<[i := x']> l) k k' → l !! i = Some x → k !! i = Some y → P x y z → Forall3 P l k (<[i := z]> k').
Proof.
  revert i k k'. induction l as [|x1 l IH]; intros [|i] k k' H Hx Hy HP; simplify_eq/=;
    inversion H; subst; simplify_eq/=; constructor; eauto.
Qed.

(** ** Effects under interference *)

Section Effects.
Context {St V E : Type} `{!Equiv V, !Equivalence (≡@{V})}.
Context (inv : St → Prop) (le : St → St → Prop) `{!PreOrder le}.
Context (view_of : St → V) (apply : V → E → V) `{!Proper ((≡) ==> (=) ==> (≡)) apply}.

(** From [w] on, with the other goroutines only moving the state up in [le], the
    program panics nowhere, keeps the invariant, moves the state up itself,
    changes the view by the effects [es], one at a step, and returns an answer
    for which [Q] holds from then on. *)
Fixpoint carries {A} (Q : St → A → Prop) (w : St) (m : prog St A) (es : list E) : Prop :=
  match m with
  | Ret a => es = [] ∧ ∀ w', le w w' → Q w' a
  | Panic => False
  | Atomic f k => ∀ s, le w s → inv s →
      inv (f s).1 ∧ le s (f s).1 ∧
      ∃ (e : option E) es', es = option_list e ++ es' ∧
        (view_of (f s).1 ≡ foldl apply (view_of s) (option_list e)) ∧
        carries Q (f s).1 (k (f s).2) es'
  end.

Lemma carries_up {A} Q (m : prog St A) w w' es : le w w' → carries Q w m es → carries Q w' m es.
Proof.
  destruct m as [a| |B f k]; intros Hle; [|done|].
  - intros [-> HQ]. split; [done|]. intros w'' H. apply HQ. by trans w'.
  - intros Hm s Hs. apply Hm. by trans w'.
Qed.

Lemma carries_bind {A B} Q R (m : prog St A) (g : A → prog St B) w es1 es2 :
  carries Q w m es1 → (∀ w' a, le w w' → Q w' a → carries R w' (g a) es2) → carries R w (m ≫= g) (es1 ++ es2).
Proof.
  revert w es1. induction m as [a| |C f k IH]; intros w es1; cbn [carries].
  - intros [-> HQ] Hg. by apply Hg, HQ.
  - done.
  - intros Hm Hg s Hs Hinv. destruct (Hm s Hs Hinv) as (H1 & H2 & e & es' & -> & Hv & Hk).
    split; [done|]. split; [done|]. exists e, (es' ++ es2). split; [by rewrite app_assoc|]. split; [done|].
    apply IH; [done|]. intros w' a Hw'. apply Hg. trans s; [done|]. by trans (f s).1.
Qed.

Lemma carries_ret {A} (Q : St → A → Prop) w a : (∀ w', le w w' → Q w' a) → carries Q w (mret a) [].
Proof. done. Qed.

Lemma foldl_proper (es : list E) (v v' : V) : v ≡ v' → foldl apply v es ≡ foldl apply v' es.
Proof. revert v v'. induction es as [|e es IH]; intros v v' Hv; [done|]. cbn. apply IH. by rewrite Hv. Qed.

(** The same where the effects are decided on the way: those of a whole run
    with answer [a] satisfy [T a]. *)
Fixpoint yields {A} (Q : St → A → Prop) (w : St) (m : prog St A) (T : A → list E → Prop) : Prop :=
  match m with
  | Ret a => T a [] ∧ ∀ w', le w w' → Q w' a
  | Panic => False
  | Atomic f k => ∀ s, le w s → inv s →
      inv (f s).1 ∧ le s (f s).1 ∧
      ∃ e : option E,
        (view_of (f s).1 ≡ foldl apply (view_of s) (option_list e)) ∧
        yields Q (f s).1 (k (f s).2) (λ a es, T a (option_list e ++ es))
  end.

Lemma yields_up {A} Q (m : prog St A) w w' T : le w w' → yields Q w m T → yields Q w' m T.
Proof.
  destruct m as [a| |B f k]; intros Hle; [|done|].
  - intros [HT HQ]. split; [done|]. intros w'' H. apply HQ. by trans w'.
  - intros Hm s Hs. apply Hm. by trans w'.
Qed.

Lemma yields_weaken {A} (Q Q' : St → A → Prop) (m : prog St A) w (T T' : A → list E → Prop) :
  (∀ w a, Q w a → Q' w a) → (∀ a es, T a es → T' a es) → yields Q w m T → yields Q' w m T'.
Proof.
  intros HQ. revert w T T'. induction m as [a| |B f k IH]; intros w T T' HT; cbn [yields]; [|done|].
  - intros [Ha Hw]. split; auto.
  - intros Hm s Hs Hinv. destruct (Hm s Hs Hinv) as (H1 & H2 & e & Hv & Hk).
    split; [done|]. split; [done|]. exists e. split; [done|]. by eapply IH; [|exact Hk]; auto.
Qed.

Lemma yields_bind {A B} Q R (m : prog St A) (g : A → prog St B) w
    (T1 : A → list E → Prop) (T2 : A → B → list E → Prop) (T : B → list E → Prop) :
  (∀ a b es1 es2, T1 a es1 → T2 a b es2 → T b (es1 ++ es2)) →
  yields Q w m T1 → (∀ w' a, le w w' → Q w' a → yields R w' (g a) (T2 a)) → yields R w (m ≫= g) T.
Proof.
  revert w T1 T. induction m as [a| |C f k IH]; intros w T1 T HT; cbn [yields]; [|done|].
  - intros [Ha HQ] Hg. eapply yields_weaken; [done| |by apply Hg, HQ]. intros b es. by apply (HT a b []).
  - intros Hm Hg s Hs Hinv. destruct (Hm s Hs Hinv) as (H1 & H2 & e & Hv & Hk).
    split; [done|]. split; [done|]. exists e. split; [done|].
    eapply IH; [|exact Hk|]; cbv beta.
    + intros a b es1 es2 He1 He2. rewrite (assoc_L _). by eapply HT.
    + intros w' a Hw'. apply Hg. trans s; [done|]. by trans (f s).1.
Qed.

Lemma carries_yields {A} Q (m : prog St A) w es : carries Q w m es → yields Q w m (λ _, eq es).
Proof.
  revert w es. induction m as [a| |B f k IH]; intros w es; cbn [carries yields]; [by intros [-> ?]|done|].
  intros Hm s Hs Hinv. destruct (Hm s Hs Hinv) as (H1 & H2 & e & es' & -> & Hv & Hk).
  split; [done|]. split; [done|]. exists e. split; [done|].
  eapply yields_weaken; [done| |by apply IH]. by intros _ ? <-.
Qed.

(** Some run there is. *)
Lemma yields_run {A} Q (m : prog St A) w T : inv w → yields Q w m T → ∃ a es, T a es.
Proof.
  revert w T. induction m as [a| |B f k IH]; intros w T Hw; cbn [yields]; [|done|].
  - intros [HT _]. by exists a, [].
  - intros Hm. destruct (Hm w ltac:(reflexivity) Hw) as (H1 & _ & e & _ & Hk).
    destruct (IH _ _ _ H1 Hk) as (a & es & HT). by eexists _, _.
Qed.

Lemma pool_step_yields {A} Q (ms ms' : list (prog St A)) s s' Ts :
  pool_step (ms, s) (ms', s') → Forall2 (yields Q s) ms Ts → inv s →
  ∃ i e T, Ts !! i = Some T ∧ Forall2 (yields Q s') ms' (<[i := λ a es, T a (option_list e ++ es)]> Ts) ∧
    inv s' ∧ (view_of s' ≡ foldl apply (view_of s) (option_list e)).
Proof.
  inversion_clear 1 as [? i B f k ? Hi]. intros Hms Hinv.
  destruct (Forall2_lookup_l _ _ _ _ _ Hms Hi) as (T & HT & Hc).
  destruct (Hc s ltac:(reflexivity) Hinv) as (Hinv' & Hle & e & Hv & Hk).
  exists i, e, T. split; [done|]. split; [|done].
  apply Forall2_insert; [|done]. eapply list.Forall2_impl; [exact Hms|]. intros m T'. by apply yields_up.
Qed.

(** The pool of such programs, run to its end in any order: none of them
    panics, and the view has changed by an interleaving of effects of theirs. *)
Lemma pool_yields {A} Q (ms ms' : list (prog St A)) s s' Ts :
  rtc pool_step (ms, s) (ms', s') → Forall2 (yields Q s) ms Ts → inv s →
  inv s' ∧ (Panic ∉ ms') ∧ (∀ a, Ret a ∈ ms' → Q s' a) ∧
  ∀ l, ms' = Ret <$> l →
   ∃ ess es, Forall3 (λ (T : A → list E → Prop) a es, T a es) Ts l ess ∧ interleaving ess es ∧
     (view_of s' ≡ foldl apply (view_of s) es).
Proof.
  intros H. remember (ms, s) as c eqn:Ec. remember (ms', s') as c' eqn:Ec'.
  revert ms s Ts Ec. induction H as [c|c [ms1 s1] c' Hstep _ IH]; intros ms s Ts -> Hms Hinv.
  - injection Ec' as <- <-. split; [done|]. split.
    { intros (i & Hi)%list_elem_of_lookup. by destruct (Forall2_lookup_l _ _ _ _ _ Hms Hi) as (? & _ & ?). }
    split.
    { intros a (i & Hi)%list_elem_of_lookup.
      destruct (Forall2_lookup_l _ _ _ _ _ Hms Hi) as (? & _ & _ & HQ). by apply HQ. }
    intros l ->. exists (replicate (length Ts) []), []. split; [|split; [|done]].
    + clear -Hms. rewrite Forall2_fmap_l in Hms. induction Hms as [|a T l Ts [HT _] _ IH]; cbn; by constructor.
    + constructor. by apply Forall_replicate.
  - destruct (pool_step_yields _ _ _ _ _ _ Hstep Hms Hinv) as (i & e & T & Hi & Hms1 & Hinv1 & Hv).
    destruct (IH Ec' _ _ _ eq_refl Hms1 Hinv1) as (Hinv' & Hp & HQ & Hdone). split_and!; [done..|].
    intros l (ess & es & Hess & Hil & Hv')%Hdone.
    destruct (Forall3_lookup_l _ _ _ _ i _ Hess (list_lookup_insert_eq _ _ _ (lookup_lt_Some _ _ _ Hi))) as (a & x & Ha & Hl & HT).
    exists (<[i := option_list e ++ x]> ess), (option_list e ++ es). split; [|split].
    + by eapply Forall3_exchange.
    + assert (i < length ess)%nat as Hlt by by eapply lookup_lt_Some.
      destruct e as [e|]; cbn [option_list app]; [|by rewrite list_insert_id].
      apply (interleaving_cons _ i e x); [by apply list_lookup_insert_eq|].
      by rewrite list_insert_insert_eq, list_insert_id.
    + rewrite Hv', foldl_app. by apply foldl_proper.
Qed.

(** With the effects fixed. *)
Lemma pool_effects {A} Q (ms ms' : list (prog St A)) s s' ess :
  rtc pool_step (ms, s) (ms', s') → Forall2 (carries Q s) ms ess → inv s →
  inv s' ∧ (Panic ∉ ms') ∧ (∀ a, Ret a ∈ ms' → Q s' a) ∧
  (Forall (λ m, is_Some (result_of m)) ms' →
   ∃ es, interleaving ess es ∧ (view_of s' ≡ foldl apply (view_of s) es)).
Proof.
  intros Hsteps Hms Hinv. destruct (pool_yields Q ms ms' s s' ((λ l _, eq l) <$> ess) Hsteps) as (? & ? & ? & Hdone); [|done|].
  { rewrite Forall2_fmap_r. eapply list.Forall2_impl; [exact Hms|]. intros m es. apply carries_yields. }
  split_and!; [done..|]. intros (l & ->)%all_results. destruct (Hdone l eq_refl) as (ess' & es & Hess & Hil & Hv).
  exists es. split; [|done]. apply Forall3_fixed, list_eq_Forall2 in Hess as ->. done.
Qed.
End Effects.

(** Programs whose results and effects do not refer to the states they run in:
    the clients of a server. *)
Section Does.
Context {St V E : Type} `{!Equiv V, !Equivalence (≡@{V})}.
Context {inv : St → Prop} {view_of : St → V} {apply : V → E → V}.
Context `{Happly : !Proper ((≡) ==> (=) ==> (≡)) apply}.

Definition anytime (s s' : St) : Prop := True.
#[export] Instance anytime_preorder : PreOrder anytime.
Proof. done. Qed.

Definition does {A} (Q : A → Prop) (m : prog St A) (T : list E → Prop) : Prop :=
  ∀ w, yields inv anytime view_of apply (λ _, Q) w m (λ _, T).

Lemma does_ret {A} (Q : A → Prop) a : Q a → does Q (mret a) (eq []).
Proof. by intros HQ w. Qed.

Lemma does_weaken {A} (Q Q' : A → Prop) m (T T' : list E → Prop) :
  (∀ a, Q a → Q' a) → (∀ es, T es → T' es) → does Q m T → does Q' m T'.
Proof. intros HQ HT Hm w. apply (yields_weaken _ _ _ _ (λ _, Q) (λ _, Q') _ _ (λ _, T)); [intros _; apply HQ|intros _; apply HT|apply Hm]. Qed.

Lemma does_bind {A B} Q R (m : prog St A) (g : A → prog St B) (T1 T2 T : list E → Prop) :
  (∀ es1 es2, T1 es1 → T2 es2 → T (es1 ++ es2)) →
  does Q m T1 → (∀ a, Q a → does R (g a) T2) → does R (m ≫= g) T.
Proof. intros HT Hm Hg w. apply (yields_bind _ _ _ _ (λ _, Q) _ _ _ _ (λ _, T1) (λ _ _, T2)); [intros _ _; exact HT|apply Hm|]. intros w' a _ Ha. by apply Hg. Qed.

(** Before what has no effect. *)
Lemma does_then {A B} Q R (m : prog St A) (g : A → prog St B) T :
  does Q m T → (∀ a, Q a → does R (g a) (eq [])) → does R (m ≫= g) T.
Proof. apply does_bind. intros es1 es2 H1 <-. by rewrite app_nil_r. Qed.

Lemma does_step {A B} (f : St → St * A) (k : A → prog St B) R (T : list E → Prop) :
  (∀ s, inv s → ∃ s' a e, f s = (s', a) ∧ inv s' ∧
     view_of s' ≡ foldl apply (view_of s) (option_list e) ∧
     does R (k a) (λ es, T (option_list e ++ es))) →
  does R (atomically f ≫= k) T.
Proof.
  intros Hf w s _ Hs. destruct (Hf s Hs) as (s' & a & e' & -> & Hs' & Hv & Hk). cbn [fst snd].
  split; [done|]. split; [done|]. exists e'. split; [done|]. apply Hk.
Qed.

(** A step that leaves the view alone, and a step that is all there is. *)
Lemma does_read {A B} (f : St → St * A) (k : A → prog St B) R (T : list E → Prop) :
  (∀ s, inv s → ∃ s' a, f s = (s', a) ∧ inv s' ∧ view_of s' ≡ view_of s ∧ does R (k a) T) →
  does R (atomically f ≫= k) T.
Proof.
  intros Hf. apply does_step. intros s Hs. destruct (Hf s Hs) as (s' & a & E' & Hs' & Hv & Hk).
  exists s', a, None. by split_and!.
Qed.

Lemma does_once {A} (f : St → St * A) Q e :
  (∀ s, inv s → ∃ s' a, f s = (s', a) ∧ inv s' ∧ view_of s' ≡ apply (view_of s) e ∧ Q a) →
  does Q (atomically f) (eq [e]).
Proof.
  intros Hf w s _ Hs. destruct (Hf s Hs) as (s' & a & -> & Hs' & Hv & HQ). cbn [fst snd].
  split; [done|]. split; [done|]. exists (Some e). split; [done|]. split; [done|]. done.
Qed.

(** Any number of them, in any interleaving. *)
Lemma pool_does {A C} (Q : A → Prop) (m : C → prog St A) (T : C → list E → Prop) (cs : list C) ms' s s' :
  (∀ c, c ∈ cs → does Q (m c) (T c)) → inv s → rtc pool_step (m <$> cs, s) (ms', s') →
  inv s' ∧ (Panic ∉ ms') ∧ (∀ a, Ret a ∈ ms' → Q a) ∧
  (Forall (λ m, is_Some (result_of m)) ms' →
   ∃ ess es, Forall2 T cs ess ∧ interleaving ess es ∧ (view_of s' ≡ foldl apply (view_of s) es)).
Proof.
  intros Hm Hs Hsteps.
  destruct (pool_yields inv anytime view_of apply (λ _, Q) (m <$> cs) ms' s s' ((λ c _, T c) <$> cs) Hsteps)
    as (H1 & H2 & H3 & H4); [|done|].
  - apply Forall2_fmap_2, Forall_Forall2_diag, list.Forall_forall. intros c Hc. by apply Hm.
  - split_and!; [done..|]. intros (l & ->)%all_results. destruct (H4 l eq_refl) as (ess & es & Hess & ? & ?).
    exists ess, es. split; [by eapply Forall3_fixed|done].
Qed.
End Does.
Arguments does {St V E _} inv view_of apply {A} Q m T.

(** Another view of the same programs, on which [h] gives their effects. *)
Lemma yields_map {St A V E V2 E2} `{!Equiv V, !Equivalence (≡@{V}), !Equiv V2, !Equivalence (≡@{V2})}
    (inv : St → Prop) (le : St → St → Prop) `{!PreOrder le} (view_of : St → V) (apply : V → E → V)
    (view2 : St → V2) (apply2 : V2 → E2 → V2) (h : E → option E2) (Q : St → A → Prop) (m : prog St A) w T :
  (∀ s s' e, inv s → inv s' → (∀ x, e = Some x → is_Some (h x)) →
     view_of s' ≡ foldl apply (view_of s) (option_list e) →
     view2 s' ≡ foldl apply2 (view2 s) (option_list (e ≫= h))) →
  (∀ a es, T a es → Forall (λ x, is_Some (h x)) es) →
  yields inv le view_of apply Q w m T →
  yields inv le view2 apply2 Q w m (λ a es2, ∃ es, T a es ∧ es2 = omap h es).
Proof.
  intros Hh. revert w T. induction m as [a| |B f k IH]; intros w T HT; cbn [yields]; [|done|].
  { intros [Ha HQ]. split; [by exists []|done]. }
  intros Hm s Hs Hinv. destruct (Hm s Hs Hinv) as (H1 & H2 & e & Hv & Hk). split; [done|]. split; [done|].
  destruct (yields_run _ _ _ _ _ _ _ _ H1 Hk) as (a0 & es0 & H0%HT).
  assert (∀ x, e = Some x → is_Some (h x)) as He by (intros x ->; by apply list.Forall_cons in H0 as [? _]).
  exists (e ≫= h). split; [by apply Hh|].
  eapply (yields_weaken _ _ _ _ Q); [done| |apply (IH _ _ (λ a es, T a (option_list e ++ es))); [|exact Hk]].
  - intros a es2 (es & Hes & ->). exists (option_list e ++ es). split; [done|].
    destruct e as [x|]; [|done]. destruct (He x eq_refl) as [y Hy]. cbn. by rewrite Hy.
  - intros a es Hes%HT. by apply Forall_app in Hes as [_ ?].
Qed.
