(* ===== verification/Memory.v ===== *)
(** * Package [storage/memory]: the in-memory storage

    The sharded peer store (src/storage/memory/storage.go): its state, one
    definition per method, the garbage collection and the statistics; the
    invariant of its counters and shards, and the proof that it implements the
    abstract swarms of [Storage].  Methods run one after another here, each at
    once; [MemoryConc] runs them lock by lock. *)

From S2P Require Import Prelude GoStd Netip Bittorrent Storage.

Local Open Scope Z_scope.

Module MemStore.

Definition defaultShardCount : Z := 1024.
(** [^uint64(0)], that is -1. *)
Definition decrUint64 : Z := 2 ^ 64 - 1.
Definition MaxInt : Z := 2 ^ 63 - 1.

(** [Config.Validate] on [ShardCount]. *)
Definition Validate (ShardCount : Z) : Z :=
  if (ShardCount <=? 0) || (ShardCount >? MaxInt / 2) then defaultShardCount else ShardCount.

(** ** State *)

(** A swarm: serialized peer to time of its last announce. *)
Record swarm := MkSwarm { seeders : gmap Peer Z; leechers : gmap Peer Z }.

#[export] Instance swarm_eq_dec : EqDecision swarm.
Proof. solve_decision. Defined.

Record peerShard := MkShard {
  swarms : gmap InfoHash swarm;
  numSeeders : Z;     (* uint64 *)
  numLeechers : Z;    (* uint64 *)
}.

Record peerStore := MkStore { shards : list peerShard; closed : bool }.

Definition empty_shard : peerShard := MkShard ∅ 0 0.
Definition empty_swarm : swarm := MkSwarm ∅ ∅.

Definition NewPeerStorage (ShardCount : Z) : peerStore :=
  MkStore (replicate (Z.to_nat (Validate ShardCount * 2)) empty_shard) false.

(** ** Shards and swarms *)

Definition add_u64 (n d : Z) : Z := wrap 64 (n + d).

(** [getOrCreate]: the map and the swarm found or made. *)
Definition getOrCreate (m : gmap InfoHash swarm) (k : InfoHash) : gmap InfoHash swarm * swarm :=
  match m !! k with
  | Some v => (m, v)
  | None => (<[k := empty_swarm]> m, empty_swarm)
  end.

(** [shardIndex]; [None] is the panic of a slice or a division. *)
Definition shardIndex (ps : peerStore) (infoHash : InfoHash) (v6 : bool) : option nat :=
  let len := Z.of_nat (length (shards ps)) in
  b ← slice infoHash 0 4;
  if wrap 32 len / 2 =? 0 then None
  else
    let idx := be_get b mod (wrap 32 len / 2) in
    Some (Z.to_nat (if v6 then wrap 32 (idx + wrap 32 (len / 2)) else idx)).

(** [ps.shards[ps.shardIndex(ih, v6)]]. *)
Definition shardOf (ps : peerStore) (ih : InfoHash) (v6 : bool) : option (nat * peerShard) :=
  i ← shardIndex ps ih v6;
  sh ← shards ps !! i;
  Some (i, sh).

Definition set_shard (ps : peerStore) (i : nat) (sh : peerShard) : peerStore :=
  MkStore (<[i := sh]> (shards ps)) (closed ps).

(** Store a swarm back under its info hash: the code holds it by pointer. *)
Definition set_swarm (sh : peerShard) (ih : InfoHash) (sw : swarm) : peerShard :=
  MkShard (<[ih := sw]> (swarms sh)) (numSeeders sh) (numLeechers sh).

(** The effect of adding a peer at time [now], of removing one. *)
Definition put_seeder (now : Z) (ih : InfoHash) (p : Peer) (sh : peerShard) : peerShard :=
  let '(m, sw) := getOrCreate (swarms sh) ih in
  let n := if seeders sw !! p is None then add_u64 (numSeeders sh) 1 else numSeeders sh in
  MkShard (<[ih := MkSwarm (<[p := now]> (seeders sw)) (leechers sw)]> m) n (numLeechers sh).

Definition put_leecher (now : Z) (ih : InfoHash) (p : Peer) (sh : peerShard) : peerShard :=
  let '(m, sw) := getOrCreate (swarms sh) ih in
  let n := if leechers sw !! p is None then add_u64 (numLeechers sh) 1 else numLeechers sh in
  MkShard (<[ih := MkSwarm (seeders sw) (<[p := now]> (leechers sw))]> m) (numSeeders sh) n.

(** [sw.seeders.del(p)] and the counter: the part of a delete inside a found swarm. *)
Definition del_seeder (ih : InfoHash) (p : Peer) (sw : swarm) (sh : peerShard) : peerShard :=
  match seeders sw !! p with
  | Some _ =>
      let sh := set_swarm sh ih (MkSwarm (delete p (seeders sw)) (leechers sw)) in
      MkShard (swarms sh) (add_u64 (numSeeders sh) decrUint64) (numLeechers sh)
  | None => sh
  end.

Definition del_leecher (ih : InfoHash) (p : Peer) (sw : swarm) (sh : peerShard) : peerShard :=
  match leechers sw !! p with
  | Some _ =>
      let sh := set_swarm sh ih (MkSwarm (seeders sw) (delete p (leechers sw))) in
      MkShard (swarms sh) (numSeeders sh) (add_u64 (numLeechers sh) decrUint64)
  | None => sh
  end.

(** ** The methods

    Each starts with the check of [ps.closed], a panic on a stopped store. *)

Definition opened {A} (m : M peerStore A) : M peerStore A :=
  λ ps, if closed ps then panic ps else m ps.

Definition PutSeeder (now : Z) (ih : InfoHash) (p : Peer) : M peerStore error :=
  opened (λ ps,
    '(i, sh) ← shardOf ps ih (Peer_Is6 p);
    Some (set_shard ps i (put_seeder now ih p sh), None)).

Definition DeleteSeeder (ih : InfoHash) (p : Peer) : M peerStore error :=
  opened (λ ps,
    '(i, sh) ← shardOf ps ih (Peer_Is6 p);
    match swarms sh !! ih with
    | Some sw => Some (set_shard ps i (del_seeder ih p sw sh), None)
    | None => Some (ps, Some ErrResourceDoesNotExist)
    end).

Definition PutLeecher (now : Z) (ih : InfoHash) (p : Peer) : M peerStore error :=
  opened (λ ps,
    '(i, sh) ← shardOf ps ih (Peer_Is6 p);
    Some (set_shard ps i (put_leecher now ih p sh), None)).

Definition DeleteLeecher (ih : InfoHash) (p : Peer) : M peerStore error :=
  opened (λ ps,
    '(i, sh) ← shardOf ps ih (Peer_Is6 p);
    match swarms sh !! ih with
    | Some sw => Some (set_shard ps i (del_leecher ih p sw sh), None)
    | None => Some (ps, Some ErrResourceDoesNotExist)
    end).

Definition GraduateLeecher (now : Z) (ih : InfoHash) (p : Peer) : M peerStore error :=
  opened (λ ps,
    '(i, sh) ← shardOf ps ih (Peer_Is6 p);
    let '(m, sw) := getOrCreate (swarms sh) ih in
    let sh := MkShard m (numSeeders sh) (numLeechers sh) in
    Some (set_shard ps i (put_seeder now ih p (del_leecher ih p sw sh)), None)).

(** The callback [rangeFn] over the keys of one peer map, in iteration order:
    the peers appended, the remaining [numWant], and whether to go on. *)
Fixpoint rangeFn (keys : list Peer) (numWant : Z) (peers : list Peer) : list Peer * Z * bool :=
  match keys with
  | [] => (peers, numWant, true)
  | p :: keys =>
      let numWant := numWant - 1 in
      if numWant >? 0 then rangeFn keys numWant (peers ++ [p])
      else (peers ++ [p], numWant, false)
  end.

Definition keys `{Shuffle} (m : gmap Peer Z) : list Peer := (range m).*1.

(** The body of [AnnouncePeers] on a found swarm. *)
Definition announce `{Shuffle} (sw : swarm) (forSeeder : bool) (numWant : Z) : list Peer :=
  if forSeeder then (rangeFn (keys (leechers sw)) numWant []).1.1
  else
    let '(peers, numWant, more) := rangeFn (keys (seeders sw)) numWant [] in
    if more then (rangeFn (keys (leechers sw)) numWant peers).1.1 else peers.

(** [make([]Peer, 0, numWant/2)] panics on a negative capacity. *)
Definition AnnouncePeers `{Shuffle} (ih : InfoHash) (forSeeder : bool) (numWant : Z) (v6 : bool)
    : M peerStore (list Peer * error) :=
  opened (λ ps,
    '(_, sh) ← shardOf ps ih v6;
    match swarms sh !! ih with
    | Some sw =>
        if Z.quot numWant 2 <? 0 then None
        else Some (ps, (announce sw forSeeder numWant, None))
    | None => Some (ps, ([], None))
    end).

(** [countPeers]: leechers and seeders, as [uint32]. *)
Definition countPeers (ps : peerStore) (ih : InfoHash) (v6 : bool) : option (Z * Z) :=
  '(_, sh) ← shardOf ps ih v6;
  match swarms sh !! ih with
  | Some sw => Some (wrap 32 (Z.of_nat (size (leechers sw))), wrap 32 (Z.of_nat (size (seeders sw))))
  | None => Some (0, 0)
  end.

Definition ScrapeSwarm (ih : InfoHash) : M peerStore (Z * Z * Z * error) :=
  opened (λ ps,
    '(leechers, seeders) ← countPeers ps ih false;
    '(l, s) ← countPeers ps ih true;
    Some (ps, (wrap 32 (leechers + l), wrap 32 (seeders + s), 0, None))).

Definition Ping : M peerStore error := λ ps, Some (ps, None).
Definition Close : M peerStore error := λ ps, Some (MkStore (shards ps) true, None).

(** ** Garbage collection and statistics *)

Definition stale (cutoff : Z) (e : Peer * Z) : bool := e.2 <=? cutoff.

(** The loops over [toDel]: each peer still present is removed and counted off. *)
Definition purge (toDel : list Peer) (m : gmap Peer Z) (n : Z) : gmap Peer Z * Z :=
  foldl (λ '(m, n) p,
    match m !! p with
    | Some _ => (delete p m, add_u64 n decrUint64)
    | None => (m, n)
    end) (m, n) toDel.

Definition toDel `{Shuffle} (cutoff : Z) (m : gmap Peer Z) : list Peer :=
  (List.filter (stale cutoff) (range m)).*1.

Definition gc_swarm `{Shuffle} (cutoff : Z) (sh : peerShard) (ih : InfoHash) : peerShard :=
  match swarms sh !! ih with
  | None => sh
  | Some sw =>
      let '(l, nl) := purge (toDel cutoff (leechers sw)) (leechers sw) (numLeechers sh) in
      let '(s, ns) := purge (toDel cutoff (seeders sw)) (seeders sw) (numSeeders sh) in
      let m := <[ih := MkSwarm s l]> (swarms sh) in
      let m := if Z.lor (Z.of_nat (size l)) (Z.of_nat (size s)) =? 0 then delete ih m else m in
      MkShard m ns nl
  end.

Definition gc_shard `{Shuffle} (cutoff : Z) (sh : peerShard) : peerShard :=
  foldl (gc_swarm cutoff) sh (range (swarms sh)).*1.

Definition gc `{Shuffle} (cutoff : Z) (ps : peerStore) : peerStore :=
  if closed ps then ps else MkStore (gc_shard cutoff <$> shards ps) (closed ps).

(** The totals [ScheduleStatisticsCollection] posts. *)
Definition statistics (ps : peerStore) : Z * Z * Z :=
  foldl (λ '(ih, s, l) sh,
    (add_u64 ih (Z.of_nat (size (swarms sh))), add_u64 s (numSeeders sh), add_u64 l (numLeechers sh)))
    (0, 0, 0) (shards ps).

(** The goroutine of [ScheduleGC]: a [time.Timer] sends once per (re)arming,
    and nothing in the loop arms it again. *)
Record gcLoop := MkGcLoop { gl_armed : bool; gl_running : bool; gl_runs : nat; gl_store : peerStore }.

Inductive gc_step : gcLoop → gcLoop → Prop :=
  | gc_tick {σ : Shuffle} now peerLifeTime runs ps :
      gc_step (MkGcLoop true true runs ps)
              (MkGcLoop false true (S runs) (gc (now - peerLifeTime) ps))
  | gc_closed armed runs ps :
      closed ps = true →
      gc_step (MkGcLoop armed true runs ps) (MkGcLoop false false runs ps)
  (* the methods other goroutines call meanwhile *)
  | gc_other armed running runs ps ps' :
      gc_step (MkGcLoop armed running runs ps) (MkGcLoop armed running runs ps').

Definition ScheduleGC (ps : peerStore) : gcLoop := MkGcLoop true true 0 ps.

(** ** The store as a [PeerStorage]

    Each call reads the cached clock and sees its own iteration orders: the
    [w_pos]-th call gets the [w_pos]-th [tick]. *)

Record tick := MkTick { tk_now : Z; tk_order : Shuffle }.
Record world := MkWorld { w_store : peerStore; w_ticks : nat → tick; w_pos : nat }.

Definition timed {A} (f : tick → M peerStore A) : M world A := λ w,
  '(ps, a) ← f (w_ticks w (w_pos w)) (w_store w);
  Some (MkWorld ps (w_ticks w) (S (w_pos w)), a).

#[export] Instance memory_PeerStorage : PeerStorage world := {|
  Storage.PutSeeder ih p := timed (λ t, PutSeeder (tk_now t) ih p);
  Storage.DeleteSeeder ih p := timed (λ _, DeleteSeeder ih p);
  Storage.PutLeecher ih p := timed (λ t, PutLeecher (tk_now t) ih p);
  Storage.DeleteLeecher ih p := timed (λ _, DeleteLeecher ih p);
  Storage.GraduateLeecher ih p := timed (λ t, GraduateLeecher (tk_now t) ih p);
  Storage.AnnouncePeers ih forSeeder numWant v6 :=
    timed (λ t, @AnnouncePeers (tk_order t) ih forSeeder numWant v6);
  Storage.ScrapeSwarm ih := timed (λ _, ScrapeSwarm ih);
  Storage.Ping := timed (λ _, Ping);
|}.

(** ** Invariant *)

Definition swarm_ok (v6 : bool) (sw : swarm) : Prop :=
  (∀ p t, seeders sw !! p = Some t → Peer_Is6 p = v6) ∧
  (∀ p t, leechers sw !! p = Some t → Peer_Is6 p = v6).

Definition count_seeders (sh : peerShard) : nat := map_total (λ sw, size (seeders sw)) (swarms sh).
Definition count_leechers (sh : peerShard) : nat := map_total (λ sw, size (leechers sw)) (swarms sh).

(** The counters are the number of peers, the swarms of a shard belong to it
    and hold peers of its address family. *)
Record shard_inv (v6 : bool) (owns : InfoHash → Prop) (sh : peerShard) : Prop := {
  inv_seeders : numSeeders sh = wrap 64 (Z.of_nat (count_seeders sh));
  inv_leechers : numLeechers sh = wrap 64 (Z.of_nat (count_leechers sh));
  inv_swarms ih sw : swarms sh !! ih = Some sw → owns ih ∧ swarm_ok v6 sw;
}.

(** The IPv6 half of the shards. *)
Definition half (ps : peerStore) : nat := length (shards ps) / 2.

Record store_inv (ps : peerStore) : Prop := {
  inv_open : closed ps = false;
  inv_even : length (shards ps) = (2 * half ps)%nat;
  inv_pos : (0 < half ps)%nat;
  inv_bound : Z.of_nat (length (shards ps)) < 2 ^ 32;
  inv_shards i sh : shards ps !! i = Some sh →
    let v6 := bool_decide (half ps ≤ i)%nat in
    shard_inv v6 (λ ih, shardIndex ps ih v6 = Some i) sh;
}.

(** ** The swarms of a shard and of the store *)

Definition peers_of (r : role) (sw : swarm) : gmap Peer Z :=
  match r with Seeder => seeders sw | Leecher => leechers sw end.

Definition swarm_at (sh : peerShard) (ih : InfoHash) : swarm := default empty_swarm (swarms sh !! ih).
Definition shard_view (sh : peerShard) (r : role) (ih : InfoHash) : gmap Peer Z := peers_of r (swarm_at sh ih).

Definition peers_at (ps : peerStore) (ih : InfoHash) (v6 : bool) (r : role) : gmap Peer Z :=
  match shardOf ps ih v6 with Some (_, sh) => shard_view sh r ih | None => ∅ end.

(** The swarms with the time of each peer's last announce. *)
Definition tview := role → InfoHash → gmap Peer Z.

Definition at_role (r r' : role) (ih ih' : InfoHash) (f : gmap Peer Z → gmap Peer Z)
    (m : gmap Peer Z) : gmap Peer Z :=
  if decide (r' = r ∧ ih' = ih) then f m else m.

Definition t_update (r0 : role) (ih : InfoHash) (f : gmap Peer Z → gmap Peer Z) (v : tview) : tview :=
  λ r ih', at_role r0 r ih ih' f (v r ih').

(** What the store stands for, over both address families. *)
Definition tview_of (ps : peerStore) : tview :=
  λ r ih, peers_at ps ih false r ∪ peers_at ps ih true r.
Definition store_view (ps : peerStore) : view := λ r ih, dom (tview_of ps r ih).

(** The entries a collection keeps. *)
Definition fresh (cutoff : Z) (m : gmap Peer Z) : gmap Peer Z := filter (λ e, cutoff < e.2) m.

(** ** The specification

    The calls that write, what they do to the swarms, and the store doing them
    one after another. *)
Inductive op :=
  | OpPutSeeder (now : Z) (ih : InfoHash) (p : Peer)
  | OpDeleteSeeder (ih : InfoHash) (p : Peer)
  | OpPutLeecher (now : Z) (ih : InfoHash) (p : Peer)
  | OpDeleteLeecher (ih : InfoHash) (p : Peer)
  | OpGraduateLeecher (now : Z) (ih : InfoHash) (p : Peer)
  | OpGC (σ : Shuffle) (cutoff : Z).

Definition op_wf (o : op) : Prop :=
  match o with
  | OpPutSeeder _ ih _ | OpDeleteSeeder ih _ | OpPutLeecher _ ih _
  | OpDeleteLeecher ih _ | OpGraduateLeecher _ ih _ => InfoHash_wf ih
  | OpGC _ _ => True
  end.

Definition spec_op (o : op) (v : tview) : tview :=
  match o with
  | OpPutSeeder now ih p => t_update Seeder ih <[p := now]> v
  | OpDeleteSeeder ih p => t_update Seeder ih (delete p) v
  | OpPutLeecher now ih p => t_update Leecher ih <[p := now]> v
  | OpDeleteLeecher ih p => t_update Leecher ih (delete p) v
  | OpGraduateLeecher now ih p =>
      t_update Seeder ih <[p := now]> (t_update Leecher ih (delete p) v)
  | OpGC _ cutoff => λ r ih, fresh cutoff (v r ih)
  end.

Definition run_op (o : op) (ps : peerStore) : option peerStore :=
  match o with
  | OpPutSeeder now ih p => fst <$> PutSeeder now ih p ps
  | OpDeleteSeeder ih p => fst <$> DeleteSeeder ih p ps
  | OpPutLeecher now ih p => fst <$> PutLeecher now ih p ps
  | OpDeleteLeecher ih p => fst <$> DeleteLeecher ih p ps
  | OpGraduateLeecher now ih p => fst <$> GraduateLeecher now ih p ps
  | OpGC σ cutoff => Some (@gc σ cutoff ps)
  end.

Definition spec_ops (os : list op) (v : tview) : tview := foldl (flip spec_op) v os.
Fixpoint run_ops (os : list op) (ps : peerStore) : option peerStore :=
  match os with [] => Some ps | o :: os => ps ← run_op o ps; run_ops os ps end.

(** ** Facts: shard updates *)

Lemma shard_inv_set v6 owns sh ih sw' ns nl :
  shard_inv v6 owns sh → owns ih → swarm_ok v6 sw' →
  ns = wrap 64 (numSeeders sh + Z.of_nat (size (seeders sw')) - Z.of_nat (size (seeders (swarm_at sh ih)))) →
  nl = wrap 64 (numLeechers sh + Z.of_nat (size (leechers sw')) - Z.of_nat (size (leechers (swarm_at sh ih)))) →
  shard_inv v6 owns (MkShard (<[ih := sw']> (swarms sh)) ns nl).
Proof.
  intros [Hs Hl Hsw] Hown Hok -> ->. unfold count_seeders, count_leechers in *.
  assert (∀ f : swarm → nat, f empty_swarm = 0%nat →
    Z.of_nat (map_total f (<[ih := sw']> (swarms sh))) =
      Z.of_nat (map_total f (swarms sh)) + Z.of_nat (f sw') - Z.of_nat (f (swarm_at sh ih))) as Hf.
  { intros f Hf0. unfold swarm_at. destruct (swarms sh !! ih) as [sw|] eqn:E; simpl.
    - pose proof (map_total_update f _ _ _ sw' E). lia.
    - rewrite map_total_new by done. lia. }
  split; simpl; unfold count_seeders, count_leechers; simpl.
  - rewrite Hf by done. rewrite Hs. rewrite <-!Z.add_sub_assoc. apply wrap_add_l.
  - rewrite Hf by done. rewrite Hl. rewrite <-!Z.add_sub_assoc. apply wrap_add_l.
  - intros ih' sw [[<- <-]|[_ ?]]%lookup_insert_Some; eauto.
Qed.

Lemma shard_inv_owns v6 (P Q : InfoHash → Prop) sh :
  (∀ ih, P ih → Q ih) → shard_inv v6 P sh → shard_inv v6 Q sh.
Proof. intros HPQ [? ? Hsw]. split; [done..|]. intros ih sw [? ?]%Hsw. auto. Qed.

Lemma swarm_at_ok v6 owns sh ih : shard_inv v6 owns sh → swarm_ok v6 (swarm_at sh ih).
Proof.
  intros H. unfold swarm_at. destruct (swarms sh !! ih) as [sw|] eqn:E; simpl.
  - eapply inv_swarms in E as [_ ?]; eauto.
  - by split; intros p t; simpl; rewrite lookup_empty.
Qed.

Lemma getOrCreate_eq sh ih :
  ∃ m, getOrCreate (swarms sh) ih = (m, swarm_at sh ih) ∧
       (∀ sw, <[ih := sw]> m = <[ih := sw]> (swarms sh)).
Proof.
  unfold getOrCreate, swarm_at. destruct (swarms sh !! ih) as [sw|]; simpl.
  - by eexists.
  - eexists. split; [done|]. intros sw. apply insert_insert_eq.
Qed.

Lemma size_put (m : gmap Peer Z) p t :
  Z.of_nat (size (<[p := t]> m)) = Z.of_nat (size m) + (if m !! p is None then 1 else 0).
Proof.
  destruct (m !! p) eqn:E.
  - rewrite map_size_insert_Some by eauto. lia.
  - rewrite map_size_insert_None by done. lia.
Qed.

Lemma size_del (m : gmap Peer Z) p t :
  m !! p = Some t → Z.of_nat (size (delete p m)) = Z.of_nat (size m) - 1.
Proof.
  intros E. rewrite map_size_delete_Some by eauto.
  assert (size m ≠ 0%nat) by (intros ->%map_size_empty_inv; done). lia.
Qed.

Lemma wrap64_minus_one n : add_u64 n decrUint64 = wrap 64 (n - 1).
Proof.
  unfold add_u64, decrUint64, wrap.
  replace (n + (2 ^ 64 - 1)) with (n - 1 + 1 * 2 ^ 64) by lia.
  apply Z_mod_plus_full.
Qed.

(** A counter that stays, or moves by one with its map. *)
Lemma counter_stay v6 owns sh a b :
  shard_inv v6 owns sh → a = b →
  numSeeders sh = wrap 64 (numSeeders sh + a - b) ∧ numLeechers sh = wrap 64 (numLeechers sh + a - b).
Proof.
  intros [-> -> _] ->. by rewrite !Z.add_simpl_r, !wrap_wrap.
Qed.

Ltac counters H :=
  match goal with
  | |- numSeeders _ = wrap 64 _ => apply (counter_stay _ _ _ _ _ H); simpl; lia
  | |- numLeechers _ = wrap 64 _ => apply (counter_stay _ _ _ _ _ H); simpl; lia
  | |- _ = wrap 64 _ => rewrite ?wrap64_minus_one; unfold add_u64; f_equal; simpl; lia
  end.

(** The four shard-level operations keep the invariant ... *)

Lemma put_seeder_inv v6 owns now ih p sh :
  shard_inv v6 owns sh → owns ih → Peer_Is6 p = v6 → shard_inv v6 owns (put_seeder now ih p sh).
Proof.
  intros H Hown Hp. unfold put_seeder.
  destruct (getOrCreate_eq sh ih) as (m & -> & Hm). rewrite Hm.
  destruct (swarm_at_ok _ _ _ ih H) as [Hs Hl].
  apply shard_inv_set; simpl; [done..| | |counters H].
  - split; simpl; [|done]. intros q t [[<- _]|[_ ?]]%lookup_insert_Some; eauto.
  - rewrite size_put. destruct (seeders _ !! p); counters H.
Qed.

Lemma put_leecher_inv v6 owns now ih p sh :
  shard_inv v6 owns sh → owns ih → Peer_Is6 p = v6 → shard_inv v6 owns (put_leecher now ih p sh).
Proof.
  intros H Hown Hp. unfold put_leecher.
  destruct (getOrCreate_eq sh ih) as (m & -> & Hm). rewrite Hm.
  destruct (swarm_at_ok _ _ _ ih H) as [Hs Hl].
  apply shard_inv_set; simpl; [done..| |counters H|].
  - split; simpl; [done|]. intros q t [[<- _]|[_ ?]]%lookup_insert_Some; eauto.
  - rewrite size_put. destruct (leechers _ !! p); counters H.
Qed.

Lemma del_seeder_inv v6 owns ih p sh :
  shard_inv v6 owns sh → owns ih → shard_inv v6 owns (del_seeder ih p (swarm_at sh ih) sh).
Proof.
  intros H Hown. unfold del_seeder. destruct (swarm_at_ok _ _ _ ih H) as [Hs Hl].
  destruct (seeders _ !! p) eqn:E; [|done].
  apply shard_inv_set; simpl; [done..| | |counters H].
  - split; simpl; [|done]. intros q t [_ ?]%lookup_delete_Some; eauto.
  - rewrite (size_del _ _ _ E). counters H.
Qed.

Lemma del_leecher_inv v6 owns ih p sh :
  shard_inv v6 owns sh → owns ih → shard_inv v6 owns (del_leecher ih p (swarm_at sh ih) sh).
Proof.
  intros H Hown. unfold del_leecher. destruct (swarm_at_ok _ _ _ ih H) as [Hs Hl].
  destruct (leechers _ !! p) eqn:E; [|done].
  apply shard_inv_set; simpl; [done..| |counters H|].
  - split; simpl; [done|]. intros q t [_ ?]%lookup_delete_Some; eauto.
  - rewrite (size_del _ _ _ E). counters H.
Qed.

(** ... and change one peer map. *)

Lemma shard_view_set sh ih sw ns nl r ih' :
  shard_view (MkShard (<[ih := sw]> (swarms sh)) ns nl) r ih' =
    if decide (ih' = ih) then peers_of r sw else shard_view sh r ih'.
Proof.
  unfold shard_view, swarm_at. simpl. case_decide as Hd.
  - subst. by rewrite lookup_insert_eq.
  - by rewrite lookup_insert_ne.
Qed.

Ltac at_role_cases :=
  unfold at_role;
  match goal with |- context [decide (?r' = ?r ∧ ?ih' = ?ih)] =>
    destruct (decide (ih' = ih)) as [->|]; [destruct r'|];
    rewrite ?(decide_True (P := _ ∧ _)) by done;
    rewrite ?(decide_False (P := _ ∧ _)) by naive_solver
  end.

Lemma put_seeder_view now ih p sh r ih' :
  shard_view (put_seeder now ih p sh) r ih' =
    at_role Seeder r ih ih' <[p := now]> (shard_view sh r ih').
Proof.
  unfold put_seeder. destruct (getOrCreate_eq sh ih) as (m & -> & Hm). rewrite Hm, shard_view_set.
  by at_role_cases; rewrite ?decide_True, ?decide_False by done.
Qed.

Lemma put_leecher_view now ih p sh r ih' :
  shard_view (put_leecher now ih p sh) r ih' =
    at_role Leecher r ih ih' <[p := now]> (shard_view sh r ih').
Proof.
  unfold put_leecher. destruct (getOrCreate_eq sh ih) as (m & -> & Hm). rewrite Hm, shard_view_set.
  by at_role_cases; rewrite ?decide_True, ?decide_False by done.
Qed.

Lemma del_seeder_view ih p sh r ih' :
  shard_view (del_seeder ih p (swarm_at sh ih) sh) r ih' =
    at_role Seeder r ih ih' (delete p) (shard_view sh r ih').
Proof.
  unfold del_seeder. destruct (seeders _ !! p) eqn:E.
  - simpl. rewrite shard_view_set.
    by at_role_cases; rewrite ?decide_True, ?decide_False by done.
  - at_role_cases; try done. by rewrite delete_id.
Qed.

Lemma del_leecher_view ih p sh r ih' :
  shard_view (del_leecher ih p (swarm_at sh ih) sh) r ih' =
    at_role Leecher r ih ih' (delete p) (shard_view sh r ih').
Proof.
  unfold del_leecher. destruct (leechers _ !! p) eqn:E.
  - simpl. rewrite shard_view_set.
    by at_role_cases; rewrite ?decide_True, ?decide_False by done.
  - at_role_cases; try done. by rewrite delete_id.
Qed.

(** ** Facts: the store *)

Definition shape (ps : peerStore) : Prop :=
  length (shards ps) = (2 * half ps)%nat ∧ (0 < half ps)%nat ∧
  Z.of_nat (length (shards ps)) < 2 ^ 32.

Lemma inv_shape ps : store_inv ps → shape ps.
Proof. by intros []. Qed.

(** The shard of an info hash: the one its first four bytes select in the half
    of its address family. *)
Definition shard_no (ps : peerStore) (ih : InfoHash) (v6 : bool) : nat :=
  Z.to_nat (be_get (take 4 ih) mod Z.of_nat (half ps)) + (if v6 then half ps else 0).

Lemma shard_no_bounds ps ih v6 :
  shape ps → (shard_no ps ih v6 < length (shards ps) ∧ (half ps ≤ shard_no ps ih v6 ↔ v6 = true))%nat.
Proof.
  intros (He & Hp & Hb). unfold shard_no.
  pose proof (Z.mod_pos_bound (be_get (take 4 ih)) (Z.of_nat (half ps)) ltac:(lia)).
  destruct v6; split; try split; try done; lia.
Qed.

Lemma shard_no_half ps ih v6 : shape ps → bool_decide (half ps ≤ shard_no ps ih v6)%nat = v6.
Proof.
  intros Hs. destruct (shard_no_bounds ps ih v6 Hs) as [_ Hh].
  case_bool_decide as Hd; [symmetry; tauto|]. destruct v6; tauto.
Qed.

Lemma shardIndex_eq ps ih v6 :
  shape ps → (4 ≤ length ih)%nat → shardIndex ps ih v6 = Some (shard_no ps ih v6).
Proof.
  intros (He & Hp & Hb) Hih. unfold shardIndex. rewrite slice_Some by lia. simpl.
  rewrite (wrap_small 32 (Z.of_nat (length _))) by (unfold uint; lia).
  assert (Z.of_nat (length (shards ps)) / 2 = Z.of_nat (half ps)) as ->.
  { rewrite He, Nat2Z.inj_mul, Z.mul_comm, Z.div_mul; lia. }
  rewrite (proj2 (Z.eqb_neq _ _)) by lia. unfold shard_no. f_equal. rewrite drop_0.
  pose proof (Z.mod_pos_bound (be_get (take 4 ih)) (Z.of_nat (half ps)) ltac:(lia)).
  destruct v6; [|lia].
  rewrite (wrap_small 32 (Z.of_nat (half ps))) by (unfold uint; lia).
  rewrite wrap_small by (unfold uint; lia). lia.
Qed.

Lemma shardIndex_short ps ih v6 : (length ih < 4)%nat → shardIndex ps ih v6 = None.
Proof. intros. unfold shardIndex, slice. by rewrite decide_False by lia. Qed.

Lemma wf_length ih : InfoHash_wf ih → (4 ≤ length ih)%nat.
Proof. unfold InfoHash_wf, InfoHashV1Len, InfoHashV2Len. lia. Qed.
#[local] Hint Resolve wf_length inv_shape : core.

Lemma shardOf_Some ps ih v6 :
  store_inv ps → InfoHash_wf ih →
  ∃ sh, shardOf ps ih v6 = Some (shard_no ps ih v6, sh) ∧
        shards ps !! shard_no ps ih v6 = Some sh ∧
        shard_inv v6 (λ ih', shardIndex ps ih' v6 = Some (shard_no ps ih v6)) sh.
Proof.
  intros Hinv Hih. destruct (shard_no_bounds ps ih v6) as [Hlt Hhalf]; [auto|].
  destruct (lookup_lt_is_Some_2 _ _ Hlt) as [sh Hsh]. exists sh.
  unfold shardOf. rewrite shardIndex_eq by auto. simpl. rewrite Hsh. split_and!; [done..|].
  pose proof (inv_shards _ Hinv _ _ Hsh) as H. cbv zeta in H.
  by rewrite shard_no_half in H by auto.
Qed.

Lemma set_shard_index ps i sh ih v6 : shardIndex (set_shard ps i sh) ih v6 = shardIndex ps ih v6.
Proof. unfold shardIndex, set_shard. simpl. by rewrite length_insert. Qed.

Lemma set_shard_half ps i sh : half (set_shard ps i sh) = half ps.
Proof. unfold half, set_shard. simpl. by rewrite length_insert. Qed.

Lemma set_shard_inv ps ih v6 sh' :
  store_inv ps → InfoHash_wf ih →
  shard_inv v6 (λ ih', shardIndex ps ih' v6 = Some (shard_no ps ih v6)) sh' →
  store_inv (set_shard ps (shard_no ps ih v6) sh').
Proof.
  intros Hinv Hih Hsh. pose proof Hinv as [Hc He Hp Hb Hs].
  destruct (shard_no_bounds ps ih v6) as [Hlt Hhalf]; [auto|].
  split; rewrite ?set_shard_half; simpl; rewrite ?length_insert; [done..|].
  intros i sh Hi. cbv zeta.
  apply (shard_inv_owns _ (λ ih0, shardIndex ps ih0 (bool_decide (half ps ≤ i)%nat) = Some i)).
  { intros ih0. by rewrite set_shard_index. }
  apply list_lookup_insert_Some in Hi as [(<- & -> & _)|[_ Hi]]; [|by apply Hs].
  by rewrite shard_no_half by auto.
Qed.

(** Replacing the shard of (ih, v6) by one that differs only at [ih] changes
    the store at (ih, v6) only. *)
Lemma peers_at_set ps ih v6 sh sh' r0 f ih' v6' r :
  shape ps → InfoHash_wf ih →
  shardOf ps ih v6 = Some (shard_no ps ih v6, sh) →
  (∀ r ih', shard_view sh' r ih' = at_role r0 r ih ih' f (shard_view sh r ih')) →
  peers_at (set_shard ps (shard_no ps ih v6) sh') ih' v6' r =
    if decide (v6' = v6) then at_role r0 r ih ih' f (peers_at ps ih' v6' r)
    else peers_at ps ih' v6' r.
Proof.
  intros Hinv Hih Hsh Hview. unfold peers_at, shardOf in *.
  destruct (shard_no_bounds ps ih v6) as [Hlt Hhalf]; [auto|].
  rewrite set_shard_index in *. rewrite shardIndex_eq in Hsh by auto. simpl in Hsh.
  destruct (decide (length ih' < 4)%nat) as [Hs|Hs].
  { rewrite shardIndex_short by done. simpl. case_decide; [|done].
    unfold at_role. rewrite decide_False; [done|]. intros [_ ->]. by apply wf_length in Hih; lia. }
  rewrite shardIndex_eq by (auto; lia). simpl.
  destruct (shards ps !! shard_no ps ih v6) as [sh0|] eqn:Hl; [|done].
  injection Hsh as ->.
  destruct (decide (shard_no ps ih' v6' = shard_no ps ih v6)) as [Heq|Hne].
  - rewrite Heq, Hl, list_lookup_insert_eq by done. simpl. rewrite Hview.
    destruct (shard_no_bounds ps ih' v6') as [_ Hhalf']; [auto|].
    rewrite decide_True; [done|]. destruct v6, v6'; naive_solver lia.
  - rewrite list_lookup_insert_ne by done.
    case_decide as Hv; [|done]. unfold at_role. rewrite decide_False; [done|].
    intros [-> ->]. congruence.
Qed.

(** The part of the invariant that places the swarms: what is said about which
    peers there are does not need the counters. *)
Record placed (ps : peerStore) : Prop := {
  pl_shape : shape ps;
  pl_swarms i sh ih sw : shards ps !! i = Some sh → swarms sh !! ih = Some sw →
    swarm_ok (bool_decide (half ps ≤ i)%nat) sw;
}.

Lemma inv_placed ps : store_inv ps → placed ps.
Proof.
  intros Hinv. split; [by apply inv_shape|]. intros i sh ih sw Hi Hsw.
  by apply (inv_shards _ Hinv _ _ Hi) in Hsw as [_ ?].
Qed.
#[local] Hint Resolve inv_placed pl_shape : core.

Lemma set_shard_placed ps i sh' :
  placed ps → (∀ ih sw, swarms sh' !! ih = Some sw → swarm_ok (bool_decide (half ps ≤ i)%nat) sw) →
  placed (set_shard ps i sh').
Proof.
  intros [Hs Hsw] Hok. split.
  - unfold shape. rewrite set_shard_half. unfold set_shard. simpl. by rewrite length_insert.
  - intros j sh ih sw. rewrite set_shard_half. unfold set_shard. simpl.
    intros [(<- & -> & _)|[_ Hj]]%list_lookup_insert_Some; [apply Hok|by eapply Hsw].
Qed.

Lemma peers_at_family_placed ps ih v6 r p t :
  placed ps → peers_at ps ih v6 r !! p = Some t → Peer_Is6 p = v6.
Proof.
  intros Hinv. unfold peers_at. destruct (shardOf ps ih v6) as [[i sh]|] eqn:E; [|done].
  unfold shardOf in E. destruct (decide (length ih < 4)%nat).
  { by rewrite shardIndex_short in E. }
  rewrite shardIndex_eq in E by (auto; lia). simpl in E.
  destruct (shards ps !! _) as [sh0|] eqn:Hl; [|done]. injection E as <- ->.
  unfold shard_view, swarm_at. destruct (swarms sh !! ih) as [sw|] eqn:Esw; [|by destruct r].
  pose proof (pl_swarms _ Hinv _ _ _ _ Hl Esw) as [H1 H2].
  rewrite shard_no_half in * by auto. destruct r; eauto.
Qed.

Lemma peers_at_family ps ih v6 r p t :
  store_inv ps → peers_at ps ih v6 r !! p = Some t → Peer_Is6 p = v6.
Proof. intros ?%inv_placed. by apply peers_at_family_placed. Qed.

(** ** Facts: the abstract swarms *)

Lemma lookup_tview_placed ps r ih p :
  placed ps → tview_of ps r ih !! p = peers_at ps ih (Peer_Is6 p) r !! p.
Proof.
  intros Hinv. unfold tview_of.
  assert (∀ v6, v6 ≠ Peer_Is6 p → peers_at ps ih v6 r !! p = None) as Hno.
  { intros v6 Hv. apply eq_None_not_Some. intros [t Ht].
    by apply peers_at_family_placed in Ht; [congruence|]. }
  destruct (Peer_Is6 p) eqn:E.
  - by rewrite lookup_union_r by by apply Hno.
  - rewrite lookup_union, (Hno true) by done. by destruct (_ !! p).
Qed.

Lemma lookup_tview ps r ih p :
  store_inv ps → tview_of ps r ih !! p = peers_at ps ih (Peer_Is6 p) r !! p.
Proof. intros ?%inv_placed. by apply lookup_tview_placed. Qed.

(** A change of a peer map that only concerns peer [p]. *)
Definition only_at (p : Peer) (f : gmap Peer Z → gmap Peer Z) : Prop :=
  (∀ m q, q ≠ p → f m !! q = m !! q) ∧ (∀ m m', m !! p = m' !! p → f m !! p = f m' !! p).

Lemma only_at_insert p t : only_at p <[p := t]>.
Proof. split; intros; [by rewrite lookup_insert_ne|by rewrite !lookup_insert_eq]. Qed.
Lemma only_at_delete p : only_at p (delete p).
Proof. split; intros; [by rewrite lookup_delete_ne|by rewrite !lookup_delete_eq]. Qed.
#[local] Hint Resolve only_at_insert only_at_delete : core.

Lemma t_update_ext r0 ih f (v w : tview) r ih' :
  v r ih' = w r ih' → t_update r0 ih f v r ih' = t_update r0 ih f w r ih'.
Proof. unfold t_update. by intros ->. Qed.

Lemma tview_set_placed ps sh sh' r0 f ih p r ih' :
  placed ps → InfoHash_wf ih → placed (set_shard ps (shard_no ps ih (Peer_Is6 p)) sh') →
  shardOf ps ih (Peer_Is6 p) = Some (shard_no ps ih (Peer_Is6 p), sh) →
  only_at p f →
  (∀ r ih', shard_view sh' r ih' = at_role r0 r ih ih' f (shard_view sh r ih')) →
  tview_of (set_shard ps (shard_no ps ih (Peer_Is6 p)) sh') r ih' = t_update r0 ih f (tview_of ps) r ih'.
Proof.
  intros Hinv Hih Hinv' Hsh [Hf1 Hf2] Hv. apply map_eq. intros q.
  rewrite lookup_tview_placed by done.
  rewrite (peers_at_set _ _ _ _ _ _ _ _ _ _ (pl_shape _ Hinv) Hih Hsh Hv). unfold t_update, at_role.
  destruct (decide (r = r0 ∧ ih' = ih)) as [[-> ->]|Hne].
  - destruct (decide (q = p)) as [->|Hq].
    + rewrite decide_True by done. apply Hf2. by rewrite lookup_tview_placed.
    + rewrite Hf1, lookup_tview_placed by done. case_decide; [|done]. by rewrite Hf1.
  - rewrite lookup_tview_placed by done. by destruct (decide _).
Qed.

Lemma tview_set ps sh sh' r0 f ih p r ih' :
  store_inv ps → InfoHash_wf ih → store_inv (set_shard ps (shard_no ps ih (Peer_Is6 p)) sh') →
  shardOf ps ih (Peer_Is6 p) = Some (shard_no ps ih (Peer_Is6 p), sh) →
  only_at p f →
  (∀ r ih', shard_view sh' r ih' = at_role r0 r ih ih' f (shard_view sh r ih')) →
  tview_of (set_shard ps (shard_no ps ih (Peer_Is6 p)) sh') r ih' = t_update r0 ih f (tview_of ps) r ih'.
Proof. intros ?%inv_placed ? ?%inv_placed. by apply tview_set_placed. Qed.

(** A shard with the same peers is the same to an observer. *)
Lemma tview_set_same ps i sh sh' r ih :
  shards ps !! i = Some sh → (∀ r ih, shard_view sh' r ih = shard_view sh r ih) →
  tview_of (set_shard ps i sh') r ih = tview_of ps r ih.
Proof.
  intros Hi Hv. unfold tview_of. assert (∀ v6, peers_at (set_shard ps i sh') ih v6 r = peers_at ps ih v6 r) as H;
    [|by rewrite !H].
  intros v6. unfold peers_at, shardOf. rewrite set_shard_index.
  destruct (shardIndex ps ih v6) as [j|]; [|done]. cbn [mbind option_bind]. unfold set_shard. cbn [shards].
  destruct (decide (i = j)) as [<-|]; [|by rewrite list_lookup_insert_ne].
  rewrite list_lookup_insert_eq, Hi by by eapply lookup_lt_Some. cbn. apply Hv.
Qed.

(** From timed swarms to sets of peers. *)
Lemma store_view_insert ps ps' r0 ih p t :
  (∀ r ih', tview_of ps' r ih' = t_update r0 ih <[p := t]> (tview_of ps) r ih') →
  store_view ps' ≡ view_add r0 ih p (store_view ps).
Proof.
  intros H r ih'. unfold store_view, view_add, view_update. rewrite H. unfold t_update, at_role.
  case_decide; [|done]. by rewrite dom_insert_L.
Qed.

Lemma store_view_delete ps ps' r0 ih p :
  (∀ r ih', tview_of ps' r ih' = t_update r0 ih (delete p) (tview_of ps) r ih') →
  store_view ps' ≡ view_remove r0 ih p (store_view ps).
Proof.
  intros H r ih'. unfold store_view, view_remove, view_update. rewrite H. unfold t_update, at_role.
  case_decide; [|done]. by rewrite dom_delete_L.
Qed.

(** Making an empty swarm changes nothing an observer sees. *)
Lemma create_inv v6 owns sh ih m sw :
  shard_inv v6 owns sh → owns ih → getOrCreate (swarms sh) ih = (m, sw) →
  let sh' := MkShard m (numSeeders sh) (numLeechers sh) in
  shard_inv v6 owns sh' ∧ sw = swarm_at sh' ih ∧ ∀ r ih', shard_view sh' r ih' = shard_view sh r ih'.
Proof.
  intros H Hown. unfold getOrCreate. destruct (swarms sh !! ih) as [sw0|] eqn:E; intros [= <- <-].
  - simpl. split_and!; [by destruct sh| |by destruct sh]. unfold swarm_at. simpl. by rewrite E.
  - simpl. assert (swarm_at sh ih = empty_swarm) as Hsw by (unfold swarm_at; by rewrite E).
    split_and!.
    + apply (shard_inv_set _ _ sh); [done..| | |].
      * rewrite <-Hsw. by eapply swarm_at_ok.
      * rewrite Hsw. counters H.
      * rewrite Hsw. counters H.
    + unfold swarm_at. simpl. by rewrite lookup_insert_eq.
    + intros r ih'. rewrite shard_view_set. case_decide; [subst|done].
      unfold shard_view. by rewrite Hsw.
Qed.

(** ** Facts: announcing *)

Lemma rangeFn_spec ks n acc :
  0 < n →
  rangeFn ks n acc =
    (acc ++ take (Z.to_nat n) ks, Z.max 0 (n - Z.of_nat (length ks)),
     bool_decide (Z.of_nat (length ks) < n)).
Proof.
  revert n acc. induction ks as [|k ks IH]; intros n acc Hn; cbn [rangeFn].
  - rewrite take_nil, app_nil_r. simpl length.
    rewrite bool_decide_true by lia. do 2 f_equal. lia.
  - destruct (Z.gtb_spec (n - 1) 0) as [Hgt|Hle].
    + rewrite IH by lia. rewrite <-app_assoc.
      replace (Z.to_nat n) with (S (Z.to_nat (n - 1))) by lia. simpl app. cbn [length take].
      f_equal; [f_equal; lia|]. apply bool_decide_ext. lia.
    + assert (n = 1) as -> by lia. cbn [length]. simpl take.
      rewrite bool_decide_false by lia. do 2 f_equal. lia.
Qed.

Lemma keys_perm `{Shuffle} (m : gmap Peer Z) : keys m ≡ₚ elements (dom m).
Proof.
  unfold keys. apply NoDup_Permutation.
  - apply NoDup_range_keys.
  - apply NoDup_elements.
  - intros p. rewrite elem_of_elements, elem_of_dom, list_elem_of_fmap. split.
    + intros ([] & -> & Hx%elem_of_range). eauto.
    + intros [t Ht]. exists (p, t). by rewrite elem_of_range.
Qed.


(** For a positive number wanted: a prefix of the leechers' keys for a seeder,
    of the seeders' keys followed by the leechers' for a leecher. *)
Lemma announce_eq `{Shuffle} sw forSeeder n :
  0 < n →
  announce sw forSeeder n =
    take (Z.to_nat n) (if forSeeder then keys (leechers sw) else keys (seeders sw) ++ keys (leechers sw)).
Proof.
  intros Hn. unfold announce. destruct forSeeder; rewrite rangeFn_spec by done; [done|]. cbn [app].
  case_bool_decide as Hb.
  - rewrite rangeFn_spec by lia. cbn [fst]. rewrite take_app. f_equal.
    f_equal. lia.
  - rewrite take_app_le by lia. done.
Qed.

(** ** Facts: the methods *)

Lemma opened_run {A} (m : M peerStore A) ps : closed ps = false → opened m ps = m ps.
Proof. intros H. unfold opened. by rewrite H. Qed.

Ltac run_method Hinv Hih :=
  rewrite opened_run by apply Hinv;
  match goal with |- context [shardOf ?ps ?ih ?v6] =>
    destruct (shardOf_Some ps ih v6 Hinv Hih) as (sh & Hsh & Hlook & Hshinv)
  end;
  match goal with H : shardOf _ _ _ = Some _ |- _ => rewrite H end;
  cbn [mbind option_bind].

Lemma PutSeeder_run ps now ih p :
  store_inv ps → InfoHash_wf ih →
  ∃ ps', PutSeeder now ih p ps = Some (ps', None) ∧ store_inv ps' ∧
         ∀ r ih', tview_of ps' r ih' = t_update Seeder ih <[p := now]> (tview_of ps) r ih'.
Proof.
  intros Hinv Hih. unfold PutSeeder. run_method Hinv Hih.
  assert (store_inv (set_shard ps (shard_no ps ih (Peer_Is6 p)) (put_seeder now ih p sh))).
  { apply set_shard_inv; [done..|]. apply put_seeder_inv; auto using shardIndex_eq. }
  eexists. split_and!; [done..|].
  intros. apply (tview_set _ sh); auto using put_seeder_view.
Qed.

Lemma PutLeecher_run ps now ih p :
  store_inv ps → InfoHash_wf ih →
  ∃ ps', PutLeecher now ih p ps = Some (ps', None) ∧ store_inv ps' ∧
         ∀ r ih', tview_of ps' r ih' = t_update Leecher ih <[p := now]> (tview_of ps) r ih'.
Proof.
  intros Hinv Hih. unfold PutLeecher. run_method Hinv Hih.
  assert (store_inv (set_shard ps (shard_no ps ih (Peer_Is6 p)) (put_leecher now ih p sh))).
  { apply set_shard_inv; [done..|]. apply put_leecher_inv; auto using shardIndex_eq. }
  eexists. split_and!; [done..|].
  intros. apply (tview_set _ sh); auto using put_leecher_view.
Qed.

(** Without the swarm there is nothing to remove. *)
Lemma tview_no_swarm_placed ps ih p sh r0 :
  placed ps → shardOf ps ih (Peer_Is6 p) = Some (shard_no ps ih (Peer_Is6 p), sh) →
  swarms sh !! ih = None → ∀ r ih', tview_of ps r ih' = t_update r0 ih (delete p) (tview_of ps) r ih'.
Proof.
  intros Hinv Hsh Hno r ih'. unfold t_update, at_role.
  case_decide as Hd; [|done]. destruct Hd as [-> ->]. rewrite delete_id; [done|].
  rewrite lookup_tview_placed by done. unfold peers_at. rewrite Hsh. unfold shard_view, swarm_at. rewrite Hno.
  by destruct r0.
Qed.

Lemma tview_no_swarm ps ih p sh r0 :
  store_inv ps → shardOf ps ih (Peer_Is6 p) = Some (shard_no ps ih (Peer_Is6 p), sh) →
  swarms sh !! ih = None → ∀ r ih', tview_of ps r ih' = t_update r0 ih (delete p) (tview_of ps) r ih'.
Proof. intros ?%inv_placed. by apply tview_no_swarm_placed. Qed.

Lemma DeleteSeeder_run ps ih p :
  store_inv ps → InfoHash_wf ih →
  ∃ ps' e, DeleteSeeder ih p ps = Some (ps', e) ∧ benign e ∧ store_inv ps' ∧
           ∀ r ih', tview_of ps' r ih' = t_update Seeder ih (delete p) (tview_of ps) r ih'.
Proof.
  intros Hinv Hih. unfold DeleteSeeder. run_method Hinv Hih.
  destruct (swarms sh !! ih) as [sw|] eqn:E.
  - assert (sw = swarm_at sh ih) as -> by (unfold swarm_at; by rewrite E).
    assert (store_inv (set_shard ps (shard_no ps ih (Peer_Is6 p)) (del_seeder ih p (swarm_at sh ih) sh))).
    { apply set_shard_inv; [done..|]. apply del_seeder_inv; auto using shardIndex_eq. }
    do 2 eexists. split_and!; [done|by left|done|].
    intros. apply (tview_set _ sh); auto using del_seeder_view.
  - do 2 eexists. split_and!; [done|by right|done|]. by eapply tview_no_swarm.
Qed.

Lemma DeleteLeecher_run ps ih p :
  store_inv ps → InfoHash_wf ih →
  ∃ ps' e, DeleteLeecher ih p ps = Some (ps', e) ∧ benign e ∧ store_inv ps' ∧
           ∀ r ih', tview_of ps' r ih' = t_update Leecher ih (delete p) (tview_of ps) r ih'.
Proof.
  intros Hinv Hih. unfold DeleteLeecher. run_method Hinv Hih.
  destruct (swarms sh !! ih) as [sw|] eqn:E.
  - assert (sw = swarm_at sh ih) as -> by (unfold swarm_at; by rewrite E).
    assert (store_inv (set_shard ps (shard_no ps ih (Peer_Is6 p)) (del_leecher ih p (swarm_at sh ih) sh))).
    { apply set_shard_inv; [done..|]. apply del_leecher_inv; auto using shardIndex_eq. }
    do 2 eexists. split_and!; [done|by left|done|].
    intros. apply (tview_set _ sh); auto using del_leecher_view.
  - do 2 eexists. split_and!; [done|by right|done|]. by eapply tview_no_swarm.
Qed.

Lemma set_shard_set ps i sh1 sh2 : set_shard (set_shard ps i sh1) i sh2 = set_shard ps i sh2.
Proof. unfold set_shard. simpl. by rewrite list_insert_insert_eq. Qed.

Lemma shard_no_set ps i sh ih v6 : shard_no (set_shard ps i sh) ih v6 = shard_no ps ih v6.
Proof. unfold shard_no. by rewrite set_shard_half. Qed.

Lemma shardOf_set ps ih v6 sh' :
  store_inv ps → InfoHash_wf ih →
  shardOf (set_shard ps (shard_no ps ih v6) sh') ih v6 = Some (shard_no ps ih v6, sh').
Proof.
  intros Hinv Hih. unfold shardOf. rewrite set_shard_index, shardIndex_eq by auto. simpl.
  by rewrite list_lookup_insert_eq by by apply shard_no_bounds, inv_shape.
Qed.

Lemma GraduateLeecher_run ps now ih p :
  store_inv ps → InfoHash_wf ih →
  ∃ ps', GraduateLeecher now ih p ps = Some (ps', None) ∧ store_inv ps' ∧
         ∀ r ih', tview_of ps' r ih' =
           t_update Seeder ih <[p := now]> (t_update Leecher ih (delete p) (tview_of ps)) r ih'.
Proof.
  intros Hinv Hih. unfold GraduateLeecher. run_method Hinv Hih.
  destruct (getOrCreate (swarms sh) ih) as [m sw] eqn:E.
  pose proof (shardIndex_eq ps ih (Peer_Is6 p) ltac:(auto) ltac:(auto)) as Hown.
  destruct (create_inv _ _ _ ih _ _ Hshinv Hown E) as (H1 & -> & Hv1).
  set (sh1 := MkShard m _ _) in *. set (i := shard_no ps ih (Peer_Is6 p)) in *.
  pose proof (del_leecher_inv _ _ ih p _ H1 Hown) as H2.
  set (sh2 := del_leecher _ _ _ _) in *.
  assert (Hinv2 : store_inv (set_shard ps i sh2)) by by apply set_shard_inv.
  assert (Hinv3 : store_inv (set_shard (set_shard ps i sh2) i (put_seeder now ih p sh2))).
  { rewrite set_shard_set. apply set_shard_inv; [done..|].
    apply put_seeder_inv; auto using shardIndex_eq. }
  rewrite <-(set_shard_set ps i sh2). eexists. split_and!; [done..|].
  pose proof (shard_no_set ps i sh2 ih (Peer_Is6 p)) as Hi. fold i in Hi.
  intros r ih'.
  pose proof (tview_set _ sh2 (put_seeder now ih p sh2) Seeder <[p := now]> ih p r ih' Hinv2 Hih) as Hadd.
  rewrite Hi in Hadd. rewrite Hadd; [|done|exact (shardOf_set ps ih (Peer_Is6 p) sh2 Hinv Hih)|auto|].
  - apply t_update_ext. apply (tview_set _ sh); [done..|auto|].
    intros r' ih''. unfold sh2. by rewrite del_leecher_view, Hv1.
  - intros. apply put_seeder_view.
Qed.

Lemma peers_at_shard ps ih v6 i sh r :
  shardOf ps ih v6 = Some (i, sh) → peers_at ps ih v6 r = peers_of r (swarm_at sh ih).
Proof. intros H. unfold peers_at. by rewrite H. Qed.

Lemma elem_of_store_view ps r ih p :
  store_inv ps → p ∈ store_view ps r ih ↔ is_Some (peers_at ps ih (Peer_Is6 p) r !! p).
Proof. intros Hinv. unfold store_view. by rewrite elem_of_dom, lookup_tview. Qed.

Lemma of_family_view ps r ih v6 :
  store_inv ps → of_family v6 (store_view ps r ih) = dom (peers_at ps ih v6 r).
Proof.
  intros Hinv. apply set_eq. intros p. unfold of_family.
  rewrite elem_of_filter, elem_of_store_view, elem_of_dom by done. split.
  - by intros [<- ?].
  - intros [t Ht]. pose proof (peers_at_family _ _ _ _ _ _ Hinv Ht) as <-. eauto.
Qed.

Lemma AnnouncePeers_run `{Shuffle} ps ih forSeeder n v6 :
  store_inv ps → InfoHash_wf ih → 0 < n →
  ∃ ks, AnnouncePeers ih forSeeder n v6 ps = Some (ps, (take (Z.to_nat n) ks, None)) ∧
    ks ≡ₚ concat (elements <$> candidates (store_view ps) ih forSeeder v6).
Proof.
  intros Hinv Hih Hn. unfold AnnouncePeers. run_method Hinv Hih.
  unfold candidates. rewrite !of_family_view, !(peers_at_shard _ _ _ _ _ _ Hsh) by done.
  unfold swarm_at. destruct (swarms sh !! ih) as [sw|] eqn:E; simpl.
  - rewrite (proj2 (Z.ltb_ge _ _)) by (apply Z.quot_pos; lia). rewrite announce_eq by done.
    eexists. split; [done|]. destruct forSeeder; simpl; by rewrite ?app_nil_r, !keys_perm.
  - exists []. rewrite take_nil. split; [done|].
    destruct forSeeder; simpl; by rewrite !dom_empty_L, elements_empty.
Qed.

Lemma size_store_view ps r ih :
  store_inv ps →
  size (store_view ps r ih) = (size (peers_at ps ih false r) + size (peers_at ps ih true r))%nat.
Proof.
  intros Hinv. unfold store_view, tview_of.
  rewrite dom_union_L, size_union, !size_dom; [done|].
  intros p. rewrite !elem_of_dom. intros [t1 H1] [t2 H2].
  pose proof (peers_at_family _ _ _ _ _ _ Hinv H1).
  pose proof (peers_at_family _ _ _ _ _ _ Hinv H2). congruence.
Qed.

Lemma countPeers_eq ps ih v6 :
  store_inv ps → InfoHash_wf ih →
  countPeers ps ih v6 = Some (wrap 32 (Z.of_nat (size (peers_at ps ih v6 Leecher))),
                              wrap 32 (Z.of_nat (size (peers_at ps ih v6 Seeder)))).
Proof.
  intros Hinv Hih. unfold countPeers.
  destruct (shardOf_Some ps ih v6 Hinv Hih) as (sh & Hsh & _). rewrite Hsh. simpl.
  rewrite !(peers_at_shard _ _ _ _ _ _ Hsh). unfold swarm_at.
  by destruct (swarms sh !! ih).
Qed.

Lemma ScrapeSwarm_run ps ih :
  store_inv ps → InfoHash_wf ih →
  ScrapeSwarm ih ps =
    Some (ps, (wrap 32 (Z.of_nat (size (store_view ps Leecher ih))),
               wrap 32 (Z.of_nat (size (store_view ps Seeder ih))), 0, None)).
Proof.
  intros Hinv Hih. unfold ScrapeSwarm. rewrite opened_run by apply Hinv.
  rewrite !countPeers_eq by done. simpl.
  by rewrite !wrap_add_l, !wrap_add_r, !size_store_view, !Nat2Z.inj_add by done.
Qed.

(** ** Facts: garbage collection *)

Lemma purge_spec l m n :
  wrap 64 n = n →
  (∀ p, (purge l m n).1 !! p = if decide (p ∈ l) then None else m !! p) ∧
  (purge l m n).2 = wrap 64 (n + Z.of_nat (size (purge l m n).1) - Z.of_nat (size m)).
Proof.
  revert m n. induction l as [|p l IH]; intros m n Hn.
  { simpl. split; [done|]. by rewrite Z.add_simpl_r. }
  unfold purge. cbn [foldl]. destruct (m !! p) as [t|] eqn:E.
  - fold (purge l (delete p m) (add_u64 n decrUint64)).
    destruct (IH (delete p m) (add_u64 n decrUint64)) as [IH1 IH2]; [apply wrap_wrap|].
    split.
    + intros q. rewrite IH1, lookup_delete.
      repeat case_decide; set_solver.
    + rewrite IH2, (size_del _ _ _ E), wrap64_minus_one, <-Z.add_sub_assoc, wrap_add_l.
      f_equal. lia.
  - fold (purge l m n). destruct (IH m n Hn) as [IH1 IH2]. split; [|done].
    intros q. rewrite IH1. repeat case_decide; set_solver.
Qed.

Lemma elem_of_toDel `{Shuffle} cutoff (m : gmap Peer Z) p :
  p ∈ toDel cutoff m ↔ ∃ t, m !! p = Some t ∧ t <= cutoff.
Proof.
  unfold toDel. rewrite list_elem_of_fmap. split.
  - intros ([q t] & -> & Hx). apply list_elem_of_In, filter_In in Hx as [Hx Ht].
    apply list_elem_of_In, elem_of_range in Hx. exists t. split; [done|].
    by apply Z.leb_le in Ht.
  - intros (t & Ht & Hle). exists (p, t). split; [done|].
    apply list_elem_of_In, filter_In. rewrite <-list_elem_of_In, elem_of_range.
    split; [done|]. by apply Z.leb_le.
Qed.

Lemma purge_fresh `{Shuffle} cutoff (m : gmap Peer Z) n :
  wrap 64 n = n →
  purge (toDel cutoff m) m n =
    (fresh cutoff m,
     wrap 64 (n + Z.of_nat (size (fresh cutoff m)) - Z.of_nat (size m))).
Proof.
  intros Hn. destruct (purge_spec (toDel cutoff m) m n Hn) as [H1 H2].
  assert (Hm : (purge (toDel cutoff m) m n).1 = fresh cutoff m).
  { apply map_eq. intros p. rewrite H1. unfold fresh.
    rewrite map_lookup_filter. destruct (m !! p) as [t|] eqn:E; simpl.
    - destruct (decide (p ∈ toDel cutoff m)) as [Hd|Hd]; rewrite elem_of_toDel in Hd.
      + destruct Hd as (t' & Ht' & Hle). simplify_eq. by rewrite option_guard_False by lia.
      + rewrite option_guard_True; [done|]. apply Z.nle_gt. eauto.
    - by destruct (decide _). }
  destruct (purge _ _ _) as [m' n']. simpl in *. by subst.
Qed.

(** Swarms without peers: what a collection removes. *)
Definition populated (sw : swarm) : Prop := seeders sw ≠ ∅ ∨ leechers sw ≠ ∅.

Lemma both_empty (a b : gmap Peer Z) :
  (Z.lor (Z.of_nat (size a)) (Z.of_nat (size b)) =? 0) = bool_decide (a = ∅ ∧ b = ∅).
Proof.
  apply eq_bool_prop_intro. rewrite !Is_true_true, Z.eqb_eq, Z.lor_eq_0_iff, bool_decide_eq_true.
  rewrite <-!map_size_empty_iff. lia.
Qed.

Lemma shard_inv_remove v6 owns sh ih :
  shard_inv v6 owns sh → swarm_at sh ih = empty_swarm →
  shard_inv v6 owns (MkShard (delete ih (swarms sh)) (numSeeders sh) (numLeechers sh)).
Proof.
  intros [Hs Hl Hsw] He.
  assert (∀ f : swarm → nat, f empty_swarm = 0%nat →
    map_total f (delete ih (swarms sh)) = map_total f (swarms sh)) as Hf.
  { intros f Hf0. unfold swarm_at in He. destruct (swarms sh !! ih) as [sw|] eqn:E; simpl in He.
    - subst. rewrite (map_total_delete f (swarms sh) ih empty_swarm) by done. lia.
    - by rewrite delete_id. }
  split; simpl; unfold count_seeders, count_leechers in *; simpl; rewrite ?Hf by done; [done..|].
  intros ih' sw [_ ?]%lookup_delete_Some. eauto.
Qed.

Lemma gc_swarm_spec `{Shuffle} v6 owns cutoff sh ih :
  shard_inv v6 owns sh →
  shard_inv v6 owns (gc_swarm cutoff sh ih) ∧
  (∀ ih', swarms (gc_swarm cutoff sh ih) !! ih' =
    if decide (ih' = ih)
    then sw ← swarms sh !! ih;
         let sw' := MkSwarm (fresh cutoff (seeders sw)) (fresh cutoff (leechers sw)) in
         if bool_decide (sw' = empty_swarm) then None else Some sw'
    else swarms sh !! ih').
Proof.
  intros Hsh. unfold gc_swarm. destruct (swarms sh !! ih) as [sw|] eqn:E; simpl.
  2:{ split; [done|]. intros ih'. case_decide; by subst. }
  assert (Hsw : swarm_at sh ih = sw) by (unfold swarm_at; by rewrite E).
  destruct (inv_swarms _ _ _ Hsh _ _ E) as [Hown [Hok1 Hok2]].
  rewrite !purge_fresh by (rewrite ?(inv_seeders _ _ _ Hsh), ?(inv_leechers _ _ _ Hsh); apply wrap_wrap).
  set (sw' := MkSwarm (fresh cutoff (seeders sw)) (fresh cutoff (leechers sw))).
  assert (Hinv' : shard_inv v6 owns (MkShard (<[ih := sw']> (swarms sh))
    (wrap 64 (numSeeders sh + Z.of_nat (size (seeders sw')) - Z.of_nat (size (seeders sw))))
    (wrap 64 (numLeechers sh + Z.of_nat (size (leechers sw')) - Z.of_nat (size (leechers sw)))))).
  { rewrite <-Hsw. apply shard_inv_set; rewrite ?Hsw; try done.
    split; intros p t [Hp _]%map_lookup_filter_Some; eauto. }
  rewrite both_empty.
  assert (bool_decide (fresh cutoff (leechers sw) = ∅ ∧ fresh cutoff (seeders sw) = ∅) =
          bool_decide (sw' = empty_swarm)) as ->.
  { apply bool_decide_ext. unfold sw', empty_swarm. naive_solver congruence. }
  case_bool_decide as He.
  - split.
    + apply (shard_inv_remove _ _ _ ih) in Hinv'; [done|].
      unfold swarm_at. simpl. by rewrite lookup_insert_eq.
    + intros ih'. simpl. case_decide as Hd; [subst; by rewrite lookup_delete_eq|].
      by rewrite lookup_delete_ne, lookup_insert_ne.
  - split; [done|]. intros ih'. simpl. case_decide as Hd; [subst; by rewrite lookup_insert_eq|].
    by rewrite lookup_insert_ne.
Qed.

(** What a collection makes of one swarm. *)
Definition gc_result (cutoff : Z) (sw : swarm) : option swarm :=
  let sw' := MkSwarm (fresh cutoff (seeders sw)) (fresh cutoff (leechers sw)) in
  if bool_decide (sw' = empty_swarm) then None else Some sw'.

Lemma gc_swarms_spec `{Shuffle} v6 owns cutoff l sh :
  shard_inv v6 owns sh → NoDup l →
  shard_inv v6 owns (foldl (gc_swarm cutoff) sh l) ∧
  (∀ ih, swarms (foldl (gc_swarm cutoff) sh l) !! ih =
    if decide (ih ∈ l) then swarms sh !! ih ≫= gc_result cutoff else swarms sh !! ih).
Proof.
  revert sh. induction l as [|ih l IH]; intros sh Hsh Hl; [done|].
  apply list.NoDup_cons in Hl as [Hn Hl]. cbn [foldl].
  destruct (gc_swarm_spec v6 owns cutoff sh ih Hsh) as [H1 H2].
  destruct (IH _ H1 Hl) as [IH1 IH2]. split; [done|].
  intros ih'. rewrite IH2, H2.
  destruct (decide (ih' = ih)) as [->|Hne].
  - rewrite decide_False, decide_True by set_solver. done.
  - destruct (decide (ih' ∈ l)); [rewrite decide_True by set_solver|rewrite decide_False by set_solver]; done.
Qed.

Lemma gc_shard_spec `{Shuffle} v6 owns cutoff sh :
  shard_inv v6 owns sh →
  shard_inv v6 owns (gc_shard cutoff sh) ∧
  ∀ ih, swarms (gc_shard cutoff sh) !! ih = swarms sh !! ih ≫= gc_result cutoff.
Proof.
  intros Hsh. unfold gc_shard.
  destruct (gc_swarms_spec v6 owns cutoff (range (swarms sh)).*1 sh Hsh (NoDup_range_keys _)) as [H1 H2].
  split; [done|]. intros ih. rewrite H2. case_decide as Hd; [done|].
  destruct (swarms sh !! ih) as [sw|] eqn:E; [|done]. destruct Hd.
  apply list_elem_of_fmap. exists (ih, sw). by rewrite elem_of_range.
Qed.

Lemma gc_result_view cutoff (sw : option swarm) r :
  peers_of r (default empty_swarm (sw ≫= gc_result cutoff)) =
    fresh cutoff (peers_of r (default empty_swarm sw)).
Proof.
  assert (∀ r, peers_of r empty_swarm = ∅) as He by by intros [].
  destruct sw as [sw|]; simpl.
  - unfold gc_result. case_bool_decide as Hd; simpl; [|by destruct r].
    rewrite He. injection Hd as H1 H2. by destruct r.
  - rewrite He. unfold fresh. by rewrite map_filter_empty.
Qed.

Lemma gc_shardIndex `{Shuffle} cutoff ps ih v6 : shardIndex (gc cutoff ps) ih v6 = shardIndex ps ih v6.
Proof. unfold gc, shardIndex. destruct (closed ps); simpl; by rewrite ?length_fmap. Qed.

Lemma gc_half `{Shuffle} cutoff ps : half (gc cutoff ps) = half ps.
Proof. unfold gc, half. destruct (closed ps); simpl; by rewrite ?length_fmap. Qed.

Lemma gc_inv `{Shuffle} cutoff ps : store_inv ps → store_inv (gc cutoff ps).
Proof.
  intros Hinv. pose proof Hinv as [Hc He Hp Hb Hs].
  split; rewrite ?gc_half; unfold gc; rewrite ?Hc; simpl; rewrite ?length_fmap; try done.
  intros i sh'. rewrite list_lookup_fmap. destruct (shards ps !! i) as [sh|] eqn:E; [|done].
  intros [= <-]. cbv zeta. eapply shard_inv_owns; [|apply gc_shard_spec, (Hs _ _ E)].
  intros ih0 H0. cbv beta in *. rewrite <-H0. unfold shardIndex. simpl. by rewrite length_fmap.
Qed.

Lemma gc_peers_at `{Shuffle} cutoff ps ih v6 r :
  store_inv ps → peers_at (gc cutoff ps) ih v6 r = fresh cutoff (peers_at ps ih v6 r).
Proof.
  intros Hinv. unfold peers_at, shardOf. rewrite gc_shardIndex.
  destruct (shardIndex ps ih v6) as [i|]; simpl; [|unfold fresh; by rewrite map_filter_empty].
  unfold gc. rewrite (inv_open _ Hinv). simpl. rewrite list_lookup_fmap.
  destruct (shards ps !! i) as [sh|] eqn:E; simpl; [|unfold fresh; by rewrite map_filter_empty].
  unfold shard_view, swarm_at.
  rewrite (proj2 (gc_shard_spec _ _ cutoff sh (inv_shards _ Hinv _ _ E))). apply gc_result_view.
Qed.

(** ** Facts: reachable stores *)

Lemma gc_tview `{Shuffle} cutoff ps r ih :
  store_inv ps → tview_of (gc cutoff ps) r ih = fresh cutoff (tview_of ps r ih).
Proof.
  intros Hinv. apply map_eq. intros p. unfold fresh. rewrite map_lookup_filter.
  rewrite !lookup_tview by auto using gc_inv. rewrite gc_peers_at by done.
  unfold fresh. by rewrite map_lookup_filter.
Qed.

Lemma run_op_spec o ps :
  store_inv ps → op_wf o →
  ∃ ps', run_op o ps = Some ps' ∧ store_inv ps' ∧
         ∀ r ih, tview_of ps' r ih = spec_op o (tview_of ps) r ih.
Proof.
  intros Hinv Hwf. destruct o as [now ih p|ih p|now ih p|ih p|now ih p|σ cutoff]; simpl in *.
  - destruct (PutSeeder_run ps now ih p Hinv Hwf) as (ps' & -> & ? & ?). eauto.
  - destruct (DeleteSeeder_run ps ih p Hinv Hwf) as (ps' & e & -> & ? & ? & ?). eauto.
  - destruct (PutLeecher_run ps now ih p Hinv Hwf) as (ps' & -> & ? & ?). eauto.
  - destruct (DeleteLeecher_run ps ih p Hinv Hwf) as (ps' & e & -> & ? & ? & ?). eauto.
  - destruct (GraduateLeecher_run ps now ih p Hinv Hwf) as (ps' & -> & ? & ?). eauto.
  - eexists. split_and!; [done|by apply gc_inv|]. intros. by apply gc_tview.
Qed.

Lemma spec_op_ext o (v w : tview) :
  (∀ r ih, v r ih = w r ih) → ∀ r ih, spec_op o v r ih = spec_op o w r ih.
Proof.
  intros H r ih. destruct o; simpl; repeat apply t_update_ext; auto. by rewrite H.
Qed.

Lemma spec_ops_ext os (v w : tview) :
  (∀ r ih, v r ih = w r ih) → ∀ r ih, spec_ops os v r ih = spec_ops os w r ih.
Proof.
  unfold spec_ops. revert v w. induction os as [|o os IH]; intros v w H; simpl; [done|].
  apply IH. by apply spec_op_ext.
Qed.

Lemma run_ops_spec os ps :
  store_inv ps → Forall op_wf os →
  ∃ ps', run_ops os ps = Some ps' ∧ store_inv ps' ∧
         ∀ r ih, tview_of ps' r ih = spec_ops os (tview_of ps) r ih.
Proof.
  revert ps. induction os as [|o os IH]; intros ps Hinv Hwf; [by exists ps|].
  apply Forall_cons_1 in Hwf as [Ho Hos]. simpl.
  destruct (run_op_spec o ps Hinv Ho) as (ps1 & -> & Hinv1 & Hv1). simpl.
  destruct (IH ps1 Hinv1 Hos) as (ps2 & -> & Hinv2 & Hv2).
  exists ps2. split_and!; [done..|]. intros r ih. rewrite Hv2.
  change (spec_ops os (tview_of ps1) r ih = spec_ops os (spec_op o (tview_of ps)) r ih).
  by apply spec_ops_ext.
Qed.

Lemma empty_shard_inv v6 owns : shard_inv v6 owns empty_shard.
Proof. split; [done..|]. intros ih sw. simpl. by rewrite lookup_empty. Qed.

(** The shard counts for which [shardIndex] is safe. *)
Definition count_ok (ShardCount : Z) : Prop := 2 * Validate ShardCount < 2 ^ 32.

Lemma Validate_pos n : 0 < Validate n.
Proof. unfold Validate, defaultShardCount. destruct (Z.leb_spec n 0); simpl; [lia|]. case_match; lia. Qed.

Lemma new_inv n : count_ok n → store_inv (NewPeerStorage n).
Proof.
  intros Hn. pose proof (Validate_pos n). unfold count_ok in Hn.
  assert (length (shards (NewPeerStorage n)) = (2 * Z.to_nat (Validate n))%nat) as Hl.
  { unfold NewPeerStorage. simpl shards. rewrite length_replicate. lia. }
  assert (half (NewPeerStorage n) = Z.to_nat (Validate n)) as Hh.
  { unfold half. rewrite Hl, Nat.mul_comm. by apply Nat.div_mul. }
  split; rewrite ?Hh, ?Hl; [done|done|lia|lia|].
  intros i sh [-> _]%lookup_replicate. apply empty_shard_inv.
Qed.

Lemma new_tview n r ih : tview_of (NewPeerStorage n) r ih = ∅.
Proof.
  unfold tview_of, peers_at, shardOf.
  assert (∀ v6, match (i ← shardIndex (NewPeerStorage n) ih v6;
      sh ← shards (NewPeerStorage n) !! i; Some (i, sh)) with
    | Some (_, sh) => shard_view sh r ih | None => ∅ end = ∅) as H.
  { intros v6. destruct (shardIndex _ _ _) as [i|]; [|done]. simpl.
    destruct (replicate _ _ !! i) as [sh|] eqn:E; [|done].
    apply lookup_replicate in E as [-> _]. by destruct r. }
  by rewrite !H, map_union_empty.
Qed.

(** The store keeps the promises of [StorageSpec]. *)
#[export, refine] Instance memory_StorageSpec : StorageSpec world := {|
  st_inv _ w := store_inv (w_store w);
  st_view w := store_view (w_store w);
  st_peer _ := True;
|}.
Proof.
  - done.
  - intros _ w ih p Hi Hih _. simpl. unfold timed.
    destruct (PutSeeder_run _ (tk_now (w_ticks w (w_pos w))) ih p Hi Hih) as (ps' & -> & ? & ?).
    simpl. eexists. split_and!; [done..|]. by eapply store_view_insert.
  - intros _ w ih p Hi Hih _. simpl. unfold timed.
    destruct (DeleteSeeder_run _ ih p Hi Hih) as (ps' & e & -> & ? & ? & ?).
    simpl. do 2 eexists. split_and!; [done..|]. by apply store_view_delete.
  - intros _ w ih p Hi Hih _. simpl. unfold timed.
    destruct (PutLeecher_run _ (tk_now (w_ticks w (w_pos w))) ih p Hi Hih) as (ps' & -> & ? & ?).
    simpl. eexists. split_and!; [done..|]. by eapply store_view_insert.
  - intros _ w ih p Hi Hih _. simpl. unfold timed.
    destruct (DeleteLeecher_run _ ih p Hi Hih) as (ps' & e & -> & ? & ? & ?).
    simpl. do 2 eexists. split_and!; [done..|]. by apply store_view_delete.
  - intros _ w ih p Hi Hih _. simpl. unfold timed.
    destruct (GraduateLeecher_run _ (tk_now (w_ticks w (w_pos w))) ih p Hi Hih) as (ps' & -> & ? & H).
    simpl. eexists. split_and!; [done..|]. intros r ih'. unfold store_view at 1. rewrite H.
    unfold t_update, at_role, view_add, view_remove, view_update, store_view.
    repeat case_decide; by rewrite ?dom_insert_L, ?dom_delete_L.
  - intros _ w ih fs n v6 Hi Hih Hn. simpl. unfold timed.
    destruct (@AnnouncePeers_run (tk_order (w_ticks w (w_pos w))) (w_store w) ih fs n v6 Hi Hih Hn)
      as (ks & -> & Hks).
    assert (∀ p, p ∈ ks ↔ p ∈ ⋃ candidates (store_view (w_store w)) ih fs v6) as Hin.
    { intros p. rewrite Hks. unfold candidates. destruct fs; simpl; rewrite ?app_nil_r; set_solver. }
    assert (length ks = available (store_view (w_store w)) ih fs v6) as Hlen.
    { rewrite Hks. unfold available, candidates.
      destruct fs; simpl; rewrite ?length_app; unfold size, set_size; simpl; lia. }
    simpl. do 3 eexists. split_and!; [done|by left|done|done| | |].
    + apply Forall_take, list.Forall_forall. intros p. apply Hin.
    + rewrite length_take, Hlen. lia.
    + intros Hle p Hp. rewrite take_ge by lia. by apply Hin.
  - intros _ w ih Hi Hih. simpl. unfold timed. rewrite (ScrapeSwarm_run _ ih Hi Hih). simpl. eauto.
Defined.

(** ** Properties *)

(** C1: the sharded store refines the abstract swarms: from a new store, any
    sequence of puts, deletes, graduations and collections runs without a
    panic, keeps the invariant, and leaves exactly the swarms (with their times)
    that the specification computes.  The number of shards, the iteration
    orders and the split by address family never show. *)
Theorem memory_refinement (ShardCount : Z) (os : list op) :
  count_ok ShardCount → Forall op_wf os →
  ∃ ps, run_ops os (NewPeerStorage ShardCount) = Some ps ∧ store_inv ps ∧
        ∀ r ih, tview_of ps r ih = spec_ops os (λ _ _, ∅) r ih.
Proof.
  intros Hn Hos. destruct (run_ops_spec os _ (new_inv _ Hn) Hos) as (ps & Hr & Hi & Hv).
  exists ps. split_and!; [done..|]. intros r ih. rewrite Hv.
  apply spec_ops_ext. intros. apply new_tview.
Qed.

Definition ih1 : InfoHash := replicate 20 xaa.
Definition peer4 : Peer := MkPeer (replicate 20 x01) (Addr4 0x01020304) 6881.
Definition peer6 : Peer := MkPeer (replicate 20 x02) (Addr6 (2 ^ 125) []) 6882.
Definition ops1 : list op :=
  [OpPutLeecher 10 ih1 peer4; OpPutSeeder 20 ih1 peer6; OpGraduateLeecher 30 ih1 peer4; OpGC shuffle_rev 25].

Lemma memory_refinement_witness :
  ∃ ps, run_ops ops1 (NewPeerStorage 2) = Some ps ∧ store_inv ps ∧
        tview_of ps Seeder ih1 = {[ peer4 := 30 ]} ∧ tview_of ps Leecher ih1 = ∅.
Proof.
  destruct (memory_refinement 2 ops1) as (ps & Hr & Hi & Hv).
  - vm_compute. reflexivity.
  - repeat constructor.
  - exists ps. split; [exact Hr|]. split; [exact Hi|].
    rewrite !Hv. split; apply (bool_decide_eq_true_1 _); vm_cast_no_check (eq_refl true).
Defined.

(** C27: the statistics a store reports are exact on every reachable state: the
    counters that the methods keep by increments and decrements are the numbers
    of seeders and leechers stored, and the info-hash count that of the swarms
    (as 64-bit integers). *)
Theorem statistics_exact (ShardCount : Z) (os : list op) (ps : peerStore) :
  count_ok ShardCount → Forall op_wf os →
  run_ops os (NewPeerStorage ShardCount) = Some ps →
  statistics ps =
    (wrap 64 (Z.of_nat (sum_list ((λ sh, size (swarms sh)) <$> shards ps))),
     wrap 64 (Z.of_nat (sum_list (count_seeders <$> shards ps))),
     wrap 64 (Z.of_nat (sum_list (count_leechers <$> shards ps)))).
Proof.
  intros Hn Hos Hr. destruct (run_ops_spec os _ (new_inv _ Hn) Hos) as (ps' & Hr' & Hi & _).
  simplify_eq. unfold statistics.
  assert (∀ l a b c,
    (∀ i sh, l !! i = Some sh → numSeeders sh = wrap 64 (Z.of_nat (count_seeders sh)) ∧
       numLeechers sh = wrap 64 (Z.of_nat (count_leechers sh))) →
    foldl (λ '(ih, s, l) sh,
      (add_u64 ih (Z.of_nat (size (swarms sh))), add_u64 s (numSeeders sh), add_u64 l (numLeechers sh)))
      (wrap 64 a, wrap 64 b, wrap 64 c) l =
    (wrap 64 (a + Z.of_nat (sum_list ((λ sh, size (swarms sh)) <$> l))),
     wrap 64 (b + Z.of_nat (sum_list (count_seeders <$> l))),
     wrap 64 (c + Z.of_nat (sum_list (count_leechers <$> l))))) as H.
  { induction l as [|sh l IH]; intros a b c Hl; simpl; [by rewrite !Z.add_0_r|].
    destruct (Hl 0%nat sh eq_refl) as [-> ->]. unfold add_u64.
    rewrite !wrap_add_r, !wrap_add_l, IH by (intros i; apply (Hl (S i))).
    f_equal; [f_equal|]; f_equal; by rewrite Nat2Z.inj_add, Z.add_assoc. }
  specialize (H (shards ps) 0 0 0). rewrite !Z.add_0_l in H. apply H.
  intros i sh Hsh. pose proof (inv_shards _ Hi _ _ Hsh) as []. done.
Qed.

Lemma statistics_exact_witness :
  ∃ ps, run_ops ops1 (NewPeerStorage 2) = Some ps ∧ statistics ps = (1, 1, 0) ∧
        wrap 64 (Z.of_nat (sum_list (count_seeders <$> shards ps))) = 1.
Proof.
  assert (statistics <$> run_ops ops1 (NewPeerStorage 2) = Some (1, 1, 0)) as H
    by (apply (bool_decide_eq_true_1 _); vm_cast_no_check (eq_refl true)).
  apply fmap_Some in H as (ps & E & H). exists ps.
  assert (count_ok 2) as Hn by (vm_compute; reflexivity).
  assert (Forall op_wf ops1) as Hos by repeat constructor.
  pose proof (statistics_exact 2 ops1 ps Hn Hos E) as H'. rewrite <-H in H'.
  split; [exact E|]. split; [done|]. by injection H' as _ <- _.
Defined.


Definition swarms_populated (ps : peerStore) : Prop :=
  ∀ i sh ih sw, shards ps !! i = Some sh → swarms sh !! ih = Some sw → populated sw.

Definition all_fresh (cutoff : Z) (ps : peerStore) : Prop :=
  ∀ i sh ih sw r p t, shards ps !! i = Some sh → swarms sh !! ih = Some sw →
    peers_of r sw !! p = Some t → cutoff < t.

Lemma gc_result_populated cutoff sw sw' : gc_result cutoff sw = Some sw' → populated sw'.
Proof.
  unfold gc_result. case_bool_decide as Hd; [done|]. intros [= <-]. unfold populated. simpl.
  destruct (decide (fresh cutoff (seeders sw) = ∅)) as [E1|]; [right|by left].
  intros E2. apply Hd. by rewrite E1, E2.
Qed.

Lemma gc_result_fresh cutoff sw sw' r p t :
  gc_result cutoff sw = Some sw' → peers_of r sw' !! p = Some t → cutoff < t.
Proof.
  unfold gc_result. case_bool_decide; [done|]. intros [= <-].
  by destruct r; intros [_ ?]%map_lookup_filter_Some.
Qed.

(** C26: a collection frees memory completely: on a reachable store, whatever the
    orders in which the maps are ranged over while entries are deleted from
    them, no peer that announced at or before the cutoff stays in any swarm,
    every younger one stays with its time, and no empty swarm is left in a shard. *)
Theorem gc_complete (σ : Shuffle) (cutoff : Z) (ps : peerStore) :
  store_inv ps →
  all_fresh cutoff (gc cutoff ps) ∧ swarms_populated (gc cutoff ps) ∧
  ∀ r ih p t, tview_of ps r ih !! p = Some t → cutoff < t →
              tview_of (gc cutoff ps) r ih !! p = Some t.
Proof.
  intros Hinv.
  assert (∀ i sh ih sw, shards (gc cutoff ps) !! i = Some sh → swarms sh !! ih = Some sw →
    ∃ sw0, gc_result cutoff sw0 = Some sw) as Hgc.
  { intros i sh ih sw. unfold gc. rewrite (inv_open _ Hinv). simpl. rewrite list_lookup_fmap_Some.
    intros (sh0 & -> & Hi). rewrite (proj2 (gc_shard_spec _ _ cutoff sh0 (inv_shards _ Hinv _ _ Hi))).
    intros (sw0 & _ & H)%bind_Some. eauto. }
  split_and!.
  - intros i sh ih sw r p t Hi Hsw. destruct (Hgc _ _ _ _ Hi Hsw) as [sw0 H]. by eapply gc_result_fresh.
  - intros i sh ih sw Hi Hsw. destruct (Hgc _ _ _ _ Hi Hsw) as [sw0 H]. by eapply gc_result_populated.
  - intros r ih p t Ht Hlt. rewrite gc_tview by done. by apply map_lookup_filter_Some.
Qed.

Lemma gc_complete_witness :
  ∃ ps, run_ops ops1 (NewPeerStorage 2) = Some ps ∧ all_fresh 25 (@gc shuffle_rev 25 ps) ∧
        swarms_populated (@gc shuffle_rev 25 ps).
Proof.
  assert (count_ok 2) as Hn by (vm_compute; reflexivity).
  assert (Forall op_wf ops1) as Hos by repeat constructor.
  destruct (run_ops_spec ops1 _ (new_inv _ Hn) Hos) as (ps & Hr & Hi & _).
  destruct (gc_complete shuffle_rev 25 ps Hi) as (H1 & H2 & _).
  exact (ex_intro _ ps (conj Hr (conj H1 H2))).
Defined.

(** The answers of the two deletes: on a reachable store the call always
    returns; the error is [ErrResourceDoesNotExist] exactly when the shard has
    no swarm for the info hash, and a peer missing from an existing swarm is no
    error. *)
Theorem delete_errors (ps : peerStore) (ih : InfoHash) (p : Peer) :
  store_inv ps → InfoHash_wf ih →
  let missing := if shardOf ps ih (Peer_Is6 p) is Some (_, sh) then swarms sh !! ih = None else True in
  ∃ ps1 e1 ps2 e2, DeleteSeeder ih p ps = Some (ps1, e1) ∧ DeleteLeecher ih p ps = Some (ps2, e2) ∧
    e1 = e2 ∧ (e1 = Some ErrResourceDoesNotExist ↔ missing) ∧ (e1 = None ↔ ¬ missing).
Proof.
  intros Hinv Hih. cbv zeta. unfold DeleteSeeder, DeleteLeecher. rewrite !opened_run by apply Hinv.
  destruct (shardOf_Some ps ih (Peer_Is6 p)) as (sh & Hsh & _); [auto..|].
  rewrite Hsh. simpl. destruct (swarms sh !! ih); do 4 eexists; (split; [done|]);
    (split; [done|]); (split; [done|]); split; split; first [done|congruence].
Qed.

Lemma delete_errors_witness :
  ∃ ps ps1 ps2 e2, run_ops [OpPutSeeder 20 ih1 peer6] (NewPeerStorage 2) = Some ps ∧
    DeleteSeeder ih1 peer4 ps = Some (ps1, Some ErrResourceDoesNotExist) ∧ DeleteLeecher ih1 peer4 ps = Some (ps2, e2).
Proof.
  assert (count_ok 2) as Hn by (vm_compute; reflexivity).
  assert (Forall op_wf [OpPutSeeder 20 ih1 peer6]) as Hos by repeat constructor.
  destruct (run_ops_spec [OpPutSeeder 20 ih1 peer6] _ (new_inv _ Hn) Hos) as (ps & Hr & Hi & _).
  assert (InfoHash_wf ih1) as Hih by (vm_compute; repeat constructor).
  assert ((λ ps, if shardOf ps ih1 (Peer_Is6 peer4) is Some (_, sh) then bool_decide (swarms sh !! ih1 = None)
                 else true) <$> run_ops [OpPutSeeder 20 ih1 peer6] (NewPeerStorage 2) = Some true) as Hb
    by (apply (bool_decide_eq_true_1 _); vm_cast_no_check (eq_refl true)).
  rewrite Hr in Hb. injection Hb as Hb.
  destruct (delete_errors ps ih1 peer4 Hi Hih) as (ps1 & e1 & ps2 & e2 & H1 & H2 & _ & He & _).
  exists ps, ps1, ps2, e2. split; [done|]. split; [|done]. rewrite H1. repeat f_equal. apply He.
  destruct (shardOf ps ih1 (Peer_Is6 peer4)) as [[i sh]|]; [by apply bool_decide_eq_true in Hb|done].
Defined.

Lemma gc_step_runs g g' : gc_step g g' →
  (gl_runs g + (if gl_armed g then 1 else 0) <= 1)%nat →
  (gl_runs g' + (if gl_armed g' then 1 else 0) <= 1)%nat.
Proof. destruct 1 as [σ now lt runs ps|[] runs ps|[] rn runs ps ps']; simpl; lia. Qed.

(** The collector of [ScheduleGC] collects at most once in the life of the
    store, whatever the other goroutines do: its timer is never armed again. *)
Theorem gc_runs_once (ps : peerStore) (g : gcLoop) :
  rtc gc_step (ScheduleGC ps) g → (gl_runs g ≤ 1)%nat.
Proof.
  intros H. cut (gl_runs g + (if gl_armed g then 1 else 0) <= 1)%nat; [destruct (gl_armed g); lia|].
  assert (gl_runs (ScheduleGC ps) + (if gl_armed (ScheduleGC ps) then 1 else 0) <= 1)%nat as H0
    by (simpl; lia).
  revert H0. induction H as [|x y z Hxy _ IH]; [done|]. intros Hx. apply IH. by eapply gc_step_runs.
Qed.

Lemma gc_runs_once_witness :
  rtc gc_step (ScheduleGC (NewPeerStorage 1)) (MkGcLoop false true 1 (@gc shuffle_id (100 - 30) (NewPeerStorage 1)))
  ∧ (1 ≤ 1)%nat.
Proof.
  assert (rtc gc_step (ScheduleGC (NewPeerStorage 1))
    (MkGcLoop false true 1 (@gc shuffle_id (100 - 30) (NewPeerStorage 1)))) as H
    by (eapply rtc_l; [apply (@gc_tick shuffle_id)|apply rtc_refl]).
  split; [exact H|]. exact (gc_runs_once _ _ H).
Defined.

(** [Validate] accepts a shard count of 2{^31}, for which the number of
    shards no longer fits the [uint32] that [shardIndex] divides by: every
    call that looks up a swarm then panics. *)
Theorem huge_shard_count_panics (now : Z) (ih : InfoHash) (p : Peer) :
  Validate (2 ^ 31) = 2 ^ 31 ∧
  PutSeeder now ih p (NewPeerStorage (2 ^ 31)) = None ∧
  ScrapeSwarm ih (NewPeerStorage (2 ^ 31)) = None.
Proof.
  assert (∀ v6, shardOf (NewPeerStorage (2 ^ 31)) ih v6 = None) as H.
  { intros v6. unfold shardOf, shardIndex.
    assert (Z.of_nat (length (shards (NewPeerStorage (2 ^ 31)))) = 2 ^ 32) as ->.
    { unfold NewPeerStorage. cbn [shards]. by rewrite length_replicate, Z2Nat.id by done. }
    by destruct (slice ih 0 4). }
  split; [done|]. unfold PutSeeder, ScrapeSwarm, countPeers, opened.
  cbn [closed NewPeerStorage]. by rewrite !H.
Qed.


End MemStore.
