(* ===== verification/MemoryConc.v ===== *)
(** * Package [storage/memory] under concurrency

    The methods of the in-memory store as goroutines run them
    (src/storage/memory/storage.go): one step per critical section of a
    [sync.RWMutex] and per atomic access, over swarms that are shared by pointer.
    Alone, each method is the one of [Memory]; interleaved, the writes still
    leave what an order of their effects leaves; the collector does not fit in. *)

From S2P Require Import Prelude GoStd Netip Bittorrent Storage Memory Threads.

Local Open Scope Z_scope.

Module MemConc.
Import MemStore.

(** ** State *)

(** The pointers of a [swarm]'s two peer maps: a swarm that is dropped from the
    map of its shard lives on for those that hold it. *)
Definition ref := nat.

(** [peerShard], its [ihSwarm] and the heap of swarms made for it. *)
Record cshard := MkCShard {
  c_swarms : gmap InfoHash ref;
  c_heap : gmap ref swarm;
  c_numSeeders : Z;
  c_numLeechers : Z;
}.

Record cstore := MkCStore { c_shards : list cshard; c_closed : bool }.

Definition deref (sh : cshard) (l : ref) : swarm := default empty_swarm (c_heap sh !! l).

(** The store as the sequential model sees it. *)
Definition abs_shard (sh : cshard) : peerShard :=
  MkShard (deref sh <$> c_swarms sh) (c_numSeeders sh) (c_numLeechers sh).
Definition abs (s : cstore) : peerStore := MkStore (abs_shard <$> c_shards s) (c_closed s).

Definition empty_cshard : cshard := MkCShard ∅ ∅ 0 0.
Definition NewStore (ShardCount : Z) : cstore :=
  MkCStore (replicate (Z.to_nat (Validate ShardCount * 2)) empty_cshard) false.

(** ** Critical sections

    A shard is named by its number, as the code holds it by pointer. *)

Definition set_cshard (s : cstore) (i : nat) (sh : cshard) : cstore :=
  MkCStore (<[i := sh]> (c_shards s)) (c_closed s).

Definition on_shard {B} (i : nat) (f : cshard → cshard * B) (s : cstore) : cstore * B :=
  match c_shards s !! i with
  | Some sh => (set_cshard s i (f sh).1, (f sh).2)
  | None => (s, (f empty_cshard).2)
  end.

Definition act {B} (i : nat) (f : cshard → cshard * B) : prog cstore B := atomically (on_shard i f).
Definition look {B} (i : nat) (f : cshard → B) : prog cstore B := act i (λ sh, (sh, f sh)).

(** [ihSwarm]: [get], [getOrCreate], [del], [len], [keys]. *)
Definition sw_get (i : nat) (k : InfoHash) : prog cstore (option ref) := look i (λ sh, c_swarms sh !! k).

(** The section of [getOrCreate] under the writer's lock. *)
Definition create (k : InfoHash) (sh : cshard) : cshard * ref :=
  match c_swarms sh !! k with
  | Some v => (sh, v)
  | None =>
      let v := base.fresh (dom (c_heap sh) : gset ref) in
      (MkCShard (<[k := v]> (c_swarms sh)) (<[v := empty_swarm]> (c_heap sh)) (c_numSeeders sh) (c_numLeechers sh), v)
  end.

Definition getOrCreate (i : nat) (k : InfoHash) : prog cstore ref :=
  v ← sw_get i k;
  match v with
  | Some v => mret v
  | None => act i (create k)
  end.

Definition remove_swarm (k : InfoHash) (sh : cshard) : cshard * bool :=
  match c_swarms sh !! k with
  | Some _ => (MkCShard (delete k (c_swarms sh)) (c_heap sh) (c_numSeeders sh) (c_numLeechers sh), true)
  | None => (sh, false)
  end.
Definition sw_del (i : nat) (k : InfoHash) : prog cstore bool := act i (remove_swarm k).

Definition sw_len (i : nat) : prog cstore Z := look i (λ sh, Z.of_nat (size (c_swarms sh))).

Definition sw_keys `{Shuffle} (i : nat) : prog cstore (list InfoHash) :=
  look i (λ sh, (range (swarms (abs_shard sh))).*1).

(** [peers]: [get], [set], [del], [len], [keys], [forEach], of the map of role [r]
    of the swarm at [l]. *)
Definition with_peers (r : role) (f : gmap Peer Z → gmap Peer Z) (sw : swarm) : swarm :=
  match r with
  | Seeder => MkSwarm (f (seeders sw)) (leechers sw)
  | Leecher => MkSwarm (seeders sw) (f (leechers sw))
  end.

Definition update (r : role) (l : ref) (f : gmap Peer Z → gmap Peer Z) (sh : cshard) : cshard :=
  MkCShard (c_swarms sh) (<[l := with_peers r f (deref sh l)]> (c_heap sh)) (c_numSeeders sh) (c_numLeechers sh).

Definition p_get (r : role) (i : nat) (l : ref) (k : Peer) : prog cstore (option Z) :=
  look i (λ sh, peers_of r (deref sh l) !! k).

Definition p_set (r : role) (i : nat) (l : ref) (k : Peer) (v : Z) : prog cstore () :=
  act i (λ sh, (update r l <[k := v]> sh, tt)).

Definition remove_peer (r : role) (l : ref) (k : Peer) (sh : cshard) : cshard * bool :=
  match peers_of r (deref sh l) !! k with
  | Some _ => (update r l (delete k) sh, true)
  | None => (sh, false)
  end.
Definition p_del (r : role) (i : nat) (l : ref) (k : Peer) : prog cstore bool := act i (remove_peer r l k).

Definition p_len (r : role) (i : nat) (l : ref) : prog cstore Z :=
  look i (λ sh, Z.of_nat (size (peers_of r (deref sh l)))).

(** [keys] and [forEach] run their callback under the reader's lock: one look at
    the map, in the order of this run. *)
Definition p_keys `{Shuffle} (r : role) (i : nat) (l : ref) : prog cstore (list Peer) :=
  look i (λ sh, keys (peers_of r (deref sh l))).

Definition p_forEach `{Shuffle} (r : role) (i : nat) (l : ref) : prog cstore (list (Peer * Z)) :=
  look i (λ sh, range (peers_of r (deref sh l))).

(** [numSeeders.Add], [numLeechers.Add]. *)
Definition count (r : role) (d : Z) (sh : cshard) : cshard :=
  match r with
  | Seeder => MkCShard (c_swarms sh) (c_heap sh) (add_u64 (c_numSeeders sh) d) (c_numLeechers sh)
  | Leecher => MkCShard (c_swarms sh) (c_heap sh) (c_numSeeders sh) (add_u64 (c_numLeechers sh) d)
  end.
Definition Add (r : role) (i : nat) (d : Z) : prog cstore () := act i (λ sh, (count r d sh, tt)).

(** ** The methods *)

Definition opened {A} (m : prog cstore A) : prog cstore A :=
  c ← reads c_closed;
  if (c : bool) then Panic else m.

(** [ps.shards[ps.shardIndex(ih, v6)]]: the slice of shards never changes. *)
Definition shard_of (ih : InfoHash) (v6 : bool) : prog cstore nat :=
  o ← reads (λ s, option_map fst (shardOf (abs s) ih v6));
  match (o : option nat) with
  | Some i => mret i
  | None => Panic
  end.

(** The peer is counted unless it was there, then stored. *)
Definition put_in (r : role) (i : nat) (sw : ref) (p : Peer) (now : Z) : prog cstore () :=
  exists_ ← p_get r i sw p;
  (if exists_ is Some _ then mret tt else Add r i 1);;
  p_set r i sw p now.

Definition del_in (r : role) (i : nat) (sw : ref) (p : Peer) : prog cstore () :=
  deleted ← p_del r i sw p;
  if (deleted : bool) then Add r i decrUint64 else mret tt.

Definition put (r : role) (now : Z) (ih : InfoHash) (p : Peer) : prog cstore error :=
  opened (
    sh ← shard_of ih (Peer_Is6 p);
    sw ← getOrCreate sh ih;
    put_in r sh sw p now;;
    mret None).

Definition del (r : role) (ih : InfoHash) (p : Peer) : prog cstore error :=
  opened (
    sh ← shard_of ih (Peer_Is6 p);
    sw ← sw_get sh ih;
    match sw with
    | Some sw => del_in r sh sw p;; mret None
    | None => mret (Some ErrResourceDoesNotExist)
    end).

Definition PutSeeder := put Seeder.
Definition PutLeecher := put Leecher.
Definition DeleteSeeder := del Seeder.
Definition DeleteLeecher := del Leecher.

Definition GraduateLeecher (now : Z) (ih : InfoHash) (p : Peer) : prog cstore error :=
  opened (
    sh ← shard_of ih (Peer_Is6 p);
    sw ← getOrCreate sh ih;
    del_in Leecher sh sw p;;
    put_in Seeder sh sw p now;;
    mret None).

(** The keys are read role by role, each under its own lock. *)
Definition AnnouncePeers `{Shuffle} (ih : InfoHash) (forSeeder : bool) (numWant : Z) (v6 : bool)
    : prog cstore (list Peer * error) :=
  opened (
    sh ← shard_of ih v6;
    sw ← sw_get sh ih;
    match sw with
    | Some sw =>
        if Z.quot numWant 2 <? 0 then Panic
        else if forSeeder then
          ks ← p_keys Leecher sh sw;
          mret ((rangeFn ks numWant []).1.1, None)
        else
          ks ← p_keys Seeder sh sw;
          let '(peers, numWant, more) := rangeFn ks numWant [] in
          if (more : bool) then
            ks ← p_keys Leecher sh sw;
            mret ((rangeFn ks numWant peers).1.1, None)
          else mret (peers, None)
    | None => mret ([], None)
    end).

Definition countPeers (ih : InfoHash) (v6 : bool) : prog cstore (Z * Z) :=
  sh ← shard_of ih v6;
  sw ← sw_get sh ih;
  match sw with
  | Some sw =>
      l ← p_len Leecher sh sw;
      s ← p_len Seeder sh sw;
      mret (wrap 32 l, wrap 32 s)
  | None => mret (0, 0)
  end.

Definition ScrapeSwarm (ih : InfoHash) : prog cstore (Z * Z * Z * error) :=
  opened (
    a ← countPeers ih false;
    b ← countPeers ih true;
    mret (wrap 32 (a.1 + b.1), wrap 32 (a.2 + b.2), 0, None)).

(** [gc]: the stale peers of a map are listed under the reader's lock and removed
    one by one; what was found empty is then dropped. *)
Definition purge_role `{Shuffle} (r : role) (cutoff : Z) (i : nat) (sw : ref) : prog cstore () :=
  entries ← p_forEach r i sw;
  for_each (List.filter (stale cutoff) entries).*1 (del_in r i sw).

Definition gc_swarm `{Shuffle} (cutoff : Z) (i : nat) (ih : InfoHash) : prog cstore () :=
  sw ← sw_get i ih;
  match sw with
  | None => mret tt
  | Some sw =>
      purge_role Leecher cutoff i sw;;
      purge_role Seeder cutoff i sw;;
      l ← p_len Leecher i sw;
      s ← p_len Seeder i sw;
      if Z.lor l s =? 0 then sw_del i ih;; mret tt else mret tt
  end.

Definition gc_shard `{Shuffle} (cutoff : Z) (i : nat) : prog cstore () :=
  infoHashes ← sw_keys i;
  for_each infoHashes (gc_swarm cutoff i).

Definition gc `{Shuffle} (cutoff : Z) : prog cstore () :=
  c ← reads c_closed;
  if (c : bool) then mret tt
  else
    n ← reads (λ s, length (c_shards s));
    for_each (seq 0 n) (gc_shard cutoff).

(** ** Calls *)

Inductive call :=
  | Write (o : op)
  | Announce (σ : Shuffle) (ih : InfoHash) (forSeeder : bool) (numWant : Z) (v6 : bool)
  | Scrape (ih : InfoHash).

Inductive answer :=
  | Wrote (e : error)
  | Collected
  | Announced (r : list Peer * error)
  | Scraped (r : Z * Z * Z * error).

Definition exec (c : call) : prog cstore answer :=
  match c with
  | Write (OpPutSeeder now ih p) => e ← PutSeeder now ih p; mret (Wrote e)
  | Write (OpDeleteSeeder ih p) => e ← DeleteSeeder ih p; mret (Wrote e)
  | Write (OpPutLeecher now ih p) => e ← PutLeecher now ih p; mret (Wrote e)
  | Write (OpDeleteLeecher ih p) => e ← DeleteLeecher ih p; mret (Wrote e)
  | Write (OpGraduateLeecher now ih p) => e ← GraduateLeecher now ih p; mret (Wrote e)
  | Write (OpGC σ cutoff) => gc cutoff;; mret Collected
  | Announce σ ih forSeeder numWant v6 => r ← AnnouncePeers ih forSeeder numWant v6; mret (Announced r)
  | Scrape ih => r ← ScrapeSwarm ih; mret (Scraped r)
  end.

(** The same call in the model of [Memory], where it is one step. *)
Definition exec_at_once (c : call) : M peerStore answer :=
  match c with
  | Write (OpPutSeeder now ih p) => e ← MemStore.PutSeeder now ih p; mret (Wrote e)
  | Write (OpDeleteSeeder ih p) => e ← MemStore.DeleteSeeder ih p; mret (Wrote e)
  | Write (OpPutLeecher now ih p) => e ← MemStore.PutLeecher now ih p; mret (Wrote e)
  | Write (OpDeleteLeecher ih p) => e ← MemStore.DeleteLeecher ih p; mret (Wrote e)
  | Write (OpGraduateLeecher now ih p) => e ← MemStore.GraduateLeecher now ih p; mret (Wrote e)
  | Write (OpGC σ cutoff) => λ ps, Some (@MemStore.gc σ cutoff ps, Collected)
  | Announce σ ih forSeeder numWant v6 => r ← @MemStore.AnnouncePeers σ ih forSeeder numWant v6; mret (Announced r)
  | Scrape ih => r ← MemStore.ScrapeSwarm ih; mret (Scraped r)
  end.

(** ** Invariant of the heap *)

(** A swarm in the map of its shard is on the heap, and under one info hash. *)
Record cshard_inv (sh : cshard) : Prop := {
  ci_alloc ih l : c_swarms sh !! ih = Some l → is_Some (c_heap sh !! l);
  ci_inj ih ih' l : c_swarms sh !! ih = Some l → c_swarms sh !! ih' = Some l → ih = ih';
}.

Definition cstore_inv (s : cstore) : Prop := Forall cshard_inv (c_shards s).

Lemma NewStore_ok n : cstore_inv (NewStore n) ∧ abs (NewStore n) = NewPeerStorage n.
Proof.
  split.
  - apply Forall_replicate. by split; cbn; intros *; rewrite lookup_empty.
  - unfold abs, NewStore, NewPeerStorage. cbn [c_shards c_closed]. f_equal. by rewrite fmap_replicate.
Qed.

(** ** Facts: one shard *)

Lemma lookup_abs sh ih : swarms (abs_shard sh) !! ih = deref sh <$> c_swarms sh !! ih.
Proof. unfold abs_shard. cbn [swarms]. by rewrite lookup_fmap. Qed.

Lemma update_abs r l f sh ih :
  cshard_inv sh → c_swarms sh !! ih = Some l →
  abs_shard (update r l f sh) = set_swarm (abs_shard sh) ih (with_peers r f (deref sh l)).
Proof.
  intros Hinv Hl. unfold abs_shard, set_swarm, update. cbn [c_swarms c_heap c_numSeeders c_numLeechers swarms numSeeders numLeechers].
  f_equal. apply map_eq. intros ih'. rewrite lookup_fmap.
  destruct (decide (ih' = ih)) as [->|Hne].
  - rewrite Hl, lookup_insert_eq. cbn. unfold deref at 1. cbn [c_heap]. by rewrite lookup_insert_eq.
  - rewrite lookup_insert_ne, lookup_fmap by done.
    destruct (c_swarms sh !! ih') as [l'|] eqn:E; [|done]. cbn. f_equal. unfold deref. cbn [c_heap].
    rewrite lookup_insert_ne; [done|]. intros ->. by apply Hne, (ci_inj _ Hinv _ _ l').
Qed.

Lemma update_inv r l f sh : cshard_inv sh → cshard_inv (update r l f sh).
Proof.
  intros [Ha Hi]. split; unfold update; cbn [c_swarms c_heap]; [|done].
  intros ih l' H%Ha. destruct (decide (l = l')) as [->|]; [by rewrite lookup_insert_eq; eauto|].
  by rewrite lookup_insert_ne.
Qed.

Lemma deref_update r l f sh : deref (update r l f sh) l = with_peers r f (deref sh l).
Proof. unfold deref at 1, update. cbn [c_heap]. by rewrite lookup_insert_eq. Qed.

Lemma count_inv r d sh : cshard_inv sh → cshard_inv (count r d sh).
Proof. by destruct r; intros [? ?]; split. Qed.

Lemma count_swarms r d sh : c_swarms (count r d sh) = c_swarms sh.
Proof. by destruct r. Qed.

Lemma deref_count r d sh l : deref (count r d sh) l = deref sh l.
Proof. by destruct r. Qed.

Lemma count_abs r d sh : swarms (abs_shard (count r d sh)) = swarms (abs_shard sh).
Proof. by destruct r. Qed.

Lemma create_spec k sh :
  cshard_inv sh →
  cshard_inv (create k sh).1 ∧ c_swarms (create k sh).1 !! k = Some (create k sh).2 ∧
  c_swarms sh ⊆ c_swarms (create k sh).1 ∧
  MemStore.getOrCreate (swarms (abs_shard sh)) k = (swarms (abs_shard (create k sh).1), deref (create k sh).1 (create k sh).2) ∧
  numSeeders (abs_shard (create k sh).1) = numSeeders (abs_shard sh) ∧
  numLeechers (abs_shard (create k sh).1) = numLeechers (abs_shard sh).
Proof.
  intros [Ha Hi]. unfold create, MemStore.getOrCreate. rewrite lookup_abs.
  destruct (c_swarms sh !! k) as [l|] eqn:E; cbn [fst snd fmap option_fmap option_map].
  { by split_and!. }
  set (v := base.fresh _). assert (c_heap sh !! v = None) as Hv by (apply not_elem_of_dom, is_fresh).
  assert (∀ ih, c_swarms sh !! ih ≠ Some v) as Hne by (intros ih [? ?]%Ha; congruence).
  cbn [c_swarms]. split_and!; [|by rewrite lookup_insert_eq|by apply insert_subseteq| |done..].
  - split; cbn [c_swarms c_heap].
    + intros ih l [[<- <-]|[_ H%Ha]]%lookup_insert_Some; [by rewrite lookup_insert_eq; eauto|].
      destruct (decide (v = l)) as [->|]; [by rewrite lookup_insert_eq; eauto|by rewrite lookup_insert_ne].
    + intros ih ih' l [[<- <-]|[_ H]]%lookup_insert_Some [[<- ?]|[_ H']]%lookup_insert_Some;
        [done|by apply Hne in H'|subst; by apply Hne in H|by eapply Hi].
  - f_equal; [|unfold deref; cbn [c_heap]; by rewrite lookup_insert_eq].
    unfold abs_shard. cbn [swarms c_swarms]. rewrite fmap_insert. f_equal.
    + unfold deref. cbn [c_heap]. by rewrite lookup_insert_eq.
    + apply map_eq. intros ih. rewrite !lookup_fmap. destruct (c_swarms sh !! ih) as [l|] eqn:El; [|done].
      cbn. f_equal. unfold deref. cbn [c_heap]. rewrite lookup_insert_ne; [done|]. intros ->. by apply Hne in El.
Qed.

(** ** Facts: a method alone

    The state is kept as [set_cshard s i sh], the shard being worked on. *)

Lemma set_cshard_id s i sh : c_shards s !! i = Some sh → set_cshard s i sh = s.
Proof. intros H. unfold set_cshard. destruct s as [l c]. cbn in *. by rewrite list_insert_id. Qed.

Lemma run_act {A B} i (f : cshard → cshard * B) (g : B → prog cstore A) s sh :
  (i < length (c_shards s))%nat →
  run (act i f ≫= g) (set_cshard s i sh) = run (g (f sh).2) (set_cshard s i (f sh).1).
Proof.
  intros Hi. change (run (g (on_shard i f (set_cshard s i sh)).2) (on_shard i f (set_cshard s i sh)).1 = run (g (f sh).2) (set_cshard s i (f sh).1)).
  assert (on_shard i f (set_cshard s i sh) = (set_cshard s i (f sh).1, (f sh).2)) as ->; [|done].
  unfold on_shard, set_cshard. cbn [c_shards c_closed]. rewrite list_lookup_insert_eq by done.
  by rewrite list_insert_insert_eq.
Qed.

Lemma run_look {A B} i (f : cshard → B) (g : B → prog cstore A) s sh :
  (i < length (c_shards s))%nat →
  run (look i f ≫= g) (set_cshard s i sh) = run (g (f sh)) (set_cshard s i sh).
Proof. intros Hi. unfold look. by rewrite run_act. Qed.

(** The effects of the composed sections on a shard. *)
Definition put_sh (r : role) (sw : ref) (p : Peer) (now : Z) (sh : cshard) : cshard :=
  update r sw <[p := now]> (match peers_of r (deref sh sw) !! p with Some _ => sh | None => count r 1 sh end).

Definition del_sh (r : role) (sw : ref) (sh : cshard) (p : Peer) : cshard :=
  match peers_of r (deref sh sw) !! p with
  | Some _ => count r decrUint64 (update r sw (delete p) sh)
  | None => sh
  end.

Lemma bind_assoc {St A B C} (m : prog St A) (f : A → prog St B) (g : B → prog St C) s :
  run ((m ≫= f) ≫= g) s = run (m ≫= λ a, f a ≫= g) s.
Proof. revert s. induction m as [a| |D h k IH]; intros s; [done..|]. apply (IH (h s).2). Qed.

Lemma run_put_in {A} r i sw p now (g : () → prog cstore A) s sh :
  (i < length (c_shards s))%nat →
  run (put_in r i sw p now ≫= g) (set_cshard s i sh) = run (g tt) (set_cshard s i (put_sh r sw p now sh)).
Proof.
  intros Hi. unfold put_in, p_get, p_set, Add, put_sh. rewrite bind_assoc, run_look by done.
  destruct (peers_of r (deref sh sw) !! p); rewrite bind_assoc.
  - change (run (act i (λ sh, (update r sw <[p:=now]> sh, tt)) ≫= g) (set_cshard s i sh) = run (g tt) (set_cshard s i (update r sw <[p:=now]> sh))).
    by rewrite run_act.
  - by rewrite run_act, run_act.
Qed.

Lemma run_del_in {A} r i sw p (g : () → prog cstore A) s sh :
  (i < length (c_shards s))%nat →
  run (del_in r i sw p ≫= g) (set_cshard s i sh) = run (g tt) (set_cshard s i (del_sh r sw sh p)).
Proof.
  intros Hi. unfold del_in, p_del, Add, del_sh. rewrite bind_assoc, run_act by done. unfold remove_peer.
  destruct (peers_of r (deref sh sw) !! p); cbn [fst snd]; [by rewrite run_act|done].
Qed.

Lemma run_getOrCreate {A} i k (g : ref → prog cstore A) s sh :
  (i < length (c_shards s))%nat →
  run (getOrCreate i k ≫= g) (set_cshard s i sh) = run (g (create k sh).2) (set_cshard s i (create k sh).1).
Proof.
  intros Hi. unfold getOrCreate, sw_get. rewrite bind_assoc, run_look by done.
  destruct (c_swarms sh !! k) eqn:E; [|by rewrite run_act].
  assert (create k sh = (sh, r)) as -> by (unfold create; by rewrite E). done.
Qed.

(** What they are on the abstract shard. *)
Definition put_role (r : role) : Z → InfoHash → Peer → peerShard → peerShard :=
  match r with Seeder => put_seeder | Leecher => put_leecher end.
Definition del_role (r : role) : InfoHash → Peer → swarm → peerShard → peerShard :=
  match r with Seeder => del_seeder | Leecher => del_leecher end.

Lemma getOrCreate_found sh ih l :
  c_swarms sh !! ih = Some l →
  MemStore.getOrCreate (swarms (abs_shard sh)) ih = (swarms (abs_shard sh), deref sh l).
Proof. intros H. unfold MemStore.getOrCreate. by rewrite lookup_abs, H. Qed.

Lemma put_sh_spec r l p now sh ih :
  cshard_inv sh → c_swarms sh !! ih = Some l →
  cshard_inv (put_sh r l p now sh) ∧ c_swarms (put_sh r l p now sh) = c_swarms sh ∧
  abs_shard (put_sh r l p now sh) = put_role r now ih p (abs_shard sh).
Proof.
  intros Hinv Hl. unfold put_sh. split_and!.
  - apply update_inv. destruct (_ !! p); [done|by apply count_inv].
  - by destruct (_ !! p), r.
  - rewrite (update_abs _ _ _ _ ih); [| |by destruct (_ !! p), r].
    + destruct r; cbn [put_role peers_of]; unfold put_seeder, put_leecher;
        rewrite (getOrCreate_found _ _ _ Hl); by destruct (_ !! p).
    + destruct (_ !! p); [done|by apply count_inv].
Qed.

Lemma del_sh_spec r l p sh ih :
  cshard_inv sh → c_swarms sh !! ih = Some l →
  cshard_inv (del_sh r l sh p) ∧ c_swarms (del_sh r l sh p) = c_swarms sh ∧
  abs_shard (del_sh r l sh p) = del_role r ih p (deref sh l) (abs_shard sh).
Proof.
  intros Hinv Hl. unfold del_sh, del_role, del_seeder, del_leecher. split_and!.
  - destruct (_ !! p); [|done]. by apply count_inv, update_inv.
  - by destruct (_ !! p), r.
  - destruct r; cbn [peers_of]; (destruct (_ !! p); [|done]);
      pose proof (update_abs Seeder l (delete p) sh ih Hinv Hl) as Hs;
      pose proof (update_abs Leecher l (delete p) sh ih Hinv Hl) as Hq;
      unfold abs_shard, count in *; cbn [c_swarms c_heap c_numSeeders c_numLeechers] in *; unfold set_swarm in *; cbn [swarms numSeeders numLeechers] in *.
    + injection Hs as Hs. by rewrite <-Hs.
    + injection Hq as Hq. by rewrite <-Hq.
Qed.

(** Putting into a swarm just made is putting where there was none. *)
Lemma create_put r now ih p sh :
  cshard_inv sh → put_role r now ih p (abs_shard (create ih sh).1) = put_role r now ih p (abs_shard sh).
Proof.
  intros Hinv. destruct (create_spec ih sh Hinv) as (_ & Hl & _ & Hg & Hs & Hq).
  by destruct r; cbn [put_role]; unfold put_seeder, put_leecher; rewrite (getOrCreate_found _ _ _ Hl), Hg, Hs, Hq.
Qed.

(** ** Facts: the store *)

Lemma abs_set s i sh : abs (set_cshard s i sh) = set_shard (abs s) i (abs_shard sh).
Proof. unfold abs, set_cshard, set_shard. cbn [c_shards c_closed shards closed]. by rewrite list_fmap_insert. Qed.

Lemma set_inv s i sh : cstore_inv s → cshard_inv sh → cstore_inv (set_cshard s i sh).
Proof. intros Hs Hsh. by apply Forall_insert. Qed.

Lemma shardOf_abs s ih v6 i sh :
  shardOf (abs s) ih v6 = Some (i, sh) →
  ∃ csh, c_shards s !! i = Some csh ∧ sh = abs_shard csh ∧ (i < length (c_shards s))%nat ∧ s = set_cshard s i csh.
Proof.
  unfold shardOf. destruct (shardIndex _ _ _) as [j|]; [|done]. cbn [mbind option_bind].
  unfold abs at 1. cbn [shards]. rewrite list_lookup_fmap.
  destruct (c_shards s !! j) as [csh|] eqn:E; [|done]. cbn. intros [= <- <-].
  exists csh. split_and!; [done..|by eapply lookup_lt_Some|by rewrite set_cshard_id].
Qed.

Lemma run_opened {A} (m : prog cstore A) s : run (opened m) s = if c_closed s then None else run m s.
Proof. change (run (if c_closed s then Panic else m) s = if c_closed s then None else run m s). by destruct (c_closed s). Qed.

Lemma run_shard_of {A} ih v6 (g : nat → prog cstore A) s :
  run (shard_of ih v6 ≫= g) s = match shardOf (abs s) ih v6 with Some (i, _) => run (g i) s | None => None end.
Proof.
  unfold shard_of. rewrite bind_assoc.
  change (run ((match option_map fst (shardOf (abs s) ih v6) with Some i => mret i | None => Panic end) ≫= g) s = match shardOf (abs s) ih v6 with Some (i, _) => run (g i) s | None => None end).
  by destruct (shardOf (abs s) ih v6) as [[i sh]|].
Qed.

(** A program that, alone, is the function [m] of the abstract store. *)
Definition alone {A} (c : prog cstore A) (m : M peerStore A) : Prop :=
  ∀ s, cstore_inv s →
    match run c s with
    | Some (s', a) => cstore_inv s' ∧ m (abs s) = Some (abs s', a)
    | None => m (abs s) = None
    end.

Lemma alone_opened {A} (c : prog cstore A) (m : M peerStore A) : alone c m → alone (opened c) (MemStore.opened m).
Proof.
  intros H s Hs. rewrite run_opened. unfold MemStore.opened. cbn [abs closed].
  specialize (H s Hs). destruct (c_closed s); [done|apply H].
Qed.

Lemma alone_shard {A} ih v6 (c : nat → prog cstore A) (m : nat → peerShard → M peerStore A) :
  (∀ s i sh, cstore_inv s → shardOf (abs s) ih v6 = Some (i, abs_shard sh) → (i < length (c_shards s))%nat →
     cshard_inv sh → s = set_cshard s i sh →
     match run (c i) (set_cshard s i sh) with
     | Some (s', a) => cstore_inv s' ∧ m i (abs_shard sh) (abs s) = Some (abs s', a)
     | None => m i (abs_shard sh) (abs s) = None
     end) →
  alone (shard_of ih v6 ≫= c) (λ ps, '(i, sh) ← shardOf ps ih v6; m i sh ps).
Proof.
  intros H s Hs. rewrite run_shard_of. destruct (shardOf (abs s) ih v6) as [[i sh]|] eqn:E; [|done].
  destruct (shardOf_abs _ _ _ _ _ E) as (csh & Hc & -> & Hi & Heq).
  cbn [mbind option_bind].
  pose proof (H s i csh Hs E Hi (Forall_lookup_1 _ _ _ _ Hs Hc) Heq) as Ha. by rewrite <-Heq in Ha.
Qed.

Lemma alone_put r now ih p :
  alone (put r now ih p)
    (MemStore.opened (λ ps, '(i, sh) ← shardOf ps ih (Peer_Is6 p); Some (set_shard ps i (put_role r now ih p sh), None))).
Proof.
  apply alone_opened, (alone_shard ih (Peer_Is6 p) (λ i, _) (λ i sh ps, Some (set_shard ps i (put_role r now ih p sh), None))).
  intros s i sh Hs _ Hi Hsh _. rewrite run_getOrCreate, run_put_in by done. cbn [run mret prog_ret].
  destruct (create_spec ih sh Hsh) as (Hinv & Hl & _).
  destruct (put_sh_spec r (create ih sh).2 p now _ ih Hinv Hl) as (Hinv' & _ & Habs).
  split; [by apply set_inv|]. by rewrite abs_set, Habs, create_put.
Qed.

Lemma alone_del r ih p :
  alone (del r ih p)
    (MemStore.opened (λ ps, '(i, sh) ← shardOf ps ih (Peer_Is6 p);
       match swarms sh !! ih with
       | Some sw => Some (set_shard ps i (del_role r ih p sw sh), None)
       | None => Some (ps, Some ErrResourceDoesNotExist)
       end)).
Proof.
  apply alone_opened, (alone_shard ih (Peer_Is6 p) (λ i, _) (λ i sh ps,
    match swarms sh !! ih with
    | Some sw => Some (set_shard ps i (del_role r ih p sw sh), None)
    | None => Some (ps, Some ErrResourceDoesNotExist)
    end)).
  intros s i sh Hs _ Hi Hsh Heq. unfold sw_get. rewrite run_look by done. rewrite lookup_abs.
  destruct (c_swarms sh !! ih) as [l|] eqn:Hl; cbn [fmap option_fmap option_map].
  - rewrite run_del_in by done. cbn [run mret prog_ret].
    destruct (del_sh_spec r l p sh ih Hsh Hl) as (Hinv' & _ & Habs).
    split; [by apply set_inv|]. by rewrite abs_set, Habs.
  - cbn [run mret prog_ret]. rewrite <-Heq. done.
Qed.

Lemma alone_graduate now ih p : alone (GraduateLeecher now ih p) (MemStore.GraduateLeecher now ih p).
Proof.
  apply alone_opened, (alone_shard ih (Peer_Is6 p) (λ i, _) (λ i sh ps,
    let '(m, sw) := MemStore.getOrCreate (swarms sh) ih in
    let sh := MkShard m (numSeeders sh) (numLeechers sh) in
    Some (set_shard ps i (put_seeder now ih p (del_leecher ih p sw sh)), None))).
  intros s i sh Hs _ Hi Hsh _. rewrite run_getOrCreate, run_del_in, run_put_in by done. cbn [run mret prog_ret].
  destruct (create_spec ih sh Hsh) as (Hinv & Hl & _ & Hg & Hns & Hnl).
  destruct (del_sh_spec Leecher (create ih sh).2 p _ ih Hinv Hl) as (Hinv1 & Hsw1 & Habs1).
  rewrite <-Hsw1 in Hl.
  destruct (put_sh_spec Seeder (create ih sh).2 p now _ ih Hinv1 Hl) as (Hinv2 & _ & Habs2).
  split; [by apply set_inv|]. rewrite abs_set, Habs2, Habs1, Hg, <-Hns, <-Hnl. cbn [put_role del_role].
  by destruct (abs_shard (create ih sh).1).
Qed.

Lemma alone_announce `{Shuffle} ih forSeeder n v6 :
  alone (AnnouncePeers ih forSeeder n v6) (MemStore.AnnouncePeers ih forSeeder n v6).
Proof.
  apply alone_opened, (alone_shard ih v6 (λ i, _) (λ i sh ps,
    match swarms sh !! ih with
    | Some sw => if Z.quot n 2 <? 0 then None else Some (ps, (announce sw forSeeder n, None))
    | None => Some (ps, ([], None))
    end)).
  intros s i sh Hs _ Hi Hsh Heq. unfold sw_get, p_keys. rewrite run_look by done. rewrite lookup_abs.
  destruct (c_swarms sh !! ih) as [l|]; cbn [fmap option_fmap option_map]; [|by rewrite <-Heq].
  destruct (Z.quot n 2 <? 0); [done|]. unfold announce.
  destruct forSeeder; rewrite run_look by done; [by rewrite <-Heq|].
  cbn [peers_of]. destruct (rangeFn (keys (seeders (deref sh l))) n []) as [[ps n'] [|]]; [|by rewrite <-Heq].
  rewrite run_look by done. by rewrite <-Heq.
Qed.

Lemma run_countPeers {A} ih v6 (g : Z * Z → prog cstore A) s :
  run (countPeers ih v6 ≫= g) s = match MemStore.countPeers (abs s) ih v6 with Some c => run (g c) s | None => None end.
Proof.
  unfold countPeers, MemStore.countPeers. rewrite bind_assoc, run_shard_of.
  destruct (shardOf (abs s) ih v6) as [[i sh]|] eqn:E; [|done]. cbn [mbind option_bind].
  destruct (shardOf_abs _ _ _ _ _ E) as (csh & _ & -> & Hi & Heq).
  unfold sw_get, p_len. rewrite Heq at 1. rewrite bind_assoc, run_look, lookup_abs by done.
  destruct (c_swarms csh !! ih) as [l|]; cbn [fmap option_fmap option_map]; [|by rewrite <-Heq].
  rewrite bind_assoc, run_look, bind_assoc, run_look by done. by rewrite <-Heq.
Qed.

Lemma alone_scrape ih : alone (ScrapeSwarm ih) (MemStore.ScrapeSwarm ih).
Proof.
  apply alone_opened. intros s Hs. rewrite run_countPeers.
  destruct (MemStore.countPeers (abs s) ih false) as [[a1 a2]|]; [|done].
  rewrite run_countPeers. cbn [mbind option_bind]. by destruct (MemStore.countPeers (abs s) ih true) as [[b1 b2]|].
Qed.

(** ** Facts: a collection alone *)

Lemma run_for_each {A B} (body : A → prog cstore ()) (l : list A) (step : cshard → A → cshard) i
    (g : () → prog cstore B) s sh :
  (∀ a (g : () → prog cstore B) sh, run (body a ≫= g) (set_cshard s i sh) = run (g tt) (set_cshard s i (step sh a))) →
  run (for_each l body ≫= g) (set_cshard s i sh) = run (g tt) (set_cshard s i (foldl step sh l)).
Proof.
  intros H. revert sh. induction l as [|a l IH]; intros sh; [done|]. cbn [for_each foldl].
  by rewrite bind_assoc, H, IH.
Qed.

Definition counter (r : role) (sh : peerShard) : Z :=
  match r with Seeder => numSeeders sh | Leecher => numLeechers sh end.

Definition counted_off (m : gmap Peer Z) (p : Peer) (n : Z) : Z :=
  match m !! p with Some _ => add_u64 n decrUint64 | None => n end.

Lemma purge_cons p ps m n : purge (p :: ps) m n = purge ps (delete p m) (counted_off m p n).
Proof.
  unfold purge, counted_off. cbn [foldl]. destruct (m !! p) eqn:E; [done|]. by rewrite (delete_id m p).
Qed.

Lemma peers_of_with r f sw : peers_of r (with_peers r f sw) = f (peers_of r sw).
Proof. by destruct r. Qed.

Lemma with_peers_id r m sw : peers_of r sw = m → with_peers r (λ _, m) sw = sw.
Proof. intros <-. by destruct r, sw. Qed.

Lemma del_sh_deref r l p sh : deref (del_sh r l sh p) l = with_peers r (delete p) (deref sh l).
Proof.
  unfold del_sh. destruct (peers_of r (deref sh l) !! p) eqn:E.
  - by rewrite deref_count, deref_update.
  - destruct r, (deref sh l) as [m1 m2]; cbn [with_peers peers_of seeders leechers] in *; by rewrite delete_id.
Qed.

Lemma del_sh_counter r l p sh :
  counter r (abs_shard (del_sh r l sh p)) = counted_off (peers_of r (deref sh l)) p (counter r (abs_shard sh)).
Proof. unfold del_sh, counted_off. destruct (_ !! p); by destruct r. Qed.

Lemma del_sh_counter_ne r r' l p sh :
  r' ≠ r → counter r' (abs_shard (del_sh r l sh p)) = counter r' (abs_shard sh).
Proof. intros H. unfold del_sh. destruct (_ !! p); by destruct r, r'. Qed.

Lemma del_sh_swarms r l p sh ih :
  cshard_inv sh → c_swarms sh !! ih = Some l →
  swarms (abs_shard (del_sh r l sh p)) = <[ih := with_peers r (delete p) (deref sh l)]> (swarms (abs_shard sh)).
Proof.
  intros Hinv Hl. unfold del_sh. destruct (peers_of r (deref sh l) !! p) eqn:E.
  - by rewrite count_abs, (update_abs _ _ _ _ ih).
  - rewrite insert_id; [done|]. rewrite lookup_abs, Hl. cbn. f_equal.
    destruct r, (deref sh l) as [m1 m2]; cbn [with_peers peers_of seeders leechers] in *; by rewrite delete_id.
Qed.

(** Removing a list of peers from one map: [purge] on its map and counter. *)
Lemma del_shs_spec r l ps sh ih :
  cshard_inv sh → c_swarms sh !! ih = Some l →
  let sh' := foldl (del_sh r l) sh ps in
  let m_n := purge ps (peers_of r (deref sh l)) (counter r (abs_shard sh)) in
  cshard_inv sh' ∧ c_swarms sh' = c_swarms sh ∧ deref sh' l = with_peers r (λ _, m_n.1) (deref sh l) ∧
  swarms (abs_shard sh') = <[ih := deref sh' l]> (swarms (abs_shard sh)) ∧
  counter r (abs_shard sh') = m_n.2 ∧ ∀ r', r' ≠ r → counter r' (abs_shard sh') = counter r' (abs_shard sh).
Proof.
  cbv zeta. revert sh. induction ps as [|p ps IH]; intros sh Hinv Hl; cbn [foldl].
  { unfold purge. cbn [foldl fst snd]. rewrite with_peers_id by done. split_and!; try done. by rewrite insert_id by by rewrite lookup_abs, Hl. }
  destruct (del_sh_spec r l p sh ih Hinv Hl) as (Hinv1 & Hsw1 & _).
  destruct (IH (del_sh r l sh p) Hinv1 ltac:(by rewrite Hsw1)) as (H1 & H2 & H3 & H4 & H5 & H6).
  rewrite purge_cons. rewrite del_sh_deref, peers_of_with, del_sh_counter in H3, H5.
  split_and!; [done| | | |done|].
  - by rewrite H2.
  - rewrite H3. by destruct r.
  - by rewrite H4, (del_sh_swarms _ _ _ _ ih), insert_insert_eq.
  - intros r' Hr. by rewrite H6, del_sh_counter_ne.
Qed.

Lemma run_purge_role `{Shuffle} {A} r cutoff i l (g : () → prog cstore A) s sh :
  (i < length (c_shards s))%nat →
  run (purge_role r cutoff i l ≫= g) (set_cshard s i sh) =
    run (g tt) (set_cshard s i (foldl (del_sh r l) sh (toDel cutoff (peers_of r (deref sh l))))).
Proof.
  intros Hi. unfold purge_role, p_forEach. rewrite bind_assoc, run_look by done.
  apply run_for_each. intros p g' sh'. by apply run_del_in.
Qed.

(** One swarm. *)
Lemma run_gc_swarm `{Shuffle} {A} cutoff i ih (g : () → prog cstore A) s sh :
  (i < length (c_shards s))%nat → cshard_inv sh →
  ∃ sh', run (gc_swarm cutoff i ih ≫= g) (set_cshard s i sh) = run (g tt) (set_cshard s i sh') ∧
    cshard_inv sh' ∧ abs_shard sh' = MemStore.gc_swarm cutoff (abs_shard sh) ih.
Proof.
  intros Hi Hinv. unfold gc_swarm, sw_get, MemStore.gc_swarm. rewrite bind_assoc, run_look, lookup_abs by done.
  destruct (c_swarms sh !! ih) as [l|] eqn:Hl; cbn [fmap option_fmap option_map]; [|by exists sh].
  rewrite bind_assoc, run_purge_role, bind_assoc, run_purge_role by done.
  destruct (del_shs_spec Leecher l (toDel cutoff (leechers (deref sh l))) sh ih Hinv Hl) as (Hinv1 & Hsw1 & Hd1 & Hm1 & Hc1 & Ho1).
  cbn [peers_of] in *. set (sh1 := foldl (del_sh Leecher l) sh _) in *.
  assert (peers_of Seeder (deref sh1 l) = seeders (deref sh l)) as Es by by rewrite Hd1.
  cbn [peers_of] in Es. rewrite Es.
  destruct (del_shs_spec Seeder l (toDel cutoff (seeders (deref sh l))) sh1 ih Hinv1 ltac:(by rewrite Hsw1))
    as (Hinv2 & Hsw2 & Hd2 & Hm2 & Hc2 & Ho2).
  cbn [peers_of counter] in *. rewrite Es in *.
  specialize (Ho1 Seeder ltac:(done)). cbn [counter] in Ho1. rewrite Ho1 in *.
  set (sh2 := foldl (del_sh Seeder l) sh1 _) in *.
  specialize (Ho2 Leecher ltac:(done)). cbn [counter] in Ho2. rewrite Hc1 in Ho2. cbn [counter] in Hc2.
  destruct (purge _ (leechers (deref sh l)) _) as [ml nl]. destruct (purge _ (seeders (deref sh l)) _) as [ms ns].
  cbn [fst snd] in *.
  assert (deref sh2 l = MkSwarm ms ml) as Hd by (rewrite Hd2, Hd1; done).
  assert (swarms (abs_shard sh2) = <[ih := MkSwarm ms ml]> (swarms (abs_shard sh))) as Hm
    by by rewrite Hm2, Hm1, insert_insert_eq, Hd.
  unfold p_len. rewrite bind_assoc, run_look, bind_assoc, run_look by done. rewrite Hd. cbn [peers_of seeders leechers].
  destruct (Z.lor _ _ =? 0).
  - unfold sw_del. rewrite bind_assoc, run_act by done. exists (remove_swarm ih sh2).1. split; [done|].
    unfold remove_swarm. rewrite Hsw2, Hsw1, Hl. cbn [fst]. split.
    + destruct Hinv2 as [Ha Hj]. rewrite Hsw2, Hsw1 in Ha, Hj. split; cbn [c_swarms c_heap].
      * intros ih' l' [_ H']%lookup_delete_Some. by eapply Ha.
      * intros ih1 ih2 l' [_ H1]%lookup_delete_Some [_ H2]%lookup_delete_Some. by eapply Hj.
    + rewrite <-Hm, <-Hc2, <-Ho2. unfold abs_shard. cbn [c_swarms c_heap c_numSeeders c_numLeechers swarms numSeeders numLeechers].
      f_equal. rewrite Hsw2, Hsw1. by rewrite fmap_delete.
  - exists sh2. split; [done|]. split; [done|]. rewrite <-Hm, <-Hc2, <-Ho2. by destruct (abs_shard sh2).
Qed.

Lemma run_gc_swarms `{Shuffle} {A} cutoff i ihs (g : () → prog cstore A) s sh :
  (i < length (c_shards s))%nat → cshard_inv sh →
  ∃ sh', run (for_each ihs (gc_swarm cutoff i) ≫= g) (set_cshard s i sh) = run (g tt) (set_cshard s i sh') ∧
    cshard_inv sh' ∧ abs_shard sh' = foldl (MemStore.gc_swarm cutoff) (abs_shard sh) ihs.
Proof.
  intros Hi. revert sh. induction ihs as [|ih ihs IH]; intros sh Hinv; [by exists sh|]. cbn [for_each foldl].
  rewrite bind_assoc.
  destruct (run_gc_swarm cutoff i ih (λ _, for_each ihs (gc_swarm cutoff i) ≫= g) s sh Hi Hinv) as (sh1 & -> & Hinv1 & <-).
  by apply IH.
Qed.

Lemma run_gc_shard `{Shuffle} {A} cutoff i (g : () → prog cstore A) s sh :
  c_shards s !! i = Some sh → cshard_inv sh →
  ∃ sh', run (gc_shard cutoff i ≫= g) s = run (g tt) (set_cshard s i sh') ∧
    cshard_inv sh' ∧ abs_shard sh' = MemStore.gc_shard cutoff (abs_shard sh).
Proof.
  intros Hsh Hinv. unfold gc_shard, sw_keys. pose proof (lookup_lt_Some _ _ _ Hsh) as Hi.
  assert (∀ m : prog cstore A, run m s = run m (set_cshard s i sh)) as -> by by rewrite set_cshard_id.
  rewrite bind_assoc, run_look by done. by apply run_gc_swarms.
Qed.

Lemma run_gc_shards `{Shuffle} {A} cutoff (g : () → prog cstore A) pre rest c :
  Forall cshard_inv rest →
  ∃ rest', run (for_each (seq (length pre) (length rest)) (gc_shard cutoff) ≫= g) (MkCStore (pre ++ rest) c) =
             run (g tt) (MkCStore (pre ++ rest') c) ∧
    Forall cshard_inv rest' ∧ abs_shard <$> rest' = MemStore.gc_shard cutoff <$> (abs_shard <$> rest).
Proof.
  revert pre. induction rest as [|sh rest IH]; intros pre Hinv; [by exists []|]. cbn [length seq for_each].
  apply list.Forall_cons in Hinv as [Hsh Hinv]. rewrite bind_assoc.
  destruct (run_gc_shard cutoff (length pre) (λ _, for_each (seq (S (length pre)) (length rest)) (gc_shard cutoff) ≫= g)
    (MkCStore (pre ++ sh :: rest) c) sh) as (sh' & -> & Hsh' & Habs); [|done|].
  { cbn [c_shards]. by apply list_lookup_middle. }
  unfold set_cshard. cbn [c_shards c_closed]. rewrite insert_app_r_alt, Nat.sub_diag by done. cbn [insert list_insert].
  specialize (IH (pre ++ [sh']) Hinv). rewrite length_app, Nat.add_comm, <-app_assoc in IH.
  destruct IH as (rest' & Hr & Hinv' & Habs'). exists (sh' :: rest'). cbn [length Nat.add] in Hr.
  change (sh' :: rest) with ([sh'] ++ rest). rewrite Hr. rewrite <-app_assoc.
  split; [done|]. split; [by constructor|]. cbn. by rewrite Habs, Habs'.
Qed.

Lemma run_gc `{Shuffle} {A} cutoff (g : () → prog cstore A) s :
  cstore_inv s →
  ∃ s', run (gc cutoff ≫= g) s = run (g tt) s' ∧ cstore_inv s' ∧ abs s' = MemStore.gc cutoff (abs s).
Proof.
  intros Hs. unfold MemStore.gc. destruct s as [shs [|]]; [by exists (MkCStore shs true)|].
  destruct (run_gc_shards cutoff g [] shs false Hs) as (shs' & Hr & Hinv & Habs).
  exists (MkCStore shs' false). split; [exact Hr|]. split; [done|].
  unfold abs. cbn [c_shards c_closed closed shards]. by rewrite Habs.
Qed.

Lemma alone_answer {A} (c : prog cstore A) (m : M peerStore A) (f : A → answer) :
  alone c m → alone (a ← c; mret (f a)) (a ← m; mret (f a)).
Proof.
  intros H s Hs. specialize (H s Hs). rewrite run_bind. unfold mbind, M_bind.
  destruct (run c s) as [[s' a]|]; [|by rewrite H]. by destruct H as [? ->].
Qed.

(** ** Effects of a call *)

Inductive effect :=
  | EPut (r : role) (now : Z) (ih : InfoHash) (p : Peer)
  | EDel (r : role) (ih : InfoHash) (p : Peer).

Definition apply_effect (v : tview) (e : effect) : tview :=
  match e with
  | EPut r now ih p => t_update r ih <[p := now]> v
  | EDel r ih p => t_update r ih (delete p) v
  end.

(** A graduation is two effects: another call may see the peer in no swarm. *)
Definition effects (c : call) : list effect :=
  match c with
  | Write (OpPutSeeder now ih p) => [EPut Seeder now ih p]
  | Write (OpDeleteSeeder ih p) => [EDel Seeder ih p]
  | Write (OpPutLeecher now ih p) => [EPut Leecher now ih p]
  | Write (OpDeleteLeecher ih p) => [EDel Leecher ih p]
  | Write (OpGraduateLeecher now ih p) => [EDel Leecher ih p; EPut Seeder now ih p]
  | Write (OpGC _ _) | Announce _ _ _ _ _ | Scrape _ => []
  end.

(** A call as the frontends make them, not a collection. *)
Definition client_call (c : call) : Prop :=
  match c with
  | Write (OpGC _ _) => False
  | Write o => op_wf o
  | Announce _ ih _ numWant _ => InfoHash_wf ih ∧ 0 ≤ numWant
  | Scrape ih => InfoHash_wf ih
  end.

#[export] Instance tview_equiv : Equiv tview := λ v w, ∀ r ih, v r ih = w r ih.
#[export] Instance tview_equivalence : Equivalence (≡@{tview}).
Proof. split; [done|intros v w H r ih; by rewrite H|intros u v w H1 H2 r ih; by rewrite H1, H2]. Qed.
#[export] Instance apply_effect_proper : Proper ((≡) ==> (=) ==> (≡)) apply_effect.
Proof. intros v w H e ? <- r ih. destruct e; cbn; unfold t_update; by rewrite H. Qed.

(** The effects of a write alone are what the specification says of it. *)
Lemma effects_spec o v : client_call (Write o) → foldl apply_effect v (effects (Write o)) ≡ spec_op o v.
Proof. by destruct o. Qed.

Definition view_of (s : cstore) : tview := tview_of (abs s).

(** [ih] names the swarm at [l]. *)
Definition mapped (s : cstore) (i : nat) (ih : InfoHash) (l : ref) : Prop :=
  ∃ sh, c_shards s !! i = Some sh ∧ c_swarms sh !! ih = Some l.

(** What client calls may do meanwhile: swarms are never dropped. *)
Definition grows (s s' : cstore) : Prop :=
  length (c_shards s') = length (c_shards s) ∧ ∀ i ih l, mapped s i ih l → mapped s' i ih l.

#[export] Instance grows_preorder : PreOrder grows.
Proof.
  split; [done|]. intros a b c [H1 H2] [H3 H4]. split; [congruence|]. eauto.
Qed.

Definition conc_inv (s : cstore) : Prop := cstore_inv s ∧ placed (abs s) ∧ c_closed s = false.

Definition does {A} : (cstore → A → Prop) → cstore → prog cstore A → list effect → Prop :=
  carries conc_inv grows view_of apply_effect.

(** One section. *)
Lemma does_act {B} i (f : cshard → cshard * B) (Q : cstore → B → Prop) w (e : option effect) :
  (i < length (c_shards w))%nat →
  (∀ s sh, grows w s → conc_inv s → c_shards s !! i = Some sh →
     cshard_inv (f sh).1 ∧ c_swarms sh ⊆ c_swarms (f sh).1 ∧
     placed (abs (set_cshard s i (f sh).1)) ∧
     (view_of (set_cshard s i (f sh).1) ≡ foldl apply_effect (view_of s) (option_list e)) ∧
     ∀ w', grows (set_cshard s i (f sh).1) w' → Q w' (f sh).2) →
  does Q w (act i f) (option_list e).
Proof.
  intros Hi H s Hle (Hs & Hp & Hc).
  destruct (lookup_lt_is_Some_2 (c_shards s) i) as [sh Hsh]; [by rewrite (proj1 Hle)|].
  destruct (H s sh Hle ltac:(done) Hsh) as (Hinv & Hsub & Hpl & Hv & HQ).
  assert (on_shard i f s = (set_cshard s i (f sh).1, (f sh).2)) as -> by (unfold on_shard; by rewrite Hsh).
  cbn [fst snd]. split; [|split].
  - split_and!; [by apply set_inv|done|done].
  - split; [unfold set_cshard; cbn [c_shards]; by rewrite length_insert|].
    intros j ih l (sh0 & Hj & Hl). destruct (decide (j = i)) as [->|Hne].
    + exists (f sh).1. unfold set_cshard. cbn [c_shards].
      rewrite list_lookup_insert_eq by by eapply lookup_lt_Some. simplify_eq.
      split; [done|]. by eapply lookup_weaken.
    + exists sh0. unfold set_cshard. cbn [c_shards]. by rewrite list_lookup_insert_ne.
  - exists e, []. rewrite app_nil_r. split_and!; [done..|]. by apply carries_ret.
Qed.

Lemma does_look {B} i (f : cshard → B) (Q : cstore → B → Prop) w :
  (i < length (c_shards w))%nat →
  (∀ s sh w', grows w s → conc_inv s → c_shards s !! i = Some sh → grows s w' → Q w' (f sh)) →
  does Q w (look i f) [].
Proof.
  intros Hi H. apply (does_act _ _ _ _ None); [done|]. intros s sh Hle Hinv Hsh. cbn [fst snd]. rewrite set_cshard_id by done.
  pose proof Hinv as (Hs & Hp & _). split_and!; [by apply (Forall_lookup_1 _ _ _ _ Hs Hsh)|done..|].
  intros w' Hw'. by apply (H s sh).
Qed.

(** ** Facts: the sections *)

Lemma grows_half s s' : grows s s' → half (abs s') = half (abs s).
Proof. intros [H _]. unfold half, abs. cbn [shards]. by rewrite !length_fmap, H. Qed.

Lemma grows_shard_no s s' ih v6 : grows s s' → shard_no (abs s') ih v6 = shard_no (abs s) ih v6.
Proof. intros H%grows_half. unfold shard_no. by rewrite H. Qed.

Lemma mapped_at s i ih l sh : mapped s i ih l → c_shards s !! i = Some sh → c_swarms sh !! ih = Some l.
Proof. intros (sh0 & H & ?) ?. by simplify_eq. Qed.

Lemma placed_at s i sh ih l :
  conc_inv s → c_shards s !! i = Some sh → c_swarms sh !! ih = Some l →
  swarm_ok (bool_decide (half (abs s) ≤ i)%nat) (deref sh l).
Proof.
  intros (_ & Hp & _) Hsh Hl. eapply (pl_swarms _ Hp i (abs_shard sh) ih).
  - unfold abs. cbn [shards]. by rewrite list_lookup_fmap, Hsh.
  - by rewrite lookup_abs, Hl.
Qed.

Lemma placed_lookup s i sh : conc_inv s → c_shards s !! i = Some sh →
  ∀ ih sw, swarms (abs_shard sh) !! ih = Some sw → swarm_ok (bool_decide (half (abs s) ≤ i)%nat) sw.
Proof.
  intros Hinv Hsh ih sw. rewrite lookup_abs. destruct (c_swarms sh !! ih) as [l|] eqn:E; [|done].
  intros [= <-]. by eapply placed_at.
Qed.

Lemma abs_lookup s i sh : c_shards s !! i = Some sh → shards (abs s) !! i = Some (abs_shard sh).
Proof. intros H. unfold abs. cbn [shards]. by rewrite list_lookup_fmap, H. Qed.

(** A step that leaves the shard's peers as they are. *)
Lemma same_effect s i sh sh' :
  conc_inv s → c_shards s !! i = Some sh →
  (∀ ih sw, swarms (abs_shard sh') !! ih = Some sw → sw = empty_swarm ∨ swarms (abs_shard sh) !! ih = Some sw) →
  (∀ ih, swarm_at (abs_shard sh') ih = swarm_at (abs_shard sh) ih) →
  placed (abs (set_cshard s i sh')) ∧ view_of (set_cshard s i sh') ≡ view_of s.
Proof.
  intros Hinv Hsh Hsw Hat. rewrite abs_set. split.
  - apply set_shard_placed; [by apply Hinv|]. intros ih sw [->|H]%Hsw; [|by eapply placed_lookup].
    by split; intros p t; cbn; rewrite lookup_empty.
  - intros r ih. unfold view_of. rewrite abs_set. apply (tview_set_same _ _ (abs_shard sh)); [by apply abs_lookup|].
    intros r' ih'. unfold shard_view. by rewrite Hat.
Qed.

(** A step that changes peer [p] of one map. *)
Lemma update_effect s sh r ih p l f :
  let i := shard_no (abs s) ih (Peer_Is6 p) in
  conc_inv s → InfoHash_wf ih → c_shards s !! i = Some sh → c_swarms sh !! ih = Some l →
  only_at p f → (∀ m q t, f m !! q = Some t → q = p ∨ m !! q = Some t) →
  placed (abs (set_cshard s i (update r l f sh))) ∧
  view_of (set_cshard s i (update r l f sh)) ≡ t_update r ih f (view_of s).
Proof.
  cbv zeta. intros Hinv Hih Hsh Hl Hf Hin. pose proof Hinv as (Hs & Hp & _).
  pose proof (Forall_lookup_1 _ _ _ _ Hs Hsh) as Hshinv.
  assert (placed (set_shard (abs s) (shard_no (abs s) ih (Peer_Is6 p)) (set_swarm (abs_shard sh) ih (with_peers r f (deref sh l))))) as Hp'.
  { apply set_shard_placed; [done|]. unfold set_swarm. cbn [swarms].
    intros ih' sw [[<- <-]|[_ H]]%lookup_insert_Some; [|by eapply placed_lookup].
    pose proof (placed_at _ _ _ _ _ Hinv Hsh Hl) as [H1 H2].
    rewrite (shard_no_half _ _ _ (pl_shape _ Hp)) in *.
    destruct r; split; cbn [with_peers seeders leechers]; try done; intros q t [->|?]%Hin; eauto. }
  rewrite abs_set, (update_abs _ _ _ _ ih) by done. split; [done|].
  intros r' ih'. unfold view_of. rewrite abs_set, (update_abs _ _ _ _ ih) by done.
  apply (tview_set_placed _ (abs_shard sh)); [done..| |done|].
  - unfold shardOf. rewrite shardIndex_eq by eauto using wf_length, pl_shape. cbn [mbind option_bind].
    by rewrite (abs_lookup _ _ _ Hsh).
  - intros r0 ih0. unfold set_swarm. rewrite shard_view_set. unfold at_role.
    assert (shard_view (abs_shard sh) r0 ih = peers_of r0 (deref sh l)) as Hv
      by (unfold shard_view, swarm_at; by rewrite lookup_abs, Hl).
    destruct (decide (ih0 = ih)) as [->|]; [|by rewrite decide_False by naive_solver].
    rewrite Hv. destruct (decide (r0 = r)) as [->|].
    + rewrite decide_True by done. apply peers_of_with.
    + rewrite decide_False by naive_solver. by destruct r, r0.
Qed.

Lemma remove_peer_abs r l k sh ih :
  cshard_inv sh → c_swarms sh !! ih = Some l →
  abs_shard (remove_peer r l k sh).1 = abs_shard (update r l (delete k) sh).
Proof.
  intros Hinv Hl. unfold remove_peer. destruct (peers_of r (deref sh l) !! k) eqn:E; [done|].
  rewrite (update_abs _ _ _ _ ih) by done. cbn [fst]. unfold set_swarm.
  assert (with_peers r (delete k) (deref sh l) = deref sh l) as ->
    by (destruct r, (deref sh l) as [m1 m2]; cbn [with_peers peers_of seeders leechers] in *; by rewrite delete_id).
  rewrite insert_id; [by destruct (abs_shard sh)|]. by rewrite lookup_abs, Hl.
Qed.

(** ** Facts: what the methods do to the view *)

Section Does.
Context (ih : InfoHash) (p : Peer) (Hih : InfoHash_wf ih).

Definition home (w : cstore) : nat := shard_no (abs w) ih (Peer_Is6 p).

Lemma does_getOrCreate w i : i = home w → (i < length (c_shards w))%nat →
  does (λ s l, mapped s i ih l) w (getOrCreate i ih) [].
Proof.
  intros -> Hi. unfold getOrCreate. apply (carries_bind _ _ _ _
    (λ s (v : option ref), ∀ l, v = Some l → mapped s (home w) ih l) _ _ _ _ [] []).
  { apply does_look; [done|]. intros s sh w' _ _ Hsh [_ Hw'] l Hl. apply Hw'. by exists sh. }
  intros w' [l|] Hw' HQ.
  { apply carries_ret. intros w'' [_ H]. by apply H, HQ. }
  apply (does_act _ _ _ _ None); [by rewrite (proj1 Hw')|].
  intros s sh Hle Hinv Hsh. pose proof Hinv as (Hs & _).
  destruct (create_spec ih sh (Forall_lookup_1 _ _ _ _ Hs Hsh)) as (H1 & H2 & H3 & H4 & _).
  split; [done|]. split; [done|].
  assert (swarms (abs_shard (create ih sh).1) = (MemStore.getOrCreate (swarms (abs_shard sh)) ih).1) as E by by rewrite H4.
  unfold MemStore.getOrCreate in E.
  destruct (same_effect s (home w) sh (create ih sh).1 Hinv Hsh) as [Hp Hv].
  - intros ih' sw. rewrite E. destruct (swarms (abs_shard sh) !! ih); [by right|]. cbn [fst].
    intros [[_ <-]|[_ H]]%lookup_insert_Some; [by left|by right].
  - intros ih'. unfold swarm_at. rewrite E. destruct (swarms (abs_shard sh) !! ih) eqn:E0; [done|]. cbn [fst].
    destruct (decide (ih' = ih)) as [->|]; [by rewrite lookup_insert_eq, E0|by rewrite lookup_insert_ne].
  - split_and!; [done..|]. intros w'' [_ Hw'']. apply Hw''. exists (create ih sh).1. split; [|done].
    unfold set_cshard. cbn [c_shards]. by rewrite list_lookup_insert_eq by by eapply lookup_lt_Some.
Qed.

Lemma does_Add r d w i : (i < length (c_shards w))%nat → does (λ _ _, True) w (Add r i d) [].
Proof.
  intros Hi. apply (does_act _ _ _ _ None); [done|]. intros s sh Hle Hinv Hsh. pose proof Hinv as (Hs & _).
  destruct (same_effect s i sh (count r d sh) Hinv Hsh) as [Hp Hv]; rewrite ?count_abs; [auto| |].
  - intros ih'. unfold swarm_at. by rewrite count_abs.
  - cbn [fst]. split_and!; [|by rewrite count_swarms|done..]. apply count_inv, (Forall_lookup_1 _ _ _ _ Hs Hsh).
Qed.

Lemma does_put_in r w i l now :
  i = home w → (i < length (c_shards w))%nat → mapped w i ih l →
  does (λ _ _, True) w (put_in r i l p now) [EPut r now ih p].
Proof.
  intros -> Hi Hl. unfold put_in. apply (carries_bind _ _ _ _ (λ _ _, True) _ _ _ _ [] [_]).
  { by apply does_look. }
  intros w1 ex H1 _. apply (carries_bind _ _ _ _ (λ _ _, True) _ _ _ _ [] [_]).
  { destruct ex; [by apply carries_ret|]. apply does_Add. by rewrite (proj1 H1). }
  intros w2 [] H2 _. assert (grows w w2) as Hw2 by by trans w1.
  apply (does_act _ _ _ _ (Some (EPut r now ih p))); [by rewrite (proj1 Hw2)|].
  intros s sh H3 Hinv Hsh. assert (grows w s) as Hs by by trans w2.
  pose proof (mapped_at _ _ _ _ _ (proj2 Hs _ _ _ Hl) Hsh) as Hsl. pose proof Hinv as (Hsi & _).
  unfold home in *. rewrite <-(grows_shard_no _ _ ih (Peer_Is6 p) Hs) in *.
  destruct (update_effect s sh r ih p l <[p := now]> Hinv Hih Hsh Hsl) as [Hp Hv]; [apply only_at_insert| |].
  { intros m q t [[<- _]|[_ ?]]%lookup_insert_Some; auto. }
  split_and!; [|done..]. apply update_inv, (Forall_lookup_1 _ _ _ _ Hsi Hsh).
Qed.

Lemma does_del_in r w i l :
  i = home w → (i < length (c_shards w))%nat → mapped w i ih l →
  does (λ _ _, True) w (del_in r i l p) [EDel r ih p].
Proof.
  intros -> Hi Hl. unfold del_in. apply (carries_bind _ _ _ _ (λ _ _, True) _ _ _ _ [_] []).
  - apply (does_act _ _ _ _ (Some (EDel r ih p))); [done|].
    intros s sh Hs Hinv Hsh. pose proof (mapped_at _ _ _ _ _ (proj2 Hs _ _ _ Hl) Hsh) as Hsl. pose proof Hinv as (Hsi & _).
    pose proof (Forall_lookup_1 _ _ _ _ Hsi Hsh) as Hshinv.
    unfold home in *. rewrite <-(grows_shard_no _ _ ih (Peer_Is6 p) Hs) in *.
    destruct (update_effect s sh r ih p l (delete p) Hinv Hih Hsh Hsl) as [Hp Hv]; [apply only_at_delete| |].
    { intros m q t [_ ?]%lookup_delete_Some; auto. }
    pose proof (remove_peer_abs r l p sh ih Hshinv Hsl) as E. unfold view_of in *. rewrite abs_set in *. rewrite <-E in Hp, Hv.
    split_and!; [| |done..].
    + unfold remove_peer. destruct (_ !! p); [by apply update_inv|done].
    + unfold remove_peer. by destruct (_ !! p).
  - intros w1 [|] H1 _; [|by apply carries_ret]. apply does_Add. by rewrite (proj1 H1).
Qed.
End Does.

Lemma does_look_bind {A B} i (f : cshard → B) (k : B → prog cstore A) Q w es :
  (i < length (c_shards w))%nat →
  (∀ s sh, grows w s → conc_inv s → c_shards s !! i = Some sh →
     ∃ (e : option effect) es', es = option_list e ++ es' ∧
       (view_of s ≡ foldl apply_effect (view_of s) (option_list e)) ∧ does Q s (k (f sh)) es') →
  does Q w (look i f ≫= k) es.
Proof.
  intros Hi H s Hle Hinv.
  destruct (lookup_lt_is_Some_2 (c_shards s) i) as [sh Hsh]; [by rewrite (proj1 Hle)|].
  destruct (H s sh Hle Hinv Hsh) as (e & es' & -> & Hv & Hk).
  assert (on_shard i (λ sh, (sh, f sh)) s = (s, f sh)) as ->
    by (unfold on_shard; rewrite Hsh; cbn [fst snd]; by rewrite set_cshard_id).
  cbn [fst snd]. split; [done|]. split; [reflexivity|]. by exists e, es'.
Qed.

Lemma does_reads {B} (f : cstore → B) (Q : cstore → B → Prop) w :
  (∀ s w', grows w s → conc_inv s → grows s w' → Q w' (f s)) → does Q w (reads f) [].
Proof.
  intros H s Hle Hinv. split; [done|]. split; [reflexivity|]. exists None, [].
  split; [done|]. split; [reflexivity|]. apply carries_ret. intros w' Hw'. by apply (H s).
Qed.

Lemma does_opened {A} (Q : cstore → A → Prop) w (m : prog cstore A) es :
  (∀ w', grows w w' → does Q w' m es) → does Q w (opened m) es.
Proof.
  intros H. unfold opened. apply (carries_bind _ _ _ _ (λ _ c, c = false) _ _ _ _ [] es).
  - apply does_reads. by intros s w' _ (_ & _ & ->) _.
  - by intros w' ? Hw' ->; apply H.
Qed.

Lemma does_shard_of ih v6 w :
  InfoHash_wf ih → does (λ s i, i = shard_no (abs s) ih v6 ∧ (i < length (c_shards s))%nat) w (shard_of ih v6) [].
Proof.
  intros Hih. unfold shard_of. apply (carries_bind _ _ _ _
    (λ s o, ∃ i, o = Some i ∧ i = shard_no (abs s) ih v6 ∧ (i < length (c_shards s))%nat) _ _ _ _ [] []).
  - apply does_reads. intros s w' _ (_ & Hp & _) Hw'. exists (shard_no (abs s) ih v6).
    destruct (shard_no_bounds (abs s) ih v6 (pl_shape _ Hp)) as [Hlt _].
    unfold shardOf. rewrite shardIndex_eq by eauto using wf_length, pl_shape. cbn [mbind option_bind].
    destruct (lookup_lt_is_Some_2 _ _ Hlt) as [sh Hsh]. rewrite Hsh. split; [done|].
    rewrite (grows_shard_no _ _ _ _ Hw'). split; [done|]. rewrite (proj1 Hw').
    unfold abs in Hlt at 2. cbn [shards] in Hlt. by rewrite length_fmap in Hlt.
  - intros w' o Hw' (i & -> & Hi & Hl). apply carries_ret. intros w'' Hw''.
    by rewrite (grows_shard_no _ _ _ _ Hw''), (proj1 Hw'').
Qed.

Lemma does_method {A} (Q : cstore → A → Prop) w ih v6 (body : nat → prog cstore A) es :
  InfoHash_wf ih →
  (∀ w' i, grows w w' → i = shard_no (abs w') ih v6 → (i < length (c_shards w'))%nat → does Q w' (body i) es) →
  does Q w (shard_of ih v6 ≫= body) es.
Proof.
  intros Hih H. apply (carries_bind _ _ _ _ _ _ _ _ _ [] es (does_shard_of ih v6 w Hih)).
  intros w' i Hw' [Hi Hl]. by apply H.
Qed.

#[local] Abbreviation any := (λ _ _, True).

Lemma does_put r w now ih p : InfoHash_wf ih → does any w (put r now ih p) [EPut r now ih p].
Proof.
  intros Hih. apply does_opened. intros w0 _. apply does_method; [done|]. intros w1 i _ Hi Hl.
  apply (carries_bind _ _ _ _ _ _ _ _ _ [] [_] (does_getOrCreate ih p w1 i Hi Hl)).
  intros w2 l H2 Hm. apply (carries_bind _ _ _ _ any _ _ _ _ [_] []); [|by intros; apply carries_ret].
  apply does_put_in; [done| |by rewrite (proj1 H2)|done].
  unfold home. by rewrite (grows_shard_no _ _ _ _ H2).
Qed.

Lemma does_del r w ih p : InfoHash_wf ih → does any w (del r ih p) [EDel r ih p].
Proof.
  intros Hih. apply does_opened. intros w0 _. apply does_method; [done|]. intros w1 i _ Hi Hl.
  unfold sw_get. apply does_look_bind; [done|]. intros s sh Hs Hinv Hsh.
  rewrite <-(grows_shard_no _ _ _ _ Hs) in Hi.
  destruct (c_swarms sh !! ih) as [l|] eqn:El.
  - exists None, [EDel r ih p]. split; [done|]. split; [done|].
    apply (carries_bind _ _ _ _ any _ _ _ _ [_] []); [|by intros; apply carries_ret].
    apply does_del_in; [done..|by rewrite (proj1 Hs)|by exists sh].
  - exists (Some (EDel r ih p)), []. split; [done|]. split; [|by apply carries_ret].
    cbn [option_list foldl apply_effect]. pose proof Hinv as (_ & Hp & _). unfold view_of.
    intros r' ih'. apply (tview_no_swarm_placed _ _ _ (abs_shard sh)); [done| |by rewrite lookup_abs, El].
    unfold shardOf. rewrite shardIndex_eq by eauto using wf_length, pl_shape. cbn [mbind option_bind].
    rewrite <-Hi. by rewrite (abs_lookup _ _ _ Hsh).
Qed.

Lemma does_graduate w now ih p :
  InfoHash_wf ih → does any w (GraduateLeecher now ih p) [EDel Leecher ih p; EPut Seeder now ih p].
Proof.
  intros Hih. apply does_opened. intros w0 _. apply does_method; [done|]. intros w1 i _ Hi Hl.
  apply (carries_bind _ _ _ _ _ _ _ _ _ [] [_; _] (does_getOrCreate ih p w1 i Hi Hl)).
  intros w2 l H2 Hm. apply (carries_bind _ _ _ _ any _ _ _ _ [_] [_]).
  { apply does_del_in; [done| |by rewrite (proj1 H2)|done]. unfold home. by rewrite (grows_shard_no _ _ _ _ H2). }
  intros w3 [] H3 _. apply (carries_bind _ _ _ _ any _ _ _ _ [_] []); [|by intros; apply carries_ret].
  apply does_put_in; [done| |by rewrite (proj1 H3), (proj1 H2)|by apply H3].
  unfold home. by rewrite (grows_shard_no _ _ _ _ H3), (grows_shard_no _ _ _ _ H2).
Qed.

Lemma does_announce `{Shuffle} w ih forSeeder n v6 :
  InfoHash_wf ih → 0 ≤ n → does any w (AnnouncePeers ih forSeeder n v6) [].
Proof.
  intros Hih Hn. apply does_opened. intros w0 _. apply does_method; [done|]. intros w1 i _ _ Hl.
  apply (carries_bind _ _ _ _ any _ _ _ _ [] []); [by apply does_look|]. intros w2 [l|] H2 _; [|by apply carries_ret].
  rewrite (proj2 (Z.ltb_ge _ _)) by (apply Z.quot_pos; lia).
  assert (∀ r, does any w2 (p_keys r i l) []) as Hk by (intros r; apply does_look; [by rewrite (proj1 H2)|done]).
  destruct forSeeder; apply (carries_bind _ _ _ _ any _ _ _ _ [] []); [apply Hk| |apply Hk|].
  { intros. by apply carries_ret. }
  intros w3 ks H3 _. destruct (rangeFn ks n []) as [[ps n'] [|]]; [|by apply carries_ret].
  apply (carries_bind _ _ _ _ any _ _ _ _ [] []); [exact (carries_up _ _ _ _ _ _ _ _ _ H3 (Hk Leecher))|]. intros. by apply carries_ret.
Qed.

Lemma does_countPeers w ih v6 : InfoHash_wf ih → does any w (countPeers ih v6) [].
Proof.
  intros Hih. apply does_method; [done|]. intros w1 i _ _ Hl.
  apply (carries_bind _ _ _ _ any _ _ _ _ [] []); [by apply does_look|]. intros w2 [l|] H2 _; [|by apply carries_ret].
  assert (∀ r w3, grows w2 w3 → does any w3 (p_len r i l) []) as Hk
    by (intros r w3 H3; apply does_look; [by rewrite (proj1 H3), (proj1 H2)|done]).
  apply (carries_bind _ _ _ _ any _ _ _ _ [] []); [by apply Hk|]. intros w3 ? H3 _.
  apply (carries_bind _ _ _ _ any _ _ _ _ [] []); [by apply Hk|]. intros. by apply carries_ret.
Qed.

Lemma does_scrape w ih : InfoHash_wf ih → does any w (ScrapeSwarm ih) [].
Proof.
  intros Hih. apply does_opened. intros w0 _.
  apply (carries_bind _ _ _ _ any _ _ _ _ [] []); [by apply does_countPeers|]. intros w1 a _ _.
  apply (carries_bind _ _ _ _ any _ _ _ _ [] []); [by apply does_countPeers|]. intros. by apply carries_ret.
Qed.

Lemma does_exec w c : client_call c → does any w (exec c) (effects c).
Proof.
  assert (∀ A (m : prog cstore A) (f : A → answer) es, does any w m es → does any w (a ← m; mret (f a)) es) as Ha.
  { intros A m f es Hm. rewrite <-(app_nil_r es).
    apply (carries_bind _ _ _ _ _ _ _ _ _ _ [] Hm). intros. by apply carries_ret. }
  destruct c as [[now ih p|ih p|now ih p|ih p|now ih p|σ cutoff]|σ ih b n v6|ih]; intros Hc.
  - exact (Ha _ _ Wrote _ (does_put Seeder w now ih p Hc)).
  - exact (Ha _ _ Wrote _ (does_del Seeder w ih p Hc)).
  - exact (Ha _ _ Wrote _ (does_put Leecher w now ih p Hc)).
  - exact (Ha _ _ Wrote _ (does_del Leecher w ih p Hc)).
  - exact (Ha _ _ Wrote _ (does_graduate w now ih p Hc)).
  - done.
  - exact (Ha _ _ Announced _ (does_announce w ih b n v6 (proj1 Hc) (proj2 Hc))).
  - exact (Ha _ _ Scraped _ (does_scrape w ih Hc)).
Qed.

(** ** Properties *)

(** C7: a method of the in-memory store that runs undisturbed, lock by lock over
    the shared swarms, is the method of the sequential model: the same answer, or
    panic, and the same store, for every call, collections included. *)
Theorem calls_alone (c : call) (s : cstore) :
  cstore_inv s →
  match run (exec c) s with
  | Some (s', a) => cstore_inv s' ∧ exec_at_once c (abs s) = Some (abs s', a)
  | None => exec_at_once c (abs s) = None
  end.
Proof.
  intros Hs. destruct c as [[now ih p|ih p|now ih p|ih p|now ih p|σ cutoff]|σ ih b n v6|ih].
  1: exact (alone_answer _ _ Wrote (alone_put Seeder now ih p) s Hs).
  1: exact (alone_answer _ _ Wrote (alone_del Seeder ih p) s Hs).
  1: exact (alone_answer _ _ Wrote (alone_put Leecher now ih p) s Hs).
  1: exact (alone_answer _ _ Wrote (alone_del Leecher ih p) s Hs).
  1: exact (alone_answer _ _ Wrote (alone_graduate now ih p) s Hs).
  2: exact (alone_answer _ _ Announced (alone_announce ih b n v6) s Hs).
  2: exact (alone_answer _ _ Scraped (alone_scrape ih) s Hs).
  cbn [exec exec_at_once]. destruct (run_gc cutoff (λ _, mret Collected) s Hs) as (s' & -> & Hs' & E).
  cbn [run mret M_ret prog_ret]. by rewrite E.
Qed.

(** C6: whatever way the goroutines of client calls interleave, none panics, and
    once they are done the swarms are what some order of the calls' effects makes
    of them in which each call's own are in order: no announce is lost or
    invented.  A put or a delete is a single effect; a graduation is two. *)
Theorem calls_interleaved (cs : list call) (s s' : cstore) (ms' : list (prog cstore answer)) :
  conc_inv s → Forall client_call cs →
  rtc pool_step (exec <$> cs, s) (ms', s') →
  conc_inv s' ∧ (Panic ∉ ms') ∧
  (Forall (λ m, is_Some (result_of m)) ms' →
   ∃ es, interleaving (effects <$> cs) es ∧ (view_of s' ≡ foldl apply_effect (view_of s) es)).
Proof.
  intros Hs Hcs Hsteps.
  destruct (pool_effects conc_inv grows view_of apply_effect any (exec <$> cs) ms' s s' (effects <$> cs))
    as (? & ? & _ & ?); [done| |done|done].
  apply Forall2_fmap_2, Forall_Forall2_diag. eapply list.Forall_impl; [exact Hcs|]. intros c. apply does_exec.
Qed.

(** ** Concrete runs *)

Definition store1 : cstore := NewStore 1.

Lemma store1_inv : conc_inv store1.
Proof.
  destruct (NewStore_ok 1) as [Hs Ha]. split; [exact Hs|]. split; [|reflexivity].
  unfold store1. rewrite Ha. by apply inv_placed, new_inv.
Qed.

Definition calls1 : list call := [Write (OpPutLeecher 10 ih1 peer4); Write (OpGraduateLeecher 20 ih1 peer4)].
Definition order1 : list nat := [0; 1; 0; 1; 0; 1; 0; 1; 1; 1; 0; 1; 1; 0; 1; 0; 1]%nat.
Definition end1 : pool cstore answer := schedule order1 (exec <$> calls1, store1).

Lemma calls_alone_witness :
  ∃ s', run (exec (Write (OpPutSeeder 20 ih1 peer4))) store1 = Some (s', Wrote None) ∧
        exec_at_once (Write (OpPutSeeder 20 ih1 peer4)) (abs store1) = Some (abs s', Wrote None).
Proof.
  pose proof (calls_alone (Write (OpPutSeeder 20 ih1 peer4)) store1 (proj1 store1_inv)) as H.
  assert (∃ s', run (exec (Write (OpPutSeeder 20 ih1 peer4))) store1 = Some (s', Wrote None)) as [s' E]
    by (eexists; vm_compute; reflexivity).
  rewrite E in H. destruct H as [_ H]. exists s'. split; [exact E|exact H].
Defined.

(** The leecher is put after its own graduation removed it. *)
Lemma calls_interleaved_witness :
  ∃ es, interleaving [[EPut Leecher 10 ih1 peer4]; [EDel Leecher ih1 peer4; EPut Seeder 20 ih1 peer4]] es ∧
    (view_of end1.2 ≡ foldl apply_effect (view_of store1) es) ∧
    view_of end1.2 Seeder ih1 = {[ peer4 := 20 ]} ∧ view_of end1.2 Leecher ih1 = {[ peer4 := 10 ]}.
Proof.
  assert (rtc pool_step (exec <$> calls1, store1) (end1.1, end1.2)) as Hr
    by (rewrite <-surjective_pairing; apply schedule_steps).
  assert (Forall client_call calls1) as Hc by (repeat constructor).
  destruct (calls_interleaved calls1 store1 end1.2 end1.1 store1_inv Hc Hr) as (_ & _ & H).
  destruct H as (es & Hes & Hv); [vm_compute; repeat constructor; by eexists|].
  exists es. split; [exact Hes|]. split; [exact Hv|].
  split; apply (bool_decide_eq_true_1 _); vm_cast_no_check (eq_refl true).
Defined.

(** A swarm that everybody has left, and a swarm with an old seeder. *)
Definition left_store : cstore :=
  (schedule (replicate 20 0 ++ replicate 20 1)%nat
     (exec <$> [Write (OpPutLeecher 1 ih1 peer4); Write (OpDeleteLeecher ih1 peer4)], store1)).2.
Definition old_store : cstore :=
  (schedule (replicate 20 0)%nat (exec <$> [Write (OpPutSeeder 1 ih1 peer4)], store1)).2.

Definition collect_and_put : list (prog cstore answer) :=
  exec <$> [Write (OpGC shuffle_id 5); Write (OpPutSeeder 20 ih1 peer4)].

(** The put finds the swarm, the collector drops it, the put goes on in it; the
    collector lists the old seeder, which announces, and then removes it. *)
Definition lost1 : pool cstore answer :=
  schedule (replicate 3 1 ++ replicate 30 0 ++ replicate 10 1)%nat (collect_and_put, left_store).
Definition lost2 : pool cstore answer :=
  schedule (replicate 6 0 ++ replicate 10 1 ++ replicate 30 0)%nat (collect_and_put, old_store).

(** C36: a collection that runs beside an announce can lose it: the calls end
    without error, one after the other in either order they keep the announced
    seeder, whose announce is newer than the cutoff, but interleaved the swarm
    ends up without it, in two ways: the collector removes from the map a swarm
    that the announce already holds, or removes a peer it listed as stale before
    the announce renewed it. *)
Theorem collection_loses_announce :
  ∀ s, s = left_store ∨ s = old_store →
  (∃ ms' s', rtc pool_step (collect_and_put, s) (ms', s') ∧
     result_of <$> ms' = [Some Collected; Some (Wrote None)] ∧ view_of s' Seeder ih1 = ∅) ∧
  ∀ os, os = [OpGC shuffle_id 5; OpPutSeeder 20 ih1 peer4] ∨ os = [OpPutSeeder 20 ih1 peer4; OpGC shuffle_id 5] →
    spec_ops os (view_of s) Seeder ih1 = {[ peer4 := 20 ]}.
Proof.
  intros s [->| ->]; split.
  - exists lost1.1, lost1.2. split; [rewrite <-surjective_pairing; apply schedule_steps|].
    split; [vm_compute; reflexivity|]. apply (bool_decide_eq_true_1 _). vm_cast_no_check (eq_refl true).
  - intros os [->| ->]; apply (bool_decide_eq_true_1 _); vm_cast_no_check (eq_refl true).
  - exists lost2.1, lost2.2. split; [rewrite <-surjective_pairing; apply schedule_steps|].
    split; [vm_compute; reflexivity|]. apply (bool_decide_eq_true_1 _). vm_cast_no_check (eq_refl true).
  - intros os [->| ->]; apply (bool_decide_eq_true_1 _); vm_cast_no_check (eq_refl true).
Qed.

Lemma collection_loses_announce_witness :
  ∃ ms' s', rtc pool_step (collect_and_put, old_store) (ms', s') ∧ view_of s' Seeder ih1 = ∅.
Proof.
  destruct (collection_loses_announce old_store (or_intror eq_refl)) as [(ms' & s' & H1 & _ & H2) _].
  exists ms', s'. split; [exact H1|exact H2].
Defined.

(** The counters are not exact under interleaving: two announces of one new
    seeder can both count it, and a deletion between the look at a present seeder
    and its renewal leaves one that is not counted; deleting that one wraps the
    counter around. *)
Example seeder_counted_twice :
  let c := schedule [0; 1; 0; 1; 0; 1; 0; 1; 0; 1; 0; 1; 0; 1]%nat
             (exec <$> [Write (OpPutSeeder 10 ih1 peer4); Write (OpPutSeeder 11 ih1 peer4)], old_store) in
  let c' := schedule [0; 1; 0; 1; 0; 1; 0; 1; 0; 1; 0; 1; 0; 1]%nat
             (exec <$> [Write (OpPutSeeder 10 ih1 peer4); Write (OpPutSeeder 11 ih1 peer4)], store1) in
  (sum_list_with (λ sh, Z.to_nat (c_numSeeders sh)) (c_shards c.2), size (view_of c.2 Seeder ih1),
   sum_list_with (λ sh, Z.to_nat (c_numSeeders sh)) (c_shards c'.2), size (view_of c'.2 Seeder ih1)) = (1, 1, 2, 1)%nat.
Proof. vm_compute. reflexivity. Qed.

Example seeder_counter_wraps :
  let c := schedule (replicate 4 0 ++ replicate 10 1 ++ replicate 10 0 ++ replicate 10 2)%nat
             (exec <$> [Write (OpPutSeeder 10 ih1 peer4); Write (OpDeleteSeeder ih1 peer4); Write (OpDeleteSeeder ih1 peer4)],
              old_store) in
  c_numSeeders <$> c_shards c.2 = [2 ^ 64 - 1; 0] ∧ view_of c.2 Seeder ih1 = ∅.
Proof. split; [vm_compute; reflexivity|]. apply (bool_decide_eq_true_1 _). vm_cast_no_check (eq_refl true). Qed.
End MemConc.
