(* ===== verification/MemorySafe.v ===== *)
(** * The in-memory store with its collector running

    [MemoryConc] shows what interleaved client calls do, and what a collection
    beside them can lose.  Here is what holds of all of them together: no call
    panics, and no swarm ever shows a peer that was not put into it.  Swarms are
    dropped and made anew meanwhile, so that a goroutine may hold one that its
    info hash no longer names; what it relies on is that this swarm is never
    named by another one. *)

From S2P Require Import Prelude GoStd Netip Bittorrent Storage Memory Threads MemoryConc.

Local Open Scope Z_scope.

Module MemSafe.
Import MemStore MemConc.

#[local] Abbreviation any := (λ _ _, True).

(** ** What the goroutines rely on *)

(** Swarms stay on the heap, and one that an info hash does not name will not be
    named by it. *)
Definition sh_evolves (sh sh' : cshard) : Prop :=
  ∀ l, is_Some (c_heap sh !! l) →
    is_Some (c_heap sh' !! l) ∧ ∀ ih, c_swarms sh' !! ih = Some l → c_swarms sh !! ih = Some l.

#[export] Instance sh_evolves_preorder : PreOrder sh_evolves.
Proof.
  split; [by intros sh l Hl|]. intros a b c H1 H2 l Hl. destruct (H1 l Hl) as [Hl' Hm].
  destruct (H2 l Hl') as [Hl'' Hm']. split; [done|]. auto.
Qed.

Definition evolves (s s' : cstore) : Prop :=
  length (c_shards s') = length (c_shards s) ∧
  ∀ i sh, c_shards s !! i = Some sh → ∃ sh', c_shards s' !! i = Some sh' ∧ sh_evolves sh sh'.

#[export] Instance evolves_preorder : PreOrder evolves.
Proof.
  split; [split; [done|]; intros i sh H; exists sh; by split|].
  intros a b c [H1 H2] [H3 H4]. split; [congruence|]. intros i sh Hi. destruct (H2 i sh Hi) as (sh1 & Hi1 & He1).
  destruct (H4 i sh1 Hi1) as (sh2 & Hi2 & He2). exists sh2. split; [done|]. by trans sh1.
Qed.

(** The swarm at [l] was made for [ih]. *)
Definition made (s : cstore) (i : nat) (ih : InfoHash) (l : ref) : Prop :=
  ∃ sh, c_shards s !! i = Some sh ∧ is_Some (c_heap sh !! l) ∧ ∀ ih', c_swarms sh !! ih' = Some l → ih' = ih.

Lemma made_evolves s s' i ih l : evolves s s' → made s i ih l → made s' i ih l.
Proof.
  intros [_ He] (sh & Hi & Hl & Hm). destruct (He i sh Hi) as (sh' & Hi' & Hev).
  exists sh'. split; [done|]. destruct (Hev l Hl) as [Hl' Hm']. split; [done|]. eauto.
Qed.

(** No effects are followed here. *)
Definition no_effect (v : ()) (_ : Empty_set) : () := v.
#[export] Instance no_effect_proper : Proper ((≡) ==> (=) ==> (≡)) no_effect.
Proof. by intros v w H e ? <-. Qed.

Section Safe.
(** What may be in a swarm. *)
Context (P : role → InfoHash → Peer → Z → Prop).

Definition sh_within (sh : cshard) : Prop :=
  ∀ ih l r p t, c_swarms sh !! ih = Some l → peers_of r (deref sh l) !! p = Some t → P r ih p t.

Definition safe_inv (s : cstore) : Prop :=
  cstore_inv s ∧ shape (abs s) ∧ c_closed s = false ∧ Forall sh_within (c_shards s).

Definition safe {A} (Q : cstore → A → Prop) (w : cstore) (m : prog cstore A) : Prop :=
  carries safe_inv evolves (λ _, tt) no_effect Q w m [].

Lemma safe_ret {A} (Q : cstore → A → Prop) w a : (∀ w', evolves w w' → Q w' a) → safe Q w (mret a).
Proof. intros H. by apply carries_ret. Qed.

Lemma safe_bind {A B} Q R w (m : prog cstore A) (g : A → prog cstore B) :
  safe Q w m → (∀ w' a, evolves w w' → Q w' a → safe R w' (g a)) → safe R w (m ≫= g).
Proof. apply (carries_bind _ _ _ _ _ _ _ _ _ [] []). Qed.

Lemma safe_for_each {A} (l : list A) (body : A → prog cstore ()) w :
  (∀ w' a, evolves w w' → safe any w' (body a)) → safe any w (for_each l body).
Proof.
  revert w. induction l as [|a l IH]; intros w H; [by apply safe_ret|]. cbn [for_each].
  apply (safe_bind any); [by apply H|]. intros w' _ Hw' _. apply IH. intros w'' b Hw''. apply H. by trans w'.
Qed.

(** One section. *)
Definition sh_step (sh sh' : cshard) : Prop := cshard_inv sh' ∧ sh_evolves sh sh' ∧ sh_within sh'.

Lemma safe_act {B} i (f : cshard → cshard * B) (Q : cstore → B → Prop) w :
  (i < length (c_shards w))%nat →
  (∀ s sh, evolves w s → safe_inv s → c_shards s !! i = Some sh → cshard_inv sh → sh_within sh →
     sh_step sh (f sh).1 ∧ ∀ w', evolves (set_cshard s i (f sh).1) w' → Q w' (f sh).2) →
  safe Q w (act i f).
Proof.
  intros Hi H s Hle Hinv. pose proof Hinv as (Hs & Hsh & Hc & Hw).
  destruct (lookup_lt_is_Some_2 (c_shards s) i) as [sh Hi']; [by rewrite (proj1 Hle)|].
  destruct (H s sh Hle Hinv Hi') as [(H1 & H2 & H3) HQ];
    [by apply (Forall_lookup_1 _ _ _ _ Hs Hi')|by apply (Forall_lookup_1 _ _ _ _ Hw Hi')|].
  assert (on_shard i f s = (set_cshard s i (f sh).1, (f sh).2)) as -> by (unfold on_shard; by rewrite Hi').
  cbn [fst snd]. split; [|split].
  - split_and!; [by apply set_inv| |done|by apply Forall_insert].
    unfold shape, half, abs, set_cshard in *. cbn [shards c_shards] in *. by rewrite list_fmap_insert, !length_insert.
  - split; [unfold set_cshard; cbn [c_shards]; by rewrite length_insert|]. intros j shj Hj.
    destruct (decide (j = i)) as [->|Hne].
    + exists (f sh).1. unfold set_cshard. cbn [c_shards]. rewrite list_lookup_insert_eq by by eapply lookup_lt_Some.
      by simplify_eq.
    + exists shj. unfold set_cshard. cbn [c_shards]. by rewrite list_lookup_insert_ne.
  - exists None, []. split; [done|]. split; [done|]. by apply carries_ret.
Qed.

Lemma safe_look {B} i (f : cshard → B) (Q : cstore → B → Prop) w :
  (i < length (c_shards w))%nat →
  (∀ s sh w', evolves w s → cshard_inv sh → c_shards s !! i = Some sh → evolves s w' → Q w' (f sh)) →
  safe Q w (look i f).
Proof.
  intros Hi H. apply safe_act; [done|]. intros s sh Hle Hinv Hsh Hs Hw. cbn [fst snd].
  rewrite set_cshard_id by done. split; [done|]. intros w' Hw'. by apply (H s sh).
Qed.

(** ** The sections *)

Lemma update_step r l f sh :
  cshard_inv sh → sh_within sh →
  (∀ ih m p t, c_swarms sh !! ih = Some l → f m !! p = Some t → m !! p = Some t ∨ P r ih p t) →
  sh_step sh (update r l f sh).
Proof.
  intros Hinv Hw Hf. split; [by apply update_inv|]. split.
  - intros l' Hl'. unfold update. cbn [c_heap c_swarms]. split; [|done].
    destruct (decide (l = l')) as [->|]; [by rewrite lookup_insert_eq|by rewrite lookup_insert_ne].
  - intros ih l' r' p t. unfold update. cbn [c_swarms]. intros Hm.
    destruct (decide (l' = l)) as [->|Hne].
    + change (deref (MkCShard _ _ _ _) l) with (deref (update r l f sh) l). rewrite deref_update.
      destruct (decide (r' = r)) as [->|Hr]; [rewrite peers_of_with|].
      * intros [H|H]%(Hf ih); [by eapply Hw|done..].
      * assert (peers_of r' (with_peers r f (deref sh l)) = peers_of r' (deref sh l)) as -> by by destruct r, r'.
        by apply Hw.
    + unfold deref. cbn [c_heap]. rewrite lookup_insert_ne by done. by apply Hw.
Qed.

Lemma count_step r d sh : cshard_inv sh → sh_within sh → sh_step sh (count r d sh).
Proof.
  intros Hinv Hw. split; [by apply count_inv|]. split.
  - intros l Hl. rewrite count_swarms. by destruct r.
  - intros ih l r' p t. rewrite count_swarms, deref_count. apply Hw.
Qed.

Lemma create_step k sh : cshard_inv sh → sh_within sh → sh_step sh (create k sh).1.
Proof.
  intros Hinv Hw. destruct (create_spec k sh Hinv) as (Hinv' & _). split; [done|]. clear Hinv'.
  destruct Hinv as [Ha _]. unfold create. destruct (c_swarms sh !! k) eqn:E; cbn [fst]; [by split|].
  set (v := base.fresh _). assert (c_heap sh !! v = None) as Hv by (apply not_elem_of_dom, is_fresh). split.
  - intros l [sw Hl]. cbn [c_heap c_swarms]. assert (v ≠ l) by (intros ->; congruence).
    rewrite lookup_insert_ne by done. split; [by rewrite Hl|]. by intros ih [[_ ?]|[_ ?]]%lookup_insert_Some.
  - intros ih l r p t. unfold deref. cbn [c_heap c_swarms]. intros [[<- <-]|[_ H]]%lookup_insert_Some.
    + rewrite lookup_insert_eq. cbn. by destruct r; cbn; rewrite lookup_empty.
    + destruct (Ha _ _ H) as [sw Hl]. rewrite lookup_insert_ne by (intros ->; congruence). by apply (Hw ih).
Qed.

Lemma remove_swarm_step k sh : cshard_inv sh → sh_within sh → sh_step sh (remove_swarm k sh).1.
Proof.
  intros [Ha Hi] Hw. unfold remove_swarm. destruct (c_swarms sh !! k); cbn [fst]; [|by split]. split; [|split].
  - split; cbn [c_swarms c_heap].
    + intros ih l [_ H]%lookup_delete_Some. by eapply Ha.
    + intros ih ih' l [_ H]%lookup_delete_Some [_ H']%lookup_delete_Some. by eapply Hi.
  - intros l Hl. cbn [c_swarms c_heap]. split; [done|]. by intros ih [_ H]%lookup_delete_Some.
  - intros ih l r0 p t. cbn [c_swarms]. intros [_ H]%lookup_delete_Some. by apply (Hw ih).
Qed.

Lemma remove_peer_step r l k sh : cshard_inv sh → sh_within sh → sh_step sh (remove_peer r l k sh).1.
Proof.
  intros Hinv Hw. unfold remove_peer. destruct (_ !! k); cbn [fst]; [|by split].
  apply update_step; [done..|]. intros ih m p t _ [_ H]%lookup_delete_Some. by left.
Qed.

(** ** The methods *)

Lemma safe_Add r d w i : (i < length (c_shards w))%nat → safe any w (Add r i d).
Proof. intros Hi. apply safe_act; [done|]. intros s sh _ _ _ Hs Hw. split; [by apply count_step|done]. Qed.

Lemma safe_del_in r w i l p : (i < length (c_shards w))%nat → safe any w (del_in r i l p).
Proof.
  intros Hi. apply (safe_bind any).
  - apply safe_act; [done|]. intros s sh _ _ _ Hs Hw. split; [by apply remove_peer_step|done].
  - intros w' [|] Hw' _; [|by apply safe_ret]. apply safe_Add. by rewrite (proj1 Hw').
Qed.

Lemma safe_put_in r w i ih l p now :
  (i < length (c_shards w))%nat → made w i ih l → P r ih p now → safe any w (put_in r i l p now).
Proof.
  intros Hi Hl HP. apply (safe_bind any); [by apply safe_look|]. intros w1 ex H1 _.
  apply (safe_bind any).
  { destruct ex; [by apply safe_ret|]. apply safe_Add. by rewrite (proj1 H1). }
  intros w2 _ H2 _. assert (evolves w w2) as Hw2 by by trans w1.
  apply safe_act; [by rewrite (proj1 Hw2)|]. intros s sh H3 _ Hsh Hs Hw. split; [|done]. cbn [fst].
  destruct (made_evolves _ s _ _ _ ltac:(by trans w2) Hl) as (sh' & Hsh' & _ & Hm). simplify_eq.
  apply update_step; [done..|]. intros ih' m q t Hl' [[<- <-]|[_ H]]%lookup_insert_Some; [|by left].
  right. by rewrite (Hm ih' Hl').
Qed.

Lemma made_mapped s i sh ih l : c_shards s !! i = Some sh → cshard_inv sh → c_swarms sh !! ih = Some l → made s i ih l.
Proof.
  intros Hi [Ha Hj] Hl. exists sh. split; [done|]. split; [by eapply Ha|]. intros ih' Hl'. by eapply Hj.
Qed.

Lemma safe_getOrCreate w i ih : (i < length (c_shards w))%nat → safe (λ s l, made s i ih l) w (getOrCreate i ih).
Proof.
  intros Hi. apply (safe_bind (λ s (v : option ref), ∀ l, v = Some l → made s i ih l)).
  { apply safe_look; [done|]. intros s sh w' _ Hs Hsh Hw' l Hl. eapply made_evolves, made_mapped; done. }
  intros w' [l|] Hw' HQ.
  { apply safe_ret. intros w'' Hw''. eapply made_evolves; [done|]. by apply HQ. }
  apply safe_act; [by rewrite (proj1 Hw')|]. intros s sh _ _ Hsh Hs Hw. split; [by apply create_step|].
  intros w'' Hw''. destruct (create_spec ih sh Hs) as (Hinv & Hl & _). eapply made_evolves; [done|].
  apply (made_mapped _ _ (create ih sh).1); [|done..]. unfold set_cshard. cbn [c_shards].
  by rewrite list_lookup_insert_eq by by eapply lookup_lt_Some.
Qed.

Lemma safe_reads {B} (f : cstore → B) (Q : cstore → B → Prop) w :
  (∀ s w', safe_inv s → evolves s w' → Q w' (f s)) → safe Q w (reads f).
Proof.
  intros H s Hle Hinv. split; [done|]. split; [done|]. exists None, []. split; [done|]. split; [done|].
  apply carries_ret. intros w' Hw'. by apply H.
Qed.

Lemma safe_opened {A} (Q : cstore → A → Prop) w (m : prog cstore A) :
  (∀ w', safe Q w' m) → safe Q w (opened m).
Proof.
  intros H. apply (safe_bind (λ _ c, c = false)); [|by intros w' ? _ ->].
  apply safe_reads. by intros s w' (_ & _ & -> & _) _.
Qed.

Lemma safe_shard {A} (Q : cstore → A → Prop) w ih v6 (body : nat → prog cstore A) :
  InfoHash_wf ih → (∀ w' i, (i < length (c_shards w'))%nat → safe Q w' (body i)) → safe Q w (shard_of ih v6 ≫= body).
Proof.
  intros Hih H. apply (safe_bind (λ s i, (i < length (c_shards s))%nat)); [|by intros w' i _ Hi; apply H].
  apply (safe_bind (λ s o, ∃ i : nat, o = Some i ∧ (i < length (c_shards s))%nat)).
  - apply safe_reads. intros s w' (_ & Hs & _) [Hw' _]. exists (shard_no (abs s) ih v6).
    destruct (shard_no_bounds (abs s) ih v6 Hs) as [Hlt _].
    unfold shardOf. rewrite shardIndex_eq by eauto using wf_length. cbn [mbind option_bind].
    destruct (lookup_lt_is_Some_2 _ _ Hlt) as [sh Hsh]. rewrite Hsh. split; [done|]. rewrite Hw'.
    unfold abs in Hlt at 2. cbn [shards] in Hlt. by rewrite length_fmap in Hlt.
  - intros w' o _ (i & -> & Hi). apply safe_ret. intros w'' [Hl _]. by rewrite Hl.
Qed.

Lemma safe_put r w now ih p : InfoHash_wf ih → P r ih p now → safe any w (put r now ih p).
Proof.
  intros Hih HP. apply safe_opened. intros w1. apply safe_shard; [done|]. intros w2 i Hi.
  apply (safe_bind (λ s l, made s i ih l)); [by apply safe_getOrCreate|]. intros w3 l [H3 _] Hl.
  apply (safe_bind any); [by apply (safe_put_in _ _ _ ih); [rewrite H3|..]|]. intros. by apply safe_ret.
Qed.

Lemma safe_del r w ih p : InfoHash_wf ih → safe any w (del r ih p).
Proof.
  intros Hih. apply safe_opened. intros w1. apply safe_shard; [done|]. intros w2 i Hi.
  apply (safe_bind any); [by apply safe_look|]. intros w3 [l|] [H3 _] _; [|by apply safe_ret].
  apply (safe_bind any); [apply safe_del_in; by rewrite H3|]. intros. by apply safe_ret.
Qed.

Lemma safe_graduate w now ih p : InfoHash_wf ih → P Seeder ih p now → safe any w (GraduateLeecher now ih p).
Proof.
  intros Hih HP. apply safe_opened. intros w1. apply safe_shard; [done|]. intros w2 i Hi.
  apply (safe_bind (λ s l, made s i ih l)); [by apply safe_getOrCreate|]. intros w3 l H3 Hl.
  apply (safe_bind any); [apply safe_del_in; by rewrite (proj1 H3)|]. intros w4 _ H4 _.
  apply (safe_bind any); [|intros; by apply safe_ret].
  apply (safe_put_in _ _ _ ih); [by rewrite (proj1 H4), (proj1 H3)|by eapply made_evolves|done].
Qed.

Lemma safe_announce `{Shuffle} w ih forSeeder n v6 : InfoHash_wf ih → 0 ≤ n → safe any w (AnnouncePeers ih forSeeder n v6).
Proof.
  intros Hih Hn. apply safe_opened. intros w1. apply safe_shard; [done|]. intros w2 i Hi.
  apply (safe_bind any); [by apply safe_look|]. intros w3 [l|] [H3 _] _; [|by apply safe_ret].
  rewrite (proj2 (Z.ltb_ge _ _)) by (apply Z.quot_pos; lia). rewrite <-H3 in Hi.
  destruct forSeeder.
  - apply (safe_bind any); [by apply safe_look|]. intros. by apply safe_ret.
  - apply (safe_bind any); [by apply safe_look|]. intros w4 ks [H4 _] _.
    destruct (rangeFn ks n []) as [[ps n'] [|]]; [|by apply safe_ret].
    apply (safe_bind any); [apply safe_look; [by rewrite H4|done]|]. intros. by apply safe_ret.
Qed.

Lemma safe_countPeers w ih v6 : InfoHash_wf ih → safe any w (countPeers ih v6).
Proof.
  intros Hih. apply safe_shard; [done|]. intros w2 i Hi.
  apply (safe_bind any); [by apply safe_look|]. intros w3 [l|] [H3 _] _; [|by apply safe_ret]. rewrite <-H3 in Hi.
  apply (safe_bind any); [by apply safe_look|]. intros w4 a [H4 _] _. rewrite <-H4 in Hi.
  apply (safe_bind any); [by apply safe_look|]. intros. by apply safe_ret.
Qed.

Lemma safe_scrape w ih : InfoHash_wf ih → safe any w (ScrapeSwarm ih).
Proof.
  intros Hih. apply safe_opened. intros w1.
  apply (safe_bind any); [by apply safe_countPeers|]. intros w2 a _ _.
  apply (safe_bind any); [by apply safe_countPeers|]. intros. by apply safe_ret.
Qed.

(** The collector only removes. *)
Lemma safe_purge_role `{Shuffle} r cutoff w i l : (i < length (c_shards w))%nat → safe any w (purge_role r cutoff i l).
Proof.
  intros Hi. apply (safe_bind any); [by apply safe_look|]. intros w1 es [H1 _] _. rewrite <-H1 in Hi.
  apply safe_for_each. intros w2 p [H2 _]. apply safe_del_in. by rewrite H2.
Qed.

Lemma safe_gc_swarm `{Shuffle} cutoff w i ih : (i < length (c_shards w))%nat → safe any w (gc_swarm cutoff i ih).
Proof.
  intros Hi. apply (safe_bind any); [by apply safe_look|]. intros w1 [l|] [H1 _] _; [|by apply safe_ret]. rewrite <-H1 in Hi.
  apply (safe_bind any); [by apply safe_purge_role|]. intros w2 _ [H2 _] _. rewrite <-H2 in Hi.
  apply (safe_bind any); [by apply safe_purge_role|]. intros w3 _ [H3 _] _. rewrite <-H3 in Hi.
  apply (safe_bind any); [by apply safe_look|]. intros w4 n [H4 _] _. rewrite <-H4 in Hi.
  apply (safe_bind any); [by apply safe_look|]. intros w5 m [H5 _] _. rewrite <-H5 in Hi.
  destruct (Z.lor n m =? 0); [|by apply safe_ret].
  apply (safe_bind any); [|intros; by apply safe_ret].
  apply safe_act; [done|]. intros s sh _ _ _ Hs Hw. split; [by apply remove_swarm_step|done].
Qed.

Lemma safe_gc `{Shuffle} cutoff w : safe any w (gc cutoff).
Proof.
  apply (safe_bind any); [by apply safe_reads|]. intros w1 [|] _ _; [by apply safe_ret|].
  apply (safe_bind (λ s n, n = length (c_shards s))); [by apply safe_reads; intros s w' _ [-> _]|].
  intros w2 n _ ->. assert (∀ l w, (∀ i, i ∈ l → (i < length (c_shards w))%nat) → safe any w (for_each l (gc_shard cutoff))) as Hl.
  { clear. induction l as [|i l IH]; intros w Hl; [by apply safe_ret|]. cbn [for_each].
    assert (i < length (c_shards w))%nat as Hi by (apply Hl, list.elem_of_cons; by left).
    apply (safe_bind any).
    - apply (safe_bind any); [by apply safe_look|]. intros w1 ihs [H1 _] _. apply safe_for_each. intros w2 ih [H2 _].
      apply safe_gc_swarm. by rewrite H2, H1.
    - intros w1 _ [H1 _] _. apply IH. intros j Hj. rewrite H1. apply Hl, list.elem_of_cons. by right. }
  apply Hl. intros i Hi%elem_of_seq. lia.
Qed.

(** A call, or a collection. *)
Definition store_call (c : call) : Prop := match c with Write (OpGC _ _) => True | _ => client_call c end.

Lemma safe_exec w c :
  store_call c → (∀ r now ih p, EPut r now ih p ∈ effects c → P r ih p now) → safe any w (exec c).
Proof.
  assert (∀ A (m : prog cstore A) (f : A → answer), safe any w m → safe any w (a ← m; mret (f a))) as Ha.
  { intros A m f Hm. apply (safe_bind any); [done|]. intros. by apply safe_ret. }
  intros Hc HP.
  destruct c as [[now ih p|ih p|now ih p|ih p|now ih p|σ cutoff]|σ ih b n v6|ih]; cbn [exec];
    first [apply (Ha _ _ Wrote)|apply (Ha _ _ (λ _, Collected))|apply (Ha _ _ Announced)|apply (Ha _ _ Scraped)].
  - apply safe_put; [done|]. by apply HP, list_elem_of_singleton.
  - by apply safe_del.
  - apply safe_put; [done|]. by apply HP, list_elem_of_singleton.
  - by apply safe_del.
  - apply safe_graduate; [done|]. apply HP, list.elem_of_cons. right. by apply list_elem_of_singleton.
  - apply safe_gc.
  - by apply safe_announce; apply Hc.
  - by apply safe_scrape.
Qed.

Lemma within_view s r ih p t : safe_inv s → view_of s r ih !! p = Some t → P r ih p t.
Proof.
  intros (_ & _ & _ & Hw).
  assert (∀ v6, peers_at (abs s) ih v6 r !! p = Some t → P r ih p t) as H.
  { intros v6. unfold peers_at, shardOf. destruct (shardIndex (abs s) ih v6) as [i|]; [|cbn [mbind option_bind]; by rewrite lookup_empty].
    cbn [mbind option_bind]. unfold abs at 1. cbn [shards]. rewrite list_lookup_fmap.
    destruct (c_shards s !! i) as [sh|] eqn:Hi; [|cbn [fmap option_fmap option_map mbind option_bind]; by rewrite lookup_empty]. cbn [fmap option_fmap option_map mbind option_bind].
    unfold shard_view, swarm_at. rewrite lookup_abs. destruct (c_swarms sh !! ih) as [l|] eqn:Hl; cbn [fmap option_fmap option_map default].
    - apply (Forall_lookup_1 _ _ _ _ Hw Hi ih l r p t Hl).
    - by destruct r; cbn; rewrite lookup_empty. }
  unfold view_of, tview_of. intros [Hv|[_ Hv]]%lookup_union_Some_raw; eauto.
Qed.

Lemma store_within s :
  store_inv (abs s) → (∀ r ih p t, view_of s r ih !! p = Some t → P r ih p t) → Forall sh_within (c_shards s).
Proof.
  intros Hinv HP. apply Forall_lookup. intros i sh Hi ih l r p t Hl Hp. apply HP. unfold view_of.
  pose proof (inv_shards _ Hinv i (abs_shard sh) (abs_lookup _ _ _ Hi)) as Hsh. cbv zeta in Hsh.
  assert (swarms (abs_shard sh) !! ih = Some (deref sh l)) as Hsw by by rewrite lookup_abs, Hl.
  destruct (inv_swarms _ _ _ Hsh _ _ Hsw) as [Hix Hok].
  assert (Peer_Is6 p = bool_decide (half (abs s) ≤ i)%nat) as H6 by (destruct Hok, r; eauto).
  rewrite lookup_tview by done. unfold peers_at, shardOf. rewrite H6, Hix. cbn [mbind option_bind].
  rewrite (abs_lookup _ _ _ Hi). cbn [mbind option_bind]. unfold shard_view, swarm_at. by rewrite Hsw.
Qed.
End Safe.

(** ** Properties *)

(** C8: whatever way client calls and collections on the in-memory store
    interleave, at every moment: none has panicked, and every peer that a swarm
    shows, with the time of its announce, was there at the start or was put there
    at that time by one of the calls.  So a collection running beside announces can lose
    one, but it never brings a removed peer back, never moves a peer into another
    swarm or role, and never changes the time of one. *)
Theorem no_phantom_peers (cs : list call) (s s' : cstore) (ms' : list (prog cstore answer)) :
  cstore_inv s → store_inv (abs s) → Forall store_call cs →
  rtc pool_step (exec <$> cs, s) (ms', s') →
  (Panic ∉ ms') ∧
  ∀ r ih p t, view_of s' r ih !! p = Some t →
    view_of s r ih !! p = Some t ∨ ∃ c, c ∈ cs ∧ EPut r t ih p ∈ effects c.
Proof.
  intros Hs Hinv Hcs Hsteps.
  set (P r ih p t := view_of s r ih !! p = Some t ∨ ∃ c, c ∈ cs ∧ EPut r t ih p ∈ effects c).
  assert (safe_inv P s) as H0.
  { split; [done|]. split; [by apply inv_shape|]. split; [exact (inv_open _ Hinv)|].
    apply store_within; [done|]. intros r ih p t Hv. by left. }
  assert (Forall2 (λ m es, carries (safe_inv P) evolves (λ _, tt) no_effect any s m es)
    (exec <$> cs) ((λ _, []) <$> cs)) as Hms.
  { apply Forall2_fmap_2, Forall_Forall2_diag, list.Forall_forall. intros c Hc.
    apply safe_exec; [by eapply list.Forall_forall in Hcs|]. intros r now ih p He. right. by exists c. }
  destruct (pool_effects (safe_inv P) evolves (λ _, tt) _ any _ ms' s s' _ Hsteps Hms H0) as (H1 & H2 & _).
  split; [done|]. intros r ih p t Hv. by apply (within_view P s').
Qed.

(** ** A concrete run: a collection between two announces *)

Definition calls2 : list call :=
  [Write (OpGC shuffle_id 5); Write (OpPutLeecher 1 ih1 peer4); Write (OpPutSeeder 20 ih1 peer4)].
Definition end2 : pool cstore answer :=
  schedule (replicate 20 1 ++ replicate 6 0 ++ replicate 20 2 ++ replicate 40 0)%nat (exec <$> calls2, store1).

Lemma no_phantom_peers_witness :
  rtc pool_step (exec <$> calls2, store1) (end2.1, end2.2) ∧ (Panic ∉ end2.1) ∧
  view_of end2.2 Leecher ih1 = ∅ ∧ view_of end2.2 Seeder ih1 !! peer4 = Some 20 ∧
  ∃ c, c ∈ calls2 ∧ EPut Seeder 20 ih1 peer4 ∈ effects c.
Proof.
  assert (rtc pool_step (exec <$> calls2, store1) (end2.1, end2.2)) as Hr
    by (rewrite <-surjective_pairing; apply schedule_steps).
  destruct (NewStore_ok 1) as [Hs Ha].
  assert (store_inv (abs store1)) as Hinv by (unfold store1; rewrite Ha; by apply new_inv).
  destruct (no_phantom_peers calls2 store1 end2.2 end2.1 Hs Hinv ltac:(repeat constructor) Hr) as [Hp Hv].
  assert (view_of end2.2 Seeder ih1 !! peer4 = Some 20) as He
    by (apply (bool_decide_eq_true_1 _); vm_cast_no_check (eq_refl true)).
  split; [exact Hr|]. split; [exact Hp|]. split; [apply (bool_decide_eq_true_1 _); vm_cast_no_check (eq_refl true)|].
  split; [exact He|]. destruct (Hv _ _ _ _ He) as [H|H]; [|exact H].
  exfalso. assert (view_of store1 Seeder ih1 = ∅) as Hem by (apply (bool_decide_eq_true_1 _); vm_cast_no_check (eq_refl true)).
  rewrite Hem, lookup_empty in H. discriminate H.
Defined.
End MemSafe.
