(* ===== verification/Background.v ===== *)
(** * The background goroutines of the storages

    [ScheduleGC], [ScheduleStatisticsCollection] and [Close] of
    src/storage/memory, src/storage/redis and src/storage/pg: goroutines that
    select between a timer and the channel [closed], and a shutdown that waits for
    them, as a labelled step relation over the state of any of the storages; its
    infinite runs, what a fair scheduler makes of them, and the memory store as an
    instance at the end.  What [Close] waits for, the one of PostgreSQL waits for in
    a goroutine of its own: there the last step is the closing of the connection
    pool. *)

From S2P Require Import Prelude GoStd Memory.

Local Open Scope Z_scope.

(** What a goroutine waits on: a [time.Timer], armed again after each run or
    not, or a [time.Ticker]. *)
Inductive timer := Timer (reset : bool) | Ticker.
#[export] Instance timer_eq_dec : EqDecision timer.
Proof. solve_decision. Defined.

Definition fires_again (t : timer) : bool :=
  match t with Timer reset => reset | Ticker => true end.

(** What it does when the timer fires. *)
Inductive job := Collect (peerLifeTime : Z) | Report.

(** Where it is: in the [select], at work (and whether [closed] was closed when it
    began), or gone. *)
Inductive phase := Selecting | Working (began_closing : bool) | Ended.
#[export] Instance phase_eq_dec : EqDecision phase.
Proof. solve_decision. Defined.

Record worker := MkWorker {
  wk_timer : timer;
  wk_job : job;
  wk_armed : bool;              (* the timer will still expire *)
  wk_ready : bool;              (* its channel holds an expiry *)
  wk_phase : phase;
  wk_runs : nat;                (* how often the goroutine took one *)
}.

(** The moves of a goroutine: its timer expires, the [select] takes the expiry,
    the job ends (and a timer that is reset is armed again), the [select] takes
    [closed]. *)
Inductive event := Expire | Take | Finish | Stop.
#[export] Instance event_eq_dec : EqDecision event.
Proof. solve_decision. Defined.

Definition expired (w : worker) : worker :=
  MkWorker (wk_timer w) (wk_job w) (bool_decide (wk_timer w = Ticker)) true (wk_phase w) (wk_runs w).
Definition taken (closing : bool) (w : worker) : worker :=
  MkWorker (wk_timer w) (wk_job w) (wk_armed w) false (Working closing) (S (wk_runs w)).
Definition finished (w : worker) : worker :=
  MkWorker (wk_timer w) (wk_job w) (wk_armed w || fires_again (wk_timer w)) (wk_ready w) Selecting (wk_runs w).
Definition stopped (w : worker) : worker :=
  MkWorker (wk_timer w) (wk_job w) false false Ended (wk_runs w).

(** [Close]: not called, waiting for the goroutines, returned. *)
Inductive close_state := NotClosed | CloseWaits | CloseReturned.
#[export] Instance close_state_eq_dec : EqDecision close_state.
Proof. solve_decision. Defined.

Inductive label := Goroutine (i : nat) (e : event) | Method | Close | Closed.

Section Background.
Context {St : Type}.

Record store := MkStore {
  st_state : St;
  st_workers : list worker;
  st_wg : Z;
  st_close : close_state;
}.

(** [ps.wg.Add(1); go func() ...]. *)
Definition schedule (t : timer) (j : job) (s : store) : store :=
  MkStore (st_state s) (st_workers s ++ [MkWorker t j true false Selecting 0]) (st_wg s + 1) (st_close s).

Definition memory_ScheduleGC (peerLifeTime : Z) : store → store := schedule (Timer false) (Collect peerLifeTime).
Definition redis_ScheduleGC (peerLifeTime : Z) : store → store := schedule (Timer true) (Collect peerLifeTime).
Definition memory_ScheduleStatisticsCollection : store → store := schedule Ticker Report.
Definition redis_ScheduleStatisticsCollection : store → store := schedule Ticker Report.

(** Without the query of the configuration nothing is scheduled. *)
Definition pg_ScheduleGC (GCQuery : bytes) (peerLifeTime : Z) (s : store) : store :=
  if decide (GCQuery = []) then s else schedule (Timer true) (Collect peerLifeTime) s.
Definition pg_ScheduleStatisticsCollection (InfoHashCountQuery : bytes) (s : store) : store :=
  if decide (InfoHashCountQuery = []) then s else schedule Ticker Report s.

Definition new_store (st : St) : store := MkStore st [] 0 NotClosed.

(** [collect closing cutoff]: what a collection may make of the state, when it
    sees [closed] open or closed; a report only reads.  [method]: what the other
    methods may. *)
Context (collect : bool → Z → St → St → Prop) (method : St → St → Prop).

Definition work (closing : bool) (now : Z) (j : job) (st st' : St) : Prop :=
  match j with
  | Collect peerLifeTime => collect closing (now - peerLifeTime) st st'
  | Report => st' = st
  end.

Definition closing (s : store) : bool := bool_decide (st_close s ≠ NotClosed).

(** One goroutine, with [c]: [closed] is closed.  A job looks at [closed] at some
    moment between its beginning and its end. *)
Inductive move (c : bool) : event → worker → St → worker → St → Prop :=
  | move_expire w st :
      wk_armed w = true → wk_phase w ≠ Ended → move c Expire w st (expired w) st
  | move_take w st :
      wk_phase w = Selecting → wk_ready w = true → move c Take w st (taken c w) st
  | move_finish w st (c0 c1 : bool) now st' :
      wk_phase w = Working c0 → (c0 → c1) → (c1 → c) → work c1 now (wk_job w) st st' →
      move c Finish w st (finished w) st'
  | move_stop w st :
      wk_phase w = Selecting → c = true → move c Stop w st (stopped w) st.

(** [defer ps.wg.Done()]. *)
Definition done_of (e : event) : Z := if decide (e = Stop) then 1 else 0.

Inductive step : label → store → store → Prop :=
  | step_goroutine s i e w w' st' :
      st_workers s !! i = Some w → move (closing s) e w (st_state s) w' st' →
      step (Goroutine i e) s (MkStore st' (<[i := w']> (st_workers s)) (st_wg s - done_of e) (st_close s))
  | step_method s st' :
      method (st_state s) st' → step Method s (MkStore st' (st_workers s) (st_wg s) (st_close s))
  (* [Close], once *)
  | step_close s :
      st_close s = NotClosed → step Close s (MkStore (st_state s) (st_workers s) (st_wg s) CloseWaits)
  | step_closed s :
      st_close s = CloseWaits → st_wg s = 0 → step Closed s (MkStore (st_state s) (st_workers s) (st_wg s) CloseReturned).

(** ** Infinite runs

    [ρ n] is the state at time [n] and [τ n] what happens then, if anything does.
    A label is treated weakly fairly when again and again it is taken or not
    possible, strongly fairly when it is taken again and again unless it is
    impossible from some time on. *)
Definition run (ρ : nat → store) (τ : nat → option label) : Prop :=
  ∀ n, match τ n with Some l => step l (ρ n) (ρ (S n)) | None => ρ (S n) = ρ n end.

Definition enabled (l : label) (s : store) : Prop := ∃ s', step l s s'.

Definition weakly_fair (l : label) (ρ : nat → store) (τ : nat → option label) : Prop :=
  ∀ n, ∃ m, (n ≤ m)%nat ∧ (τ m = Some l ∨ ¬ enabled l (ρ m)).
Definition strongly_fair (l : label) (ρ : nat → store) (τ : nat → option label) : Prop :=
  ∀ n, ∃ m, (n ≤ m)%nat ∧ (τ m = Some l ∨ ∀ k, (m ≤ k)%nat → ¬ enabled l (ρ k)).

(** What Go's runtime gives: timers expire, goroutines that can go on do, a job
    that was begun ends, and a [select] with several ready cases, which takes one
    of them at random, does not pass over [closed] forever. *)
Record fair (ρ : nat → store) (τ : nat → option label) : Prop := {
  fair_expire i : weakly_fair (Goroutine i Expire) ρ τ;
  fair_take i : weakly_fair (Goroutine i Take) ρ τ;
  fair_finish i : weakly_fair (Goroutine i Finish) ρ τ;
  fair_stop i : strongly_fair (Goroutine i Stop) ρ τ;
  fair_closed : weakly_fair Closed ρ τ;
}.

(** ** Invariant *)

Definition ended (w : worker) : Prop := wk_phase w = Ended.
#[export] Instance ended_dec : ∀ w, Decision (ended w).
Proof. unfold ended. apply _. Defined.

Definition running (w : worker) : nat := if decide (ended w) then 0 else 1.

(** A timer that is not reset expires once: it is armed, or its expiry waits, or it
    was taken.  One that is has an expiry coming while its goroutine selects. *)
Record worker_inv (c : bool) (w : worker) : Prop := {
  wi_once : fires_again (wk_timer w) = false →
    (wk_runs w + Nat.b2n (wk_armed w) + Nat.b2n (wk_ready w) ≤ 1)%nat ∧
    (¬ ended w → 1 ≤ wk_runs w + Nat.b2n (wk_armed w) + Nat.b2n (wk_ready w))%nat;
  wi_again : fires_again (wk_timer w) = true → wk_phase w = Selecting → wk_armed w = true ∨ wk_ready w = true;
  wi_ended : ended w → c = true;
  wi_began : wk_phase w = Working true → c = true;
  wi_idle b : wk_phase w = Working b → (1 ≤ wk_runs w)%nat;
}.

Record inv (s : store) : Prop := {
  inv_wg : st_wg s = Z.of_nat (sum_list_with running (st_workers s));
  inv_returned : st_close s = CloseReturned → st_wg s = 0;
  inv_workers : Forall (worker_inv (closing s)) (st_workers s);
}.

Lemma running_insert ws i w w' :
  ws !! i = Some w →
  (sum_list_with running (<[i := w']> ws) + running w = sum_list_with running ws + running w')%nat.
Proof.
  intros (ws1 & ws2 & -> & ->)%list_elem_of_split_length.
  rewrite insert_app_r_alt, Nat.sub_diag by done. cbn [insert list_insert].
  rewrite !sum_list_with_app. cbn [sum_list_with]. lia.
Qed.

Lemma running_zero ws : sum_list_with running ws = 0%nat ↔ Forall ended ws.
Proof.
  induction ws as [|w ws IH]; cbn [sum_list_with]; [by split; [constructor|]|].
  rewrite list.Forall_cons, <- IH. unfold running at 1. destruct (decide (ended w)); split; intros H; try lia; try tauto.
Qed.

Lemma inv_all_ended s : inv s → st_wg s = 0 ↔ Forall ended (st_workers s).
Proof. intros Hi. rewrite <- running_zero, (inv_wg _ Hi). lia. Qed.

Lemma worker_inv_mono (c c' : bool) w : (c → c') → worker_inv c w → worker_inv c' w.
Proof.
  intros Hc [H1 H2 H3 H4 H5]. split; [done|done| | |done]; intros H; apply Is_true_true, Hc, Is_true_true; auto.
Qed.

Lemma move_inv c e w st w' st' : move c e w st w' st' → worker_inv c w → worker_inv c w'.
Proof.
  intros Hm [H1 H2 H3 H4 H0]. unfold ended in *.
  destruct Hm as [w st Ha Hp|w st Hp Hr|w st c0 c1 now st' Hp H01 H1c Hw|w st Hp Hc];
    split; unfold ended; cbn [expired taken finished stopped wk_timer wk_phase wk_armed wk_ready wk_runs];
    intros Hf; try done; try intros Hf'; try done; try (destruct (H1 Hf) as [H5 H6]; clear H1).
  - rewrite bool_decide_eq_false_2 by (intros E; by rewrite E in Hf). rewrite Ha in *.
    specialize (H6 Hp). cbn [Nat.b2n] in *. destruct (wk_ready w); cbn [Nat.b2n] in *; split; intros; lia.
  - by right.
  - by apply H4.
  - by eapply H0.
  - rewrite Hr in *. cbn [Nat.b2n] in *. split; intros; lia.
  - by injection Hf as ->.
  - lia.
  - rewrite Hf, orb_false_r. split; [done|]. intros _. apply H6. by rewrite Hp.
  - left. rewrite Hf. apply orb_true_r.
  - cbn [Nat.b2n]. split; [lia|done].
Qed.

Lemma move_running c e w st w' st' :
  move c e w st w' st' → (Z.of_nat (running w') = Z.of_nat (running w) - done_of e).
Proof.
  intros Hm. unfold running, done_of, ended.
  destruct Hm as [w st Ha Hp|w st Hp Hr|w st c0 c1 now st' Hp H01 H1c Hw|w st Hp Hc];
    cbn [expired taken finished stopped wk_phase]; repeat case_decide; try congruence; try done; lia.
Qed.

Lemma step_closing l s s' : step l s s' → closing s → closing s'.
Proof.
  unfold closing. rewrite !bool_decide_spec. intros Hs. by destruct Hs; cbn [st_close]; intros.
Qed.

Lemma bg_step_inv l s s' : inv s → step l s s' → inv s'.
Proof.
  intros [Hw Hr Hws] Hs. pose proof (step_closing _ _ _ Hs) as Hc.
  assert (Forall (worker_inv (closing s')) (st_workers s)) as Hws'
    by (eapply list.Forall_impl; [exact Hws|]; intros w; by apply worker_inv_mono).
  destruct Hs as [s i e w w' st' Hi Hm|s st' _|s Hcl|s Hcl Hz];
    split; cbn [st_wg st_workers st_close] in *; try done; try congruence.
  - pose proof (running_insert _ _ _ w' Hi). pose proof (move_running _ _ _ _ _ _ Hm). lia.
  - intros E. specialize (Hr E). exfalso.
    assert (Forall ended (st_workers s)) as He by (apply running_zero; lia).
    pose proof (Forall_lookup_1 _ _ _ _ He Hi) as He'. unfold ended in He'. destruct Hm; congruence.
  - apply Forall_insert; [done|]. eapply move_inv; [exact Hm|]. by eapply Forall_lookup_1.
Qed.

Lemma schedule_inv t j s : st_close s = NotClosed → inv s → inv (schedule t j s).
Proof.
  intros Hc [Hw Hr Hws]. split; cbn [schedule st_wg st_workers st_close].
  - rewrite sum_list_with_app, Hw. cbn [sum_list_with]. replace (running _) with 1%nat by done. lia.
  - congruence.
  - apply list.Forall_app. split; [done|]. repeat constructor; cbn; try done; lia.
Qed.

Lemma new_store_inv st : inv (new_store st).
Proof. by split; [|by intros|constructor]. Qed.

(** What a step does to one goroutine. *)
Lemma step_at l s s' i w :
  step l s s' → st_workers s !! i = Some w →
  ∃ w', st_workers s' !! i = Some w' ∧
    ((w' = w ∧ ∀ e, l ≠ Goroutine i e) ∨
     ∃ e st', l = Goroutine i e ∧ move (closing s) e w (st_state s) w' st').
Proof.
  intros Hs Hi. destruct Hs as [s j e v v' st' Hj Hm|s st' _|s _|s _ _]; cbn [st_workers];
    try (exists w; split; [done|]; left; by split).
  destruct (decide (i = j)) as [->|Hne].
  - simplify_eq. exists v'. rewrite list_lookup_insert_eq by by eapply lookup_lt_Some. split; [done|]. right. eauto.
  - exists w. rewrite list_lookup_insert_ne by done. split; [done|]. left. split; [done|]. intros e' [=]. congruence.
Qed.

Lemma step_timer l s s' i w :
  step l s s' → st_workers s !! i = Some w →
  ∃ w', st_workers s' !! i = Some w' ∧ wk_timer w' = wk_timer w ∧ (wk_runs w ≤ wk_runs w')%nat.
Proof.
  intros Hs Hi. destruct (step_at _ _ _ _ _ Hs Hi) as (w' & Hi' & [[-> _]|(e & st' & _ & Hm)]).
  - eauto.
  - exists w'. split; [done|]. destruct Hm; cbn; auto.
Qed.

(** ** Runs *)

Section runs.
Context (ρ : nat → store) (τ : nat → option label).
Context (Hrun : run ρ τ) (Hfair : fair ρ τ) (Hinv : inv (ρ 0%nat)).

Lemma run_step n : ρ (S n) = ρ n ∨ ∃ l, τ n = Some l ∧ step l (ρ n) (ρ (S n)).
Proof. specialize (Hrun n). destruct (τ n) as [l|]; [right; eauto|by left]. Qed.

Lemma run_inv n : inv (ρ n).
Proof.
  induction n as [|n IH]; [done|].
  destruct (run_step n) as [->|(l & _ & Hs)]; [done|]. eapply bg_step_inv; eauto.
Qed.

(** What every step keeps stays. *)
Lemma stays (Q : store → Prop) :
  (∀ k, Q (ρ k) → Q (ρ (S k))) → ∀ n m, (n ≤ m)%nat → Q (ρ n) → Q (ρ m).
Proof. intros HQ n m Hle Hn. induction Hle as [|m Hle IH]; auto. Qed.

(** The proof rule of fairness: what stays until it turns into something lasting,
    and is turned by [l], which it makes possible. *)
Lemma leads_to l (P Q : store → Prop) :
  weakly_fair l ρ τ →
  (∀ k, P (ρ k) → P (ρ (S k)) ∨ Q (ρ (S k))) → (∀ k, P (ρ k) → τ k = Some l → Q (ρ (S k))) →
  (∀ k, P (ρ k) → enabled l (ρ k)) → (∀ k, Q (ρ k) → Q (ρ (S k))) →
  ∀ n, P (ρ n) → ∃ m, (n ≤ m)%nat ∧ Q (ρ m).
Proof.
  intros Hf Hstay Hl He HQ n HP. destruct (Hf n) as (m & Hle & Hm).
  assert (P (ρ m) ∨ Q (ρ m)) as [HPm|HQm].
  { apply (stays (λ s, P s ∨ Q s) ltac:(intros k [?|?]; auto) n); auto. }
  - destruct Hm as [Ht|Hn]; [|by destruct Hn; auto]. exists (S m). auto with arith.
  - eauto.
Qed.

Lemma closing_stays n m : (n ≤ m)%nat → closing (ρ n) → closing (ρ m).
Proof.
  apply (stays closing). intros k Hk.
  destruct (run_step k) as [->|(l & _ & Hs)]; [done|]. eapply step_closing; eauto.
Qed.

Lemma worker_stays i w n m :
  (n ≤ m)%nat → st_workers (ρ n) !! i = Some w →
  ∃ w', st_workers (ρ m) !! i = Some w' ∧ wk_timer w' = wk_timer w ∧ (wk_runs w ≤ wk_runs w')%nat.
Proof.
  intros Hle Hi.
  refine (stays (λ s, ∃ w', st_workers s !! i = Some w' ∧ wk_timer w' = wk_timer w ∧ (wk_runs w ≤ wk_runs w')%nat)
            _ n m Hle _); [|by exists w].
  intros k (v & Hv & Ht & Hr). destruct (run_step k) as [->|(l & _ & Hs)]; [eauto|].
  destruct (step_timer _ _ _ _ _ Hs Hv) as (v' & Hv' & Ht' & Hr'). exists v'. split; [done|]. split; [congruence|lia].
Qed.

(** Something holds of goroutine [i]. *)
Definition at_ (i : nat) (φ : worker → Prop) (s : store) : Prop := ∃ w, st_workers s !! i = Some w ∧ φ w.

Lemma at_step i (φ ψ : worker → Prop) k :
  at_ i φ (ρ k) →
  (∀ w, φ w → ψ w) →
  (∀ e w st w' st', φ w → move (closing (ρ k)) e w st w' st' → ψ w') →
  at_ i ψ (ρ (S k)).
Proof.
  intros (w & Hi & Hw) Hsame Hmove. destruct (run_step k) as [->|(l & _ & Hs)]; [by exists w; auto|].
  destruct (step_at _ _ _ _ _ Hs Hi) as (w' & Hi' & [[-> _]|(e & st' & _ & Hm)]); [exists w|exists w']; eauto.
Qed.

Lemma ended_stays i k : at_ i ended (ρ k) → at_ i ended (ρ (S k)).
Proof.
  intros H. apply (at_step i ended ended k H); [done|]. unfold ended. intros e w st w' st' He Hm. destruct Hm; congruence.
Qed.

Lemma length_stays n m : (n ≤ m)%nat → length (st_workers (ρ m)) = length (st_workers (ρ n)).
Proof.
  intros Hle. apply (stays (λ s, length (st_workers s) = length (st_workers (ρ n))) ) with (n := n); [|done|done].
  intros k <-. destruct (run_step k) as [->|(l & _ & Hs)]; [done|].
  destruct Hs; cbn [st_workers]; rewrite ?length_insert; done.
Qed.

Lemma worker_at i k : (i < length (st_workers (ρ k)))%nat → ∃ w, st_workers (ρ k) !! i = Some w ∧ worker_inv (closing (ρ k)) w.
Proof.
  intros (w & Hi)%lookup_lt_is_Some_2. exists w. split; [done|]. eapply Forall_lookup_1; [apply run_inv|done].
Qed.

(** ** A job that was begun ends *)

Context (Hcollect : ∀ c cutoff st, ∃ st', collect c cutoff st st').

Lemma finish_enabled i w b k :
  st_workers (ρ k) !! i = Some w → wk_phase w = Working b → enabled (Goroutine i Finish) (ρ k).
Proof.
  intros Hi Hp. destruct (Forall_lookup_1 _ _ _ _ (inv_workers _ (run_inv k)) Hi) as [_ _ _ Hb _].
  assert (∃ st', work b 0 (wk_job w) (st_state (ρ k)) st') as [st' Hw] by (unfold work; destruct (wk_job w); eauto).
  eexists. apply (step_goroutine _ i Finish w (finished w) st' Hi). apply (move_finish _ _ _ b b 0); [done|done| |done].
  intros H. apply Is_true_true, Hb. by destruct b.
Qed.

Lemma selects i n :
  (i < length (st_workers (ρ n)))%nat →
  ∃ m w, (n ≤ m)%nat ∧ st_workers (ρ m) !! i = Some w ∧ (wk_phase w = Selecting ∨ ended w).
Proof.
  intros Hi. destruct (fair_finish _ _ Hfair i n) as (m & Hle & Hm).
  rewrite <- (length_stays n m Hle) in Hi. destruct (worker_at i m Hi) as (w & Hw & _).
  destruct (wk_phase w) as [|b|] eqn:Hp; [exists m, w; auto| |exists m, w; unfold ended; auto].
  destruct Hm as [Ht|Hn]; [|by destruct Hn; eapply finish_enabled].
  specialize (Hrun m). rewrite Ht in Hrun. destruct (step_at _ _ _ _ _ Hrun Hw) as (w' & Hw' & [[_ Hl]|(e & st' & [= <-] & Hmv)]).
  - by destruct (Hl Finish).
  - exists (S m), w'. split; [lia|]. split; [done|]. left. by inversion Hmv.
Qed.

(** ** Once [closed] is closed every goroutine ends *)

Lemma ends i n :
  closing (ρ n) → (i < length (st_workers (ρ n)))%nat → ∃ m, (n ≤ m)%nat ∧ at_ i ended (ρ m).
Proof.
  intros Hc Hi. destruct (fair_stop _ _ Hfair i n) as (m & Hle & [Ht|Hn]).
  - rewrite <- (length_stays n m Hle) in Hi. destruct (worker_at i m Hi) as (w & Hw & _).
    specialize (Hrun m). rewrite Ht in Hrun. destruct (step_at _ _ _ _ _ Hrun Hw) as (w' & Hw' & [[_ Hl]|(e & st' & [= <-] & Hmv)]).
    + by destruct (Hl Stop).
    + exists (S m). split; [lia|]. exists w'. split; [done|]. by inversion Hmv.
  - rewrite <- (length_stays n m Hle) in Hi. destruct (selects i m Hi) as (k & w & Hmk & Hw & [Hp|He]).
    + destruct (Hn k Hmk). eexists. apply (step_goroutine _ i Stop w (stopped w) (st_state (ρ k)) Hw). apply move_stop; [done|].
      apply Is_true_true, (closing_stays n k); [lia|done].
    + exists k. split; [lia|]. by exists w.
Qed.

Lemma all_end n : closing (ρ n) → ∃ m, (n ≤ m)%nat ∧ Forall ended (st_workers (ρ m)).
Proof.
  intros Hc.
  assert (∀ j, (j ≤ length (st_workers (ρ n)))%nat → ∃ m, (n ≤ m)%nat ∧ ∀ i, (i < j)%nat → at_ i ended (ρ m)) as H.
  { induction j as [|j IH]; intros Hj; [exists n; split; [done|lia]|].
    destruct (IH ltac:(lia)) as (m & Hle & Hm).
    destruct (ends j m) as (m' & Hle' & Hm'); [by apply (closing_stays n)|rewrite (length_stays n m Hle); lia|].
    exists m'. split; [lia|]. intros i Hi. destruct (decide (i = j)) as [->|]; [done|].
    apply (stays (at_ i ended) ltac:(intros k; apply ended_stays) m m' Hle'), Hm. lia. }
  destruct (H _ (le_n _)) as (m & Hle & Hm). exists m. split; [done|]. apply Forall_lookup_2. intros i w Hw.
  destruct (Hm i) as (w' & Hw' & He); [|by simplify_eq].
  rewrite <- (length_stays n m Hle). by eapply lookup_lt_Some.
Qed.

Lemma ended_step l s s' : Forall ended (st_workers s) → step l s s' → ∀ i e, l ≠ Goroutine i e.
Proof.
  intros He Hs. destruct Hs as [s j e' w w' st' Hj Hm|s st' _|s _|s _ _]; try done.
  pose proof (Forall_lookup_1 _ _ _ _ He Hj) as Hw. unfold ended in Hw. destruct Hm; congruence.
Qed.

Lemma close_ends n : closing (ρ n) → ∃ m, (n ≤ m)%nat ∧ st_close (ρ m) = CloseReturned.
Proof.
  intros Hc. destruct (all_end n Hc) as (k & Hle & Hk).
  assert (∀ j, st_close (ρ j) = CloseReturned → st_close (ρ (S j)) = CloseReturned) as Hr.
  { intros j Hj. destruct (run_step j) as [->|(l & _ & Hs)]; [done|]. revert Hj. by destruct Hs; cbn [st_close]; congruence. }
  destruct (st_close (ρ k)) eqn:Ek; [| |by exists k].
  { pose proof (closing_stays n k Hle Hc) as H. unfold closing in H. by rewrite Ek in H. }
  destruct (leads_to Closed (λ s, st_close s = CloseWaits ∧ Forall ended (st_workers s)) (λ s, st_close s = CloseReturned)
              (fair_closed _ _ Hfair)) with (n := k) as (m & Hkm & Hm).
  - intros j [Hj He]. destruct (run_step j) as [->|(l & _ & Hs)]; [auto|]. pose proof (ended_step _ _ _ He Hs) as Hne.
    revert Hj He. destruct Hs as [s i e w w' st' _ _|s st' _|s Hcl|s _ _]; intros Hj He; cbn [st_close st_workers]; [by destruct (Hne i e)|auto|congruence|auto].
  - intros j _ Ht. specialize (Hrun j). rewrite Ht in Hrun. by inversion Hrun.
  - intros j [Hj He]. eexists. apply step_closed; [done|]. apply inv_all_ended; [apply run_inv|done].
  - exact Hr.
  - done.
  - exists m. split; [lia|done].
Qed.

(** ** Until then the jobs whose timer is reset are done again and again *)

Context (Hopen : ∀ n, st_close (ρ n) = NotClosed).

Lemma open_closing n : closing (ρ n) = false.
Proof. unfold closing. by rewrite Hopen. Qed.

(** [leads_to] for one goroutine. *)
Lemma worker_leads_to i e (φ ψ : worker → Prop) n :
  weakly_fair (Goroutine i e) ρ τ →
  (∀ e' w st w' st', φ w → move false e' w st w' st' → φ w' ∨ ψ w') →
  (∀ w st w' st', φ w → move false e w st w' st' → ψ w') →
  (∀ w st, φ w → ∃ w' st', move false e w st w' st') →
  (∀ e' w st w' st', ψ w → move false e' w st w' st' → ψ w') →
  at_ i φ (ρ n) → ∃ m, (n ≤ m)%nat ∧ at_ i ψ (ρ m).
Proof.
  intros Hf Hstay He Hen Hlast. apply (leads_to _ (at_ i φ) (at_ i ψ) Hf).
  - intros k Hk. destruct (at_step i φ (λ w, φ w ∨ ψ w) k Hk) as (w & Hw & [?|?]); [auto| |left; by exists w|right; by exists w].
    intros e' w st w' st'. rewrite open_closing. apply Hstay.
  - intros k (w & Hw & Hφ) Ht. specialize (Hrun k). rewrite Ht in Hrun.
    destruct (step_at _ _ _ _ _ Hrun Hw) as (w' & Hw' & [[_ Hl]|(e' & st' & [= <-] & Hm)]); [by destruct (Hl e)|].
    exists w'. split; [done|]. rewrite open_closing in Hm. eauto.
  - intros k (w & Hw & Hφ). destruct (Hen w (st_state (ρ k)) Hφ) as (w' & st' & Hm).
    eexists. apply (step_goroutine _ i e w w' st' Hw). by rewrite open_closing.
  - intros k Hk. apply (at_step i ψ ψ k Hk); [done|]. intros e' w st w' st'. rewrite open_closing. apply Hlast.
Qed.

(** A timer that is armed or has expired is taken. *)
Lemma takes i c n :
  at_ i (λ w, wk_phase w = Selecting ∧ (wk_armed w = true ∨ wk_ready w = true) ∧ (c ≤ wk_runs w)%nat) (ρ n) →
  ∃ m, (n ≤ m)%nat ∧ at_ i (λ w, c < wk_runs w)%nat (ρ m).
Proof.
  assert (∀ e w st w' st', (c < wk_runs w)%nat → move false e w st w' st' → (c < wk_runs w')%nat) as Hlast
    by (intros e w st w' st' Hlt Hm; destruct Hm; cbn [expired taken finished stopped wk_runs]; lia).
  assert (∀ k, at_ i (λ w, wk_phase w = Selecting ∧ wk_ready w = true ∧ (c ≤ wk_runs w)%nat ∨ (c < wk_runs w)%nat) (ρ k) →
               ∃ m, (k ≤ m)%nat ∧ at_ i (λ w, c < wk_runs w)%nat (ρ m)) as Hready.
  { intros k (w & Hw & [Hs|Hlt]); [|by exists k; split; [|exists w]].
    apply (worker_leads_to i Take (λ w, wk_phase w = Selecting ∧ wk_ready w = true ∧ (c ≤ wk_runs w)%nat) _ k);
      [apply Hfair|..|exact Hlast|by exists w].
    - intros e v st v' st' (Hp & Hr & Hle) Hm. destruct Hm; cbn; try congruence; [by left|right; lia].
    - intros v st v' st' (Hp & Hr & Hle) Hm. inversion Hm; subst; cbn; lia.
    - intros v st (Hp & Hr & Hle). do 2 eexists. by apply move_take. }
  intros (w & Hw & Hp & [Ha|Hr] & Hle); [|apply Hready; exists w; auto].
  destruct (worker_leads_to i Expire (λ w, wk_phase w = Selecting ∧ wk_armed w = true ∧ (c ≤ wk_runs w)%nat)
              (λ w, wk_phase w = Selecting ∧ wk_ready w = true ∧ (c ≤ wk_runs w)%nat ∨ (c < wk_runs w)%nat) n)
    as (m & Hnm & Hm); [apply Hfair|..|by exists w|].
  - intros e v st v' st' (Hp' & Hr & Hle') Hm. destruct Hm; cbn; try congruence; right; [by left|right; lia].
  - intros v st v' st' (Hp' & Hr & Hle') Hm. inversion Hm; subst; cbn. by left.
  - intros v st (Hp' & Hr & Hle'). do 2 eexists. apply move_expire; congruence.
  - intros e v st v' st' [(Hp' & Hr & Hle')|Hlt] Hm; [|right; eauto].
    destruct Hm; cbn; try congruence; [by left|right; lia].
  - destruct (Hready m Hm) as (k & ? & ?). exists k. split; [lia|done].
Qed.

(** How many jobs are over. *)
Definition completed (w : worker) : nat :=
  match wk_phase w with Working _ => pred (wk_runs w) | _ => wk_runs w end.

Lemma completed_move c c' e w st w' st' : (c < completed w)%nat → move c' e w st w' st' → (c < completed w')%nat.
Proof.
  unfold completed. intros Hlt Hm. destruct Hm as [v st _ _|v st Hp' _|v st b c1 now st' Hp' _ _ _|v st Hp' _]; cbn in *;
    rewrite ?Hp' in *; try done; lia.
Qed.

(** A job that was begun ends. *)
Lemma completes i c n :
  at_ i (λ w, c < wk_runs w)%nat (ρ n) → ∃ m, (n ≤ m)%nat ∧ at_ i (λ w, c < completed w)%nat (ρ m).
Proof.
  intros (w & Hw & Hlt). destruct (Forall_lookup_1 _ _ _ _ (inv_workers _ (run_inv n)) Hw) as [_ _ _ Hb _].
  rewrite open_closing in Hb. unfold completed.
  destruct (wk_phase w) as [|[]|] eqn:Hp; [exists n|specialize (Hb eq_refl); congruence| |exists n];
    try (split; [done|]; exists w; by rewrite Hp).
  apply (worker_leads_to i Finish (λ w, wk_phase w = Working false ∧ (c < wk_runs w)%nat) _ n);
    [apply Hfair|..|by exists w].
  - intros e v st v' st' [Hp' Hlt'] Hm. destruct Hm; cbn; try congruence; [by left|by right].
  - intros v st v' st' [Hp' Hlt'] Hm. inversion Hm; subst; cbn. done.
  - intros v st [Hp' Hlt']. assert (∃ st', work false 0 (wk_job v) st st') as [st' Hwork] by (unfold work; destruct (wk_job v); eauto).
    do 2 eexists. by apply (move_finish _ _ _ false false 0).
  - intros e v st v' st'. apply completed_move.
Qed.

Lemma selecting_due i n :
  (i < length (st_workers (ρ n)))%nat →
  ∃ m w, (n ≤ m)%nat ∧ st_workers (ρ m) !! i = Some w ∧ wk_phase w = Selecting ∧ worker_inv false w.
Proof.
  intros Hi. destruct (selects i n Hi) as (m & w & Hle & Hw & Hp).
  pose proof (Forall_lookup_1 _ _ _ _ (inv_workers _ (run_inv m)) Hw) as Hwi. rewrite open_closing in Hwi.
  exists m, w. split; [done|]. split; [done|]. split; [|done]. destruct Hp as [?|He]; [done|]. by pose proof (wi_ended _ _ Hwi He).
Qed.

Lemma again i n w :
  st_workers (ρ n) !! i = Some w → fires_again (wk_timer w) = true → ∀ c, ∃ m, (n ≤ m)%nat ∧ at_ i (λ v, c ≤ completed v)%nat (ρ m).
Proof.
  intros Hw Ht. induction c as [|c (m & Hle & v & Hv & Hc)]; [exists n; split; [done|]; exists w; split; [done|lia]|].
  destruct (selecting_due i m) as (k & u & Hmk & Hu & Hp & Hwi); [by eapply lookup_lt_Some|].
  destruct (worker_stays i w n k ltac:(lia) Hw) as (u1 & Hu1 & Ht1 & _).
  destruct (worker_stays i v m k ltac:(lia) Hv) as (u2 & Hu2 & _ & Hr). simplify_eq.
  assert (c ≤ wk_runs u)%nat as Hcu by (unfold completed in Hc; destruct (wk_phase v); lia).
  destruct (takes i c k) as (k1 & Hk1 & H1); [exists u; split; [done|]|].
  { split; [done|]. split; [|done]. apply (wi_again _ _ Hwi); [congruence|done]. }
  destruct (completes i c k1 H1) as (k2 & Hk2 & H2). exists k2. split; [lia|]. exact H2.
Qed.

Lemma at_most_once i w : st_workers (ρ 0%nat) !! i = Some w → fires_again (wk_timer w) = false →
  ∀ n, at_ i (λ v, wk_runs v ≤ 1 ∧ completed v ≤ wk_runs v)%nat (ρ n).
Proof.
  intros Hw Ht n. destruct (worker_stays i w 0 n ltac:(lia) Hw) as (v & Hv & Htv & _). exists v. split; [done|].
  destruct (wi_once _ _ (Forall_lookup_1 _ _ _ _ (inv_workers _ (run_inv n)) Hv) ltac:(congruence)) as [H _].
  unfold completed. destruct (wk_phase v); lia.
Qed.

Lemma once i w : st_workers (ρ 0%nat) !! i = Some w → fires_again (wk_timer w) = false →
  ∃ n, at_ i (λ v, 0 < completed v)%nat (ρ n).
Proof.
  intros Hw Ht. destruct (selecting_due i 0) as (k & u & _ & Hu & Hp & Hwi); [by eapply lookup_lt_Some|].
  destruct (worker_stays i w 0 k ltac:(lia) Hw) as (u1 & Hu1 & Ht1 & _). simplify_eq.
  destruct (wi_once _ _ Hwi ltac:(congruence)) as [_ Hone]. specialize (Hone ltac:(unfold ended; by rewrite Hp)).
  assert (∃ m, at_ i (λ v, 0 < wk_runs v)%nat (ρ m)) as (m & Hm).
  { destruct (decide (0 < wk_runs u)%nat) as [?|Hz]; [by exists k, u|].
    destruct (takes i 0 k) as (m & _ & Hm); [|eauto]. exists u. split; [done|]. split; [done|]. split; [|lia].
    destruct (wk_armed u), (wk_ready u); auto. cbn in Hone. lia. }
  destruct (completes i 0 m Hm) as (m' & _ & Hm'). eauto.
Qed.
End runs.

(** ** Properties *)

(** C37: once [Close] is called it returns, in every fair run of a storage whose
    collections end: each goroutine comes back to its [select], takes [closed] and
    is waited for, however often the timers expire meanwhile; and once it has
    returned no goroutine is left, and the state changes only by the methods that
    clients still call. *)
Theorem close_quiesces (ρ : nat → store) (τ : nat → option label) (n : nat) :
  inv (ρ 0%nat) → run ρ τ → fair ρ τ → (∀ c cutoff st, ∃ st', collect c cutoff st st') →
  st_close (ρ n) ≠ NotClosed →
  (∃ m, (n ≤ m)%nat ∧ st_close (ρ m) = CloseReturned) ∧
  (∀ k, st_close (ρ k) = CloseReturned →
     Forall ended (st_workers (ρ k)) ∧ st_close (ρ (S k)) = CloseReturned ∧ st_workers (ρ (S k)) = st_workers (ρ k) ∧
     (ρ (S k) = ρ k ∨ method (st_state (ρ k)) (st_state (ρ (S k))))).
Proof.
  intros Hinv Hrun Hfair Hcollect Hn. split.
  - apply (close_ends ρ τ Hrun Hfair Hinv Hcollect). by apply bool_decide_spec.
  - intros k Hk. pose proof (run_inv ρ τ Hrun Hinv k) as Hi.
    pose proof (proj1 (inv_all_ended _ Hi) (inv_returned _ Hi Hk)) as He. split; [done|].
    destruct (run_step ρ τ Hrun k) as [->|(l & _ & Hs)]; [auto|].
    pose proof (ended_step _ _ _ He Hs) as Hne. revert Hk.
    destruct Hs as [s i e w w' st' _ _|s st' Hm|s Hc|s Hc _]; intros Hk; cbn [st_close st_workers st_state];
      [by destruct (Hne i e)|auto|congruence|congruence].
Qed.

(** C38: as long as a storage is open, in every fair run, a job whose timer is reset
    or ticks (the collections of Redis and PostgreSQL, all reports) is done again
    and again; one whose timer is not (the collections of memory) is done once, and
    never after. *)
Theorem collections_recur (ρ : nat → store) (τ : nat → option label) (i : nat) (w : worker) :
  inv (ρ 0%nat) → run ρ τ → fair ρ τ → (∀ c cutoff st, ∃ st', collect c cutoff st st') →
  (∀ n, st_close (ρ n) = NotClosed) → st_workers (ρ 0%nat) !! i = Some w →
  if fires_again (wk_timer w) then ∀ c, ∃ n, at_ i (λ v, c ≤ completed v)%nat (ρ n)
  else ∃ n, ∀ m, (n ≤ m)%nat → at_ i (λ v, wk_runs v = 1 ∧ completed v = 1)%nat (ρ m).
Proof.
  intros Hinv Hrun Hfair Hcollect Hopen Hw. destruct (fires_again (wk_timer w)) eqn:Ht.
  - intros c. destruct (again ρ τ Hrun Hfair Hinv Hcollect Hopen i 0 w Hw Ht c) as (m & _ & Hm). eauto.
  - destruct (once ρ τ Hrun Hfair Hinv Hcollect Hopen i w Hw Ht) as (n & Hn). exists n. intros m Hle.
    assert (at_ i (λ v, 0 < completed v)%nat (ρ m)) as (v & Hv & Hc).
    { revert Hn. apply (stays ρ (at_ i _)); [|done]. intros k Hk. apply (at_step ρ τ Hrun i _ _ k Hk); [done|].
      intros e u st u' st'. apply completed_move. }
    destruct (at_most_once ρ τ Hrun Hinv i w Hw Ht m) as (v' & Hv' & H1). simplify_eq. exists v. split; [done|lia].
Qed.
End Background.

(** ** The memory store, closed after one collection *)

(** [gc] returns at once on a store that is being closed. *)
Definition memory_collect (closing : bool) (cutoff : Z) (ps ps' : MemStore.peerStore) : Prop :=
  if closing then ps' = ps else ∃ σ : Shuffle, ps' = MemStore.gc cutoff ps.

Lemma memory_collect_total c cutoff ps : ∃ ps', memory_collect c cutoff ps ps'.
Proof. destruct c; [by exists ps|]. by exists (@MemStore.gc shuffle_id cutoff ps), shuffle_id. Qed.

(** A run in which nothing but methods and [Close] can happen from some time on is
    fair. *)
Lemma quiet_fair {St} collect method (ρ : nat → @store St) τ N :
  (∀ k l s', (N ≤ k)%nat → step collect method l (ρ k) s' → l = Method ∨ l = Close) → fair collect method ρ τ.
Proof.
  intros H. assert (∀ l k, (N ≤ k)%nat → l ≠ Method → l ≠ Close → ¬ enabled collect method l (ρ k)) as Hn
    by (intros l k Hk H1 H2 [s' Hs]; by destruct (H k l s' Hk Hs)).
  split; try (intros i n; exists (n `max` N)%nat; split; [lia|]; right; apply Hn; [lia|done|done]).
  - intros i n. exists (n `max` N)%nat. split; [lia|]. right. intros k Hk. apply Hn; [lia|done|done].
  - intros n. exists (n `max` N)%nat. split; [lia|]. right. apply Hn; [lia|done|done].
Qed.

Definition store1 : store := memory_ScheduleGC 30 (new_store (MemStore.NewPeerStorage 1)).
Definition collected1 : MemStore.peerStore := @MemStore.gc shuffle_id (100 - 30) (MemStore.NewPeerStorage 1).
Definition worker1 (armed ready : bool) (ph : phase) (runs : nat) : list worker :=
  [MkWorker (Timer false) (Collect 30) armed ready ph runs].

(** The timer expires, the collection is done, [Close] is called and returns. *)
Definition run1 (n : nat) : store :=
  match n with
  | 0 => store1
  | 1 => MkStore (MemStore.NewPeerStorage 1) (worker1 false true Selecting 0) 1 NotClosed
  | 2 => MkStore (MemStore.NewPeerStorage 1) (worker1 false false (Working false) 1) 1 NotClosed
  | 3 => MkStore collected1 (worker1 false false Selecting 1) 1 NotClosed
  | 4 => MkStore collected1 (worker1 false false Selecting 1) 1 CloseWaits
  | 5 => MkStore collected1 (worker1 false false Ended 1) 0 CloseWaits
  | _ => MkStore collected1 (worker1 false false Ended 1) 0 CloseReturned
  end%nat.
Definition labels1 (n : nat) : option label :=
  [Goroutine 0 Expire; Goroutine 0 Take; Goroutine 0 Finish; Close; Goroutine 0 Stop; Closed] !! n.

Lemma memory_store1_inv : inv store1.
Proof. apply schedule_inv; [done|apply new_store_inv]. Qed.

Lemma run1_run : run memory_collect eq run1 labels1.
Proof.
  intros [|[|[|[|[|[|n]]]]]]; cbn [labels1 lookup list_lookup]; try done.
  - by apply (step_goroutine _ _ store1 0 Expire (MkWorker (Timer false) (Collect 30) true false Selecting 0)
      (MkWorker (Timer false) (Collect 30) false true Selecting 0)), (move_expire _ false (MkWorker (Timer false) (Collect 30) true false Selecting 0)).
  - by apply (step_goroutine _ _ (run1 1) 0 Take (MkWorker (Timer false) (Collect 30) false true Selecting 0)
      (MkWorker (Timer false) (Collect 30) false false (Working false) 1)), (move_take _ false (MkWorker (Timer false) (Collect 30) false true Selecting 0)).
  - apply (step_goroutine _ _ (run1 2) 0 Finish (MkWorker (Timer false) (Collect 30) false false (Working false) 1)
      (MkWorker (Timer false) (Collect 30) false false Selecting 1)); [done|].
    apply (move_finish _ false (MkWorker (Timer false) (Collect 30) false false (Working false) 1) _ false false 100); try done.
    by exists shuffle_id.
  - by apply (step_close _ _ (run1 3)).
  - by apply (step_goroutine _ _ (run1 4) 0 Stop (MkWorker (Timer false) (Collect 30) false false Selecting 1)
      (MkWorker (Timer false) (Collect 30) false false Ended 1)), (move_stop _ true (MkWorker (Timer false) (Collect 30) false false Selecting 1)).
  - by apply (step_closed _ _ (run1 5)).
Qed.

Lemma run1_fair : fair memory_collect eq run1 labels1.
Proof.
  apply quiet_fair with 6%nat. intros k l s' Hk Hs.
  assert (run1 k = run1 6) as E by (do 6 (destruct k as [|k]; [lia|]); done). rewrite E in Hs.
  inversion Hs as [s i e w w' st' Hi Hm|s st' _|s Hc|s Hc Hz]; subst; auto; try done.
  destruct i as [|i]; [|done]. injection Hi as <-. by inversion Hm.
Qed.

Lemma close_quiesces_witness :
  (∃ m, (4 ≤ m)%nat ∧ st_close (run1 m) = CloseReturned) ∧ Forall ended (st_workers (run1 6)).
Proof.
  destruct (close_quiesces memory_collect eq run1 labels1 4 memory_store1_inv run1_run run1_fair memory_collect_total
              ltac:(discriminate)) as [H1 H2].
  split; [exact H1|]. exact (proj1 (H2 6%nat eq_refl)).
Defined.

(** ** A table of the times of peers, collected again and again *)

Definition table_collect (closing : bool) (cutoff : Z) (st st' : list Z) : Prop := st' = filter (λ t, cutoff < t) st.

Inductive turn := TimerArmed | TimerExpired | AtWork.
Definition next (p : turn * nat) : turn * nat :=
  match p with
  | (TimerArmed, q) => (TimerExpired, q)
  | (TimerExpired, q) => (AtWork, q)
  | (AtWork, q) => (TimerArmed, S q)
  end.
Definition pos (n : nat) : turn * nat := Nat.iter n next (TimerArmed, 0%nat).

Definition worker2 (p : turn * nat) : worker :=
  match p with
  | (TimerArmed, q) => MkWorker (Timer true) (Collect 30) true false Selecting q
  | (TimerExpired, q) => MkWorker (Timer true) (Collect 30) false true Selecting q
  | (AtWork, q) => MkWorker (Timer true) (Collect 30) false false (Working false) (S q)
  end.
Definition table2 (q : nat) : list Z := match q with O => [10; 90] | S _ => [90] end.
Definition run2 (n : nat) : store := MkStore (table2 (pos n).2) [worker2 (pos n)] 1 NotClosed.
Definition event2 (t : turn) : event :=
  match t with TimerArmed => Expire | TimerExpired => Take | AtWork => Finish end.
Definition labels2 (n : nat) : option label := Some (Goroutine 0 (event2 (pos n).1)).

Lemma run2_inv : inv (run2 0).
Proof.
  assert (run2 0 = redis_ScheduleGC 30 (new_store [10; 90])) as -> by done.
  apply schedule_inv; [done|apply new_store_inv].
Qed.

Lemma run2_run : run table_collect eq run2 labels2.
Proof.
  intros n. unfold labels2, run2. change (pos (S n)) with (next (pos n)). destruct (pos n) as [[] q]; cbn [next event2 fst snd].
  - apply (step_goroutine _ _ (MkStore (table2 q) [worker2 (TimerArmed, q)] 1 NotClosed) 0 Expire (worker2 (TimerArmed, q))
      (worker2 (TimerExpired, q))); [done|]. by apply (move_expire _ false (worker2 (TimerArmed, q))).
  - apply (step_goroutine _ _ (MkStore (table2 q) [worker2 (TimerExpired, q)] 1 NotClosed) 0 Take (worker2 (TimerExpired, q))
      (worker2 (AtWork, q))); [done|]. by apply (move_take _ false (worker2 (TimerExpired, q))).
  - apply (step_goroutine _ _ (MkStore (table2 q) [worker2 (AtWork, q)] 1 NotClosed) 0 Finish (worker2 (AtWork, q))
      (worker2 (TimerArmed, S q))); [done|]. apply (move_finish _ false (worker2 (AtWork, q)) _ false false 100); try done.
    by destruct q.
Qed.

Lemma turn_comes t n : ∃ m, (n ≤ m)%nat ∧ (pos m).1 = t.
Proof.
  assert ((pos n).1 = t ∨ (pos (S n)).1 = t ∨ (pos (S (S n))).1 = t) as [H|[H|H]]
    by (change (pos (S (S n))) with (next (next (pos n))); change (pos (S n)) with (next (pos n));
        destruct (pos n) as [[] q], t; cbn; auto);
    [exists n|exists (S n)|exists (S (S n))]; split; try done; lia.
Qed.

Lemma run2_disabled l n : (∀ e, l ≠ Goroutine 0 e ∨ e = Stop) → l ≠ Method → l ≠ Close → ¬ enabled table_collect eq l (run2 n).
Proof.
  intros Hl Hm Hc [s' Hs]. inversion Hs as [s i e w w' st' Hi Hmv|s st' _|s Hcl|s Hcl Hz]; subst; try done.
  destruct i as [|i]; [|done]. destruct (Hl e) as [? | ->]; [done|]. by inversion Hmv.
Qed.

Lemma run2_fair : fair table_collect eq run2 labels2.
Proof.
  assert (∀ t i, weakly_fair table_collect eq (Goroutine i (event2 t)) run2 labels2) as H.
  { intros t i n. destruct i as [|i].
    - destruct (turn_comes t n) as (m & Hle & <-). exists m. auto.
    - exists n. split; [done|]. right. apply run2_disabled; [|done|done]. intros e. by left. }
  split; [apply (H TimerArmed)|apply (H TimerExpired)|apply (H AtWork)|..].
  - intros i n. exists n. split; [done|]. right. intros k _. apply run2_disabled; [|done|done].
    intros e. destruct (decide (e = Stop)) as [->|]; [by right|left; congruence].
  - intros n. exists n. split; [done|]. right. apply run2_disabled; [|done|done]. intros e. by left.
Qed.

Lemma collections_recur_witness :
  inv (run2 0) ∧ ∀ c, ∃ n, at_ 0 (λ v, c ≤ completed v)%nat (run2 n).
Proof.
  split; [exact run2_inv|].
  exact (collections_recur table_collect eq run2 labels2 0 (worker2 (pos 0)) run2_inv run2_run run2_fair
           (λ c cutoff st, ex_intro _ _ eq_refl) (λ n, eq_refl) eq_refl).
Defined.
