(* ===== verification/DataStore.v ===== *)
(** * The in-memory data storage

    [dataStore] of src/storage/memory/storage.go: contexts and, in each, values
    by key.  [DataSpec] is what every data storage promises its clients (the
    torrent approval containers); the store implements it. *)

From S2P Require Import Prelude GoStd Netip Bittorrent Storage.

Local Open Scope Z_scope.

(** ** The promise *)

(** The laws of a data storage: its contents [ds_get] by context and key, and
    the calls on a good state.  None of them fails. *)
Class DataSpec (S : Type) `{DataStorage S} := {
  ds_ok : S → Prop;
  ds_get : S → bytes → bytes → option bytes;
  ds_Put s ctx vs : ds_ok s →
    ∃ s', Put ctx vs s = Some (s', None) ∧ ds_ok s' ∧
      ∀ c k, ds_get s' c k =
        if decide (c = ctx) then
          match list.last (filter (λ e, entry_Key e = k) vs) with
          | Some e => Some (entry_Value e)
          | None => ds_get s c k
          end
        else ds_get s c k;
  ds_Contains s ctx k : ds_ok s →
    Contains ctx k s = Some (s, (bool_decide (is_Some (ds_get s ctx k)), None));
  ds_Load s ctx k : ds_ok s → Load ctx k s = Some (s, (ds_get s ctx k, None));
  ds_Delete s ctx ks : ds_ok s →
    ∃ s', Delete ctx ks s = Some (s', None) ∧ ds_ok s' ∧
      ∀ c k, ds_get s' c k = if decide (c = ctx ∧ k ∈ ks) then None else ds_get s c k;
}.

(** ** The store *)

Module MemData.

Abbreviation dataStore := (gmap bytes (gmap bytes bytes)).
Definition NewDataStorage : dataStore := ∅.

Definition Put (ctx : bytes) (values : list Entry) : M dataStore error := λ ds,
  match values with
  | [] => Some (ds, None)
  | _ =>
      let m := default ∅ (ds !! ctx) in
      let m := foldl (λ m p, <[entry_Key p := entry_Value p]> m) m values in
      Some (<[ctx := m]> ds, None)
  end.

Definition Contains (ctx key : bytes) : M dataStore (bool * error) := λ ds,
  let exist := match ds !! ctx with
               | Some m => bool_decide (is_Some (m !! key))
               | None => false
               end in
  Some (ds, (exist, None)).

Definition Load (ctx key : bytes) : M dataStore (option bytes * error) := λ ds,
  let out := match ds !! ctx with Some m => m !! key | None => None end in
  Some (ds, (out, None)).

Definition Delete (ctx : bytes) (keys : list bytes) : M dataStore error := λ ds,
  match keys with
  | [] => Some (ds, None)
  | _ =>
      match ds !! ctx with
      | Some m => Some (<[ctx := foldl (λ m k, delete k m) m keys]> ds, None)
      | None => Some (ds, None)
      end
  end.

#[export] Instance memory_DataStorage : DataStorage dataStore := {|
  Storage.Put := Put; Storage.Contains := Contains;
  Storage.Load := Load; Storage.Delete := Delete; Storage.Preservable := false;
|}.

Definition get (ds : dataStore) (ctx key : bytes) : option bytes := ds !! ctx ≫= (.!! key).

(** ** Facts *)

Lemma lookup_puts (vs : list Entry) (m : gmap bytes bytes) k :
  foldl (λ m p, <[entry_Key p := entry_Value p]> m) m vs !! k =
    match list.last (filter (λ e, entry_Key e = k) vs) with
    | Some e => Some (entry_Value e)
    | None => m !! k
    end.
Proof.
  revert m. induction vs as [|v vs IH] using rev_ind; intros m; [done|].
  rewrite foldl_app, list.filter_app, list.filter_cons, list.filter_nil. cbn [foldl].
  case_decide as Hk; [by rewrite last_snoc, <-Hk, lookup_insert_eq|].
  by rewrite app_nil_r, lookup_insert_ne.
Qed.

Lemma get_insert (ds : dataStore) (ctx c k : bytes) (m : gmap bytes bytes) :
  get (<[ctx := m]> ds) c k = if decide (c = ctx) then m !! k else get ds c k.
Proof.
  unfold get. case_decide as Hd; [by rewrite Hd, lookup_insert_eq|by rewrite lookup_insert_ne].
Qed.

#[export, refine] Instance memory_DataSpec : DataSpec dataStore :=
  {| ds_ok _ := True; ds_get := get |}.
Proof.
  - intros ds ctx vs _. unfold Storage.Put, memory_DataStorage, Put.
    destruct vs as [|v vs]; eexists; (split; [done|split; [done|]]); intros c k.
    + by case_decide.
    + rewrite get_insert, lookup_puts. case_decide as Hd; [|done]. subst c.
      destruct (list.last _); [done|]. unfold get. by destruct (ds !! ctx).
  - intros ds ctx k _. unfold Storage.Contains, memory_DataStorage, Contains, get.
    by destruct (ds !! ctx); simpl.
  - done.
  - intros ds ctx ks _. unfold Storage.Delete, memory_DataStorage, Delete.
    destruct ks as [|k0 ks]; [eexists; (split; [done|split; [done|]]); intros c k;
      by rewrite decide_False by (intros [_ []%elem_of_nil])|].
    destruct (ds !! ctx) as [m|] eqn:E; eexists; (split; [done|split; [done|]]); intros c k.
    + rewrite get_insert, lookup_deletes. unfold get.
      destruct (decide (c = ctx)) as [->|]; [|by rewrite decide_False by tauto].
      rewrite E. simpl. repeat case_decide; tauto.
    + case_decide as Hd; [|done]. destruct Hd as [-> _]. unfold get. by rewrite E.
Defined.

End MemData.

(** ** The two storages of one backend

    A storage backend is a [PeerStorage] with a [DataStorage] in it: in memory
    the latter is embedded in the store ([NewPeerStorage]) and shares nothing
    with the swarms. *)

Section Embedded.
Context {A B : Type}.

Definition on_peers {X} (m : M A X) : M (A * B) X := λ '(a, b),
  match m a with Some (a', x) => Some ((a', b), x) | None => None end.
Definition on_data {X} (m : M B X) : M (A * B) X := λ '(a, b),
  match m b with Some (b', x) => Some ((a, b'), x) | None => None end.

Lemma on_peers_Some {X} (m : M A X) a b a' x : m a = Some (a', x) → on_peers m (a, b) = Some ((a', b), x).
Proof. unfold on_peers. by intros ->. Qed.

Lemma on_data_Some {X} (m : M B X) a b b' x : m b = Some (b', x) → on_data m (a, b) = Some ((a, b'), x).
Proof. unfold on_data. by intros ->. Qed.

#[export] Instance embedded_PeerStorage `{PeerStorage A} : PeerStorage (A * B) := {|
  PutSeeder ih p := on_peers (PutSeeder ih p);
  DeleteSeeder ih p := on_peers (DeleteSeeder ih p);
  PutLeecher ih p := on_peers (PutLeecher ih p);
  DeleteLeecher ih p := on_peers (DeleteLeecher ih p);
  GraduateLeecher ih p := on_peers (GraduateLeecher ih p);
  AnnouncePeers ih forSeeder n v6 := on_peers (AnnouncePeers ih forSeeder n v6);
  ScrapeSwarm ih := on_peers (ScrapeSwarm ih);
  Ping := on_peers Ping;
|}.

#[export] Instance embedded_DataStorage `{DataStorage B} : DataStorage (A * B) := {|
  Put ctx vs := on_data (Put ctx vs);
  Contains ctx k := on_data (Contains ctx k);
  Load ctx k := on_data (Load ctx k);
  Delete ctx ks := on_data (Delete ctx ks);
  Preservable := Preservable (S := B);
|}.

#[export, refine] Instance embedded_DataSpec `{DataSpec B} : DataSpec (A * B) :=
  {| ds_ok s := ds_ok s.2; ds_get s := ds_get s.2 |}.
Proof.
  - intros [a b] ctx vs Hok. destruct (ds_Put b ctx vs Hok) as (b' & E & ? & ?).
    exists (a, b'). split; [by apply on_data_Some|done].
  - intros [a b] ctx k Hok. by apply on_data_Some, ds_Contains.
  - intros [a b] ctx k Hok. by apply on_data_Some, ds_Load.
  - intros [a b] ctx ks Hok. destruct (ds_Delete b ctx ks Hok) as (b' & E & ? & ?).
    exists (a, b'). split; [by apply on_data_Some|done].
Defined.

#[export, refine] Instance embedded_StorageSpec `{StorageSpec A} : StorageSpec (A * B) :=
  {| st_inv n s := st_inv n s.1; st_view s := st_view s.1; st_peer := st_peer (S := A) |}.
Proof.
  - intros n [a b]. apply st_inv_weaken.
  - intros n [a b] ih p Hi Hw Hp. destruct (put_seeder_spec n a ih p Hi Hw Hp) as (a' & E & ?).
    exists (a', b). split; [by apply on_peers_Some|done].
  - intros n [a b] ih p Hi Hw Hp. destruct (delete_seeder_spec n a ih p Hi Hw Hp) as (a' & e & E & ?).
    exists (a', b), e. split; [by apply on_peers_Some|done].
  - intros n [a b] ih p Hi Hw Hp. destruct (put_leecher_spec n a ih p Hi Hw Hp) as (a' & E & ?).
    exists (a', b). split; [by apply on_peers_Some|done].
  - intros n [a b] ih p Hi Hw Hp. destruct (delete_leecher_spec n a ih p Hi Hw Hp) as (a' & e & E & ?).
    exists (a', b), e. split; [by apply on_peers_Some|done].
  - intros n [a b] ih p Hi Hw Hp. destruct (graduate_leecher_spec n a ih p Hi Hw Hp) as (a' & E & ?).
    exists (a', b). split; [by apply on_peers_Some|done].
  - intros n [a b] ih fs nw v6 Hi Hw Hn.
    destruct (announce_peers_spec n a ih fs nw v6 Hi Hw Hn) as (a' & ps & e & E & ?).
    exists (a', b), ps, e. split; [by apply on_peers_Some|done].
  - intros n [a b] ih Hi Hw. destruct (scrape_swarm_spec n a ih Hi Hw) as (a' & d & E & ?).
    exists (a', b), d. split; [by apply on_peers_Some|done].
Defined.

End Embedded.
