(* ===== verification/StorageTest.v ===== *)
(** * Package [storage/test]

    The tests that the repository runs against each storage
    (src/storage/test/storage_test_base.go and storage_test_data.go).  Every
    storage that keeps the contract of [StorageSpec], reports what it finds
    without an error ([StorageAnswers]) and embeds a data storage passes them: the
    contract says at least what the tests ask for.  The benchmarks beside them
    check nothing. *)

From S2P Require Import Prelude GoStd Netip NetipText Bittorrent Storage Memory DataStore.

Local Open Scope Z_scope.

(** ** What the tests expect beyond [StorageSpec]

    [st_fresh ih]: no download of the swarm was counted.  Reading and deleting
    count none. *)
Class StorageAnswers (S : Type) `{StorageSpec S} := {
  found_seeder n s ih p : st_inv (1 + n) s → InfoHash_wf ih → st_peer p → p ∈ st_view s Seeder ih →
    ∃ s', DeleteSeeder ih p s = Some (s', None);
  found_leecher n s ih p : st_inv (1 + n) s → InfoHash_wf ih → st_peer p → p ∈ st_view s Leecher ih →
    ∃ s', DeleteLeecher ih p s = Some (s', None);
  found_peers n s ih forSeeder numWant v6 s' ps e : st_inv n s → InfoHash_wf ih → 0 < numWant →
    AnnouncePeers ih forSeeder numWant v6 s = Some (s', (ps, e)) → ps ≠ [] → e = None;
  st_fresh : InfoHash → S → Prop;
  fresh_delete n s ih p ih' s' e : st_inv (1 + n) s → InfoHash_wf ih → st_peer p → st_fresh ih' s →
    DeleteSeeder ih p s = Some (s', e) ∨ DeleteLeecher ih p s = Some (s', e) → st_fresh ih' s';
  fresh_announce n s ih forSeeder numWant v6 ih' s' r : st_inv n s → InfoHash_wf ih → 0 < numWant → st_fresh ih' s →
    AnnouncePeers ih forSeeder numWant v6 s = Some (s', r) → st_fresh ih' s';
  fresh_scrape n s ih ih' s' l c d e : st_inv n s → InfoHash_wf ih → st_fresh ih' s →
    ScrapeSwarm ih s = Some (s', (l, c, d, e)) → st_fresh ih' s' ∧ (ih = ih' → d = 0);
}.

Module StorageTest.

(** ** The test data *)

Definition kvStoreCtx : bytes := bs "test".

(** [rand.Read] filled [b], or failed. *)
Definition randIH (r : result bytes) : option InfoHash :=
  match r with
  | Err _ => None
  | Ok b => Some (match NewInfoHash b with Ok ih => ih | Err _ => [] end)
  end.

Definition randPeerID (r : result bytes) : option bytes :=
  match r with
  | Err _ => None
  | Ok b => Some (match NewPeerID b with Ok id => id | Err _ => replicate PeerIDLen x00 end)
  end.

(** [netip.MustParseAddrPort] panics on what it cannot parse. *)
Definition test_peer (id : bytes) (addrPort : bytes) : option Peer :=
  '(a, port) ← ParseAddrPort addrPort; Some (MkPeer id a port).

Record hashPeer := MkHashPeer { hp_ih : InfoHash; hp_peer : Peer }.

Record data := MkData { testData : list hashPeer; v4Peer : Peer; v6Peer : Peer }.

(** [read i]: the result of the i-th read of random bytes. *)
Definition init (read : nat → result bytes) : option data :=
  testIh1 ← randIH (read 0%nat);
  testIh2 ← randIH (read 1%nat);
  testPeerID0 ← randPeerID (read 2%nat);
  testPeerID1 ← randPeerID (read 3%nat);
  testPeerID2 ← randPeerID (read 4%nat);
  testPeerID3 ← randPeerID (read 5%nat);
  p0 ← test_peer testPeerID0 (bs "1.1.1.1:1");
  p1 ← test_peer testPeerID1 (bs "[abab::0001]:2");
  v4 ← test_peer testPeerID2 (bs "99.99.99.99:9994");
  v6 ← test_peer testPeerID3 (bs "[fc00::0001]:9996");
  Some (MkData [MkHashPeer testIh1 p0; MkHashPeer testIh2 p1] v4 v6).

(** [strings.Compare] and [netip.Addr.Compare]: first the family, then the bits,
    then the zone. *)
Fixpoint str_compare (a b : bytes) : comparison :=
  match a, b with
  | [], [] => Eq
  | [], _ => Lt
  | _, [] => Gt
  | x :: a, y :: b => match byte_to_Z x ?= byte_to_Z y with Eq => str_compare a b | c => c end
  end.

Definition Addr_Compare (a b : Addr) : comparison :=
  match a, b with
  | AddrNone, AddrNone => Eq
  | AddrNone, _ => Lt
  | _, AddrNone => Gt
  | Addr4 x, Addr4 y => x ?= y
  | Addr4 _, Addr6 _ _ => Lt
  | Addr6 _ _, Addr4 _ => Gt
  | Addr6 x z, Addr6 y w => match x ?= y with Eq => str_compare z w | c => c end
  end.

(** The address of the first peer is compared with itself. *)
Definition PeerEqualityFunc (p1 p2 : Peer) : bool :=
  (peer_Port p1 =? peer_Port p2) &&
  (match Addr_Compare (Peer_Addr p1) (Peer_Addr p1) with Eq => true | _ => false end) &&
  bool_decide (peer_ID p1 = peer_ID p2).

(** [Peer.String], which is [AddrPort.String]. *)
Definition AddrPort_String (a : Addr) (port : Z) : bytes :=
  match a with
  | AddrNone => bs "invalid AddrPort"
  | Addr4 _ => Addr_String a ++ bs ":" ++ Itoa port
  | Addr6 _ _ => bs "[" ++ Addr_String a ++ bs "]:" ++ Itoa port
  end.
Definition peer_key (p : Peer) : bytes := AddrPort_String (peer_addr p) (peer_Port p).

Definition containsPeer (peers : list Peer) (p : Peer) : bool :=
  existsb (λ peer, PeerEqualityFunc peer p) peers.

(** ** The tests

    A test fails, and ends, at the first requirement that does not hold. *)

Section Tests.
Context {S : Type} `{PeerStorage S} `{DataStorage S} (d : data).

Definition require (b : bool) (k : M S bool) : M S bool := if b then k else mret false.

Definition Nil (e : error) : bool := match e with None => true | Some _ => false end.
(** [if errors.Is(err, ErrResourceDoesNotExist) { err = nil }] *)
Definition or_missing (e : error) : error := if decide (e = Some ErrResourceDoesNotExist) then None else e.

Fixpoint each {A} (f : A → M S bool) (l : list A) : M S bool :=
  match l with
  | [] => mret true
  | c :: l => ok ← f c; require ok (each f l)
  end.

Definition dummy (c : hashPeer) : Peer := if Peer_Is6 (hp_peer c) then v6Peer d else v4Peer d.

Definition DeleteSeeder : M S bool := each (λ c,
  err ← Storage.DeleteSeeder (hp_ih c) (hp_peer c);
  require (Nil (or_missing err)) (mret true)) (testData d).

Definition PutLeecher : M S bool := each (λ c,
  err ← Storage.PutLeecher (hp_ih c) (dummy c);
  require (Nil err) (mret true)) (testData d).

Definition DeleteLeecher : M S bool := each (λ c,
  err ← Storage.DeleteLeecher (hp_ih c) (hp_peer c);
  require (Nil (or_missing err)) (mret true)) (testData d).

Definition AnnouncePeers : M S bool := each (λ c,
  '(_, err) ← Storage.AnnouncePeers (hp_ih c) false 50 (Peer_Is6 (hp_peer c));
  require (Nil (or_missing err)) (mret true)) (testData d).

Definition ScrapeSwarm : M S bool := each (λ c,
  '(l, s, n, _) ← Storage.ScrapeSwarm (hp_ih c);
  require (0 =? s) (require (0 =? l) (require (0 =? n) (mret true)))) (testData d).

Definition LeecherPutAnnounceDeleteAnnounce : M S bool := each (λ c,
  let isV6 := Peer_Is6 (hp_peer c) in
  err ← Storage.PutLeecher (hp_ih c) (hp_peer c);
  require (Nil err) (
  '(peers, err) ← Storage.AnnouncePeers (hp_ih c) true 50 isV6;
  require (Nil err) (
  require (containsPeer peers (hp_peer c)) (
  '(peers, err) ← Storage.AnnouncePeers (hp_ih c) false 50 isV6;
  require (Nil err) (
  require (containsPeer peers (hp_peer c)) (
  '(l, s, _, _) ← Storage.ScrapeSwarm (hp_ih c);
  require (2 =? l) (
  require (0 =? s) (
  err ← Storage.DeleteLeecher (hp_ih c) (hp_peer c);
  require (Nil err) (
  '(peers, err) ← Storage.AnnouncePeers (hp_ih c) true 50 isV6;
  require (Nil (or_missing err)) (
  require (negb (containsPeer peers (hp_peer c))) (
  mret true))))))))))) (testData d).

Definition SeederPutAnnounceDeleteAnnounce : M S bool := each (λ c,
  let isV6 := Peer_Is6 (hp_peer c) in
  err ← Storage.PutSeeder (hp_ih c) (hp_peer c);
  require (Nil err) (
  '(peers, err) ← Storage.AnnouncePeers (hp_ih c) false 50 isV6;
  require (Nil err) (
  require (containsPeer peers (hp_peer c)) (
  '(l, s, _, _) ← Storage.ScrapeSwarm (hp_ih c);
  require (1 =? l) (
  require (1 =? s) (
  err ← Storage.DeleteSeeder (hp_ih c) (hp_peer c);
  require (Nil err) (
  '(peers, err) ← Storage.AnnouncePeers (hp_ih c) false 50 isV6;
  require (Nil (or_missing err)) (
  require (negb (containsPeer peers (hp_peer c))) (
  mret true))))))))) (testData d).

Definition LeecherPutGraduateAnnounceDeleteAnnounce : M S bool := each (λ c,
  let isV6 := Peer_Is6 (hp_peer c) in
  let peer := dummy c in
  err ← Storage.PutLeecher (hp_ih c) (hp_peer c);
  require (Nil err) (
  err ← Storage.GraduateLeecher (hp_ih c) (hp_peer c);
  require (Nil err) (
  '(peers, err) ← Storage.AnnouncePeers (hp_ih c) false 50 isV6;
  require (Nil err) (
  require (containsPeer peers (hp_peer c)) (
  err ← Storage.DeleteLeecher (hp_ih c) (hp_peer c);
  require (Nil (or_missing err)) (
  '(peers, err) ← Storage.AnnouncePeers (hp_ih c) false 50 isV6;
  require (Nil err) (
  require (containsPeer peers (hp_peer c)) (
  err ← Storage.DeleteLeecher (hp_ih c) peer;
  require (Nil err) (
  err ← Storage.DeleteLeecher (hp_ih c) peer;
  require (Nil (or_missing err)) (
  err ← Storage.DeleteSeeder (hp_ih c) (hp_peer c);
  require (Nil err) (
  err ← Storage.DeleteSeeder (hp_ih c) (hp_peer c);
  require (Nil (or_missing err)) (
  mret true)))))))))))) (testData d).

Definition CustomPutContainsLoadDelete : M S bool := each (λ c,
  let key := peer_key (hp_peer c) in
  err ← Put kvStoreCtx [MkEntry key (hp_ih c)];
  require (Nil err) (
  '(contains, err) ← Contains kvStoreCtx key;
  require (Nil err) (
  require contains (
  '(contains, err) ← Contains [] key;
  require (Nil err) (
  require (negb contains) (
  '(out, err) ← Load kvStoreCtx key;
  require (Nil err) (
  match NewInfoHash (default [] out) with
  | Err _ => mret false
  | Ok ih =>
      require (bool_decide (hp_ih c = ih)) (
      '(dummy, err) ← Load [] key;
      require (Nil err) (
      require (bool_decide (dummy = None)) (
      err ← Delete kvStoreCtx [key];
      require (Nil err) (
      '(contains, err) ← Contains [] key;
      require (Nil err) (
      require (negb contains) (
      mret true))))))
  end))))))) (testData d).

Definition CustomBulkPutContainsLoadDelete : M S bool :=
  let keys := (λ c, peer_key (hp_peer c)) <$> testData d in
  let pairs := (λ c, MkEntry (peer_key (hp_peer c)) (hp_ih c)) <$> testData d in
  err ← Put kvStoreCtx pairs;
  require (Nil err) (
  ok ← each (λ k, '(contains, err) ← Contains kvStoreCtx k; require (Nil err) (require contains (mret true))) keys;
  require ok (
  ok ← each (λ p,
    '(out, _) ← Load kvStoreCtx (entry_Key p);
    match NewInfoHash (default [] out) with
    | Err _ => mret false
    | Ok ih => require (bool_decide (entry_Value p = ih)) (mret true)
    end) pairs;
  require ok (
  err ← Delete kvStoreCtx keys;
  require (Nil err) (
  each (λ k, '(contains, err) ← Contains kvStoreCtx k; require (Nil err) (require (negb contains) (mret true))) keys)))).

Definition peer_tests : list (M S bool) :=
  [DeleteLeecher; DeleteSeeder; AnnouncePeers; ScrapeSwarm; PutLeecher; DeleteSeeder;
   LeecherPutAnnounceDeleteAnnounce; SeederPutAnnounceDeleteAnnounce; LeecherPutGraduateAnnounceDeleteAnnounce].

Definition data_tests : list (M S bool) := [CustomPutContainsLoadDelete; CustomBulkPutContainsLoadDelete].

(** [t.Run] goes on after a test that failed. *)
Fixpoint run_all (l : list (M S bool)) : M S (list bool) :=
  match l with
  | [] => mret []
  | t :: l => b ← t; bs ← run_all l; mret (b :: bs)
  end.

(** The tests; the storage is closed after them. *)
Definition RunTests : M S (list bool) := run_all (peer_tests ++ data_tests).
End Tests.

(** ** Comparing peers *)

Lemma Addr_Compare_refl a : Addr_Compare a a = Eq.
Proof.
  assert (∀ z, str_compare z z = Eq) as Hz.
  { intros z. induction z as [|x z IH]; [done|]. cbn. by rewrite Z.compare_refl. }
  destruct a; cbn; rewrite ?Z.compare_refl; by rewrite ?Hz.
Qed.

(** The tests take two peers with the same ID and port for the same, whatever
    their addresses. *)
Lemma equality_ignores_address p q :
  PeerEqualityFunc p q = true ↔ peer_ID p = peer_ID q ∧ peer_Port p = peer_Port q.
Proof. unfold PeerEqualityFunc. rewrite Addr_Compare_refl, andb_true_r, andb_true_iff, Z.eqb_eq, bool_decide_eq_true. tauto. Qed.

Lemma containsPeer_in ps p : p ∈ ps → containsPeer ps p = true.
Proof.
  intros Hp. apply existsb_exists. exists p. split; [by apply list_elem_of_In|by apply equality_ignores_address].
Qed.

Lemma containsPeer_others ps p q : peer_Port q ≠ peer_Port p → (∀ x, x ∈ ps → x = q) → containsPeer ps p = false.
Proof.
  intros Hq Hps. apply not_true_is_false. intros (x & Hx%list_elem_of_In%Hps & E)%existsb_exists. subst x.
  apply equality_ignores_address in E as [_ E]. done.
Qed.

Lemma run_all_cons {S} (T : M S bool) l s s1 s2 b ok :
  T s = Some (s1, b) → run_all l s1 = Some (s2, ok) → run_all (T :: l) s = Some (s2, b :: ok).
Proof. intros E1 E2. cbn [run_all]. rewrite (M_bind_Some _ _ _ _ _ E1). by rewrite (M_bind_Some _ _ _ _ _ E2). Qed.

(** ** One swarm at a time *)

Definition upd (ih : InfoHash) (Sd Ld : gset Peer) (V : view) : view :=
  λ r ih', if decide (ih' = ih) then match r with Seeder => Sd | Leecher => Ld end else V r ih'.

Lemma upd_role ih Sd Ld V r : upd ih Sd Ld V r ih = match r with Seeder => Sd | Leecher => Ld end.
Proof. unfold upd. by rewrite decide_True. Qed.

Lemma upd_update r0 ih f Sd Ld V :
  view_update r0 ih f (upd ih Sd Ld V) ≡
    upd ih (match r0 with Seeder => f Sd | Leecher => Sd end) (match r0 with Seeder => Ld | Leecher => f Ld end) V.
Proof. intros r ih'. unfold view_update, upd. destruct r0, r; repeat case_decide; naive_solver. Qed.

Lemma upd_comm ih ih' A B C D V : ih ≠ ih' → upd ih A B (upd ih' C D V) ≡ upd ih' C D (upd ih A B V).
Proof. intros Hne r x. unfold upd. repeat case_decide; congruence. Qed.

Lemma upd_id ih V : V ≡ upd ih (V Seeder ih) (V Leecher ih) V.
Proof. intros r x. unfold upd. case_decide as E; [rewrite E; by destruct r|done]. Qed.

Section Peers.
Context {S : Type} {HSt : PeerStorage S} {HSpec : StorageSpec S} {HAns : StorageAnswers S}.

(** [I]: good health, and what else deleting and reading keep. *)
Record steady (I : nat → S → Prop) : Prop := {
  i_inv n s : I n s → st_inv n s;
  i_delete n s ih p s' e : I (1 + n)%nat s → InfoHash_wf ih → st_peer p →
    Storage.DeleteSeeder ih p s = Some (s', e) ∨ Storage.DeleteLeecher ih p s = Some (s', e) → st_inv n s' → I n s';
  i_announce n s ih forSeeder numWant v6 s' r : I n s → InfoHash_wf ih → 0 < numWant →
    Storage.AnnouncePeers ih forSeeder numWant v6 s = Some (s', r) → st_inv n s' → I n s';
  i_scrape n s ih s' r : I n s → InfoHash_wf ih → Storage.ScrapeSwarm ih s = Some (s', r) → st_inv n s' → I n s';
}.

Lemma steady_inv : steady st_inv.
Proof. by split. Qed.

Definition unused (ihs : list InfoHash) (n : nat) (s : S) : Prop := st_inv n s ∧ Forall (λ ih, st_fresh ih s) ihs.

Lemma steady_unused ihs : steady (unused ihs).
Proof.
  split.
  - by intros n s [? _].
  - intros n s ih p s' e [Hi Hf] Hih Hp Hd Hi'. split; [done|]. eapply list.Forall_impl; [exact Hf|].
    intros ih0 Hx. eapply (fresh_delete n s ih p); eauto.
  - intros n s ih fs nw v6 s' r [Hi Hf] Hih Hn Hd Hi'. split; [done|]. eapply list.Forall_impl; [exact Hf|].
    intros ih0 Hx. eapply (fresh_announce n s ih); eauto.
  - intros n s ih s' [[[l c] d] e] [Hi Hf] Hih Hd Hi'. split; [done|]. eapply list.Forall_impl; [exact Hf|].
    intros ih0 Hx. eapply (fresh_scrape n s ih); eauto.
Qed.

(** [m] passes in [n] writes, and takes the swarm from [Sd], [Ld] to [Sd'], [Ld']. *)
Definition passes (I : nat → S → Prop) (ih : InfoHash) (n : nat) (Sd Ld Sd' Ld' : gset Peer) (m : M S bool) : Prop :=
  ∀ k s V, I (n + k)%nat s → st_view s ≡ upd ih Sd Ld V →
    ∃ s', m s = Some (s', true) ∧ I k s' ∧ st_view s' ≡ upd ih Sd' Ld' V.

Context (I : nat → S → Prop) (HI : steady I) (ih : InfoHash) (Hih : InfoHash_wf ih).

Lemma passes_done Sd Ld Sd' Ld' : Sd = Sd' → Ld = Ld' → passes I ih 0 Sd Ld Sd' Ld' (mret true).
Proof. intros -> -> k s V Hs HV. by exists s. Qed.

Lemma passes_require b n Sd Ld Sd' Ld' m : b = true → passes I ih n Sd Ld Sd' Ld' m → passes I ih n Sd Ld Sd' Ld' (require b m).
Proof. by intros ->. Qed.

(** The write [m] has been carried out, with the rest of the test to come. *)
Lemma passes_write (m : M S error) (ok : error → bool) k n Sd Ld Sd1 Ld1 Sd' Ld' :
  (∀ j s V, I (1 + j)%nat s → st_view s ≡ upd ih Sd Ld V →
     ∃ s' e, m s = Some (s', e) ∧ ok e = true ∧ I j s' ∧ st_view s' ≡ upd ih Sd1 Ld1 V) →
  passes I ih n Sd1 Ld1 Sd' Ld' k → passes I ih (1 + n) Sd Ld Sd' Ld' (err ← m; require (ok err) k).
Proof.
  intros Hm Hk j s V Hs HV. destruct (Hm (n + j)%nat s V Hs HV) as (s1 & e & E & Hok & Hs1 & HV1).
  rewrite (M_bind_Some _ _ _ _ _ E), Hok. by apply Hk.
Qed.

Lemma passes_delete_seeder p k n Sd Ld Sd' Ld' :
  st_peer p → passes I ih n (Sd ∖ {[p]}) Ld Sd' Ld' k →
  passes I ih (1 + n) Sd Ld Sd' Ld' (err ← Storage.DeleteSeeder ih p; require (Nil (or_missing err)) k).
Proof.
  intros Hp. apply (passes_write _ (λ e, Nil (or_missing e))). intros j s V Hs HV.
  destruct (delete_seeder_spec j s ih p (i_inv _ HI _ _ Hs) Hih Hp) as (s' & e & E & He & Hi & Hv).
  exists s', e. split; [done|]. split; [by destruct He as [-> | ->]|]. split; [by eapply (i_delete _ HI); eauto|].
  rewrite Hv, HV. apply upd_update.
Qed.

Lemma passes_delete_leecher p k n Sd Ld Sd' Ld' :
  st_peer p → passes I ih n Sd (Ld ∖ {[p]}) Sd' Ld' k →
  passes I ih (1 + n) Sd Ld Sd' Ld' (err ← Storage.DeleteLeecher ih p; require (Nil (or_missing err)) k).
Proof.
  intros Hp. apply (passes_write _ (λ e, Nil (or_missing e))). intros j s V Hs HV.
  destruct (delete_leecher_spec j s ih p (i_inv _ HI _ _ Hs) Hih Hp) as (s' & e & E & He & Hi & Hv).
  exists s', e. split; [done|]. split; [by destruct He as [-> | ->]|]. split; [by eapply (i_delete _ HI); eauto|].
  rewrite Hv, HV. apply upd_update.
Qed.

Lemma passes_found_seeder p k n Sd Ld Sd' Ld' :
  st_peer p → p ∈ Sd → passes I ih n (Sd ∖ {[p]}) Ld Sd' Ld' k →
  passes I ih (1 + n) Sd Ld Sd' Ld' (err ← Storage.DeleteSeeder ih p; require (Nil err) k).
Proof.
  intros Hp Hin. apply passes_write. intros j s V Hs HV. pose proof (i_inv _ HI _ _ Hs) as Hi0.
  destruct (delete_seeder_spec j s ih p Hi0 Hih Hp) as (s' & e & E & _ & Hi & Hv).
  assert (e = None) as ->.
  { destruct (found_seeder j s ih p Hi0 Hih Hp) as (s1 & E1); [by rewrite (HV Seeder ih), upd_role|congruence]. }
  exists s', None. split; [done|]. split; [done|]. split; [by eapply (i_delete _ HI); eauto|].
  rewrite Hv, HV. apply upd_update.
Qed.

Lemma passes_found_leecher p k n Sd Ld Sd' Ld' :
  st_peer p → p ∈ Ld → passes I ih n Sd (Ld ∖ {[p]}) Sd' Ld' k →
  passes I ih (1 + n) Sd Ld Sd' Ld' (err ← Storage.DeleteLeecher ih p; require (Nil err) k).
Proof.
  intros Hp Hin. apply passes_write. intros j s V Hs HV. pose proof (i_inv _ HI _ _ Hs) as Hi0.
  destruct (delete_leecher_spec j s ih p Hi0 Hih Hp) as (s' & e & E & _ & Hi & Hv).
  assert (e = None) as ->.
  { destruct (found_leecher j s ih p Hi0 Hih Hp) as (s1 & E1); [by rewrite (HV Leecher ih), upd_role|congruence]. }
  exists s', None. split; [done|]. split; [done|]. split; [by eapply (i_delete _ HI); eauto|].
  rewrite Hv, HV. apply upd_update.
Qed.

(** The swarm an announce is answered from. *)
Definition pool (forSeeder v6 : bool) (Sd Ld : gset Peer) : gset Peer :=
  if forSeeder then of_family v6 Ld else of_family v6 Sd ∪ of_family v6 Ld.

Lemma size_family v6 (X : gset Peer) : (size (of_family v6 X) ≤ size X)%nat.
Proof. apply subseteq_size. unfold of_family. set_solver. Qed.

Lemma announced_peers j s V Sd Ld (forSeeder v6 : bool) :
  I j s → st_view s ≡ upd ih Sd Ld V → (size Sd + size Ld ≤ 50)%nat →
  ∃ s' ps e, Storage.AnnouncePeers ih forSeeder 50 v6 s = Some (s', (ps, e)) ∧ benign e ∧ (ps ≠ [] → e = None) ∧
    I j s' ∧ st_view s' ≡ upd ih Sd Ld V ∧ ∀ p, p ∈ ps ↔ p ∈ pool forSeeder v6 Sd Ld.
Proof.
  intros Hs HV Hsize. pose proof (i_inv _ HI _ _ Hs) as Hi0.
  destruct (announce_peers_spec j s ih forSeeder 50 v6 Hi0 Hih ltac:(lia)) as (s' & ps & e & E & He & Hi & Hv & Hin & _ & Hall).
  exists s', ps, e. split; [done|]. split; [done|]. split; [by apply (found_peers j s ih forSeeder 50 v6 s' ps e)|].
  split; [by apply (i_announce _ HI j s ih forSeeder 50 v6 s' (ps, e))|]. split; [by rewrite Hv, HV|].
  rewrite (candidates_proper _ _ ih forSeeder v6 HV) in Hin, Hall. rewrite (available_proper _ _ ih forSeeder v6 HV) in Hall.
  assert (⋃ candidates (upd ih Sd Ld V) ih forSeeder v6 = pool forSeeder v6 Sd Ld) as Ec.
  { unfold candidates, pool. rewrite !upd_role. destruct forSeeder; cbn [union_list foldr]; set_solver. }
  rewrite Ec in Hin, Hall. rewrite list.Forall_forall in Hin. intros p. split; [apply Hin|].
  apply Hall. unfold available, candidates. rewrite !upd_role. pose proof (size_family v6 Sd). pose proof (size_family v6 Ld).
  destruct forSeeder; simpl; lia.
Qed.

Lemma passes_announce (k : list Peer → M S bool) forSeeder v6 n Sd Ld Sd' Ld' :
  (size Sd + size Ld ≤ 50)%nat →
  (∀ ps, (∀ p, p ∈ ps ↔ p ∈ pool forSeeder v6 Sd Ld) → passes I ih n Sd Ld Sd' Ld' (k ps)) →
  passes I ih n Sd Ld Sd' Ld'
    ('(peers, err) ← Storage.AnnouncePeers ih forSeeder 50 v6; require (Nil (or_missing err)) (k peers)).
Proof.
  intros Hsize Hk j s V Hs HV.
  destruct (announced_peers (n + j)%nat s V Sd Ld forSeeder v6 Hs HV Hsize) as (s' & ps & e & E & He & _ & Hs' & HV' & Hps).
  rewrite (M_bind_Some _ _ _ _ _ E). destruct He as [-> | ->]; by apply (Hk ps Hps).
Qed.

Lemma passes_announce_found (k : list Peer → M S bool) forSeeder v6 n p Sd Ld Sd' Ld' :
  (size Sd + size Ld ≤ 50)%nat → p ∈ pool forSeeder v6 Sd Ld →
  (∀ ps, (∀ p, p ∈ ps ↔ p ∈ pool forSeeder v6 Sd Ld) → passes I ih n Sd Ld Sd' Ld' (k ps)) →
  passes I ih n Sd Ld Sd' Ld'
    ('(peers, err) ← Storage.AnnouncePeers ih forSeeder 50 v6;
     require (Nil err) (require (containsPeer peers p) (k peers))).
Proof.
  intros Hsize Hp Hk j s V Hs HV.
  destruct (announced_peers (n + j)%nat s V Sd Ld forSeeder v6 Hs HV Hsize) as (s' & ps & e & E & _ & He & Hs' & HV' & Hps).
  rewrite (M_bind_Some _ _ _ _ _ E). apply Hps in Hp as Hin. rewrite He by (by intros ->; apply elem_of_nil in Hin).
  cbn [Nil require]. rewrite (containsPeer_in _ _ Hin). by apply (Hk ps Hps).
Qed.

Lemma passes_scrape (k : Z → Z → Z → M S bool) n Sd Ld Sd' Ld' :
  (∀ d, (∀ j s s' l c e, I j s → Storage.ScrapeSwarm ih s = Some (s', (l, c, d, e)) →
     passes I ih n Sd Ld Sd' Ld' (k (wrap 32 (Z.of_nat (size Ld))) (wrap 32 (Z.of_nat (size Sd))) d))) →
  passes I ih n Sd Ld Sd' Ld' ('(l, s, n, _) ← Storage.ScrapeSwarm ih; k l s n).
Proof.
  intros Hk j s V Hs HV. pose proof (i_inv _ HI _ _ Hs) as Hi0.
  destruct (scrape_swarm_spec (n + j)%nat s ih Hi0 Hih) as (s' & d & E & Hi & Hv).
  rewrite (M_bind_Some _ _ _ _ _ E). rewrite (HV Leecher ih), (HV Seeder ih), !upd_role in E |- *.
  eapply (Hk d); [exact Hs|exact E|by eapply (i_scrape _ HI)|by rewrite Hv, HV].
Qed.
End Peers.

(** *** The writes that are not undone at once *)

Section Writes.
Context {S : Type} {HSt : PeerStorage S} {HSpec : StorageSpec S} (ih : InfoHash) (Hih : InfoHash_wf ih).

Lemma passes_put_seeder p k n Sd Ld Sd' Ld' :
  st_peer p → passes st_inv ih n ({[p]} ∪ Sd) Ld Sd' Ld' k →
  passes st_inv ih (1 + n) Sd Ld Sd' Ld' (err ← Storage.PutSeeder ih p; require (Nil err) k).
Proof.
  intros Hp. apply passes_write. intros j s V Hs HV.
  destruct (put_seeder_spec j s ih p Hs Hih Hp) as (s' & E & Hi & Hv). exists s', None. split_and!; [done..|].
  rewrite Hv, HV. apply upd_update.
Qed.

Lemma passes_put_leecher p k n Sd Ld Sd' Ld' :
  st_peer p → passes st_inv ih n Sd ({[p]} ∪ Ld) Sd' Ld' k →
  passes st_inv ih (1 + n) Sd Ld Sd' Ld' (err ← Storage.PutLeecher ih p; require (Nil err) k).
Proof.
  intros Hp. apply passes_write. intros j s V Hs HV.
  destruct (put_leecher_spec j s ih p Hs Hih Hp) as (s' & E & Hi & Hv). exists s', None. split_and!; [done..|].
  rewrite Hv, HV. apply upd_update.
Qed.

Lemma passes_graduate p k n Sd Ld Sd' Ld' :
  st_peer p → passes st_inv ih n ({[p]} ∪ Sd) (Ld ∖ {[p]}) Sd' Ld' k →
  passes st_inv ih (1 + n) Sd Ld Sd' Ld' (err ← Storage.GraduateLeecher ih p; require (Nil err) k).
Proof.
  intros Hp. apply passes_write. intros j s V Hs HV.
  destruct (graduate_leecher_spec j s ih p Hs Hih Hp) as (s' & E & Hi & Hv). exists s', None. split_and!; [done..|].
  rewrite Hv, HV. unfold view_add, view_remove. by rewrite !upd_update.
Qed.
End Writes.

(** ** The tests on both swarms *)

Section Both.
Context {S : Type} {HSt : PeerStorage S} {HSpec : StorageSpec S} {HAns : StorageAnswers S}.
Context (c1 c2 : hashPeer) (v4 v6 : Peer).

Abbreviation d := (MkData [c1; c2] v4 v6).
Abbreviation dm := (dummy d).

(** Two swarms and four peers that the storage can tell apart; the ports tell
    the peers of a family apart. *)
Record data_ok : Prop := {
  d_hashes : hp_ih c1 ≠ hp_ih c2;
  d_wf c : c ∈ [c1; c2] → InfoHash_wf (hp_ih c) ∧ st_peer (hp_peer c) ∧ st_peer (dm c) ∧
    peer_Port (dm c) ≠ peer_Port (hp_peer c) ∧ Peer_Is6 (dm c) = Peer_Is6 (hp_peer c);
}.
Context (Hd : data_ok).

Definition swarms (Sd Ld : hashPeer → gset Peer) (V : view) : view :=
  upd (hp_ih c1) (Sd c1) (Ld c1) (upd (hp_ih c2) (Sd c2) (Ld c2) V).

(** The test [T] passes in [n] writes, from one content of the swarms to another. *)
Definition passes_both (I : nat → S → Prop) (n : nat) (Sd Ld Sd' Ld' : hashPeer → gset Peer) (T : M S bool) : Prop :=
  ∀ k s V, I (n + k)%nat s → st_view s ≡ swarms Sd Ld V →
    ∃ s', T s = Some (s', true) ∧ I k s' ∧ st_view s' ≡ swarms Sd' Ld' V.

Lemma each_both I n Sd Ld Sd' Ld' (f : hashPeer → M S bool) :
  (∀ c, c ∈ [c1; c2] → passes I (hp_ih c) n (Sd c) (Ld c) (Sd' c) (Ld' c) (f c)) →
  passes_both I (n + n) Sd Ld Sd' Ld' (each f [c1; c2]).
Proof.
  intros Hf k s V Hs HV. rewrite <-(assoc_L _) in Hs.
  destruct (Hf c1 ltac:(set_solver) _ s _ Hs HV) as (s1 & E1 & Hs1 & HV1).
  rewrite upd_comm in HV1 by apply Hd.
  destruct (Hf c2 ltac:(set_solver) _ s1 _ Hs1 HV1) as (s2 & E2 & Hs2 & HV2).
  exists s2. split; [|split; [done|rewrite HV2; apply upd_comm, not_eq_sym, Hd]].
  cbn [each]. rewrite (M_bind_Some _ _ _ _ _ E1). cbn [require]. by rewrite (M_bind_Some _ _ _ _ _ E2).
Qed.

Abbreviation none := (λ _ : hashPeer, ∅ : gset Peer).
Abbreviation dummies := (λ c, {[dm c]} : gset Peer).

Lemma pool_in forSeeder v6' Sd Ld p : p ∈ pool forSeeder v6' Sd Ld ↔ Peer_Is6 p = v6' ∧ ((forSeeder = false ∧ p ∈ Sd) ∨ p ∈ Ld).
Proof. unfold pool, of_family. destruct forSeeder; rewrite ?elem_of_union, !elem_of_filter; naive_solver. Qed.

Lemma few (l : list Peer) (Sd Ld : gset Peer) :
  Sd ⊆ list_to_set l → Ld ⊆ list_to_set l → (2 * length l ≤ 50)%nat → (size Sd + size Ld ≤ 50)%nat.
Proof.
  intros HS HL Hl. apply subseteq_size in HS, HL.
  assert (size (list_to_set l : gset Peer) ≤ length l)%nat; [|lia].
  clear. induction l as [|x l IH]; [done|]. cbn [list_to_set length]. rewrite size_union_alt, size_singleton.
  assert (size (list_to_set l ∖ {[x]} : gset Peer) ≤ size (list_to_set l : gset Peer))%nat by (apply subseteq_size; set_solver). lia.
Qed.

(** *** On swarms that nobody has announced to *)

Section Unused.
Abbreviation I := (unused [hp_ih c1; hp_ih c2]).

Lemma DeleteLeecher_passes : passes_both I 2 none none none none (DeleteLeecher d).
Proof.
  apply (each_both I 1). intros c Hc. destruct (d_wf Hd c Hc) as (Hih & Hp & _).
  apply passes_delete_leecher; [apply steady_unused|done..|]. apply passes_done; set_solver.
Qed.

Lemma DeleteSeeder_unused : passes_both I 2 none none none none (DeleteSeeder d).
Proof.
  apply (each_both I 1). intros c Hc. destruct (d_wf Hd c Hc) as (Hih & Hp & _).
  apply passes_delete_seeder; [apply steady_unused|done..|]. apply passes_done; set_solver.
Qed.

Lemma AnnouncePeers_passes : passes_both I 0 none none none none (AnnouncePeers d).
Proof.
  apply (each_both I 0). intros c Hc. destruct (d_wf Hd c Hc) as (Hih & _).
  apply (passes_announce I (steady_unused _) _ Hih (λ _, mret true)); [rewrite size_empty; lia|].
  intros ps _. by apply passes_done.
Qed.

Lemma ScrapeSwarm_passes : passes_both I 0 none none none none (ScrapeSwarm d).
Proof.
  apply (each_both I 0). intros c Hc. destruct (d_wf Hd c Hc) as (Hih & _).
  apply (passes_scrape I (steady_unused _) _ Hih (λ l s n, require (0 =? s) (require (0 =? l) (require (0 =? n) (mret true))))).
  intros n j s s' l sd e [Hs Hf] E. rewrite size_empty.
  assert (n = 0) as ->.
  { rewrite list.Forall_forall in Hf. destruct (fresh_scrape j s _ _ _ _ _ _ _ Hs Hih (Hf (hp_ih c) ltac:(set_solver)) E) as [_ H0].
    by apply H0. }
  by apply passes_done.
Qed.
End Unused.

(** *** With a dummy in each swarm *)

Lemma PutLeecher_passes : passes_both st_inv 2 none none none dummies (PutLeecher d).
Proof.
  apply (each_both st_inv 1). intros c Hc. destruct (d_wf Hd c Hc) as (Hih & _ & Hp & _).
  apply passes_put_leecher; [done..|]. apply passes_done; set_solver.
Qed.

Lemma DeleteSeeder_passes : passes_both st_inv 2 none dummies none dummies (DeleteSeeder d).
Proof.
  apply (each_both st_inv 1). intros c Hc. destruct (d_wf Hd c Hc) as (Hih & Hp & _).
  apply passes_delete_seeder; [apply steady_inv|done..|]. apply passes_done; set_solver.
Qed.

Lemma LeecherPut_passes : passes_both st_inv 4 none dummies none dummies (LeecherPutAnnounceDeleteAnnounce d).
Proof.
  apply (each_both st_inv 2). intros c Hc. destruct (d_wf Hd c Hc) as (Hih & Hp & _ & Hport & H6).
  assert (hp_peer c ≠ dm c) as Hne by (intros E; by rewrite <-E in Hport).
  assert (size ({[hp_peer c]} ∪ {[dm c]} : gset Peer) = 2%nat) as H2
    by (rewrite size_union by set_solver; by rewrite !size_singleton).
  apply passes_put_leecher; [done..|].
  apply (passes_announce_found _ steady_inv); [done|apply (few [hp_peer c; dm c]); [set_solver..|cbn; lia]|apply pool_in; set_solver|]. intros _ _.
  apply (passes_announce_found _ steady_inv); [done|apply (few [hp_peer c; dm c]); [set_solver..|cbn; lia]|apply pool_in; set_solver|]. intros _ _.
  apply (passes_scrape _ steady_inv); [done|]. intros _ _ _ _ _ _ _ _ _. rewrite H2, size_empty.
  do 2 (apply passes_require; [done|]).
  apply (passes_found_leecher _ steady_inv); [done..|set_solver|].
  apply (passes_announce _ steady_inv); [done|apply (few [hp_peer c; dm c]); [set_solver..|cbn; lia]|].
  intros ps Hps. apply passes_require; [|apply passes_done; set_solver].
  apply negb_true_iff, (containsPeer_others _ _ (dm c)); [done|]. intros x (_ & Hx)%Hps%pool_in. set_solver.
Qed.

Lemma SeederPut_passes : passes_both st_inv 4 none dummies none dummies (SeederPutAnnounceDeleteAnnounce d).
Proof.
  apply (each_both st_inv 2). intros c Hc. destruct (d_wf Hd c Hc) as (Hih & Hp & _ & Hport & H6).
  apply passes_put_seeder; [done..|].
  apply (passes_announce_found _ steady_inv); [done|apply (few [hp_peer c; dm c]); [set_solver..|cbn; lia]|apply pool_in; set_solver|].
  intros _ _. apply (passes_scrape _ steady_inv); [done|]. intros _ _ _ _ _ _ _ _ _.
  rewrite (right_id_L ∅ _), !size_singleton. do 2 (apply passes_require; [done|]).
  apply (passes_found_seeder _ steady_inv); [done..|set_solver|].
  apply (passes_announce _ steady_inv); [done|apply (few [hp_peer c; dm c]); [set_solver..|cbn; lia]|].
  intros ps Hps. apply passes_require; [|apply passes_done; set_solver].
  apply negb_true_iff, (containsPeer_others _ _ (dm c)); [done|]. intros x (_ & Hx)%Hps%pool_in. set_solver.
Qed.

Lemma LeecherPutGraduate_passes :
  passes_both st_inv 14 none dummies none none (LeecherPutGraduateAnnounceDeleteAnnounce d).
Proof.
  apply (each_both st_inv 7). intros c Hc. destruct (d_wf Hd c Hc) as (Hih & Hp & Hdm & Hport & H6).
  assert (hp_peer c ≠ dm c) as Hne by (intros E; by rewrite <-E in Hport).
  apply passes_put_leecher; [done..|]. apply passes_graduate; [done..|].
  apply (passes_announce_found _ steady_inv); [done|apply (few [hp_peer c; dm c]); [set_solver..|cbn; lia]|apply pool_in; set_solver|].
  intros _ _. apply (passes_delete_leecher _ steady_inv); [done..|].
  apply (passes_announce_found _ steady_inv); [done|apply (few [hp_peer c; dm c]); [set_solver..|cbn; lia]|apply pool_in; set_solver|].
  intros _ _. apply (passes_found_leecher _ steady_inv); [done..|set_solver|].
  apply (passes_delete_leecher _ steady_inv); [done..|].
  apply (passes_found_seeder _ steady_inv); [done..|set_solver|].
  apply (passes_delete_seeder _ steady_inv); [done..|].
  apply passes_done; set_solver.
Qed.

(** All tests of the peer storage, one after the other, on swarms that are empty
    at first and at the end. *)
Lemma peer_tests_pass s n :
  st_inv (30 + n) s → Forall (λ c, st_fresh (hp_ih c) s ∧ ∀ r, st_view s r (hp_ih c) = ∅) [c1; c2] →
  ∃ s', run_all (peer_tests d) s = Some (s', replicate 9 true) ∧ st_inv n s' ∧ st_view s' ≡ st_view s.
Proof.
  intros Hs Hc. apply list.Forall_cons in Hc as [[F1 E1] [[F2 E2] _]%list.Forall_cons].
  assert (unused [hp_ih c1; hp_ih c2] (30 + n) s) as Hu by (split; [done|by repeat (apply list.Forall_cons; split)]).
  assert (st_view s ≡ swarms none none (st_view s)) as HV.
  { unfold swarms. intros r ih. unfold upd. repeat case_decide; subst; destruct r; by rewrite ?E1, ?E2. }
  destruct (DeleteLeecher_passes (28 + n)%nat s _ Hu HV) as (s1 & R1 & U1 & V1).
  destruct (DeleteSeeder_unused (26 + n)%nat s1 _ U1 V1) as (s2 & R2 & U2 & V2).
  destruct (AnnouncePeers_passes (26 + n)%nat s2 _ U2 V2) as (s3 & R3 & U3 & V3).
  destruct (ScrapeSwarm_passes (26 + n)%nat s3 _ U3 V3) as (s4 & R4 & [I4 _] & V4).
  destruct (PutLeecher_passes (24 + n)%nat s4 _ I4 V4) as (s5 & R5 & I5 & V5).
  destruct (DeleteSeeder_passes (22 + n)%nat s5 _ I5 V5) as (s6 & R6 & I6 & V6).
  destruct (LeecherPut_passes (18 + n)%nat s6 _ I6 V6) as (s7 & R7 & I7 & V7).
  destruct (SeederPut_passes (14 + n)%nat s7 _ I7 V7) as (s8 & R8 & I8 & V8).
  destruct (LeecherPutGraduate_passes n s8 _ I8 V8) as (s9 & R9 & I9 & V9).
  exists s9. split; [|split; [done|by rewrite V9, <-HV]].
  unfold peer_tests. repeat (eapply run_all_cons; [eassumption|]). done.
Qed.

End Both.

(** ** The tests of the data storage *)

Section Data.
Context {S : Type} {HSt : DataStorage S} {HSpec : DataSpec S} (c1 c2 : hashPeer) (v4 v6 : Peer).

Abbreviation dd := (MkData [c1; c2] v4 v6).

Record keys_ok : Prop := {
  key_distinct : peer_key (hp_peer c1) ≠ peer_key (hp_peer c2);
  key_wf c : c ∈ [c1; c2] → InfoHash_wf (hp_ih c);
}.
Context (Hk : keys_ok).

(** Nothing is stored for the peers without a context. *)
Definition no_context (s : S) : Prop := ds_ok s ∧ Forall (λ c, ds_get s [] (peer_key (hp_peer c)) = None) [c1; c2].

Lemma custom_put c s : c ∈ [c1; c2] → no_context s →
  ∃ s', CustomPutContainsLoadDelete (MkData [c] v4 v6) s = Some (s', true) ∧ no_context s'.
Proof.
  intros Hc [Hs Hn]. set (k := peer_key (hp_peer c)). pose proof Hn as Hn'. rewrite list.Forall_forall in Hn'.
  pose proof (Hn' c Hc) as Hnone. cbv beta in Hnone. fold k in Hnone.
  unfold CustomPutContainsLoadDelete. cbn [each testData]. fold k.
  destruct (ds_Put s kvStoreCtx [MkEntry k (hp_ih c)] Hs) as (s1 & E1 & Hs1 & G1).
  assert (ds_get s1 kvStoreCtx k = Some (hp_ih c)) as Gk.
  { rewrite G1, decide_True by done. cbn. by rewrite decide_True. }
  assert (∀ k', ds_get s1 [] k' = ds_get s [] k') as Ge by (intros k'; rewrite G1; by rewrite decide_False).
  destruct (ds_Delete s1 kvStoreCtx [k] Hs1) as (s2 & E2 & Hs2 & G2).
  assert (∀ k', ds_get s2 [] k' = ds_get s [] k') as Ge2 by (intros k'; rewrite G2, decide_False by (by intros [? _]); apply Ge).
  exists s2. split; [|split; [done|]].
  - rewrite (M_bind_Some _ _ _ s2 true); [done|].
    rewrite (M_bind_Some _ _ _ _ _ E1). cbn [Nil require].
    rewrite (M_bind_Some _ _ _ _ _ (ds_Contains s1 _ _ Hs1)). rewrite Gk. cbn [Nil require].
    rewrite bool_decide_eq_true_2 by by eexists. cbn [require].
    rewrite (M_bind_Some _ _ _ _ _ (ds_Contains s1 _ _ Hs1)). rewrite Ge, Hnone. cbn [Nil require].
    rewrite bool_decide_eq_false_2 by by intros [? ?]. cbn [negb require].
    rewrite (M_bind_Some _ _ _ _ _ (ds_Load s1 _ _ Hs1)). rewrite Gk. cbn [Nil require from_option id].
    rewrite (NewInfoHash_raw (hp_ih c)) by by apply Hk. cbv beta. rewrite bool_decide_eq_true_2 by done. cbn [require].
    rewrite (M_bind_Some _ _ _ _ _ (ds_Load s1 _ _ Hs1)). rewrite Ge, Hnone. cbn [Nil require].
    rewrite bool_decide_eq_true_2 by done. cbn [require].
    rewrite (M_bind_Some _ _ _ _ _ E2). cbn [Nil require].
    rewrite (M_bind_Some _ _ _ _ _ (ds_Contains s2 _ _ Hs2)). rewrite Ge2, Hnone. cbn [Nil require].
    by rewrite bool_decide_eq_false_2 by by intros [? ?].
  - eapply list.Forall_impl; [exact Hn|]. intros c' Hc'. by rewrite Ge2.
Qed.

Lemma each_pair {A} (f : A → M S bool) x y s s1 s2 b :
  f x s = Some (s1, true) → f y s1 = Some (s2, b) → each f [x; y] s = Some (s2, b).
Proof. intros E1 E2. cbn [each]. rewrite (M_bind_Some _ _ _ _ _ E1). cbn [require]. rewrite (M_bind_Some _ _ _ _ _ E2). by destruct b. Qed.

Lemma each_one {A} (f : A → M S bool) x s s1 : each f [x] s = Some (s1, true) → f x s = Some (s1, true).
Proof. cbn [each]. unfold mbind, M_bind. destruct (f x s) as [[s0 []]|]; done. Qed.

Lemma custom_puts s : no_context s → ∃ s', CustomPutContainsLoadDelete dd s = Some (s', true) ∧ no_context s'.
Proof.
  intros Hs. destruct (custom_put c1 s ltac:(set_solver) Hs) as (s1 & E1 & Hs1).
  destruct (custom_put c2 s1 ltac:(set_solver) Hs1) as (s2 & E2 & Hs2). exists s2. split; [|done].
  apply (each_pair _ _ _ _ s1).
  - apply each_one, E1.
  - apply each_one, E2.
Qed.

(** Looking for all keys. *)
Lemma each_contains s (want : bool) k1 k2 : ds_ok s →
  (∀ k, k ∈ [k1; k2] → is_Some (ds_get s kvStoreCtx k) ↔ want = true) →
  each (λ k, '(contains, err) ← Contains kvStoreCtx k;
             require (Nil err) (require (if want then contains else negb contains) (mret true))) [k1; k2] s = Some (s, true).
Proof.
  intros Hs Hk'. assert (∀ k, k ∈ [k1; k2] → bool_decide (is_Some (ds_get s kvStoreCtx k)) = want) as Hb.
  { intros k Hin. specialize (Hk' k Hin). destruct want; [by apply bool_decide_eq_true_2, Hk'|].
    apply bool_decide_eq_false_2. by intros ?%Hk'. }
  apply (each_pair _ _ _ _ s); rewrite (M_bind_Some _ _ _ _ _ (ds_Contains s _ _ Hs)), Hb by set_solver; by destruct want.
Qed.

Lemma custom_bulk s : ds_ok s → ∃ s', CustomBulkPutContainsLoadDelete dd s = Some (s', true).
Proof.
  intros Hs. unfold CustomBulkPutContainsLoadDelete. cbn [testData fmap list_fmap].
  set (k1 := peer_key (hp_peer c1)). set (k2 := peer_key (hp_peer c2)). assert (k1 ≠ k2) as Hne by apply Hk.
  destruct (ds_Put s kvStoreCtx [MkEntry k1 (hp_ih c1); MkEntry k2 (hp_ih c2)] Hs) as (s1 & E1 & Hs1 & G1).
  assert (ds_get s1 kvStoreCtx k1 = Some (hp_ih c1)) as Gk1.
  { rewrite G1, decide_True by done. cbn. rewrite decide_True, decide_False by done. done. }
  assert (ds_get s1 kvStoreCtx k2 = Some (hp_ih c2)) as Gk2.
  { rewrite G1, decide_True by done. cbn. rewrite decide_False, decide_True by done. done. }
  destruct (ds_Delete s1 kvStoreCtx [k1; k2] Hs1) as (s2 & E2 & Hs2 & G2).
  exists s2. rewrite (M_bind_Some _ _ _ _ _ E1). cbn [Nil require].
  rewrite (M_bind_Some _ _ _ s1 true) by (apply (each_contains s1 true); [done|];
    intros k [-> | ->%list_elem_of_singleton]%list.elem_of_cons; rewrite ?Gk1, ?Gk2; split; [done|by eexists|done|by eexists]).
  cbn [require]. rewrite (M_bind_Some _ _ _ s1 true).
  2: { apply (each_pair _ _ _ _ s1); cbn [entry_Key entry_Value]; rewrite (M_bind_Some _ _ _ _ _ (ds_Load s1 _ _ Hs1)), ?Gk1, ?Gk2;
         cbn [from_option id]; rewrite NewInfoHash_raw by (apply Hk; set_solver); by rewrite bool_decide_eq_true_2. }
  cbn [require]. rewrite (M_bind_Some _ _ _ _ _ E2). cbn [Nil require].
  apply (each_contains s2 false); [done|]. intros k Hin. rewrite G2, decide_True by done. split; [by intros [? ?]|done].
Qed.

Lemma data_tests_pass s : no_context s → ∃ s', run_all (data_tests dd) s = Some (s', [true; true]).
Proof.
  intros Hs. destruct (custom_puts s Hs) as (s1 & E1 & [Hs1 _]). destruct (custom_bulk s1 Hs1) as (s2 & E2).
  exists s2. unfold data_tests. by do 2 (eapply run_all_cons; [eassumption|]).
Qed.
End Data.

(** ** All tests, on a storage that embeds a data storage *)

Section Embedding.
Context {A B : Type} {HP : PeerStorage A} {HD : DataStorage B}.

#[export, refine] Instance embedded_StorageAnswers {HS : StorageSpec A} {HA : StorageAnswers A} : StorageAnswers (A * B) :=
  {| st_fresh ih s := st_fresh ih s.1 |}.
Proof.
  - intros n [a b] ih p Hi Hih Hp Hin. destruct (found_seeder n a ih p Hi Hih Hp Hin) as (a' & E).
    exists (a', b). by apply on_peers_Some.
  - intros n [a b] ih p Hi Hih Hp Hin. destruct (found_leecher n a ih p Hi Hih Hp Hin) as (a' & E).
    exists (a', b). by apply on_peers_Some.
  - intros n [a b] ih fs nw v6 s' ps e Hi Hih Hn E. cbn in E. unfold on_peers in E.
    destruct (Storage.AnnouncePeers ih fs nw v6 a) as [[a' [ps' e']]|] eqn:Ea; [|done]. injection E as <- <- <-.
    by apply (found_peers n a ih fs nw v6 a').
  - intros n [a b] ih p ih' s' e Hi Hih Hp Hf [E|E]; cbn in E; unfold on_peers in E.
    + destruct (Storage.DeleteSeeder ih p a) as [[a' e']|] eqn:Ea; [|done]. injection E as <- <-.
      eapply (fresh_delete n a ih p); eauto.
    + destruct (Storage.DeleteLeecher ih p a) as [[a' e']|] eqn:Ea; [|done]. injection E as <- <-.
      eapply (fresh_delete n a ih p); eauto.
  - intros n [a b] ih fs nw v6 ih' s' r Hi Hih Hn Hf E. cbn in E. unfold on_peers in E.
    destruct (Storage.AnnouncePeers ih fs nw v6 a) as [[a' r']|] eqn:Ea; [|done]. injection E as <- <-.
    by eapply (fresh_announce n a ih fs nw v6).
  - intros n [a b] ih ih' s' l c d e Hi Hih Hf E. cbn in E. unfold on_peers in E.
    destruct (Storage.ScrapeSwarm ih a) as [[a' [[[l' c'] d'] e']]|] eqn:Ea; [|done]. injection E as <- <- <- <- <-.
    by eapply (fresh_scrape n a ih).
Defined.

(** What a test leaves as it is: the tests of one storage, the other one. *)
Section Keeps.
Context {C : Type} (part : A * B → C).

Definition leaves {X} (m : M (A * B) X) : Prop := ∀ s s' x, m s = Some (s', x) → part s' = part s.

Lemma keeps_ret {X} (x : X) : leaves (mret x).
Proof. by intros s s' y [= <- _]. Qed.

Lemma keeps_bind {X Y} (m : M (A * B) X) (k : X → M (A * B) Y) : leaves m → (∀ x, leaves (k x)) → leaves (m ≫= k).
Proof.
  intros Hm Hk s s' y. unfold mbind, M_bind. destruct (m s) as [[s1 x]|] eqn:E; [|done].
  intros E2. rewrite (Hk x _ _ _ E2). by eapply Hm.
Qed.

Lemma keeps_require b (k : M (A * B) bool) : leaves k → leaves (require b k).
Proof. intros Hk. destruct b; [exact Hk|apply keeps_ret]. Qed.

Lemma keeps_each {X} (f : X → M (A * B) bool) l : (∀ x, leaves (f x)) → leaves (each f l).
Proof.
  intros Hf. induction l as [|x l IH]; [apply keeps_ret|]. cbn [each].
  apply keeps_bind; [apply Hf|]. intros ok. by apply keeps_require.
Qed.

Lemma keeps_run_all (l : list (M (A * B) bool)) : Forall leaves l → leaves (run_all l).
Proof.
  intros Hl. induction Hl as [|t l Ht _ IH]; [apply keeps_ret|]. cbn [run_all].
  apply keeps_bind; [done|]. intros b. apply keeps_bind; [done|]. intros bs. apply keeps_ret.
Qed.
End Keeps.

Lemma keeps_peers {X} (m : M A X) : leaves snd (on_peers m).
Proof. intros [a b] s' x. unfold on_peers. destruct (m a) as [[a' y]|]; [|done]. by intros [= <- _]. Qed.

Lemma keeps_values {X} (m : M B X) : leaves fst (on_data m).
Proof. intros [a b] s' x. unfold on_data. destruct (m b) as [[b' y]|]; [|done]. by intros [= <- _]. Qed.

Lemma peer_tests_keep d : leaves snd (run_all (peer_tests (S := A * B) d)).
Proof.
  apply keeps_run_all. unfold peer_tests.
  repeat (apply list.Forall_cons; split); try apply list.Forall_nil; try done.
  all: apply keeps_each; intros c; cbv zeta.
  all: repeat first [apply keeps_ret | apply keeps_require | (apply keeps_bind; [apply keeps_peers|intros ?]) | case_match].
Qed.

Lemma data_tests_keep d : leaves fst (run_all (data_tests (S := A * B) d)).
Proof.
  apply keeps_run_all. unfold data_tests.
  repeat (apply list.Forall_cons; split); try apply list.Forall_nil; try done.
  all: unfold CustomPutContainsLoadDelete, CustomBulkPutContainsLoadDelete; cbv zeta.
  all: repeat first [apply keeps_ret | apply keeps_require | apply keeps_each; intros ?
    | (apply keeps_bind; [first [apply keeps_values | apply keeps_each; intros ?]|intros ?]) | case_match].
Qed.

Lemma run_all_app (l1 l2 : list (M (A * B) bool)) s s1 s2 b1 b2 :
  run_all l1 s = Some (s1, b1) → run_all l2 s1 = Some (s2, b2) → run_all (l1 ++ l2) s = Some (s2, b1 ++ b2).
Proof.
  revert s b1. induction l1 as [|t l1 IH]; intros s b1 E1 E2; [by injection E1 as -> <-|].
  cbn [run_all app] in E1 |- *. unfold mbind, M_bind in *. destruct (t s) as [[s0 b]|]; [|done].
  destruct (run_all l1 s0) as [[s3 b3]|] eqn:E; [|done]. injection E1 as -> <-.
  by rewrite (IH s0 b3 E E2).
Qed.
End Embedding.

(** ** The in-memory store *)

Import (hints) MemStore MemData.

#[export, refine] Instance memory_answers : StorageAnswers MemStore.world := {| st_fresh _ _ := True |}.
Proof.
  - intros k w ih p Hi Hih _ Hin. cbn in *. unfold MemStore.timed, MemStore.DeleteSeeder.
    MemStore.run_method Hi Hih. destruct (MemStore.swarms sh !! ih) as [sw|] eqn:E; [by eexists|].
    exfalso. unfold MemStore.store_view in Hin. apply elem_of_dom in Hin as [t Ht].
    rewrite (MemStore.tview_no_swarm _ _ _ _ Seeder Hi Hsh E) in Ht.
    unfold MemStore.t_update, MemStore.at_role in Ht. rewrite decide_True, lookup_delete_eq in Ht; done.
  - intros k w ih p Hi Hih _ Hin. cbn in *. unfold MemStore.timed, MemStore.DeleteLeecher.
    MemStore.run_method Hi Hih. destruct (MemStore.swarms sh !! ih) as [sw|] eqn:E; [by eexists|].
    exfalso. unfold MemStore.store_view in Hin. apply elem_of_dom in Hin as [t Ht].
    rewrite (MemStore.tview_no_swarm _ _ _ _ Leecher Hi Hsh E) in Ht.
    unfold MemStore.t_update, MemStore.at_role in Ht. rewrite decide_True, lookup_delete_eq in Ht; done.
  - intros k w ih fs n v6 s' ps e Hi Hih Hn. cbn. unfold MemStore.timed.
    destruct (@MemStore.AnnouncePeers_run (MemStore.tk_order (MemStore.w_ticks w (MemStore.w_pos w))) (MemStore.w_store w) ih fs n v6 Hi Hih Hn) as (ks & -> & _).
    intros [= _ _ E]. by rewrite E.
  - done.
  - done.
  - intros k w ih ih' s' l c d e Hi Hih _. cbn. unfold MemStore.timed.
    rewrite (MemStore.ScrapeSwarm_run _ ih Hi Hih). by intros [= _ _ _ E _].
Defined.

(** ** Properties *)

(** What [rand.Read] gives [init]: as many bytes as asked for, each time. *)
Definition reads_ok (read : nat → result bytes) : Prop :=
  Forall2 (λ n r, ∃ b, r = Ok b ∧ length b = n) [20; 32; 20; 20; 20; 20]%nat (read <$> seq 0 6).

Lemma init_data read : reads_ok read →
  ∃ ih1 ih2 id0 id1 id2 id3, length ih1 = 20%nat ∧ length ih2 = 32%nat ∧
    init read = Some (MkData [MkHashPeer ih1 (MkPeer id0 (Addr4 0x01010101) 1);
                              MkHashPeer ih2 (MkPeer id1 (Addr6 0xabab0000000000000000000000000001 []) 2)]
                       (MkPeer id2 (Addr4 0x63636363) 9994) (MkPeer id3 (Addr6 0xfc000000000000000000000000000001 []) 9996)).
Proof.
  intros Hr. unfold reads_ok in Hr. cbn [fmap list_fmap seq] in Hr.
  inversion_clear Hr as [|? ? ? ? (ih1 & E0 & L0) Hr0]. inversion_clear Hr0 as [|? ? ? ? (ih2 & E1 & L1) Hr1].
  inversion_clear Hr1 as [|? ? ? ? (id0 & E2 & L2) Hr2]. inversion_clear Hr2 as [|? ? ? ? (id1 & E3 & L3) Hr3].
  inversion_clear Hr3 as [|? ? ? ? (id2 & E4 & L4) Hr4]. inversion_clear Hr4 as [|? ? ? ? (id3 & E5 & L5) _].
  exists ih1, ih2, id0, id1, id2, id3. split; [done|]. split; [done|].
  unfold init. rewrite E0, E1, E2, E3, E4, E5. cbn [randIH randPeerID mbind option_bind].
  rewrite !NewInfoHash_raw by (unfold InfoHash_wf; tauto). by rewrite !NewPeerID_Ok by done.
Qed.

(** The repository's own tests for storages pass, whatever random bytes they draw,
    on every peer storage of the contract that embeds a data storage of the
    contract, provided that the swarms of the two hashes drawn are empty and the
    keys of the peers unused without a context; the swarms end as they were. *)
Theorem storage_tests_pass {A B : Type} {HP : PeerStorage A} {HS : StorageSpec A} {HA : StorageAnswers A}
    {HDt : DataStorage B} {HDs : DataSpec B} (read : nat → result bytes) (d : data) (n : nat) (a : A) (b : B) :
  reads_ok read → init read = Some d →
  st_inv (30 + n) a → Forall st_peer (v4Peer d :: v6Peer d :: (hp_peer <$> testData d)) →
  Forall (λ c, st_fresh (hp_ih c) a ∧ ∀ r, st_view a r (hp_ih c) = ∅) (testData d) →
  ds_ok b → Forall (λ c, ds_get b [] (peer_key (hp_peer c)) = None) (testData d) →
  ∃ a' b', RunTests d (a, b) = Some ((a', b'), replicate 11 true) ∧ st_inv n a' ∧ st_view a' ≡ st_view a.
Proof.
  intros Hr Hinit Ha Hp Hc Hb Hk. destruct (init_data read Hr) as (ih1 & ih2 & id0 & id1 & id2 & id3 & L1 & L2 & E).
  rewrite E in Hinit. injection Hinit as <-. cbn [testData v4Peer v6Peer fmap list_fmap hp_peer] in *.
  rewrite list.Forall_forall in Hp.
  match type of Hc with Forall _ [?c1; ?c2] => set (c1' := c1) in *; set (c2' := c2) in * end.
  match goal with |- context [MkData _ ?p ?q] => set (p4 := p) in *; set (p6 := q) in * end.
  assert (∀ c, c ∈ [c1'; c2'] → InfoHash_wf (hp_ih c)) as Hwf.
  { intros c [-> | ->%list_elem_of_singleton]%list.elem_of_cons; unfold InfoHash_wf; tauto. }
  assert (data_ok (S := A * B) c1' c2' p4 p6) as Hd.
  { split; [intros Eq; apply (f_equal length) in Eq; cbn in Eq; lia|].
    intros c Hin. split; [by apply Hwf|]. apply list.elem_of_cons in Hin as [-> | ->%list_elem_of_singleton];
      (split; [apply Hp; set_solver|]; split; [apply Hp; set_solver|]; split; [discriminate|reflexivity]). }
  assert (Forall (λ c, st_fresh (S := A * B) (hp_ih c) (a, b) ∧ ∀ r, st_view (S := A * B) (a, b) r (hp_ih c) = ∅) [c1'; c2']) as Hc' by exact Hc.
  destruct (peer_tests_pass (S := A * B) c1' c2' p4 p6 Hd (a, b) n Ha Hc') as ([a' b'] & E1 & Ha' & Hv).
  pose proof (peer_tests_keep _ _ _ _ E1) as Eb. cbn [snd] in Eb. subst b'.
  assert (keys_ok c1' c2') as Hkeys by (split; [vm_compute; discriminate|exact Hwf]).
  destruct (data_tests_pass (S := A * B) c1' c2' p4 p6 Hkeys (a', b)) as ([a2 b2] & E2); [by split|].
  pose proof (data_tests_keep _ _ _ _ E2) as Ea. cbn [fst] in Ea. subst a2.
  exists a', b2. split; [|done]. unfold RunTests. by rewrite (run_all_app _ _ _ _ _ _ _ E1 E2).
Qed.

(** ** A concrete run: the in-memory store *)

Definition read1 (i : nat) : result bytes := Ok (replicate (if decide (i = 1%nat) then 32 else 20) (byte_of_Z (7 + Z.of_nat i))).
Definition store1 : MemStore.world := MemStore.MkWorld (MemStore.NewPeerStorage 2) (λ i, MemStore.MkTick (Z.of_nat i) shuffle_id) 0.

Lemma storage_tests_pass_witness :
  ∃ d a b, init read1 = Some d ∧ RunTests d (store1, MemData.NewDataStorage) = Some ((a, b), replicate 11 true).
Proof.
  assert (reads_ok read1) as Hr by (unfold reads_ok; cbn [fmap list_fmap seq];
    repeat (constructor; [eexists; split; reflexivity|]); constructor).
  destruct (init_data read1 Hr) as (ih1 & ih2 & id0 & id1 & id2 & id3 & _ & _ & E).
  assert (st_inv 30 store1) as Hi by (apply MemStore.new_inv; vm_compute; reflexivity).
  assert (∀ r ih, st_view store1 r ih = ∅) as Hv.
  { intros r ih. cbn. unfold MemStore.store_view, store1. cbn [MemStore.w_store]. by rewrite MemStore.new_tview, dom_empty_L. }
  assert (∀ k, MemData.get MemData.NewDataStorage [] k = None) as Hk.
  { intros k. unfold MemData.get, MemData.NewDataStorage. by rewrite lookup_empty. }
  eexists. destruct (storage_tests_pass read1 _ 0 store1 MemData.NewDataStorage Hr E Hi) as (a & b & R & _).
  - apply list.Forall_forall. intros p _. exact I.
  - apply list.Forall_forall. intros c _. split; [exact I|]. intros r. apply Hv.
  - exact I.
  - apply list.Forall_forall. intros c _. apply Hk.
  - exists a, b. split; [exact E|exact R].
Defined.

End StorageTest.
