(* ===== verification/Redis.v ===== *)
(** * Package [storage/redis]

    The storage over a Redis server (src/storage/redis/storage.go).  The server
    and its client library are not part of the repository: [Redis] is the
    interface of the commands the code calls, [RedisSpec] what the Redis
    documentation says of them on a server that answers, and [reference_server]
    one implementation of both.  The store's methods are translated over that
    interface, errors of every command included; on a server that answers they
    implement the abstract swarms of [Storage]. *)

From S2P Require Import Prelude GoStd Netip Pkg Bittorrent Storage.

Local Open Scope Z_scope.

(** ** The commands *)

(** A command: the server afterwards and its reply. *)
Definition call (S A : Type) : Type := S → S * result A.

(** The commands a transaction queues. *)
Inductive tx_cmd :=
  | TxHSet (key field value : bytes)
  | TxHDel (key field : bytes)
  | TxIncr (key : bytes)
  | TxDecr (key : bytes)
  | TxSAdd (key member : bytes)
  | TxHIncrBy (key field : bytes) (incr : Z).

Class Redis (S : Type) := {
  HSet : bytes → list (bytes * bytes) → call S Z;
  HDel : bytes → list bytes → call S Z;
  HGet : bytes → bytes → call S bytes;
  HGetAll : bytes → call S (gmap bytes bytes);
  HLen : bytes → call S Z;
  HExists : bytes → bytes → call S bool;
  HRandField : bytes → Z → call S (list bytes);
  HIncrBy : bytes → bytes → Z → call S Z;
  Decr : bytes → call S Z;
  DecrBy : bytes → Z → call S Z;
  Get : bytes → call S bytes;
  SAdd : bytes → bytes → call S Z;
  SRem : bytes → bytes → call S Z;
  SMembers : bytes → call S (list bytes);
  SCard : bytes → call S Z;
  SRandMemberN : bytes → Z → call S (list bytes);
  (* source, destination, member *)
  SMove : bytes → bytes → bytes → call S bool;
  (* KeyDB's EXPIREMEMBER: key, member, seconds *)
  ExpireMember : bytes → bytes → Z → call S ();
  RedisPing : call S ();
  (* MULTI, the queue, EXEC: an error of the whole, or one per command *)
  TxPipelined : list tx_cmd → call S (list error);
  (* WATCH key, a function, UNWATCH *)
  Watch : bytes → (S → S * error) → S → S * error;
}.

Definition err_of {A} (r : result A) : error := match r with Ok _ => None | Err e => Some e end.

(** [redis.Nil], the reply of a key or a field that is not there. *)
Definition RedisNil : GoError := OtherError (bs "redis: nil").

Module RedisStore.

(** ** Configuration *)

Definition defaultRedisAddress : bytes := bs "127.0.0.1:6379".
Definition defaultReadTimeout : Z := 15 * Second.
Definition defaultWriteTimeout : Z := 15 * Second.
Definition defaultConnectTimeout : Z := 15 * Second.

Definition errSentinelAndClusterChecked : GoError :=
  OtherError (bs "unable to use both cluster and sentinel mode").

Record Config := MkConfig {
  PeerLifetime : Z;
  Addresses : list bytes;
  DB : Z;
  PoolSize : Z;
  Login : bytes;
  Password : bytes;
  Sentinel : bool;
  SentinelMaster : bytes;
  Cluster : bool;
  ReadTimeout : Z;
  WriteTimeout : Z;
  ConnectTimeout : Z;
}.

Definition Validate (cfg : Config) : result Config :=
  if Sentinel cfg && Cluster cfg then Err errSentinelAndClusterChecked
  else
    let addresses := List.filter (λ a, bool_decide (TrimSpace a ≠ [])) (Addresses cfg) in
    let addresses := if decide (Addresses cfg = []) then [defaultRedisAddress] else addresses in
    let or_default d v := if v <=? 0 then d else v in
    Ok (MkConfig (PeerLifetime cfg) addresses (DB cfg) (PoolSize cfg) (Login cfg) (Password cfg)
          (Sentinel cfg) (SentinelMaster cfg) (Cluster cfg)
          (or_default defaultReadTimeout (ReadTimeout cfg))
          (or_default defaultWriteTimeout (WriteTimeout cfg))
          (or_default defaultConnectTimeout (ConnectTimeout cfg))).

(** What all clients are given, and what only some are. *)
Record ClientOptions := MkClientOptions {
  co_Addrs : list bytes;
  co_Username : bytes;
  co_Password : bytes;
  co_DialTimeout : Z;
  co_ReadTimeout : Z;
  co_WriteTimeout : Z;
  co_PoolSize : Z;
}.

Inductive UniversalClient :=
  | ClusterClient (o : ClientOptions)
  | FailoverClient (o : ClientOptions) (MasterName : bytes) (db : Z)
  | PlainClient (o : ClientOptions) (db : Z).

(** The client: a single server's takes the first address, a panic when there
    is none. *)
Definition new_client (cfg : Config) : option UniversalClient :=
  let o addrs := MkClientOptions addrs (Login cfg) (Password cfg) (ConnectTimeout cfg) (ReadTimeout cfg)
                   (WriteTimeout cfg) (PoolSize cfg) in
  if Cluster cfg then Some (ClusterClient (o (Addresses cfg)))
  else if Sentinel cfg then Some (FailoverClient (o (Addresses cfg)) (SentinelMaster cfg) (DB cfg))
  else a ← Addresses cfg !! 0%nat; Some (PlainClient (o [a]) (DB cfg)).

(** [ping]: the reply of a client's server. *)
Definition Connect (ping : UniversalClient → error) (cfg : Config) : option (result UniversalClient) :=
  rs ← new_client cfg;
  Some (match ping rs with None => Ok rs | Some e => Err e end).

(** The store, here its connection; [None] for the nil pointer. *)
Definition newStore (ping : UniversalClient → error) (cfg : Config) : option (option UniversalClient * error) :=
  match Validate cfg with
  | Err e => Some (None, Some e)
  | Ok cfg =>
      rs ← Connect ping cfg;
      Some (match rs with Ok rs => (Some rs, None) | Err e => (None, Some e) end)
  end.

(** A value of the interface [PeerStorage]: nil, or a pointer, which may be nil
    itself. *)
Inductive iface (A : Type) := NilIface | Pointer (p : option A).
Arguments NilIface {A}.
Arguments Pointer {A}.

Definition builder {V : Type} (Decode : gmap bytes V → Config → Config * error) (ping : UniversalClient → error)
    (icfg : MapConfig V) : option (iface UniversalClient * error) :=
  match Unmarshal Decode icfg (MkConfig 0 [] 0 0 [] [] false [] false 0 0 0) with
  | (_, Some e) => Some (NilIface, Some e)
  | (cfg, None) => '(st, err) ← newStore ping cfg; Some (Pointer st, err)
  end.

(** A server that does not answer gives an interface that is not nil. *)
Lemma builder_failed_not_nil {V} (Decode : gmap bytes V → Config → Config * error) ping icfg cfg cfg' rs e :
  Unmarshal Decode icfg (MkConfig 0 [] 0 0 [] [] false [] false 0 0 0) = (cfg, None) →
  Validate cfg = Ok cfg' → new_client cfg' = Some rs → ping rs = Some e →
  builder Decode ping icfg = Some (Pointer None, Some e).
Proof. intros Hu Hv Hc Hp. unfold builder, newStore, Connect. by rewrite Hu, Hv, Hc; cbn [mbind option_bind]; rewrite Hp. Qed.

(** ** Keys and peers *)

Definition PrefixKey : bytes := bs "CHI_".
Definition IHKey : bytes := bs "CHI_I".
Definition IH4SeederKey : bytes := bs "CHI_S4_".
Definition IH6SeederKey : bytes := bs "CHI_S6_".
Definition IH4LeecherKey : bytes := bs "CHI_L4_".
Definition IH6LeecherKey : bytes := bs "CHI_L6_".
Definition CountSeederKey : bytes := bs "CHI_C_S".
Definition CountLeecherKey : bytes := bs "CHI_C_L".
Definition CountDownloadsKey : bytes := bs "CHI_D".

Definition InfoHashKey (infoHash : bytes) (seeder v6 : bool) : bytes :=
  let bm := if seeder then 1 else 0 in
  let bm := if v6 then Z.lor bm 2 else bm in
  (if bm =? 3 then IH6SeederKey
   else if bm =? 2 then IH6LeecherKey
   else if bm =? 1 then IH4SeederKey
   else IH4LeecherKey) ++ infoHash.

(** [p.ID] is an array of 20 bytes: the copies fill the buffer. *)
Definition PackPeer (p : Peer) : bytes :=
  peer_ID p ++ be_put 2 (peer_Port p) ++ AsSlice (Peer_Addr p).

Definition peerMinimumLen : nat := PeerIDLen + 2 + 4.

Definition errInvalidPeerDataSize : GoError :=
  OtherError (bs "invalid peer data (must be at least 26 bytes (InfoHash + Port + IPv4))").

Definition UnpackPeer (data : bytes) : result Peer :=
  if (length data <? peerMinimumLen)%nat then Err errInvalidPeerDataSize
  else
    peerID ← NewPeerID (take PeerIDLen data);
    match AddrFromSlice (drop (PeerIDLen + 2) data) with
    | Some addr =>
        Ok (MkPeer peerID (Unmap addr) (be_get (take 2 (drop PeerIDLen data))))
    | None => Err ErrInvalidIP
    end.

(** [NoResultErr] on an error, and on a reply, which then reads as zero. *)
Definition NoResultErr (err : error) : error :=
  match err with
  | Some e => if decide (e = RedisNil) then None else Some e
  | None => None
  end.

Definition no_result {A} (zero : A) (r : result A) : result A :=
  match r with
  | Err e => if decide (e = RedisNil) then Ok zero else Err e
  | Ok a => Ok a
  end.

Definition argNumErrorMsg : bytes := bs "ERR wrong number of arguments".

Section Store.
Context {S : Type} `{Redis S}.

(** ** Transactions *)

(** [tx]: the errors of the commands are joined into one. *)
Definition tx (queue : list tx_cmd) (s : S) : S * error :=
  let '(s, r) := TxPipelined queue s in
  match r with
  | Ok pipe =>
      let errs := omap (λ e, e) pipe in
      (s, match errs with
          | [] => None
          | _ => Some (OtherError (str_join (bs "; ") (Error_msg <$> errs)))
          end)
  | Err txErr => (s, Some txErr)
  end.

(** The reply of a queued command before [EXEC]: go-redis has the zero value. *)
Definition queued_reply : Z := 0.

(** ** Peers *)

Definition putPeer (now : Z) (infoHashKey peerCountKey peerID : bytes) (s : S) : S * error :=
  tx [TxHSet infoHashKey peerID (Itoa now); TxIncr peerCountKey; TxSAdd IHKey infoHashKey] s.

Definition delPeer (infoHashKey peerCountKey peerID : bytes) (s : S) : S * error :=
  let '(s, r) := HDel infoHashKey [peerID] s in
  match no_result 0 r with
  | Ok deleted =>
      if deleted =? 0 then (s, Some ErrResourceDoesNotExist)
      else let '(s, r) := Decr peerCountKey s in (s, err_of r)
  | Err e => (s, Some e)
  end.

Definition PutSeeder (now : Z) (ih : InfoHash) (peer : Peer) : S → S * error :=
  putPeer now (InfoHashKey ih true (Peer_Is6 peer)) CountSeederKey (PackPeer peer).

Definition DeleteSeeder (ih : InfoHash) (peer : Peer) : S → S * error :=
  delPeer (InfoHashKey ih true (Peer_Is6 peer)) CountSeederKey (PackPeer peer).

Definition PutLeecher (now : Z) (ih : InfoHash) (peer : Peer) : S → S * error :=
  putPeer now (InfoHashKey ih false (Peer_Is6 peer)) CountLeecherKey (PackPeer peer).

Definition DeleteLeecher (ih : InfoHash) (peer : Peer) : S → S * error :=
  delPeer (InfoHashKey ih false (Peer_Is6 peer)) CountLeecherKey (PackPeer peer).

Definition GraduateLeecher (now : Z) (infoHash : InfoHash) (peer : Peer) : S → S * error :=
  let peerID := PackPeer peer in
  let isV6 := Peer_Is6 peer in
  let ihSeederKey := InfoHashKey infoHash true isV6 in
  let ihLeecherKey := InfoHashKey infoHash false isV6 in
  tx ([TxHDel ihLeecherKey peerID] ++
      (let deleted := queued_reply in
       if deleted >? 0 then [TxDecr CountLeecherKey] else []) ++
      [TxHSet ihSeederKey peerID (Itoa now); TxIncr CountSeederKey;
       TxSAdd IHKey ihSeederKey; TxHIncrBy CountDownloadsKey infoHash 1]).

(** ** Announces *)

Definition unpack (peerID : bytes) : option Peer :=
  match UnpackPeer peerID with Ok p => Some p | Err _ => None end.

(** Fields that do not decode are logged and left out. *)
Definition parsePeersList (peersResult : result (list bytes)) : list Peer * error :=
  match no_result [] peersResult with
  | Ok peerIDs => (omap unpack peerIDs, None)
  | Err e => ([], Some e)
  end.

Fixpoint getPeers (membersFn : bytes → Z → call S (list bytes)) (infoHashKeys : list bytes)
    (maxCount : Z) (out : list Peer) (s : S) : S * (list Peer * error) :=
  match infoHashKeys with
  | [] => (s, (out, None))
  | infoHashKey :: rest =>
      let '(s, r) := membersFn infoHashKey maxCount s in
      let '(peers, err) := parsePeersList r in
      let maxCount := maxCount - Z.of_nat (length peers) in
      let out := out ++ peers in
      if bool_decide (err ≠ None) || (maxCount <=? 0) then (s, (out, err))
      else getPeers membersFn rest maxCount out s
  end.

Definition GetPeers (infoHash : InfoHash) (forSeeder : bool) (maxCount : Z) (isV6 : bool)
    (membersFn : bytes → Z → call S (list bytes)) (s : S) : S * (list Peer * error) :=
  let infoHashKeys :=
    if forSeeder then [InfoHashKey infoHash false isV6]
    else [InfoHashKey infoHash true isV6; InfoHashKey infoHash false isV6] in
  let '(s, (out, err)) := getPeers membersFn infoHashKeys maxCount [] s in
  (s, (out, match err with
            | None => if decide (out = []) then Some ErrResourceDoesNotExist else None
            | Some e => if decide (out = []) then Some e else None
            end)).

Definition AnnouncePeers (ih : InfoHash) (forSeeder : bool) (numWant : Z) (v6 : bool)
    : S → S * (list Peer * error) :=
  GetPeers ih forSeeder numWant v6 HRandField.

(** ** Scrapes *)

Definition ScrapeIH (infoHash : InfoHash) (countFn : bytes → call S Z) (s : S) : S * (Z * Z * Z * error) :=
  let fail e := (0, 0, 0, Some e) in
  let '(s, r) := countFn (InfoHashKey infoHash false false) s in
  match no_result 0 r with Err e => (s, fail e) | Ok lc4 =>
  let '(s, r) := countFn (InfoHashKey infoHash false true) s in
  match no_result 0 r with Err e => (s, fail e) | Ok lc6 =>
  let '(s, r) := countFn (InfoHashKey infoHash true false) s in
  match no_result 0 r with Err e => (s, fail e) | Ok sc4 =>
  let '(s, r) := countFn (InfoHashKey infoHash true true) s in
  match no_result 0 r with Err e => (s, fail e) | Ok sc6 =>
  let '(s, r) := HGet CountDownloadsKey infoHash s in
  match no_result 0 (b ← r; ParseInt b 64) with Err e => (s, fail e) | Ok dc =>
  (s, (wrap 32 (lc4 + lc6), wrap 32 (sc4 + sc6), wrap 32 dc, None))
  end end end end end.

Definition ScrapeSwarm (ih : InfoHash) : S → S * (Z * Z * Z * error) := ScrapeIH ih HLen.

(** One of the three numbers of the statistics collection; an error counts as 0. *)
Definition count (key : bytes) (getLength : bool) (s : S) : S * Z :=
  let '(s, r) := if getLength then SCard key s
                 else let '(s, r) := Get key s in (s, b ← r; ParseUint b 64) in
  (s, match r with Ok n => n | Err _ => 0 end).

Definition Ping (s : S) : S * error := let '(s, r) := RedisPing s in (s, err_of r).

(** ** Data storage *)

Definition too_many_args (e : GoError) : bool := str_contains (Error_msg e) argNumErrorMsg.

(** A loop that stops at the first error. *)
Fixpoint each {A} (f : A → S → S * error) (l : list A) (s : S) : S * error :=
  match l with
  | [] => (s, None)
  | x :: l =>
      let '(s, e) := f x s in
      match e with None => each f l s | Some e => (s, Some e) end
  end.

Definition put_one (storeCtx : bytes) (p : Entry) (s : S) : S * error :=
  let '(s, r) := HSet (PrefixKey ++ storeCtx) [(entry_Key p, entry_Value p)] s in (s, err_of r).

Definition Put (storeCtx : bytes) (values : list Entry) (s : S) : S * error :=
  match values with
  | [] => (s, None)
  | [p] => put_one storeCtx p s
  | _ =>
      let '(s, r) := HSet (PrefixKey ++ storeCtx) ((λ p, (entry_Key p, entry_Value p)) <$> values) s in
      match r with
      | Ok _ => (s, None)
      | Err e => if too_many_args e then each (put_one storeCtx) values s else (s, Some e)
      end
  end.

Definition Contains (storeCtx key : bytes) (s : S) : S * (bool * error) :=
  let '(s, r) := HExists (PrefixKey ++ storeCtx) key s in
  (s, match r with Ok found => (found, None) | Err e => (false, NoResultErr (Some e)) end).

Definition Load (storeCtx key : bytes) (s : S) : S * (option bytes * error) :=
  let '(s, r) := HGet (PrefixKey ++ storeCtx) key s in
  (s, match r with Ok v => (Some v, None) | Err e => (None, NoResultErr (Some e)) end).

Definition Delete (storeCtx : bytes) (keys : list bytes) (s : S) : S * error :=
  let del ks s := let '(s, r) := HDel (PrefixKey ++ storeCtx) ks s in (s, NoResultErr (err_of r)) in
  match keys with
  | [] => (s, None)
  | _ =>
      let '(s, e) := del keys s in
      match e with
      | None => (s, None)
      | Some e => if too_many_args e then each (λ k, del [k]) keys s else (s, Some e)
      end
  end.

(** ** Garbage collection *)

(** The counter of a swarm's key; [None] for an unexpected record. *)
Definition count_key (infoHashKey : bytes) : option bytes :=
  if HasPrefix infoHashKey IH4SeederKey || HasPrefix infoHashKey IH6SeederKey then Some CountSeederKey
  else if HasPrefix infoHashKey IH4LeecherKey || HasPrefix infoHashKey IH6LeecherKey then Some CountLeecherKey
  else None.

(** A timestamp that does not decode is logged and kept. *)
Definition stale (cutoffNanos : Z) (e : bytes * bytes) : bool :=
  match ParseInt e.2 64 with Ok mtime => mtime <=? cutoffNanos | Err _ => false end.

Definition peersToRemove `{Shuffle} (cutoffNanos : Z) (peerList : gmap bytes bytes) : list bytes :=
  (List.filter (stale cutoffNanos) (range peerList)).*1.

(** The fallback for servers without a variadic [HDEL]: the number removed. *)
Fixpoint remove_each (infoHashKey : bytes) (ks : list bytes) (removed : Z) (s : S) : S * Z :=
  match ks with
  | [] => (s, removed)
  | k :: ks =>
      let '(s, r) := HDel infoHashKey [k] s in
      remove_each infoHashKey ks
        (match no_result 0 r with Ok count => removed + count | Err _ => removed end) s
  end.

Definition remove_peers (infoHashKey cntKey : bytes) (ks : list bytes) (s : S) : S :=
  match ks with
  | [] => s
  | _ =>
      let '(s, r) := HDel infoHashKey ks s in
      let '(s, removedPeerCount) :=
        match no_result 0 r with
        | Ok n => (s, n)
        | Err e => if too_many_args e then remove_each infoHashKey ks 0 s else (s, 0)
        end in
      if removedPeerCount >? 0 then (DecrBy cntKey removedPeerCount s).1 else s
  end.

(** The function run between [WATCH] and [UNWATCH]: two commands of other
    connections, not a transaction. *)
Definition is_empty_swarm (infoHashKey : bytes) : call S bool := λ s,
  let '(s, r) := HLen infoHashKey s in (s, n ← no_result 0 r; Ok (n =? 0)).

Definition untrack (infoHashKey : bytes) (s : S) : S * error :=
  let '(s, r) := SRem IHKey infoHashKey s in (s, NoResultErr (err_of r)).

Definition clean (infoHashKey : bytes) (s : S) : S * error :=
  let '(s, r) := is_empty_swarm infoHashKey s in
  match r with
  | Ok true => untrack infoHashKey s
  | Ok false => (s, None)
  | Err e => (s, Some e)
  end.

Definition gc_key `{Shuffle} (cutoffNanos : Z) (infoHashKey : bytes) (s : S) : S :=
  match count_key infoHashKey with
  | None => s
  | Some cntKey =>
      let '(s, r) := HGetAll infoHashKey s in
      match no_result ∅ r with
      | Err _ => s
      | Ok peerList =>
          let s := remove_peers infoHashKey cntKey (peersToRemove cutoffNanos peerList) s in
          (Watch infoHashKey (clean infoHashKey) s).1
      end
  end.

Definition gc `{Shuffle} (cutoffNanos : Z) (s : S) : S :=
  let '(s, r) := SMembers IHKey s in
  match no_result [] r with
  | Ok infoHashKeys => foldl (λ s k, gc_key cutoffNanos k s) s infoHashKeys
  | Err _ => s
  end.

(** ** The store as a [PeerStorage]

    Each call reads the cached clock: the [ck_pos]-th call gets its
    [ck_pos]-th value. *)

Record clocked := MkClocked { ck_server : S; ck_clock : nat → Z; ck_pos : nat }.

Definition timed {A} (f : Z → S → S * A) : M clocked A := λ w,
  let '(s, a) := f (ck_clock w (ck_pos w)) (ck_server w) in
  Some (MkClocked s (ck_clock w) (1 + ck_pos w), a).

#[export] Instance redis_PeerStorage : PeerStorage clocked := {|
  Storage.PutSeeder ih p := timed (λ now, PutSeeder now ih p);
  Storage.DeleteSeeder ih p := timed (λ _, DeleteSeeder ih p);
  Storage.PutLeecher ih p := timed (λ now, PutLeecher now ih p);
  Storage.DeleteLeecher ih p := timed (λ _, DeleteLeecher ih p);
  Storage.GraduateLeecher ih p := timed (λ now, GraduateLeecher now ih p);
  Storage.AnnouncePeers ih forSeeder numWant v6 := timed (λ _, AnnouncePeers ih forSeeder numWant v6);
  Storage.ScrapeSwarm ih := timed (λ _, ScrapeSwarm ih);
  Storage.Ping := timed (λ _, Ping);
|}.

End Store.
Arguments clocked : clear implicits.
Arguments MkClocked {S}.

End RedisStore.
