(* ===== verification/SwarmKeys.v ===== *)
(** * The keys and packed peers of the Redis storages

    What the stores over Redis and over KeyDB share: packed peers, the keys of
    the swarms, the abstract swarms that packed peers under those keys stand for,
    and what [GetPeers] and [ScrapeIH] return on any server whose commands draw
    and count the members of those keys. *)

From S2P Require Import Prelude GoStd Netip Bittorrent Storage Redis.
Import RedisStore.

Local Open Scope Z_scope.

Definition int64 (n : Z) : Prop := - 2 ^ 63 <= n < 2 ^ 63.
#[export] Instance int64_dec n : Decision (int64 n).
Proof. unfold int64. apply _. Defined.

(** ** Packed peers *)

(** A peer a key can tell apart from every other: its address valid, unmapped
    and without a zone, its ID and port of their width. *)
Definition peer_ok (p : Peer) : Prop :=
  length (peer_ID p) = PeerIDLen ∧ uint 16 (peer_Port p) ∧ Addr_wf (peer_addr p) ∧
  IsValid (peer_addr p) = true ∧ Is4In6 (peer_addr p) = false ∧
  match peer_addr p with Addr6 _ z => z = [] | _ => True end.

(** What packing keeps of any peer. *)
Definition canonical (p : Peer) : Peer :=
  MkPeer (peer_ID p)
    (match Peer_Addr p with Addr6 ip _ => Addr6 ip [] | a => a end) (peer_Port p).

Lemma canonical_ok p : peer_ok p → canonical p = p.
Proof.
  intros (_ & _ & _ & _ & H4 & Hz). unfold canonical, Peer_Addr. rewrite Unmap_id by done.
  destruct p as [id a port]. cbn [peer_ID peer_addr peer_Port] in *. destruct a; [done..|]. by rewrite Hz.
Qed.

Lemma length_PackPeer p : length (peer_ID p) = PeerIDLen →
  length (PackPeer p) = (PeerIDLen + 2 + length (AsSlice (Peer_Addr p)))%nat.
Proof. intros H. unfold PackPeer. rewrite !length_app, length_be_put, H. lia. Qed.

Lemma Unmap_no_zone a : Is4In6 a = false →
  Unmap (match a with Addr6 ip _ => Addr6 ip [] | a => a end) =
    match a with Addr6 ip _ => Addr6 ip [] | a => a end.
Proof. intros H. apply Unmap_id. by destruct a. Qed.

Lemma UnpackPeer_PackPeer p :
  length (peer_ID p) = PeerIDLen → uint 16 (peer_Port p) →
  Addr_wf (peer_addr p) → IsValid (peer_addr p) = true →
  UnpackPeer (PackPeer p) = Ok (canonical p).
Proof.
  intros Hid Hport Hwf Hv. unfold UnpackPeer. rewrite length_PackPeer by done.
  assert (IsValid (Peer_Addr p) = true) as Hv' by (unfold Peer_Addr; by rewrite Unmap_IsValid).
  assert (4 ≤ length (AsSlice (Peer_Addr p)))%nat as Hlen.
  { rewrite length_AsSlice. destruct (Peer_Addr p); [done| |]; cbn [BitLen]; vm_compute; lia. }
  rewrite (proj2 (Nat.ltb_ge _ _)) by (unfold peerMinimumLen; lia).
  assert (take PeerIDLen (PackPeer p) = peer_ID p) as -> by (unfold PackPeer; by apply take_app_length').
  rewrite NewPeerID_Ok by done. cbn [mbind result_bind].
  assert (drop (PeerIDLen + 2) (PackPeer p) = AsSlice (Peer_Addr p)) as ->.
  { unfold PackPeer. rewrite app_assoc. apply drop_app_length'.
    by rewrite length_app, length_be_put, Hid. }
  rewrite AddrFromSlice_AsSlice by (unfold Peer_Addr; auto with mochi; by rewrite Unmap_IsValid).
  rewrite Unmap_no_zone by apply Unmap_not_4In6. unfold canonical. do 2 f_equal;
    [by destruct (Peer_Addr p)|].
  unfold PackPeer. rewrite drop_app_length' by done. rewrite take_app_length' by (symmetry; apply length_be_put).
  by apply (be_get_put_uint _ _ 16).
Qed.

Lemma unpack_PackPeer p : peer_ok p → unpack (PackPeer p) = Some p.
Proof.
  intros Hp. pose proof Hp as (? & ? & ? & ? & _ & _). unfold unpack.
  rewrite UnpackPeer_PackPeer by done. by rewrite canonical_ok.
Qed.

Lemma PackPeer_inj p q : peer_ok p → peer_ok q → PackPeer p = PackPeer q → p = q.
Proof. intros Hp Hq H. apply (f_equal unpack) in H. rewrite !unpack_PackPeer in H by done. congruence. Qed.

(** ** Keys *)

Lemma InfoHashKey_eq ih seeder v6 :
  InfoHashKey ih seeder v6 =
    (match seeder, v6 with
     | true, true => IH6SeederKey | true, false => IH4SeederKey
     | false, true => IH6LeecherKey | false, false => IH4LeecherKey
     end) ++ ih.
Proof. by destruct seeder, v6. Qed.

Lemma InfoHashKey_inj ih ih' s s' v v' :
  InfoHashKey ih s v = InfoHashKey ih' s' v' → ih = ih' ∧ s = s' ∧ v = v'.
Proof. rewrite !InfoHashKey_eq. destruct s, v, s', v'; intros H; simplify_eq; done. Qed.

Lemma InfoHashKey_other ih s v k :
  k ∈ [IHKey; CountSeederKey; CountLeecherKey; CountDownloadsKey] → InfoHashKey ih s v ≠ k.
Proof.
  rewrite InfoHashKey_eq. intros Hk He. subst k.
  repeat (apply list.elem_of_cons in Hk as [He|Hk]; [by destruct s, v|]). by apply elem_of_nil in Hk.
Qed.
(** ** The swarms under the keys

    [hashes]: what is stored under each info hash, role and family, the fields
    being packed peers. *)

Abbreviation hashes := (bytes → bool → bool → gmap bytes bytes).

Definition set_cell (ih : bytes) (s v : bool) (h : gmap bytes bytes) (H : hashes) : hashes :=
  λ ih' s' v', if decide ((ih', s', v') = (ih, s, v)) then h else H ih' s' v'.

Definition peers_in (h : gmap bytes bytes) : gset Peer := list_to_set (omap unpack (map_to_list h).*1).
Definition is_seeder (r : role) : bool := match r with Seeder => true | Leecher => false end.

(** Packed peers of one address family. *)
Definition packed (v : bool) (h : gmap bytes bytes) : Prop :=
  ∀ f x, h !! f = Some x → ∃ p, f = PackPeer p ∧ peer_ok p ∧ Peer_Is6 p = v.

Lemma elem_of_fields {A} (h : gmap bytes A) f : f ∈ (map_to_list h).*1 ↔ is_Some (h !! f).
Proof.
  rewrite list_elem_of_fmap. split.
  - intros ([f' x] & -> & Hx%elem_of_map_to_list). by eexists.
  - intros [x Hx]. exists (f, x). by rewrite elem_of_map_to_list.
Qed.

Lemma elem_of_peers_in v h p :
  packed v h → p ∈ peers_in h ↔ peer_ok p ∧ Peer_Is6 p = v ∧ is_Some (h !! PackPeer p).
Proof.
  intros Hh. unfold peers_in. rewrite elem_of_list_to_set, list_elem_of_omap. split.
  - intros (f & Hf%elem_of_fields & Hu). destruct Hf as [x Hx].
    destruct (Hh f x Hx) as (q & -> & Hq & Hv). rewrite unpack_PackPeer in Hu by done.
    simplify_eq. eauto.
  - intros (Hp & Hv & Hs). exists (PackPeer p). split; [by apply elem_of_fields|by apply unpack_PackPeer].
Qed.

Lemma set_cell_insert H ih b p x ih' s' p' :
  peer_ok p → peer_ok p' →
  is_Some (set_cell ih b (Peer_Is6 p) (<[PackPeer p := x]> (H ih b (Peer_Is6 p))) H ih' s' (Peer_Is6 p')
             !! PackPeer p') ↔
  (ih' = ih ∧ s' = b ∧ p' = p) ∨ is_Some (H ih' s' (Peer_Is6 p') !! PackPeer p').
Proof.
  intros Hp Hp'. unfold set_cell. case_decide as Hd; [injection Hd as -> -> Hv; rewrite <-Hv|].
  - destruct (decide (p' = p)) as [->|Hne]; [rewrite lookup_insert_eq; naive_solver|].
    rewrite lookup_insert_ne by (intros ?%PackPeer_inj; congruence). naive_solver.
  - split; [by right|]. intros [(-> & -> & ->)|?]; [done|done].
Qed.

Lemma set_cell_delete H ih b p ih' s' p' :
  peer_ok p → peer_ok p' →
  is_Some (set_cell ih b (Peer_Is6 p) (delete (PackPeer p) (H ih b (Peer_Is6 p))) H ih' s' (Peer_Is6 p')
             !! PackPeer p') ↔
  ¬ (ih' = ih ∧ s' = b ∧ p' = p) ∧ is_Some (H ih' s' (Peer_Is6 p') !! PackPeer p').
Proof.
  intros Hp Hp'. unfold set_cell. case_decide as Hd; [injection Hd as -> -> Hv; rewrite <-Hv|].
  - destruct (decide (p' = p)) as [->|Hne].
    + rewrite lookup_delete_eq. split; [by intros [? ?]|tauto].
    + rewrite lookup_delete_ne by (intros ?%PackPeer_inj; congruence). tauto.
  - split; [|by intros [_ ?]]. intros ?. split; [|done]. by intros (-> & -> & ->).
Qed.

Definition role_of (seeder : bool) : role := if seeder then Seeder else Leecher.
Lemma is_seeder_role r b : is_seeder r = b ↔ r = role_of b.
Proof. by destruct r, b. Qed.

(** ** Counting the peers of a hash *)

Lemma pack_unpack (l : list bytes) :
  (∀ f, f ∈ l → ∃ p, f = PackPeer p ∧ peer_ok p) → PackPeer <$> omap unpack l = l.
Proof.
  induction l as [|f l IH]; intros Hl; [done|].
  destruct (Hl f ltac:(by left)) as (p & -> & Hp). cbn [omap list_omap].
  rewrite unpack_PackPeer by done. cbn [fmap list_fmap]. f_equal. apply IH. intros g Hg. apply Hl. by right.
Qed.

Lemma fields_packed v h (fs : list bytes) :
  packed v h → (∀ f, f ∈ fs → is_Some (h !! f)) → PackPeer <$> omap unpack fs = fs.
Proof.
  intros Hh Hin. apply pack_unpack. intros f Hf. destruct (Hin f Hf) as [x Hx].
  destruct (Hh f x Hx) as (p & ? & ? & _). eauto.
Qed.

Lemma length_unpack v h (fs : list bytes) :
  packed v h → (∀ f, f ∈ fs → is_Some (h !! f)) → length (omap unpack fs) = length fs.
Proof. intros Hh Hin. rewrite <-(fields_packed v h fs Hh Hin) at 2. by rewrite length_fmap. Qed.

(** Distinct fields, as many as there are, are all of them. *)
Lemma all_fields (h : gmap bytes bytes) (fs : list bytes) f :
  NoDup fs ∧ (∀ f, f ∈ fs → is_Some (h !! f)) → (size h ≤ length fs)%nat → is_Some (h !! f) → f ∈ fs.
Proof.
  intros [Hnd Hin] Hlen Hf.
  assert (list_to_set fs = dom h) as E.
  { apply set_subseteq_size_eq.
    - intros g Hg%elem_of_list_to_set. by apply elem_of_dom, Hin.
    - rewrite size_list_to_set, size_dom by done. done. }
  apply (elem_of_list_to_set (C := gset bytes)). rewrite E. by apply elem_of_dom.
Qed.

Lemma unpack_in (h : gmap bytes bytes) (fs : list bytes) :
  (∀ f, f ∈ fs → is_Some (h !! f)) → Forall (.∈ peers_in h) (omap unpack fs).
Proof.
  intros Hin. apply list.Forall_forall. intros p (f & Hf & Hu)%list_elem_of_omap.
  unfold peers_in. apply elem_of_list_to_set, list_elem_of_omap. exists f. split; [|done].
  by apply elem_of_fields, Hin.
Qed.

Lemma size_peers_in v h : packed v h → size (peers_in h) = size h.
Proof.
  intros Hh. unfold peers_in.
  assert (∀ f, f ∈ (map_to_list h).*1 → is_Some (h !! f)) as Hin by (intros f; apply elem_of_fields).
  rewrite size_list_to_set.
  - by rewrite (length_unpack v h) , length_fmap, length_map_to_list.
  - apply (NoDup_fmap_1 PackPeer). rewrite (fields_packed v h) by done. apply NoDup_fst_map_to_list.
Qed.

(** The swarms the keys stand for. *)
Definition hview (H : hashes) : view := λ r ih,
  peers_in (H ih (is_seeder r) false) ∪ peers_in (H ih (is_seeder r) true).
Definition all_packed (H : hashes) : Prop := ∀ ih s v, packed v (H ih s v).

Lemma elem_of_hview H r ih p :
  all_packed H → p ∈ hview H r ih ↔ peer_ok p ∧ is_Some (H ih (is_seeder r) (Peer_Is6 p) !! PackPeer p).
Proof.
  intros Hp. unfold hview. rewrite elem_of_union, !elem_of_peers_in by apply Hp.
  destruct (Peer_Is6 p); naive_solver.
Qed.

Lemma all_packed_insert H ih b p x :
  all_packed H → peer_ok p →
  all_packed (set_cell ih b (Peer_Is6 p) (<[PackPeer p := x]> (H ih b (Peer_Is6 p))) H).
Proof.
  intros Hp Hok ih' b' v' f y. unfold set_cell. case_decide as Hd; [|apply Hp].
  injection Hd as -> -> ->. intros [[<- _]|[_ Hf]]%lookup_insert_Some; [by exists p|by eapply Hp].
Qed.

Lemma all_packed_delete H ih b v f :
  all_packed H → all_packed (set_cell ih b v (delete f (H ih b v)) H).
Proof.
  intros Hp ih' b' v' g y. unfold set_cell. case_decide as Hd; [|apply Hp].
  injection Hd as -> -> ->. intros [_ Hf]%lookup_delete_Some. by eapply Hp.
Qed.

Lemma insert_hview H ih b p x :
  all_packed H → peer_ok p →
  hview (set_cell ih b (Peer_Is6 p) (<[PackPeer p := x]> (H ih b (Peer_Is6 p))) H) ≡
    view_add (role_of b) ih p (hview H).
Proof.
  intros Hp Hok r ih'. apply set_eq. intros q. rewrite elem_of_view_add.
  rewrite !elem_of_hview by auto using all_packed_insert. split.
  - intros [Hq Hs]. apply set_cell_insert in Hs; [|done..]. rewrite is_seeder_role in Hs. tauto.
  - intros [(-> & -> & ->)|[Hq Hs]]; (split; [done|]); rewrite set_cell_insert by done;
      [rewrite is_seeder_role; by left|by right].
Qed.

Lemma delete_hview H ih b p :
  all_packed H → peer_ok p →
  hview (set_cell ih b (Peer_Is6 p) (delete (PackPeer p) (H ih b (Peer_Is6 p))) H) ≡
    view_remove (role_of b) ih p (hview H).
Proof.
  intros Hp Hok r ih'. apply set_eq. intros q. rewrite elem_of_view_remove.
  rewrite !elem_of_hview by auto using all_packed_delete. split.
  - intros [Hq Hs]. apply set_cell_delete in Hs as [Hn Hs]; [|done..].
    rewrite is_seeder_role in Hn. tauto.
  - intros [Hn [Hq Hs]]. split; [done|]. apply set_cell_delete; [done..|]. rewrite is_seeder_role. tauto.
Qed.

Lemma of_family_hview H r ih v :
  all_packed H → of_family v (hview H r ih) = peers_in (H ih (is_seeder r) v).
Proof.
  intros Hp. apply set_eq. intros p. unfold of_family. rewrite elem_of_filter, elem_of_hview by done.
  rewrite (elem_of_peers_in v) by apply Hp. naive_solver.
Qed.

Lemma size_hview H r ih :
  all_packed H →
  size (hview H r ih) =
    (size (peers_in (H ih (is_seeder r) false)) + size (peers_in (H ih (is_seeder r) true)))%nat.
Proof.
  intros Hp. unfold hview. apply size_union. intros p. rewrite !elem_of_peers_in by apply Hp.
  intros (_ & H1 & _) (_ & H2 & _). congruence.
Qed.

(** ** The shared methods

    [GetPeers] and [ScrapeIH] on a server that stays in a state [P] in which the
    keys hold [H], for any commands that draw members and count them. *)

Section Shared.
Context {S : Type} {HRedis : Redis S} (P : S → Prop) (H : hashes) (Hpk : all_packed H).

Section Members.
Context (membersFn : bytes → Z → call S (list bytes)).
Hypothesis members_spec : ∀ s ih b v c, P s → 0 < c →
  ∃ s' fs, membersFn (InfoHashKey ih b v) c s = (s', Ok fs) ∧ P s' ∧
    NoDup fs ∧ (∀ f, f ∈ fs → is_Some (H ih b v !! f)) ∧
    Z.of_nat (length fs) = Z.min c (Z.of_nat (size (H ih b v))).

Lemma getPeers_step s ks ih b v c out :
  P s → 0 < c →
  ∃ s' ps, getPeers membersFn (InfoHashKey ih b v :: ks) c out s =
      (let c' := c - Z.of_nat (length ps) in
       if c' <=? 0 then (s', (out ++ ps, None)) else getPeers membersFn ks c' (out ++ ps) s') ∧
    P s' ∧ Forall (.∈ peers_in (H ih b v)) ps ∧
    Z.of_nat (length ps) = Z.min c (Z.of_nat (size (peers_in (H ih b v)))) ∧
    (Z.of_nat (size (peers_in (H ih b v))) ≤ c → ∀ p, p ∈ peers_in (H ih b v) → p ∈ ps).
Proof.
  intros HP Hpos. cbn [getPeers].
  destruct (members_spec s ih b v c HP Hpos) as (s' & fs & -> & HP' & Hnd & Hin & Hlen).
  cbn [parsePeersList no_result].
  exists s', (omap unpack fs). rewrite (size_peers_in v) by apply Hpk.
  split_and!; [done..| | |].
  - by eapply unpack_in.
  - by rewrite (length_unpack v (H ih b v)).
  - intros Hle p Hp. apply (elem_of_peers_in v) in Hp as (Hok & _ & Hf); [|apply Hpk].
    apply list_elem_of_omap. exists (PackPeer p). split; [|by apply unpack_PackPeer].
    by apply (all_fields (H ih b v)); [|lia|].
Qed.

Lemma getPeers_all s ih (forSeeder : bool) c v :
  P s → 0 < c →
  let keys := if forSeeder then [InfoHashKey ih false v]
              else [InfoHashKey ih true v; InfoHashKey ih false v] in
  ∃ s' ps, getPeers membersFn keys c [] s = (s', (ps, None)) ∧ P s' ∧
    Forall (λ p, p ∈ ⋃ candidates (hview H) ih forSeeder v) ps ∧
    Z.of_nat (length ps) = Z.min c (Z.of_nat (available (hview H) ih forSeeder v)) ∧
    (Z.of_nat (available (hview H) ih forSeeder v) ≤ c →
     ∀ p, p ∈ ⋃ candidates (hview H) ih forSeeder v → p ∈ ps).
Proof.
  intros HP Hpos. unfold available, candidates. rewrite !of_family_hview by done. destruct forSeeder; cbv zeta.
  - destruct (getPeers_step s [] ih false v c [] HP Hpos) as (s' & ps & -> & ? & Hf & Hl & Ha).
    cbn [union_list fmap list_fmap sum_list foldr sum_list_with id is_seeder]. rewrite union_empty_r_L, Nat.add_0_r.
    exists s', ps. split; [by destruct (_ <=? _)|]. done.
  - destruct (getPeers_step s [InfoHashKey ih false v] ih true v c [] HP Hpos)
      as (s1 & ps1 & -> & HP1 & Hf1 & Hl1 & Ha1).
    cbn [union_list fmap list_fmap sum_list foldr sum_list_with id is_seeder]. rewrite union_empty_r_L, Nat.add_0_r.
    cbv zeta. destruct (Z.leb_spec (c - Z.of_nat (length ps1)) 0) as [Hle|Hgt].
    + exists s1, ps1. split_and!; [done..| |lia|].
      * eapply list.Forall_impl; [exact Hf1|]. intros p Hp. by apply elem_of_union_l.
      * intros Hav p [Hp|Hp]%elem_of_union; [apply Ha1; [lia|done]|].
        assert (size (peers_in (H ih false v)) = 0%nat) as E by lia.
        apply size_empty_inv in E. by apply E, not_elem_of_empty in Hp.
    + destruct (getPeers_step s1 [] ih false v (c - Z.of_nat (length ps1)) ([] ++ ps1) HP1 Hgt)
        as (s2 & ps2 & -> & HP2 & Hf2 & Hl2 & Ha2).
      exists s2, (ps1 ++ ps2). split; [by cbv zeta; destruct (_ <=? _)|].
      rewrite length_app. split_and!; [done| |lia|].
      * apply Forall_app. split; (eapply list.Forall_impl; [eassumption|]); intros p Hp;
          [by apply elem_of_union_l|by apply elem_of_union_r].
      * intros Hav p [Hp|Hp]%elem_of_union; apply elem_of_app;
          [left; apply Ha1|right; apply Ha2]; try done; lia.
Qed.

Lemma GetPeers_run s ih forSeeder numWant v :
  P s → 0 < numWant →
  ∃ s' ps e, GetPeers ih forSeeder numWant v membersFn s = (s', (ps, e)) ∧ benign e ∧
    (e = None ↔ ps ≠ []) ∧ P s' ∧
    Forall (λ p, p ∈ ⋃ candidates (hview H) ih forSeeder v) ps ∧
    Z.of_nat (length ps) = Z.min numWant (Z.of_nat (available (hview H) ih forSeeder v)) ∧
    (Z.of_nat (available (hview H) ih forSeeder v) ≤ numWant →
     ∀ p, p ∈ ⋃ candidates (hview H) ih forSeeder v → p ∈ ps).
Proof.
  intros HP Hpos. destruct (getPeers_all s ih forSeeder numWant v HP Hpos) as (s' & ps & E & ?).
  unfold GetPeers. rewrite E. destruct_and!. do 3 eexists. split; [done|]. cbv beta iota.
  destruct (decide (ps = [])) as [->|]; split_and!; try done; by (left + right).
Qed.

End Members.

Section Count.
Context (countFn : bytes → call S Z) (D : gmap bytes bytes).
Hypothesis count_spec : ∀ s ih b v, P s →
  ∃ s', countFn (InfoHashKey ih b v) s = (s', Ok (Z.of_nat (size (H ih b v)))) ∧ P s'.
Hypothesis downloads_spec : ∀ s ih, P s →
  ∃ s', HGet CountDownloadsKey ih s = (s', match D !! ih with Some x => Ok x | None => Err RedisNil end) ∧ P s'.
Hypothesis downloads_ok : ∀ ih x, D !! ih = Some x → ∃ c, x = Itoa c ∧ int64 c.

Lemma ScrapeIH_run s ih :
  P s →
  ∃ s' dl, ScrapeIH ih countFn s =
      (s', (wrap 32 (Z.of_nat (size (hview H Leecher ih))), wrap 32 (Z.of_nat (size (hview H Seeder ih))), dl, None)) ∧
    P s'.
Proof.
  intros HP. unfold ScrapeIH.
  destruct (count_spec s ih false false HP) as (s1 & -> & HP1).
  destruct (count_spec s1 ih false true HP1) as (s2 & E2 & HP2). cbn [no_result]. rewrite E2.
  destruct (count_spec s2 ih true false HP2) as (s3 & E3 & HP3). cbn [no_result]. rewrite E3.
  destruct (count_spec s3 ih true true HP3) as (s4 & E4 & HP4). cbn [no_result]. rewrite E4.
  destruct (downloads_spec s4 ih HP4) as (s5 & E5 & HP5). cbn [no_result]. rewrite E5.
  rewrite !size_hview, !Nat2Z.inj_add by done. cbn [is_seeder].
  assert (∀ b v, size (peers_in (H ih b v)) = size (H ih b v)) as Hsz by (intros b v; by apply (size_peers_in v)).
  rewrite !Hsz.
  destruct (D !! ih) as [x|] eqn:E.
  - destruct (downloads_ok ih x E) as (c & -> & Hc). unfold int64 in Hc.
    cbn [mbind result_bind]. rewrite ParseInt_Itoa by lia. by do 2 eexists.
  - by do 2 eexists.
Qed.

End Count.

End Shared.
