(* ===== verification/RedisSpec.v ===== *)
(** * What a Redis server does, and what the store over it does

    The documented effect of the commands on a server that answers, over a
    database of typed values; a reference server that satisfies it; and the
    proof that the store of [Redis] on such a server implements the abstract
    swarms, with its counters and its set of tracked keys. *)

From S2P Require Import Prelude GoStd Netip Bittorrent Storage Redis SwarmKeys.

Local Open Scope Z_scope.

(** ** The database *)

Inductive value :=
  | VHash (h : gmap bytes bytes)
  | VSet (m : gset bytes)
  | VInt (n : Z).

Abbreviation db := (gmap bytes value).

(** What a command for hashes, sets or integers finds under a key: nothing
    reads as empty; [None] is the [WRONGTYPE] error. *)
Definition hash_at (d : db) (k : bytes) : option (gmap bytes bytes) :=
  match d !! k with None => Some ∅ | Some (VHash h) => Some h | Some _ => None end.
Definition set_at (d : db) (k : bytes) : option (gset bytes) :=
  match d !! k with None => Some ∅ | Some (VSet m) => Some m | Some _ => None end.
Definition int_at (d : db) (k : bytes) : option Z :=
  match d !! k with None => Some 0 | Some (VInt n) => Some n | Some _ => None end.

(** Empty hashes and sets are not kept. *)
Definition put_hash (k : bytes) (h : gmap bytes bytes) (d : db) : db :=
  if decide (h = ∅) then delete k d else <[k := VHash h]> d.
Definition put_set (k : bytes) (m : gset bytes) (d : db) : db :=
  if decide (m = ∅) then delete k d else <[k := VSet m]> d.

(** An integer changed by [i]; [None] on overflow. *)
Definition incr_at (k : bytes) (i : Z) (d : db) : option db :=
  n ← int_at d k;
  if decide (int64 (n + i)) then Some (<[k := VInt (n + i)]> d) else None.

Definition field_int (h : gmap bytes bytes) (f : bytes) : option Z :=
  match h !! f with
  | None => Some 0
  | Some b => match ParseInt b 64 with Ok n => Some n | Err _ => None end
  end.

(** The effect of a queued command; [None] when it replies with an error. *)
Definition exec (c : tx_cmd) (d : db) : option db :=
  match c with
  | TxHSet k f v => h ← hash_at d k; Some (put_hash k (<[f := v]> h) d)
  | TxHDel k f => h ← hash_at d k; Some (put_hash k (delete f h) d)
  | TxIncr k => incr_at k 1 d
  | TxDecr k => incr_at k (-1) d
  | TxSAdd k x => m ← set_at d k; Some (put_set k ({[x]} ∪ m) d)
  | TxHIncrBy k f i =>
      h ← hash_at d k; n ← field_int h f;
      if decide (int64 (n + i)) then Some (put_hash k (<[f := Itoa (n + i)]> h) d) else None
  end.

Fixpoint exec_all (cs : list tx_cmd) (d : db) : option db :=
  match cs with [] => Some d | c :: cs => d ← exec c d; exec_all cs d end.

Definition remove_fields (fs : list bytes) (h : gmap bytes bytes) : gmap bytes bytes :=
  foldl (λ h f, delete f h) h fs.

(** ** The laws

    [replies x r d]: the reply is [r], and the server is up with database [d]. *)
Section Laws.
Context {S : Type} (up : S → Prop) (dbof : S → db).

Definition replies {A} (x : S * result A) (r : result A) (d : db) : Prop :=
  x.2 = r ∧ up x.1 ∧ dbof x.1 = d.
End Laws.

(** The commands the store uses, on a server that is up. *)
Class RedisSpec (S : Type) `{Redis S} := {
  rd_up : S → Prop;
  rd_db : S → db;
  rd_TxPipelined s cs d : rd_up s → exec_all cs (rd_db s) = Some d →
    replies rd_up rd_db (TxPipelined cs s) (Ok (replicate (length cs) None)) d;
  rd_HDel s k fs h : rd_up s → fs ≠ [] → hash_at (rd_db s) k = Some h →
    replies rd_up rd_db (HDel k fs s)
      (Ok (Z.of_nat (size h) - Z.of_nat (size (remove_fields fs h))))
      (put_hash k (remove_fields fs h) (rd_db s));
  rd_Decr s k n d : rd_up s → int_at (rd_db s) k = Some n → incr_at k (-1) (rd_db s) = Some d →
    replies rd_up rd_db (Decr k s) (Ok (n - 1)) d;
  rd_DecrBy s k i n d : rd_up s → int_at (rd_db s) k = Some n → incr_at k (- i) (rd_db s) = Some d →
    replies rd_up rd_db (DecrBy k i s) (Ok (n - i)) d;
  rd_HRandField s k n h : rd_up s → hash_at (rd_db s) k = Some h → 0 < n →
    ∃ fs, replies rd_up rd_db (HRandField k n s) (Ok fs) (rd_db s) ∧
      NoDup fs ∧ (∀ f, f ∈ fs → is_Some (h !! f)) ∧
      Z.of_nat (length fs) = Z.min n (Z.of_nat (size h));
  rd_HLen s k h : rd_up s → hash_at (rd_db s) k = Some h →
    replies rd_up rd_db (HLen k s) (Ok (Z.of_nat (size h))) (rd_db s);
  rd_HGet s k f h : rd_up s → hash_at (rd_db s) k = Some h →
    replies rd_up rd_db (HGet k f s)
      (match h !! f with Some v => Ok v | None => Err RedisNil end) (rd_db s);
  rd_HGetAll s k h : rd_up s → hash_at (rd_db s) k = Some h →
    replies rd_up rd_db (HGetAll k s) (Ok h) (rd_db s);
  rd_SMembers s k m : rd_up s → set_at (rd_db s) k = Some m →
    ∃ l, replies rd_up rd_db (SMembers k s) (Ok l) (rd_db s) ∧ l ≡ₚ elements m;
  rd_SRem s k x m : rd_up s → set_at (rd_db s) k = Some m →
    replies rd_up rd_db (SRem k x s) (Ok (if decide (x ∈ m) then 1 else 0))
      (put_set k (m ∖ {[x]}) (rd_db s));
  rd_Watch s k f : rd_up s → Watch k f s = f s;
}.

(** ** A server that keeps them

    Commands outside [RedisSpec] (and arguments of the wrong type) answer with an
    error. *)
Definition WRONGTYPE : GoError := OtherError (bs "WRONGTYPE").

Definition answer {A} (o : option (db * A)) (d : db) : db * result A :=
  match o with Some (d', a) => (d', Ok a) | None => (d, Err WRONGTYPE) end.

(** The client returns the error of the first command that failed. *)
Definition exec_tx (cs : list tx_cmd) (d : db) : db * result (list error) :=
  let '(d, errs) := foldl (λ '(d, errs) c,
    match exec c d with
    | Some d => (d, errs ++ [None])
    | None => (d, errs ++ [Some WRONGTYPE])
    end) (d, []) cs in
  (d, match omap (λ e, e) errs with [] => Ok errs | e :: _ => Err e end).

Definition reference_server : Redis db := {|
  HSet k fvs d := (d, Err WRONGTYPE);
  HDel k fs d := match fs with
    | [] => (d, Err (OtherError RedisStore.argNumErrorMsg))
    | _ => answer (h ← hash_at d k;
        Some (put_hash k (remove_fields fs h) d,
              Z.of_nat (size h) - Z.of_nat (size (remove_fields fs h)))) d
    end;
  HGet k f d := match hash_at d k with
                | Some h => (d, match h !! f with Some v => Ok v | None => Err RedisNil end)
                | None => (d, Err WRONGTYPE)
                end;
  HGetAll k d := answer (h ← hash_at d k; Some (d, h)) d;
  HLen k d := answer (h ← hash_at d k; Some (d, Z.of_nat (size h))) d;
  HExists k f d := answer (h ← hash_at d k; Some (d, bool_decide (is_Some (h !! f)))) d;
  HRandField k n d := answer (h ← hash_at d k; Some (d, take (Z.to_nat n) (map_to_list h).*1)) d;
  HIncrBy k f i d := (d, Err WRONGTYPE);
  Decr k d := answer (n ← int_at d k; d ← incr_at k (-1) d; Some (d, n - 1)) d;
  DecrBy k i d := answer (n ← int_at d k; d ← incr_at k (- i) d; Some (d, n - i)) d;
  Get k d := answer (n ← int_at d k; Some (d, Itoa n)) d;
  SAdd k x d := (d, Err WRONGTYPE);
  SRem k x d := answer (m ← set_at d k;
    Some (put_set k (m ∖ {[x]}) d, if decide (x ∈ m) then 1 else 0)) d;
  SMembers k d := answer (m ← set_at d k; Some (d, elements m)) d;
  SCard k d := answer (m ← set_at d k; Some (d, Z.of_nat (size m))) d;
  SRandMemberN k n d := answer (m ← set_at d k; Some (d, take (Z.to_nat n) (elements m))) d;
  SMove k k' x d := (d, Err WRONGTYPE);
  ExpireMember k x n d := (d, Err WRONGTYPE);
  RedisPing d := (d, Ok ());
  TxPipelined := exec_tx;
  Watch k f d := f d;
|}.

Lemma no_errors n : omap (λ e : error, e) (replicate n None) = [].
Proof. by induction n as [|n IH]. Qed.

Lemma exec_tx_ok cs d d' : exec_all cs d = Some d' →
  exec_tx cs d = (d', Ok (replicate (length cs) None)).
Proof.
  assert (∀ errs, exec_all cs d = Some d' →
    foldl (λ '(d, errs) c, match exec c d with
      | Some d => (d, errs ++ [None]) | None => (d, errs ++ [Some WRONGTYPE]) end) (d, errs) cs
    = (d', errs ++ replicate (length cs) None)) as H.
  { revert d. induction cs as [|c cs IH]; intros d errs; cbn [exec_all foldl length replicate].
    - intros [= ->]. by rewrite app_nil_r.
    - destruct (exec c d) as [d1|]; [|done]. cbn [mbind option_bind]. intros Hd.
      by rewrite IH, <-(assoc_L _). }
  intros Hd. unfold exec_tx. rewrite (H [] Hd). cbn [app].
  by rewrite no_errors.
Qed.

#[refine] Instance reference_spec : @RedisSpec db reference_server :=
  @Build_RedisSpec db reference_server (λ _, True) (λ d, d) _ _ _ _ _ _ _ _ _ _ _.
Proof.
  all: unfold replies.
  - intros s cs d _ Hd. cbn [TxPipelined reference_server]. by rewrite (exec_tx_ok _ _ _ Hd).
  - intros s k fs h _ Hfs Hh. cbn [HDel reference_server]. destruct fs; [done|]. by rewrite Hh.
  - intros s k n d _ Hn Hd. cbn [Decr reference_server]. rewrite Hn. cbn [mbind option_bind]. by rewrite Hd.
  - intros s k i n d _ Hn Hd. cbn [DecrBy reference_server]. rewrite Hn. cbn [mbind option_bind]. by rewrite Hd.
  - intros s k n h _ Hh Hn. cbn [HRandField reference_server]. rewrite Hh. cbn [mbind option_bind answer fst snd].
    eexists. split; [done|]. split_and!.
    + apply NoDup_take, NoDup_fst_map_to_list.
    + intros f (i & Hi & _)%elem_of_take.
      apply list_elem_of_lookup_2, list_elem_of_fmap in Hi as ([f' v] & -> & Hf).
      apply elem_of_map_to_list in Hf. by eexists.
    + rewrite length_take, length_fmap, length_map_to_list. lia.
  - intros s k h _ Hh. cbn [HLen reference_server]. by rewrite Hh.
  - intros s k f h _ Hh. cbn [HGet reference_server]. by rewrite Hh.
  - intros s k h _ Hh. cbn [HGetAll reference_server]. by rewrite Hh.
  - intros s k m _ Hm. cbn [SMembers reference_server]. rewrite Hm. by eexists.
  - intros s k x m _ Hm. cbn [SRem reference_server]. by rewrite Hm.
  - done.
Defined.

Module RedisFacts.
Import RedisStore.

(** ** The cells of a database

    What the store's keys hold: [H] the swarm under each info hash, role and
    family, [m] the tracked keys, [C] the counters by role, [D] the downloads. *)

Definition CountKey (seeder : bool) : bytes := if seeder then CountSeederKey else CountLeecherKey.

Record cells (d : db) (H : hashes) (m : gset bytes) (C : bool → Z) (D : gmap bytes bytes) : Prop := {
  c_hash ih s v : hash_at d (InfoHashKey ih s v) = Some (H ih s v);
  c_set : set_at d IHKey = Some m;
  c_count s : int_at d (CountKey s) = Some (C s);
  c_downloads : hash_at d CountDownloadsKey = Some D;
}.

Definition add_count (s : bool) (i : Z) (C : bool → Z) : bool → Z :=
  λ s', if decide (s' = s) then C s + i else C s'.

Lemma put_hash_at k h d k' :
  hash_at (put_hash k h d) k' = if decide (k = k') then Some h else hash_at d k'.
Proof.
  unfold hash_at, put_hash. destruct (decide (h = ∅)) as [->|]; case_decide as Hk; subst;
    by rewrite ?lookup_delete_eq, ?lookup_delete_ne, ?lookup_insert_eq, ?lookup_insert_ne.
Qed.
Lemma put_hash_other k h d k' : k ≠ k' → put_hash k h d !! k' = d !! k'.
Proof.
  unfold put_hash. case_decide; intros; by rewrite ?lookup_delete_ne, ?lookup_insert_ne.
Qed.
Lemma put_set_at k m d : set_at (put_set k m d) k = Some m.
Proof.
  unfold set_at, put_set. case_decide as Hk; subst; by rewrite ?lookup_delete_eq, ?lookup_insert_eq.
Qed.
Lemma put_set_other k m d k' : k ≠ k' → put_set k m d !! k' = d !! k'.
Proof.
  unfold put_set. case_decide; intros; by rewrite ?lookup_delete_ne, ?lookup_insert_ne.
Qed.

(** Cells not written are as before. *)
Lemma hash_at_same d d' k : d' !! k = d !! k → hash_at d' k = hash_at d k.
Proof. unfold hash_at. by intros ->. Qed.
Lemma set_at_same d d' k : d' !! k = d !! k → set_at d' k = set_at d k.
Proof. unfold set_at. by intros ->. Qed.
Lemma int_at_same d d' k : d' !! k = d !! k → int_at d' k = int_at d k.
Proof. unfold int_at. by intros ->. Qed.

Lemma swarm_key_IHKey ih s v : InfoHashKey ih s v ≠ IHKey.
Proof. apply InfoHashKey_other. by left. Qed.
Lemma swarm_key_downloads ih s v : InfoHashKey ih s v ≠ CountDownloadsKey.
Proof. apply InfoHashKey_other. do 3 right. by left. Qed.
Lemma swarm_key_count ih s v s' : InfoHashKey ih s v ≠ CountKey s'.
Proof. apply InfoHashKey_other. destruct s'; [right; left|do 2 right; left]. Qed.
Lemma count_keys s s' : CountKey s = CountKey s' → s = s'.
Proof. by destruct s, s'. Qed.
Lemma count_key_IHKey s : CountKey s ≠ IHKey.
Proof. by destruct s. Qed.
Lemma count_key_downloads s : CountKey s ≠ CountDownloadsKey.
Proof. by destruct s. Qed.
Lemma downloads_IHKey : CountDownloadsKey ≠ IHKey.
Proof. done. Qed.

Ltac other_key :=
  auto using swarm_key_IHKey, swarm_key_downloads, swarm_key_count, count_key_IHKey,
    count_key_downloads, downloads_IHKey, not_eq_sym, count_keys.

(** ** The commands on the cells *)

Lemma cells_put_hash d H m C D ih s v h :
  cells d H m C D → cells (put_hash (InfoHashKey ih s v) h d) (set_cell ih s v h H) m C D.
Proof.
  intros [Hh Hm Hc Hd]. split.
  - intros ih' s' v'. rewrite put_hash_at. unfold set_cell. case_decide as Hk.
    + apply InfoHashKey_inj in Hk as (-> & -> & ->). by rewrite decide_True.
    + rewrite decide_False by congruence. apply Hh.
  - rewrite <-Hm. apply set_at_same, put_hash_other. other_key.
  - intros s'. rewrite <-Hc. apply int_at_same, put_hash_other. other_key.
  - rewrite put_hash_at, decide_False by other_key. done.
Qed.

Lemma cells_put_set d H m C D m' :
  cells d H m C D → cells (put_set IHKey m' d) H m' C D.
Proof.
  intros [Hh Hm Hc Hd]. split; [| |intros s'|].
  - intros ih' s' v'. rewrite <-Hh. apply hash_at_same, put_set_other. other_key.
  - apply put_set_at.
  - rewrite <-Hc. apply int_at_same, put_set_other. other_key.
  - rewrite <-Hd. apply hash_at_same, put_set_other. other_key.
Qed.

Lemma cells_incr d H m C D s i :
  cells d H m C D → int64 (C s + i) →
  ∃ d', incr_at (CountKey s) i d = Some d' ∧ cells d' H m (add_count s i C) D.
Proof.
  intros [Hh Hm Hc Hd] Hi. unfold incr_at. rewrite Hc. cbn [mbind option_bind].
  rewrite decide_True by done. eexists. split; [done|]. split.
  - intros ih' s' v'. rewrite <-Hh. apply hash_at_same, lookup_insert_ne. other_key.
  - rewrite <-Hm. apply set_at_same, lookup_insert_ne. other_key.
  - intros s'. unfold int_at, add_count. case_decide as Hs; [by rewrite Hs, lookup_insert_eq|].
    rewrite lookup_insert_ne by (intros ?%count_keys; congruence). apply Hc.
  - rewrite <-Hd. apply hash_at_same, lookup_insert_ne. other_key.
Qed.

Lemma cells_download d H m C D ih n :
  cells d H m C D → field_int D ih = Some n → int64 (n + 1) →
  ∃ d', exec (TxHIncrBy CountDownloadsKey ih 1) d = Some d' ∧
        cells d' H m C (<[ih := Itoa (n + 1)]> D).
Proof.
  intros [Hh Hm Hc Hd] Hn Hi. cbn [exec]. rewrite Hd. cbn [mbind option_bind]. rewrite Hn.
  cbn [mbind option_bind]. rewrite decide_True by done. eexists. split; [done|]. split.
  - intros ih' s' v'. rewrite put_hash_at, decide_False by other_key. apply Hh.
  - rewrite <-Hm. apply set_at_same, put_hash_other. other_key.
  - intros s'. rewrite <-Hc. apply int_at_same, put_hash_other. other_key.
  - by rewrite put_hash_at, decide_True.
Qed.
(** What a reachable database satisfies, with room for [n] more writes: the
    fields are packed peers of the key's family with the time of an announce,
    every swarm with a peer is tracked, and the counters are in range. *)
Record good (n : nat) (H : hashes) (m : gset bytes) (C : bool → Z) (D : gmap bytes bytes) : Prop := {
  g_fields ih s v f x : H ih s v !! f = Some x →
    ∃ p t, f = PackPeer p ∧ peer_ok p ∧ Peer_Is6 p = v ∧ x = Itoa t ∧ int64 t;
  g_tracked ih s v : H ih s v ≠ ∅ → InfoHashKey ih s v ∈ m;
  g_keys k : k ∈ m → ∃ ih s v, k = InfoHashKey ih s v;
  g_count s : - 2 ^ 63 <= C s - Z.of_nat n ∧ C s + Z.of_nat n < 2 ^ 63;
  g_downloads ih x : D !! ih = Some x → ∃ c, x = Itoa c ∧ 0 <= c ∧ c + Z.of_nat n < 2 ^ 63;
}.

Definition db_inv (n : nat) (d : db) : Prop := ∃ H m C D, cells d H m C D ∧ good n H m C D.

Lemma good_weaken n H m C D : good (1 + n) H m C D → good n H m C D.
Proof.
  intros [Hf Ht Hk Hc Hd]. split; [done..| |].
  - intros s. specialize (Hc s). lia.
  - intros ih x Hx. destruct (Hd ih x Hx) as (c & ? & ? & ?). exists c. split_and!; [done..|lia].
Qed.

Lemma good_count_change n H m C D s i : -1 <= i <= 1 →
  good (1 + n) H m C D → good n H m (add_count s i C) D.
Proof.
  intros Hi Hg. pose proof (good_weaken _ _ _ _ _ Hg) as [Hf Ht Hk _ Hd]. split; [done..| |done].
  intros s'. pose proof (g_count _ _ _ _ _ Hg s'). unfold add_count. case_decide; subst; lia.
Qed.

Lemma good_int64 n H m C D s i : -1 <= i <= 1 → good (1 + n) H m C D → int64 (C s + i).
Proof. intros Hi Hg. pose proof (g_count _ _ _ _ _ Hg s). unfold int64. lia. Qed.

Lemma good_delete n H m C D ih s v f :
  good n H m C D → good n (set_cell ih s v (delete f (H ih s v)) H) m C D.
Proof.
  intros [Hf Ht Hk Hc Hd]. split; [| |done..].
  - intros ih' s' v' f' x. unfold set_cell. case_decide as Hd'; [|apply Hf].
    simplify_eq. intros [_ ?]%lookup_delete_Some. eauto.
  - intros ih' s' v'. unfold set_cell. case_decide as Hd'; [|apply Ht]. simplify_eq.
    intros Hne. apply Ht. intros He. apply Hne. by rewrite He, delete_empty.
Qed.

Lemma good_insert n H m C D ih s v p t :
  good n H m C D → peer_ok p → Peer_Is6 p = v → int64 t →
  good n (set_cell ih s v (<[PackPeer p := Itoa t]> (H ih s v)) H) ({[InfoHashKey ih s v]} ∪ m) C D.
Proof.
  intros [Hf Ht Hk Hc Hd] Hp Hv Hi. split; [| | |done..].
  - intros ih' s' v' f' x. unfold set_cell. case_decide as Hd'; [|apply Hf]. simplify_eq.
    intros [[<- <-]|[_ ?]]%lookup_insert_Some; [|eauto].
    exists p, t. done.
  - intros ih' s' v'. unfold set_cell. case_decide as Hd'; simplify_eq.
    + intros _. apply elem_of_union_l, elem_of_singleton_2, eq_refl.
    + intros Hne. by apply elem_of_union_r, Ht.
  - intros k [->%elem_of_singleton|Hkm]%elem_of_union; eauto.
Qed.

Lemma good_download n H m C D ih :
  good (1 + n) H m C D →
  ∃ c, field_int D ih = Some c ∧ int64 (c + 1) ∧ good n H m C (<[ih := Itoa (c + 1)]> D).
Proof.
  intros Hg. pose proof (good_weaken _ _ _ _ _ Hg) as [Hf Ht Hk Hc Hd].
  assert (∃ c, field_int D ih = Some c ∧ 0 <= c ∧ c + Z.of_nat n + 1 < 2 ^ 63) as (c & Hfi & H0 & Hlt).
  { unfold field_int. pose proof (g_count _ _ _ _ _ Hg true).
    destruct (D !! ih) as [x|] eqn:E; [|exists 0; split_and!; [done|lia..]].
    destruct (g_downloads _ _ _ _ _ Hg ih x E) as (c & -> & ? & ?). exists c.
    rewrite ParseInt_Itoa by lia. split_and!; [done|lia..]. }
  exists c. split_and!; [done|unfold int64; lia|]. split; [done..|].
  intros ih' x [[<- <-]|[_ ?]]%lookup_insert_Some; [|eauto]. exists (c + 1). split_and!; [done|lia..].
Qed.

(** ** The swarms of a database *)

Definition hash_of (d : db) (k : bytes) : gmap bytes bytes := default ∅ (hash_at d k).
Definition db_view (d : db) : view := hview (λ ih b v, hash_of d (InfoHashKey ih b v)).

Lemma cells_hash_of d H m C D ih s v : cells d H m C D → hash_of d (InfoHashKey ih s v) = H ih s v.
Proof. intros Hc. unfold hash_of. by rewrite (c_hash _ _ _ _ _ Hc). Qed.

Lemma good_packed n H m C D ih s v : good n H m C D → packed v (H ih s v).
Proof. intros Hg f x Hf. destruct (g_fields _ _ _ _ _ Hg _ _ _ _ _ Hf) as (p & t & ? & ? & ? & _). eauto. Qed.

Lemma good_all_packed n H m C D : good n H m C D → all_packed H.
Proof. intros Hg ih s v. by eapply good_packed. Qed.

Lemma cells_view d H m C D : cells d H m C D → db_view d ≡ hview H.
Proof. intros Hc r ih. unfold db_view, hview. by rewrite !(cells_hash_of _ _ _ _ _ _ _ _ Hc). Qed.

Lemma elem_of_db_view n d H m C D r ih p :
  cells d H m C D → good n H m C D →
  p ∈ db_view d r ih ↔ peer_ok p ∧ is_Some (H ih (is_seeder r) (Peer_Is6 p) !! PackPeer p).
Proof.
  intros Hc Hg. rewrite (cells_view _ _ _ _ _ Hc r ih). apply elem_of_hview. by eapply good_all_packed.
Qed.

Lemma insert_view n d d' H m C D m' C' D' ih b p x :
  cells d H m C D → good n H m C D → peer_ok p →
  let H' := set_cell ih b (Peer_Is6 p) (<[PackPeer p := x]> (H ih b (Peer_Is6 p))) H in
  cells d' H' m' C' D' →
  db_view d' ≡ view_add (role_of b) ih p (db_view d).
Proof.
  intros Hc Hg Hp H' Hc'. rewrite (cells_view _ _ _ _ _ Hc), (cells_view _ _ _ _ _ Hc').
  apply insert_hview; [by eapply good_all_packed|done].
Qed.

Lemma delete_view n d d' H m C D m' C' D' ih b p :
  cells d H m C D → good n H m C D → peer_ok p →
  let H' := set_cell ih b (Peer_Is6 p) (delete (PackPeer p) (H ih b (Peer_Is6 p))) H in
  cells d' H' m' C' D' →
  db_view d' ≡ view_remove (role_of b) ih p (db_view d).
Proof.
  intros Hc Hg Hp H' Hc'. rewrite (cells_view _ _ _ _ _ Hc), (cells_view _ _ _ _ _ Hc').
  apply delete_hview; [by eapply good_all_packed|done].
Qed.

(** ** The methods on a server that is up *)

Section Healthy.
Context {S : Type} {HRedis : Redis S} {HSpec : RedisSpec S}.

Definition srv_inv (n : nat) (s : S) : Prop := rd_up s ∧ db_inv n (rd_db s).

Lemma omap_no_errors n : omap (λ e : error, e) (replicate n None) = [].
Proof. by induction n. Qed.

Lemma tx_run s q d : rd_up s → exec_all q (rd_db s) = Some d →
  ∃ s', tx q s = (s', None) ∧ rd_up s' ∧ rd_db s' = d.
Proof.
  intros Hup Hd. destruct (rd_TxPipelined s q d Hup Hd) as (Hr & Hu & Hdb).
  unfold tx. destruct (TxPipelined q s) as [s' r]. cbn [fst snd] in *. subst r.
  rewrite omap_no_errors. eauto.
Qed.

Lemma cells_hset d H0 m C D ih s v f x :
  cells d H0 m C D →
  ∃ d', exec (TxHSet (InfoHashKey ih s v) f x) d = Some d' ∧
        cells d' (set_cell ih s v (<[f := x]> (H0 ih s v)) H0) m C D.
Proof.
  intros Hc. cbn [exec]. rewrite (c_hash _ _ _ _ _ Hc). eexists. split; [done|]. by apply cells_put_hash.
Qed.

Lemma cells_hdel d H0 m C D ih s v f :
  cells d H0 m C D →
  ∃ d', exec (TxHDel (InfoHashKey ih s v) f) d = Some d' ∧
        cells d' (set_cell ih s v (delete f (H0 ih s v)) H0) m C D.
Proof.
  intros Hc. cbn [exec]. rewrite (c_hash _ _ _ _ _ Hc). eexists. split; [done|]. by apply cells_put_hash.
Qed.

Lemma cells_sadd d H0 m C D k :
  cells d H0 m C D →
  ∃ d', exec (TxSAdd IHKey k) d = Some d' ∧ cells d' H0 ({[k]} ∪ m) C D.
Proof.
  intros Hc. cbn [exec]. rewrite (c_set _ _ _ _ _ Hc). eexists. split; [done|].
  eapply cells_put_set, Hc.
Qed.

Lemma exec_all_cons c cs d d' : exec c d = Some d' → exec_all (c :: cs) d = exec_all cs d'.
Proof. cbn [exec_all]. by intros ->. Qed.

(** How the counters moved. *)
Definition counted (b : bool) (i : Z) (d d' : db) : Prop :=
  ∀ b', int_at d' (CountKey b') = (λ c, if decide (b' = b) then c + i else c) <$> int_at d (CountKey b').

Lemma cells_counted d d' H1 H2 m m' C D D' b i :
  cells d H1 m C D → cells d' H2 m' (add_count b i C) D' → counted b i d d'.
Proof.
  intros Hc Hc' b'. rewrite (c_count _ _ _ _ _ Hc), (c_count _ _ _ _ _ Hc'). unfold add_count.
  cbn [fmap option_fmap option_map]. by case_decide as Hb; [rewrite Hb|].
Qed.

Lemma putPeer_run n s now b ih p :
  srv_inv (1 + n) s → peer_ok p → int64 now →
  ∃ s', putPeer now (InfoHashKey ih b (Peer_Is6 p)) (CountKey b) (PackPeer p) s = (s', None) ∧
        srv_inv n s' ∧ db_view (rd_db s') ≡ view_add (role_of b) ih p (db_view (rd_db s)) ∧
        counted b 1 (rd_db s) (rd_db s').
Proof.
  intros [Hup (H0 & m & C & D & Hc & Hg)] Hp Hnow.
  destruct (cells_hset _ _ _ _ _ ih b (Peer_Is6 p) (PackPeer p) (Itoa now) Hc) as (d1 & E1 & Hc1).
  destruct (cells_incr _ _ _ _ _ b 1 Hc1) as (d2 & E2 & Hc2);
    [by eapply (good_int64 n); [lia|]|].
  destruct (cells_sadd _ _ _ _ _ (InfoHashKey ih b (Peer_Is6 p)) Hc2) as (d3 & E3 & Hc3).
  pose proof (good_count_change _ _ _ _ _ b 1 ltac:(lia) Hg) as Hg1.
  apply (good_insert _ _ _ _ _ ih b (Peer_Is6 p) p now) in Hg1; [|done..].
  destruct (tx_run s [TxHSet (InfoHashKey ih b (Peer_Is6 p)) (PackPeer p) (Itoa now);
      TxIncr (CountKey b); TxSAdd IHKey (InfoHashKey ih b (Peer_Is6 p))] d3 Hup) as (s' & Htx & Hup' & Hdb).
  { by rewrite (exec_all_cons _ _ _ _ E1), (exec_all_cons (TxIncr (CountKey b)) _ _ _ E2),
      (exec_all_cons _ _ _ _ E3). }
  exists s'. split; [done|]. rewrite Hdb. split; [split; [done|]|].
  - rewrite Hdb. by exists (set_cell ih b (Peer_Is6 p) (<[PackPeer p := Itoa now]> (H0 ih b (Peer_Is6 p))) H0),
      ({[InfoHashKey ih b (Peer_Is6 p)]} ∪ m), (add_count b 1 C), D.
  - split; [by eapply insert_view|by eapply cells_counted].
Qed.

Lemma size_delete_le (h : gmap bytes bytes) f :
  Z.of_nat (size h) - Z.of_nat (size (delete f h)) = if decide (is_Some (h !! f)) then 1 else 0.
Proof.
  case_decide as Hd.
  - destruct Hd as [x Hx]. rewrite map_size_delete_Some by eauto.
    assert (size h ≠ 0)%nat; [|lia]. intros E%map_size_empty_inv. by rewrite E in Hx.
  - apply eq_None_not_Some in Hd. rewrite delete_id by done. lia.
Qed.

Lemma delPeer_run n s b ih p :
  srv_inv (1 + n) s → peer_ok p →
  ∃ s' e, delPeer (InfoHashKey ih b (Peer_Is6 p)) (CountKey b) (PackPeer p) s = (s', e) ∧
        e = (if decide (p ∈ db_view (rd_db s) (role_of b) ih) then None else Some ErrResourceDoesNotExist) ∧
        srv_inv n s' ∧ db_view (rd_db s') ≡ view_remove (role_of b) ih p (db_view (rd_db s)).
Proof.
  intros [Hup (H0 & m & C & D & Hc & Hg)] Hp. unfold delPeer.
  destruct (rd_HDel s (InfoHashKey ih b (Peer_Is6 p)) [PackPeer p] _ Hup ltac:(done) (c_hash _ _ _ _ _ Hc ih b (Peer_Is6 p)))
    as (Hr & Hup1 & Hd1).
  destruct (HDel _ _ s) as [s1 r]. cbn [fst snd remove_fields foldl] in *. subst r.
  rewrite size_delete_le. cbn [no_result].
  pose proof (cells_put_hash _ _ _ _ _ ih b (Peer_Is6 p) (delete (PackPeer p) (H0 ih b (Peer_Is6 p))) Hc) as Hc1.
  pose proof (good_delete _ _ _ _ _ ih b (Peer_Is6 p) (PackPeer p) Hg) as Hg1.
  rewrite <-Hd1 in Hc1.
  assert (p ∈ db_view (rd_db s) (role_of b) ih ↔ is_Some (H0 ih b (Peer_Is6 p) !! PackPeer p)) as Hin.
  { rewrite (elem_of_db_view _ _ _ _ _ _ _ _ _ Hc Hg), (proj2 (is_seeder_role (role_of b) b) eq_refl). tauto. }
  destruct (decide (is_Some _)) as [Hs|Hs]; cbn [Z.eqb].
  - destruct (cells_incr _ _ _ _ _ b (-1) Hc1) as (d2 & E2 & Hc2);
      [by eapply (good_int64 n); [lia|]|].
    destruct (rd_Decr s1 (CountKey b) _ _ Hup1 (c_count _ _ _ _ _ Hc1 b) E2) as (Hr2 & Hup2 & Hd2).
    destruct (Decr _ s1) as [s2 r2]. cbn [fst snd] in *. subst r2.
    apply (good_count_change _ _ _ _ _ b (-1)) in Hg1; [|lia].
    do 2 eexists. split; [done|]. split; [by rewrite decide_True by (by apply Hin)|].
    rewrite <-Hd2 in Hc2. split; [split; [done|by do 4 eexists]|]. by eapply delete_view.
  - do 2 eexists. split; [done|]. split; [by rewrite decide_False by (by rewrite Hin)|].
    split; [split; [done|do 4 eexists; split; [exact Hc1|by apply good_weaken]]|]. by eapply delete_view.
Qed.

Lemma redis_graduate_run n s now ih p :
  srv_inv (1 + n) s → peer_ok p → int64 now →
  ∃ s', GraduateLeecher now ih p s = (s', None) ∧ srv_inv n s' ∧
        db_view (rd_db s') ≡ view_add Seeder ih p (view_remove Leecher ih p (db_view (rd_db s))) ∧
        counted true 1 (rd_db s) (rd_db s').
Proof.
  intros [Hup (H0 & m & C & D & Hc & Hg)] Hp Hnow. unfold GraduateLeecher. simpl.
  destruct (cells_hdel _ _ _ _ _ ih false (Peer_Is6 p) (PackPeer p) Hc) as (d0 & E0 & Hc0).
  pose proof (good_delete _ _ _ _ _ ih false (Peer_Is6 p) (PackPeer p) Hg) as Hg0.
  destruct (cells_hset _ _ _ _ _ ih true (Peer_Is6 p) (PackPeer p) (Itoa now) Hc0) as (d1 & E1 & Hc1).
  destruct (cells_incr _ _ _ _ _ true 1 Hc1) as (d2 & E2 & Hc2);
    [by eapply (good_int64 n); [lia|]|].
  destruct (cells_sadd _ _ _ _ _ (InfoHashKey ih true (Peer_Is6 p)) Hc2) as (d3 & E3 & Hc3).
  destruct (good_download _ _ _ _ _ ih Hg0) as (c & Ec & Hc64 & _).
  destruct (cells_download _ _ _ _ _ ih c Hc3 Ec Hc64) as (d4 & E4 & Hc4).
  assert (good n (set_cell ih false (Peer_Is6 p) (delete (PackPeer p) (H0 ih false (Peer_Is6 p))) H0)
    m C (<[ih := Itoa (c + 1)]> D)) as Hg'.
  { destruct (good_download _ _ _ _ _ ih Hg0) as (c' & Ec' & _ & Hg'). congruence. }
  assert (good n (set_cell ih false (Peer_Is6 p) (delete (PackPeer p) (H0 ih false (Peer_Is6 p))) H0)
    m (add_count true 1 C) (<[ih := Itoa (c + 1)]> D)) as Hg1.
  { pose proof (good_count_change _ _ _ _ _ true 1 ltac:(lia) Hg0) as [? ? ? Hcc _]. by destruct Hg'. }
  apply (good_insert _ _ _ _ _ ih true (Peer_Is6 p) p now) in Hg1; [|done..].
  destruct (tx_run s [TxHDel (InfoHashKey ih false (Peer_Is6 p)) (PackPeer p);
    TxHSet (InfoHashKey ih true (Peer_Is6 p)) (PackPeer p) (Itoa now);
    TxIncr CountSeederKey; TxSAdd IHKey (InfoHashKey ih true (Peer_Is6 p));
    TxHIncrBy CountDownloadsKey ih 1] d4 Hup) as (s' & Htx & Hup' & Hdb).
  { by rewrite (exec_all_cons _ _ _ _ E0), (exec_all_cons _ _ _ _ E1), (exec_all_cons (TxIncr CountSeederKey) _ _ _ E2),
      (exec_all_cons _ _ _ _ E3), (exec_all_cons _ _ _ _ E4). }
  exists s'. split; [done|]. rewrite <-Hdb in Hc4. split; [split; [done|by do 4 eexists]|].
  split; [|by eapply cells_counted].
  change Seeder with (role_of true). change Leecher with (role_of false).
  etrans; [by eapply (insert_view _ d0)|]. apply view_update_proper. by eapply (delete_view _ (rd_db s)).
Qed.

(** Announces and scrapes. *)

Lemma redis_announce_run n s ih forSeeder numWant v :
  srv_inv n s → 0 < numWant →
  ∃ s' ps e, AnnouncePeers ih forSeeder numWant v s = (s', (ps, e)) ∧ benign e ∧
    (e = None ↔ ps ≠ []) ∧ (rd_up s' ∧ rd_db s' = rd_db s) ∧
    Forall (λ p, p ∈ ⋃ candidates (db_view (rd_db s)) ih forSeeder v) ps ∧
    Z.of_nat (length ps) =
      Z.min numWant (Z.of_nat (available (db_view (rd_db s)) ih forSeeder v)) ∧
    (Z.of_nat (available (db_view (rd_db s)) ih forSeeder v) ≤ numWant →
     ∀ p, p ∈ ⋃ candidates (db_view (rd_db s)) ih forSeeder v → p ∈ ps).
Proof.
  intros [Hup (H1 & m & C & D & Hc & Hg)] Hpos.
  rewrite !(available_proper _ _ _ _ _ (cells_view _ _ _ _ _ Hc)), !(candidates_proper _ _ _ _ _ (cells_view _ _ _ _ _ Hc)).
  unfold AnnouncePeers. apply (GetPeers_run (λ s', rd_up s' ∧ rd_db s' = rd_db s) H1); [| |done..].
  - by eapply good_all_packed.
  - intros s0 ih' b v' c [Hup0 Hdb0] Hpos'. rewrite <-Hdb0 in Hc.
    destruct (rd_HRandField s0 (InfoHashKey ih' b v') c _ Hup0 (c_hash _ _ _ _ _ Hc ih' b v') Hpos')
      as (fs & (Hr & Hup' & Hdb) & Hm).
    destruct (HRandField _ c s0) as [s' r]. cbn [fst snd] in *. subst r.
    exists s', fs. rewrite Hdb. done.
Qed.

Lemma redis_scrape_run n s ih :
  srv_inv n s →
  ∃ s' dl, ScrapeSwarm ih s =
      (s', (wrap 32 (Z.of_nat (size (db_view (rd_db s) Leecher ih))),
            wrap 32 (Z.of_nat (size (db_view (rd_db s) Seeder ih))), dl, None)) ∧
    (rd_up s' ∧ rd_db s' = rd_db s).
Proof.
  intros [Hup (H1 & m & C & D & Hc & Hg)].
  rewrite !(cells_view _ _ _ _ _ Hc).
  unfold ScrapeSwarm. apply (ScrapeIH_run (λ s', rd_up s' ∧ rd_db s' = rd_db s) H1) with D; [| | | |done].
  - by eapply good_all_packed.
  - intros s0 ih' b v' [Hup0 Hdb0]. rewrite <-Hdb0 in Hc.
    destruct (rd_HLen s0 (InfoHashKey ih' b v') _ Hup0 (c_hash _ _ _ _ _ Hc ih' b v')) as (Hr & Hup' & Hdb).
    destruct (HLen _ s0) as [s' r]. cbn [fst snd] in *. subst r. exists s'. by rewrite Hdb.
  - intros s0 ih' [Hup0 Hdb0]. rewrite <-Hdb0 in Hc.
    destruct (rd_HGet s0 CountDownloadsKey ih' D Hup0 (c_downloads _ _ _ _ _ Hc)) as (Hr & Hup' & Hdb).
    destruct (HGet _ _ s0) as [s' r]. cbn [fst snd] in *. subst r. exists s'. by rewrite Hdb.
  - intros ih' x Hx. destruct (g_downloads _ _ _ _ _ Hg ih' x Hx) as (c & -> & ? & ?).
    exists c. split; [done|unfold int64; lia].
Qed.

(** The store keeps the promises of [StorageSpec]. *)
Definition clock_ok (w : clocked S) : Prop := ∀ i, int64 (ck_clock w i).

Lemma db_inv_weaken n d : db_inv (1 + n) d → db_inv n d.
Proof. intros (H1 & m & C & D & Hc & Hg). do 4 eexists. split; [done|by apply good_weaken]. Qed.

#[export, refine] Instance redis_StorageSpec : StorageSpec (clocked S) := {|
  st_inv n w := srv_inv n (ck_server w) ∧ clock_ok w;
  st_view w := db_view (rd_db (ck_server w));
  st_peer := peer_ok;
|}.
Proof.
  - intros n w [[? ?%db_inv_weaken] ?]. by split.
  - intros n w ih p [Hi Hck] _ Hp. simpl. unfold timed, PutSeeder.
    destruct (putPeer_run n _ (ck_clock w (ck_pos w)) true ih p Hi Hp (Hck _)) as (s' & E & ? & ? & _).
    cbn [CountKey] in E. rewrite E. by eexists.
  - intros n w ih p [Hi Hck] _ Hp. simpl. unfold timed, DeleteSeeder.
    destruct (delPeer_run n _ true ih p Hi Hp) as (s' & e & E & He & ? & ?).
    cbn [CountKey] in E. rewrite E. do 2 eexists. split; [done|]. split; [rewrite He; case_decide; by (left + right)|done].
  - intros n w ih p [Hi Hck] _ Hp. simpl. unfold timed, PutLeecher.
    destruct (putPeer_run n _ (ck_clock w (ck_pos w)) false ih p Hi Hp (Hck _)) as (s' & E & ? & ? & _).
    cbn [CountKey] in E. rewrite E. by eexists.
  - intros n w ih p [Hi Hck] _ Hp. simpl. unfold timed, DeleteLeecher.
    destruct (delPeer_run n _ false ih p Hi Hp) as (s' & e & E & He & ? & ?).
    cbn [CountKey] in E. rewrite E. do 2 eexists. split; [done|]. split; [rewrite He; case_decide; by (left + right)|done].
  - intros n w ih p [Hi Hck] _ Hp. simpl. unfold timed.
    destruct (redis_graduate_run n _ (ck_clock w (ck_pos w)) ih p Hi Hp (Hck _)) as (s' & E & ? & ? & _).
    cbn [CountKey] in E. rewrite E. by eexists.
  - intros n w ih fs k v [Hi Hck] _ Hn. simpl. unfold timed.
    destruct (redis_announce_run n _ ih fs k v Hi Hn) as (s' & ps & e & E & ? & _ & [Hup Hdb] & ? & ? & ?).
    rewrite E. do 3 eexists. split; [done|]. simpl. unfold srv_inv. rewrite Hdb.
    destruct Hi as [_ Hi]. done.
  - intros n w ih [Hi Hck] _. simpl. unfold timed.
    destruct (redis_scrape_run n _ ih Hi) as (s' & dl & E & [Hup Hdb]).
    rewrite E. do 2 eexists. split; [done|]. simpl. unfold srv_inv. rewrite Hdb.
    destruct Hi as [_ Hi]. done.
Defined.

End Healthy.

(** ** Garbage collection *)

Definition fresh (cutoff : Z) (h : gmap bytes bytes) : gmap bytes bytes :=
  filter (λ e, stale cutoff e = false) h.

Lemma remove_stale `{Shuffle} (cutoff : Z) (h : gmap bytes bytes) :
  remove_fields (peersToRemove cutoff h) h = fresh cutoff h.
Proof.
  apply map_eq. intros f. unfold remove_fields. rewrite lookup_deletes. unfold fresh.
  rewrite map_lookup_filter.
  assert (f ∈ peersToRemove cutoff h ↔ ∃ x, h !! f = Some x ∧ stale cutoff (f, x) = true) as Hf.
  { unfold peersToRemove. rewrite list_elem_of_fmap. split.
    - intros ([f' x] & -> & Hx). apply list_elem_of_In, filter_In in Hx as [Hx Hs].
      apply list_elem_of_In, elem_of_range in Hx. eauto.
    - intros (x & Hx & Hs). exists (f, x). split; [done|].
      apply list_elem_of_In, filter_In. split; [|done]. by apply list_elem_of_In, elem_of_range. }
  case_decide as Hd.
  - apply Hf in Hd as (x & -> & Hs). cbn [mbind option_bind]. by rewrite option_guard_False by congruence.
  - destruct (h !! f) as [x|] eqn:E; [|done]. cbn [mbind option_bind]. rewrite option_guard_True; [done|].
    destruct (stale cutoff (f, x)) eqn:Es; [|done]. destruct Hd. apply Hf. eauto.
Qed.

Lemma nothing_stale `{Shuffle} (cutoff : Z) h : peersToRemove cutoff h = [] → fresh cutoff h = h.
Proof. rewrite <-remove_stale. by intros ->. Qed.

Lemma size_fresh cutoff h : (size (fresh cutoff h) ≤ size h)%nat.
Proof. apply map_size_filter. Qed.

Lemma count_key_swarm ih b v : count_key (InfoHashKey ih b v) = Some (CountKey b).
Proof. rewrite InfoHashKey_eq. unfold count_key. destruct b, v; by rewrite !HasPrefix_app. Qed.

Lemma cells_ext d H H' m C C' D :
  cells d H m C D → (∀ ih s v, H' ih s v = H ih s v) → (∀ s, C' s = C s) → cells d H' m C' D.
Proof. intros [Hh Hm Hc Hd] HH HC. split; [intros; by rewrite HH|done|intros; by rewrite HC|done]. Qed.

Section Collection.
Context {S : Type} {HRedis : Redis S} {HSpec : RedisSpec S} {σ : Shuffle}.

Lemma remove_peers_run s H m C D ih b v cutoff :
  rd_up s → cells (rd_db s) H m C D →
  let h := H ih b v in let h' := fresh cutoff h in
  - 2 ^ 63 <= C b - Z.of_nat (size h) → C b < 2 ^ 63 →
  let s' := remove_peers (InfoHashKey ih b v) (CountKey b) (peersToRemove cutoff h) s in
  rd_up s' ∧ cells (rd_db s') (set_cell ih b v h' H) m
                   (add_count b (Z.of_nat (size h') - Z.of_nat (size h)) C) D.
Proof.
  intros Hup Hc h h' H1 H2. pose proof (size_fresh cutoff h) as Hsz. fold h' in Hsz.
  unfold remove_peers. destruct (peersToRemove cutoff h) as [|f fs] eqn:E; cbv zeta.
  - apply nothing_stale in E. fold h' in E. split; [done|]. eapply cells_ext; [done| |].
    + intros ih' s' v'. unfold set_cell. case_decide; [|done]. simplify_eq. by rewrite E.
    + intros s'. unfold add_count. case_decide; [|done]. subst s'. rewrite E. lia.
  - rewrite <-E. destruct (rd_HDel s (InfoHashKey ih b v) (peersToRemove cutoff h) h Hup
      ltac:(by rewrite E) (c_hash _ _ _ _ _ Hc ih b v)) as (Hr & Hup1 & Hd1).
    rewrite remove_stale in Hr, Hd1. fold h' in Hr, Hd1.
    destruct (HDel _ _ s) as [s1 r]. cbn [fst snd] in *. subst r. cbn [no_result].
    pose proof (cells_put_hash _ _ _ _ _ ih b v h' Hc) as Hc1. rewrite <-Hd1 in Hc1.
    destruct (Z.gtb_spec (Z.of_nat (size h) - Z.of_nat (size h')) 0) as [Hgt|Hle].
    + destruct (cells_incr _ _ _ _ _ b (- (Z.of_nat (size h) - Z.of_nat (size h'))) Hc1) as (d2 & E2 & Hc2);
        [unfold int64; lia|].
      destruct (rd_DecrBy s1 (CountKey b) _ _ _ Hup1 (c_count _ _ _ _ _ Hc1 b) E2) as (_ & Hup2 & Hd2).
      split; [done|]. rewrite Hd2. eapply cells_ext; [exact Hc2|done|].
      intros s'. unfold add_count. case_decide; [lia|done].
    + split; [done|]. eapply cells_ext; [exact Hc1|done|].
      intros s'. unfold add_count. case_decide; [subst; lia|done].
Qed.

Lemma clean_run s H m C D ih b v :
  rd_up s → cells (rd_db s) H m C D →
  let k := InfoHashKey ih b v in
  ∃ s', clean k s = (s', None) ∧ rd_up s' ∧
    cells (rd_db s') H (if decide (H ih b v = ∅) then m ∖ {[k]} else m) C D.
Proof.
  intros Hup Hc k. unfold clean, is_empty_swarm.
  destruct (rd_HLen s k _ Hup (c_hash _ _ _ _ _ Hc ih b v)) as (Hr & Hup1 & Hd1).
  destruct (HLen k s) as [s1 r]. cbn [fst snd] in *. subst r. cbn [no_result mbind result_bind].
  rewrite <-Hd1 in Hc. case_decide as Hd.
  - rewrite Hd, map_size_empty. cbn [Z.of_nat Z.eqb]. unfold untrack.
    destruct (rd_SRem s1 IHKey k _ Hup1 (c_set _ _ _ _ _ Hc)) as (Hr & Hup2 & Hd2).
    destruct (SRem IHKey k s1) as [s2 r]. cbn [fst snd] in *. subst r.
    exists s2. split; [done|]. split; [done|]. rewrite Hd2. by eapply cells_put_set.
  - rewrite (proj2 (Z.eqb_neq _ _)).
    + by exists s1.
    + intros E. apply Hd. apply map_size_empty_inv. lia.
Qed.

Lemma gc_key_run s H m C D ih b v cutoff :
  rd_up s → cells (rd_db s) H m C D →
  let h := H ih b v in let h' := fresh cutoff h in let k := InfoHashKey ih b v in
  - 2 ^ 63 <= C b - Z.of_nat (size h) → C b < 2 ^ 63 →
  let s' := gc_key cutoff k s in
  rd_up s' ∧ cells (rd_db s') (set_cell ih b v h' H) (if decide (h' = ∅) then m ∖ {[k]} else m)
                   (add_count b (Z.of_nat (size h') - Z.of_nat (size h)) C) D.
Proof.
  intros Hup Hc h h' k H1 H2. unfold gc_key. subst k. rewrite count_key_swarm.
  destruct (rd_HGetAll s (InfoHashKey ih b v) _ Hup (c_hash _ _ _ _ _ Hc ih b v)) as (Hr & Hup1 & Hd1).
  destruct (HGetAll _ s) as [s1 r]. cbn [fst snd] in *. subst r. cbn [no_result]. rewrite <-Hd1 in Hc.
  destruct (remove_peers_run s1 H m C D ih b v cutoff Hup1 Hc H1 H2) as [Hup2 Hc2].
  fold h h' in Hup2, Hc2. fold h. cbv zeta. rewrite rd_Watch by done.
  destruct (clean_run _ _ _ _ _ ih b v Hup2 Hc2) as (s3 & -> & Hup3 & Hc3). split; [done|].
  assert (set_cell ih b v h' H ih b v = h') as E by (unfold set_cell; by rewrite decide_True).
  by rewrite E in Hc3.
Qed.

(** Swarms by info hash, role and family; the peers a list of them stores. *)
Definition key_of (t : bytes * bool * bool) : bytes := InfoHashKey t.1.1 t.1.2 t.2.
Definition at_key (H : hashes) (t : bytes * bool * bool) : gmap bytes bytes := H t.1.1 t.1.2 t.2.
Definition stored (b : bool) (H : hashes) (ts : list (bytes * bool * bool)) : Z :=
  foldr (λ t acc, (if decide (t.1.2 = b) then Z.of_nat (size (at_key H t)) else 0) + acc) 0 ts.

Lemma key_of_inj t t' : key_of t = key_of t' → t = t'.
Proof.
  destruct t as [[ih b] v], t' as [[ih' b'] v']. unfold key_of. cbn [fst snd].
  by intros (-> & -> & ->)%InfoHashKey_inj.
Qed.

Lemma stored_nonneg b H ts : 0 <= stored b H ts.
Proof. induction ts as [|t ts IH]; simpl; [lia|]. case_decide; lia. Qed.

Lemma stored_ext b H H' ts : (∀ t, t ∈ ts → at_key H' t = at_key H t) → stored b H' ts = stored b H ts.
Proof.
  induction ts as [|t ts IH]; intros He; [done|]. cbn [stored foldr].
  rewrite He by (by left). f_equal. apply IH. intros t' Ht'. apply He. by right.
Qed.

Lemma at_set_cell H t h t' : at_key (set_cell t.1.1 t.1.2 t.2 h H) t' = if decide (t' = t) then h else at_key H t'.
Proof.
  unfold at_key, set_cell. destruct t as [[ih b] v], t' as [[ih' b'] v']. simpl. done.
Qed.

Lemma gc_fold cutoff D ts : ∀ s H m C,
  NoDup ts → rd_up s → cells (rd_db s) H m C D →
  (∀ b, - 2 ^ 63 <= C b - stored b H ts ∧ C b < 2 ^ 63) →
  ∃ s' H' m' C', foldl (λ s k, gc_key cutoff k s) s (key_of <$> ts) = s' ∧
    rd_up s' ∧ cells (rd_db s') H' m' C' D ∧
    (∀ t, at_key H' t = if decide (t ∈ ts) then fresh cutoff (at_key H t) else at_key H t) ∧
    (∀ k, k ∈ m' ↔ k ∈ m ∧ ¬ (∃ t, t ∈ ts ∧ k = key_of t ∧ at_key H' t = ∅)) ∧
    (∀ b, C' b - stored b H' ts = C b - stored b H ts).
Proof.
  induction ts as [|t ts IH]; intros s H m C Hnd Hup Hc Hb.
  - exists s, H, m, C. cbn [fmap list_fmap foldl]. split; [done|]. split; [done|]. split; [done|].
    split; [done|]. split; [|done]. intros k. split; [|tauto]. intros Hk. split; [done|].
    by intros (t & []%elem_of_nil & _).
  - apply list.NoDup_cons in Hnd as [Hn Hnd]. cbn [fmap list_fmap foldl].
    pose proof (Hb t.1.2) as Hbt. cbn [stored foldr] in Hbt. fold (stored t.1.2 H ts) in Hbt.
    rewrite decide_True in Hbt by done. pose proof (stored_nonneg t.1.2 H ts) as H0.
    destruct (gc_key_run s H m C D t.1.1 t.1.2 t.2 cutoff Hup Hc) as [Hup1 Hc1];
      [unfold at_key in Hbt; lia|lia|].
    fold (at_key H t) (key_of t) in Hup1, Hc1. set (h' := fresh cutoff (at_key H t)) in *.
    set (H1 := set_cell _ _ _ h' H) in *. set (C1 := add_count _ _ C) in *.
    assert (∀ t', at_key H1 t' = if decide (t' = t) then h' else at_key H t') as HH1 by apply at_set_cell.
    assert (∀ b, stored b H1 ts = stored b H ts) as Hst.
    { intros b. apply stored_ext. intros t' Ht'. rewrite HH1. apply decide_False. by intros ->. }
    assert (∀ b, C1 b = C b + (if decide (t.1.2 = b) then Z.of_nat (size h') - Z.of_nat (size (at_key H t)) else 0))
      as HC1. { intros b. unfold C1, add_count. repeat case_decide; subst; try done; lia. }
    destruct (IH _ H1 _ C1 Hnd Hup1 Hc1) as (s' & H' & m' & C' & E & Hup' & Hc' & HH' & Hm' & HC').
    { intros b. rewrite Hst, HC1. pose proof (Hb b) as Hbb. cbn [stored foldr] in Hbb.
      fold (stored b H ts) in Hbb. pose proof (size_fresh cutoff (at_key H t)). fold h' in H2.
      pose proof (stored_nonneg b H ts). case_decide; lia. }
    assert (at_key H' t = h') as Ht' by (rewrite HH', decide_False, HH1, decide_True by done; done).
    exists s', H', m', C'. split; [done|]. split; [done|]. split; [done|]. split_and!.
    + intros t'. rewrite HH', HH1. destruct (decide (t' = t)) as [->|Hne].
      * rewrite decide_False, decide_True by (done || by left). done.
      * apply decide_ext. rewrite list.elem_of_cons. tauto.
    + intros k. rewrite Hm'. split.
      * intros [Hk Hno]. split; [case_decide; [by apply elem_of_difference in Hk as [? _]|done]|].
        intros (t' & [->|Ht0]%list.elem_of_cons & -> & Hemp); [|by apply Hno; eauto].
        rewrite Ht' in Hemp. rewrite decide_True in Hk by done.
        apply elem_of_difference in Hk as [_ Hk]. by apply Hk, elem_of_singleton.
      * intros [Hk Hno]. split.
        -- case_decide as Hd; [|done]. apply elem_of_difference. split; [done|].
           intros ->%elem_of_singleton. apply Hno. exists t. split; [by left|]. by rewrite Ht'.
        -- intros (t' & Ht0 & -> & Hemp). apply Hno. exists t'. split; [by right|done].
    + intros b. specialize (HC' b). rewrite Hst, HC1 in HC'. cbn [stored foldr].
      fold (stored b H' ts) (stored b H ts). rewrite Ht'. case_decide; lia.
Qed.

End Collection.
(** The peers that the keys of a list store, by the role of the key. *)
Definition stored_peers (b : bool) (d : db) (ks : list bytes) : Z :=
  foldr (λ k acc, (if decide (count_key k = Some (CountKey b)) then Z.of_nat (size (hash_of d k)) else 0) + acc) 0 ks.

Lemma stored_peers_eq b d H m C D ts :
  cells d H m C D → stored_peers b d (key_of <$> ts) = stored b H ts.
Proof.
  intros Hc. induction ts as [|t ts IH]; [done|]. cbn [fmap list_fmap stored_peers stored foldr].
  f_equal; [|exact IH]. unfold key_of, at_key. rewrite count_key_swarm, (cells_hash_of _ _ _ _ _ _ _ _ Hc).
  apply decide_ext. split; [by intros [= ?%count_keys]|by intros ->].
Qed.

Lemma tracked_keys n H m C D : good n H m C D →
  ∃ ts, elements m = key_of <$> ts ∧ NoDup ts.
Proof.
  intros Hg. assert (∀ l : list bytes, (∀ k, k ∈ l → k ∈ m) → ∃ ts, l = key_of <$> ts) as Hl.
  { induction l as [|k l IH]; intros Hin; [by exists []|].
    destruct IH as [ts ->]; [intros k' Hk'; apply Hin; by right|].
    destruct (g_keys _ _ _ _ _ Hg k (Hin k ltac:(by left))) as (ih & b & v & ->).
    by exists ((ih, b, v) :: ts). }
  destruct (Hl (elements m)) as [ts E]; [intros k; apply elem_of_elements|].
  exists ts. split; [done|]. apply (NoDup_fmap_1 key_of). rewrite <-E. apply NoDup_elements.
Qed.

Lemma stored_perm b d l l' : l ≡ₚ l' → stored_peers b d l = stored_peers b d l'.
Proof. induction 1; simpl; lia. Qed.

Lemma fresh_empty cutoff : fresh cutoff ∅ = ∅.
Proof. apply map_filter_empty. Qed.

(** The cells after a collection. *)
Lemma gc_run {S : Type} {HRedis : Redis S} {HSpec : RedisSpec S} {σ : Shuffle} cutoff n s H m C D :
  rd_up s → cells (rd_db s) H m C D → good n H m C D →
  (∀ b, stored_peers b (rd_db s) (elements m) ≤ Z.of_nat n) →
  ∃ ts', key_of <$> ts' ≡ₚ elements m ∧ NoDup ts' ∧ rd_up (gc cutoff s) ∧
    ∃ H' m' C', cells (rd_db (gc cutoff s)) H' m' C' D ∧
    (∀ t, at_key H' t = if decide (t ∈ ts') then fresh cutoff (at_key H t) else at_key H t) ∧
    (∀ k, k ∈ m' ↔ k ∈ m ∧ ¬ (∃ t, t ∈ ts' ∧ k = key_of t ∧ at_key H' t = ∅)) ∧
    (∀ b, C' b - stored b H' ts' = C b - stored b H ts').
Proof.
  intros Hup Hc Hg Hn. destruct (tracked_keys _ _ _ _ _ Hg) as (ts & Ets & Hnd). unfold gc.
  destruct (rd_SMembers s IHKey m Hup (c_set _ _ _ _ _ Hc)) as (l & (Hr & Hup1 & Hd1) & Hl).
  destruct (SMembers IHKey s) as [s1 r]. cbn [fst snd] in *. subst r. cbn [no_result].
  rewrite Ets in Hl. apply Permutation_map_inv in Hl as (ts' & -> & Hp). symmetry in Hp.
  rewrite <-Hd1 in Hc. change (List.map key_of ts') with (key_of <$> ts').
  destruct (gc_fold cutoff D ts' s1 H m C) as (s2 & H' & m' & C' & E & ?); [by rewrite Hp|done..| |].
  - intros b. pose proof (g_count _ _ _ _ _ Hg b). specialize (Hn b). rewrite Ets in Hn.
    rewrite <-Hd1, (stored_peers_eq _ _ _ _ _ _ _ Hc) in Hn.
    rewrite <-(stored_peers_eq _ _ _ _ _ _ _ Hc), (stored_perm _ _ _ (key_of <$> ts)),
      (stored_peers_eq _ _ _ _ _ _ _ Hc) by (by apply fmap_Permutation).
    lia.
  - rewrite E. exists ts'. rewrite Ets. split; [by apply fmap_Permutation|].
    split; [by rewrite Hp|]. split; [tauto|]. exists H', m', C'. tauto.
Qed.

(** ** Properties *)

(** C11: on a server that is up, the store refines the abstract swarms: a
    sequence of puts, deletes and graduations (fewer than the 64-bit counters
    have room for) runs without an error of the server and leaves exactly the
    swarms the specification computes. *)
Theorem redis_refinement {S : Type} {HRedis : Redis S} {HSpec : RedisSpec S} (w : clocked S) (os : list wop) :
  srv_inv (length os) (ck_server w) → clock_ok w →
  Forall (λ o, InfoHash_wf (wop_args o).1 ∧ peer_ok (wop_args o).2) os →
  ∃ w', run_wops os w = Some w' ∧ srv_inv 0 (ck_server w') ∧
        db_view (rd_db (ck_server w')) ≡ foldl (flip view_wop) (db_view (rd_db (ck_server w))) os.
Proof.
  intros Hi Hck Hos. destruct (run_wops_spec (S := clocked S) os w) as (w' & ? & [? _] & ?);
    [by split|done|]. by exists w'.
Qed.

Lemma empty_db_inv n : Z.of_nat n < 2 ^ 63 → db_inv n ∅.
Proof.
  intros Hn. exists (λ _ _ _, ∅), ∅, (λ _, 0), ∅. split; split; try done.
  - intros s. lia.
Qed.

Definition ih1 : InfoHash := replicate 20 xaa.
Definition peer1 : Peer := MkPeer (replicate 20 x01) (Addr4 0x01020304) 6881.
Definition clocked1 : clocked db := MkClocked ∅ (λ i, Z.of_nat (i mod 10)) 0.

Lemma peer1_ok : peer_ok peer1.
Proof. repeat split; vm_compute; congruence. Qed.

Lemma clocked1_ok : clock_ok clocked1.
Proof. intros i. unfold int64. simpl. pose proof (Nat.mod_upper_bound i 10). lia. Qed.

Lemma redis_refinement_witness :
  ∃ w', @run_wops (clocked db) (@redis_PeerStorage db reference_server)
          [WPutLeecher ih1 peer1; WGraduateLeecher ih1 peer1] clocked1 = Some w' ∧
        peer1 ∈ db_view (ck_server w') Seeder ih1.
Proof.
  destruct (@redis_refinement db reference_server reference_spec clocked1
    [WPutLeecher ih1 peer1; WGraduateLeecher ih1 peer1]) as (w' & Hr & _ & Hv).
  - split; [exact I|]. apply empty_db_inv. reflexivity.
  - exact clocked1_ok.
  - do 2 (apply list.Forall_cons; split; [split; [left; reflexivity|exact peer1_ok]|]). apply list.Forall_nil, I.
  - exists w'. split; [exact Hr|]. change (peer1 ∈ db_view (@rd_db _ _ reference_spec (ck_server w')) Seeder ih1).
    rewrite (Hv Seeder ih1). cbn [foldl flip view_wop].
    apply elem_of_view_add. by left.
Defined.

(** C25: a collection on a server that is up, without concurrent calls: exactly
    the peers whose last announce is at or before the cutoff disappear, the
    tracked keys are then exactly those of the swarms left, and each counter
    drops by as much as its peers did. *)
Theorem redis_gc {S : Type} {HRedis : Redis S} {HSpec : RedisSpec S} (σ : Shuffle)
    (cutoff : Z) (n : nat) (s : S) (m : gset bytes) :
  srv_inv n s → set_at (rd_db s) IHKey = Some m →
  (∀ b, stored_peers b (rd_db s) (elements m) ≤ Z.of_nat n) →
  let s' := gc cutoff s in
  rd_up s' ∧
  (∀ ih b v, hash_of (rd_db s') (InfoHashKey ih b v) = fresh cutoff (hash_of (rd_db s) (InfoHashKey ih b v))) ∧
  (∃ m', set_at (rd_db s') IHKey = Some m' ∧
     ∀ ih b v, InfoHashKey ih b v ∈ m' ↔ hash_of (rd_db s') (InfoHashKey ih b v) ≠ ∅) ∧
  (∀ b, ∃ c c', int_at (rd_db s) (CountKey b) = Some c ∧ int_at (rd_db s') (CountKey b) = Some c' ∧
     c - c' = stored_peers b (rd_db s) (elements m) - stored_peers b (rd_db s') (elements m)).
Proof.
  intros [Hup (H & m0 & C & D & Hc & Hg)] Hm Hn s'.
  rewrite (c_set _ _ _ _ _ Hc) in Hm. injection Hm as ->.
  destruct (gc_run cutoff n s H m C D Hup Hc Hg Hn)
    as (ts' & Hp & Hnd' & Hup' & H' & m' & C' & Hc' & HH & Hm' & HC). fold s' in Hup', Hc'.
  assert (∀ t, t ∈ ts' ↔ key_of t ∈ m) as Hts.
  { intros t. rewrite <-elem_of_elements, <-Hp, list_elem_of_fmap. split; [eauto|].
    by intros (t' & ->%key_of_inj & ?). }
  assert (∀ t, at_key H' t = fresh cutoff (at_key H t)) as Hfresh.
  { intros t. rewrite HH. case_decide as Hd; [done|]. rewrite Hts in Hd.
    destruct (decide (at_key H t = ∅)) as [->|Hne]; [by rewrite fresh_empty|].
    destruct Hd. by apply (g_tracked _ _ _ _ _ Hg). }
  split; [done|]. split; [|split].
  - intros ih b v. rewrite (cells_hash_of _ _ _ _ _ _ _ _ Hc), (cells_hash_of _ _ _ _ _ _ _ _ Hc').
    apply (Hfresh (ih, b, v)).
  - exists m'. split; [apply Hc'|]. intros ih b v. rewrite (cells_hash_of _ _ _ _ _ _ _ _ Hc'), Hm'.
    change (InfoHashKey ih b v) with (key_of (ih, b, v)). change (H' ih b v) with (at_key H' (ih, b, v)).
    split.
    + intros [Hk Hno] He. apply Hno. exists (ih, b, v). split; [by apply Hts|done].
    + intros Hne. split; [|by intros (t & _ & <-%key_of_inj & ?)].
      apply (g_tracked _ _ _ _ _ Hg). intros He. apply Hne. rewrite Hfresh.
      unfold at_key. cbn [fst snd] in He |- *. by rewrite He, fresh_empty.
  - intros b. exists (C b), (C' b). split; [apply Hc|]. split; [apply Hc'|].
    rewrite <-!(stored_perm b _ _ _ Hp), (stored_peers_eq _ _ _ _ _ _ _ Hc), (stored_peers_eq _ _ _ _ _ _ _ Hc').
    specialize (HC b). lia.
Qed.
Definition key1 : bytes := InfoHashKey ih1 true false.
Definition db1 : db := (@putPeer db reference_server 0 key1 CountSeederKey (PackPeer peer1) ∅).1.

Lemma redis_gc_witness :
  hash_of (@gc db reference_server shuffle_id 5 db1) key1 = ∅ ∧
  ∃ c', int_at (@gc db reference_server shuffle_id 5 db1) CountSeederKey = Some c'.
Proof.
  assert (db_inv 5 ∅) as H0 by (apply empty_db_inv; reflexivity).
  destruct (@putPeer_run db reference_server reference_spec 4 ∅ 0 true ih1 peer1 (conj I H0) peer1_ok)
    as (s' & E & Hi & _); [split; [discriminate|reflexivity]|].
  assert (db1 = s') as Hdb by exact (f_equal fst E). subst s'.
  assert (set_at db1 IHKey = Some {[key1]}) as Hm
    by (apply (bool_decide_eq_true_1 _); vm_cast_no_check (eq_refl true)).
  destruct (@redis_gc db reference_server reference_spec shuffle_id 5 4 db1 {[key1]} Hi Hm)
    as (_ & Hh & _ & Hc).
  - intros []; apply (bool_decide_eq_true_1 _); vm_cast_no_check (eq_refl true).
  - split; [|destruct (Hc true) as (c & c' & _ & Hc' & _); by exists c'].
    etransitivity; [exact (Hh ih1 true false)|].
    apply (bool_decide_eq_true_1 _); vm_cast_no_check (eq_refl true).
Defined.

(** Packing and unpacking a peer: the packed form of a peer with a valid
    address reads back as the peer with its address unmapped and without zone,
    and two such peers share a packed form only when they agree on those. *)
Theorem PackPeer_roundtrip (p q : Peer) :
  length (peer_ID p) = PeerIDLen → uint 16 (peer_Port p) → Addr_wf (peer_addr p) →
  IsValid (peer_addr p) = true →
  UnpackPeer (PackPeer p) = Ok (canonical p) ∧
  (length (peer_ID q) = PeerIDLen → uint 16 (peer_Port q) → Addr_wf (peer_addr q) →
   IsValid (peer_addr q) = true → PackPeer p = PackPeer q → canonical p = canonical q).
Proof.
  intros Hid Hp Hwf Hv. split; [by apply UnpackPeer_PackPeer|].
  intros Hid' Hp' Hwf' Hv' E. apply (f_equal UnpackPeer) in E.
  rewrite !UnpackPeer_PackPeer in E by done. congruence.
Qed.

Lemma PackPeer_roundtrip_witness :
  UnpackPeer (PackPeer (MkPeer (replicate 20 x01) (Addr6 0xffff01020304 []) 6881)) =
    Ok (MkPeer (replicate 20 x01) (Addr4 0x01020304) 6881).
Proof.
  refine (eq_trans (proj1 (PackPeer_roundtrip
    (MkPeer (replicate 20 x01) (Addr6 0xffff01020304 []) 6881) peer1 _ _ _ _)) _);
    [reflexivity|unfold uint; simpl; lia|unfold Addr_wf, uint; simpl; lia|reflexivity|reflexivity].
Defined.

(** The counters count calls, not peers: announcing again a seeder that is
    already stored leaves the swarms as they are and still adds one to the
    seeder counter; graduating a stored leecher removes it and leaves the
    leecher counter as it is. *)
Theorem counters_drift {S : Type} {HRedis : Redis S} {HSpec : RedisSpec S} (n : nat) (s : S)
    (now : Z) (ih : InfoHash) (p : Peer) (cs cl : Z) :
  srv_inv (1 + n) s → peer_ok p → int64 now →
  int_at (rd_db s) CountSeederKey = Some cs → int_at (rd_db s) CountLeecherKey = Some cl →
  (p ∈ db_view (rd_db s) Seeder ih →
   let '(s', e) := PutSeeder now ih p s in
   e = None ∧ (db_view (rd_db s') ≡ db_view (rd_db s)) ∧ int_at (rd_db s') CountSeederKey = Some (cs + 1)) ∧
  (p ∈ db_view (rd_db s) Leecher ih →
   let '(s', e) := GraduateLeecher now ih p s in
   e = None ∧ (p ∉ db_view (rd_db s') Leecher ih) ∧ int_at (rd_db s') CountLeecherKey = Some cl).
Proof.
  intros Hi Hp Hnow Hcs Hcl. split; intros Hin.
  - destruct (putPeer_run n s now true ih p Hi Hp Hnow) as (s' & E & _ & Hv & Hc).
    unfold PutSeeder. cbn [CountKey] in E. rewrite E. split; [done|]. split.
    + rewrite Hv. intros r ih'. apply set_eq. intros q. rewrite elem_of_view_add.
      split; [|by right]. by intros [(-> & -> & ->)|?].
    + specialize (Hc true). cbn [CountKey] in Hc. rewrite Hcs in Hc. by rewrite Hc.
  - destruct (redis_graduate_run n s now ih p Hi Hp Hnow) as (s' & E & _ & Hv & Hc).
    rewrite E. split; [done|]. split.
    + rewrite (Hv Leecher ih), elem_of_view_add, elem_of_view_remove. naive_solver.
    + specialize (Hc false). cbn [CountKey] in Hc. rewrite Hcl in Hc. by rewrite Hc.
Qed.

Lemma db1_inv : @srv_inv db reference_server reference_spec 4 db1.
Proof.
  assert (db_inv 5 ∅) as H0 by (apply empty_db_inv; reflexivity).
  destruct (@putPeer_run db reference_server reference_spec 4 ∅ 0 true ih1 peer1 (conj I H0) peer1_ok)
    as (s' & E & Hi & _); [split; [discriminate|reflexivity]|].
  assert (db1 = s') as -> by exact (f_equal fst E). done.
Qed.

Lemma counters_drift_witness :
  ∃ d e, @PutSeeder db reference_server 7 ih1 peer1 db1 = (d, e) ∧ int_at d CountSeederKey = Some 2 ∧
         db_view d ≡ db_view db1.
Proof.
  assert (int_at db1 CountSeederKey = Some 1) as Hcs
    by (apply (bool_decide_eq_true_1 _); vm_cast_no_check (eq_refl true)).
  assert (int_at db1 CountLeecherKey = Some 0) as Hcl
    by (apply (bool_decide_eq_true_1 _); vm_cast_no_check (eq_refl true)).
  assert (peer1 ∈ db_view db1 Seeder ih1) as Hin
    by (apply (bool_decide_eq_true_1 _); vm_cast_no_check (eq_refl true)).
  assert (int64 7) as H7 by (split; [discriminate|reflexivity]).
  pose proof (proj1 (@counters_drift db reference_server reference_spec 3 db1 7 ih1 peer1 1 0
    db1_inv peer1_ok H7 Hcs Hcl) Hin) as H.
  destruct (@PutSeeder db reference_server 7 ih1 peer1 db1) as [d e]. exists d, e.
  split; [reflexivity|]. split; apply H.
Defined.

(** The collection can lose a swarm: when another client announces the first
    seeder of a tracked but empty swarm between the collector's [HLEN] and its
    [SREM] (two commands, not a transaction), the swarm ends up with a seeder and
    outside the set of tracked keys. *)
Theorem gc_untracks_live_swarm {S : Type} {HRedis : Redis S} {HSpec : RedisSpec S} (n : nat) (s : S)
    (now : Z) (ih : InfoHash) (p : Peer) :
  srv_inv (1 + n) s → peer_ok p → int64 now →
  let k := InfoHashKey ih true (Peer_Is6 p) in
  hash_of (rd_db s) k = ∅ →
  let '(s1, r) := is_empty_swarm k s in
  let '(s2, e2) := PutSeeder now ih p s1 in
  let '(s3, e3) := untrack k s2 in
  r = Ok true ∧ e2 = None ∧ e3 = None ∧ p ∈ db_view (rd_db s3) Seeder ih ∧
  ∃ m, set_at (rd_db s3) IHKey = Some m ∧ k ∉ m.
Proof.
  intros Hi Hp Hnow k He. unfold is_empty_swarm.
  destruct Hi as [Hup (H & m & C & D & Hc & Hg)].
  unfold k in He. rewrite (cells_hash_of _ _ _ _ _ _ _ _ Hc) in He. fold k in He.
  destruct (rd_HLen s k _ Hup (c_hash _ _ _ _ _ Hc ih true (Peer_Is6 p))) as (Hr & Hup1 & Hd1).
  destruct (HLen k s) as [s1 r]. cbn [fst snd] in *. subst r. cbn [no_result mbind result_bind].
  assert (srv_inv (1 + n) s1) as Hi1 by (split; [done|]; rewrite Hd1; by do 4 eexists).
  destruct (putPeer_run n s1 now true ih p Hi1 Hp Hnow) as (s2 & E & Hi2 & Hv & _).
  unfold PutSeeder. cbn [CountKey] in E. fold k in E |- *. rewrite E.
  destruct Hi2 as [Hup2 (H2 & m2 & C2 & D2 & Hc2 & Hg2)]. unfold untrack.
  destruct (rd_SRem s2 IHKey k m2 Hup2 (c_set _ _ _ _ _ Hc2)) as (Hr3 & Hup3 & Hd3).
  destruct (SRem IHKey k s2) as [s3 r3]. cbn [fst snd] in *. subst r3.
  pose proof (cells_put_set _ _ _ _ _ (m2 ∖ {[k]}) Hc2) as Hc3. rewrite <-Hd3 in Hc3.
  split; [by rewrite He, map_size_empty|]. split; [done|]. split; [done|]. split.
  - assert (p ∈ db_view (rd_db s2) Seeder ih) as Hin
      by (rewrite (Hv Seeder ih); apply elem_of_view_add; by left).
    by rewrite (cells_view _ _ _ _ _ Hc3 Seeder ih), <-(cells_view _ _ _ _ _ Hc2 Seeder ih).
  - exists (m2 ∖ {[k]}). split; [apply Hc3|]. intros [_ Hk]%elem_of_difference. by apply Hk, elem_of_singleton.
Qed.

Lemma gc_untracks_live_swarm_witness :
  let '(s1, _) := @is_empty_swarm db reference_server key1 ∅ in
  let '(s2, _) := @PutSeeder db reference_server 7 ih1 peer1 s1 in
  let '(s3, _) := @untrack db reference_server key1 s2 in
  peer1 ∈ db_view s3 Seeder ih1.
Proof.
  assert (db_inv 2 ∅) as H0 by (apply empty_db_inv; reflexivity).
  assert (hash_of ∅ key1 = ∅) as He by (apply (bool_decide_eq_true_1 _); vm_cast_no_check (eq_refl true)).
  assert (int64 7) as H7 by (split; [discriminate|reflexivity]).
  pose proof (@gc_untracks_live_swarm db reference_server reference_spec 1 ∅ 7 ih1 peer1
    (conj I H0) peer1_ok H7 He) as H.
  change (InfoHashKey ih1 true (Peer_Is6 peer1)) with key1 in H.
  destruct (is_empty_swarm key1 ∅) as [s1 r1]. destruct (PutSeeder 7 ih1 peer1 s1) as [s2 e2].
  destruct (untrack key1 s2) as [s3 e3]. apply H.
Defined.

(** Whatever the server answers, an announce over Redis reports an error
    exactly when it returns no peer: an error after some peers were read is
    dropped, and no peer at all is [ErrResourceDoesNotExist]. *)
Theorem AnnouncePeers_error_iff_no_peers {S : Type} {HRedis : Redis S} (ih : InfoHash)
    (forSeeder : bool) (numWant : Z) (v6 : bool) (s : S) :
  let '(_, (out, err)) := AnnouncePeers ih forSeeder numWant v6 s in err ≠ None ↔ out = [].
Proof.
  unfold AnnouncePeers, GetPeers.
  destruct (getPeers _ _ _ _ _) as [s' [out [e|]]]; case_decide; split; congruence.
Qed.

(** A list of blank addresses passes [Validate] as an empty list, which a
    connection to a single server then indexes: it panics. *)
Theorem blank_addresses_panic (cfg : Config) :
  Addresses cfg ≠ [] → Forall (λ a, TrimSpace a = []) (Addresses cfg) →
  Sentinel cfg = false → Cluster cfg = false →
  ∃ cfg', Validate cfg = Ok cfg' ∧ Addresses cfg' = [] ∧ ∀ ping, Connect ping cfg' = None.
Proof.
  intros Hne Hb Hs Hc. unfold Validate. rewrite Hs, Hc. cbn [andb]. rewrite decide_False by done.
  assert (List.filter (λ a, bool_decide (TrimSpace a ≠ [])) (Addresses cfg) = []) as ->.
  { induction (Addresses cfg) as [|a l IH]; [done|]. apply list.Forall_cons in Hb as [Ha Hl]. simpl.
    rewrite bool_decide_eq_false_2 by auto. destruct l; [done|]. by apply IH. }
  eexists. split; [done|]. split; [done|]. done.
Qed.

Lemma blank_addresses_panic_witness :
  ∃ cfg', Validate (MkConfig 0 [bs " "] 0 0 [] [] false [] false 0 0 0) = Ok cfg' ∧ ∀ ping, Connect ping cfg' = None.
Proof.
  destruct (blank_addresses_panic (MkConfig 0 [bs " "] 0 0 [] [] false [] false 0 0 0)) as (cfg' & H1 & _ & H2);
    [discriminate|repeat constructor|reflexivity|reflexivity|].
  exists cfg'. split; [exact H1|exact H2].
Defined.


End RedisFacts.
