(* ===== verification/RedisConc.v ===== *)
(** * Package [storage/redis] under concurrency

    The clients and collectors of one Redis server (src/storage/redis/storage.go):
    a server carries out one command, or one transaction, after the other, and
    between two commands of a method those of others may come.  Alone, a method is
    the one of [Redis]; interleaved, every write still takes its whole effect on
    the swarms at one moment, even when it reports an error, and a collection
    removes no peer that was never announced before its cutoff. *)

From S2P Require Import Prelude GoStd Netip Bittorrent Storage Threads Redis SwarmKeys RedisSpec.
Import RedisStore RedisFacts.

Local Open Scope Z_scope.

(** ** What a server does when a command fails

    A command of a transaction that fails changes nothing, and the ones after it
    are carried out all the same; the client returns the error of the first that
    failed, so that [tx] takes its last branch.  [TxPipelined] gives no errors of
    single commands next to that one, and [tx] would not look at them. *)

Definition exec_or (c : tx_cmd) (d : db) : db := default d (exec c d).

Fixpoint exec_each (cs : list tx_cmd) (d : db) : db * list bool :=
  match cs with
  | [] => (d, [])
  | c :: cs =>
      let '(d', oks) := exec_each cs (exec_or c d) in (d', bool_decide (is_Some (exec c d)) :: oks)
  end.

(** What the client reports of a transaction: when a command failed, the error of
    the first one that did. *)
Definition tx_reports (oks : list bool) (r : result (list error)) : Prop :=
  if forallb id oks then r = Ok (replicate (length oks) None) else ∃ e, r = Err e.

Class RedisErrors (S : Type) `{RedisSpec S} := {
  re_TxPipelined s cs : rd_up s →
    ∃ r, replies rd_up rd_db (TxPipelined cs s) r (exec_each cs (rd_db s)).1 ∧ tx_reports (exec_each cs (rd_db s)).2 r;
  re_Decr s k n : rd_up s → int_at (rd_db s) k = Some n → incr_at k (-1) (rd_db s) = None →
    ∃ e, replies rd_up rd_db (Decr k s) (Err e) (rd_db s);
  re_DecrBy s k i n : rd_up s → int_at (rd_db s) k = Some n → incr_at k (- i) (rd_db s) = None →
    ∃ e, replies rd_up rd_db (DecrBy k i s) (Err e) (rd_db s);
}.

Definition succeeded (e : error) : bool := match e with None => true | Some _ => false end.

(** The errors of the commands one by one, as the server replies with them. *)
Lemma exec_replies cs d errs0 : ∃ errs,
  foldl (λ '(d, errs) c, match exec c d with
    | Some d => (d, errs ++ [None]) | None => (d, errs ++ [Some WRONGTYPE]) end) (d, errs0) cs
  = ((exec_each cs d).1, errs0 ++ errs) ∧ succeeded <$> errs = (exec_each cs d).2.
Proof.
  revert d errs0. induction cs as [|c cs IH]; intros d errs0.
  - exists []. by rewrite app_nil_r.
  - cbn [foldl exec_each].
    set (o := if exec c d is Some _ then None else Some WRONGTYPE).
    destruct (IH (exec_or c d) (errs0 ++ [o])) as (errs & E & Hs). exists (o :: errs).
    assert (foldl (λ '(d, errs) c, match exec c d with
      | Some d => (d, errs ++ [None]) | None => (d, errs ++ [Some WRONGTYPE]) end)
      (match exec c d with Some d' => (d', errs0 ++ [None]) | None => (d, errs0 ++ [Some WRONGTYPE]) end) cs =
      ((exec_each cs (exec_or c d)).1, (errs0 ++ [o]) ++ errs)) as -> by (rewrite <-E; unfold exec_or, o; by destruct (exec c d)).
    destruct (exec_each cs (exec_or c d)) as [d' oks]. rewrite <-(assoc_L _). split; [done|].
    cbn in Hs |- *. rewrite Hs. f_equal. unfold o. by destruct (exec c d).
Qed.

Lemma first_error errs :
  tx_reports (succeeded <$> errs) (match omap (λ e, e) errs with [] => Ok errs | e :: _ => Err e end).
Proof.
  unfold tx_reports. induction errs as [|[e|] errs IH]; cbn; [done|by eexists|].
  destruct (forallb id (succeeded <$> errs)).
  - destruct (omap (λ e, e) errs); [|done]. injection IH as IH. cbn. do 2 f_equal. exact IH.
  - destruct (omap (λ e, e) errs); [by destruct IH|by eexists].
Qed.

Lemma exec_tx_each cs d : ∃ r, exec_tx cs d = ((exec_each cs d).1, r) ∧ tx_reports (exec_each cs d).2 r.
Proof.
  destruct (exec_replies cs d []) as (errs & E & Hs). eexists. unfold exec_tx. rewrite E. cbn [app]. split; [done|].
  rewrite <-Hs. apply first_error.
Qed.

#[export] Instance reference_errors : @RedisErrors db reference_server reference_spec.
Proof.
  split; unfold replies.
  - intros s cs _. destruct (exec_tx_each cs s) as (r & E & Hs). exists r.
    cbn [TxPipelined reference_server]. by rewrite E.
  - intros s k n _ Hn Hd. cbn [Decr reference_server]. change (rd_db s) with s in Hn, Hd.
    rewrite Hn. cbn [mbind option_bind]. rewrite Hd. by eexists.
  - intros s k i n _ Hn Hd. cbn [DecrBy reference_server]. change (rd_db s) with s in Hn, Hd.
    rewrite Hn. cbn [mbind option_bind]. rewrite Hd. by eexists.
Qed.

Module RedisConc.

(** ** The methods, command by command *)

Section Methods.
Context {S : Type} `{Redis S}.

Definition cmd {A} (c : call S A) : prog S (result A) := atomically c.

(** One transaction. *)
Definition putPeer (now : Z) (infoHashKey peerCountKey peerID : bytes) : prog S error :=
  atomically (RedisStore.putPeer now infoHashKey peerCountKey peerID).

Definition delPeer (infoHashKey peerCountKey peerID : bytes) : prog S error :=
  r ← cmd (HDel infoHashKey [peerID]);
  match no_result 0 r with
  | Ok deleted =>
      if deleted =? 0 then mret (Some ErrResourceDoesNotExist)
      else r ← cmd (Decr peerCountKey); mret (err_of r)
  | Err e => mret (Some e)
  end.

Definition PutSeeder (now : Z) (ih : InfoHash) (peer : Peer) : prog S error :=
  putPeer now (InfoHashKey ih true (Peer_Is6 peer)) CountSeederKey (PackPeer peer).

Definition DeleteSeeder (ih : InfoHash) (peer : Peer) : prog S error :=
  delPeer (InfoHashKey ih true (Peer_Is6 peer)) CountSeederKey (PackPeer peer).

Definition PutLeecher (now : Z) (ih : InfoHash) (peer : Peer) : prog S error :=
  putPeer now (InfoHashKey ih false (Peer_Is6 peer)) CountLeecherKey (PackPeer peer).

Definition DeleteLeecher (ih : InfoHash) (peer : Peer) : prog S error :=
  delPeer (InfoHashKey ih false (Peer_Is6 peer)) CountLeecherKey (PackPeer peer).

(** One transaction. *)
Definition GraduateLeecher (now : Z) (ih : InfoHash) (peer : Peer) : prog S error :=
  atomically (RedisStore.GraduateLeecher now ih peer).

Fixpoint getPeers (membersFn : bytes → Z → call S (list bytes)) (infoHashKeys : list bytes)
    (maxCount : Z) (out : list Peer) : prog S (list Peer * error) :=
  match infoHashKeys with
  | [] => mret (out, None)
  | infoHashKey :: rest =>
      r ← cmd (membersFn infoHashKey maxCount);
      let '(peers, err) := parsePeersList r in
      let maxCount := maxCount - Z.of_nat (length peers) in
      let out := out ++ peers in
      if bool_decide (err ≠ None) || (maxCount <=? 0) then mret (out, err)
      else getPeers membersFn rest maxCount out
  end.

Definition GetPeers (infoHash : InfoHash) (forSeeder : bool) (maxCount : Z) (isV6 : bool)
    (membersFn : bytes → Z → call S (list bytes)) : prog S (list Peer * error) :=
  let infoHashKeys :=
    if forSeeder then [InfoHashKey infoHash false isV6]
    else [InfoHashKey infoHash true isV6; InfoHashKey infoHash false isV6] in
  '(out, err) ← getPeers membersFn infoHashKeys maxCount [];
  mret (out, match err with
             | None => if decide (out = []) then Some ErrResourceDoesNotExist else None
             | Some e => if decide (out = []) then Some e else None
             end).

Definition AnnouncePeers (ih : InfoHash) (forSeeder : bool) (numWant : Z) (v6 : bool)
    : prog S (list Peer * error) :=
  GetPeers ih forSeeder numWant v6 HRandField.

(** The reply of a command, or the end of a scrape with its error. *)
Definition or_fail {A B} (zero : A) (c : call S B) (read : result B → result A)
    (k : A → prog S (Z * Z * Z * error)) : prog S (Z * Z * Z * error) :=
  r ← cmd c;
  match no_result zero (read r) with
  | Err e => mret (0, 0, 0, Some e)
  | Ok a => k a
  end.

Definition ScrapeIH (infoHash : InfoHash) (countFn : bytes → call S Z) : prog S (Z * Z * Z * error) :=
  or_fail 0 (countFn (InfoHashKey infoHash false false)) id (λ lc4,
  or_fail 0 (countFn (InfoHashKey infoHash false true)) id (λ lc6,
  or_fail 0 (countFn (InfoHashKey infoHash true false)) id (λ sc4,
  or_fail 0 (countFn (InfoHashKey infoHash true true)) id (λ sc6,
  or_fail 0 (HGet CountDownloadsKey infoHash) (λ r, b ← r; ParseInt b 64) (λ dc,
  mret (wrap 32 (lc4 + lc6), wrap 32 (sc4 + sc6), wrap 32 dc, None)))))).

Definition ScrapeSwarm (ih : InfoHash) : prog S (Z * Z * Z * error) := ScrapeIH ih HLen.

Fixpoint remove_each (infoHashKey : bytes) (ks : list bytes) (removed : Z) : prog S Z :=
  match ks with
  | [] => mret removed
  | k :: ks =>
      r ← cmd (HDel infoHashKey [k]);
      remove_each infoHashKey ks
        (match no_result 0 r with Ok count => removed + count | Err _ => removed end)
  end.

Definition remove_peers (infoHashKey cntKey : bytes) (ks : list bytes) : prog S () :=
  match ks with
  | [] => mret tt
  | _ =>
      r ← cmd (HDel infoHashKey ks);
      removedPeerCount ←
        match no_result 0 r with
        | Ok n => mret n
        | Err e => if too_many_args e then remove_each infoHashKey ks 0 else mret 0
        end;
      if removedPeerCount >? 0 then _ ← cmd (DecrBy cntKey removedPeerCount); mret tt else mret tt
  end.

(** The commands of the function under [WATCH]; they run on other connections,
    so that the [WATCH] around them does nothing for them. *)
Definition clean (infoHashKey : bytes) : prog S error :=
  r ← cmd (HLen infoHashKey);
  match n ← no_result 0 r; Ok (n =? 0) with
  | Ok true => r ← cmd (SRem IHKey infoHashKey); mret (NoResultErr (err_of r))
  | Ok false => mret None
  | Err e => mret (Some e)
  end.

Definition gc_key `{Shuffle} (cutoffNanos : Z) (infoHashKey : bytes) : prog S () :=
  match count_key infoHashKey with
  | None => mret tt
  | Some cntKey =>
      r ← cmd (HGetAll infoHashKey);
      match no_result ∅ r with
      | Err _ => mret tt
      | Ok peerList =>
          remove_peers infoHashKey cntKey (peersToRemove cutoffNanos peerList);;
          _ ← clean infoHashKey; mret tt
      end
  end.

Definition gc `{Shuffle} (cutoffNanos : Z) : prog S () :=
  r ← cmd (SMembers IHKey);
  match no_result [] r with
  | Ok infoHashKeys => for_each infoHashKeys (gc_key cutoffNanos)
  | Err _ => mret tt
  end.

(** ** Calls and sessions *)

Inductive call :=
  | Write (now : Z) (o : wop)
  | Announce (ih : InfoHash) (forSeeder : bool) (numWant : Z) (v6 : bool)
  | Scrape (ih : InfoHash)
  | Collect (σ : Shuffle) (cutoff : Z).

Inductive answer :=
  | Wrote (e : error)
  | Announced (r : list Peer * error)
  | Scraped (r : Z * Z * Z * error)
  | Collected.

Definition exec_write (now : Z) (o : wop) : prog S error :=
  match o with
  | WPutSeeder ih p => PutSeeder now ih p
  | WDeleteSeeder ih p => DeleteSeeder ih p
  | WPutLeecher ih p => PutLeecher now ih p
  | WDeleteLeecher ih p => DeleteLeecher ih p
  | WGraduateLeecher ih p => GraduateLeecher now ih p
  end.

Definition exec (c : call) : prog S answer :=
  match c with
  | Write now o => e ← exec_write now o; mret (Wrote e)
  | Announce ih forSeeder numWant v6 => r ← AnnouncePeers ih forSeeder numWant v6; mret (Announced r)
  | Scrape ih => r ← ScrapeSwarm ih; mret (Scraped r)
  | Collect σ cutoff => gc cutoff;; mret Collected
  end.

(** A goroutine's calls, one after the other, with their answers. *)
Fixpoint session (cs : list call) : prog S (list (call * answer)) :=
  match cs with
  | [] => mret []
  | c :: cs => a ← exec c; l ← session cs; mret ((c, a) :: l)
  end.

(** The call at one moment. *)
Definition write_at_once (now : Z) (o : wop) : S → S * error :=
  match o with
  | WPutSeeder ih p => RedisStore.PutSeeder now ih p
  | WDeleteSeeder ih p => RedisStore.DeleteSeeder ih p
  | WPutLeecher ih p => RedisStore.PutLeecher now ih p
  | WDeleteLeecher ih p => RedisStore.DeleteLeecher ih p
  | WGraduateLeecher ih p => RedisStore.GraduateLeecher now ih p
  end.

Definition exec_at_once (c : call) (s : S) : S * answer :=
  match c with
  | Write now o => let '(s, e) := write_at_once now o s in (s, Wrote e)
  | Announce ih forSeeder numWant v6 =>
      let '(s, r) := RedisStore.AnnouncePeers ih forSeeder numWant v6 s in (s, Announced r)
  | Scrape ih => let '(s, r) := RedisStore.ScrapeSwarm ih s in (s, Scraped r)
  | Collect σ cutoff => (RedisStore.gc cutoff s, Collected)
  end.
End Methods.

(** ** Alone *)

Section Alone.
Context {S : Type} {HRedis : Redis S}.

(** [m] alone is [f]. *)
Definition alone {A} (m : prog S A) (f : S → S * A) : Prop := ∀ s, run m s = Some (f s).

Lemma alone_cmd {A B} (c : Redis.call S A) (k : result A → prog S B) (f : result A → S → S * B) :
  (∀ r, alone (k r) (f r)) → alone (r ← cmd c; k r) (λ s, let '(s, r) := c s in f r s).
Proof. intros Hk s. change (run (k (c s).2) (c s).1 = Some (let '(s, r) := c s in f r s)). rewrite Hk. by destruct (c s). Qed.

Lemma alone_bind {A B} (m : prog S A) (k : A → prog S B) f (g : A → S → S * B) :
  alone m f → (∀ a, alone (k a) (g a)) → alone (m ≫= k) (λ s, let '(s, a) := f s in g a s).
Proof. intros Hm Hk s. rewrite (run_bind_Some m k s (f s).1 (f s).2), Hk by (rewrite Hm; by destruct (f s)). by destruct (f s). Qed.

Lemma alone_ret {A} (a : A) : alone (mret a) (λ s, (s, a)).
Proof. done. Qed.

Lemma alone_eq {A} (m : prog S A) f g : alone m f → (∀ s, f s = g s) → alone m g.
Proof. intros Hm E s. by rewrite Hm, E. Qed.
Lemma alone_atomically {A} (f : S → S * A) : alone (atomically f) f.
Proof. intros s. change (Some ((f s).1, (f s).2) = Some (f s)). by destruct (f s). Qed.

Lemma alone_delPeer k c p : alone (delPeer k c p) (RedisStore.delPeer k c p).
Proof.
  apply alone_cmd. intros r. destruct (no_result 0 r) as [n|e]; [|apply alone_ret].
  destruct (n =? 0); [apply alone_ret|]. by apply (alone_cmd _ _ (λ r s, (s, err_of r))).
Qed.

Lemma alone_write now o : alone (exec_write now o) (write_at_once now o).
Proof. destruct o; cbn [exec_write write_at_once]; first [apply alone_delPeer|apply alone_atomically]. Qed.

Lemma alone_getPeers fn ks n out : alone (getPeers fn ks n out) (RedisStore.getPeers fn ks n out).
Proof.
  revert n out. induction ks as [|k ks IH]; intros n out; [done|]. cbn [getPeers RedisStore.getPeers].
  apply alone_cmd. intros r. destruct (parsePeersList r) as [ps e]. cbv zeta. case_match; [done|apply IH].
Qed.

Lemma alone_GetPeers ih fs n v6 fn : alone (GetPeers ih fs n v6 fn) (RedisStore.GetPeers ih fs n v6 fn).
Proof.
  unfold GetPeers, RedisStore.GetPeers.
  eapply alone_eq.
  - eapply (alone_bind _ _ _ (λ '(out, err) s, (s, (out, match err with
      | None => if decide (out = []) then Some ErrResourceDoesNotExist else None
      | Some e => if decide (out = []) then Some e else None end)))); [apply alone_getPeers|by intros []].
  - intros s. cbv beta. by destruct (RedisStore.getPeers _ _ _ _ s) as [s' [out err]].
Qed.

Lemma alone_or_fail {A B} (zero : A) (c : Redis.call S B) read k f :
  (∀ a, alone (k a) (f a)) →
  alone (or_fail zero c read k)
    (λ s, let '(s, r) := c s in match no_result zero (read r) with Err e => (s, (0, 0, 0, Some e)) | Ok a => f a s end).
Proof.
  intros Hk. apply (alone_cmd _ _ (λ r s, match no_result zero (read r) with Err e => (s, (0, 0, 0, Some e)) | Ok a => f a s end)).
  intros r. by destruct (no_result zero (read r)).
Qed.

Lemma alone_ScrapeIH ih fn : alone (ScrapeIH ih fn) (RedisStore.ScrapeIH ih fn).
Proof. unfold ScrapeIH, RedisStore.ScrapeIH. do 5 (apply alone_or_fail; intros ?). apply alone_ret. Qed.

Lemma alone_remove_each k ks n : alone (remove_each k ks n) (RedisStore.remove_each k ks n).
Proof.
  revert n. induction ks as [|f ks IH]; intros n; [done|]. cbn [remove_each RedisStore.remove_each].
  apply alone_cmd. intros r. apply IH.
Qed.

Lemma alone_remove_peers k c ks : alone (remove_peers k c ks) (λ s, (RedisStore.remove_peers k c ks s, tt)).
Proof.
  unfold remove_peers, RedisStore.remove_peers. destruct ks as [|f ks]; [done|].
  set (rest n s := (if n >? 0 then (DecrBy c n s).1 else s, tt)).
  assert (∀ n, alone (if n >? 0 then _ ← cmd (DecrBy c n); mret tt else mret tt) (rest n)) as Hrest.
  { intros n. unfold rest. case_match; [|done]. intros s. cbn. by destruct (DecrBy c n s). }
  eapply alone_eq.
  - apply (alone_cmd _ _ (λ r s, let '(s, n) := match no_result 0 r with
        | Ok n => (s, n)
        | Err e => if too_many_args e then RedisStore.remove_each k (f :: ks) 0 s else (s, 0) end in rest n s)).
    intros r. apply alone_bind; [|done]. destruct (no_result 0 r); [done|]. case_match; [apply alone_remove_each|done].
  - intros s. cbv beta. destruct (HDel k (f :: ks) s) as [s' r]. unfold rest. by repeat case_match.
Qed.

Lemma alone_clean k : alone (clean k) (RedisStore.clean k).
Proof.
  unfold clean. eapply alone_eq.
  - eapply (alone_cmd _ _ (λ r s, match n ← no_result 0 r; Ok (n =? 0) with
      | Ok true => untrack k s | Ok false => (s, None) | Err e => (s, Some e) end)). intros r.
    destruct (n ← no_result 0 r; _) as [[|]|]; [|done..]. by apply (alone_cmd _ _ (λ r s, (s, NoResultErr (err_of r)))).
  - intros s. unfold RedisStore.clean, is_empty_swarm. by destruct (HLen k s).
Qed.

(** [WATCH] around the commands of other connections. *)
Context (HWatch : ∀ k (f : S → S * error) s, Watch k f s = f s) {σ : Shuffle}.

Lemma alone_gc_key cutoff k : alone (gc_key cutoff k) (λ s, (RedisStore.gc_key cutoff k s, tt)).
Proof.
  unfold gc_key, RedisStore.gc_key. destruct (count_key k) as [c|]; [|done]. eapply alone_eq.
  - eapply (alone_cmd _ _ (λ r s, match no_result ∅ r with
      | Err _ => (s, tt)
      | Ok l => ((RedisStore.clean k (RedisStore.remove_peers k c (peersToRemove cutoff l) s)).1, tt) end)).
    intros r. destruct (no_result ∅ r) as [l|]; [|done]. eapply alone_eq.
    + apply (alone_bind _ _ _ (λ _ s, ((RedisStore.clean k s).1, tt)) (alone_remove_peers k c _)). intros _.
      eapply alone_eq; [apply (alone_bind _ _ _ (λ _ s, (s, tt)) (alone_clean k)); done|].
      intros s. cbv beta. by destruct (RedisStore.clean k s).
    + done.
  - intros s. cbv beta. destruct (HGetAll k s) as [s' r]. destruct (no_result ∅ r); [|done]. by rewrite HWatch.
Qed.

Lemma alone_gc cutoff : alone (gc cutoff) (λ s, (RedisStore.gc cutoff s, tt)).
Proof.
  unfold gc, RedisStore.gc. eapply alone_eq.
  - eapply (alone_cmd _ _ (λ r s, match no_result [] r with
      | Ok ks => (foldl (λ s k, RedisStore.gc_key cutoff k s) s ks, tt) | Err _ => (s, tt) end)).
    intros r. destruct (no_result [] r) as [ks|]; [|done].
    induction ks as [|k ks IH]; [done|]. cbn [for_each foldl].
    by apply (alone_bind _ _ _ (λ _ s, (foldl (λ s k, RedisStore.gc_key cutoff k s) s ks, tt)) (alone_gc_key cutoff k)).
  - intros s. cbv beta. destruct (SMembers IHKey s) as [s' r]. by destruct (no_result [] r).
Qed.
End Alone.

(** ** Reading among others

    What [GetPeers] and [ScrapeIH] return on any server that keeps an invariant,
    whose commands draw [good] peers and count. *)

Section Reads.
Context {S V E : Type} {HRedis : Redis S} `{!Equiv V, !Equivalence (≡@{V})}.
Context (inv : S → Prop) (view_of : S → V) (apply : V → E → V).
Context `{Happly : !Proper ((≡) ==> (=) ==> (≡)) apply}.

Local Abbreviation does := (does inv view_of apply).

(** A command that answers [r], and leaves the swarms alone. *)
Definition only_reads {A} (c : Redis.call S A) (ok : result A → Prop) : Prop :=
  ∀ s, inv s → ∃ s' r, c s = (s', r) ∧ inv s' ∧ view_of s' ≡ view_of s ∧ ok r.

Definition draws (good : Peer → Prop) (n : Z) (r : result (list bytes)) : Prop :=
  ∃ fs, r = Ok fs ∧ Forall good (omap unpack fs) ∧ Z.of_nat (length (omap unpack fs)) ≤ n.

Lemma does_getPeers good fn ks n out :
  0 < n → (∀ k c, k ∈ ks → 0 < c → only_reads (fn k c) (draws good c)) → Forall good out →
  does (λ '(ps, e), e = None ∧ Forall good ps ∧ Z.of_nat (length ps) ≤ Z.of_nat (length out) + n)
    (getPeers fn ks n out) (eq []).
Proof.
  revert n out. induction ks as [|k ks IH]; intros n out Hn Hks Hout; cbn [getPeers].
  { apply does_ret. split_and!; [done|done|lia]. }
  apply does_read. intros s Hs.
  destruct (Hks k n ltac:(by left) Hn s Hs) as (s' & r & E1 & Hs' & Hv & fs & -> & Hfs & Hlen).
  exists s', (Ok fs). split; [exact E1|]. split; [done|]. split; [done|]. unfold parsePeersList. cbn [no_result].
  cbv zeta. rewrite bool_decide_eq_false_2 by congruence. cbn [orb].
  assert (Forall good (out ++ omap unpack fs)) as Hall by by apply Forall_app.
  destruct (Z.leb_spec (n - Z.of_nat (length (omap unpack fs))) 0) as [Hle|Hgt].
  - apply does_ret. rewrite length_app. split_and!; [done|done|lia].
  - eapply does_weaken; [| |apply IH; [done| |done]]; [|done|].
    + intros [ps e] (? & ? & Hps). rewrite length_app in Hps. split_and!; [done|done|lia].
    + intros k' c Hk'. apply Hks. by right.
Qed.

Lemma does_GetPeers good ih forSeeder n v fn :
  0 < n → (∀ b c, (forSeeder = true → b = false) → 0 < c → only_reads (fn (InfoHashKey ih b v) c) (draws good c)) →
  does (λ '(ps, e), benign e ∧ Forall good ps ∧ Z.of_nat (length ps) ≤ n) (GetPeers ih forSeeder n v fn) (eq []).
Proof.
  intros Hn Hfn. unfold GetPeers. eapply does_then; [apply (does_getPeers good); [done| |by apply list.Forall_nil]|].
  - intros k c Hk. assert (∃ b, k = InfoHashKey ih b v ∧ (forSeeder = true → b = false)) as (b & -> & Hb);
      [|by apply Hfn]. destruct forSeeder; set_solver.
  - intros [ps e] (-> & Hps & Hlen). apply does_ret. cbn [length] in Hlen.
    split; [|split; [done|lia]]. case_decide; [by right|by left].
Qed.

Lemma does_or_fail {A B} (zero : A) (c : Redis.call S B) read k :
  only_reads c (λ r, ∃ a, no_result zero (read r) = Ok a) →
  (∀ a, does (λ r, r.2 = None) (k a) (eq [])) → does (λ r, r.2 = None) (or_fail zero c read k) (eq []).
Proof.
  intros Hc Hk. apply does_read. intros s Hs. destruct (Hc s Hs) as (s' & r & E1 & Hs' & Hv & a & Hr).
  exists s', r. rewrite Hr. by split_and!.
Qed.

Lemma does_ScrapeIH ih fn :
  (∀ b v, only_reads (fn (InfoHashKey ih b v)) (λ r, ∃ n, r = Ok n)) →
  only_reads (HGet CountDownloadsKey ih) (λ r, ∃ a, no_result 0 (b ← r; ParseInt b 64) = Ok a) →
  does (λ r, r.2 = None) (ScrapeIH ih fn) (eq []).
Proof.
  intros Hfn Hget. unfold ScrapeIH.
  assert (∀ b v, only_reads (fn (InfoHashKey ih b v)) (λ r, ∃ a, no_result 0 (id r) = Ok a)) as Hc.
  { intros b v s Hs. destruct (Hfn b v s Hs) as (s' & r & ? & ? & ? & n & ->). exists s', (Ok n). split_and!; [done..|by exists n]. }
  do 4 (apply does_or_fail; [apply Hc|intros ?]).
  apply does_or_fail; [exact Hget|intros dc; by apply does_ret].
Qed.
End Reads.

(** Taking packed peers out of a swarm. *)

Lemma remove_fields_subseteq (fs : list bytes) (h : gmap bytes bytes) : remove_fields fs h ⊆ h.
Proof.
  apply map_subseteq_spec. intros f x. unfold remove_fields. rewrite lookup_deletes. by case_decide.
Qed.

Lemma remove_hview H ih b v fs :
  all_packed H → Forall (λ f, ∃ p, f = PackPeer p ∧ peer_ok p ∧ Peer_Is6 p = v) fs →
  hview (set_cell ih b v (remove_fields fs (H ih b v)) H) ≡
    view_update (role_of b) ih (λ s, s ∖ list_to_set (omap unpack fs)) (hview H).
Proof.
  intros Hpk Hfs r ih'. apply set_eq. intros q. unfold view_update.
  assert (peer_ok q → q ∈ (list_to_set (omap unpack fs) : gset Peer) ↔ PackPeer q ∈ fs) as Hq.
  { intros Hq. rewrite elem_of_list_to_set, list_elem_of_omap. split.
    - intros (f & Hf & Hu). destruct (proj1 (list.Forall_forall _ _) Hfs f Hf) as (p & -> & Hp & _).
      rewrite unpack_PackPeer in Hu by done. by injection Hu as <-.
    - intros Hf. exists (PackPeer q). by rewrite unpack_PackPeer. }
  assert (all_packed (set_cell ih b v (remove_fields fs (H ih b v)) H)) as Hpk'.
  { intros ih0 b0 v0 f x. unfold set_cell. case_decide as Hd; [|by apply Hpk]. simplify_eq.
    intros Hx. by eapply Hpk, lookup_weaken, remove_fields_subseteq. }
  rewrite elem_of_hview by done. unfold set_cell. destruct (decide (r = role_of b ∧ ih' = ih)) as [[-> ->]|Hne].
  - rewrite (proj2 (is_seeder_role (role_of b) b) eq_refl), elem_of_difference, elem_of_hview by done.
    rewrite (proj2 (is_seeder_role (role_of b) b) eq_refl). case_decide as Hd.
    + injection Hd as Hd. unfold remove_fields. rewrite lookup_deletes, Hd. split.
      * intros [Hok Hx]. case_decide as Hf; [by destruct Hx|]. split; [by split|]. by rewrite Hq.
      * intros [[Hok Hx] Hn]. split; [done|]. rewrite decide_False; [done|]. by rewrite <-Hq.
    + split; [|tauto]. intros [Hok Hx]. split; [by split|]. rewrite Hq by done. intros Hf.
      destruct (proj1 (list.Forall_forall _ _) Hfs _ Hf) as (p & E & Hp & H6).
      apply PackPeer_inj in E as ->; [|done..]. by rewrite H6 in Hd.
  - rewrite elem_of_hview by done. rewrite decide_False; [done|]. intros [= -> Hb _]. apply Hne.
    split; [by apply is_seeder_role|done].
Qed.

(** ** What holds at every moment

    [P]: who may be in a swarm, and with which time. *)

Section Healthy.
Context {S : Type} {HRedis : Redis S} {HSpec : RedisSpec S} {HErr : RedisErrors S}.
Context (P : role → InfoHash → Peer → Z → Prop).

(** Of a reachable database without the counters' bounds and the tracking of
    every swarm, which concurrent calls break. *)
Record kept (H : hashes) (m : gset bytes) (D : gmap bytes bytes) : Prop := {
  k_fields ih b v f x : H ih b v !! f = Some x →
    ∃ p t, f = PackPeer p ∧ peer_ok p ∧ Peer_Is6 p = v ∧ x = Itoa t ∧ int64 t ∧ P (role_of b) ih p t;
  k_keys k : k ∈ m → ∃ ih b v, k = InfoHashKey ih b v;
  k_downloads ih x : D !! ih = Some x → ∃ c, x = Itoa c ∧ int64 c;
}.

Definition conc_inv (s : S) : Prop := rd_up s ∧ ∃ H m C D, cells (rd_db s) H m C D ∧ kept H m D.

Lemma kept_packed H m D : kept H m D → all_packed H.
Proof. intros Hk ih b v f x Hf. destruct (k_fields _ _ _ Hk _ _ _ _ _ Hf) as (p & t & ? & ? & ? & _). eauto. Qed.

Lemma kept_insert H m D ih b p t :
  kept H m D → peer_ok p → int64 t → P (role_of b) ih p t →
  kept (set_cell ih b (Peer_Is6 p) (<[PackPeer p := Itoa t]> (H ih b (Peer_Is6 p))) H)
    ({[InfoHashKey ih b (Peer_Is6 p)]} ∪ m) D.
Proof.
  intros [Hf Hk Hd] Hp Ht HP. split; [| |done].
  - intros ih' b' v' f x. unfold set_cell. case_decide as Hd'; [|apply Hf]. simplify_eq.
    intros [[<- <-]|[_ ?]]%lookup_insert_Some; [|eauto]. by exists p, t.
  - intros k [->%elem_of_singleton|Hkm]%elem_of_union; eauto.
Qed.

(** Fewer fields, fewer keys. *)
Lemma kept_subset H m D ih b v h m' :
  kept H m D → h ⊆ H ih b v → m' ⊆ m → kept (set_cell ih b v h H) m' D.
Proof.
  intros [Hf Hk Hd] Hh Hm. split; [| |done].
  - intros ih' b' v' f x. unfold set_cell. case_decide as Hd'; [|apply Hf]. simplify_eq.
    intros Hx. by eapply Hf, lookup_weaken.
  - intros k Hkm. by apply Hk, Hm.
Qed.

(** Counters that are full stay as they are. *)
Definition room (d : db) (b : bool) (i : Z) : Prop := ∃ c, int_at d (CountKey b) = Some c ∧ int64 (c + i).

Lemma cells_incr_or d H m C D b i :
  cells d H m C D →
  (∃ C', cells (default d (incr_at (CountKey b) i d)) H m C' D) ∧ (is_Some (incr_at (CountKey b) i d) ↔ room d b i).
Proof.
  intros Hc. pose proof (c_count _ _ _ _ _ Hc b) as Hb. unfold room. rewrite Hb.
  destruct (decide (int64 (C b + i))) as [Hi|Hi].
  - destruct (cells_incr _ _ _ _ _ b i Hc Hi) as (d' & E & Hc'). rewrite E. split; [by eexists|].
    split; [by exists (C b)|by eexists].
  - assert (incr_at (CountKey b) i d = None) as E.
    { unfold incr_at. rewrite Hb. cbn [mbind option_bind]. by rewrite decide_False. }
    rewrite E. split; [by eexists|]. split; [by intros [? ?]|]. by intros (c & [= <-] & ?).
Qed.

Definition download_room (d : db) (ih : InfoHash) : Prop :=
  ∃ c, field_int (hash_of d CountDownloadsKey) ih = Some c ∧ int64 (c + 1).

Lemma kept_download d H m C D ih :
  cells d H m C D → kept H m D →
  let c := TxHIncrBy CountDownloadsKey ih 1 in
  (∃ D', cells (exec_or c d) H m C D' ∧ kept H m D') ∧ (is_Some (RedisSpec.exec c d) ↔ download_room d ih).
Proof.
  intros Hc [Hf Hk Hd]. cbv zeta. unfold download_room, hash_of, exec_or. rewrite (c_downloads _ _ _ _ _ Hc).
  cbn [default].
  assert (∃ n, field_int D ih = Some n) as [n Hn].
  { unfold field_int. destruct (D !! ih) as [x|] eqn:E; [|by eexists].
    destruct (Hd _ _ E) as (c & -> & ? & ?). rewrite ParseInt_Itoa by lia. by eexists. }
  destruct (decide (int64 (n + 1))) as [Hi|Hi].
  - destruct (cells_download _ _ _ _ _ ih n Hc Hn Hi) as (d' & E & Hc'). rewrite E. split.
    + exists (<[ih := Itoa (n + 1)]> D). split; [done|]. split; [done..|].
      intros ih' x [[<- <-]|[_ ?]]%lookup_insert_Some; eauto.
    + split; [by exists n|by eexists].
  - assert (RedisSpec.exec (TxHIncrBy CountDownloadsKey ih 1) d = None) as E.
    { cbn [RedisSpec.exec]. rewrite (c_downloads _ _ _ _ _ Hc). cbn [mbind option_bind]. rewrite Hn.
      cbn [mbind option_bind]. by rewrite decide_False. }
    rewrite E. split; [by exists D|]. split; [by intros [? ?]|]. intros (c & Hc1 & ?). cbn in Hc1. by assert (c = n) as -> by congruence.
Qed.

(** ** Writes *)

Lemma exec_each_cons c cs d :
  exec_each (c :: cs) d =
    ((exec_each cs (exec_or c d)).1, bool_decide (is_Some (RedisSpec.exec c d)) :: (exec_each cs (exec_or c d)).2).
Proof. cbn [exec_each]. by destruct (exec_each cs (exec_or c d)). Qed.

Lemma exec_each_ok c cs d d' : RedisSpec.exec c d = Some d' →
  exec_each (c :: cs) d = ((exec_each cs d').1, true :: (exec_each cs d').2).
Proof. intros E. rewrite exec_each_cons. unfold exec_or. rewrite E. cbn [default]. by rewrite bool_decide_eq_true_2 by by eexists. Qed.

Lemma tx_any s q : rd_up s →
  ∃ s' e, tx q s = (s', e) ∧ rd_up s' ∧ rd_db s' = (exec_each q (rd_db s)).1 ∧
    (e = None ↔ Forall Is_true (exec_each q (rd_db s)).2).
Proof.
  intros Hup. destruct (re_TxPipelined s q Hup) as (r0 & (Hr & Hup' & Hd) & Hs).
  unfold tx. destruct (TxPipelined q s) as [s' r]. cbn [fst snd] in *. subst r.
  unfold tx_reports in Hs. pose proof (forallb_True id (exec_each q (rd_db s)).2) as Hall.
  destruct (forallb id _).
  - subst r0. rewrite no_errors. eexists _, _. split; [done|]. split; [done|]. split; [done|]. split; [intros _|done]. by apply Hall.
  - destruct Hs as [e ->]. eexists _, _. split; [done|]. split; [done|]. split; [done|]. split; [done|]. intros H. by apply Hall in H.
Qed.

Lemma putPeer_keeps s now b ih p :
  conc_inv s → peer_ok p → int64 now → P (role_of b) ih p now →
  ∃ s' e, RedisStore.putPeer now (InfoHashKey ih b (Peer_Is6 p)) (CountKey b) (PackPeer p) s = (s', e) ∧
    conc_inv s' ∧ db_view (rd_db s') ≡ view_add (role_of b) ih p (db_view (rd_db s)) ∧
    (e = None ↔ room (rd_db s) b 1).
Proof.
  intros [Hup (H0 & m & C & D & Hc & Hk)] Hp Hnow HP. set (k := InfoHashKey ih b (Peer_Is6 p)).
  destruct (cells_hset _ _ _ _ _ ih b (Peer_Is6 p) (PackPeer p) (Itoa now) Hc) as (d1 & E1 & Hc1).
  destruct (cells_incr_or _ _ _ _ _ b 1 Hc1) as [[C2 Hc2] Hroom].
  destruct (cells_sadd _ _ _ _ _ k Hc2) as (d3 & E3 & Hc3).
  destruct (tx_any s [TxHSet k (PackPeer p) (Itoa now); TxIncr (CountKey b); TxSAdd IHKey k] Hup)
    as (s' & e & Htx & Hup' & Hdb & He).
  fold k in E1. rewrite (exec_each_ok _ _ _ _ E1), exec_each_cons in Hdb, He. cbn [fst snd] in Hdb, He.
  change (exec_or (TxIncr (CountKey b)) d1) with (default d1 (incr_at (CountKey b) 1 d1)) in Hdb, He.
  rewrite (exec_each_ok _ _ _ _ E3) in Hdb, He. cbn [exec_each fst snd] in Hdb, He.
  exists s', e. split; [done|]. rewrite <-Hdb in Hc3. split; [|split].
  - split; [done|]. do 4 eexists. split; [exact Hc3|]. by apply kept_insert.
  - rewrite (cells_view _ _ _ _ _ Hc), (cells_view _ _ _ _ _ Hc3). apply insert_hview; [by eapply kept_packed|done].
  - rewrite He, !list.Forall_cons, bool_decide_spec.
    change (RedisSpec.exec (TxIncr (CountKey b)) d1) with (incr_at (CountKey b) 1 d1). rewrite Hroom.
    unfold room. rewrite (c_count _ _ _ _ _ Hc1), (c_count _ _ _ _ _ Hc). cbn. rewrite list.Forall_nil. tauto.
Qed.

Lemma hset_room d k h b i : (∀ b', k ≠ CountKey b') → room (put_hash k h d) b i ↔ room d b i.
Proof. intros Hk. unfold room. by rewrite (int_at_same d _ _ (put_hash_other _ _ _ _ (Hk b))). Qed.

(** The commands of the other methods. *)
Lemma hdel_keeps s ih b p :
  conc_inv s → peer_ok p →
  ∃ s', HDel (InfoHashKey ih b (Peer_Is6 p)) [PackPeer p] s =
      (s', Ok (if decide (p ∈ db_view (rd_db s) (role_of b) ih) then 1 else 0)) ∧
    conc_inv s' ∧ db_view (rd_db s') ≡ view_remove (role_of b) ih p (db_view (rd_db s)) ∧
    ∀ b' i, room (rd_db s') b' i ↔ room (rd_db s) b' i.
Proof.
  intros [Hup (H0 & m & C & D & Hc & Hk)] Hp.
  destruct (rd_HDel s (InfoHashKey ih b (Peer_Is6 p)) [PackPeer p] _ Hup ltac:(done) (c_hash _ _ _ _ _ Hc ih b (Peer_Is6 p)))
    as (Hr & Hup1 & Hd1).
  destruct (HDel _ _ s) as [s1 r]. cbn [fst snd remove_fields foldl] in *. subst r. exists s1.
  pose proof (cells_put_hash _ _ _ _ _ ih b (Peer_Is6 p) (delete (PackPeer p) (H0 ih b (Peer_Is6 p))) Hc) as Hc1.
  rewrite size_delete_le. split; [|split; [|split]].
  - do 2 f_equal. apply decide_ext.
    rewrite (cells_view _ _ _ _ _ Hc (role_of b) ih), (elem_of_hview H0 (role_of b) ih p (kept_packed _ _ _ Hk)).
    rewrite (proj2 (is_seeder_role (role_of b) b) eq_refl). tauto.
  - split; [done|]. rewrite Hd1. do 4 eexists. split; [exact Hc1|]. eapply kept_subset; [done|apply delete_subseteq|done].
  - rewrite Hd1, (cells_view _ _ _ _ _ Hc), (cells_view _ _ _ _ _ Hc1). apply delete_hview; [by eapply kept_packed|done].
  - intros b' i. rewrite Hd1. apply hset_room. intros b''. apply swarm_key_count.
Qed.

(** A command that changes a counter only. *)
Lemma counter_keeps s s' H m C C' D :
  cells (rd_db s) H m C D → kept H m D → rd_up s' → cells (rd_db s') H m C' D →
  conc_inv s' ∧ db_view (rd_db s') ≡ db_view (rd_db s).
Proof.
  intros Hc Hk Hup Hc'. split; [split; [done|by do 4 eexists]|].
  by rewrite (cells_view _ _ _ _ _ Hc), (cells_view _ _ _ _ _ Hc').
Qed.

Lemma decr_keeps s b :
  conc_inv s → ∃ s' r, Decr (CountKey b) s = (s', r) ∧ (err_of r = None ↔ room (rd_db s) b (-1)) ∧
    conc_inv s' ∧ db_view (rd_db s') ≡ db_view (rd_db s).
Proof.
  intros [Hup (H0 & m & C & D & Hc & Hk)].
  destruct (cells_incr_or _ _ _ _ _ b (-1) Hc) as [[C' Hc'] Hroom].
  destruct (incr_at (CountKey b) (-1) (rd_db s)) as [d'|] eqn:E; cbn [default] in Hc'.
  - destruct (rd_Decr s _ _ _ Hup (c_count _ _ _ _ _ Hc b) E) as (Hr & Hup' & <-).
    destruct (Decr _ s) as [s' r]. cbn [fst snd] in *. subst r. exists s'. eexists. split; [done|].
    split; [by rewrite <-Hroom; split|]. by eapply counter_keeps.
  - destruct (re_Decr s _ _ Hup (c_count _ _ _ _ _ Hc b) E) as (e & Hr & Hup' & Hd).
    destruct (Decr _ s) as [s' r]. cbn [fst snd] in *. subst r. exists s'. eexists. split; [done|].
    split; [by rewrite <-Hroom; split; [|intros [? ?]]|]. eapply (counter_keeps s); [done..|]. by rewrite Hd.
Qed.

Lemma decrby_keeps s b n :
  conc_inv s → conc_inv (DecrBy (CountKey b) n s).1 ∧ db_view (rd_db (DecrBy (CountKey b) n s).1) ≡ db_view (rd_db s).
Proof.
  intros [Hup (H0 & m & C & D & Hc & Hk)].
  destruct (cells_incr_or _ _ _ _ _ b (- n) Hc) as [[C' Hc'] _].
  destruct (incr_at (CountKey b) (- n) (rd_db s)) as [d'|] eqn:E; cbn [default] in Hc'.
  - destruct (rd_DecrBy s _ _ _ _ Hup (c_count _ _ _ _ _ Hc b) E) as (_ & Hup' & <-). by eapply counter_keeps.
  - destruct (re_DecrBy s _ _ _ Hup (c_count _ _ _ _ _ Hc b) E) as (e & _ & Hup' & Hd).
    eapply (counter_keeps s); [done..|]. by rewrite Hd.
Qed.

Lemma delPeer_keeps s b ih p :
  conc_inv s → peer_ok p →
  ∃ s' e, RedisStore.delPeer (InfoHashKey ih b (Peer_Is6 p)) (CountKey b) (PackPeer p) s = (s', e) ∧
    conc_inv s' ∧ db_view (rd_db s') ≡ view_remove (role_of b) ih p (db_view (rd_db s)) ∧
    (if decide (p ∈ db_view (rd_db s) (role_of b) ih) then e = None ↔ room (rd_db s) b (-1)
     else e = Some ErrResourceDoesNotExist).
Proof.
  intros Hs Hp. unfold RedisStore.delPeer.
  destruct (hdel_keeps s ih b p Hs Hp) as (s1 & -> & Hs1 & Hv & Hroom). cbn [no_result].
  case_decide as Hd; cbn [Z.eqb]; [|by do 2 eexists].
  destruct (decr_keeps s1 b Hs1) as (s2 & r & -> & Hr & Hs2 & Hv2). exists s2, (err_of r).
  split; [done|]. split; [done|]. split; [by rewrite Hv2|]. by rewrite Hr, Hroom.
Qed.

Lemma graduate_keeps s now ih p :
  conc_inv s → peer_ok p → int64 now → P Seeder ih p now →
  ∃ s' e, RedisStore.GraduateLeecher now ih p s = (s', e) ∧ conc_inv s' ∧
    db_view (rd_db s') ≡ view_add Seeder ih p (view_remove Leecher ih p (db_view (rd_db s))) ∧
    (e = None ↔ room (rd_db s) true 1 ∧ download_room (rd_db s) ih).
Proof.
  intros [Hup (H0 & m & C & D & Hc & Hk)] Hp Hnow HP. unfold RedisStore.GraduateLeecher. simpl.
  set (k := InfoHashKey ih true (Peer_Is6 p)).
  destruct (cells_hdel _ _ _ _ _ ih false (Peer_Is6 p) (PackPeer p) Hc) as (d0 & E0 & Hc0).
  assert (kept (set_cell ih false (Peer_Is6 p) (delete (PackPeer p) (H0 ih false (Peer_Is6 p))) H0) m D) as Hk0
    by (eapply kept_subset; [done|apply delete_subseteq|done]).
  destruct (cells_hset _ _ _ _ _ ih true (Peer_Is6 p) (PackPeer p) (Itoa now) Hc0) as (d1 & E1 & Hc1).
  destruct (cells_incr_or _ _ _ _ _ true 1 Hc1) as [[C2 Hc2] Hroom].
  destruct (cells_sadd _ _ _ _ _ k Hc2) as (d3 & E3 & Hc3).
  apply (kept_insert _ _ _ ih true p now) in Hk0 as Hk1; [|done..].
  destruct (kept_download _ _ _ _ _ ih Hc3 Hk1) as [(D4 & Hc4 & Hk4) Hdown].
  destruct (tx_any s [TxHDel (InfoHashKey ih false (Peer_Is6 p)) (PackPeer p); TxHSet k (PackPeer p) (Itoa now);
    TxIncr CountSeederKey; TxSAdd IHKey k; TxHIncrBy CountDownloadsKey ih 1] Hup) as (s' & e & Htx & Hup' & Hdb & He).
  fold k in E1. rewrite (exec_each_ok _ _ _ _ E0), (exec_each_ok _ _ _ _ E1), exec_each_cons in Hdb, He. cbn [fst snd] in Hdb, He.
  change (exec_or (TxIncr CountSeederKey) d1) with (default d1 (incr_at (CountKey true) 1 d1)) in Hdb, He.
  rewrite (exec_each_ok _ _ _ _ E3), exec_each_cons in Hdb, He. cbn [exec_each fst snd] in Hdb, He.
  exists s', e. split; [done|]. rewrite <-Hdb in Hc4. split; [|split].
  - split; [done|]. by do 4 eexists.
  - rewrite (cells_view _ _ _ _ _ Hc), (cells_view _ _ _ _ _ Hc4). change Seeder with (role_of true). change Leecher with (role_of false).
    etrans; [apply insert_hview; [by eapply kept_packed|done]|].
    apply view_update_proper, delete_hview; [by eapply kept_packed|done].
  - rewrite He, !list.Forall_cons, !bool_decide_spec.
    change (RedisSpec.exec (TxIncr CountSeederKey) d1) with (incr_at (CountKey true) 1 d1).
    rewrite Hroom, Hdown. unfold room, download_room, hash_of.
    rewrite (c_count _ _ _ _ _ Hc1), (c_count _ _ _ _ _ Hc), (c_downloads _ _ _ _ _ Hc3), (c_downloads _ _ _ _ _ Hc).
    cbn. rewrite list.Forall_nil. tauto.
Qed.

(** ** Interleaved

    A write acts at one moment; a collection's [HDEL] takes away what it listed. *)

Inductive effect :=
  | Did (o : wop)
  | Expired (r : role) (ih : InfoHash) (ps : gset Peer).

Definition apply_effect (v : view) (e : effect) : view :=
  match e with
  | Did o => view_wop o v
  | Expired r ih ps => view_update r ih (λ s, s ∖ ps) v
  end.

#[export] Instance apply_effect_proper : Proper ((≡) ==> (=) ==> (≡)) apply_effect.
Proof. intros v w Hv e e' <-. destruct e; [by apply view_wop_proper|by apply view_update_proper]. Qed.

Local Abbreviation does := (does conc_inv (λ s, db_view (rd_db s)) apply_effect).

(** *** Writes *)

Definition write_puts (o : wop) (r : role) (ih : InfoHash) (p : Peer) : Prop :=
  match o with
  | WPutSeeder ih' p' | WGraduateLeecher ih' p' => (r, ih, p) = (Seeder, ih', p')
  | WPutLeecher ih' p' => (r, ih, p) = (Leecher, ih', p')
  | _ => False
  end.

Lemma does_delPeer b ih p o :
  peer_ok p → (∀ v, view_wop o v = view_remove (role_of b) ih p v) →
  does (λ _, True) (delPeer (InfoHashKey ih b (Peer_Is6 p)) (CountKey b) (PackPeer p)) (eq [Did o]).
Proof.
  intros Hp Ho. apply does_step. intros s Hs.
  destruct (hdel_keeps s ih b p Hs Hp) as (s' & E & Hs' & Hv & _).
  exists s'. eexists. exists (Some (Did o)). split; [exact E|]. split; [done|].
  split; [change (db_view (rd_db s') ≡ view_wop o (db_view (rd_db s))); by rewrite Ho|]. cbn [no_result].
  apply (does_weaken (λ _, True) _ _ (eq [])); [done|by intros ? <-|].
  case_decide; cbn [Z.eqb]; [|by apply does_ret].
  apply does_read. intros s1 Hs1. destruct (decr_keeps s1 b Hs1) as (s2 & r & E2 & _ & Hs2 & Hv2).
  exists s2, r. by split_and!; [..|apply does_ret].
Qed.

Lemma does_exec_write now o :
  peer_ok (wop_args o).2 → int64 now →
  (∀ r ih p, write_puts o r ih p → P r ih p now) →
  does (λ _, True) (exec_write now o) (eq [Did o]).
Proof.
  intros Hp Hnow HP. destruct o as [ih p|ih p|ih p|ih p|ih p]; cbn [exec_write wop_args snd] in *.
  2: by apply (does_delPeer true).
  3: by apply (does_delPeer false).
  all: apply does_once; intros s Hs.
  - destruct (putPeer_keeps s now true ih p Hs Hp Hnow) as (s' & e & ? & ? & ? & _); [by apply HP|by exists s', e].
  - destruct (putPeer_keeps s now false ih p Hs Hp Hnow) as (s' & e & ? & ? & ? & _); [by apply HP|by exists s', e].
  - destruct (graduate_keeps s now ih p Hs Hp Hnow) as (s' & e & ? & ? & ? & _); [by apply HP|by exists s', e].
Qed.

(** *** Reads *)

Lemma same_db s s' : conc_inv s → rd_up s' → rd_db s' = rd_db s → conc_inv s' ∧ db_view (rd_db s') ≡ db_view (rd_db s).
Proof. intros [_ Hs] Hup E. unfold conc_inv. by rewrite E. Qed.

(** What an announce may be answered with. *)
Definition shown (ih : InfoHash) (forSeeder v6 : bool) (p : Peer) : Prop :=
  peer_ok p ∧ Peer_Is6 p = v6 ∧ ∃ r t, P r ih p t ∧ (forSeeder = true → r = Leecher).

Lemma hrandfield_reads ih b v n (forSeeder : bool) :
  0 < n → (forSeeder = true → b = false) →
  only_reads conc_inv (λ s, db_view (rd_db s)) (HRandField (InfoHashKey ih b v) n) (draws (shown ih forSeeder v) n).
Proof.
  intros Hn Hb s Hs. pose proof Hs as [Hup (H0 & m & C & D & Hc & Hk)].
  destruct (rd_HRandField s _ n _ Hup (c_hash _ _ _ _ _ Hc ih b v) Hn) as (fs & (Hr & Hup' & Hd) & _ & Hin & Hlen).
  destruct (HRandField _ n s) as [s' r]. cbn [fst snd] in *. subst r. exists s', (Ok fs). split; [done|].
  destruct (same_db s s' Hs Hup' Hd) as [Hs' Hv]. split; [done|]. split; [done|]. exists fs. split; [done|]. split.
  - apply list.Forall_forall. intros p (f & Hf & Hu)%list_elem_of_omap. destruct (Hin f Hf) as [x Hx].
    destruct (k_fields _ _ _ Hk _ _ _ _ _ Hx) as (q & t & -> & Hq & H6 & _ & _ & HP).
    rewrite unpack_PackPeer in Hu by done. injection Hu as <-. split; [done|]. split; [done|].
    exists (role_of b), t. split; [done|]. intros ->%Hb. done.
  - rewrite (length_unpack v (H0 ih b v)) by first [done|by eapply kept_packed]. lia.
Qed.

Lemma redis_announce ih forSeeder n v :
  0 < n →
  does (λ '(ps, e), benign e ∧ Forall (shown ih forSeeder v) ps ∧ Z.of_nat (length ps) ≤ n)
    (AnnouncePeers ih forSeeder n v) (eq []).
Proof. intros Hn. apply does_GetPeers; [apply _|done|]. intros b c Hb Hc. by apply hrandfield_reads. Qed.

Lemma hlen_reads s ih b v : conc_inv s →
  ∃ s' n, HLen (InfoHashKey ih b v) s = (s', Ok n) ∧ rd_up s' ∧ rd_db s' = rd_db s.
Proof.
  intros [Hup (H0 & m & C & D & Hc & Hk)].
  destruct (rd_HLen s _ _ Hup (c_hash _ _ _ _ _ Hc ih b v)) as (Hr & Hup' & Hd).
  destruct (HLen _ s) as [s' r]. cbn [fst snd] in *. subst r. by do 2 eexists.
Qed.

(** What the downloads are read as. *)
Lemma downloads_read (D : gmap bytes bytes) ih :
  (∀ ih x, D !! ih = Some x → ∃ c, x = Itoa c ∧ int64 c) →
  ∃ a, no_result 0 (b ← match D !! ih with Some v => Ok v | None => Err RedisNil end; ParseInt b 64) = Ok a.
Proof.
  intros HD. destruct (D !! ih) as [x|] eqn:E; [|by exists 0].
  destruct (HD _ _ E) as (c & -> & Hc64). exists c. cbn [mbind result_bind].
  rewrite ParseInt_Itoa by (unfold int64 in Hc64; lia). done.
Qed.

Lemma redis_scrape ih : does (λ r, r.2 = None) (ScrapeSwarm ih) (eq []).
Proof.
  apply does_ScrapeIH.
  - intros b v s Hs. destruct (hlen_reads s ih b v Hs) as (s' & n & E & Hup & Hd).
    destruct (same_db s s' Hs Hup Hd). exists s', (Ok n). split_and!; [done..|by eexists].
  - intros s Hs. pose proof Hs as [Hup (H0 & m & C & D & Hc & Hk)].
    destruct (rd_HGet s CountDownloadsKey ih D Hup (c_downloads _ _ _ _ _ Hc)) as (Hr & Hup' & Hd).
    destruct (HGet _ _ s) as [s' r]. cbn [fst snd] in *. destruct (same_db s s' Hs Hup' Hd). subst r.
    do 2 eexists. split_and!; [done..|]. by apply downloads_read, Hk.
Qed.

(** *** Collections *)

Definition removable (r : role) (ih : InfoHash) (cutoff : Z) (p : Peer) : Prop := ∃ t, P r ih p t ∧ t ≤ cutoff.

Definition expired (cutoff : Z) (e : effect) : Prop :=
  match e with
  | Did _ => False
  | Expired r ih ps => set_Forall (removable r ih cutoff) ps
  end.

(** The fields the collector listed as stale. *)
Definition listed (ih : InfoHash) (b v : bool) (cutoff : Z) (f : bytes) : Prop :=
  ∃ p, f = PackPeer p ∧ peer_ok p ∧ Peer_Is6 p = v ∧ removable (role_of b) ih cutoff p.

Lemma stale_listed {σ : Shuffle} H m D ih b v cutoff :
  kept H m D → Forall (listed ih b v cutoff) (peersToRemove cutoff (H ih b v)).
Proof.
  intros Hk. apply list.Forall_forall. intros f ([f' x] & -> & Hx)%list_elem_of_fmap.
  apply list_elem_of_In, filter_In in Hx as [Hx Hst]. apply list_elem_of_In, elem_of_range in Hx.
  destruct (k_fields _ _ _ Hk _ _ _ _ _ Hx) as (p & t & -> & Hp & H6 & -> & Ht & HP). exists p.
  split_and!; [done..|]. exists t. split; [done|]. unfold stale in Hst. cbn [snd] in Hst.
  rewrite ParseInt_Itoa in Hst by (unfold int64 in Ht; lia). by apply Z.leb_le.
Qed.

Lemma hdel_stale s ih b v cutoff fs :
  conc_inv s → fs ≠ [] → Forall (listed ih b v cutoff) fs →
  ∃ s' n, HDel (InfoHashKey ih b v) fs s = (s', Ok n) ∧ conc_inv s' ∧
    db_view (rd_db s') ≡ apply_effect (db_view (rd_db s)) (Expired (role_of b) ih (list_to_set (omap unpack fs))).
Proof.
  intros [Hup (H0 & m & C & D & Hc & Hk)] Hne Hfs.
  destruct (rd_HDel s (InfoHashKey ih b v) fs _ Hup Hne (c_hash _ _ _ _ _ Hc ih b v)) as (Hr & Hup' & Hd).
  destruct (HDel _ fs s) as [s' r]. cbn [fst snd] in *. subst r. exists s'. eexists. split; [done|].
  pose proof (cells_put_hash _ _ _ _ _ ih b v (remove_fields fs (H0 ih b v)) Hc) as Hc'. rewrite <-Hd in Hc'.
  split.
  - split; [done|]. do 4 eexists. split; [exact Hc'|]. eapply kept_subset; [done|apply remove_fields_subseteq|done].
  - cbn [apply_effect]. rewrite (cells_view _ _ _ _ _ Hc').
    rewrite remove_hview by (first [by eapply kept_packed|eapply list.Forall_impl; [exact Hfs|]; intros f (p & ? & ? & ? & _); by exists p]).
    apply view_update_proper. symmetry. by eapply cells_view.
Qed.

Lemma listed_expired ih b v cutoff fs :
  Forall (listed ih b v cutoff) fs → expired cutoff (Expired (role_of b) ih (list_to_set (omap unpack fs))).
Proof.
  intros Hfs p (f & Hf & Hu)%elem_of_list_to_set%list_elem_of_omap.
  destruct (proj1 (list.Forall_forall _ _) Hfs f Hf) as (q & -> & Hq & _ & Hr).
  rewrite unpack_PackPeer in Hu by done. by injection Hu as <-.
Qed.

Abbreviation collects cutoff := (Forall (expired cutoff)).

(** A part of a collection and what comes after it. *)
Lemma does_collect {A B} Q R (m : prog S A) (g : A → prog S B) cutoff :
  does Q m (collects cutoff) → (∀ a, Q a → does R (g a) (collects cutoff)) → does R (m ≫= g) (collects cutoff).
Proof. apply does_bind. intros es1 es2. by apply Forall_app_2. Qed.

Lemma does_end {A} cutoff (a : A) : does (λ _, True) (mret a) (collects cutoff).
Proof. by intros w. Qed.

Lemma does_remove_peers ih b v cutoff fs :
  Forall (listed ih b v cutoff) fs →
  does (λ _, True) (remove_peers (InfoHashKey ih b v) (CountKey b) fs) (collects cutoff).
Proof.
  intros Hfs. unfold remove_peers. destruct fs as [|f fs]; [apply does_end|]. set (l := f :: fs) in *.
  apply does_step. intros s Hs. destruct (hdel_stale s ih b v cutoff l Hs ltac:(done) Hfs) as (s' & n & E & Hs' & Hv).
  exists s', (Ok n), (Some (Expired (role_of b) ih (list_to_set (omap unpack l)))).
  split; [exact E|]. split; [done|]. split; [done|]. cbn [no_result].
  apply (does_weaken (λ _, True) _ _ (collects cutoff)); [done| |].
  { intros es Hes. apply list.Forall_cons. split; [by eapply listed_expired|done]. }
  change (does (λ _, True) (if n >? 0 then _ ← cmd (DecrBy (CountKey b) n); mret tt else mret tt) (collects cutoff)).
  destruct (n >? 0); [|apply does_end]. apply does_read. intros s1 Hs1.
  destruct (decrby_keeps s1 b n Hs1) as [Hs2 Hv2]. destruct (DecrBy _ n s1) as [s2 r]. exists s2, r.
  by split_and!; [..|apply does_end].
Qed.

Lemma does_clean ih b v cutoff : does (λ _, True) (clean (InfoHashKey ih b v)) (collects cutoff).
Proof.
  apply does_read. intros s Hs. destruct (hlen_reads s ih b v Hs) as (s' & n & E & Hup & Hd).
  destruct (same_db s s' Hs Hup Hd) as [Hs' Hv]. exists s', (Ok n). split_and!; [done..|].
  cbn [no_result mbind result_bind]. destruct (n =? 0); [|apply does_end].
  apply does_read. intros s1 [Hup1 (H0 & m & C & D & Hc & Hk)].
  destruct (rd_SRem s1 IHKey (InfoHashKey ih b v) m Hup1 (c_set _ _ _ _ _ Hc)) as (_ & Hup2 & Hd2).
  destruct (SRem _ _ s1) as [s2 r]. cbn [fst snd] in *. exists s2, r. split; [done|].
  pose proof (cells_put_set _ _ _ _ _ (m ∖ {[InfoHashKey ih b v]}) Hc) as Hc2. rewrite <-Hd2 in Hc2.
  split; [split; [done|]|split].
  - do 4 eexists. split; [exact Hc2|]. destruct Hk as [Hf Hks Hdl]. split; [done| |done].
    intros k [Hkm _]%elem_of_difference. by apply Hks.
  - by rewrite (cells_view _ _ _ _ _ Hc), (cells_view _ _ _ _ _ Hc2).
  - apply does_end.
Qed.

Lemma does_gc_key {σ : Shuffle} cutoff ih b v : does (λ _, True) (gc_key cutoff (InfoHashKey ih b v)) (collects cutoff).
Proof.
  unfold gc_key. rewrite count_key_swarm. apply does_read. intros s Hs. pose proof Hs as [Hup (H0 & m & C & D & Hc & Hk)].
  destruct (rd_HGetAll s _ _ Hup (c_hash _ _ _ _ _ Hc ih b v)) as (Hr & Hup' & Hd).
  destruct (HGetAll _ s) as [s' r]. cbn [fst snd] in *. subst r. destruct (same_db s s' Hs Hup' Hd) as [Hs' Hv].
  exists s', (Ok (H0 ih b v)). split_and!; [done..|]. cbn [no_result].
  eapply does_collect; [eapply does_remove_peers, stale_listed; exact Hk|]. intros _ _.
  eapply does_collect; [apply does_clean|]. intros _ _. apply does_end.
Qed.

Lemma does_gc {σ : Shuffle} cutoff : does (λ _, True) (gc cutoff) (collects cutoff).
Proof.
  apply does_read. intros s Hs. pose proof Hs as [Hup (H0 & m & C & D & Hc & Hk)].
  destruct (rd_SMembers s IHKey m Hup (c_set _ _ _ _ _ Hc)) as (l & (Hr & Hup' & Hd) & Hl).
  destruct (SMembers _ s) as [s' r]. cbn [fst snd] in *. subst r. destruct (same_db s s' Hs Hup' Hd) as [Hs' Hv].
  exists s', (Ok l). split_and!; [done..|]. cbn [no_result].
  assert (∀ k, k ∈ l → ∃ ih b v, k = InfoHashKey ih b v) as Hkeys.
  { intros k. rewrite Hl, elem_of_elements. apply (k_keys _ _ _ Hk). }
  clear -Hkeys HErr. induction l as [|k l IH]; [apply does_end|]. cbn [for_each].
  destruct (Hkeys k ltac:(by left)) as (ih & b & v & ->).
  eapply does_collect; [apply does_gc_key|]. intros _ _. apply IH. intros k Hk. apply Hkeys. by right.
Qed.

(** *** Calls and sessions *)

Definition call_ok (c : call) : Prop :=
  match c with
  | Write now o => peer_ok (wop_args o).2 ∧ int64 now
  | Announce _ _ numWant _ => 0 < numWant
  | _ => True
  end.

(** The calls that put a peer, with the time they put. *)
Definition puts (c : call) (r : role) (ih : InfoHash) (p : Peer) (t : Z) : Prop :=
  match c with Write now o => t = now ∧ write_puts o r ih p | _ => False end.

Definition call_effects (c : call) : list effect → Prop :=
  match c with
  | Write _ o => eq [Did o]
  | Collect _ cutoff => collects cutoff
  | _ => eq []
  end.

Fixpoint session_effects (cs : list call) : list effect → Prop :=
  match cs with
  | [] => eq []
  | c :: cs => λ es, ∃ es1 es2, es = es1 ++ es2 ∧ call_effects c es1 ∧ session_effects cs es2
  end.

Definition answer_ok (ca : call * answer) : Prop :=
  match ca with
  | (Write _ _, Wrote _) | (Collect _ _, Collected) => True
  | (Announce ih forSeeder numWant v6, Announced (ps, e)) =>
      benign e ∧ Forall (shown ih forSeeder v6) ps ∧ Z.of_nat (length ps) ≤ numWant
  | (Scrape _, Scraped r) => r.2 = None
  | _ => False
  end.

Lemma redis_exec c :
  call_ok c → (∀ r ih p t, puts c r ih p t → P r ih p t) →
  does (λ a, answer_ok (c, a)) (exec c) (call_effects c).
Proof.
  intros Hc HP. destruct c as [now o|ih fs n v|ih|σ cutoff]; cbn [exec call_effects].
  - destruct Hc as [Hp Hnow]. eapply does_then; [apply does_exec_write; [done..|]|].
    + intros r ih p Ho. by apply HP.
    + intros e _. by apply does_ret.
  - eapply does_then; [by apply redis_announce|]. intros [ps e] H. by apply does_ret.
  - eapply does_then; [apply redis_scrape|]. intros r H. by apply does_ret.
  - eapply does_then; [apply does_gc|]. intros ? _. by apply does_ret.
Qed.

Lemma does_session cs :
  Forall call_ok cs → (∀ c r ih p t, c ∈ cs → puts c r ih p t → P r ih p t) →
  does (Forall answer_ok) (session cs) (session_effects cs).
Proof.
  intros Hcs HP. induction cs as [|c cs IH]; [by apply does_ret, list.Forall_nil|].
  apply list.Forall_cons in Hcs as [Hc Hcs]. cbn [session session_effects].
  eapply (does_bind _ _ _ _ (call_effects c) (session_effects cs)); [by intros es1 es2; exists es1, es2| |].
  - apply redis_exec; [done|]. intros r ih p t. apply HP. by left.
  - intros a Ha. eapply does_then; [apply IH; [done|]|].
    + intros c' r ih p t Hc'. apply HP. by right.
    + intros l Hl. apply does_ret. by apply list.Forall_cons.
Qed.
End Healthy.

(** A server that is up, with whatever the store can have left on it. *)
Definition server_ok {S} {HRedis : Redis S} {HSpec : RedisSpec S} (s : S) : Prop := conc_inv (λ _ _ _ _, True) s.

(** A peer of a swarm with its time. *)
Definition stored_at (d : db) (r : role) (ih : InfoHash) (p : Peer) (t : Z) : Prop :=
  peer_ok p ∧ int64 t ∧ hash_of d (InfoHashKey ih (is_seeder r) (Peer_Is6 p)) !! PackPeer p = Some (Itoa t).

Definition announced (d : db) (css : list (list call)) (r : role) (ih : InfoHash) (p : Peer) (t : Z) : Prop :=
  stored_at d r ih p t ∨ ∃ cs c, cs ∈ css ∧ c ∈ cs ∧ puts c r ih p t.

Section Facts.
Context {S : Type} {HRedis : Redis S} {HSpec : RedisSpec S}.

Lemma conc_inv_mono (P P' : role → InfoHash → Peer → Z → Prop) s :
  (∀ r ih p t, P r ih p t → P' r ih p t) → conc_inv P s → conc_inv P' s.
Proof.
  intros HP [Hup (H & m & C & D & Hc & [Hf Hk Hd])]. split; [done|]. exists H, m, C, D. split; [done|]. split; [|done..].
  intros ih b v f x Hx. destruct (Hf _ _ _ _ _ Hx) as (p & t & ? & ? & ? & ? & ? & ?). exists p, t. by split_and!; try apply HP.
Qed.

Lemma conc_inv_stored s : server_ok s → conc_inv (stored_at (rd_db s)) s.
Proof.
  intros [Hup (H & m & C & D & Hc & [Hf Hk Hd])]. split; [done|]. exists H, m, C, D. split; [done|]. split; [|done..].
  intros ih b v f x Hx. destruct (Hf _ _ _ _ _ Hx) as (p & t & -> & Hp & H6 & -> & Ht & _). exists p, t.
  split_and!; [done..|]. split; [done|]. split; [done|].
  by rewrite (proj2 (is_seeder_role (role_of b) b) eq_refl), H6, (cells_hash_of _ _ _ _ _ _ _ _ Hc).
Qed.

Lemma stored_conc_inv P s r ih p t : conc_inv P s → stored_at (rd_db s) r ih p t → P r ih p t.
Proof.
  intros [Hup (H & m & C & D & Hc & [Hf Hk Hd])] (Hp & Ht & Hs). rewrite (cells_hash_of _ _ _ _ _ _ _ _ Hc) in Hs.
  destruct (Hf _ _ _ _ _ Hs) as (q & t' & E & Hq & _ & Et & Ht' & HP). apply PackPeer_inj in E as <-; [|done..].
  apply (f_equal (λ b, ParseInt b 64)) in Et. unfold int64 in Ht, Ht'. rewrite !ParseInt_Itoa in Et by lia.
  injection Et as <-. by destruct r.
Qed.

(** What calls one after the other leave is such a server. *)
Lemma srv_inv_ok n s : srv_inv n s → server_ok s.
Proof.
  intros [Hup (H & m & C & D & Hc & Hg)]. split; [done|]. exists H, m, C, D. split; [done|]. split.
  - intros ih b v f x Hx. destruct (g_fields _ _ _ _ _ Hg _ _ _ _ _ Hx) as (p & t & ? & ? & ? & ? & ?). by exists p, t.
  - apply Hg.
  - intros ih x Hx. destruct (g_downloads _ _ _ _ _ Hg _ _ Hx) as (c & -> & ? & ?). exists c. split; [done|]. unfold int64. lia.
Qed.
End Facts.

(** ** Properties *)

(** A call of the Redis store that runs undisturbed, command by command, is
    the method of the sequential model, collections included: the same commands
    to the same server, whatever it answers (where watching a key does not fail). *)
Theorem redis_calls_alone {S : Type} {HRedis : Redis S} (c : call) (s : S) :
  (∀ k (f : S → S * error) s, Watch k f s = f s) →
  run (exec c) s = Some (exec_at_once c s).
Proof.
  intros HW.
  assert (∀ A B (m : prog S A) (g : A → B) f, alone m f →
    alone (a ← m; mret (g a)) (λ s, let '(s, a) := f s in (s, g a))) as Ha.
  { intros A B m g f Hm. by apply (alone_bind _ _ _ (λ a s, (s, g a))). }
  destruct c as [now o|ih fs n v6|ih|σ cutoff]; cbn [exec exec_at_once].
  - exact (Ha _ _ _ Wrote _ (alone_write now o) s).
  - exact (Ha _ _ _ Announced _ (alone_GetPeers ih fs n v6 HRandField) s).
  - exact (Ha _ _ _ Scraped _ (alone_ScrapeIH ih HLen) s).
  - exact (Ha _ _ _ (λ _, Collected) _ (alone_gc HW cutoff) s).
Qed.

(** When a write reports success: the seeder or leecher counter can move, the
    downloads too, and what is deleted is there. *)
Definition write_succeeds (o : wop) (d : db) : Prop :=
  match o with
  | WPutSeeder _ _ => room d true 1
  | WPutLeecher _ _ => room d false 1
  | WDeleteSeeder ih p => p ∈ db_view d Seeder ih ∧ room d true (-1)
  | WDeleteLeecher ih p => p ∈ db_view d Leecher ih ∧ room d false (-1)
  | WGraduateLeecher ih _ => room d true 1 ∧ download_room d ih
  end.

(** C13: whatever the counters hold, a write has its whole effect on the swarms,
    and it reports an error exactly when a counter of its is full or the peer to
    delete was not there: the error of a transaction one command of which failed,
    which the client returns in place of the commands, does not mean that nothing
    was written. *)
Theorem redis_write_errors {S : Type} {HRedis : Redis S} {HSpec : RedisSpec S} {HErr : RedisErrors S}
    (now : Z) (o : wop) (s : S) :
  server_ok s → peer_ok (wop_args o).2 → int64 now →
  ∃ s' e, write_at_once now o s = (s', e) ∧ server_ok s' ∧
    (db_view (rd_db s') ≡ view_wop o (db_view (rd_db s))) ∧ (e = None ↔ write_succeeds o (rd_db s)).
Proof.
  intros Hs Hp Hnow. destruct o as [ih p|ih p|ih p|ih p|ih p]; cbn [write_at_once wop_args snd view_wop write_succeeds] in *.
  - by destruct (putPeer_keeps _ s now true ih p Hs Hp Hnow) as (s' & e & ? & ? & ? & ?); [|exists s', e].
  - destruct (delPeer_keeps _ s true ih p Hs Hp) as (s' & e & ? & ? & ? & He). exists s', e. split_and!; [done..|].
    cbn [role_of] in He. case_decide; [tauto|]. subst e. split; [done|tauto].
  - by destruct (putPeer_keeps _ s now false ih p Hs Hp Hnow) as (s' & e & ? & ? & ? & ?); [|exists s', e].
  - destruct (delPeer_keeps _ s false ih p Hs Hp) as (s' & e & ? & ? & ? & He). exists s', e. split_and!; [done..|].
    cbn [role_of] in He. case_decide; [tauto|]. subst e. split; [done|tauto].
  - by destruct (graduate_keeps _ s now ih p Hs Hp Hnow) as (s' & e & ? & ? & ? & ?); [|exists s', e].
Qed.

(** C12: whatever way the commands of the goroutines that use a Redis server
    interleave, each making its calls and collections one after the other: no
    peer is stored that was not there or announced at that time; every call is
    answered, announces with peers that were announced and no more than asked for;
    and once all are done the swarms are what some order of the writes, each at
    one moment, and of removals by the collections makes of them, where a
    collection removes only peers that were announced at or before its cutoff at
    some time.  Neither full counters nor swarms that a collection has untracked
    change this. *)
Theorem redis_calls_interleaved {S : Type} {HRedis : Redis S} {HSpec : RedisSpec S} {HErr : RedisErrors S}
    (css : list (list call)) (s s' : S) (ms' : list (prog S (list (call * answer)))) :
  server_ok s → Forall (Forall call_ok) css →
  rtc pool_step (session <$> css, s) (ms', s') →
  server_ok s' ∧ (Panic ∉ ms') ∧
  (∀ r ih p t, stored_at (rd_db s') r ih p t → announced (rd_db s) css r ih p t) ∧
  (∀ l, Ret l ∈ ms' → Forall (answer_ok (announced (rd_db s) css)) l) ∧
  (Forall (λ m, is_Some (result_of m)) ms' →
   ∃ ess es, Forall2 (session_effects (announced (rd_db s) css)) css ess ∧ interleaving ess es ∧
     (db_view (rd_db s') ≡ foldl apply_effect (db_view (rd_db s)) es)).
Proof.
  intros Hs Hcs Hsteps. set (P := announced (rd_db s) css).
  assert (conc_inv P s) as H0 by (eapply conc_inv_mono; [|by apply conc_inv_stored]; intros; by left).
  destruct (pool_does (inv := conc_inv P) (view_of := λ s, db_view (rd_db s)) (apply := apply_effect)
    (Forall (answer_ok P)) session (session_effects P) css ms' s s') as (H1 & H2 & H3 & H4); [|done..|].
  - intros cs Hin. apply does_session; [by eapply list.Forall_forall in Hcs|].
    intros c r ih p t Hc Hput. right. by exists cs, c.
  - split; [by eapply conc_inv_mono|]. split; [done|].
    split; [intros r ih p t; by apply (stored_conc_inv P s')|]. by split.
Qed.

(** ** Concrete runs *)

Lemma redis_calls_alone_witness :
  run (exec (H := reference_server) (Write 7 (WPutSeeder ih1 peer1))) (∅ : db) =
    Some (exec_at_once (H := reference_server) (Write 7 (WPutSeeder ih1 peer1)) ∅).
Proof. apply (@redis_calls_alone db reference_server). reflexivity. Defined.

(** A server whose seeder counter is full. *)
Definition full_db : db := {[ CountSeederKey := VInt (2 ^ 63 - 1) ]}.

Lemma full_db_ok : @server_ok db reference_server reference_spec full_db.
Proof.
  split; [exact I|]. exists (λ _ _ _, ∅), ∅, (λ b : bool, if b then 2 ^ 63 - 1 else 0), ∅. split; split; try done.
  - intros ih b v. unfold hash_at, full_db. cbn [rd_db reference_spec].
    by rewrite lookup_singleton_ne by (apply not_eq_sym, (swarm_key_count ih b v true)).
  - by intros [].
Qed.

Lemma redis_write_errors_witness :
  ∃ d e, write_at_once (H := reference_server) 7 (WPutSeeder ih1 peer1) full_db = (d, Some e) ∧ peer1 ∈ db_view d Seeder ih1.
Proof.
  destruct (@redis_write_errors db reference_server reference_spec reference_errors 7 (WPutSeeder ih1 peer1) full_db
    full_db_ok peer1_ok) as (d & [e|] & E & _ & Hv & He).
  - split; [discriminate|reflexivity].
  - exists d, e. split; [exact E|]. change (peer1 ∈ db_view (@rd_db _ _ reference_spec d) Seeder ih1). rewrite (Hv Seeder ih1). cbn [view_wop]. apply elem_of_view_add. by left.
  - exfalso. destruct (proj1 He eq_refl) as (c & Hc & _ & Hlt). vm_compute in Hc. injection Hc as <-.
    revert Hlt. apply Z.lt_irrefl.
Defined.

(** A leecher announces and the collector lists it; it announces again and the
    collector removes it. *)
Definition listed_calls : list (list call) :=
  [[Write 10 (WPutLeecher ih1 peer1); Write 20 (WPutLeecher ih1 peer1)]; [Collect shuffle_id 15]].
Definition listed_end : pool db (list (call * answer)) :=
  schedule [0; 1; 1; 0; 1; 1; 1; 1]%nat (session (H := reference_server) <$> listed_calls, ∅).

(** The announce at 20 is lost, although it is newer than the cutoff: the swarm
    is empty. *)
Lemma redis_calls_interleaved_witness :
  (∃ ess es, Forall2 (session_effects (announced ∅ listed_calls)) listed_calls ess ∧ interleaving ess es ∧
     (db_view listed_end.2 ≡ foldl apply_effect (db_view ∅) es)) ∧
  (omap result_of listed_end.1 =
     [[(Write 10 (WPutLeecher ih1 peer1), Wrote None); (Write 20 (WPutLeecher ih1 peer1), Wrote None)];
      [(Collect shuffle_id 15, Collected)]]) ∧
  db_view listed_end.2 Leecher ih1 = ∅.
Proof.
  assert (rtc pool_step (session (H := reference_server) <$> listed_calls, ∅) (listed_end.1, listed_end.2)) as Hr
    by (rewrite <-surjective_pairing; apply schedule_steps).
  assert (Forall (Forall call_ok) listed_calls) as Hc.
  { repeat (apply list.Forall_cons; split); try apply list.Forall_nil; try exact I;
      (split; [exact peer1_ok|split; [discriminate|reflexivity]]). }
  assert (@server_ok db reference_server reference_spec ∅) as H0
    by (apply (srv_inv_ok 0); split; [exact I|by apply empty_db_inv]).
  destruct (@redis_calls_interleaved db reference_server reference_spec reference_errors
    listed_calls ∅ listed_end.2 listed_end.1 H0 Hc Hr) as (_ & _ & _ & _ & Hdone).
  split; [|split].
  - apply Hdone. vm_compute. repeat constructor; by eexists.
  - vm_compute. reflexivity.
  - apply (bool_decide_eq_true_1 _). vm_cast_no_check (eq_refl true).
Defined.

End RedisConc.
