(* ===== verification/Keydb.v ===== *)
(** * Package [storage/keydb]

    The storage over a KeyDB server (src/storage/keydb/storage.go): the swarms
    are sets, whose members the server is asked to drop once their time is over
    ([EXPIREMEMBER]).  The commands are those of [Redis]; [KeyDBSpec] is what the
    documentation says of the ones the store uses, between two expiries.  On a
    server that answers the store implements the abstract swarms. *)

From S2P Require Import Prelude GoStd GoFloat Netip Bittorrent Storage Redis SwarmKeys RedisSpec.
Import RedisStore RedisFacts.

Local Open Scope Z_scope.

Module KeydbStore.

Definition errNotKeyDB : GoError := OtherError (bs "provided instance seems not KeyDB").

(** The seconds a peer is kept. *)
Definition peerTTL_of (cfg : Config) : Z :=
  let lifetime := if PeerLifetime cfg <=? 0 then DefaultPeerLifetime else PeerLifetime cfg in
  float_trunc (Seconds lifetime).

(** The checks of [newStore] after the connection: [info] is the reply to
    [COMMAND INFO EXPIREMEMBER], the number of commands described. *)
Definition newStore (cfg : Config) (connect : error) (info : result Z) : result Z :=
  cfg ← Validate cfg;
  match connect with
  | Some e => Err e
  | None =>
      n ← no_result 0 info;
      if n =? 0 then Err errNotKeyDB else Ok (peerTTL_of cfg)
  end.

Section Store.
Context {S : Type} `{Redis S} (peerTTL : Z).

Definition addPeer (infoHashKey peerID : bytes) (s : S) : S * error :=
  let '(s, r) := SAdd infoHashKey peerID s in
  match r with
  | Err e => (s, Some e)
  | Ok _ => let '(s, r) := ExpireMember infoHashKey peerID peerTTL s in (s, err_of r)
  end.

Definition delPeer (infoHashKey peerID : bytes) (s : S) : S * error :=
  let '(s, r) := SRem infoHashKey peerID s in
  (s, match no_result 0 r with
      | Err e => Some e
      | Ok deleted => if deleted =? 0 then Some ErrResourceDoesNotExist else None
      end).

Definition PutSeeder (ih : InfoHash) (peer : Peer) : S → S * error :=
  addPeer (InfoHashKey ih true (Peer_Is6 peer)) (PackPeer peer).

Definition DeleteSeeder (ih : InfoHash) (peer : Peer) : S → S * error :=
  delPeer (InfoHashKey ih true (Peer_Is6 peer)) (PackPeer peer).

Definition PutLeecher (ih : InfoHash) (peer : Peer) : S → S * error :=
  addPeer (InfoHashKey ih false (Peer_Is6 peer)) (PackPeer peer).

Definition DeleteLeecher (ih : InfoHash) (peer : Peer) : S → S * error :=
  delPeer (InfoHashKey ih false (Peer_Is6 peer)) (PackPeer peer).

(** The expiry and the count of downloads are only reached when adding the
    seeder failed, and their result replaces that error. *)
Definition GraduateLeecher (infoHash : InfoHash) (peer : Peer) (s : S) : S * error :=
  let peerID := PackPeer peer in
  let ihSeederKey := InfoHashKey infoHash true (Peer_Is6 peer) in
  let ihLeecherKey := InfoHashKey infoHash false (Peer_Is6 peer) in
  let '(s, moved) := SMove ihLeecherKey ihSeederKey peerID s in
  match moved with
  | Err e => (s, Some e)
  | Ok moved =>
      let '(s, err) := if (moved : bool) then (s, None)
                       else let '(s, r) := SAdd ihSeederKey peerID s in (s, err_of r) in
      match err with
      | None => (s, None)
      | Some _ =>
          let '(s, r) := ExpireMember ihSeederKey peerID peerTTL s in
          match r with
          | Err e => (s, Some e)
          | Ok _ => let '(s, r) := HIncrBy CountDownloadsKey infoHash 1 s in (s, err_of r)
          end
      end
  end.

Definition AnnouncePeers (ih : InfoHash) (forSeeder : bool) (numWant : Z) (v6 : bool)
    : S → S * (list Peer * error) :=
  GetPeers ih forSeeder numWant v6 SRandMemberN.

Definition ScrapeSwarm (ih : InfoHash) : S → S * (Z * Z * Z * error) := ScrapeIH ih SCard.

(** The store as a [PeerStorage]; no call panics. *)
Definition lifted {A} (f : S → S * A) : M S A := λ s, Some (f s).

Definition keydb_PeerStorage : PeerStorage S := {|
  Storage.PutSeeder ih p := lifted (PutSeeder ih p);
  Storage.DeleteSeeder ih p := lifted (DeleteSeeder ih p);
  Storage.PutLeecher ih p := lifted (PutLeecher ih p);
  Storage.DeleteLeecher ih p := lifted (DeleteLeecher ih p);
  Storage.GraduateLeecher ih p := lifted (GraduateLeecher ih p);
  Storage.AnnouncePeers ih forSeeder numWant v6 := lifted (AnnouncePeers ih forSeeder numWant v6);
  Storage.ScrapeSwarm ih := lifted (ScrapeSwarm ih);
  Storage.Ping := lifted Ping;
|}.

End Store.

End KeydbStore.

(** ** The laws

    [kd_ttl]: the seconds last asked for a member with [EXPIREMEMBER]. *)
Class KeyDBSpec (S : Type) `{Redis S} := {
  kd_up : S → Prop;
  kd_db : S → db;
  kd_ttl : S → bytes → bytes → option Z;
  kd_SAdd s k x m : kd_up s → set_at (kd_db s) k = Some m →
    replies kd_up kd_db (SAdd k x s) (Ok (if decide (x ∈ m) then 0 else 1)) (put_set k ({[x]} ∪ m) (kd_db s)) ∧
    kd_ttl (SAdd k x s).1 k x = kd_ttl s k x;
  kd_ExpireMember s k x n m : kd_up s → set_at (kd_db s) k = Some m → x ∈ m →
    replies kd_up kd_db (ExpireMember k x n s) (Ok ()) (kd_db s) ∧
    kd_ttl (ExpireMember k x n s).1 k x = Some n;
  kd_SRem s k x m : kd_up s → set_at (kd_db s) k = Some m →
    replies kd_up kd_db (SRem k x s) (Ok (if decide (x ∈ m) then 1 else 0)) (put_set k (m ∖ {[x]}) (kd_db s));
  kd_SMove_member s k k' x m m' : kd_up s → k ≠ k' →
    set_at (kd_db s) k = Some m → set_at (kd_db s) k' = Some m' → x ∈ m →
    replies kd_up kd_db (SMove k k' x s) (Ok true)
      (put_set k' ({[x]} ∪ m') (put_set k (m ∖ {[x]}) (kd_db s)));
  kd_SMove_absent s k k' x m m' : kd_up s → k ≠ k' →
    set_at (kd_db s) k = Some m → set_at (kd_db s) k' = Some m' → x ∉ m →
    replies kd_up kd_db (SMove k k' x s) (Ok false) (kd_db s) ∧
    kd_ttl (SMove k k' x s).1 k' x = kd_ttl s k' x;
  kd_SRandMemberN s k n m : kd_up s → set_at (kd_db s) k = Some m → 0 < n →
    ∃ l, replies kd_up kd_db (SRandMemberN k n s) (Ok l) (kd_db s) ∧
      NoDup l ∧ (∀ x, x ∈ l → x ∈ m) ∧ Z.of_nat (length l) = Z.min n (Z.of_nat (size m));
  kd_SCard s k m : kd_up s → set_at (kd_db s) k = Some m →
    replies kd_up kd_db (SCard k s) (Ok (Z.of_nat (size m))) (kd_db s);
  kd_HGet s k f h : kd_up s → hash_at (kd_db s) k = Some h →
    replies kd_up kd_db (HGet k f s)
      (match h !! f with Some v => Ok v | None => Err RedisNil end) (kd_db s);
}.

(** ** A server that keeps them

    A database and the times asked for members; commands the store does not use
    answer with an error. *)
Abbreviation kdb := (db * gmap (bytes * bytes) Z)%type.

Definition kd_answer {A} (o : option (kdb * A)) (s : kdb) : kdb * result A :=
  match o with Some (s', a) => (s', Ok a) | None => (s, Err WRONGTYPE) end.

Definition keydb_server : Redis kdb := {|
  HSet k fvs s := (s, Err WRONGTYPE);
  HDel k fs s := (s, Err WRONGTYPE);
  HGet k f s := match hash_at s.1 k with
                | Some h => (s, match h !! f with Some v => Ok v | None => Err RedisNil end)
                | None => (s, Err WRONGTYPE)
                end;
  HGetAll k s := (s, Err WRONGTYPE);
  HLen k s := (s, Err WRONGTYPE);
  HExists k f s := (s, Err WRONGTYPE);
  HRandField k n s := (s, Err WRONGTYPE);
  HIncrBy k f i s := kd_answer (h ← hash_at s.1 k; n ← field_int h f;
    Some ((put_hash k (<[f := Itoa (n + i)]> h) s.1, s.2), n + i)) s;
  Decr k s := (s, Err WRONGTYPE);
  DecrBy k i s := (s, Err WRONGTYPE);
  Get k s := (s, Err WRONGTYPE);
  SAdd k x s := kd_answer (m ← set_at s.1 k;
    Some ((put_set k ({[x]} ∪ m) s.1, s.2), if decide (x ∈ m) then 0 else 1)) s;
  SRem k x s := kd_answer (m ← set_at s.1 k;
    Some ((put_set k (m ∖ {[x]}) s.1, delete (k, x) s.2), if decide (x ∈ m) then 1 else 0)) s;
  SMembers k s := kd_answer (m ← set_at s.1 k; Some (s, elements m)) s;
  SCard k s := kd_answer (m ← set_at s.1 k; Some (s, Z.of_nat (size m))) s;
  SRandMemberN k n s := kd_answer (m ← set_at s.1 k; Some (s, take (Z.to_nat n) (elements m))) s;
  SMove k k' x s := kd_answer (m ← set_at s.1 k; m' ← set_at s.1 k';
    Some (if decide (x ∈ m) then ((put_set k' ({[x]} ∪ m') (put_set k (m ∖ {[x]}) s.1), delete (k, x) s.2), true)
          else (s, false))) s;
  ExpireMember k x n s := kd_answer (m ← set_at s.1 k;
    if decide (x ∈ m) then Some ((s.1, <[(k, x) := n]> s.2), ()) else None) s;
  RedisPing s := (s, Ok ());
  TxPipelined cs s := (s, Err WRONGTYPE);
  Watch k f s := f s;
|}.

#[refine] Instance keydb_spec : @KeyDBSpec kdb keydb_server :=
  @Build_KeyDBSpec kdb keydb_server (λ _, True) fst (λ s k x, s.2 !! (k, x)) _ _ _ _ _ _ _ _.
Proof.
  all: unfold replies.
  - intros s k x m _ Hm. cbn [SAdd keydb_server]. by rewrite Hm.
  - intros s k x n m _ Hm Hx. cbn [ExpireMember keydb_server]. rewrite Hm. cbn [mbind option_bind].
    rewrite decide_True by done. cbn [kd_answer fst snd]. by rewrite lookup_insert_eq.
  - intros s k x m _ Hm. cbn [SRem keydb_server]. by rewrite Hm.
  - intros s k k' x m m' _ _ Hm Hm' Hx. cbn [SMove keydb_server]. rewrite Hm, Hm'. cbn [mbind option_bind].
    by rewrite decide_True.
  - intros s k k' x m m' _ _ Hm Hm' Hx. cbn [SMove keydb_server]. rewrite Hm, Hm'. cbn [mbind option_bind].
    by rewrite decide_False.
  - intros s k n m _ Hm Hn. cbn [SRandMemberN keydb_server]. rewrite Hm. cbn [mbind option_bind kd_answer fst snd].
    eexists. split; [done|]. split_and!.
    + apply NoDup_take, NoDup_elements.
    + intros x (i & Hi & _)%elem_of_take. by apply elem_of_elements, list_elem_of_lookup_2 with i.
    + rewrite length_take. unfold size, set_size. simpl. lia.
  - intros s k m _ Hm. cbn [SCard keydb_server]. by rewrite Hm.
  - intros s k f h _ Hh. cbn [HGet keydb_server]. by rewrite Hh.
Defined.

Module KeydbFacts.
Import KeydbStore.

(** ** The sets of a database *)

(** A set of packed peers as a hash of them, for the lemmas of [SwarmKeys]. *)
Definition as_hash (m : gset bytes) : gmap bytes bytes := gset_to_gmap [] m.

Definition kd_view (d : db) : view :=
  hview (λ ih b v, as_hash (default ∅ (set_at d (InfoHashKey ih b v)))).

Record sets (d : db) (H : hashes) (D : gmap bytes bytes) : Prop := {
  s_set ih b v : set_at d (InfoHashKey ih b v) = Some (dom (H ih b v));
  s_downloads : hash_at d CountDownloadsKey = Some D;
}.

Lemma peers_in_dom (h h' : gmap bytes bytes) : dom h = dom h' → peers_in h = peers_in h'.
Proof.
  intros E. apply set_eq. intros p. unfold peers_in. rewrite !elem_of_list_to_set, !list_elem_of_omap.
  by setoid_rewrite elem_of_fields; setoid_rewrite <-elem_of_dom; rewrite E.
Qed.

Lemma sets_view d H D : sets d H D → kd_view d ≡ hview H.
Proof.
  intros Hd r ih. unfold kd_view, hview. rewrite !(s_set _ _ _ Hd). cbn [default].
  by rewrite !(peers_in_dom (as_hash _) (H _ _ _)) by apply dom_gset_to_gmap.
Qed.

Lemma sets_put d H D ih b v h :
  sets d H D → sets (put_set (InfoHashKey ih b v) (dom h) d) (set_cell ih b v h H) D.
Proof.
  intros [Hs Hd]. split.
  - intros ih' b' v'. unfold set_cell. case_decide as Hk; [injection Hk as -> -> ->; apply put_set_at|].
    rewrite <-Hs. apply set_at_same, put_set_other. intros (-> & -> & ->)%InfoHashKey_inj. done.
  - rewrite <-Hd. apply hash_at_same, put_set_other, swarm_key_downloads.
Qed.

Definition downloads_ok (D : gmap bytes bytes) : Prop := ∀ ih x, D !! ih = Some x → ∃ c, x = Itoa c ∧ int64 c.

Section Healthy.
Context {S : Type} {HRedis : Redis S} {HSpec : KeyDBSpec S} (peerTTL : Z).

(** The server is up and its sets hold packed peers. *)
Definition kd_inv (s : S) : Prop :=
  kd_up s ∧ ∃ H D, sets (kd_db s) H D ∧ all_packed H ∧ downloads_ok D.

Lemma kd_addPeer_run s b ih p :
  kd_inv s → peer_ok p →
  ∃ s', addPeer peerTTL (InfoHashKey ih b (Peer_Is6 p)) (PackPeer p) s = (s', None) ∧ kd_inv s' ∧
    kd_view (kd_db s') ≡ view_add (role_of b) ih p (kd_view (kd_db s)) ∧
    kd_ttl s' (InfoHashKey ih b (Peer_Is6 p)) (PackPeer p) = Some peerTTL.
Proof.
  intros [Hup (H & D & Hs & Hp & HD)] Hok. unfold addPeer.
  destruct (kd_SAdd s _ (PackPeer p) _ Hup (s_set _ _ _ Hs ih b (Peer_Is6 p))) as [(Hr & Hup1 & Hd1) _].
  destruct (SAdd _ _ s) as [s1 r]. cbn [fst snd] in *. subst r.
  set (h := <[PackPeer p := []]> (H ih b (Peer_Is6 p))).
  assert (sets (kd_db s1) (set_cell ih b (Peer_Is6 p) h H) D) as Hs1.
  { rewrite Hd1, <-(dom_insert_L (H ih b (Peer_Is6 p)) (PackPeer p) []). by apply sets_put. }
  destruct (kd_ExpireMember s1 (InfoHashKey ih b (Peer_Is6 p)) (PackPeer p) peerTTL (dom h) Hup1)
    as [(Hr & Hup2 & Hd2) Ht].
  { rewrite (s_set _ _ _ Hs1). unfold set_cell. by rewrite decide_True. }
  { apply elem_of_dom. unfold h. by rewrite lookup_insert_eq. }
  destruct (ExpireMember _ _ _ s1) as [s2 r]. cbn [fst snd] in *. subst r.
  rewrite <-Hd2 in Hs1. exists s2. split; [done|]. split; [|split; [|done]].
  - split; [done|]. eexists _, D. split; [exact Hs1|]. split; [by apply all_packed_insert|done].
  - rewrite (sets_view _ _ _ Hs1), (sets_view _ _ _ Hs). by apply insert_hview.
Qed.

Lemma kd_delPeer_run s b ih p :
  kd_inv s → peer_ok p →
  ∃ s' e, delPeer (InfoHashKey ih b (Peer_Is6 p)) (PackPeer p) s = (s', e) ∧
    e = (if decide (p ∈ kd_view (kd_db s) (role_of b) ih) then None else Some ErrResourceDoesNotExist) ∧
    kd_inv s' ∧ kd_view (kd_db s') ≡ view_remove (role_of b) ih p (kd_view (kd_db s)).
Proof.
  intros [Hup (H & D & Hs & Hp & HD)] Hok. unfold delPeer.
  destruct (kd_SRem s _ (PackPeer p) _ Hup (s_set _ _ _ Hs ih b (Peer_Is6 p))) as (Hr & Hup1 & Hd1).
  destruct (SRem _ _ s) as [s1 r]. cbn [fst snd] in *. subst r.
  assert (sets (kd_db s1) (set_cell ih b (Peer_Is6 p) (delete (PackPeer p) (H ih b (Peer_Is6 p))) H) D) as Hs1.
  { rewrite Hd1, <-dom_delete_L. by apply sets_put. }
  do 2 eexists. split; [reflexivity|]. split; [|split].
  - assert (p ∈ kd_view (kd_db s) (role_of b) ih ↔ PackPeer p ∈ dom (H ih b (Peer_Is6 p))) as Hin.
    { rewrite (sets_view _ _ _ Hs (role_of b) ih), elem_of_hview, elem_of_dom by done.
      rewrite (proj2 (is_seeder_role (role_of b) b) eq_refl). tauto. }
    destruct (decide (PackPeer p ∈ dom _)) as [Hx|Hx];
      [by rewrite decide_True by (by apply Hin)|by rewrite decide_False by (by rewrite Hin)].
  - split; [done|]. eexists _, D. split; [exact Hs1|]. split; [by apply all_packed_delete|done].
  - rewrite (sets_view _ _ _ Hs1), (sets_view _ _ _ Hs). by apply delete_hview.
Qed.

Lemma seeder_leecher_keys ih v : InfoHashKey ih false v ≠ InfoHashKey ih true v.
Proof. by intros (_ & ? & _)%InfoHashKey_inj. Qed.

(** A completed peer that was a leecher is moved; another one is only added. *)
Lemma graduate_run s ih p :
  kd_inv s → peer_ok p →
  ∃ s', GraduateLeecher peerTTL ih p s = (s', None) ∧ kd_inv s' ∧
    kd_view (kd_db s') ≡ view_add Seeder ih p (view_remove Leecher ih p (kd_view (kd_db s))) ∧
    hash_at (kd_db s') CountDownloadsKey = hash_at (kd_db s) CountDownloadsKey ∧
    (p ∉ kd_view (kd_db s) Leecher ih →
     kd_ttl s' (InfoHashKey ih true (Peer_Is6 p)) (PackPeer p) =
     kd_ttl s (InfoHashKey ih true (Peer_Is6 p)) (PackPeer p)).
Proof.
  intros [Hup (H & D & Hs & Hp & HD)] Hok. unfold GraduateLeecher.
  set (v := Peer_Is6 p). set (x := PackPeer p).
  set (H1 := set_cell ih false v (delete x (H ih false v)) H).
  set (H2 := set_cell ih true v (<[x := []]> (H1 ih true v)) H1).
  assert (H1 ih true v = H ih true v) as E1 by (unfold H1, set_cell; by rewrite decide_False).
  assert (all_packed H1) as Hp1 by by apply all_packed_delete.
  assert (all_packed H2) as Hp2 by by apply all_packed_insert.
  assert (hview H2 ≡ view_add Seeder ih p (view_remove Leecher ih p (hview H))) as Hv2.
  { change Seeder with (role_of true). change Leecher with (role_of false).
    etrans; [by apply insert_hview|]. apply view_update_proper. by apply delete_hview. }
  assert (sets (put_set (InfoHashKey ih true v) ({[x]} ∪ dom (H ih true v))
                 (put_set (InfoHashKey ih false v) (dom (H ih false v) ∖ {[x]}) (kd_db s))) H2 D) as Hs2.
  { rewrite <-E1, <-(dom_insert_L (H1 ih true v) x []), <-(dom_delete_L (H ih false v)).
    apply sets_put, sets_put, Hs. }
  destruct (decide (x ∈ dom (H ih false v))) as [Hx|Hx].
  - pose proof (kd_SMove_member s _ _ x _ _ Hup (seeder_leecher_keys ih v)
      (s_set _ _ _ Hs ih false v) (s_set _ _ _ Hs ih true v) Hx) as (Hr & Hup1 & Hd1).
    destruct (SMove _ _ _ s) as [s1 r]. cbn [fst snd] in *. subst r. rewrite <-Hd1 in Hs2.
    exists s1. split; [done|]. split; [split; [done|by eexists _, _]|]. split; [|split].
    + by rewrite (sets_view _ _ _ Hs2), (sets_view _ _ _ Hs).
    + by rewrite (s_downloads _ _ _ Hs2), (s_downloads _ _ _ Hs).
    + intros []. rewrite (sets_view _ _ _ Hs Leecher ih). apply elem_of_hview; [done|].
      split; [done|]. by apply elem_of_dom.
  - destruct (kd_SMove_absent s _ _ x _ _ Hup (seeder_leecher_keys ih v)
      (s_set _ _ _ Hs ih false v) (s_set _ _ _ Hs ih true v) Hx) as [(Hr & Hup1 & Hd1) Ht1].
    destruct (SMove _ _ _ s) as [s1 r]. cbn [fst snd] in *. subst r. cbv iota.
    pose proof (s_set _ _ _ Hs ih true v) as Hm. rewrite <-Hd1 in Hm.
    destruct (kd_SAdd s1 _ x _ Hup1 Hm) as [(Hr & Hup2 & Hd2) Ht2].
    destruct (SAdd _ _ s1) as [s2 r]. cbn [fst snd] in *. subst r. cbn [err_of].
    assert (sets (kd_db s2) (set_cell ih true v (<[x := []]> (H ih true v)) H) D) as Hs3.
    { rewrite Hd2, Hd1, <-(dom_insert_L (H ih true v) x []). by apply sets_put. }
    exists s2. split; [done|]. split; [|split; [|split]].
    + split; [done|]. eexists _, D. split; [exact Hs3|]. split; [by apply all_packed_insert|done].
    + rewrite (sets_view _ _ _ Hs3), (sets_view _ _ _ Hs).
      change Seeder with (role_of true). etrans; [by apply insert_hview|]. apply view_update_proper.
      intros r' ih'. apply set_eq. intros q. rewrite elem_of_view_remove.
      split; [|tauto]. intros Hq. split; [|done]. intros (-> & -> & ->).
      apply elem_of_hview in Hq as [_ Hq]; [|done]. by apply Hx, elem_of_dom.
    + by rewrite (s_downloads _ _ _ Hs3), (s_downloads _ _ _ Hs).
    + intros _. by rewrite Ht2.
Qed.

(** The store keeps the promises of [StorageSpec]; [P] are the states in which
    the sets are as they were. *)
Definition same_sets (H : hashes) (D : gmap bytes bytes) (s : S) : Prop := kd_up s ∧ sets (kd_db s) H D.

Lemma same_sets_inv H D s : all_packed H → downloads_ok D → same_sets H D s → kd_inv s.
Proof. intros ? ? [? ?]. split; [done|]. by exists H, D. Qed.

Lemma keydb_announce_run s ih forSeeder numWant v H D :
  same_sets H D s → all_packed H → 0 < numWant →
  ∃ s' ps e, AnnouncePeers ih forSeeder numWant v s = (s', (ps, e)) ∧ benign e ∧
    (e = None ↔ ps ≠ []) ∧ same_sets H D s' ∧
    Forall (λ p, p ∈ ⋃ candidates (hview H) ih forSeeder v) ps ∧
    Z.of_nat (length ps) = Z.min numWant (Z.of_nat (available (hview H) ih forSeeder v)) ∧
    (Z.of_nat (available (hview H) ih forSeeder v) ≤ numWant →
     ∀ p, p ∈ ⋃ candidates (hview H) ih forSeeder v → p ∈ ps).
Proof.
  intros Hs Hp Hn. apply (GetPeers_run (same_sets H D)); [done| |done..]. clear s Hs.
  intros s ih' b v' c [Hup Hs] Hc.
  destruct (kd_SRandMemberN s _ c _ Hup (s_set _ _ _ Hs ih' b v') Hc) as (l & (Hr & Hup1 & Hd) & Hnd & Hin & Hl).
  destruct (SRandMemberN _ c s) as [s1 r]. cbn [fst snd] in *. subst r.
  exists s1, l. rewrite size_dom in Hl. split; [done|]. split; [split; [done|by rewrite Hd]|].
  split; [done|]. split; [|done]. intros f Hf. by apply elem_of_dom, Hin.
Qed.

Lemma keydb_scrape_run s ih H D :
  same_sets H D s → all_packed H → downloads_ok D →
  ∃ s' dl, ScrapeSwarm ih s =
      (s', (wrap 32 (Z.of_nat (size (hview H Leecher ih))), wrap 32 (Z.of_nat (size (hview H Seeder ih))), dl, None)) ∧
    same_sets H D s'.
Proof.
  intros Hs Hp HD. apply (ScrapeIH_run (same_sets H D)) with D; [done| | |done..]; clear s Hs.
  - intros s ih' b v [Hup Hs]. destruct (kd_SCard s _ _ Hup (s_set _ _ _ Hs ih' b v)) as (Hr & Hup1 & Hd).
    destruct (SCard _ s) as [s1 r]. cbn [fst snd] in *. subst r.
    exists s1. rewrite size_dom. split; [done|]. split; [done|by rewrite Hd].
  - intros s ih' [Hup Hs]. destruct (kd_HGet s _ ih' _ Hup (s_downloads _ _ _ Hs)) as (Hr & Hup1 & Hd).
    destruct (HGet _ _ s) as [s1 r]. cbn [fst snd] in *. subst r.
    exists s1. split; [done|]. split; [done|by rewrite Hd].
Qed.

#[refine] Instance keydb_StorageSpec : @StorageSpec S (keydb_PeerStorage peerTTL) :=
  @Build_StorageSpec S (keydb_PeerStorage peerTTL) (λ _, kd_inv) (λ s, kd_view (kd_db s)) peer_ok _ _ _ _ _ _ _ _.
Proof.
  - done.
  - intros n s ih p Hi _ Hp. simpl. unfold lifted, PutSeeder.
    destruct (kd_addPeer_run s true ih p Hi Hp) as (s' & -> & ? & ? & _). by eexists.
  - intros n s ih p Hi _ Hp. simpl. unfold lifted, DeleteSeeder.
    destruct (kd_delPeer_run s true ih p Hi Hp) as (s' & e & -> & He & ? & ?).
    do 2 eexists. split; [done|]. split; [rewrite He; case_decide; by (left + right)|done].
  - intros n s ih p Hi _ Hp. simpl. unfold lifted, PutLeecher.
    destruct (kd_addPeer_run s false ih p Hi Hp) as (s' & -> & ? & ? & _). by eexists.
  - intros n s ih p Hi _ Hp. simpl. unfold lifted, DeleteLeecher.
    destruct (kd_delPeer_run s false ih p Hi Hp) as (s' & e & -> & He & ? & ?).
    do 2 eexists. split; [done|]. split; [rewrite He; case_decide; by (left + right)|done].
  - intros n s ih p Hi _ Hp. simpl. unfold lifted.
    destruct (graduate_run s ih p Hi Hp) as (s' & -> & ? & ? & _). by eexists.
  - intros n s ih fs k v [Hup (H & D & Hs & Hp & HD)] _ Hn. simpl. unfold lifted.
    rewrite !(available_proper _ _ _ _ _ (sets_view _ _ _ Hs)), !(candidates_proper _ _ _ _ _ (sets_view _ _ _ Hs)).
    destruct (keydb_announce_run s ih fs k v H D) as (s' & ps & e & -> & ? & _ & Hs' & ? & ? & ?); [done..|].
    do 3 eexists. split; [done|]. split; [done|]. split; [by eapply same_sets_inv|]. split; [|done].
    by rewrite (sets_view _ _ _ (proj2 Hs')), (sets_view _ _ _ Hs).
  - intros n s ih [Hup (H & D & Hs & Hp & HD)] _. simpl. unfold lifted.
    destruct (keydb_scrape_run s ih H D) as (s' & dl & -> & Hs'); [done..|].
    rewrite !(sets_view _ _ _ Hs). do 2 eexists. split; [done|]. split; [by eapply same_sets_inv|].
    by rewrite (sets_view _ _ _ (proj2 Hs')), (sets_view _ _ _ Hs).
Defined.

(** ** Properties *)

(** On a server that is up, and between two expiries, the store over KeyDB
    refines the abstract swarms: any sequence of puts, deletes and graduations
    runs without an error of the server and leaves exactly the swarms the
    specification computes. *)
Theorem keydb_refinement (s : S) (os : list wop) :
  kd_inv s → Forall (λ o, InfoHash_wf (wop_args o).1 ∧ peer_ok (wop_args o).2) os →
  ∃ s', @run_wops S (keydb_PeerStorage peerTTL) os s = Some s' ∧ kd_inv s' ∧
        kd_view (kd_db s') ≡ foldl (flip view_wop) (kd_view (kd_db s)) os.
Proof. intros Hi Hos. exact (@run_wops_spec S _ keydb_StorageSpec os s Hi Hos). Qed.

(** While a seeder that is put is asked to expire after the lifetime of
    peers, a peer that completes without having been a leecher is added without
    any expiry, and its download is never counted: both are only reached when
    adding the seeder failed. *)
Theorem keydb_graduated_never_expires (s : S) (ih : InfoHash) (p : Peer) :
  kd_inv s → peer_ok p → p ∉ kd_view (kd_db s) Leecher ih →
  kd_ttl s (InfoHashKey ih true (Peer_Is6 p)) (PackPeer p) = None →
  (∃ s', PutSeeder peerTTL ih p s = (s', None) ∧
    kd_ttl s' (InfoHashKey ih true (Peer_Is6 p)) (PackPeer p) = Some peerTTL) ∧
  ∃ s', GraduateLeecher peerTTL ih p s = (s', None) ∧
    p ∈ kd_view (kd_db s') Seeder ih ∧
    kd_ttl s' (InfoHashKey ih true (Peer_Is6 p)) (PackPeer p) = None ∧
    hash_at (kd_db s') CountDownloadsKey = hash_at (kd_db s) CountDownloadsKey.
Proof.
  intros Hi Hp Hl Ht. split.
  - destruct (kd_addPeer_run s true ih p Hi Hp) as (s' & E & _ & _ & Ht'). by exists s'.
  - destruct (graduate_run s ih p Hi Hp) as (s' & E & _ & Hv & Hd & Ht'). exists s'.
    split; [done|]. split; [|by rewrite Ht'].
    rewrite (Hv Seeder ih). apply elem_of_view_add. by left.
Qed.

End Healthy.

Lemma empty_kd_inv : @kd_inv kdb keydb_server keydb_spec (∅, ∅).
Proof.
  split; [done|]. exists (λ _ _ _, ∅), ∅. split; [|done]. split; [|done].
  intros ih b v. by rewrite dom_empty_L.
Qed.

Lemma empty_kd_view r ih : kd_view ∅ r ih = ∅.
Proof. unfold kd_view, hview, set_at. by rewrite !lookup_empty. Qed.

Lemma keydb_refinement_witness :
  ∃ s', @run_wops kdb (@keydb_PeerStorage kdb keydb_server 1800)
          [WPutLeecher ih1 peer1; WGraduateLeecher ih1 peer1] (∅, ∅) = Some s' ∧
        peer1 ∈ kd_view s'.1 Seeder ih1.
Proof.
  destruct (@keydb_refinement kdb keydb_server keydb_spec 1800 (∅, ∅)
    [WPutLeecher ih1 peer1; WGraduateLeecher ih1 peer1]) as (s' & Hr & _ & Hv).
  - exact empty_kd_inv.
  - do 2 (apply list.Forall_cons; split; [split; [left; reflexivity|exact peer1_ok]|]). apply list.Forall_nil, I.
  - exists s'. split; [exact Hr|]. change (peer1 ∈ kd_view (@kd_db _ _ keydb_spec s') Seeder ih1).
    rewrite (Hv Seeder ih1). cbn [foldl flip view_wop]. apply elem_of_view_add. by left.
Defined.

Lemma keydb_graduated_never_expires_witness :
  ∃ s', @GraduateLeecher kdb keydb_server 1800 ih1 peer1 (∅, ∅) = (s', None) ∧
        peer1 ∈ kd_view s'.1 Seeder ih1 ∧ s'.2 !! (key1, PackPeer peer1) = None.
Proof.
  destruct (@keydb_graduated_never_expires kdb keydb_server keydb_spec 1800 (∅, ∅) ih1 peer1)
    as (_ & s' & E & Hv & Ht & _).
  - exact empty_kd_inv.
  - exact peer1_ok.
  - change (peer1 ∉ kd_view ∅ Leecher ih1). rewrite empty_kd_view. apply not_elem_of_empty.
  - reflexivity.
  - exists s'. split; [exact E|]. split; [exact Hv|exact Ht].
Defined.

End KeydbFacts.
