(* ===== verification/KeydbConc.v ===== *)
(** * Package [storage/keydb] under concurrency

    The trackers that share one KeyDB server (src/storage/keydb/storage.go), while
    it drops the members whose time is over: the methods command by command, as in
    [RedisConc], and the expiries of the server in between. *)

From S2P Require Import Prelude GoStd Netip Bittorrent Storage Threads Redis SwarmKeys RedisSpec RedisConc Keydb.
Import RedisStore RedisFacts RedisConc(cmd, GetPeers, ScrapeIH, alone, alone_cmd, alone_bind, alone_ret, alone_eq,
  alone_atomically, alone_GetPeers, alone_ScrapeIH, remove_hview, remove_fields_subseteq, only_reads, draws, does_GetPeers, does_ScrapeIH, downloads_read) KeydbFacts.

Local Open Scope Z_scope.

(** ** What a server does beside the commands of [KeyDBSpec]

    A member that is gone by the time its expiry is asked for: whatever the
    answer, the sets stay. *)
Class KeyDBExpiry (S : Type) `{KeyDBSpec S} := {
  ke_ExpireMember s k x n m : kd_up s → set_at (kd_db s) k = Some m →
    ∃ r, replies kd_up kd_db (ExpireMember k x n s) r (kd_db s);
}.

#[export] Instance keydb_expiry : @KeyDBExpiry kdb keydb_server keydb_spec.
Proof.
  split. intros s k x n m _ Hm. unfold replies. change (kd_db s) with s.1 in *. cbn [ExpireMember keydb_server].
  rewrite Hm. cbn [mbind option_bind]. case_decide; by eexists.
Qed.

Module KeydbConc.

(** ** The methods, command by command *)

Section Methods.
Context {S : Type} `{Redis S} (peerTTL : Z).

Definition addPeer (infoHashKey peerID : bytes) : prog S error :=
  r ← cmd (SAdd infoHashKey peerID);
  match r with
  | Err e => mret (Some e)
  | Ok _ => r ← cmd (ExpireMember infoHashKey peerID peerTTL); mret (err_of r)
  end.

(** One command. *)
Definition delPeer (infoHashKey peerID : bytes) : prog S error :=
  atomically (KeydbStore.delPeer infoHashKey peerID).

Definition PutSeeder (ih : InfoHash) (peer : Peer) : prog S error :=
  addPeer (InfoHashKey ih true (Peer_Is6 peer)) (PackPeer peer).

Definition DeleteSeeder (ih : InfoHash) (peer : Peer) : prog S error :=
  delPeer (InfoHashKey ih true (Peer_Is6 peer)) (PackPeer peer).

Definition PutLeecher (ih : InfoHash) (peer : Peer) : prog S error :=
  addPeer (InfoHashKey ih false (Peer_Is6 peer)) (PackPeer peer).

Definition DeleteLeecher (ih : InfoHash) (peer : Peer) : prog S error :=
  delPeer (InfoHashKey ih false (Peer_Is6 peer)) (PackPeer peer).

Definition GraduateLeecher (infoHash : InfoHash) (peer : Peer) : prog S error :=
  let peerID := PackPeer peer in
  let ihSeederKey := InfoHashKey infoHash true (Peer_Is6 peer) in
  let ihLeecherKey := InfoHashKey infoHash false (Peer_Is6 peer) in
  moved ← cmd (SMove ihLeecherKey ihSeederKey peerID);
  match moved with
  | Err e => mret (Some e)
  | Ok moved =>
      err ← (if (moved : bool) then mret None else r ← cmd (SAdd ihSeederKey peerID); mret (err_of r));
      match (err : error) with
      | None => mret None
      | Some _ =>
          r ← cmd (ExpireMember ihSeederKey peerID peerTTL);
          match r with
          | Err e => mret (Some e)
          | Ok _ => r ← cmd (HIncrBy CountDownloadsKey infoHash 1); mret (err_of r)
          end
      end
  end.

Definition AnnouncePeers (ih : InfoHash) (forSeeder : bool) (numWant : Z) (v6 : bool)
    : prog S (list Peer * error) :=
  GetPeers ih forSeeder numWant v6 SRandMemberN.

Definition ScrapeSwarm (ih : InfoHash) : prog S (Z * Z * Z * error) := ScrapeIH ih SCard.

(** *** Calls and sessions; [Expire] is what the server does by itself. *)

Inductive call :=
  | Write (o : wop)
  | Announce (ih : InfoHash) (forSeeder : bool) (numWant : Z) (v6 : bool)
  | Scrape (ih : InfoHash)
  | Expire (drop : S → S).

Inductive answer :=
  | Wrote (e : error)
  | Announced (r : list Peer * error)
  | Scraped (r : Z * Z * Z * error)
  | Dropped.

Definition exec_write (o : wop) : prog S error :=
  match o with
  | WPutSeeder ih p => PutSeeder ih p
  | WDeleteSeeder ih p => DeleteSeeder ih p
  | WPutLeecher ih p => PutLeecher ih p
  | WDeleteLeecher ih p => DeleteLeecher ih p
  | WGraduateLeecher ih p => GraduateLeecher ih p
  end.

Definition exec (c : call) : prog S answer :=
  match c with
  | Write o => e ← exec_write o; mret (Wrote e)
  | Announce ih forSeeder numWant v6 => r ← AnnouncePeers ih forSeeder numWant v6; mret (Announced r)
  | Scrape ih => r ← ScrapeSwarm ih; mret (Scraped r)
  | Expire drop => atomically (λ s, (drop s, Dropped))
  end.

Fixpoint session (cs : list call) : prog S (list (call * answer)) :=
  match cs with
  | [] => mret []
  | c :: cs => a ← exec c; l ← session cs; mret ((c, a) :: l)
  end.

(** The call at one moment. *)
Definition write_at_once (o : wop) : S → S * error :=
  match o with
  | WPutSeeder ih p => KeydbStore.PutSeeder peerTTL ih p
  | WDeleteSeeder ih p => KeydbStore.DeleteSeeder ih p
  | WPutLeecher ih p => KeydbStore.PutLeecher peerTTL ih p
  | WDeleteLeecher ih p => KeydbStore.DeleteLeecher ih p
  | WGraduateLeecher ih p => KeydbStore.GraduateLeecher peerTTL ih p
  end.

Definition exec_at_once (c : call) (s : S) : S * answer :=
  match c with
  | Write o => let '(s, e) := write_at_once o s in (s, Wrote e)
  | Announce ih forSeeder numWant v6 =>
      let '(s, r) := KeydbStore.AnnouncePeers ih forSeeder numWant v6 s in (s, Announced r)
  | Scrape ih => let '(s, r) := KeydbStore.ScrapeSwarm ih s in (s, Scraped r)
  | Expire drop => (drop s, Dropped)
  end.
End Methods.

(** ** Alone *)

Section Alone.
Context {S : Type} {HRedis : Redis S} (peerTTL : Z).

Lemma alone_last {A B} (c : Redis.call S A) (g : result A → B) : alone (r ← cmd c; mret (g r)) (λ s, let '(s, r) := c s in (s, g r)).
Proof. by apply (alone_cmd _ _ (λ r s, (s, g r))). Qed.

Lemma alone_addPeer k p : alone (addPeer peerTTL k p) (KeydbStore.addPeer peerTTL k p).
Proof.
  apply (alone_cmd _ _ (λ r s, match r with Err e => (s, Some e)
    | Ok _ => let '(s, r) := ExpireMember k p peerTTL s in (s, err_of r) end)).
  intros [n|e]; [apply alone_last|apply alone_ret].
Qed.

Lemma alone_GraduateLeecher ih p : alone (GraduateLeecher peerTTL ih p) (KeydbStore.GraduateLeecher peerTTL ih p).
Proof.
  set (sk := InfoHashKey ih true (Peer_Is6 p)). set (x := PackPeer p).
  set (expire s := let '(s, r) := ExpireMember sk x peerTTL s in
    match r with Err e => (s, Some e)
    | Ok _ => let '(s, r) := HIncrBy CountDownloadsKey ih 1 s in (s, err_of r) end).
  eapply alone_eq.
  - apply (alone_cmd _ _ (λ moved s, match moved with Err e => (s, Some e) | Ok moved =>
      let '(s, err) := if moved : bool then (s, None) else let '(s, r) := SAdd sk x s in (s, err_of r) in
      match err with None => (s, None) | Some _ => expire s end end)).
    intros [moved|e]; [|apply alone_ret].
    apply (alone_bind _ _ (λ s, if moved then (s, None) else let '(s, r) := SAdd sk x s in (s, err_of r))
      (λ err s, match err with None => (s, None) | Some _ => expire s end)).
    + destruct moved; [apply alone_ret|apply alone_last].
    + intros [e|]; [|apply alone_ret].
      apply (alone_cmd _ _ (λ r s, match r with Err e => (s, Some e)
        | Ok _ => let '(s, r) := HIncrBy CountDownloadsKey ih 1 s in (s, err_of r) end)).
      intros [?|?]; [apply alone_last|apply alone_ret].
  - done.
Qed.

Lemma alone_exec_write o : alone (exec_write peerTTL o) (write_at_once peerTTL o).
Proof. destruct o; cbn [exec_write write_at_once]; first [apply alone_addPeer|apply alone_atomically|apply alone_GraduateLeecher]. Qed.

(** A call that runs undisturbed is the method of the sequential model: the same
    commands to the same server. *)
Theorem keydb_calls_alone (c : call) (s : S) : run (exec peerTTL c) s = Some (exec_at_once peerTTL c s).
Proof.
  assert (∀ A B (m : prog S A) (g : A → B) f, alone m f →
    alone (a ← m; mret (g a)) (λ s, let '(s, a) := f s in (s, g a))) as Ha.
  { intros A B m g f Hm. by apply (alone_bind _ _ _ (λ a s, (s, g a))). }
  destruct c as [o|ih fs n v6|ih|drop]; cbn [exec exec_at_once].
  - exact (Ha _ _ _ Wrote _ (alone_exec_write o) s).
  - exact (Ha _ _ _ Announced _ (alone_GetPeers ih fs n v6 SRandMemberN) s).
  - exact (Ha _ _ _ Scraped _ (alone_ScrapeIH ih SCard) s).
  - done.
Qed.
End Alone.

(** ** What holds at every moment

    [P]: who may be in a swarm. *)

Section Healthy.
Context {S : Type} {HRedis : Redis S} {HSpec : KeyDBSpec S} {HExp : KeyDBExpiry S} (peerTTL : Z).
Context (P : role → InfoHash → Peer → Prop).

Definition members (H : hashes) : Prop := ∀ r ih p, p ∈ hview H r ih → P r ih p.

Definition conc_inv (s : S) : Prop :=
  kd_up s ∧ ∃ H D, sets (kd_db s) H D ∧ all_packed H ∧ downloads_ok D ∧ members H.

Lemma conc_kd_inv s : conc_inv s → kd_inv s.
Proof. intros [Hup (H & D & ? & ? & ? & _)]. split; [done|]. by exists H, D. Qed.

Lemma kd_conc_inv s : kd_inv s → (∀ r ih p, p ∈ kd_view (kd_db s) r ih → P r ih p) → conc_inv s.
Proof.
  intros [Hup (H & D & Hs & ? & ?)] HP. split; [done|]. exists H, D. split_and!; [done..|].
  intros r ih p Hp. apply HP. by rewrite (sets_view _ _ _ Hs r ih).
Qed.

Lemma conc_inv_view s r ih p : conc_inv s → p ∈ kd_view (kd_db s) r ih → P r ih p.
Proof. intros [_ (H & D & Hs & _ & _ & HP)] Hp. apply HP. by rewrite <-(sets_view _ _ _ Hs r ih). Qed.

Inductive effect :=
  | Did (o : wop)
  | Expired (r : role) (ih : InfoHash) (ps : gset Peer).

Definition apply_effect (v : view) (e : effect) : view :=
  match e with
  | Did o => view_wop o v
  | Expired r ih ps => view_update r ih (λ s, s ∖ ps) v
  end.

#[export] Instance apply_effect_proper : Proper ((≡) ==> (=) ==> (≡)) apply_effect.
Proof. intros v w Hv e e' <-. destruct e; [by apply view_wop_proper|by apply view_update_proper]. Qed.

Abbreviation now_view := (λ s, kd_view (kd_db s)).
Local Abbreviation does := (does conc_inv now_view apply_effect).

(** *** The single commands *)

Lemma sadd_keeps s ih b p :
  conc_inv s → peer_ok p → P (role_of b) ih p →
  ∃ s' n, SAdd (InfoHashKey ih b (Peer_Is6 p)) (PackPeer p) s = (s', Ok n) ∧ conc_inv s' ∧
    kd_view (kd_db s') ≡ view_add (role_of b) ih p (kd_view (kd_db s)).
Proof.
  intros Hs Hp HP. pose proof Hs as [Hup (H & D & Hc & Hpk & HD & HM)].
  destruct (kd_SAdd s _ (PackPeer p) _ Hup (s_set _ _ _ Hc ih b (Peer_Is6 p))) as [(Hr & Hup1 & Hd1) _].
  destruct (SAdd _ _ s) as [s1 r]. cbn [fst snd] in *. subst r.
  assert (sets (kd_db s1) (set_cell ih b (Peer_Is6 p) (<[PackPeer p := []]> (H ih b (Peer_Is6 p))) H) D) as Hs1.
  { rewrite Hd1, <-(dom_insert_L (H ih b (Peer_Is6 p)) (PackPeer p) []). by apply sets_put. }
  assert (kd_view (kd_db s1) ≡ view_add (role_of b) ih p (kd_view (kd_db s))) as Hv.
  { rewrite (sets_view _ _ _ Hs1), (sets_view _ _ _ Hc). by apply insert_hview. }
  do 2 eexists. split; [done|]. split; [|done]. apply kd_conc_inv.
  - split; [done|]. do 2 eexists. split; [exact Hs1|]. split; [by apply all_packed_insert|done].
  - intros r ih' q. rewrite (Hv r ih'), elem_of_view_add. intros [(-> & -> & ->)|Hq]; [done|by eapply conc_inv_view].
Qed.

Lemma keeps_db s s' : conc_inv s → kd_up s' → kd_db s' = kd_db s → conc_inv s' ∧ kd_view (kd_db s') ≡ kd_view (kd_db s).
Proof. intros [_ Hs] Hup E. unfold conc_inv. by rewrite E. Qed.

Lemma expire_member_keeps s ih b v x :
  conc_inv s → ∃ s' r, ExpireMember (InfoHashKey ih b v) x peerTTL s = (s', r) ∧ conc_inv s' ∧
    kd_view (kd_db s') ≡ kd_view (kd_db s).
Proof.
  intros Hs. pose proof Hs as [Hup (H & D & Hc & _)].
  destruct (ke_ExpireMember s _ x peerTTL _ Hup (s_set _ _ _ Hc ih b v)) as (r & Hr & Hup' & Hd).
  destruct (ExpireMember _ _ _ s) as [s' r']. cbn [fst snd] in *. subst r'. exists s', r. split; [done|].
  by apply (keeps_db s).
Qed.

Lemma srem_keeps s ih b p :
  conc_inv s → peer_ok p →
  ∃ s' e, KeydbStore.delPeer (InfoHashKey ih b (Peer_Is6 p)) (PackPeer p) s = (s', e) ∧ conc_inv s' ∧
    kd_view (kd_db s') ≡ view_remove (role_of b) ih p (kd_view (kd_db s)) ∧ benign e.
Proof.
  intros Hs Hp. destruct (kd_delPeer_run s b ih p (conc_kd_inv s Hs) Hp) as (s' & e & E & He & Hs' & Hv).
  exists s', e. split; [done|]. split; [|split; [done|rewrite He; case_decide; by (left + right)]].
  apply kd_conc_inv; [done|]. intros r ih' q. rewrite (Hv r ih'), elem_of_view_remove. intros [_ Hq].
  by eapply conc_inv_view.
Qed.

(** The move of a leecher, and of a peer that is not one. *)
Lemma smove_keeps s ih p :
  conc_inv s → peer_ok p → P Seeder ih p →
  ∃ s' moved, SMove (InfoHashKey ih false (Peer_Is6 p)) (InfoHashKey ih true (Peer_Is6 p)) (PackPeer p) s = (s', Ok moved) ∧
    conc_inv s' ∧ kd_view (kd_db s') ≡ view_wop (if moved : bool then WGraduateLeecher ih p else WDeleteLeecher ih p) (kd_view (kd_db s)).
Proof.
  intros Hs Hok HP. pose proof Hs as [Hup (H & D & Hc & Hpk & HD & HM)].
  set (v := Peer_Is6 p). set (x := PackPeer p).
  destruct (decide (x ∈ dom (H ih false v))) as [Hx|Hx].
  - destruct (graduate_run 0 s ih p (conc_kd_inv s Hs) Hok) as (s1 & E & Hs1 & Hv & _).
    pose proof (kd_SMove_member s _ _ x _ _ Hup (seeder_leecher_keys ih v)
      (s_set _ _ _ Hc ih false v) (s_set _ _ _ Hc ih true v) Hx) as (Hr & _).
    unfold KeydbStore.GraduateLeecher in E. fold x v in E. destruct (SMove _ _ _ s) as [s1' r].
    cbn [fst snd] in Hr. subst r. injection E as ->. exists s1, true. split; [done|]. split; [|done].
    apply kd_conc_inv; [done|]. intros r ih' q. rewrite (Hv r ih'), elem_of_view_add, elem_of_view_remove.
    intros [(-> & -> & ->)|[_ Hq]]; [done|by eapply conc_inv_view].
  - destruct (kd_SMove_absent s _ _ x _ _ Hup (seeder_leecher_keys ih v)
      (s_set _ _ _ Hc ih false v) (s_set _ _ _ Hc ih true v) Hx) as [(Hr & Hup1 & Hd) _].
    destruct (SMove _ _ _ s) as [s1 r]. cbn [fst snd] in *. subst r. exists s1, false. split; [done|].
    destruct (keeps_db s s1 Hs Hup1 Hd) as [Hs1 Hv]. split; [done|]. rewrite Hv. cbn [view_wop].
    intros r' ih'. apply set_eq. intros q. rewrite elem_of_view_remove. split; [|tauto].
    intros Hq. split; [|done]. intros (-> & -> & ->). rewrite (sets_view _ _ _ Hc Leecher ih) in Hq.
    apply elem_of_hview in Hq as [_ Hq]; [|done]. by apply Hx, elem_of_dom.
Qed.

(** *** Writes *)

Definition write_puts (o : wop) (r : role) (ih : InfoHash) (p : Peer) : Prop :=
  match o with
  | WPutSeeder ih' p' | WGraduateLeecher ih' p' => (r, ih, p) = (Seeder, ih', p')
  | WPutLeecher ih' p' => (r, ih, p) = (Leecher, ih', p')
  | _ => False
  end.

(** A completed peer that is not among the leechers is added later. *)
Definition write_effects (o : wop) (es : list effect) : Prop :=
  es = [Did o] ∨
  match o with WGraduateLeecher ih p => es = [Did (WDeleteLeecher ih p); Did (WPutSeeder ih p)] | _ => False end.

Lemma does_addPeer ih b p o :
  peer_ok p → P (role_of b) ih p → (∀ v, view_wop o v = view_add (role_of b) ih p v) →
  does (λ _, True) (addPeer peerTTL (InfoHashKey ih b (Peer_Is6 p)) (PackPeer p)) (eq [Did o]).
Proof.
  intros Hp HP Ho. apply does_step. intros s Hs.
  destruct (sadd_keeps s ih b p Hs Hp HP) as (s' & n & E & Hs' & Hv).
  exists s', (Ok n), (Some (Did o)). split; [done|]. split; [done|].
  split; [change (kd_view (kd_db s') ≡ view_wop o (kd_view (kd_db s))); by rewrite Ho|].
  apply (does_weaken (λ _, True) _ _ (eq [])); [done|by intros ? <-|]. apply does_read. intros s1 Hs1.
  destruct (expire_member_keeps s1 ih b (Peer_Is6 p) (PackPeer p) Hs1) as (s2 & r & E2 & Hs2 & Hv2).
  exists s2, r. by split_and!; [..|apply does_ret].
Qed.

Lemma does_GraduateLeecher ih p :
  peer_ok p → P Seeder ih p → does (λ e, e = None) (GraduateLeecher peerTTL ih p) (write_effects (WGraduateLeecher ih p)).
Proof.
  intros Hp HP. apply does_step. intros s Hs. destruct (smove_keeps s ih p Hs Hp HP) as (s' & moved & E & Hs' & Hv).
  exists s', (Ok moved), (Some (Did (if moved then WGraduateLeecher ih p else WDeleteLeecher ih p))).
  split; [done|]. split; [done|]. split; [done|]. destruct moved.
  - apply (does_weaken (λ e, e = None) _ _ (eq [])); [done|intros ? <-; by left|by apply does_ret].
  - eapply (does_weaken (λ e, e = None) _ _ (eq [Did (WPutSeeder ih p)])); [done|intros ? <-; by right|].
    apply does_step. intros s1 Hs1. destruct (sadd_keeps s1 ih true p Hs1 Hp HP) as (s2 & n & E2 & Hs2 & Hv2).
    exists s2, (Ok n), (Some (Did (WPutSeeder ih p))). split; [done|]. split; [done|]. split; [done|].
    apply (does_weaken (λ e, e = None) _ _ (eq [])); [done|by intros ? <-|by apply does_ret].
Qed.

Lemma does_DeletePeer ih b p o :
  peer_ok p → (∀ v, view_wop o v = view_remove (role_of b) ih p v) →
  does benign (delPeer (InfoHashKey ih b (Peer_Is6 p)) (PackPeer p)) (eq [Did o]).
Proof.
  intros Hp Ho. apply does_once. intros s Hs. destruct (srem_keeps s ih b p Hs Hp) as (s' & e & E & Hs' & Hv & He).
  exists s', e. split; [done|]. split; [done|]. split; [|done].
  change (kd_view (kd_db s') ≡ view_wop o (kd_view (kd_db s))). by rewrite Ho.
Qed.

(** Only the expiry that follows a put can be answered with an error. *)
Definition write_answer (o : wop) (e : error) : Prop :=
  match o with
  | WDeleteSeeder _ _ | WDeleteLeecher _ _ => benign e
  | WGraduateLeecher _ _ => e = None
  | _ => True
  end.

Lemma does_whole (Q : error → Prop) m o : does Q m (eq [Did o]) → does Q m (write_effects o).
Proof. apply does_weaken; [done|]. intros ? <-. by left. Qed.

Lemma keydb_exec_write o :
  peer_ok (wop_args o).2 → (∀ r ih p, write_puts o r ih p → P r ih p) →
  does (write_answer o) (exec_write peerTTL o) (write_effects o).
Proof.
  intros Hp HP. destruct o as [ih p|ih p|ih p|ih p|ih p]; cbn [exec_write wop_args snd write_answer] in *.
  5: by apply does_GraduateLeecher, HP.
  all: apply does_whole.
  - by apply (does_addPeer ih true); [|apply HP|].
  - by apply (does_DeletePeer ih true).
  - by apply (does_addPeer ih false); [|apply HP|].
  - by apply (does_DeletePeer ih false).
Qed.

(** *** Reads *)

(** What an announce may be answered with. *)
Definition shown (ih : InfoHash) (forSeeder v6 : bool) (p : Peer) : Prop :=
  peer_ok p ∧ Peer_Is6 p = v6 ∧ ∃ r, P r ih p ∧ (forSeeder = true → r = Leecher).

Lemma srandmember_reads ih b v n (forSeeder : bool) :
  0 < n → (forSeeder = true → b = false) →
  only_reads conc_inv now_view (SRandMemberN (InfoHashKey ih b v) n) (draws (shown ih forSeeder v) n).
Proof.
  intros Hn Hb s Hs. pose proof Hs as [Hup (H & D & Hc & Hpk & _ & HM)].
  destruct (kd_SRandMemberN s _ n _ Hup (s_set _ _ _ Hc ih b v) Hn) as (fs & (Hr & Hup' & Hd) & _ & Hin & Hlen).
  destruct (SRandMemberN _ n s) as [s' r]. cbn [fst snd] in *. subst r. exists s', (Ok fs). split; [done|].
  destruct (keeps_db s s' Hs Hup' Hd) as [Hs' Hv]. split; [done|]. split; [done|]. exists fs. split; [done|].
  assert (∀ f, f ∈ fs → is_Some (H ih b v !! f)) as Hfs by (intros f Hf; by apply elem_of_dom, Hin). split.
  - apply list.Forall_forall. intros p (f & Hf & Hu)%list_elem_of_omap.
    destruct (Hfs f Hf) as [x Hx]. destruct (Hpk _ _ _ _ _ Hx) as (q & -> & Hq & H6).
    rewrite unpack_PackPeer in Hu by done. injection Hu as <-. split; [done|]. split; [done|].
    exists (role_of b). split; [|by intros ->%Hb]. apply HM, elem_of_hview; [done|]. split; [done|].
    rewrite (proj2 (is_seeder_role (role_of b) b) eq_refl), H6. by eexists.
  - rewrite (length_unpack v (H ih b v)) by done. lia.
Qed.

Lemma keydb_announce ih forSeeder n v :
  0 < n →
  does (λ '(ps, e), benign e ∧ Forall (shown ih forSeeder v) ps ∧ Z.of_nat (length ps) ≤ n)
    (AnnouncePeers ih forSeeder n v) (eq []).
Proof. intros Hn. apply does_GetPeers; [apply _|done|]. intros b c Hb Hc. by apply srandmember_reads. Qed.

Lemma keydb_scrape ih : does (λ r, r.2 = None) (ScrapeSwarm ih) (eq []).
Proof.
  apply does_ScrapeIH.
  - intros b v s Hs. pose proof Hs as [Hup (H & D & Hc & _)].
    destruct (kd_SCard s _ _ Hup (s_set _ _ _ Hc ih b v)) as (Hr & Hup' & Hd).
    destruct (SCard _ s) as [s' r]. cbn [fst snd] in *. destruct (keeps_db s s' Hs Hup' Hd). subst r.
    do 2 eexists. split_and!; [done..|by eexists].
  - intros s Hs. pose proof Hs as [Hup (H & D & Hc & _ & HD & _)].
    destruct (kd_HGet s _ ih _ Hup (s_downloads _ _ _ Hc)) as (Hr & Hup' & Hd).
    destruct (HGet _ _ s) as [s' r]. cbn [fst snd] in *. destruct (keeps_db s s' Hs Hup' Hd). subst r.
    do 2 eexists. split_and!; [done..|]. by apply downloads_read.
Qed.

(** *** Expiries of the server *)

(** The server takes members out of one set. *)
Definition drops (drop : S → S) : Prop :=
  ∀ s, kd_up s → kd_up (drop s) ∧ ∃ ih b v xs, ∀ m, set_at (kd_db s) (InfoHashKey ih b v) = Some m →
    kd_db (drop s) = put_set (InfoHashKey ih b v) (m ∖ xs) (kd_db s).

Lemma dom_remove_fields (fs : list bytes) (h : gmap bytes bytes) : dom (remove_fields fs h) = dom h ∖ list_to_set fs.
Proof.
  apply set_eq. intros f. rewrite elem_of_dom, elem_of_difference, elem_of_dom, elem_of_list_to_set.
  unfold remove_fields. rewrite lookup_deletes. case_decide; [|tauto]. split; [by intros [? ?]|tauto].
Qed.

Lemma drop_keeps drop s :
  drops drop → conc_inv s →
  conc_inv (drop s) ∧ ∃ r ih ps, kd_view (kd_db (drop s)) ≡ apply_effect (kd_view (kd_db s)) (Expired r ih ps).
Proof.
  intros Hd Hs. pose proof Hs as [Hup (H & D & Hc & Hpk & HD & HM)].
  destruct (Hd s Hup) as (Hup' & ih & b & v & xs & Hdb). specialize (Hdb _ (s_set _ _ _ Hc ih b v)).
  set (fs := elements (dom (H ih b v) ∩ xs)).
  assert (dom (H ih b v) ∖ xs = dom (remove_fields fs (H ih b v))) as E.
  { rewrite dom_remove_fields. unfold fs. rewrite list_to_set_elements_L. set_solver. }
  rewrite E in Hdb.
  assert (sets (kd_db (drop s)) (set_cell ih b v (remove_fields fs (H ih b v)) H) D) as Hs'
    by (rewrite Hdb; by apply sets_put).
  assert (Forall (λ f, ∃ p, f = PackPeer p ∧ peer_ok p ∧ Peer_Is6 p = v) fs) as Hfs.
  { apply list.Forall_forall. intros f [[x Hx]%elem_of_dom _]%elem_of_elements%elem_of_intersection.
    by apply (Hpk ih b v f x). }
  assert (kd_view (kd_db (drop s)) ≡ apply_effect (kd_view (kd_db s)) (Expired (role_of b) ih (list_to_set (omap unpack fs)))) as Hv.
  { rewrite (sets_view _ _ _ Hs'), (sets_view _ _ _ Hc). by apply remove_hview. }
  split; [|by do 3 eexists]. apply kd_conc_inv.
  - split; [done|]. do 2 eexists. split; [exact Hs'|]. split; [|done].
    intros ih' b' v' f x. unfold set_cell. case_decide as Hk; [|by apply Hpk]. injection Hk as -> -> ->.
    intros Hx. eapply Hpk, lookup_weaken, remove_fields_subseteq. exact Hx.
  - intros r ih' q. rewrite (Hv r ih'). cbn [apply_effect]. unfold view_update.
    case_decide; [rewrite elem_of_difference; intros [? _]|intros ?]; by eapply conc_inv_view.
Qed.

(** *** Calls and sessions *)

Definition call_ok (c : call) : Prop :=
  match c with
  | Write o => peer_ok (wop_args o).2
  | Announce _ _ numWant _ => 0 < numWant
  | Scrape _ => True
  | Expire drop => drops drop
  end.

Definition puts (c : call (S := S)) (r : role) (ih : InfoHash) (p : Peer) : Prop :=
  match c with Write o => write_puts o r ih p | _ => False end.

Definition call_effects (c : call (S := S)) (es : list effect) : Prop :=
  match c with
  | Write o => write_effects o es
  | Expire _ => ∃ r ih ps, es = [Expired r ih ps]
  | _ => es = []
  end.

Fixpoint session_effects (cs : list (call (S := S))) : list effect → Prop :=
  match cs with
  | [] => eq []
  | c :: cs => λ es, ∃ es1 es2, es = es1 ++ es2 ∧ call_effects c es1 ∧ session_effects cs es2
  end.

Definition answer_ok (ca : call (S := S) * answer) : Prop :=
  match ca with
  | (Write o, Wrote e) => write_answer o e
  | (Announce ih forSeeder numWant v6, Announced (ps, e)) =>
      benign e ∧ Forall (shown ih forSeeder v6) ps ∧ Z.of_nat (length ps) ≤ numWant
  | (Scrape _, Scraped r) => r.2 = None
  | (Expire _, Dropped) => True
  | _ => False
  end.

Lemma keydb_exec c :
  call_ok c → (∀ r ih p, puts c r ih p → P r ih p) →
  does (λ a, answer_ok (c, a)) (exec peerTTL c) (call_effects c).
Proof.
  intros Hc HP. destruct c as [o|ih fs n v|ih|drop]; cbn [exec call_effects].
  - eapply does_then; [by apply keydb_exec_write|]. intros e He. by apply does_ret.
  - apply (does_weaken _ _ _ (eq []) _ (λ _ H, H)); [by intros ? <-|].
    eapply does_then; [by apply keydb_announce|]. intros [ps e] H. by apply does_ret.
  - apply (does_weaken _ _ _ (eq []) _ (λ _ H, H)); [by intros ? <-|].
    eapply does_then; [apply keydb_scrape|]. intros r H. by apply does_ret.
  - intros w s _ Hs. destruct (drop_keeps drop s Hc Hs) as (Hs' & r & ih & ps & Hv). cbn [fst snd].
    split; [done|]. split; [done|]. exists (Some (Expired r ih ps)). split; [done|]. split; [|done]. by do 3 eexists.
Qed.

Lemma keydb_session cs :
  Forall call_ok cs → (∀ c r ih p, c ∈ cs → puts c r ih p → P r ih p) →
  does (Forall answer_ok) (session peerTTL cs) (session_effects cs).
Proof.
  intros Hcs HP. induction cs as [|c cs IH]; [by apply does_ret, list.Forall_nil|].
  apply list.Forall_cons in Hcs as [Hc Hcs]. cbn [session session_effects].
  eapply (does_bind _ _ _ _ (call_effects c) (session_effects cs)); [by intros es1 es2; exists es1, es2| |].
  - apply keydb_exec; [done|]. intros r ih p. apply HP. by left.
  - intros a Ha. eapply does_then; [apply IH; [done|]|].
    + intros c' r ih p Hc'. apply HP. by right.
    + intros l Hl. apply does_ret. by apply list.Forall_cons.
Qed.

End Healthy.

(** In a swarm at first, or put there by a call. *)
Definition announced {S : Type} (d : db) (css : list (list (call (S := S)))) (r : role) (ih : InfoHash) (p : Peer) : Prop :=
  p ∈ kd_view d r ih ∨ ∃ cs c, cs ∈ css ∧ c ∈ cs ∧ puts c r ih p.

(** ** Properties *)

(** C21: whatever way the commands of the goroutines that use a KeyDB server
    interleave, with its own expiries in between: nobody panics, no peer is stored
    that was neither there nor put, announces are answered with such peers and no
    more than asked for, a completion reports no error; and once all are done the
    swarms are what some order of the writes and of removals by the expiries makes
    of them.  A write takes its effect at one moment, except that a peer that
    completes without being a leecher at that moment is added at a later one. *)
Theorem keydb_calls_interleaved {S : Type} {HRedis : Redis S} {HSpec : KeyDBSpec S} {HExp : KeyDBExpiry S}
    (peerTTL : Z) (css : list (list call)) (s s' : S) (ms' : list (prog S (list (call * answer)))) :
  kd_inv s → Forall (Forall call_ok) css →
  rtc pool_step (session peerTTL <$> css, s) (ms', s') →
  kd_inv s' ∧ (Panic ∉ ms') ∧
  (∀ r ih p, p ∈ kd_view (kd_db s') r ih → announced (kd_db s) css r ih p) ∧
  (∀ l, Ret l ∈ ms' → Forall (answer_ok (announced (kd_db s) css)) l) ∧
  (Forall (λ m, is_Some (result_of m)) ms' →
   ∃ ess es, Forall2 session_effects css ess ∧ interleaving ess es ∧
     (kd_view (kd_db s') ≡ foldl apply_effect (kd_view (kd_db s)) es)).
Proof.
  intros Hs Hcs Hsteps. set (P := announced (kd_db s) css).
  assert (conc_inv P s) as H0 by (apply kd_conc_inv; [done|]; intros; by left).
  destruct (pool_does (inv := conc_inv P) (view_of := λ s, kd_view (kd_db s)) (apply := apply_effect)
    (Forall (answer_ok P)) (session peerTTL) session_effects css ms' s s') as (H1 & H2 & H3 & H4); [|done..|].
  - intros cs Hin. apply keydb_session; [by eapply list.Forall_forall in Hcs|].
    intros c r ih p Hc Hput. right. by exists cs, c.
  - split; [by eapply conc_kd_inv|]. split; [done|].
    split; [intros r ih p; by apply (conc_inv_view P s')|]. by split.
Qed.

(** ** A concrete run

    A leecher is put, the server drops it, and it completes: it is added as a
    seeder, without a time to live. *)

Definition drop1 (s : kdb) : kdb :=
  match set_at s.1 (InfoHashKey ih1 false false) with
  | Some m => (put_set (InfoHashKey ih1 false false) (m ∖ {[PackPeer peer1]}) s.1, s.2)
  | None => s
  end.
Definition dropped_calls : list (list (call (S := kdb))) :=
  [[Write (WPutLeecher ih1 peer1); Write (WGraduateLeecher ih1 peer1)]; [Expire drop1]].
Definition dropped_end : pool kdb (list (call * answer)) :=
  schedule [0; 0; 1; 0; 0]%nat (session (H := keydb_server) 1800 <$> dropped_calls, (∅, ∅)).

Lemma keydb_calls_interleaved_witness :
  (∃ ess es, Forall2 session_effects dropped_calls ess ∧ interleaving ess es ∧
     (kd_view dropped_end.2.1 ≡ foldl apply_effect (kd_view ∅) es)) ∧
  kd_view dropped_end.2.1 Seeder ih1 = {[peer1]} ∧ dropped_end.2.2 !! (key1, PackPeer peer1) = None.
Proof.
  assert (rtc pool_step (session (H := keydb_server) 1800 <$> dropped_calls, (∅, ∅)) (dropped_end.1, dropped_end.2)) as Hr
    by (rewrite <-surjective_pairing; apply schedule_steps).
  assert (@drops _ _ keydb_spec drop1) as Hd.
  { intros s _. split; [exact I|]. exists ih1, false, false, {[PackPeer peer1]}. intros m Hm.
    change (kd_db s) with s.1 in *. unfold drop1. by rewrite Hm. }
  assert (Forall (Forall (@call_ok _ _ keydb_spec)) dropped_calls) as Hc.
  { repeat (apply list.Forall_cons; split); first [apply list.Forall_nil|exact Hd|exact peer1_ok|idtac]; exact I. }
  destruct (@keydb_calls_interleaved kdb keydb_server keydb_spec keydb_expiry 1800
    dropped_calls (∅, ∅) dropped_end.2 dropped_end.1 empty_kd_inv Hc Hr) as (_ & _ & _ & _ & Hdone).
  split; [|split].
  - apply Hdone, (bool_decide_eq_true_1 _). vm_cast_no_check (eq_refl true).
  - apply (bool_decide_eq_true_1 _). vm_cast_no_check (eq_refl true).
  - apply (bool_decide_eq_true_1 _). vm_cast_no_check (eq_refl true).
Defined.

End KeydbConc.
