(* ===== verification/Pg.v ===== *)
(** * Package [storage/pg]

    The storage over a PostgreSQL database (src/storage/pg/storage.go).  Its
    queries are texts of the configuration: [Postgres] is what the code uses of
    the client library, errors of every call included; [PgSpec] is what the
    sample queries do, over a table of peers. *)

From S2P Require Import Prelude GoStd Netip Bittorrent Storage.

Local Open Scope Z_scope.

(** What [unicode.ToUpper], mapped over the runes of a string, gives. *)
Class UnicodeUpper := { unicode_to_upper : bytes → bytes }.

Definition upper_byte (c : byte) : byte :=
  let z := byte_to_Z c in
  if (97 <=? z) && (z <=? 122) then byte_of_Z (z - 32) else c.

(** [strings.ToUpper]. *)
Definition ToUpper `{UnicodeUpper} (s : bytes) : bytes :=
  if is_ascii s then map upper_byte s else unicode_to_upper s.

(** ** The client library *)

(** The value of a named argument. *)
Inductive pgarg :=
  | ABytes (b : bytes)
  | AText (s : bytes)
  | AInt (n : Z)
  | ABool (b : bool)
  | ATime (t : Z)
  | ABytesArray (l : list bytes).
Abbreviation NamedArgs := (list (bytes * pgarg)).

(** The type of a variable a column is scanned into, and its value then. *)
Inductive target := IntoBytes | IntoIP | IntoInt | IntoUint32.
Inductive scanned := SBytes (b : bytes) | SInt (n : Z).

(** A result set: the names of its columns, its rows and the error met while
    reading them. *)
Record rows (column : Type) := MkRows {
  r_fields : list bytes;
  r_data : list (list column);
  r_Err : error;
}.
Arguments MkRows {column}.
Arguments r_fields {column}.
Arguments r_data {column}.
Arguments r_Err {column}.

Class Postgres (S : Type) := {
  column : Type;
  Exec : bytes → NamedArgs → S → S * error;
  Query : bytes → NamedArgs → S → S * result (rows column);
  (* QueryRow(...).Scan into one variable *)
  QueryRow : bytes → NamedArgs → target → S → S * result scanned;
  (* a row into variables, nil for the columns to skip *)
  Scan : list column → list (option target) → result (list (option scanned));
  (* whether a failing Scan ends the rows *)
  scan_fatal : bool;
  Begin : S → S * error;
  SendBatch : list (bytes * NamedArgs) → S → S * error;
  Commit : S → S * error;
  Rollback : S → S * error;
}.

Definition ErrNoRows : GoError := OtherError (bs "no rows in result set").

Module PgStore.

Definition defaultPingQuery : bytes := bs "SELECT 0".
Definition pCtx : bytes := bs "context".
Definition pKey : bytes := bs "key".
Definition pValue : bytes := bs "value".
Definition pInfoHash : bytes := bs "info_hash".
Definition pPeerID : bytes := bs "peer_id".
Definition pAddress : bytes := bs "address".
Definition pPort : bytes := bs "port".
Definition pV6 : bytes := bs "is_v6".
Definition pSeeder : bytes := bs "is_seeder".
Definition pCreated : bytes := bs "created".
Definition pCount : bytes := bs "count".

Definition errConnectionStringNotProvided : GoError :=
  OtherError (bs "database connection string not provided").
Definition errRequiredParameterNotSet (name : bytes) : GoError :=
  OtherError (bs "required parameter not provided: " ++ name).
Definition errRequiredColumnsNotFound (names : list bytes) : GoError :=
  OtherError (bs "one or more required columns not found in result set: [" ++ str_join (bs " ") names ++ bs "]").
Definition errRollBack (txErr err : GoError) : GoError :=
  OtherError (bs "error occurred while rolling back failed query: " ++ Error_msg txErr ++
              bs ", failed query error: " ++ Error_msg err).

(** ** Configuration *)

Record peerQueryConf := MkPeerQueryConf {
  peer_AddQuery : bytes;
  peer_DelQuery : bytes;
  GraduateQuery : bytes;
  CountQuery : bytes;
  CountSeedersColumn : bytes;
  CountLeechersColumn : bytes;
  ByInfoHashClause : bytes;
}.

Record announceQueryConf := MkAnnounceQueryConf {
  ann_Query : bytes;
  PeerIDColumn : bytes;
  AddressColumn : bytes;
  PortColumn : bytes;
}.

Record dataQueryConf := MkDataQueryConf {
  data_AddQuery : bytes;
  data_GetQuery : bytes;
  data_DelQuery : bytes;
}.

Record downloadQueryConf := MkDownloadQueryConf {
  down_GetQuery : bytes;
  IncrementQuery : bytes;
}.

Record Config := MkConfig {
  ConnectionString : bytes;
  PingQuery : bytes;
  cfg_Peer : peerQueryConf;
  cfg_Announce : announceQueryConf;
  cfg_Downloads : downloadQueryConf;
  cfg_Data : dataQueryConf;
  GCQuery : bytes;
  InfoHashCountQuery : bytes;
}.

(** [fn]: a required parameter, trimmed. *)
Definition required_param (p name : bytes) : result bytes :=
  let p := TrimSpace p in
  if decide (p = []) then Err (errRequiredParameterNotSet name) else Ok p.

Definition Validate `{UnicodeUpper} (cfg : Config) : result Config :=
  let conn := TrimSpace (ConnectionString cfg) in
  if decide (conn = []) then Err errConnectionStringNotProvided
  else
    let ping := if decide (PingQuery cfg = []) then defaultPingQuery else PingQuery cfg in
    let p := cfg_Peer cfg in
    let a := cfg_Announce cfg in
    let d := cfg_Data cfg in
    add ← required_param (peer_AddQuery p) (bs "peer.addQuery");
    del ← required_param (peer_DelQuery p) (bs "peer.delQuery");
    grad ← required_param (GraduateQuery p) (bs "peer.graduateQuery");
    cnt ← required_param (CountQuery p) (bs "peer.countQuery");
    sc ← required_param (CountSeedersColumn p) (bs "peer.countSeedersColumn");
    lc ← required_param (CountLeechersColumn p) (bs "peer.countLeechersColumn");
    byih ← required_param (ByInfoHashClause p) (bs "peer.byInfoHashClause");
    q ← required_param (ann_Query a) (bs "announce.query");
    idc ← required_param (PeerIDColumn a) (bs "announce.peerIDColumn");
    ac ← required_param (AddressColumn a) (bs "announce.addressColumn");
    pc ← required_param (PortColumn a) (bs "announce.portColumn");
    dadd ← required_param (data_AddQuery d) (bs "data.addQuery");
    dget ← required_param (data_GetQuery d) (bs "data.getQuery");
    ddel ← required_param (data_DelQuery d) (bs "data.delQuery");
    Ok (MkConfig conn ping
          (MkPeerQueryConf add del grad cnt (ToUpper sc) (ToUpper lc) byih)
          (MkAnnounceQueryConf q (ToUpper idc) (ToUpper ac) (ToUpper pc))
          (cfg_Downloads cfg) (MkDataQueryConf dadd dget ddel)
          (GCQuery cfg) (InfoHashCountQuery cfg)).

(** ** The store *)

Definition noResultErr (err : error) : error :=
  if decide (err = Some ErrNoRows) then None else err.

Section Store.
Context {S : Type} `{Postgres S} `{UnicodeUpper} (s_cfg : Config).

Definition txBatch (batch : list (bytes * NamedArgs)) (s : S) : S * error :=
  let '(s, err) := Begin s in
  match err with
  | Some e => (s, Some e)
  | None =>
      let '(s, err) := SendBatch batch s in
      match err with
      | None => Commit s
      | Some e =>
          let '(s, txErr) := Rollback s in
          (s, match txErr with Some t => Some (errRollBack t e) | None => Some e end)
      end
  end.

(** *** Data *)

Definition put_args (storeCtx : bytes) (v : Entry) : NamedArgs :=
  [(pCtx, AText storeCtx); (pKey, ABytes (entry_Key v)); (pValue, ABytes (entry_Value v))].

Definition Put (storeCtx : bytes) (values : list Entry) (s : S) : S * error :=
  match values with
  | [] => (s, None)
  | [v] => Exec (data_AddQuery (cfg_Data s_cfg)) (put_args storeCtx v) s
  | _ => txBatch ((λ v, (data_AddQuery (cfg_Data s_cfg), put_args storeCtx v)) <$> values) s
  end.

Definition Contains (storeCtx key : bytes) (s : S) : S * (bool * error) :=
  let '(s, r) := Query (data_GetQuery (cfg_Data s_cfg)) [(pCtx, AText storeCtx); (pKey, ABytes key)] s in
  match r with
  | Err e => (s, (false, Some e))
  | Ok rs => (s, (bool_decide (r_data rs ≠ []), r_Err rs))
  end.

Definition Load (storeCtx key : bytes) (s : S) : S * (option bytes * error) :=
  let '(s, r) := QueryRow (data_GetQuery (cfg_Data s_cfg)) [(pCtx, AText storeCtx); (pKey, ABytes key)] IntoBytes s in
  match r with
  | Ok (SBytes b) => (s, (Some b, None))
  | Ok (SInt _) => (s, (None, None))
  | Err e => (s, (None, noResultErr (Some e)))
  end.

Definition Delete (storeCtx : bytes) (keys : list bytes) (s : S) : S * error :=
  match keys with
  | [] => (s, None)
  | _ => Exec (data_DelQuery (cfg_Data s_cfg)) [(pCtx, AText storeCtx); (pKey, ABytesArray keys)] s
  end.

(** One tick of the collector, at time [now]; without a query nothing is
    scheduled. *)
Definition gc (now peerLifeTime : Z) (s : S) : S :=
  if decide (GCQuery s_cfg = []) then s
  else (Exec (GCQuery s_cfg) [(pCreated, ATime (now - peerLifeTime))] s).1.

(** *** Peers *)

Definition putPeer (now : Z) (ih : bytes) (peer : Peer) (seeder : bool) (s : S) : S * error :=
  Exec (peer_AddQuery (cfg_Peer s_cfg))
    [(pInfoHash, ABytes ih); (pPeerID, ABytes (peer_ID peer)); (pAddress, ABytes (AsSlice (Peer_Addr peer)));
     (pPort, AInt (peer_Port peer)); (pSeeder, ABool seeder); (pV6, ABool (Peer_Is6 peer)); (pCreated, ATime now)] s.

Definition delPeer (ih : bytes) (peer : Peer) (seeder : bool) (s : S) : S * error :=
  Exec (peer_DelQuery (cfg_Peer s_cfg))
    [(pInfoHash, ABytes ih); (pPeerID, ABytes (peer_ID peer)); (pAddress, ABytes (AsSlice (Peer_Addr peer)));
     (pPort, AInt (peer_Port peer)); (pSeeder, ABool seeder)] s.

Definition PutSeeder (now : Z) (ih : InfoHash) (peer : Peer) : S → S * error := putPeer now ih peer true.
Definition DeleteSeeder (ih : InfoHash) (peer : Peer) : S → S * error := delPeer ih peer true.
Definition PutLeecher (now : Z) (ih : InfoHash) (peer : Peer) : S → S * error := putPeer now ih peer false.
Definition DeleteLeecher (ih : InfoHash) (peer : Peer) : S → S * error := delPeer ih peer false.

Definition graduate_args (ih : InfoHash) (peer : Peer) : NamedArgs :=
  [(pInfoHash, ABytes ih); (pPeerID, ABytes (peer_ID peer)); (pAddress, ABytes (AsSlice (Peer_Addr peer)));
   (pPort, AInt (peer_Port peer))].

Definition GraduateLeecher (ih : InfoHash) (peer : Peer) : S → S * error :=
  txBatch [(GraduateQuery (cfg_Peer s_cfg), graduate_args ih peer);
           (IncrementQuery (cfg_Downloads s_cfg), [(pInfoHash, ABytes ih)])].

(** *** Announces *)

(** The index a loop over the names leaves in a variable set at each match. *)
Definition last_index (p : bytes → bool) (names : list bytes) : option nat :=
  list.last (List.filter (λ i, match names !! i with Some n => p n | None => false end) (seq 0 (length names))).

Definition announce_indexes (fields : list bytes) : option (nat * nat * nat) :=
  let c := cfg_Announce s_cfg in
  let names := ToUpper <$> fields in
  idIndex ← last_index (λ n, bool_decide (n = PeerIDColumn c)) names;
  ipIndex ← last_index (λ n, bool_decide (n = AddressColumn c) && negb (bool_decide (n = PeerIDColumn c))) names;
  portIndex ← last_index (λ n, bool_decide (n = PortColumn c)
    && negb (bool_decide (n = PeerIDColumn c)) && negb (bool_decide (n = AddressColumn c))) names;
  Some (idIndex, ipIndex, portIndex).

(** [into]: the variables by column, up to the last one wanted. *)
Definition into (idx : list (nat * target)) : list (option target) :=
  foldl (λ l it, <[it.1 := Some it.2]> l) (replicate (1 + max_list (fst <$> idx)) None) idx.

(** A peer from a row. *)
Definition scan_peer (idx : nat * nat * nat) (row : list column) : result Peer :=
  let '(idIndex, ipIndex, portIndex) := idx in
  vals ← Scan row (into [(idIndex, IntoBytes); (ipIndex, IntoIP); (portIndex, IntoInt)]);
  let bytes_at i := match vals !! i with Some (Some (SBytes b)) => b | _ => [] end in
  let port := match vals !! portIndex with Some (Some (SInt n)) => n | _ => 0 end in
  id ← NewPeerID (bytes_at idIndex);
  match AddrFromSlice (bytes_at ipIndex) with
  | Some netAddr => Ok (MkPeer id netAddr (wrap 16 port))
  | None => Err ErrInvalidIP
  end.

(** Whether the error came from [Scan] itself. *)
Definition scan_failed (idx : nat * nat * nat) (row : list column) : bool :=
  let '(idIndex, ipIndex, portIndex) := idx in
  match Scan row (into [(idIndex, IntoBytes); (ipIndex, IntoIP); (portIndex, IntoInt)]) with
  | Ok _ => false | Err _ => true
  end.

(** The loop over the rows: a row that fails is skipped, but the error of the
    last row read is returned; the error of reading the rows is not looked at. *)
Fixpoint scan_rows (idx : nat * nat * nat) (data : list (list column)) (maxCount : Z)
    (peers : list Peer) (err : error) : list Peer * error :=
  match data with
  | [] => (peers, err)
  | row :: data =>
      if Z.of_nat (length peers) <? maxCount then
        match scan_peer idx row with
        | Ok p => scan_rows idx data maxCount (peers ++ [p]) None
        | Err e =>
            if scan_fatal && scan_failed idx row then (peers, Some e)
            else scan_rows idx data maxCount peers (Some e)
        end
      else (peers, err)
  end.

Definition getPeers (ih : bytes) (seeders : bool) (maxCount : Z) (isV6 : bool) (s : S)
    : S * (list Peer * error) :=
  let c := cfg_Announce s_cfg in
  let '(s, r) := Query (ann_Query c)
    [(pInfoHash, ABytes ih); (pSeeder, ABool seeders); (pV6, ABool isV6); (pCount, AInt maxCount)] s in
  match r with
  | Err e => (s, ([], Some e))
  | Ok rs =>
      match announce_indexes (r_fields rs) with
      | None => (s, ([], Some (errRequiredColumnsNotFound [PeerIDColumn c; AddressColumn c; PortColumn c])))
      | Some idx => (s, scan_rows idx (r_data rs) maxCount [] None)
      end
  end.

Definition AnnouncePeers (ih : InfoHash) (forSeeder : bool) (numWant : Z) (v6 : bool) (s : S)
    : S * (list Peer * error) :=
  let '(s, (peers, err)) :=
    if forSeeder then getPeers ih false numWant v6 s
    else
      let '(s, (peers, err)) := getPeers ih true numWant v6 s in
      match err with
      | Some e => (s, (peers, Some e))
      | None =>
          let '(s, (addPeers, err)) := getPeers ih false (numWant - Z.of_nat (length peers)) v6 s in
          (s, (peers ++ addPeers, err))
      end in
  (s, (peers, match err with
              | None => if decide (peers = []) then Some ErrResourceDoesNotExist else None
              | Some e => if decide (peers = []) then Some e else None
              end)).

(** *** Scrapes *)

Definition count_indexes (fields : list bytes) : option (nat * nat) :=
  let c := cfg_Peer s_cfg in
  let names := ToUpper <$> fields in
  si ← last_index (λ n, bool_decide (n = CountSeedersColumn c)) names;
  li ← last_index (λ n, bool_decide (n = CountLeechersColumn c) && negb (bool_decide (n = CountSeedersColumn c))) names;
  Some (si, li).

(** Seeders and leechers. *)
Definition countPeers (ih : bytes) (s : S) : S * (Z * Z * error) :=
  let c := cfg_Peer s_cfg in
  let '(s, r) :=
    if decide (ih = []) then Query (CountQuery c) [] s
    else Query (CountQuery c ++ bs " " ++ ByInfoHashClause c) [(pInfoHash, ABytes ih)] s in
  match r with
  | Err e => (s, (0, 0, noResultErr (Some e)))
  | Ok rs =>
      match r_data rs with
      | [] => (s, (0, 0, None))
      | row :: _ =>
          match count_indexes (r_fields rs) with
          | None => (s, (0, 0, Some (errRequiredColumnsNotFound [CountSeedersColumn c; CountLeechersColumn c])))
          | Some (si, li) =>
              match Scan row (into [(si, IntoUint32); (li, IntoUint32)]) with
              | Err e => (s, (0, 0, noResultErr (Some e)))
              | Ok vals =>
                  let int_at i := match vals !! i with Some (Some (SInt n)) => n | _ => 0 end in
                  (s, (int_at si, int_at li, None))
              end
          end
      end
  end.

Definition ScrapeSwarm (ih : InfoHash) (s : S) : S * (Z * Z * Z * error) :=
  let '(s, (seeders, leechers, err)) := countPeers ih s in
  match err with
  | Some e => (s, (leechers, seeders, 0, Some e))
  | None =>
      if decide (down_GetQuery (cfg_Downloads s_cfg) = []) then (s, (leechers, seeders, 0, None))
      else
        let '(s, r) := QueryRow (down_GetQuery (cfg_Downloads s_cfg)) [(pInfoHash, ABytes ih)] IntoUint32 s in
        match r with
        | Ok (SInt n) => (s, (leechers, seeders, n, None))
        | Ok (SBytes _) => (s, (leechers, seeders, 0, None))
        | Err e => (s, (leechers, seeders, 0, noResultErr (Some e)))
        end
  end.

Definition Ping (s : S) : S * error := Exec (PingQuery s_cfg) [] s.

End Store.

End PgStore.
