(* ===== verification/PgSpec.v ===== *)
(** * What the sample queries do, and what the store over them does

    The queries of a configuration are texts that "should have same behaviour and
    arguments as provided in example" (src/docs/storage/postgres.md).  The example
    here is the configuration of the storage's own test
    (src/storage/pg/storage_test.go, with its table of peers: one row per info
    hash, peer ID, address and port), the same as the one of
    src/dist/example_config_pg.yaml: all its queries take the named arguments that
    the code passes.  The announce query of postgres.md does not, and is none of
    these ([pg_refused_announce]).  [PgSpec] states the effect of the queries on
    such a table; the store of [Pg] then keeps every peer in at most one role,
    unlike the other storages. *)

From S2P Require Import Prelude GoStd Netip Bittorrent Storage Redis SwarmKeys Pg.

Local Open Scope Z_scope.
Import PgStore.

(** ** The table *)

(** Info hash, peer ID, address and port. *)
Abbreviation pkey := (bytes * bytes * bytes * Z)%type.

Record prow := MkRow { pr_seeder : bool; pr_v6 : bool; pr_created : Z }.

Abbreviation ptable := (gmap pkey prow).

(** The rows of one info hash, role and family. *)
Definition selected (t : ptable) (ih : bytes) (b v : bool) : ptable :=
  filter (λ kr, kr.1.1.1.1 = ih ∧ pr_seeder kr.2 = b ∧ pr_v6 kr.2 = v) t.

(** The effects of the sample queries: INSERT ... ON CONFLICT DO UPDATE SET
    created, is_seeder; DELETE ... AND is_seeder=@is_seeder; and the graduation,
    whose condition [peer_id=peer_id] compares a column with itself. *)
Definition add_row (k : pkey) (b v : bool) (created : Z) (t : ptable) : ptable :=
  <[k := MkRow b (match t !! k with Some r => pr_v6 r | None => v end) created]> t.

Definition del_row (k : pkey) (b : bool) (t : ptable) : ptable :=
  match t !! k with
  | Some r => if decide (pr_seeder r = b) then delete k t else t
  | None => t
  end.

Definition graduate_row (ih ip : bytes) (port : Z) (k : pkey) (r : prow) : prow :=
  if decide (k.1.1.1 = ih ∧ k.1.2 = ip ∧ k.2 = port ∧ pr_seeder r = false) then MkRow true (pr_v6 r) (pr_created r)
  else r.

Definition graduate_rows (ih ip : bytes) (port : Z) (t : ptable) : ptable :=
  map_imap (λ k r, Some (graduate_row ih ip port k r)) t.

Definition count_download (ih : bytes) (d : gmap bytes Z) : gmap bytes Z :=
  <[ih := match d !! ih with Some n => n + 1 | None => 1 end]> d.

(** ** The laws

    Of a configuration whose queries behave like the sample ones, with the named
    arguments of the code. *)
Class PgSpec (S : Type) `{Postgres S} `{UnicodeUpper} (cfg : Config) := {
  pg_up : S → Prop;
  pg_table : S → ptable;
  pg_downloads : S → gmap bytes Z;
  pg_row : pkey → list column;
  pg_columns : PeerIDColumn (cfg_Announce cfg) ≠ AddressColumn (cfg_Announce cfg) ∧
    PeerIDColumn (cfg_Announce cfg) ≠ PortColumn (cfg_Announce cfg) ∧
    AddressColumn (cfg_Announce cfg) ≠ PortColumn (cfg_Announce cfg) ∧
    CountSeedersColumn (cfg_Peer cfg) ≠ CountLeechersColumn (cfg_Peer cfg);
  pg_add s ih id ip port b v created : pg_up s →
    ∃ s', Exec (peer_AddQuery (cfg_Peer cfg))
        [(pInfoHash, ABytes ih); (pPeerID, ABytes id); (pAddress, ABytes ip); (pPort, AInt port);
         (pSeeder, ABool b); (pV6, ABool v); (pCreated, ATime created)] s = (s', None) ∧
      pg_up s' ∧ pg_table s' = add_row (ih, id, ip, port) b v created (pg_table s) ∧
      pg_downloads s' = pg_downloads s;
  pg_del s ih id ip port b : pg_up s →
    ∃ s', Exec (peer_DelQuery (cfg_Peer cfg))
        [(pInfoHash, ABytes ih); (pPeerID, ABytes id); (pAddress, ABytes ip); (pPort, AInt port);
         (pSeeder, ABool b)] s = (s', None) ∧
      pg_up s' ∧ pg_table s' = del_row (ih, id, ip, port) b (pg_table s) ∧
      pg_downloads s' = pg_downloads s;
  pg_graduate s ih id ip port : pg_up s →
    ∃ s1 s2 s3, Begin s = (s1, None) ∧
      SendBatch [(GraduateQuery (cfg_Peer cfg),
                   [(pInfoHash, ABytes ih); (pPeerID, ABytes id); (pAddress, ABytes ip); (pPort, AInt port)]);
                 (IncrementQuery (cfg_Downloads cfg), [(pInfoHash, ABytes ih)])] s1 = (s2, None) ∧
      Commit s2 = (s3, None) ∧
      pg_up s3 ∧ pg_table s3 = graduate_rows ih ip port (pg_table s) ∧
      pg_downloads s3 = count_download ih (pg_downloads s);
  pg_announce s ih b v n : pg_up s → 0 <= n →
    ∃ s' rs ks, Query (ann_Query (cfg_Announce cfg))
        [(pInfoHash, ABytes ih); (pSeeder, ABool b); (pV6, ABool v); (pCount, AInt n)] s = (s', Ok rs) ∧
      pg_up s' ∧ pg_table s' = pg_table s ∧ pg_downloads s' = pg_downloads s ∧
      ToUpper <$> r_fields rs =
        [PeerIDColumn (cfg_Announce cfg); AddressColumn (cfg_Announce cfg); PortColumn (cfg_Announce cfg)] ∧
      r_data rs = pg_row <$> ks ∧ NoDup ks ∧ (∀ k, k ∈ ks → is_Some (selected (pg_table s) ih b v !! k)) ∧
      Z.of_nat (length ks) = Z.min n (Z.of_nat (size (selected (pg_table s) ih b v)));
  pg_scan k : Scan (pg_row k) [Some IntoBytes; Some IntoIP; Some IntoInt] =
    Ok [Some (SBytes k.1.1.2); Some (SBytes k.1.2); Some (SInt k.2)];
  pg_count s ih : pg_up s → ih ≠ [] →
    let counted b := Z.of_nat (size (selected (pg_table s) ih b false)) +
                     Z.of_nat (size (selected (pg_table s) ih b true)) in
    counted true < 2 ^ 32 → counted false < 2 ^ 32 →
    ∃ s' rs row, Query (CountQuery (cfg_Peer cfg) ++ bs " " ++ ByInfoHashClause (cfg_Peer cfg))
        [(pInfoHash, ABytes ih)] s = (s', Ok rs) ∧
      pg_up s' ∧ pg_table s' = pg_table s ∧ pg_downloads s' = pg_downloads s ∧
      ToUpper <$> r_fields rs = [CountSeedersColumn (cfg_Peer cfg); CountLeechersColumn (cfg_Peer cfg)] ∧
      r_data rs = [row] ∧
      Scan row [Some IntoUint32; Some IntoUint32] = Ok [Some (SInt (counted true)); Some (SInt (counted false))];
  pg_snatches s ih : pg_up s →
    ∃ s', QueryRow (down_GetQuery (cfg_Downloads cfg)) [(pInfoHash, ABytes ih)] IntoUint32 s =
        (s', match pg_downloads s !! ih with Some n => Ok (SInt n) | None => Err ErrNoRows end) ∧
      pg_up s' ∧ pg_table s' = pg_table s ∧ pg_downloads s' = pg_downloads s;
}.

Arguments pg_up {S _ _} cfg {_} _.
Arguments pg_table {S _ _} cfg {_} _.
Arguments pg_downloads {S _ _} cfg {_} _.
Arguments pg_row {S _ _} cfg {_} _.
Arguments pg_columns {S _ _} cfg {_}.

(** ** Peers and keys *)

Module PgFacts.

Definition key_of (ih : InfoHash) (p : Peer) : pkey := (ih, peer_ID p, AsSlice (Peer_Addr p), peer_Port p).

(** Every row is that of a peer, with its family. *)
Definition table_ok (t : ptable) : Prop :=
  ∀ k r, t !! k = Some r → ∃ ih p, k = key_of ih p ∧ peer_ok p ∧ pr_v6 r = Peer_Is6 p.

(** The role of a peer in a swarm. *)
Definition pg_role (t : ptable) (ih : InfoHash) (p : Peer) : option bool := pr_seeder <$> t !! key_of ih p.

Lemma peer_addr_ok p : peer_ok p → Peer_Addr p = peer_addr p ∧ AddrFromSlice (AsSlice (Peer_Addr p)) = Some (peer_addr p).
Proof.
  intros (_ & _ & Hwf & Hv & H4 & Hz). unfold Peer_Addr. rewrite Unmap_id by done. split; [done|].
  rewrite AddrFromSlice_AsSlice by done. destruct (peer_addr p); [done..|]. by rewrite Hz.
Qed.

Lemma same_slice p q : peer_ok p → peer_ok q →
  AsSlice (Peer_Addr p) = AsSlice (Peer_Addr q) ↔ peer_addr p = peer_addr q.
Proof.
  intros Hp Hq. destruct (peer_addr_ok p Hp) as [Ep Ap], (peer_addr_ok q Hq) as [Eq Aq]. split.
  - intros E. rewrite E in Ap. congruence.
  - intros E. by rewrite Ep, Eq, E.
Qed.

Lemma pg_key_of_inj ih ih' p q : peer_ok p → peer_ok q → key_of ih p = key_of ih' q → ih = ih' ∧ p = q.
Proof.
  intros Hp Hq [= -> Hid Ha Hport]. apply (same_slice p q Hp Hq) in Ha. split; [done|].
  destruct p, q. cbn in *. congruence.
Qed.

Lemma scan_key {S : Type} `{Postgres S} `{UnicodeUpper} cfg `{!PgSpec S cfg} ih p : peer_ok p →
  scan_peer (0, 1, 2)%nat (pg_row cfg (key_of ih p)) = Ok p.
Proof.
  intros Hp. unfold scan_peer.
  change (into [(0%nat, IntoBytes); (1%nat, IntoIP); (2%nat, IntoInt)]) with [Some IntoBytes; Some IntoIP; Some IntoInt].
  rewrite pg_scan. cbn [mbind result_bind lookup list_lookup key_of fst snd].
  pose proof Hp as (Hid & Hport & _). rewrite NewPeerID_Ok by done. cbn [mbind result_bind].
  destruct (peer_addr_ok p Hp) as [_ ->]. rewrite wrap_small by done. by destruct p.
Qed.

(** ** The abstract roles *)

Definition spec_wop (o : wop) (R : InfoHash → Peer → option bool) : InfoHash → Peer → option bool := λ ih' q,
  match o with
  | WPutSeeder ih p => if decide (ih' = ih ∧ q = p) then Some true else R ih' q
  | WPutLeecher ih p => if decide (ih' = ih ∧ q = p) then Some false else R ih' q
  | WDeleteSeeder ih p => if decide (ih' = ih ∧ q = p ∧ R ih' q = Some true) then None else R ih' q
  | WDeleteLeecher ih p => if decide (ih' = ih ∧ q = p ∧ R ih' q = Some false) then None else R ih' q
  | WGraduateLeecher ih p =>
      if decide (ih' = ih ∧ peer_addr q = peer_addr p ∧ peer_Port q = peer_Port p ∧ R ih' q = Some false)
      then Some true else R ih' q
  end.

Lemma add_row_role t ih p b v created ih' q :
  peer_ok p → peer_ok q →
  pg_role (add_row (key_of ih p) b v created t) ih' q =
    if decide (ih' = ih ∧ q = p) then Some b else pg_role t ih' q.
Proof.
  intros Hp Hq. unfold pg_role, add_row. case_decide as Hd.
  - destruct Hd as [-> ->]. by rewrite lookup_insert_eq.
  - rewrite lookup_insert_ne; [done|]. intros [-> ->]%pg_key_of_inj; [|done..]. by destruct Hd.
Qed.

Lemma del_row_role t ih p b ih' q :
  peer_ok p → peer_ok q →
  pg_role (del_row (key_of ih p) b t) ih' q =
    if decide (ih' = ih ∧ q = p ∧ pg_role t ih' q = Some b) then None else pg_role t ih' q.
Proof.
  intros Hp Hq. unfold del_row. destruct (t !! key_of ih p) as [r|] eqn:E.
  - case_decide as Hb.
    + unfold pg_role at 1. destruct (decide (ih' = ih ∧ q = p)) as [[-> ->]|Hne].
      * rewrite lookup_delete_eq, decide_True; [done|]. unfold pg_role. rewrite E. simpl. naive_solver.
      * rewrite decide_False by tauto. rewrite lookup_delete_ne; [done|].
        intros [-> ->]%pg_key_of_inj; [|done..]. by destruct Hne.
    + rewrite decide_False; [done|]. intros (-> & -> & Hr). unfold pg_role in Hr. rewrite E in Hr. simpl in Hr. congruence.
  - rewrite decide_False; [done|]. intros (-> & -> & Hr). unfold pg_role in Hr. by rewrite E in Hr.
Qed.

Lemma graduate_role t ih p ih' q :
  peer_ok p → peer_ok q →
  pg_role (graduate_rows ih (AsSlice (Peer_Addr p)) (peer_Port p) t) ih' q =
    spec_wop (WGraduateLeecher ih p) (pg_role t) ih' q.
Proof.
  intros Hp Hq. unfold pg_role, graduate_rows, spec_wop. rewrite map_lookup_imap.
  destruct (t !! key_of ih' q) as [r|]; cbn [mbind option_bind fmap option_fmap option_map].
  - unfold graduate_row, key_of. cbn [fst snd].
    pose proof (same_slice q p Hq Hp) as Hs.
    destruct (decide (ih' = ih ∧ peer_addr q = peer_addr p ∧ peer_Port q = peer_Port p ∧ Some (pr_seeder r) = Some false))
      as [(? & ? & ? & [= ?])|Hn].
    + rewrite decide_True by (rewrite Hs; done). done.
    + rewrite decide_False; [done|]. rewrite Hs. intros (? & ? & ? & ?). destruct Hn. split_and!; [done..|by f_equal].
  - rewrite decide_False; [done|]. by intros (_ & _ & _ & ?).
Qed.

Lemma add_row_ok t ih p b created :
  table_ok t → peer_ok p → table_ok (add_row (key_of ih p) b (Peer_Is6 p) created t).
Proof.
  intros Ht Hp k r. unfold add_row. intros [[<- <-]|[_ Hk]]%lookup_insert_Some; [|by apply Ht].
  exists ih, p. split; [done|]. split; [done|]. cbn [pr_v6]. destruct (t !! key_of ih p) as [r|] eqn:E; [|done].
  destruct (Ht _ _ E) as (ih' & q & Hk & Hq & ->). by apply pg_key_of_inj in Hk as [_ ->].
Qed.

Lemma del_row_ok t k b : table_ok t → table_ok (del_row k b t).
Proof.
  intros Ht. unfold del_row. destruct (t !! k); [|done]. case_decide; [|done].
  intros k' r' [_ Hk]%lookup_delete_Some. by apply Ht.
Qed.

Lemma graduate_rows_ok t ih ip port : table_ok t → table_ok (graduate_rows ih ip port t).
Proof.
  intros Ht k r. unfold graduate_rows. rewrite map_lookup_imap. intros (r' & E & [= <-])%bind_Some.
  destruct (Ht k r' E) as (ih' & p & ? & ? & ?). exists ih', p. split; [done|]. split; [done|].
  unfold graduate_row. by case_decide.
Qed.

(** ** The methods on a database that answers *)

Section Healthy.
Context {S : Type} {HPg : Postgres S} {HUp : UnicodeUpper} (cfg : Config) {HSpec : PgSpec S cfg}.

Definition pg_inv (s : S) : Prop := pg_up cfg s ∧ table_ok (pg_table cfg s).

(** What a reading call leaves alone. *)
Definition unchanged (s s' : S) : Prop :=
  pg_up cfg s' ∧ pg_table cfg s' = pg_table cfg s ∧ pg_downloads cfg s' = pg_downloads cfg s.

Lemma unchanged_inv s s' : pg_inv s → unchanged s s' → pg_inv s'.
Proof. intros [_ Ht] (? & E & _). split; [done|by rewrite E]. Qed.

Lemma unchanged_trans s1 s2 s3 : unchanged s1 s2 → unchanged s2 s3 → unchanged s1 s3.
Proof. intros (_ & E1 & D1) (? & E2 & D2). split; [done|]. split; congruence. Qed.

(** A writing call: the roles afterwards. *)
Definition writes (o : wop) (s : S) (r : S * error) : Prop :=
  r.2 = None ∧ pg_inv r.1 ∧
  ∀ ih q, peer_ok q → pg_role (pg_table cfg r.1) ih q = spec_wop o (pg_role (pg_table cfg s)) ih q.

Lemma putPeer_writes s now ih p (b : bool) :
  pg_inv s → peer_ok p →
  writes (if b then WPutSeeder ih p else WPutLeecher ih p) s (putPeer cfg now ih p b s).
Proof.
  intros [Hup Ht] Hp. unfold putPeer, writes.
  destruct (pg_add s ih (peer_ID p) (AsSlice (Peer_Addr p)) (peer_Port p) b (Peer_Is6 p) now Hup)
    as (s' & -> & Hup' & E & _).
  fold (key_of ih p) in E. cbn [fst snd]. split; [done|]. split; [split; [done|]|].
  - rewrite E. by apply add_row_ok.
  - intros ih' q Hq. rewrite E, add_row_role by done. by destruct b.
Qed.

Lemma delPeer_writes s ih p (b : bool) :
  pg_inv s → peer_ok p →
  writes (if b then WDeleteSeeder ih p else WDeleteLeecher ih p) s (delPeer cfg ih p b s).
Proof.
  intros [Hup Ht] Hp. unfold delPeer, writes.
  destruct (pg_del s ih (peer_ID p) (AsSlice (Peer_Addr p)) (peer_Port p) b Hup) as (s' & -> & Hup' & E & _).
  fold (key_of ih p) in E. cbn [fst snd]. split; [done|]. split; [split; [done|]|].
  - rewrite E. by apply del_row_ok.
  - intros ih' q Hq. rewrite E, del_row_role by done. by destruct b.
Qed.

Lemma GraduateLeecher_writes s ih p :
  pg_inv s → peer_ok p → writes (WGraduateLeecher ih p) s (GraduateLeecher cfg ih p s).
Proof.
  intros [Hup Ht] Hp. unfold GraduateLeecher, txBatch, graduate_args, writes.
  destruct (pg_graduate s ih (peer_ID p) (AsSlice (Peer_Addr p)) (peer_Port p) Hup)
    as (s1 & s2 & s3 & -> & -> & -> & Hup' & E & _).
  cbn [fst snd]. split; [done|]. split; [split; [done|]|].
  - rewrite E. by apply graduate_rows_ok.
  - intros ih' q Hq. rewrite E. by apply graduate_role.
Qed.

(** *** Announces *)

Lemma announce_indexes_ok fields :
  ToUpper <$> fields =
    [PeerIDColumn (cfg_Announce cfg); AddressColumn (cfg_Announce cfg); PortColumn (cfg_Announce cfg)] →
  announce_indexes cfg fields = Some (0, 1, 2)%nat.
Proof.
  destruct (pg_columns cfg) as (H1 & H2 & H3 & _). intros E. unfold announce_indexes, last_index. rewrite E.
  cbn [length seq List.filter lookup list_lookup].
  repeat (case_bool_decide; simplify_eq; cbn [andb negb List.filter list.last mbind option_bind]); done.
Qed.

Lemma scan_rows_ok ih (ps peers : list Peer) maxCount :
  Forall peer_ok ps → Z.of_nat (length peers + length ps) <= maxCount →
  scan_rows (0, 1, 2)%nat ((λ p, pg_row cfg (key_of ih p)) <$> ps) maxCount peers None = (peers ++ ps, None).
Proof.
  revert peers. induction ps as [|p ps IH]; intros peers Hps Hl; [by rewrite app_nil_r|].
  apply list.Forall_cons in Hps as [Hp Hps]. cbn [fmap list_fmap scan_rows length] in *.
  rewrite (proj2 (Z.ltb_lt _ _)) by lia. rewrite scan_key by done.
  unfold fmap in IH. rewrite IH; [by rewrite <-app_assoc|done|]. rewrite length_app. cbn [length]. lia.
Qed.

(** The rows selected are those of peers. *)
Lemma keys_peers t ih b v (ks : list pkey) :
  table_ok t → (∀ k, k ∈ ks → is_Some (selected t ih b v !! k)) →
  ∃ ps, ks = key_of ih <$> ps ∧ Forall (λ p, peer_ok p ∧ pg_role t ih p = Some b ∧ Peer_Is6 p = v) ps.
Proof.
  intros Ht. induction ks as [|k ks IH]; intros Hks; [by exists []|].
  destruct IH as (ps & -> & Hps); [intros k' Hk'; apply Hks; by right|].
  destruct (Hks k) as [r (Hr & Hih & Hb & Hv)%map_lookup_filter_Some]; [by left|].
  destruct (Ht k r Hr) as (ih' & p & -> & Hp & Hv'). cbn [key_of fst snd] in Hih, Hb, Hv. subst ih'.
  exists (p :: ps). split; [done|]. constructor; [|done]. unfold pg_role. rewrite Hr. simpl.
  split_and!; [done|by rewrite Hb|congruence].
Qed.

Lemma getPeers_run s ih b v n :
  pg_inv s → 0 <= n →
  ∃ s' ps, getPeers cfg ih b n v s = (s', (ps, None)) ∧ unchanged s s' ∧ NoDup ps ∧
    Forall (λ p, peer_ok p ∧ pg_role (pg_table cfg s) ih p = Some b ∧ Peer_Is6 p = v) ps ∧
    Z.of_nat (length ps) = Z.min n (Z.of_nat (size (selected (pg_table cfg s) ih b v))).
Proof.
  intros [Hup Ht] Hn. unfold getPeers.
  destruct (pg_announce s ih b v n Hup Hn) as (s' & rs & ks & -> & Hup' & Et & Ed & Ef & Er & Hnd & Hks & Hl).
  rewrite (announce_indexes_ok _ Ef), Er.
  destruct (keys_peers _ _ _ _ _ Ht Hks) as (ps & -> & Hps). rewrite length_fmap in Hl.
  exists s', ps. rewrite <-list_fmap_compose.
  rewrite (scan_rows_ok ih ps []); [|by eapply list.Forall_impl; [exact Hps|]; intros p [? _]|cbn [length]; lia].
  split; [done|]. split; [done|]. split; [|done]. by apply NoDup_fmap_1 in Hnd.
Qed.

Lemma pg_AnnouncePeers_run s ih (forSeeder v : bool) numWant :
  pg_inv s → 0 < numWant →
  let avail b := Z.of_nat (size (selected (pg_table cfg s) ih b v)) in
  ∃ s' ps e, AnnouncePeers cfg ih forSeeder numWant v s = (s', (ps, e)) ∧ unchanged s s' ∧
    e = (if decide (ps = []) then Some ErrResourceDoesNotExist else None) ∧ NoDup ps ∧
    Forall (λ p, peer_ok p ∧ Peer_Is6 p = v ∧ ∃ b, pg_role (pg_table cfg s) ih p = Some b ∧
                 (forSeeder = true → b = false)) ps ∧
    Z.of_nat (length ps) = Z.min numWant ((if forSeeder then 0 else avail true) + avail false).
Proof.
  intros Hi Hn avail. unfold AnnouncePeers. destruct forSeeder.
  - destruct (getPeers_run s ih false v numWant Hi) as (s1 & ps & -> & Hu & Hnd & Hps & Hl); [lia|].
    do 3 eexists. split; [done|]. split; [done|]. split; [done|]. split; [done|]. split; [|unfold avail; lia].
    eapply list.Forall_impl; [exact Hps|]. intros p (? & ? & ?). eauto.
  - destruct (getPeers_run s ih true v numWant Hi) as (s1 & ps1 & -> & Hu1 & Hnd1 & Hps1 & Hl1); [lia|].
    pose proof (unchanged_inv _ _ Hi Hu1) as Hi1.
    destruct (getPeers_run s1 ih false v (numWant - Z.of_nat (length ps1)) Hi1)
      as (s2 & ps2 & -> & Hu2 & Hnd2 & Hps2 & Hl2); [lia|].
    assert (pg_table cfg s1 = pg_table cfg s) as Et by apply Hu1. rewrite Et in Hps2, Hl2.
    do 3 eexists. split; [done|]. split; [by eapply unchanged_trans|]. split; [done|].
    rewrite list.Forall_forall in Hps1, Hps2. split; [|split].
    + apply list.NoDup_app. split; [done|]. split; [|done]. intros p Hp1 Hp2.
      destruct (Hps1 p Hp1) as (_ & E1 & _), (Hps2 p Hp2) as (_ & E2 & _). congruence.
    + apply list.Forall_forall. intros p [Hp|Hp]%elem_of_app;
        [destruct (Hps1 p Hp) as (? & ? & ?)|destruct (Hps2 p Hp) as (? & ? & ?)]; eauto.
    + rewrite length_app. unfold avail. lia.
Qed.

(** *** Scrapes *)

(** The peers of one role in a swarm. *)
Definition members (t : ptable) (ih : bytes) (b : bool) : Z :=
  Z.of_nat (size (selected t ih b false)) + Z.of_nat (size (selected t ih b true)).

Lemma count_indexes_ok fields :
  ToUpper <$> fields = [CountSeedersColumn (cfg_Peer cfg); CountLeechersColumn (cfg_Peer cfg)] →
  count_indexes cfg fields = Some (0, 1)%nat.
Proof.
  destruct (pg_columns cfg) as (_ & _ & _ & H). intros E. unfold count_indexes, last_index. rewrite E.
  cbn [length seq List.filter lookup list_lookup].
  repeat (case_bool_decide; simplify_eq; cbn [andb negb List.filter list.last mbind option_bind]); done.
Qed.

Lemma pg_ScrapeSwarm_run s ih :
  pg_inv s → InfoHash_wf ih → (∀ b, members (pg_table cfg s) ih b < 2 ^ 32) →
  ∃ s' n, ScrapeSwarm cfg ih s =
      (s', (members (pg_table cfg s) ih false, members (pg_table cfg s) ih true, n, None)) ∧ unchanged s s'.
Proof.
  intros [Hup Ht] Hih Hm. unfold ScrapeSwarm, countPeers.
  assert (ih ≠ []) as Hne by (intros ->; by destruct Hih).
  rewrite decide_False by done.
  destruct (pg_count s ih Hup Hne (Hm true) (Hm false))
    as (s1 & rs & row & -> & Hup1 & Et & Ed & Ef & Er & Es).
  rewrite Er, (count_indexes_ok _ Ef).
  change (into [(0%nat, IntoUint32); (1%nat, IntoUint32)]) with [Some IntoUint32; Some IntoUint32].
  rewrite Es. cbn [lookup list_lookup]. fold (members (pg_table cfg s) ih true) (members (pg_table cfg s) ih false).
  case_decide; [by do 2 eexists|].
  destruct (pg_snatches s1 ih Hup1) as (s2 & -> & Hup2 & Et2 & Ed2).
  assert (unchanged s s2) as Hu by (eapply (unchanged_trans s s1); done).
  destruct (pg_downloads cfg s1 !! ih) as [n|]; by do 2 eexists.
Qed.

(** *** The store *)

#[local] Instance pg_PeerStorage : PeerStorage (RedisStore.clocked S) := {|
  Storage.PutSeeder ih p := RedisStore.timed (λ now, PutSeeder cfg now ih p);
  Storage.DeleteSeeder ih p := RedisStore.timed (λ _, DeleteSeeder cfg ih p);
  Storage.PutLeecher ih p := RedisStore.timed (λ now, PutLeecher cfg now ih p);
  Storage.DeleteLeecher ih p := RedisStore.timed (λ _, DeleteLeecher cfg ih p);
  Storage.GraduateLeecher ih p := RedisStore.timed (λ _, GraduateLeecher cfg ih p);
  Storage.AnnouncePeers ih forSeeder numWant v6 := RedisStore.timed (λ _, AnnouncePeers cfg ih forSeeder numWant v6);
  Storage.ScrapeSwarm ih := RedisStore.timed (λ _, ScrapeSwarm cfg ih);
  Storage.Ping := RedisStore.timed (λ _, Ping cfg);
|}.

Lemma timed_writes o (f : Z → S → S * error) w :
  writes o (RedisStore.ck_server w) (f (RedisStore.ck_clock w (RedisStore.ck_pos w)) (RedisStore.ck_server w)) →
  ∃ w', RedisStore.timed f w = Some (w', None) ∧ pg_inv (RedisStore.ck_server w') ∧
    ∀ ih q, peer_ok q → pg_role (pg_table cfg (RedisStore.ck_server w')) ih q =
                        spec_wop o (pg_role (pg_table cfg (RedisStore.ck_server w))) ih q.
Proof.
  unfold RedisStore.timed. destruct (f _ _) as [s' e]. intros (He & Hi & Hr). cbn [fst snd] in *. subst e.
  by eexists.
Qed.

Lemma run_wop_writes o w :
  pg_inv (RedisStore.ck_server w) → peer_ok (wop_args o).2 →
  ∃ w', run_wop o w = Some (w', None) ∧ pg_inv (RedisStore.ck_server w') ∧
    ∀ ih q, peer_ok q → pg_role (pg_table cfg (RedisStore.ck_server w')) ih q =
                        spec_wop o (pg_role (pg_table cfg (RedisStore.ck_server w))) ih q.
Proof.
  intros Hi Hp. destruct o as [ih p|ih p|ih p|ih p|ih p]; cbn [wop_args snd] in Hp; apply timed_writes;
    [by apply (putPeer_writes _ _ _ _ true)|by apply (delPeer_writes _ _ _ true)
    |by apply (putPeer_writes _ _ _ _ false)|by apply (delPeer_writes _ _ _ false)|by apply GraduateLeecher_writes].
Qed.

Lemma spec_wop_ext o R R' :
  peer_ok (wop_args o).2 → (∀ ih q, peer_ok q → R ih q = R' ih q) →
  ∀ ih q, peer_ok q → spec_wop o R ih q = spec_wop o R' ih q.
Proof. intros Hp HR ih q Hq. destruct o; cbn [spec_wop]; by rewrite (HR ih q Hq). Qed.

Lemma spec_wops_ext os : ∀ R R',
  Forall (λ o, peer_ok (wop_args o).2) os → (∀ ih q, peer_ok q → R ih q = R' ih q) →
  ∀ ih q, peer_ok q → foldl (flip spec_wop) R os ih q = foldl (flip spec_wop) R' os ih q.
Proof.
  induction os as [|o os IH]; intros R R' Hos HR; [done|]. apply list.Forall_cons in Hos as [Ho Hos].
  cbn [foldl flip]. apply IH; [done|]. by apply spec_wop_ext.
Qed.

(** ** Properties *)

(** C23: with the sample queries on a database that answers, any sequence of
    puts, deletes and graduations leaves every peer in the role the
    specification computes: one role at most, a put changing the other one; a
    graduation turns the leechers of the peer's address and port into seeders,
    whatever their peer IDs, and adds nobody. *)
Theorem pg_refinement (w : RedisStore.clocked S) (os : list wop) :
  pg_inv (RedisStore.ck_server w) → Forall (λ o, peer_ok (wop_args o).2) os →
  ∃ w', run_wops os w = Some w' ∧ pg_inv (RedisStore.ck_server w') ∧
    ∀ ih q, peer_ok q → pg_role (pg_table cfg (RedisStore.ck_server w')) ih q =
                        foldl (flip spec_wop) (pg_role (pg_table cfg (RedisStore.ck_server w))) os ih q.
Proof.
  revert w. induction os as [|o os IH]; intros w Hi Hos; [by exists w|].
  apply list.Forall_cons in Hos as [Ho Hos].
  destruct (run_wop_writes o w Hi Ho) as (w1 & E1 & Hi1 & H1).
  destruct (IH w1 Hi1 Hos) as (w2 & E2 & Hi2 & H2).
  exists w2. cbn [run_wops]. rewrite E1. split; [done|]. split; [done|].
  intros ih q Hq. rewrite H2 by done. cbn [foldl flip]. by apply spec_wops_ext.
Qed.

(** C24: with the sample queries, named arguments all, on a database that answers, an announce
    returns peers of the asked family without repetition, as many as wanted or
    all there are, only leechers to a seeder, and an error exactly when there
    are none; a scrape returns the numbers of leechers and seeders of the swarm.
    Neither changes the database. *)
Theorem pg_reads (s : S) (ih : InfoHash) (forSeeder v : bool) (numWant : Z) :
  pg_inv s → InfoHash_wf ih → 0 < numWant → (∀ b, members (pg_table cfg s) ih b < 2 ^ 32) →
  let avail b := Z.of_nat (size (selected (pg_table cfg s) ih b v)) in
  (∃ s' ps e, AnnouncePeers cfg ih forSeeder numWant v s = (s', (ps, e)) ∧ unchanged s s' ∧
    e = (if decide (ps = []) then Some ErrResourceDoesNotExist else None) ∧ NoDup ps ∧
    Forall (λ p, peer_ok p ∧ Peer_Is6 p = v ∧ ∃ b, pg_role (pg_table cfg s) ih p = Some b ∧
                 (forSeeder = true → b = false)) ps ∧
    Z.of_nat (length ps) = Z.min numWant ((if forSeeder then 0 else avail true) + avail false)) ∧
  ∃ s' n, ScrapeSwarm cfg ih s =
    (s', (members (pg_table cfg s) ih false, members (pg_table cfg s) ih true, n, None)) ∧ unchanged s s'.
Proof.
  intros Hi Hih Hn Hm avail. split; [by apply pg_AnnouncePeers_run|by apply pg_ScrapeSwarm_run].
Qed.

(** With the sample graduation query, a completed announce of one client
    makes a seeder of another client that leeches from the same address and
    port, and leaves a peer that was not a leecher out of the swarm. *)
Theorem pg_graduates_by_address (s : S) (ih : InfoHash) (p q : Peer) :
  pg_inv s → peer_ok p → peer_ok q → peer_addr q = peer_addr p → peer_Port q = peer_Port p →
  pg_role (pg_table cfg s) ih p = None → pg_role (pg_table cfg s) ih q = Some false →
  let '(s', err) := GraduateLeecher cfg ih p s in
  err = None ∧ pg_role (pg_table cfg s') ih p = None ∧ pg_role (pg_table cfg s') ih q = Some true.
Proof.
  intros Hi Hp Hq Ha Hport Hrp Hrq. pose proof (GraduateLeecher_writes s ih p Hi Hp) as (He & _ & Hr).
  destruct (GraduateLeecher cfg ih p s) as [s' err]. cbn [fst snd] in *. split; [done|].
  rewrite !Hr by done. cbn [spec_wop]. rewrite Hrp, Hrq. split.
  - by rewrite decide_False by (by intros (_ & _ & _ & ?)).
  - by rewrite decide_True by done.
Qed.

End Healthy.

(** Whatever the database: an error met while the rows are read (and not
    when the query is sent) is reported by [Contains], but an announce takes it
    for an empty swarm and a scrape for no peers. *)
Theorem pg_read_errors_hidden {S : Type} {HPg : Postgres S} {HUp : UnicodeUpper} (cfg : Config)
    (s : S) (ih : InfoHash) (numWant : Z) (v : bool) (e : GoError) (fields : list bytes) :
  (∀ q args s, Query q args s = (s, Ok (MkRows fields [] (Some e)))) →
  is_Some (announce_indexes cfg fields) → down_GetQuery (cfg_Downloads cfg) = [] →
  Contains cfg ih ih s = (s, (false, Some e)) ∧
  AnnouncePeers cfg ih false numWant v s = (s, ([], Some ErrResourceDoesNotExist)) ∧
  ScrapeSwarm cfg ih s = (s, (0, 0, 0, None)).
Proof.
  intros Hq [idx Hidx] Hd. unfold Contains, AnnouncePeers, getPeers, ScrapeSwarm, countPeers.
  rewrite !Hq. cbn [r_data r_Err r_fields]. rewrite Hidx, Hd. cbn [scan_rows]. rewrite Hq. cbn [r_fields r_data].
  rewrite Hidx. cbn [scan_rows app]. split; [done|]. split; [done|]. by case_decide; rewrite ?Hq.
Qed.

(** A database that refuses the announce query (as it must that of
    src/docs/storage/postgres.md, whose positional parameters get no values from
    named arguments): every announce fails, with no peers. *)
Theorem pg_refused_announce {S : Type} {HPg : Postgres S} {HUp : UnicodeUpper} (cfg : Config)
    (s : S) (ih : InfoHash) (forSeeder v : bool) (numWant : Z) (e : GoError) :
  (∀ args, Query (ann_Query (cfg_Announce cfg)) args s = (s, Err e)) →
  AnnouncePeers cfg ih forSeeder numWant v s = (s, ([], Some e)).
Proof. intros Hq. unfold AnnouncePeers, getPeers. by destruct forSeeder; rewrite Hq. Qed.

(** ** A database that keeps the laws *)

Abbreviation pdb := (ptable * gmap bytes Z)%type.

Definition ascii_upper : UnicodeUpper := {| unicode_to_upper s := s |}.

Definition ErrSyntaxSQL : GoError := OtherError (bs "syntax error").

(** [cfg] of src/storage/pg/storage_test.go. *)
Definition test_cfg : Config :=
  MkConfig (bs "host=127.0.0.1 database=test user=postgres pool_max_conns=50") (bs "SELECT 1")
    (MkPeerQueryConf
      (bs "INSERT INTO mo_peers VALUES(@info_hash, @peer_id, @address, @port, @is_seeder, @is_v6, @created) ON CONFLICT (info_hash, peer_id, address, port) DO UPDATE SET created = EXCLUDED.created, is_seeder = EXCLUDED.is_seeder")
      (bs "DELETE FROM mo_peers WHERE info_hash=@info_hash AND peer_id=@peer_id AND address=@address AND port=@port AND is_seeder=@is_seeder")
      (bs "UPDATE mo_peers SET is_seeder=TRUE WHERE info_hash=@info_hash AND peer_id=peer_id AND address=@address AND port=@port AND NOT is_seeder")
      (bs "SELECT COUNT(1) FILTER (WHERE is_seeder) AS seeders, COUNT(1) FILTER (WHERE NOT is_seeder) AS leechers FROM mo_peers")
      (bs "seeders") (bs "leechers") (bs "WHERE info_hash = @info_hash"))
    (MkAnnounceQueryConf
      (bs "SELECT peer_id, address, port FROM mo_peers WHERE info_hash=@info_hash AND is_seeder=@is_seeder AND is_v6=@is_v6 LIMIT @count")
      (bs "peer_id") (bs "address") (bs "port"))
    (MkDownloadQueryConf
      (bs "SELECT downloads FROM mo_downloads where info_hash=@info_hash")
      (bs "INSERT INTO mo_downloads VALUES(@info_hash) ON CONFLICT(info_hash) DO UPDATE SET downloads = mo_downloads.downloads + 1"))
    (MkDataQueryConf
      (bs "INSERT INTO mo_kv VALUES(@context, @key, @value) ON CONFLICT (context, name) DO NOTHING")
      (bs "SELECT value FROM mo_kv WHERE context=@context AND name=@key")
      (bs "DELETE FROM mo_kv WHERE context=@context AND name = ANY(@key)"))
    (bs "DELETE FROM mo_peers WHERE created <= @created")
    (bs "SELECT COUNT(DISTINCT info_hash) as info_hashes FROM mo_peers").

(** What [Validate] makes of it. *)
Definition pg_cfg1 : Config :=
  MkConfig (ConnectionString test_cfg) (PingQuery test_cfg)
    (MkPeerQueryConf (peer_AddQuery (cfg_Peer test_cfg)) (peer_DelQuery (cfg_Peer test_cfg)) (GraduateQuery (cfg_Peer test_cfg))
       (CountQuery (cfg_Peer test_cfg)) (bs "SEEDERS") (bs "LEECHERS") (ByInfoHashClause (cfg_Peer test_cfg)))
    (MkAnnounceQueryConf (ann_Query (cfg_Announce test_cfg)) (bs "PEER_ID") (bs "ADDRESS") (bs "PORT"))
    (cfg_Downloads test_cfg) (cfg_Data test_cfg) (GCQuery test_cfg) (InfoHashCountQuery test_cfg).

Example test_cfg_valid : @Validate ascii_upper test_cfg = Ok pg_cfg1.
Proof. vm_compute. reflexivity. Qed.

(** A database that knows the sample queries, their arguments by name, and refuses
    every other text. *)
Fixpoint arg (n : bytes) (args : NamedArgs) : option pgarg :=
  match args with
  | [] => None
  | (m, a) :: args => if decide (m = n) then Some a else arg n args
  end.

Definition arg_bytes (n : bytes) (args : NamedArgs) : option bytes :=
  match arg n args with Some (ABytes b) => Some b | _ => None end.
Definition arg_int (n : bytes) (args : NamedArgs) : option Z :=
  match arg n args with Some (AInt i) => Some i | _ => None end.
Definition arg_bool (n : bytes) (args : NamedArgs) : option bool :=
  match arg n args with Some (ABool b) => Some b | _ => None end.
Definition arg_time (n : bytes) (args : NamedArgs) : option Z :=
  match arg n args with Some (ATime t) => Some t | _ => None end.
Definition arg_key (args : NamedArgs) : option pkey :=
  ih ← arg_bytes pInfoHash args; id ← arg_bytes pPeerID args; ip ← arg_bytes pAddress args; port ← arg_int pPort args;
  Some (ih, id, ip, port).

Definition exec_query (q : bytes) (args : NamedArgs) (s : pdb) : option pdb :=
  if decide (q = peer_AddQuery (cfg_Peer test_cfg)) then
    k ← arg_key args; b ← arg_bool pSeeder args; v ← arg_bool pV6 args; t ← arg_time pCreated args;
    Some (add_row k b v t s.1, s.2)
  else if decide (q = peer_DelQuery (cfg_Peer test_cfg)) then
    k ← arg_key args; b ← arg_bool pSeeder args;
    Some (del_row k b s.1, s.2)
  else if decide (q = GraduateQuery (cfg_Peer test_cfg)) then
    ih ← arg_bytes pInfoHash args; ip ← arg_bytes pAddress args; port ← arg_int pPort args;
    Some (graduate_rows ih ip port s.1, s.2)
  else if decide (q = IncrementQuery (cfg_Downloads test_cfg)) then
    ih ← arg_bytes pInfoHash args; Some (s.1, count_download ih s.2)
  else None.

Definition pg_exec (q : bytes) (args : NamedArgs) (s : pdb) : pdb * error :=
  match exec_query q args s with Some s' => (s', None) | None => (s, Some ErrSyntaxSQL) end.

Definition key_row (k : pkey) : list scanned := [SBytes k.1.1.2; SBytes k.1.2; SInt k.2].

Definition select_query (q : bytes) (args : NamedArgs) (s : pdb) : option (rows scanned) :=
  if decide (q = ann_Query (cfg_Announce test_cfg)) then
    ih ← arg_bytes pInfoHash args; b ← arg_bool pSeeder args; v ← arg_bool pV6 args; n ← arg_int pCount args;
    Some (MkRows [bs "peer_id"; bs "address"; bs "port"]
            (key_row <$> take (Z.to_nat n) (map_to_list (selected s.1 ih b v)).*1) None)
  else if decide (q = CountQuery (cfg_Peer test_cfg) ++ bs " " ++ ByInfoHashClause (cfg_Peer test_cfg)) then
    ih ← arg_bytes pInfoHash args;
    let counted b := Z.of_nat (size (selected s.1 ih b false)) + Z.of_nat (size (selected s.1 ih b true)) in
    Some (MkRows [bs "seeders"; bs "leechers"] [[SInt (counted true); SInt (counted false)]] None)
  else None.

Definition pg_query (q : bytes) (args : NamedArgs) (s : pdb) : pdb * result (rows scanned) :=
  (s, match select_query q args s with Some rs => Ok rs | None => Err ErrSyntaxSQL end).

Definition pg_query_row (q : bytes) (args : NamedArgs) (s : pdb) : pdb * result scanned :=
  (s, if decide (q = down_GetQuery (cfg_Downloads test_cfg)) then
        match ih ← arg_bytes pInfoHash args; Some (s.2 !! ih) with
        | Some (Some n) => Ok (SInt n)
        | Some None => Err ErrNoRows
        | None => Err ErrSyntaxSQL
        end
      else Err ErrSyntaxSQL).

Fixpoint pg_batch (l : list (bytes * NamedArgs)) (s : pdb) : pdb * error :=
  match l with
  | [] => (s, None)
  | (q, args) :: l => let '(s, e) := pg_exec q args s in match e with None => pg_batch l s | Some e => (s, Some e) end
  end.

#[local] Instance reference_pg : Postgres pdb := {|
  column := scanned;
  Exec := pg_exec;
  Query := pg_query;
  QueryRow q args t := pg_query_row q args;
  Scan row into := if decide (length row = length into) then Ok (zip_with (λ v t, (λ _, v) <$> t) row into)
                   else Err ErrSyntaxSQL;
  scan_fatal := true;
  Begin s := (s, None);
  SendBatch := pg_batch;
  Commit s := (s, None);
  Rollback s := (s, None);
|}.

#[local, refine] Instance reference_pg_spec : @PgSpec pdb reference_pg ascii_upper pg_cfg1 :=
  @Build_PgSpec pdb reference_pg ascii_upper pg_cfg1 (λ _, True) fst snd key_row _ _ _ _ _ _ _ _.
Proof.
  - split_and!; discriminate.
  - intros s ih id ip port b v t _. by eexists.
  - intros s ih id ip port b _. by eexists.
  - intros s ih id ip port _. by do 3 eexists.
  - intros s ih b v n _ Hn. exists s. eexists. exists (take (Z.to_nat n) (map_to_list (selected s.1 ih b v)).*1).
    split; [reflexivity|]. split_and!; [done..| | |].
    + apply NoDup_take, NoDup_fst_map_to_list.
    + intros k (i & Hi & _)%elem_of_take.
      apply list_elem_of_lookup_2, list_elem_of_fmap in Hi as ([k' r] & -> & Hr%elem_of_map_to_list). by eexists.
    + rewrite length_take, length_fmap, length_map_to_list. lia.
  - done.
  - intros s ih _ _ counted _ _. do 3 eexists. split; [reflexivity|]. done.
  - intros s ih _. by eexists.
Defined.

(** ** Witnesses *)

Definition ih1 : InfoHash := replicate 20 xaa.
Definition peer1 : Peer := MkPeer (replicate 20 x01) (Addr4 0x01020304) 6881.
Definition peer2 : Peer := MkPeer (replicate 20 x02) (Addr4 0x01020304) 6881.
Definition clocked1 : RedisStore.clocked pdb := RedisStore.MkClocked (∅, ∅) (λ i, Z.of_nat i) 0.

Lemma pg_peer1_ok : peer_ok peer1.
Proof. repeat split; vm_compute; congruence. Qed.
Lemma pg_peer2_ok : peer_ok peer2.
Proof. repeat split; vm_compute; congruence. Qed.
Lemma pg_empty_inv : @pg_inv pdb reference_pg ascii_upper pg_cfg1 reference_pg_spec (∅, ∅).
Proof. by split. Qed.

(** The leecher [peer2] in an otherwise empty table. *)
Definition db2 : pdb := (add_row (key_of ih1 peer2) false false 7 ∅, ∅).

Lemma db2_inv : @pg_inv pdb reference_pg ascii_upper pg_cfg1 reference_pg_spec db2.
Proof.
  split; [done|]. apply (add_row_ok ∅ ih1 peer2 false 7); [|exact pg_peer2_ok].
  intros k r Hk. by rewrite lookup_empty in Hk.
Qed.

Lemma pg_refinement_witness :
  ∃ w', @run_wops _ (@pg_PeerStorage pdb reference_pg ascii_upper pg_cfg1)
          [WPutLeecher ih1 peer1; WPutLeecher ih1 peer2; WGraduateLeecher ih1 peer1] clocked1 = Some w' ∧
    pg_role (RedisStore.ck_server w').1 ih1 peer1 = Some true ∧
    pg_role (RedisStore.ck_server w').1 ih1 peer2 = Some true.
Proof.
  destruct (@pg_refinement pdb reference_pg ascii_upper pg_cfg1 reference_pg_spec clocked1
    [WPutLeecher ih1 peer1; WPutLeecher ih1 peer2; WGraduateLeecher ih1 peer1]) as (w' & E & _ & Hr).
  - exact pg_empty_inv.
  - do 2 (apply list.Forall_cons; split; [apply pg_peer1_ok || apply pg_peer2_ok|]).
    apply list.Forall_cons; split; [apply pg_peer1_ok|apply list.Forall_nil, I].
  - exists w'. split; [exact E|]. split.
    + etransitivity; [exact (Hr ih1 peer1 pg_peer1_ok)|vm_compute; reflexivity].
    + etransitivity; [exact (Hr ih1 peer2 pg_peer2_ok)|vm_compute; reflexivity].
Defined.

Lemma db2_members b : members (@pg_table pdb reference_pg ascii_upper pg_cfg1 reference_pg_spec db2) ih1 b < 2 ^ 32.
Proof. by destruct b; vm_compute. Qed.

Lemma pg_reads_witness :
  ∃ s' ps e, @AnnouncePeers pdb reference_pg ascii_upper pg_cfg1 ih1 false 50 false db2 = (s', (ps, e)) ∧
    length ps = 1%nat ∧ NoDup ps.
Proof.
  destruct (@pg_reads pdb reference_pg ascii_upper pg_cfg1 reference_pg_spec db2 ih1 false false 50
    db2_inv (or_introl eq_refl) eq_refl db2_members) as [(s' & ps & e & E & _ & _ & Hnd & _ & Hl) _].
  exists s', ps, e. split; [exact E|]. split; [|exact Hnd].
  apply Nat2Z.inj. etransitivity; [exact Hl|vm_compute; reflexivity].
Defined.

Lemma pg_graduates_by_address_witness :
  let '(s', err) := @GraduateLeecher pdb reference_pg pg_cfg1 ih1 peer1 db2 in
  err = None ∧ pg_role s'.1 ih1 peer1 = None ∧ pg_role s'.1 ih1 peer2 = Some true.
Proof.
  apply (@pg_graduates_by_address pdb reference_pg ascii_upper pg_cfg1 reference_pg_spec db2 ih1 peer1 peer2
    db2_inv pg_peer1_ok pg_peer2_ok eq_refl eq_refl); vm_compute; reflexivity.
Defined.

(** The announce query of src/docs/storage/postgres.md. *)
Definition documented_announce_query : bytes :=
  bs "SELECT peer_id, address, port FROM mo_peers WHERE info_hash=$1 AND is_seeder=$2 AND is_v6=$3 LIMIT $4".

Definition documented_cfg : Config :=
  MkConfig (ConnectionString pg_cfg1) (PingQuery pg_cfg1) (cfg_Peer pg_cfg1)
    (MkAnnounceQueryConf documented_announce_query (bs "PEER_ID") (bs "ADDRESS") (bs "PORT"))
    (cfg_Downloads pg_cfg1) (cfg_Data pg_cfg1) (GCQuery pg_cfg1) (InfoHashCountQuery pg_cfg1).

Lemma pg_refused_announce_witness :
  @AnnouncePeers pdb reference_pg ascii_upper documented_cfg ih1 false 50 false db2 = (db2, ([], Some ErrSyntaxSQL)).
Proof. apply (@pg_refused_announce pdb reference_pg ascii_upper documented_cfg db2). intros args. reflexivity. Defined.

(** A database whose rows all fail to be read. *)
Definition failing_pg : Postgres pdb := {|
  column := scanned;
  Exec _ _ s := (s, None);
  Query _ _ s := (s, Ok (MkRows [bs "PEER_ID"; bs "ADDRESS"; bs "PORT"] [] (Some ErrSyntaxSQL)));
  QueryRow _ _ _ s := (s, Err ErrNoRows);
  Scan _ _ := Err ErrSyntaxSQL;
  scan_fatal := true;
  Begin s := (s, None);
  SendBatch _ s := (s, None);
  Commit s := (s, None);
  Rollback s := (s, None);
|}.
Definition pg_cfg2 : Config :=
  MkConfig (ConnectionString pg_cfg1) (PingQuery pg_cfg1) (cfg_Peer pg_cfg1) (cfg_Announce pg_cfg1)
    (MkDownloadQueryConf [] (bs "inc")) (cfg_Data pg_cfg1) [] [].

Lemma pg_read_errors_hidden_witness :
  @AnnouncePeers pdb failing_pg ascii_upper pg_cfg2 ih1 false 50 false (∅, ∅) =
    ((∅, ∅), ([], Some ErrResourceDoesNotExist)).
Proof.
  apply (@pg_read_errors_hidden pdb failing_pg ascii_upper pg_cfg2 (∅, ∅) ih1 50 false ErrSyntaxSQL
    [bs "PEER_ID"; bs "ADDRESS"; bs "PORT"]).
  - intros q args s. reflexivity.
  - exists (0, 1, 2)%nat. vm_compute. reflexivity.
  - reflexivity.
Defined.

End PgFacts.
