(* ===== verification/Frontend.v ===== *)
(** * Package [frontend]: what the frontends share

    The options of src/frontend/options.go, the registry and the group shutdown
    of src/frontend/frontend.go. *)

From S2P Require Import Prelude GoStd.

Local Open Scope Z_scope.

(** ** Options *)

Record ListenOptions := MkListenOptions {
  lo_Addr : bytes;
  lo_ReusePort : bool;
  lo_Workers : Z;               (* uint *)
  lo_EnableRequestTiming : bool;
}.

Definition DefaultListenAddress : bytes := bs ":6969".

Definition ListenOptions_Validate (lo : ListenOptions) : ListenOptions :=
  if decide (lo_Addr lo = []) then
    MkListenOptions DefaultListenAddress (lo_ReusePort lo) (lo_Workers lo) (lo_EnableRequestTiming lo)
  else lo.

Record ParseOptions := MkParseOptions {
  AllowIPSpoofing : bool;
  FilterPrivateIPs : bool;
  MaxNumWant : Z;               (* uint32 *)
  DefaultNumWant : Z;
  MaxScrapeInfoHashes : Z;
}.

Definition defaultMaxNumWant : Z := 100.
Definition defaultDefaultNumWant : Z := 50.
Definition defaultMaxScrapeInfoHashes : Z := 50.

Definition ParseOptions_Validate (op : ParseOptions) : ParseOptions :=
  let or_default d v := if v <=? 0 then d else v in
  MkParseOptions (AllowIPSpoofing op) (FilterPrivateIPs op)
    (or_default defaultMaxNumWant (MaxNumWant op))
    (or_default defaultDefaultNumWant (DefaultNumWant op))
    (or_default defaultMaxScrapeInfoHashes (MaxScrapeInfoHashes op)).

(** Validated limits are positive, and validating them again changes nothing. *)
Lemma ParseOptions_Validate_pos op :
  let po := ParseOptions_Validate op in
  0 < MaxNumWant po ∧ 0 < DefaultNumWant po ∧ 0 < MaxScrapeInfoHashes po.
Proof.
  assert (∀ d v, 0 < d → 0 < if v <=? 0 then d else v) as Hd
    by (intros d v ?; destruct (Z.leb_spec v 0); lia).
  by repeat split; apply Hd.
Qed.

Lemma ParseOptions_Validate_idemp op :
  ParseOptions_Validate (ParseOptions_Validate op) = ParseOptions_Validate op.
Proof.
  destruct (ParseOptions_Validate_pos op) as (H1 & H2 & H3).
  unfold ParseOptions_Validate at 1. by rewrite !(proj2 (Z.leb_gt _ _)).
Qed.

(** ** Listening

    The reuseport package and [net] as far as the code uses them: resolving an
    address and opening a socket, for TCP or UDP.  [reuse_Listen] gives a value of
    an interface type, which is a socket of the type asked for or not. *)

Definition errUnexpectedListenerType : GoError := OtherError (bs "unexpected listener type").

Record Net (Conn : Type) := MkNet {
  reuse_Available : bool;
  reuse_Listen : bytes → result (option Conn);   (* [None]: of another type *)
  ResolvedAddr : Type;
  Resolve : bytes → result ResolvedAddr;
  net_Listen : ResolvedAddr → result Conn;
}.
Arguments reuse_Available {Conn}.
Arguments reuse_Listen {Conn}.
Arguments ResolvedAddr {Conn}.
Arguments Resolve {Conn}.
Arguments net_Listen {Conn}.

Section Listen.
Context {Conn : Type} (N : Net Conn).

(** [ListenTCP] and [ListenUDP]: the same function over TCP or UDP. *)
Definition Listen (lo : ListenOptions) : result Conn :=
  if lo_ReusePort lo && reuse_Available N then
    ln ← reuse_Listen N (lo_Addr lo);
    match ln with Some conn => Ok conn | None => Err errUnexpectedListenerType end
  else
    addr ← Resolve N (lo_Addr lo);
    net_Listen N addr.
End Listen.

Definition ListenTCP {TCPListener : Type} (tcp : Net TCPListener) : ListenOptions → result TCPListener := Listen tcp.
Definition ListenUDP {UDPConn : Type} (udp : Net UDPConn) : ListenOptions → result UDPConn := Listen udp.

(** ** Errors shown to a client *)

Definition internal_error : bytes := bs "mochi internal error".

(** What a client is told: its own errors only. *)
Definition error_message (err : GoError) : bytes :=
  match err with ClientError msg => msg | _ => internal_error end.

(** ** The registry *)

Section Registry.
Context {MapConfig Frontend : Type}.

Definition Builder : Type := MapConfig → result Frontend.

(** [None] is a panic. *)
Definition RegisterBuilder (name : bytes) (b : option Builder) : M (gmap bytes Builder) () := λ builders,
  if decide (name = []) then None
  else match b with
       | None => None
       | Some b =>
           match builders !! name with
           | Some _ => None
           | None => Some (<[name := b]> builders, ())
           end
       end.

Definition ErrNoFrontend (name : bytes) : GoError :=
  OtherError (bs "hook with name '" ++ name ++ bs "' does not exists").

Fixpoint NewFrontends (builders : gmap bytes Builder) (configs : list (bytes * MapConfig))
    (fs : list Frontend) : list Frontend * error :=
  match configs with
  | [] => (fs, None)
  | (name, c) :: configs =>
      match builders !! name with
      | None => (fs, Some (ErrNoFrontend name))
      | Some newFrontend =>
          match newFrontend c with
          | Err e => (fs, Some e)
          | Ok f => NewFrontends builders configs (fs ++ [f])
          end
      end
  end.

End Registry.

(** ** Closing a group

    [CloseGroup] starts a goroutine for each element that is not nil; each
    closes its element, notes the error under its index and decrements the
    wait group, which the caller waits for. *)

(** The wait group's counter, the goroutines that have not finished (index and
    what [Close] returns), and the errors noted. *)
Record group := MkGroup {
  g_counter : Z;
  g_running : list (nat * error);
  g_errs : gmap nat GoError;
}.

(** An element: [None] is nil, [Some e] returns [e] from [Close]. *)
Definition start_group (cls : list (option error)) : group :=
  MkGroup (Z.of_nat (length cls)) (omap (λ '(i, c), pair i <$> c) (zip (seq 0 (length cls)) cls)) ∅.

Inductive group_step : group → group → Prop :=
  | group_done n rs1 i e rs2 errs :
      group_step (MkGroup n (rs1 ++ (i, e) :: rs2) errs)
                 (MkGroup (n - 1) (rs1 ++ rs2) (match e with Some e => <[i := e]> errs | None => errs end)).

(** [wg.Wait] returns. *)
Definition wait_returns (g : group) : Prop := g_counter g = 0.

(** The error [CloseGroup] makes of the errors noted. *)
Definition group_error (l : nat) (errs : gmap nat GoError) : error :=
  let sb := concat (omap (λ i, (λ e, Error_msg e ++ bs "; ") <$> errs !! i) (seq 0 l)) in
  if decide (sb = []) then None else Some (OtherError sb).

(** ** Facts *)

Definition nils (cls : list (option error)) : Z := Z.of_nat (length (filter (λ c, c = None) cls)).

Lemma start_running_length cls k :
  Z.of_nat (length (omap (λ '(i, c), pair i <$> c) (zip (seq k (length cls)) cls))) + nils cls =
    Z.of_nat (length cls).
Proof.
  revert k. induction cls as [|c cls IH]; intros k; [done|]. cbn [length seq zip omap list_omap zip_with].
  unfold nils. rewrite list.filter_cons. specialize (IH (S k)). unfold nils in IH.
  destruct c as [e|]; cbn [fmap option_fmap option_map]; case_decide; try done; cbn [length]; lia.
Qed.

Lemma group_counter cls g : rtc group_step (start_group cls) g →
  g_counter g = Z.of_nat (length (g_running g)) + nils cls.
Proof.
  intros H. assert (g_counter (start_group cls) = Z.of_nat (length (g_running (start_group cls))) + nils cls) as H0.
  { unfold start_group. cbn [g_counter g_running]. by rewrite start_running_length. }
  induction H as [|x y z Hxy _ IH]; [done|]. apply IH. destruct Hxy. cbn [g_counter g_running] in *.
  rewrite length_app in *. cbn [length] in H0. lia.
Qed.

(** The error of an element's [Close], if there is an element and an error. *)
Definition close_error (cls : list (option error)) (i : nat) : error := mjoin (mjoin (cls !! i)).

(** The elements still to be closed, and the errors noted: those of the others. *)
Record errs_inv (cls : list (option error)) (g : group) : Prop := {
  ei_distinct : NoDup (g_running g).*1;
  ei_running i e : (i, e) ∈ g_running g → cls !! i = Some (Some e) ∧ g_errs g !! i = None;
  ei_closed i : i ∉ (g_running g).*1 → g_errs g !! i = close_error cls i;
}.

Lemma elem_of_running (cls : list (option error)) k i e :
  (i, e) ∈ omap (λ '(i, c), pair i <$> c) (zip (seq k (length cls)) cls) ↔ (k ≤ i)%nat ∧ cls !! (i - k)%nat = Some (Some e).
Proof.
  revert k. induction cls as [|c cls IH]; intros k; cbn [length seq zip omap list_omap zip_with].
  { split; [by intros ?%elem_of_nil|by intros [_ ?]]. }
  assert ((i, e) ∈ omap (λ '(i, c), pair i <$> c) (zip (seq (S k) (length cls)) cls) ↔
    (S k ≤ i)%nat ∧ (c :: cls) !! (i - k)%nat = Some (Some e)) as IH'.
  { rewrite IH. split; intros [H1 H2]; (split; [done|]); replace (i - k)%nat with (S (i - S k)) in * by lia; done. }
  assert (c = Some e ∧ i = k ∨ (S k ≤ i)%nat ∧ (c :: cls) !! (i - k)%nat = Some (Some e) ↔
    (k ≤ i)%nat ∧ (c :: cls) !! (i - k)%nat = Some (Some e)) as <-.
  { destruct (decide (i = k)) as [->|].
    - rewrite Nat.sub_diag. cbn. split; [|intros [_ [= ->]]; by left]. intros [[-> _]|[? _]]; [done|lia].
    - split; [intros [[_ ?]|[? ?]]; [done|split; [lia|done]]|intros [? ?]; right; split; [lia|done]]. }
  destruct c as [e'|]; cbn [fmap option_fmap option_map]; rewrite ?list.elem_of_cons, IH'; naive_solver.
Qed.

Lemma running_distinct (cls : list (option error)) k : NoDup (omap (λ '(i, c), pair i <$> c) (zip (seq k (length cls)) cls)).*1.
Proof.
  revert k. induction cls as [|[e|] cls IH]; intros k; cbn [length seq zip omap list_omap zip_with fmap option_fmap option_map];
    [constructor| |done].
  cbn [fmap list_fmap fst]. apply list.NoDup_cons. split; [|done].
  intros ([i' e'] & -> & Hi%elem_of_running)%list_elem_of_fmap. cbn [fst] in Hi. lia.
Qed.

Lemma group_errs cls g : rtc group_step (start_group cls) g → errs_inv cls g.
Proof.
  intros H. assert (errs_inv cls (start_group cls)) as H0.
  { unfold start_group. split; cbn [g_running g_errs].
    - apply running_distinct.
    - intros i e [_ Hi]%elem_of_running. by rewrite Nat.sub_0_r in Hi.
    - intros i Hi. rewrite lookup_empty. unfold close_error. destruct (cls !! i) as [[[e|]|]|] eqn:Ei; try done.
      exfalso. apply Hi, (list_elem_of_fmap_2' fst _ (i, Some e)); [|done]. apply elem_of_running.
      rewrite Nat.sub_0_r. split; [lia|done]. }
  induction H as [|x y z Hxy _ IH]; [done|]. apply IH. clear IH. destruct Hxy as [n rs1 i e rs2 errs].
  destruct H0 as [Hnd Hr Hc]. cbn [g_running g_errs] in *.
  rewrite fmap_app, fmap_cons in Hnd. cbn [fst] in Hnd.
  apply list.NoDup_app in Hnd as (Hnd1 & Hnd12 & [Hi2 Hnd2]%list.NoDup_cons).
  destruct (Hr i e) as [Hcl Herr]; [apply elem_of_app; right; apply list.elem_of_cons; by left|].
  set (errs' := match e with Some _ => _ | None => _ end).
  assert (errs' !! i = e) as Hei by (unfold errs'; destruct e; [by rewrite lookup_insert_eq|done]).
  assert (∀ j, j ≠ i → errs' !! j = errs !! j) as Hej
    by (intros j Hj; unfold errs'; destruct e; [by rewrite lookup_insert_ne|done]).
  assert (i ∉ rs1.*1) as Hi1 by (intros Hi; apply (Hnd12 i Hi), list.elem_of_cons; by left).
  split; cbn [g_running g_errs].
  - rewrite fmap_app. apply list.NoDup_app. split; [done|]. split; [|done].
    intros j Hj Hj2. apply (Hnd12 j Hj), list.elem_of_cons. by right.
  - intros j e' Hj. assert (j ≠ i) as Hji.
    { intros ->. apply elem_of_app in Hj as [Hj|Hj]; [apply Hi1|apply Hi2]; by apply (list_elem_of_fmap_2' fst _ (i, e')). }
    rewrite Hej by done. apply Hr. apply elem_of_app in Hj as [Hj|Hj]; apply elem_of_app; [by left|].
    right. apply list.elem_of_cons. by right.
  - intros j Hj. destruct (decide (j = i)) as [->|Hji].
    { rewrite Hei. unfold close_error. by rewrite Hcl. }
    rewrite Hej by done. apply Hc. intros Hin. apply Hj. rewrite fmap_app in *. cbn [fmap list_fmap fst] in Hin.
    apply elem_of_app in Hin as [Hin|[->|Hin]%list.elem_of_cons]; [|done|]; apply elem_of_app; [by left|by right].
Qed.

(** The errors in the order of the elements. *)
Definition noted (l : nat) (errs : gmap nat GoError) : list GoError := omap (λ i, errs !! i) (seq 0 l).

(** However the goroutines interleave, once all have finished the errors noted
    are those of the elements, in their order. *)
Lemma group_noted cls g :
  rtc group_step (start_group cls) g → g_running g = [] → noted (length cls) (g_errs g) = omap mjoin cls.
Proof.
  intros [_ _ Hc]%group_errs Hr. rewrite Hr in Hc.
  assert (∀ i, g_errs g !! i = close_error cls i) as He by (intros i; apply Hc, not_elem_of_nil).
  unfold noted. assert (∀ l k (m : gmap nat GoError), (∀ i, m !! (k + i)%nat = mjoin (mjoin (l !! i))) →
    omap (λ i, m !! i) (seq k (length l)) = omap mjoin l) as Hgen.
  { clear. induction l as [|c l IH]; intros k m Hm; [done|]. cbn [length seq omap list_omap].
    pose proof (Hm 0%nat) as H0. rewrite Nat.add_0_r in H0. rewrite H0. cbn [lookup list_lookup mjoin option_join].
    rewrite (IH (S k) m) by (intros i; replace (S k + i)%nat with (k + S i)%nat by lia; apply (Hm (S i))).
    by destruct c as [[e|]|]. }
  apply Hgen. intros i. apply He.
Qed.

(** ** Properties *)

(** [CloseGroup] waits for as many goroutines as there are elements but
    starts one only for those that are not nil: with a nil element it never
    returns; without one, the goroutines can always go on until the wait
    returns, which it does exactly when they have all finished. *)
Theorem CloseGroup_returns_iff_no_nil (cls : list (option error)) (g : group) :
  rtc group_step (start_group cls) g →
  (None ∈ cls → ¬ wait_returns g) ∧
  (None ∉ cls → (wait_returns g ↔ g_running g = []) ∧ (¬ wait_returns g → ∃ g', group_step g g')).
Proof.
  intros H. apply group_counter in H. unfold wait_returns.
  assert (None ∈ cls ↔ 0 < nils cls) as Hn.
  { unfold nils. split.
    - intros Hin. assert (None ∈ filter (λ c : option error, c = None) cls) as Hf
        by by apply list_elem_of_filter.
      destruct (filter _ cls); [by apply elem_of_nil in Hf|cbn [length]; lia].
    - intros Hl. destruct (filter _ cls) as [|c l] eqn:E; [cbn [length] in Hl; lia|].
      assert (c ∈ filter (λ c : option error, c = None) cls) as Hf
        by (rewrite E; apply list.elem_of_cons; by left).
      by apply list_elem_of_filter in Hf as [-> ?]. }
  split; [intros Hin%Hn; lia|]. intros Hnin.
  assert (nils cls = 0) as E by (unfold nils in *; rewrite Hn in Hnin; lia). rewrite E in H.
  split.
  - rewrite H. split; [|intros ->; done]. intros Hl. apply nil_length_inv. lia.
  - intros Hne. destruct g as [n [|[i e] rs] errs]; cbn [g_counter g_running] in *; [by destruct Hne|].
    eexists. apply (group_done n [] i e rs errs).
Qed.

Lemma CloseGroup_returns_iff_no_nil_witness :
  ¬ wait_returns (start_group [Some None; None]) ∧
  wait_returns (MkGroup 0 [] ∅).
Proof.
  split.
  - apply (CloseGroup_returns_iff_no_nil [Some None; None] _ (rtc_refl _ _)).
    apply list.elem_of_cons. right. by apply list_elem_of_singleton.
  - assert (rtc group_step (start_group [Some None]) (MkGroup 0 [] ∅)) as H.
    { eapply rtc_l; [|apply rtc_refl]. apply (group_done 1 [] 0%nat None [] ∅). }
    apply (CloseGroup_returns_iff_no_nil [Some None] _ H); [|done].
    intros Hin%list_elem_of_singleton. discriminate.
Defined.
