(* ===== verification/Metrics.v ===== *)
(** * Metrics

    The metrics server's lifecycle and the address families of
    src/pkg/metrics/server.go, and the labels under which
    src/frontend/udp/prometheus.go and src/frontend/http/prometheus.go record
    how long a request took.  The prometheus library is left out. *)

From S2P Require Import Prelude GoStd Netip Frontend.

Local Open Scope Z_scope.

Module Metrics.

Definition AddressFamily (ip : Addr) : bytes :=
  if Is4 ip || Is4In6 ip then bs "IPv4" else if Is6 ip then bs "IPv6" else bs "<unknown>".

(** ** The servers *)

(** The goroutine of a server: not begun, serving, ended. *)
Inductive serving := NotBegun | Serving | Ended.

Record metrics := MkMetrics {
  serverCounter : Z;             (* int32 *)
  servers : list serving;
}.

Definition Enabled (m : metrics) : bool := 0 <? serverCounter m.

Inductive step : metrics → metrics → Prop :=
  (* [NewServer] *)
  | step_new m : step m (MkMetrics (serverCounter m) (servers m ++ [NotBegun]))
  | step_begin m i :
      servers m !! i = Some NotBegun →
      step m (MkMetrics (iwrap 32 (serverCounter m + 1)) (<[i := Serving]> (servers m)))
  (* [ListenAndServe] returns *)
  | step_end m i :
      servers m !! i = Some Serving →
      step m (MkMetrics (iwrap 32 (serverCounter m - 1)) (<[i := Ended]> (servers m))).

Definition is_serving (s : serving) : nat := match s with Serving => 1 | _ => 0 end.

Lemma serving_insert l i s s' :
  l !! i = Some s →
  (sum_list_with is_serving (<[i := s']> l) + is_serving s = sum_list_with is_serving l + is_serving s')%nat.
Proof.
  intros (l1 & l2 & -> & ->)%list_elem_of_split_length.
  rewrite insert_app_r_alt, Nat.sub_diag by done. cbn [insert list_insert].
  rewrite !sum_list_with_app. cbn [sum_list_with]. lia.
Qed.

(** The counter is the number of serving goroutines, in 32 bits. *)
Lemma counter_exact m :
  rtc step (MkMetrics 0 []) m → serverCounter m = iwrap 32 (Z.of_nat (sum_list_with is_serving (servers m))).
Proof.
  assert (∀ a b, iwrap 32 (iwrap 32 a + b) = iwrap 32 (a + b)) as Hw.
  { intros a b. unfold iwrap, wrap. rewrite <-(Zplus_mod_idemp_l (a + b)).
    replace ((a + 2 ^ (32 - 1)) mod 2 ^ 32 - 2 ^ (32 - 1) + b + 2 ^ (32 - 1)) with ((a + 2 ^ (32 - 1)) mod 2 ^ 32 + b) by lia.
    rewrite Zplus_mod_idemp_l. rewrite Zplus_mod_idemp_l. do 2 f_equal. lia. }
  intros H. assert (serverCounter (MkMetrics 0 []) = iwrap 32 (Z.of_nat (sum_list_with is_serving (servers (MkMetrics 0 [])))))
    as H0 by reflexivity.
  induction H as [|x y z Hxy _ IH]; [done|]. apply IH. clear IH.
  destruct Hxy as [m|m i Hi|m i Hi]; cbn [serverCounter servers]; rewrite H0.
  - rewrite sum_list_with_app. cbn. by rewrite Nat.add_0_r.
  - rewrite Hw. pose proof (serving_insert _ _ _ Serving Hi) as E. cbn [is_serving] in E. f_equal. lia.
  - replace (iwrap 32 (Z.of_nat (sum_list_with is_serving (servers m))) - 1) with
      (iwrap 32 (Z.of_nat (sum_list_with is_serving (servers m))) + -1) by lia.
    rewrite Hw. pose proof (serving_insert _ _ _ Ended Hi) as E. cbn [is_serving] in E. f_equal. lia.
Qed.

Lemma Enabled_serving m :
  rtc step (MkMetrics 0 []) m → Z.of_nat (length (servers m)) < 2 ^ 31 →
  Enabled m = true ↔ (0 < sum_list_with is_serving (servers m))%nat.
Proof.
  intros H%counter_exact Hl. unfold Enabled. rewrite H.
  assert (sum_list_with is_serving (servers m) ≤ length (servers m))%nat as Hs.
  { clear. induction (servers m) as [|s l IH]; [done|]. cbn [sum_list_with length]. destruct s; cbn [is_serving]; lia. }
  rewrite iwrap_small by (try split; lia). rewrite Z.ltb_lt. lia.
Qed.

(** ** Labels *)

(** The action, the family of the client's address, and the error: the message
    of a client's error, or that there was an internal one. *)
Definition recordResponseDuration (action : bytes) (addr : Addr) (err : error) : bytes * bytes * bytes :=
  (action, AddressFamily addr,
   match err with
   | Some (ClientError msg) => msg
   | Some _ => bs "internal error"
   | None => []
   end).
End Metrics.
