(* ===== verification/Hooks.v ===== *)
(** * Package [middleware]: hooks and the tracker's logic

    The two built-in hooks over a peer storage (src/middleware/hooks.go), the
    chains of hooks that answer a request and act after it
    (src/middleware/logic.go) and the registry of hook builders
    (src/middleware/middleware.go).  The theorems are proved against the
    interface [StorageSpec]: they hold of every storage that keeps it. *)

From S2P Require Import Prelude GoStd Netip Bittorrent Storage.

Local Open Scope Z_scope.

(** ** The interface

    A hook is given the request and the response by pointer: it returns them
    with its changes, next to the context ([None] is a nil context) and the
    error. *)
Definition hook_fn (S Req Resp : Type) : Type :=
  option Context → Req → Resp → M S (option Context * error * Req * Resp).

Record Hook (S : Type) := MkHook {
  HandleAnnounce : hook_fn S AnnounceRequest AnnounceResponse;
  HandleScrape : hook_fn S ScrapeRequest ScrapeResponse;
  (* a hook may be a Pinger *)
  hook_Ping : option (option Context → M S error);
}.
Arguments MkHook {S}.
Arguments HandleAnnounce {S}.
Arguments HandleScrape {S}.
Arguments hook_Ping {S}.

(** A method of a nil context panics. *)
Definition ctx_value {S A} (ctx : option Context) (f : Context → A) : M S A :=
  match ctx with Some c => mret (f c) | None => panic end.

Definition is_v2 (ih : InfoHash) : bool := bool_decide (length ih = InfoHashV2Len).

(** An error other than [ErrResourceDoesNotExist]. *)
Definition serious (e : error) : bool := bool_decide (e ≠ None ∧ e ≠ Some ErrResourceDoesNotExist).

(** A goroutine started after the response. *)
Inductive task :=
  | AfterAnnounceTask (ctx : Context) (req : AnnounceRequest) (resp : AnnounceResponse)
  | AfterScrapeTask (ctx : Context) (req : ScrapeRequest) (resp : ScrapeResponse).

Section Hooks.
Context {S : Type} `{PeerStorage S}.

(** ** The swarm interaction hook *)

Definition stop_fn (hash : InfoHash) (peer : Peer) : M S error :=
  err ← DeleteSeeder hash peer;
  if serious err then mret err
  else
    err ← DeleteLeecher hash peer;
    if serious err then mret err else mret None.

Definition storeFn (req : AnnounceRequest) : InfoHash → Peer → M S error :=
  if decide (ar_Event req = Stopped) then stop_fn
  else if decide (ar_Event req = Completed) then GraduateLeecher
  else if ar_Left req =? 0 then PutSeeder
  else PutLeecher.

(** The loop over the peers; a v2 info hash counts for its truncated form too. *)
Fixpoint interact (f : InfoHash → Peer → M S error) (ih : InfoHash) (peers : list Peer) : M S error :=
  match peers with
  | [] => mret None
  | p :: peers =>
      err ← f ih p;
      err ← (if bool_decide (err = None) && is_v2 ih then f (TruncateV1 ih) p else mret err);
      match err with None => interact f ih peers | Some e => mret (Some e) end
  end.

Definition swarmInteraction_announce : hook_fn S AnnounceRequest AnnounceResponse := λ ctx req resp,
  skip ← ctx_value ctx ctx_skip_swarm;
  if (skip : bool) then mret (ctx, None, req, resp)
  else
    err ← interact (storeFn req) (ar_InfoHash req) (Peers (ar_RequestPeer req));
    mret (ctx, err, req, resp).

Definition swarmInteraction_scrape : hook_fn S ScrapeRequest ScrapeResponse := λ ctx req resp,
  mret (ctx, None, req, resp).

Definition swarmInteractionHook : Hook S :=
  MkHook swarmInteraction_announce swarmInteraction_scrape None.

(** ** The response hook *)

(** Leechers, seeders and snatches; of both forms of a v2 info hash. *)
Definition scrape (ih : InfoHash) : M S (Z * Z * Z * error) :=
  '(leechers, seeders, snatched, err) ← ScrapeSwarm ih;
  if bool_decide (err ≠ None) then mret (leechers, seeders, snatched, err)
  else if is_v2 ih then
    '(l, s, n, err) ← ScrapeSwarm (TruncateV1 ih);
    if bool_decide (err ≠ None) then mret (leechers, seeders, snatched, err)
    else mret (wrap 32 (leechers + l), wrap 32 (seeders + s), wrap 32 (snatched + n), None)
  else mret (leechers, seeders, snatched, None).

(** The fetches of [appendPeers] until [maxPeers] is reached. *)
Fixpoint fetch (args : list (InfoHash * bool)) (seeding : bool) (maxPeers : Z) (peers : list Peer)
    : M S (list Peer * error) :=
  match args with
  | [] => mret (peers, None)
  | (ih, v6) :: args =>
      if maxPeers <=? 0 then mret (peers, None)
      else
        '(storePeers, err) ← AnnouncePeers ih seeding maxPeers v6;
        if serious err then mret (peers, err)
        else fetch args seeding (maxPeers - Z.of_nat (length storePeers)) (peers ++ storePeers)
  end.

(** The last loop: the peers of each family, the first of equal ones. *)
Fixpoint split_peers (peers : list Peer) (uniquePeers : gset Peer) : list Peer * list Peer :=
  match peers with
  | [] => ([], [])
  | p :: peers =>
      if decide (p ∈ uniquePeers) then split_peers peers uniquePeers
      else if Is6 (Peer_Addr p) then
        let '(v4, v6) := split_peers peers ({[p]} ∪ uniquePeers) in (v4, p :: v6)
      else if Is4 (Peer_Addr p) then
        let '(v4, v6) := split_peers peers ({[p]} ∪ uniquePeers) in (p :: v4, v6)
      else split_peers peers uniquePeers
  end.

Definition fetch_args (ih : InfoHash) (v6First : bool) : list (InfoHash * bool) :=
  [(ih, v6First); (ih, negb v6First)] ++
  (if is_v2 ih then [(TruncateV1 ih, v6First); (TruncateV1 ih, negb v6First)] else []).

Definition resp_with_counts (l s : Z) (resp : AnnounceResponse) : AnnounceResponse :=
  MkAnnounceResponse s l (resp_Interval resp) (resp_MinInterval resp) (resp_IPv4Peers resp) (resp_IPv6Peers resp).

Definition resp_with_peers (v4 v6 : list Peer) (resp : AnnounceResponse) : AnnounceResponse :=
  MkAnnounceResponse (resp_Complete resp) (resp_Incomplete resp) (resp_Interval resp)
    (resp_MinInterval resp) v4 v6.

(** The end of [appendPeers], from the peers found: a client alone gets itself. *)
Definition finish (req : AnnounceRequest) (resp : AnnounceResponse) (peers : list Peer) : AnnounceResponse :=
  let seeding := ar_Left req =? 0 in
  let '(resp, peers) :=
    if decide (peers = []) then
      (if seeding then resp_with_counts (resp_Incomplete resp) (wrap 32 (resp_Complete resp + 1)) resp
       else resp_with_counts (wrap 32 (resp_Incomplete resp + 1)) (resp_Complete resp) resp,
       peers ++ Peers (ar_RequestPeer req))
    else (resp, peers) in
  let '(v4, v6) := split_peers peers ∅ in
  resp_with_peers v4 v6 resp.

Definition appendPeers (req : AnnounceRequest) (resp : AnnounceResponse) : M S (AnnounceResponse * error) :=
  let seeding := ar_Left req =? 0 in
  let maxPeers := ar_NumWant req in
  let v6First := Is6 (GetFirst (ar_Addresses req)) in
  let args := fetch_args (ar_InfoHash req) v6First in
  let peers := if v6First then resp_IPv6Peers resp ++ resp_IPv4Peers resp
               else resp_IPv4Peers resp ++ resp_IPv6Peers resp in
  let l := Z.of_nat (length peers) in
  let '(peers, maxPeers) :=
    if l >? maxPeers then (take (Z.to_nat maxPeers) peers, 0) else (peers, maxPeers - l) in
  '(peers, err) ← fetch args seeding maxPeers peers;
  if bool_decide (err ≠ None) then mret (resp, err) else mret (finish req resp peers, None).

Definition response_announce : hook_fn S AnnounceRequest AnnounceResponse := λ ctx req resp,
  skip ← ctx_value ctx ctx_skip_response;
  if (skip : bool) then mret (ctx, None, req, resp)
  else
    '(l, s, _, err) ← scrape (ar_InfoHash req);
    let resp := resp_with_counts l s resp in
    if bool_decide (err ≠ None) then mret (None, err, req, resp)
    else
      '(resp, err) ← appendPeers req resp;
      mret (ctx, err, req, resp).

Fixpoint scrape_all (infoHashes : list InfoHash) (data : ScrapeResponse) : M S (ScrapeResponse * error) :=
  match infoHashes with
  | [] => mret (data, None)
  | infoHash :: rest =>
      '(l, s, n, err) ← scrape infoHash;
      if bool_decide (err ≠ None) then mret (data, err)
      else scrape_all rest (data ++ [MkScrape infoHash n s l])
  end.

Definition response_scrape : hook_fn S ScrapeRequest ScrapeResponse := λ ctx req resp,
  skip ← ctx_value ctx ctx_skip_response;
  if (skip : bool) then mret (ctx, None, req, resp)
  else
    '(data, err) ← scrape_all (sr_InfoHashes req) resp;
    mret (if bool_decide (err ≠ None) then None else ctx, err, req, data).

Definition responseHook : Hook S :=
  MkHook response_announce response_scrape (Some (λ _, Ping)).

(** ** The logic *)

Record Logic := MkLogic {
  announceInterval : Z;
  minAnnounceInterval : Z;
  preHooks : list (Hook S);
  postHooks : list (Hook S);
  pingers : list (option Context → M S error);
}.

Definition NewLogic (annInterval minAnnInterval : Z) (preHooks postHooks : list (Hook S)) : Logic :=
  let pre := preHooks ++ [responseHook] in
  MkLogic annInterval minAnnInterval pre (postHooks ++ [swarmInteractionHook]) (omap hook_Ping pre).

(** A chain of hooks, up to the first error. *)
Fixpoint run_hooks {Req Resp} (hs : list (hook_fn S Req Resp)) (ctx : option Context) (req : Req) (resp : Resp)
    : M S (option Context * error * Req * Resp) :=
  match hs with
  | [] => mret (ctx, None, req, resp)
  | h :: hs =>
      '(ctx, err, req, resp) ← h ctx req resp;
      match err with
      | Some e => mret (ctx, Some e, req, resp)
      | None => run_hooks hs ctx req resp
      end
  end.

(** The context, the response and the error that the frontend gets; the request
    as the hooks left it. *)
Definition Logic_HandleAnnounce (l : Logic) (ctx : option Context) (req : AnnounceRequest)
    : M S (option Context * option AnnounceResponse * error * AnnounceRequest) :=
  let resp := MkAnnounceResponse 0 0 (announceInterval l) (minAnnounceInterval l) [] [] in
  '(ctx, err, req, resp) ← run_hooks (HandleAnnounce <$> preHooks l) ctx req resp;
  match err with
  | Some e => mret (None, None, Some e, req)
  | None => mret (ctx, Some resp, None, req)
  end.

Definition AfterAnnounce (l : Logic) (ctx : option Context) (req : AnnounceRequest)
    (resp : AnnounceResponse) : M S () :=
  _ ← run_hooks (HandleAnnounce <$> postHooks l) ctx req resp; mret ().

Definition Logic_HandleScrape (l : Logic) (ctx : option Context) (req : ScrapeRequest)
    : M S (option Context * option ScrapeResponse * error * ScrapeRequest) :=
  '(ctx, err, req, resp) ← run_hooks (HandleScrape <$> preHooks l) ctx req [];
  match err with
  | Some e => mret (None, None, Some e, req)
  | None => mret (ctx, Some resp, None, req)
  end.

Definition AfterScrape (l : Logic) (ctx : option Context) (req : ScrapeRequest)
    (resp : ScrapeResponse) : M S () :=
  _ ← run_hooks (HandleScrape <$> postHooks l) ctx req resp; mret ().

Fixpoint ping_all (ps : list (option Context → M S error)) (ctx : option Context) : M S error :=
  match ps with
  | [] => mret None
  | p :: ps => err ← p ctx; match err with None => ping_all ps ctx | Some e => mret (Some e) end
  end.

Definition Logic_Ping (l : Logic) (ctx : option Context) : M S error := ping_all (pingers l) ctx.

(** What a frontend leaves to a goroutine once it has answered. *)
Definition run_task (l : Logic) (t : task) : M S () :=
  match t with
  | AfterAnnounceTask ctx req resp => AfterAnnounce l (Some ctx) req resp
  | AfterScrapeTask ctx req resp => AfterScrape l (Some ctx) req resp
  end.

(** A value the code dereferences: nil panics. *)
Definition need {A} (o : option A) : M S A :=
  match o with Some a => mret a | None => panic end.

(** ** The registry of hooks *)

Context {MapConfig : Type}.

Definition Builder : Type := MapConfig → result (Hook S).

(** A builder is kept by name; [None] is a panic. *)
Definition RegisterBuilder (name : bytes) (b : option Builder) : M (gmap bytes Builder) () := λ builders,
  if decide (name = []) then None
  else match b with
       | None => None
       | Some b =>
           match builders !! name with
           | Some _ => None
           | None => Some (<[name := b]> builders, ())
           end
       end.

Definition ErrNoHook (name : bytes) : GoError :=
  OtherError (bs "hook with name '" ++ name ++ bs "' does not exists").

(** The hooks built before the first error, and that error. *)
Fixpoint NewHooks (builders : gmap bytes Builder) (configs : list (bytes * MapConfig))
    (hooks : list (Hook S)) : list (Hook S) * error :=
  match configs with
  | [] => (hooks, None)
  | (name, c) :: configs =>
      match builders !! name with
      | None => (hooks, Some (ErrNoHook name))
      | Some newHook =>
          match newHook c with
          | Err e => (hooks, Some e)
          | Ok h => NewHooks builders configs (hooks ++ [h])
          end
      end
  end.

End Hooks.
Arguments Logic : clear implicits.

(** A hook before the others that only lets a request through or ends it. *)
Lemma announce_gated {S : Type} `{PeerStorage S} (h : Hook S) ai mi pre post ctx req err (s : S) :
  let resp := MkAnnounceResponse 0 0 ai mi [] [] in
  HandleAnnounce h ctx req resp s = Some (s, (ctx, err, req, resp)) →
  Logic_HandleAnnounce (NewLogic ai mi (h :: pre) post) ctx req s =
    match err with
    | None => Logic_HandleAnnounce (NewLogic ai mi pre post) ctx req s
    | Some e => Some (s, (None, None, Some e, req))
    end.
Proof.
  intros resp E. unfold Logic_HandleAnnounce, NewLogic.
  cbn [preHooks app fmap list_fmap run_hooks announceInterval minAnnounceInterval]. fold resp.
  unfold mbind at 1 2, M_bind at 1 2. rewrite E. by destruct err.
Qed.

Lemma scrape_gated {S : Type} `{PeerStorage S} (h : Hook S) ai mi pre post ctx req err (s : S) :
  HandleScrape h ctx req [] s = Some (s, (ctx, err, req, [])) →
  Logic_HandleScrape (NewLogic ai mi (h :: pre) post) ctx req s =
    match err with
    | None => Logic_HandleScrape (NewLogic ai mi pre post) ctx req s
    | Some e => Some (s, (None, None, Some e, req))
    end.
Proof.
  intros E. unfold Logic_HandleScrape, NewLogic.
  cbn [preHooks app fmap list_fmap run_hooks].
  unfold mbind at 1 2, M_bind at 1 2. rewrite E. by destruct err.
Qed.

(** ** The specification of an announce *)

(** The info hashes an announce counts for. *)
Definition targets (ih : InfoHash) : list InfoHash := ih :: (if is_v2 ih then [TruncateV1 ih] else []).

Definition event_wops (req : AnnounceRequest) (ih : InfoHash) (p : Peer) : list wop :=
  if decide (ar_Event req = Stopped) then [WDeleteSeeder ih p; WDeleteLeecher ih p]
  else if decide (ar_Event req = Completed) then [WGraduateLeecher ih p]
  else if ar_Left req =? 0 then [WPutSeeder ih p]
  else [WPutLeecher ih p].

(** Whether the announcing peer is in a swarm afterwards, [was] saying whether
    it was before. *)
Definition after_event (req : AnnounceRequest) (r : role) (was : Prop) : Prop :=
  if decide (ar_Event req = Stopped) then False
  else if decide (ar_Event req = Completed) then r = Seeder
  else if ar_Left req =? 0 then r = Seeder ∨ was
  else r = Leecher ∨ was.

(** The writing calls of an announce, and the members of the swarms after it. *)
Definition announce_pairs (req : AnnounceRequest) : list (InfoHash * Peer) :=
  p ← Peers (ar_RequestPeer req); (λ ih, (ih, p)) <$> targets (ar_InfoHash req).

Definition announced (req : AnnounceRequest) (v : view) (r : role) (ih : InfoHash) (q : Peer) : Prop :=
  if decide ((ih, q) ∈ announce_pairs req) then after_event req r (q ∈ v r ih) else q ∈ v r ih.

(** The number of storage calls an announce makes. *)
Definition announce_calls (req : AnnounceRequest) : nat := 2 * length (announce_pairs req).

(** ** Facts *)

Lemma targets_wf ih h : InfoHash_wf ih → h ∈ targets ih → InfoHash_wf h.
Proof.
  intros Hih. unfold targets. intros [->|Hh]%list.elem_of_cons; [done|].
  destruct (is_v2 ih) eqn:E; [|by apply elem_of_nil in Hh].
  apply list_elem_of_singleton in Hh as ->. by apply TruncateV1_wf.
Qed.

Lemma event_view req ih p v r ih' q :
  q ∈ foldl (flip view_wop) v (event_wops req ih p) r ih' ↔
    if decide (ih' = ih ∧ q = p) then after_event req r (q ∈ v r ih') else q ∈ v r ih'.
Proof.
  unfold event_wops, after_event. repeat case_decide; destruct_and?; subst;
    try destruct (ar_Left req =? 0); cbn [foldl flip view_wop];
    rewrite ?elem_of_view_add, ?elem_of_view_remove; destruct r; naive_solver.
Qed.

Lemma after_event_idemp req r (P : Prop) : after_event req r (after_event req r P) ↔ after_event req r P.
Proof. unfold after_event. repeat case_decide; try destruct (ar_Left req =? 0); tauto. Qed.

Lemma after_event_ext req r (P Q : Prop) : (P ↔ Q) → (after_event req r P ↔ after_event req r Q).
Proof. unfold after_event. intros. repeat case_decide; try destruct (ar_Left req =? 0); tauto. Qed.

Lemma events_view req l : ∀ v r ih' q,
  q ∈ foldl (λ v x, foldl (flip view_wop) v (event_wops req x.1 x.2)) v l r ih' ↔
    if decide ((ih', q) ∈ l) then after_event req r (q ∈ v r ih') else q ∈ v r ih'.
Proof.
  induction l as [|[ih p] l IH]; intros v r ih' q; cbn [foldl]; [done|].
  rewrite IH. cbn [fst snd].
  destruct (decide ((ih', q) = (ih, p))) as [[= -> ->]|Hne].
  - rewrite (decide_True (P := (ih, p) ∈ _ :: _)) by left.
    assert (∀ X : Prop, (X ↔ after_event req r (p ∈ v r ih)) →
      (if decide ((ih, p) ∈ l) then after_event req r X else X) ↔ after_event req r (p ∈ v r ih)) as HX.
    { intros X HX. case_decide; [|done]. rewrite (after_event_ext _ _ _ _ HX). apply after_event_idemp. }
    apply HX. by rewrite event_view, decide_True.
  - assert (q ∈ foldl (flip view_wop) v (event_wops req ih p) r ih' ↔ q ∈ v r ih') as E.
    { rewrite event_view, decide_False by (intros [-> ->]; done). done. }
    destruct (decide ((ih', q) ∈ l)) as [Hin|Hn].
    + rewrite (decide_True (P := (ih', q) ∈ (ih, p) :: l)) by (apply list.elem_of_cons; by right). by apply after_event_ext.
    + rewrite (decide_False (P := (ih', q) ∈ (ih, p) :: l)) by (intros [?|?]%list.elem_of_cons; done). done.
Qed.

Lemma serious_benign e : benign e → serious e = false.
Proof. intros [He|He]; rewrite He; [done|]. unfold serious. apply bool_decide_eq_false_2. tauto. Qed.

Section Spec.
Context {S : Type} `{StorageSpec S}.

Lemma storeFn_spec req n s ih p :
  st_inv (2 + n) s → InfoHash_wf ih → st_peer p →
  ∃ s', storeFn req ih p s = Some (s', None) ∧ st_inv n s' ∧
        st_view s' ≡ foldl (flip view_wop) (st_view s) (event_wops req ih p).
Proof.
  intros Hi Hih Hp. unfold storeFn, event_wops. repeat case_decide; [|..].
  - destruct (delete_seeder_spec (1 + n) s ih p Hi Hih Hp) as (s1 & e1 & E1 & Hb1 & Hi1 & Hv1).
    destruct (delete_leecher_spec n s1 ih p Hi1 Hih Hp) as (s2 & e2 & E2 & Hb2 & Hi2 & Hv2).
    exists s2. unfold stop_fn. rewrite (M_bind_Some _ _ _ _ _ E1), serious_benign by done.
    rewrite (M_bind_Some _ _ _ _ _ E2), serious_benign by done. split; [done|]. split; [done|].
    rewrite Hv2. cbn [foldl flip view_wop]. by rewrite Hv1.
  - destruct (graduate_leecher_spec (1 + n) s ih p Hi Hih Hp) as (s1 & E1 & Hi1 & Hv1).
    exists s1. split; [done|]. split; [by apply st_inv_weaken|done].
  - destruct (ar_Left req =? 0).
    + destruct (put_seeder_spec (1 + n) s ih p Hi Hih Hp) as (s1 & E1 & Hi1 & Hv1).
      exists s1. split; [done|]. split; [by apply st_inv_weaken|done].
    + destruct (put_leecher_spec (1 + n) s ih p Hi Hih Hp) as (s1 & E1 & Hi1 & Hv1).
      exists s1. split; [done|]. split; [by apply st_inv_weaken|done].
Qed.

Lemma wops_proper os (v w : view) : v ≡ w → foldl (flip view_wop) v os ≡ foldl (flip view_wop) w os.
Proof. apply view_wops_proper. Qed.

Lemma events_proper req l : ∀ v w : view, v ≡ w →
  foldl (λ v x, foldl (flip view_wop) v (event_wops req x.1 x.2)) v l ≡
  foldl (λ v x, foldl (flip view_wop) v (event_wops req x.1 x.2)) w l.
Proof.
  induction l as [|x l IH]; intros v w Hvw; [done|]. apply IH. by apply view_wops_proper.
Qed.

Lemma interact_spec req ih ps : ∀ n s,
  st_inv (2 * length (p ← ps; (λ h, (h, p)) <$> targets ih) + n) s → InfoHash_wf ih → Forall st_peer ps →
  ∃ s', interact (storeFn req) ih ps s = Some (s', None) ∧ st_inv n s' ∧
    st_view s' ≡ foldl (λ v x, foldl (flip view_wop) v (event_wops req x.1 x.2)) (st_view s)
                   (p ← ps; (λ h, (h, p)) <$> targets ih).
Proof.
  induction ps as [|p ps IH]; intros n s Hi Hih Hps; [by exists s|].
  apply list.Forall_cons in Hps as [Hp Hps]. cbn [interact]. rewrite bind_cons in Hi |- *.
  rewrite length_app in Hi.
  set (rest := p ← ps; (λ h, (h, p)) <$> targets ih) in *.
  unfold targets in *. destruct (is_v2 ih) eqn:Ev.
  - cbn [fmap list_fmap length] in Hi.
    replace (2 * (2 + length rest) + n)%nat with (2 + (2 + (2 * length rest + n)))%nat in Hi by lia.
    destruct (storeFn_spec req _ s ih p Hi Hih Hp) as (s1 & E1 & Hi1 & Hv1).
    destruct (storeFn_spec req _ s1 (TruncateV1 ih) p Hi1 (TruncateV1_wf _ Hih) Hp) as (s2 & E2 & Hi2 & Hv2).
    destruct (IH n s2 Hi2 Hih Hps) as (s3 & E3 & Hi3 & Hv3).
    exists s3. rewrite (M_bind_Some _ _ _ _ _ E1). cbn [bool_decide andb decide_rel].
    rewrite bool_decide_eq_true_2 by done. cbn [andb]. rewrite (M_bind_Some _ _ _ _ _ E2).
    split; [done|]. split; [done|]. rewrite Hv3. cbn [fmap list_fmap app foldl fst snd].
    apply events_proper. rewrite Hv2. by apply view_wops_proper.
  - cbn [fmap list_fmap length] in Hi.
    replace (2 * (1 + length rest) + n)%nat with (2 + (2 * length rest + n))%nat in Hi by lia.
    destruct (storeFn_spec req _ s ih p Hi Hih Hp) as (s1 & E1 & Hi1 & Hv1).
    destruct (IH n s1 Hi1 Hih Hps) as (s3 & E3 & Hi3 & Hv3).
    exists s3. rewrite (M_bind_Some _ _ _ _ _ E1), andb_false_r.
    split; [done|]. split; [done|]. rewrite Hv3. cbn [fmap list_fmap app foldl fst snd].
    by apply events_proper.
Qed.

(** ** Facts: the response *)

(** All the peers that a list of fetches may draw from. *)
Definition total_available (v : view) (seeding : bool) (args : list (InfoHash * bool)) : Z :=
  foldr (λ a acc, Z.of_nat (available v a.1 seeding a.2) + acc) 0 args.

Definition candidate (v : view) (seeding : bool) (args : list (InfoHash * bool)) (p : Peer) : Prop :=
  ∃ a, a ∈ args ∧ p ∈ ⋃ candidates v a.1 seeding a.2.

Lemma total_available_nonneg v b args : 0 <= total_available v b args.
Proof. induction args as [|a args IH]; simpl; lia. Qed.

Lemma candidate_available v b args p : candidate v b args p → 0 < total_available v b args.
Proof.
  intros (a & Ha & Hp). induction args as [|a' args IH]; [by apply elem_of_nil in Ha|].
  pose proof (total_available_nonneg v b args). cbn [total_available foldr].
  fold (total_available v b args). apply list.elem_of_cons in Ha as [<-|Ha]; [|specialize (IH Ha); lia].
  assert (available v a.1 b a.2 ≠ 0%nat); [|lia]. unfold available. intros E.
  apply elem_of_union_list in Hp as (X & HX & Hp).
  revert E HX. generalize (candidates v a.1 b a.2). intros l. induction l as [|Y l IHl]; [by intros _ []%elem_of_nil|].
  intros E. assert (size Y + sum_list (size <$> l) = 0)%nat as E' by exact E.
  intros [->|HX]%list.elem_of_cons; [|apply IHl; [lia|done]].
  assert (size Y = 0%nat) as E0 by lia. apply size_empty_inv in E0. by apply E0, not_elem_of_empty in Hp.
Qed.

Lemma total_available_proper v w b args : v ≡ w → total_available v b args = total_available w b args.
Proof.
  intros Hvw. induction args as [|a args IH]; [done|]. cbn [total_available foldr].
  rewrite (available_proper v w) by done. f_equal. exact IH.
Qed.

Lemma candidate_proper v w b args p : v ≡ w → candidate v b args p → candidate w b args p.
Proof. intros Hvw (a & Ha & Hp). exists a. split; [done|]. by rewrite <-(candidates_proper v w). Qed.

Lemma candidate_in_view v b args p : candidate v b args p → ∃ r ih, p ∈ v r ih.
Proof.
  intros (a & _ & (X & HX & Hp)%elem_of_union_list). unfold candidates, of_family in HX.
  destruct b; rewrite ?list.elem_of_cons in HX; destruct_or?; subst;
    solve [by apply elem_of_nil in HX|by apply elem_of_filter in Hp as [_ ?]; eauto].
Qed.

(** Every seeder is a candidate for a leecher that fetches its family. *)
Lemma seeder_candidate v ih p : p ∈ v Seeder ih → p ∈ ⋃ candidates v ih false (Peer_Is6 p).
Proof.
  intros Hp. apply elem_of_union_list. exists (of_family (Peer_Is6 p) (v Seeder ih)).
  split; [apply list.elem_of_cons; by left|]. by apply elem_of_filter.
Qed.

Lemma fetch_spec n seeding args : ∀ s c peers,
  st_inv n s → Forall (λ a, InfoHash_wf a.1) args →
  ∃ s' out, fetch args seeding c peers s = Some (s', (peers ++ out, None)) ∧ st_inv n s' ∧
    st_view s' ≡ st_view s ∧
    (∀ p, p ∈ out → candidate (st_view s) seeding args p) ∧
    Z.of_nat (length out) ≤ Z.max 0 c ∧
    (total_available (st_view s) seeding args ≤ c →
     ∀ p, candidate (st_view s) seeding args p → p ∈ out) ∧
    (0 < c → 0 < total_available (st_view s) seeding args → out ≠ []).
Proof.
  induction args as [|[ih v6] args IH]; intros s c peers Hi Hargs.
  - exists s, []. rewrite app_nil_r. split_and!; try done.
    + by intros p []%elem_of_nil.
    + simpl. lia.
    + by intros _ p (a & []%elem_of_nil & _).
  - apply list.Forall_cons in Hargs as [Hih Hargs]. cbn [fetch fst] in *.
    destruct (Z.leb_spec c 0) as [Hc|Hc].
    + exists s, []. rewrite app_nil_r. split_and!; try done.
      * by intros p []%elem_of_nil.
      * simpl. lia.
      * intros Ht p Hp%candidate_available. lia.
      * lia.
    + destruct (announce_peers_spec n s ih seeding c v6 Hi Hih Hc)
        as (s1 & ps & e & E & Hb & Hi1 & Hv & Hin & Hlen & Hall).
      rewrite (M_bind_Some _ _ _ _ _ E), serious_benign by done.
      destruct (IH s1 (c - Z.of_nat (length ps)) (peers ++ ps) Hi1 Hargs)
        as (s2 & out & E2 & Hi2 & Hv2 & Hin2 & Hlen2 & Hall2 & Hne2).
      exists s2, (ps ++ out). rewrite (assoc_L (++)). split; [done|]. split; [done|]. split; [by rewrite Hv2|].
      split_and!.
      * intros p [Hp|Hp]%elem_of_app.
        -- exists (ih, v6). split; [apply list.elem_of_cons; by left|].
           rewrite list.Forall_forall in Hin. by apply Hin.
        -- destruct (candidate_proper _ _ _ _ _ Hv (Hin2 p Hp)) as (a & Ha & Hpa).
           exists a. split; [apply list.elem_of_cons; by right|done].
      * rewrite length_app. lia.
      * cbn [total_available foldr fst snd]. fold (total_available (st_view s) seeding args).
        pose proof (total_available_nonneg (st_view s) seeding args).
        intros Ht p (a & Ha & Hp). apply elem_of_app.
        apply list.elem_of_cons in Ha as [->|Ha]; [left; apply Hall; [lia|done]|right].
        apply Hall2; [rewrite (total_available_proper _ _ _ _ Hv); lia|].
        exists a. split; [done|]. by rewrite (candidates_proper _ _ _ _ _ Hv).
      * cbn [total_available foldr fst snd]. fold (total_available (st_view s) seeding args).
        intros _ Ht [-> ->]%app_nil. cbn [length] in Hlen, Hne2. rewrite (total_available_proper _ _ _ _ Hv) in Hne2.
        apply Hne2; [lia|lia|done].
Qed.

(** The counts of a swarm over the forms of its info hash. *)
Definition count_of (v : view) (r : role) (ih : InfoHash) : Z :=
  wrap 32 (foldr (λ h acc, Z.of_nat (size (v r h)) + acc) 0 (targets ih)).

Lemma scrape_spec n s ih :
  st_inv n s → InfoHash_wf ih →
  ∃ s' d, scrape ih s = Some (s', (count_of (st_view s) Leecher ih, count_of (st_view s) Seeder ih, d, None)) ∧
    st_inv n s' ∧ st_view s' ≡ st_view s.
Proof.
  intros Hi Hih. unfold scrape, count_of, targets.
  destruct (scrape_swarm_spec n s ih Hi Hih) as (s1 & d & E & Hi1 & Hv1).
  rewrite (M_bind_Some _ _ _ _ _ E). rewrite bool_decide_eq_false_2 by (by intros []).
  destruct (is_v2 ih); cbn [foldr].
  - destruct (scrape_swarm_spec n s1 (TruncateV1 ih) Hi1 (TruncateV1_wf _ Hih)) as (s2 & d2 & E2 & Hi2 & Hv2).
    rewrite (M_bind_Some _ _ _ _ _ E2). rewrite bool_decide_eq_false_2 by (by intros []).
    exists s2. eexists. split; [|split; [done|by rewrite Hv2]].
    rewrite (Hv1 Leecher (TruncateV1 ih)), (Hv1 Seeder (TruncateV1 ih)), !wrap_add_l, !wrap_add_r, !Z.add_0_r. done.
  - exists s1, d. rewrite !Z.add_0_r. done.
Qed.

End Spec.

(** The peers of a response by family. *)
Lemma split_peers_spec ps : ∀ U v4 v6, split_peers ps U = (v4, v6) →
  NoDup v4 ∧ NoDup v6 ∧
  (∀ p, p ∈ v4 ↔ p ∈ ps ∧ (p ∉ U) ∧ Is4 (Peer_Addr p) = true) ∧
  (∀ p, p ∈ v6 ↔ p ∈ ps ∧ (p ∉ U) ∧ Is6 (Peer_Addr p) = true) ∧
  (length v4 + length v6 ≤ length ps)%nat.
Proof.
  induction ps as [|p ps IH]; intros U v4 v6; cbn [split_peers].
  - intros [= <- <-]. split_and!; [constructor..| | |done]; intros p; rewrite elem_of_nil; tauto.
  - destruct (decide (p ∈ U)) as [Hp|Hp]; [|destruct (Is6 (Peer_Addr p)) eqn:E6; [|destruct (Is4 (Peer_Addr p)) eqn:E4]].
    + intros E. destruct (IH _ _ _ E) as (H1 & H2 & H3 & H4 & H5). split_and!; [done..| | |simpl; lia];
        intros q; rewrite ?H3, ?H4, list.elem_of_cons; naive_solver.
    + destruct (split_peers ps _) as [w4 w6] eqn:E. intros [= <- <-].
      destruct (IH _ _ _ E) as (H1 & H2 & H3 & H4 & H5). split_and!.
      * done.
      * apply list.NoDup_cons. split; [|done]. rewrite H4. intros (_ & Hn & _). apply Hn.
        by apply elem_of_union_l, elem_of_singleton.
      * intros q. rewrite H3, list.elem_of_cons, not_elem_of_union, not_elem_of_singleton.
        destruct (decide (q = p)) as [->|]; [|tauto].
        split; [tauto|]. intros (_ & _ & Hq%Is4_Is6). congruence.
      * intros q. rewrite list.elem_of_cons, H4, list.elem_of_cons, not_elem_of_union, not_elem_of_singleton.
        destruct (decide (q = p)) as [->|]; tauto.
      * simpl. lia.
    + destruct (split_peers ps _) as [w4 w6] eqn:E. intros [= <- <-].
      destruct (IH _ _ _ E) as (H1 & H2 & H3 & H4 & H5). split_and!.
      * apply list.NoDup_cons. split; [|done]. rewrite H3. intros (_ & Hn & _). apply Hn.
        by apply elem_of_union_l, elem_of_singleton.
      * done.
      * intros q. rewrite list.elem_of_cons, H3, list.elem_of_cons, not_elem_of_union, not_elem_of_singleton.
        destruct (decide (q = p)) as [->|]; tauto.
      * intros q. rewrite H4, list.elem_of_cons, not_elem_of_union, not_elem_of_singleton.
        destruct (decide (q = p)) as [->|]; [|tauto]. split; [tauto|]. intros (_ & _ & Hq). congruence.
      * simpl. lia.
    + intros E. destruct (IH _ _ _ E) as (H1 & H2 & H3 & H4 & H5). split_and!; [done..| | |simpl; lia];
        intros q; rewrite ?H3, ?H4, list.elem_of_cons; split; try tauto;
        intros ([->|?] & ? & ?); try done; congruence.
Qed.
