(* ===== verification/Tracker.v ===== *)
(** * The tracker over any storage

    What an announce and a scrape do from end to end, for every storage that
    keeps [StorageSpec]; the witnesses run the in-memory storage. *)

From S2P Require Import Prelude GoStd Netip Bittorrent Storage Memory Hooks.

Local Open Scope Z_scope.

Section Tracker.
Context {S : Type} `{StorageSpec S}.

Lemma M_ret {A} (a : A) (s : S) : mret (M := M S) a s = Some (s, a).
Proof. done. Qed.

Lemma swarm_hook_run n s ctx req resp :
  st_inv (announce_calls req + n) s → InfoHash_wf (ar_InfoHash req) →
  Forall st_peer (Peers (ar_RequestPeer req)) → ctx_skip_swarm ctx = false →
  ∃ s', swarmInteraction_announce (Some ctx) req resp s = Some (s', (Some ctx, None, req, resp)) ∧
    st_inv n s' ∧ ∀ r ih q, q ∈ st_view s' r ih ↔ announced req (st_view s) r ih q.
Proof.
  intros Hi Hih Hps Hsk. destruct (interact_spec req _ _ n s Hi Hih Hps) as (s' & E & Hi' & Hv).
  exists s'. unfold swarmInteraction_announce. cbn [ctx_value]. rewrite M_bind_ret_l, Hsk.
  rewrite (M_bind_Some _ _ _ _ _ E). split; [done|]. split; [done|].
  intros r ih q. rewrite (Hv r ih), events_view. done.
Qed.

Definition seeding (req : AnnounceRequest) : bool := ar_Left req =? 0.
Definition request_args (req : AnnounceRequest) : list (InfoHash * bool) :=
  fetch_args (ar_InfoHash req) (Is6 (GetFirst (ar_Addresses req))).
Definition response_peers (resp : AnnounceResponse) : list Peer := resp_IPv4Peers resp ++ resp_IPv6Peers resp.

Lemma request_args_wf req :
  InfoHash_wf (ar_InfoHash req) → Forall (λ a : InfoHash * bool, InfoHash_wf a.1) (request_args req).
Proof.
  intros Hih. unfold request_args, fetch_args. repeat (apply list.Forall_cons; split; [done|]).
  destruct (is_v2 _); repeat (apply list.Forall_cons; split; [by apply TruncateV1_wf|]); apply Forall_nil_2.
Qed.

(** What [appendPeers] finds, from a response that no hook filled. *)
Lemma appendPeers_run n s req resp :
  st_inv n s → InfoHash_wf (ar_InfoHash req) → 0 ≤ ar_NumWant req → response_peers resp = [] →
  ∃ s' found, appendPeers req resp s = Some (s', (finish req resp found, None)) ∧
    st_inv n s' ∧ st_view s' ≡ st_view s ∧
    (∀ p, p ∈ found → candidate (st_view s) (seeding req) (request_args req) p) ∧
    Z.of_nat (length found) ≤ ar_NumWant req ∧
    (total_available (st_view s) (seeding req) (request_args req) ≤ ar_NumWant req →
     ∀ p, candidate (st_view s) (seeding req) (request_args req) p → p ∈ found) ∧
    (found = [] ↔ ar_NumWant req = 0 ∨ total_available (st_view s) (seeding req) (request_args req) = 0).
Proof.
  intros Hi Hih Hn Hp. apply app_nil in Hp as [H4 H6]. unfold appendPeers.
  assert ((if Is6 (GetFirst (ar_Addresses req)) then resp_IPv6Peers resp ++ resp_IPv4Peers resp
           else resp_IPv4Peers resp ++ resp_IPv6Peers resp) = []) as ->
    by (rewrite H4, H6; by destruct (Is6 _)).
  cbn [length Z.of_nat]. rewrite Z.gtb_ltb, (proj2 (Z.ltb_ge _ _)) by done. rewrite Z.sub_0_r.
  destruct (fetch_spec n (seeding req) (request_args req) s (ar_NumWant req) [] Hi (request_args_wf req Hih))
    as (s' & found & E & Hi' & Hv & Hin & Hlen & Hall & Hne).
  exists s', found. unfold seeding, request_args in E. rewrite (M_bind_Some _ _ _ _ _ E).
  rewrite bool_decide_eq_false_2 by (by intros []). cbn [app].
  pose proof (total_available_nonneg (st_view s) (seeding req) (request_args req)).
  split_and!; try done; [lia|]. split.
  - intros ->. destruct (decide (ar_NumWant req = 0)); [by left|right].
    destruct (decide (total_available (st_view s) (seeding req) (request_args req) = 0)); [done|].
    exfalso. apply Hne; [lia|lia|done].
  - intros [Hz|Hz]; (destruct found as [|p found]; [done|]); [cbn [length] in Hlen; lia|].
    specialize (Hin p ltac:(apply list.elem_of_cons; by left)). apply candidate_available in Hin. lia.
Qed.

(** The response built from what was found. *)
Lemma finish_spec req resp found :
  let peers := if decide (found = []) then Peers (ar_RequestPeer req) else found in
  let resp' := finish req resp found in
  NoDup (response_peers resp') ∧
  (∀ p, p ∈ resp_IPv4Peers resp' ↔ p ∈ peers ∧ Is4 (Peer_Addr p) = true) ∧
  (∀ p, p ∈ resp_IPv6Peers resp' ↔ p ∈ peers ∧ Is6 (Peer_Addr p) = true) ∧
  (length (response_peers resp') ≤ length peers)%nat.
Proof.
  unfold finish. case_decide as Hd; [subst found|]; cbn [app].
  all: match goal with |- context [split_peers ?l ∅] => destruct (split_peers l ∅) as [v4 v6] eqn:E end.
  all: apply split_peers_spec in E as (H1 & H2 & H3 & H4 & H5).
  all: cbv zeta; unfold response_peers; destruct (ar_Left req =? 0);
    cbn [resp_with_peers resp_with_counts resp_IPv4Peers resp_IPv6Peers].
  all: split_and!; [|intros p; rewrite H3; set_solver|intros p; rewrite H4; set_solver|by rewrite length_app].
  all: apply list.NoDup_app; split_and!; [done| |done].
  all: intros p (_ & _ & Hp%Is4_Is6)%H3 (_ & _ & Hp')%H4; congruence.
Qed.

Lemma sum_view_proper (v w : view) r hs : v ≡ w →
  foldr (λ h acc, Z.of_nat (size (v r h)) + acc) 0 hs = foldr (λ h acc, Z.of_nat (size (w r h)) + acc) 0 hs.
Proof.
  intros Hvw. induction hs as [|h hs IH]; [done|]. cbn [foldr]. rewrite (Hvw r h). by f_equal.
Qed.

Lemma count_of_wrap v r ih : wrap 32 (count_of v r ih + 0) = count_of v r ih.
Proof. rewrite Z.add_0_r. apply wrap_wrap. Qed.

Lemma finish_complete req resp found v ih l :
  resp_Complete (finish req (resp_with_counts l (count_of v Seeder ih) resp) found) =
    wrap 32 (count_of v Seeder ih + (if seeding req then if decide (found = []) then 1 else 0 else 0)).
Proof.
  unfold finish, seeding. case_decide; destruct (split_peers _ _); destruct (ar_Left req =? 0);
    cbn [resp_with_peers resp_with_counts resp_Complete]; by rewrite ?count_of_wrap.
Qed.

Lemma finish_incomplete req resp found v ih c :
  resp_Incomplete (finish req (resp_with_counts (count_of v Leecher ih) c resp) found) =
    wrap 32 (count_of v Leecher ih + (if seeding req then 0 else if decide (found = []) then 1 else 0)).
Proof.
  unfold finish, seeding. case_decide; destruct (split_peers _ _); destruct (ar_Left req =? 0);
    cbn [resp_with_peers resp_with_counts resp_Incomplete]; by rewrite ?count_of_wrap.
Qed.

Lemma finish_interval req resp found l c :
  resp_Interval (finish req (resp_with_counts l c resp) found) = resp_Interval resp ∧
  resp_MinInterval (finish req (resp_with_counts l c resp) found) = resp_MinInterval resp.
Proof.
  unfold finish. case_decide; destruct (split_peers _ _); by destruct (ar_Left req =? 0).
Qed.

(** What a client is answered, from the swarms [v]. *)
Definition answers_announce (v : view) (req : AnnounceRequest) (resp' : AnnounceResponse) : Prop :=
  let total := total_available v (seeding req) (request_args req) in
  let alone := if decide (ar_NumWant req = 0 ∨ total = 0) then 1 else 0 in
  NoDup (response_peers resp') ∧
  (∀ p, p ∈ resp_IPv4Peers resp' → Is4 (Peer_Addr p) = true) ∧
  (∀ p, p ∈ resp_IPv6Peers resp' → Is6 (Peer_Addr p) = true) ∧
  (∀ p, p ∈ response_peers resp' →
     candidate v (seeding req) (request_args req) p ∨ alone = 1 ∧ p ∈ Peers (ar_RequestPeer req)) ∧
  (alone = 0 → Z.of_nat (length (response_peers resp')) ≤ ar_NumWant req) ∧
  (total ≤ ar_NumWant req → ∀ p, candidate v (seeding req) (request_args req) p →
     IsValid (Peer_Addr p) = true → p ∈ response_peers resp') ∧
  resp_Complete resp' = wrap 32 (count_of v Seeder (ar_InfoHash req) + (if seeding req then alone else 0)) ∧
  resp_Incomplete resp' = wrap 32 (count_of v Leecher (ar_InfoHash req) + (if seeding req then 0 else alone)) ∧
  (alone = 1 → ∀ p, p ∈ Peers (ar_RequestPeer req) → IsValid (Peer_Addr p) = true → p ∈ response_peers resp').

Lemma response_hook_run n s ctx req resp :
  st_inv n s → InfoHash_wf (ar_InfoHash req) → 0 ≤ ar_NumWant req →
  ctx_skip_response ctx = false → response_peers resp = [] →
  ∃ s' resp', response_announce (Some ctx) req resp s = Some (s', (Some ctx, None, req, resp')) ∧
    st_inv n s' ∧ st_view s' ≡ st_view s ∧ answers_announce (st_view s) req resp' ∧
    resp_Interval resp' = resp_Interval resp ∧ resp_MinInterval resp' = resp_MinInterval resp.
Proof.
  intros Hi Hih Hn Hsk Hp. set (v := st_view s).
  set (total := total_available v (seeding req) (request_args req)).
  set (alone := if decide (ar_NumWant req = 0 ∨ total = 0) then 1 else 0).
  destruct (scrape_spec n s (ar_InfoHash req) Hi Hih) as (s1 & d & E1 & Hi1 & Hv1).
  set (resp1 := resp_with_counts (count_of v Leecher (ar_InfoHash req)) (count_of v Seeder (ar_InfoHash req)) resp).
  destruct (appendPeers_run n s1 req resp1 Hi1 Hih Hn Hp) as (s2 & found & E2 & Hi2 & Hv2 & Hin & Hlen & Hall & Hne).
  rewrite (total_available_proper _ _ _ _ Hv1) in Hall, Hne. fold v total in Hall, Hne.
  exists s2, (finish req resp1 found). unfold response_announce.
  cbn [ctx_value]. rewrite M_bind_ret_l, Hsk, (M_bind_Some _ _ _ _ _ E1).
  rewrite bool_decide_eq_false_2 by (by intros []). fold v resp1. rewrite (M_bind_Some _ _ _ _ _ E2).
  destruct (finish_spec req resp1 found) as (Hnd & H4 & H6 & Hl).
  assert (∀ p, p ∈ response_peers (finish req resp1 found) → p ∈ (if decide (found = []) then Peers (ar_RequestPeer req) else found)) as Hresp.
  { intros p [Hp'|Hp']%elem_of_app; [by apply H4|by apply H6]. }
  assert (alone = if decide (found = []) then 1 else 0) as Halone by (unfold alone; by apply decide_ext).
  split; [done|]. split; [done|]. split; [by rewrite Hv2|]. split; [|apply finish_interval].
  unfold answers_announce. fold v total. fold alone. split; [done|].
  split; [intros p Hp'; by apply H4|]. split; [intros p Hp'; by apply H6|]. split_and!.
  - intros p Hp'%Hresp. rewrite Halone. case_decide; [by right|left]. eapply candidate_proper, Hin; done.
  - rewrite Halone. case_decide; [done|]. intros _. lia.
  - intros Ht p Hc Hval. assert (p ∈ found) as Hf by (apply Hall; [done|]; by eapply candidate_proper; [symmetry|]).
    rewrite IsValid_families in Hval. apply elem_of_app. rewrite H4, H6.
    rewrite decide_False by (intros ->; by apply elem_of_nil in Hf).
    apply orb_true_iff in Hval as [?|?]; [by left|by right].
  - rewrite Halone. apply finish_complete.
  - rewrite Halone. apply finish_incomplete.
  - rewrite Halone. intros Ha p Hp' Hval. rewrite IsValid_families in Hval. apply elem_of_app. rewrite H4, H6.
    case_decide; [|done]. apply orb_true_iff in Hval as [?|?]; [by left|by right].
Qed.

Lemma plain_logic_announce ai mi ctx req n s :
  st_inv n s → InfoHash_wf (ar_InfoHash req) → 0 ≤ ar_NumWant req → ctx_skip_response ctx = false →
  ∃ s' resp', Logic_HandleAnnounce (NewLogic ai mi [] []) (Some ctx) req s =
      Some (s', (Some ctx, Some resp', None, req)) ∧
    st_inv n s' ∧ st_view s' ≡ st_view s ∧ answers_announce (st_view s) req resp' ∧
    resp_Interval resp' = ai ∧ resp_MinInterval resp' = mi.
Proof.
  intros Hi Hih Hn Hsk.
  destruct (response_hook_run n s ctx req (MkAnnounceResponse 0 0 ai mi [] []) Hi Hih Hn Hsk eq_refl)
    as (s' & resp' & E & Hi' & Hv & Ha & Hiv).
  exists s', resp'. split; [|done]. unfold Logic_HandleAnnounce.
  cbn [NewLogic preHooks app fmap list_fmap run_hooks announceInterval minAnnounceInterval].
  rewrite (M_bind_Some _ _ s s' (Some ctx, None, req, resp')); [done|].
  cbn [HandleAnnounce responseHook]. by rewrite (M_bind_Some _ _ _ _ _ E).
Qed.

(** ** Properties *)

(** C9: after an announce every peer of the request is, in each swarm of the
    info hash and of its truncated form, where its event says: nowhere when it
    stopped, a seeder only when it completed, and otherwise added as a seeder or
    a leecher; every other membership is as before. *)
Theorem announce_effect (n : nat) (s : S) (ctx : Context) (req : AnnounceRequest) (resp : AnnounceResponse) :
  st_inv (announce_calls req + n) s → InfoHash_wf (ar_InfoHash req) →
  Forall st_peer (Peers (ar_RequestPeer req)) → ctx_skip_swarm ctx = false →
  ∃ s', HandleAnnounce swarmInteractionHook (Some ctx) req resp s = Some (s', (Some ctx, None, req, resp)) ∧
    st_inv n s' ∧ ∀ r ih q, q ∈ st_view s' r ih ↔ announced req (st_view s) r ih q.
Proof. apply swarm_hook_run. Qed.

(** C10: the answer to an announce: it reads the storage and changes nothing;
    no peer twice, IPv4 and IPv6 peers apart; each either stored for the info
    hash (leechers only for a seeder) or the client itself; no more than wanted,
    and all that there are when they are not more than wanted; the counts of the
    swarms, plus the client when there is nobody else to return; a client alone
    is given itself. *)
Theorem announce_response (n : nat) (s : S) (ctx : Context) (req : AnnounceRequest) (resp : AnnounceResponse) :
  st_inv n s → InfoHash_wf (ar_InfoHash req) → 0 ≤ ar_NumWant req →
  ctx_skip_response ctx = false → response_peers resp = [] →
  ∃ s' resp', HandleAnnounce responseHook (Some ctx) req resp s = Some (s', (Some ctx, None, req, resp')) ∧
    st_inv n s' ∧ st_view s' ≡ st_view s ∧ answers_announce (st_view s) req resp'.
Proof.
  intros Hi Hih Hn Hsk Hp.
  destruct (response_hook_run n s ctx req resp Hi Hih Hn Hsk Hp) as (s' & resp' & ? & ? & ? & ? & _); eauto 10.
Qed.

Lemma plain_logic_after ai mi ctx req resp n s :
  st_inv (announce_calls req + n) s → InfoHash_wf (ar_InfoHash req) →
  Forall st_peer (Peers (ar_RequestPeer req)) → ctx_skip_swarm ctx = false →
  ∃ s', AfterAnnounce (NewLogic ai mi [] []) (Some ctx) req resp s = Some (s', ()) ∧
    st_inv n s' ∧ ∀ r ih q, q ∈ st_view s' r ih ↔ announced req (st_view s) r ih q.
Proof.
  intros Hi Hih Hp Hsk. destruct (swarm_hook_run n s ctx req resp Hi Hih Hp Hsk) as (s' & E & Hi' & Hv).
  exists s'. split; [|done]. unfold AfterAnnounce. cbn [NewLogic postHooks app fmap list_fmap run_hooks].
  rewrite (M_bind_Some _ _ s s' (Some ctx, None, req, resp)); [done|].
  by rewrite (M_bind_Some _ _ _ _ _ E).
Qed.

Lemma in_announce_pairs req p :
  p ∈ Peers (ar_RequestPeer req) → (ar_InfoHash req, p) ∈ announce_pairs req.
Proof.
  intros Hp. unfold announce_pairs. apply list_elem_of_bind. exists p. split; [|done].
  apply list_elem_of_fmap. exists (ar_InfoHash req). split; [done|]. apply list.elem_of_cons. by left.
Qed.

Lemma request_args_families req v6 : (ar_InfoHash req, v6) ∈ request_args req.
Proof.
  unfold request_args, fetch_args. rewrite elem_of_app, !list.elem_of_cons.
  destruct (Is6 (GetFirst _)), v6; naive_solver.
Qed.

(** The entry of a scrape response for an info hash. *)
Definition scraped (v : view) (ih : InfoHash) (sc : Scrape) : Prop :=
  sc_InfoHash sc = ih ∧ sc_Complete sc = count_of v Seeder ih ∧ sc_Incomplete sc = count_of v Leecher ih.

Lemma scrape_all_spec n ihs : ∀ acc s, st_inv n s → Forall InfoHash_wf ihs →
  ∃ s' data, scrape_all ihs acc s = Some (s', (acc ++ data, None)) ∧ st_inv n s' ∧ st_view s' ≡ st_view s ∧
    Forall2 (scraped (st_view s)) ihs data.
Proof.
  induction ihs as [|ih ihs IH]; intros acc s Hi Hihs.
  - exists s, []. rewrite app_nil_r. split_and!; [done..|]. constructor.
  - apply list.Forall_cons in Hihs as [Hih Hihs]. cbn [scrape_all].
    destruct (scrape_spec n s ih Hi Hih) as (s1 & d & E1 & Hi1 & Hv1). rewrite (M_bind_Some _ _ _ _ _ E1).
    rewrite bool_decide_eq_false_2 by (by intros []).
    destruct (IH (acc ++ [MkScrape ih d (count_of (st_view s) Seeder ih) (count_of (st_view s) Leecher ih)]) s1 Hi1 Hihs)
      as (s2 & data & E2 & Hi2 & Hv2 & Hd).
    exists s2. eexists. rewrite E2, <-(assoc_L (++)). split; [done|]. split; [done|].
    split; [by rewrite Hv2|]. constructor; [done|]. eapply list.Forall2_impl; [exact Hd|].
    intros h sc (H1 & H2 & H3). unfold count_of in H2, H3.
    rewrite (sum_view_proper _ _ _ _ Hv1) in H2. rewrite (sum_view_proper _ _ _ _ Hv1) in H3. done.
Qed.

(** C2: the tracker does its job: once the announce of a seeder (or of a client
    that completed) has been carried out, a leecher that asks for as many peers
    as there are is given it, on either address family. *)
Theorem leecher_finds_seeder (n : nat) (s : S) (ai mi : Z) (ctx1 ctx2 : Context)
    (req1 req2 : AnnounceRequest) (resp1 : AnnounceResponse) :
  st_inv (announce_calls req1 + n) s → InfoHash_wf (ar_InfoHash req1) →
  Forall st_peer (Peers (ar_RequestPeer req1)) →
  ctx_skip_swarm ctx1 = false → ctx_skip_response ctx2 = false →
  ar_Event req1 = Completed ∨ ar_Event req1 ≠ Stopped ∧ ar_Left req1 = 0 →
  ar_InfoHash req2 = ar_InfoHash req1 → ar_Left req2 ≠ 0 → 0 ≤ ar_NumWant req2 →
  let l := NewLogic ai mi [] [] in
  ∃ s1, AfterAnnounce l (Some ctx1) req1 resp1 s = Some (s1, ()) ∧
    (total_available (st_view s1) false (request_args req2) ≤ ar_NumWant req2 →
     ∃ s2 resp2, Logic_HandleAnnounce l (Some ctx2) req2 s1 = Some (s2, (Some ctx2, Some resp2, None, req2)) ∧
       ∀ p, p ∈ Peers (ar_RequestPeer req1) → IsValid (Peer_Addr p) = true → p ∈ response_peers resp2).
Proof.
  intros Hi Hih Hp Hs1 Hs2 Hev Hih2 Hl2 Hn l.
  destruct (plain_logic_after ai mi ctx1 req1 resp1 n s Hi Hih Hp Hs1) as (s1 & E1 & Hi1 & Hv1).
  exists s1. split; [done|]. intros Ht.
  assert (seeding req2 = false) as Hse by (unfold seeding; by apply Z.eqb_neq).
  destruct (plain_logic_announce ai mi ctx2 req2 n s1 Hi1) as (s2 & resp2 & E2 & _ & _ & (_ & _ & _ & _ & _ & Hall & _) & _);
    [by rewrite Hih2|done|done|].
  exists s2, resp2. split; [done|]. intros p Hin Hval. rewrite Hse in Hall. apply Hall; [done| |done].
  exists (ar_InfoHash req2, Peer_Is6 p). split; [apply request_args_families|].
  unfold candidates. cbn [fst snd]. apply elem_of_union_list.
  exists (of_family (Peer_Is6 p) (st_view s1 Seeder (ar_InfoHash req2))). split; [apply list.elem_of_cons; by left|].
  unfold of_family. apply elem_of_filter. split; [done|]. rewrite Hih2. apply Hv1.
  unfold announced. rewrite decide_True by (by apply in_announce_pairs). unfold after_event.
  destruct Hev as [->|[Hne Hl]]; [by rewrite decide_False, decide_True|].
  rewrite decide_False by done. case_decide; [done|]. rewrite Hl. by left.
Qed.

(** C28: the answer to a scrape: one entry per info hash asked for, in the order
    of the request, with the sizes of its swarms (both forms of a v2 hash
    together); the storage is left as it was. *)
Theorem scrape_response (n : nat) (s : S) (ai mi : Z) (ctx : Context) (req : ScrapeRequest) :
  st_inv n s → Forall InfoHash_wf (sr_InfoHashes req) → ctx_skip_response ctx = false →
  ∃ s' data, Logic_HandleScrape (NewLogic ai mi [] []) (Some ctx) req s =
      Some (s', (Some ctx, Some data, None, req)) ∧
    st_inv n s' ∧ st_view s' ≡ st_view s ∧
    Forall2 (scraped (st_view s)) (sr_InfoHashes req) data.
Proof.
  intros Hi Hihs Hsk.
  destruct (scrape_all_spec n (sr_InfoHashes req) [] s Hi Hihs) as (s' & data & E & Hi' & Hv & Hd).
  exists s', data. split; [|done]. unfold Logic_HandleScrape.
  cbn [NewLogic preHooks app fmap list_fmap run_hooks].
  rewrite (M_bind_Some _ _ s s' (Some ctx, None, req, data)); [done|].
  cbn [HandleScrape responseHook]. unfold response_scrape. cbn [ctx_value].
  rewrite (M_bind_Some _ _ s s' (Some ctx, None, req, data)); [done|].
  rewrite M_bind_ret_l, Hsk, (M_bind_Some _ _ _ _ _ E). by rewrite bool_decide_eq_false_2 by (by intros []).
Qed.

(** A pre-hook that fails ends the request: the client gets its error and no
    response, and no hook after it (the built-in ones included) runs. *)
Theorem prehook_error_ends (l : Logic S) (hs1 hs2 : list (Hook S)) (h : Hook S)
    (ctx ctx1 ctx2 : option Context) (req req1 req2 : AnnounceRequest) (resp1 resp2 : AnnounceResponse)
    (s s1 s2 : S) (e : GoError) :
  preHooks l = hs1 ++ h :: hs2 →
  run_hooks (HandleAnnounce <$> hs1) ctx req
    (MkAnnounceResponse 0 0 (announceInterval l) (minAnnounceInterval l) [] []) s =
    Some (s1, (ctx1, None, req1, resp1)) →
  HandleAnnounce h ctx1 req1 resp1 s1 = Some (s2, (ctx2, Some e, req2, resp2)) →
  Logic_HandleAnnounce l ctx req s = Some (s2, (None, None, Some e, req2)).
Proof.
  intros Hpre Hrun Hh. unfold Logic_HandleAnnounce. rewrite Hpre, fmap_app, fmap_cons.
  rewrite (M_bind_Some _ _ s s2 (ctx2, Some e, req2, resp2)); [done|].
  clear Hpre. revert ctx req s Hrun. generalize (MkAnnounceResponse 0 0 (announceInterval l) (minAnnounceInterval l) [] []).
  induction hs1 as [|h1 hs1 IH]; intros resp ctx req s; cbn [fmap list_fmap app run_hooks].
  - intros [= -> -> -> ->]. by rewrite (M_bind_Some _ _ _ _ _ Hh).
  - destruct (HandleAnnounce h1 ctx req resp s) as [[s' [[[ctx' e'] req'] resp']]|] eqn:E1.
    + rewrite !(M_bind_Some _ _ _ _ _ E1). destruct e' as [e'|]; [done|]. apply IH.
    + unfold mbind, M_bind. by rewrite E1.
Qed.

(** An announce under a v2 info hash is kept under the hash and under its
    truncated form, and the counts add the two: in an empty swarm a single
    seeder is counted twice. *)
Theorem v2_seeder_counted_twice (n : nat) (s : S) (ai mi : Z) (ctx : Context) (req : AnnounceRequest)
    (resp : AnnounceResponse) (p : Peer) :
  st_inv (announce_calls req + n) s → length (ar_InfoHash req) = InfoHashV2Len →
  Peers (ar_RequestPeer req) = [p] → st_peer p → ctx_skip_swarm ctx = false →
  ar_Event req = Started → ar_Left req = 0 →
  (∀ ih, ih ∈ targets (ar_InfoHash req) → st_view s Seeder ih = ∅) →
  ∃ s', AfterAnnounce (NewLogic ai mi [] []) (Some ctx) req resp s = Some (s', ()) ∧
        count_of (st_view s') Seeder (ar_InfoHash req) = 2.
Proof.
  intros Hi Hlen Hps Hp Hsk Hev Hl Hem.
  destruct (plain_logic_after ai mi ctx req resp n s Hi) as (s' & E & _ & Hv);
    [by right|rewrite Hps; by apply list.Forall_singleton|done|].
  exists s'. split; [done|]. unfold count_of.
  assert (∀ ih, ih ∈ targets (ar_InfoHash req) → st_view s' Seeder ih = {[p]}) as Hone.
  { intros ih Hih. apply set_eq. intros q. rewrite Hv, elem_of_singleton. unfold announced.
    assert ((ih, q) ∈ announce_pairs req ↔ q = p) as Hpair.
    { unfold announce_pairs. rewrite Hps. cbn [mbind list_bind]. rewrite app_nil_r, list_elem_of_fmap.
      split; [by intros (? & [= -> ->] & _)|intros ->; by exists ih]. }
    case_decide as Hd; [apply Hpair in Hd as ->|].
    - unfold after_event. rewrite Hev, Hl. rewrite !decide_False by done. split; [done|by left].
    - rewrite (Hem ih Hih). split; [by intros []%not_elem_of_empty|]. intros ->. by destruct Hd; apply Hpair. }
  assert (targets (ar_InfoHash req) = [ar_InfoHash req; TruncateV1 (ar_InfoHash req)]) as Ht.
  { unfold targets, is_v2. by rewrite bool_decide_eq_true_2. }
  rewrite Ht in Hone |- *. cbn [foldr].
  rewrite !Hone by (rewrite !list.elem_of_cons; tauto). by rewrite !size_singleton.
Qed.


End Tracker.

(** ** Witnesses: the in-memory storage *)

Import (hints) MemStore.

Definition world1 : MemStore.world := MemStore.MkWorld (MemStore.NewPeerStorage 2) (λ i, MemStore.MkTick (Z.of_nat i) shuffle_rev) 0.
Definition address1 : RequestAddress := MkRequestAddress (Addr4 0x01020304) false.
Definition announce1 (event : Event) (ih : InfoHash) (left : Z) : AnnounceRequest :=
  MkAnnounceRequest event ih true true 50 left 0 0 (MkRequestPeer (replicate 20 x01) 6881 [address1]) None.
Definition peer1 : Peer := MkPeer (replicate 20 x01) (Addr4 0x01020304) 6881.
Definition hash1 : InfoHash := replicate 20 xaa.
Definition hash2 : InfoHash := replicate 32 xbb.
Definition response1 : AnnounceResponse := MkAnnounceResponse 0 0 1800 900 [] [].
Definition logic1 : Logic MemStore.world := NewLogic 1800 900 [] [].

Lemma world1_inv n : st_inv n world1.
Proof. apply MemStore.new_inv. vm_compute. reflexivity. Qed.

Lemma peers1_ok e ih l : Forall (st_peer (S := MemStore.world)) (Peers (ar_RequestPeer (announce1 e ih l))).
Proof. by apply list.Forall_singleton. Qed.

Lemma announce_effect_witness :
  ∃ w', HandleAnnounce swarmInteractionHook (Some Background) (announce1 Started hash1 0) response1 world1 =
      Some (w', (Some Background, None, announce1 Started hash1 0, response1)) ∧
    peer1 ∈ st_view w' Seeder hash1.
Proof.
  destruct (announce_effect 0 world1 Background (announce1 Started hash1 0) response1
    (world1_inv _) (or_introl eq_refl) (peers1_ok _ _ _) eq_refl) as (w' & E & _ & Hv).
  exists w'. split; [exact E|]. apply Hv. unfold announced. rewrite decide_True; [by left|].
  apply (in_announce_pairs (announce1 Started hash1 0)). apply list_elem_of_singleton. reflexivity.
Defined.

Lemma announce_response_witness :
  ∃ w' resp', HandleAnnounce responseHook (Some Background) (announce1 Started hash1 7) response1 world1 =
      Some (w', (Some Background, None, announce1 Started hash1 7, resp')) ∧
    NoDup (response_peers resp').
Proof.
  assert (0 ≤ 50) as Hn by lia.
  destruct (announce_response 0 world1 Background (announce1 Started hash1 7) response1
    (world1_inv _) (or_introl eq_refl) Hn eq_refl eq_refl) as (w' & resp' & E & _ & _ & Hnd & _).
  exists w', resp'. split; [exact E|exact Hnd].
Defined.

Lemma leecher_finds_seeder_witness :
  ∃ w1 w2 resp2,
    AfterAnnounce logic1 (Some Background) (announce1 Started hash1 0) response1 world1 = Some (w1, ()) ∧
    Logic_HandleAnnounce logic1 (Some Background) (announce1 Started hash1 7) w1 =
      Some (w2, (Some Background, Some resp2, None, announce1 Started hash1 7)) ∧
    peer1 ∈ response_peers resp2.
Proof.
  assert (0 ≤ 50) as Hn by lia.
  destruct (leecher_finds_seeder 0 world1 1800 900 Background Background (announce1 Started hash1 0)
    (announce1 Started hash1 7) response1) as (w1 & E1 & H1).
  { apply world1_inv. } { left; reflexivity. } { apply peers1_ok. } { reflexivity. } { reflexivity. }
  { right. split; [discriminate|reflexivity]. } { reflexivity. } { discriminate. } { exact Hn. }
  assert ((λ x, bool_decide (total_available (st_view x.1) false (request_args (announce1 Started hash1 7)) ≤ 50)) <$>
    AfterAnnounce logic1 (Some Background) (announce1 Started hash1 0) response1 world1 = Some true) as Hb
    by (apply (bool_decide_eq_true_1 _); vm_cast_no_check (eq_refl true)).
  unfold logic1 in Hb. rewrite E1 in Hb. injection Hb as Hb. apply bool_decide_eq_true in Hb.
  destruct (H1 Hb) as (w2 & resp2 & E2 & Hp).
  exists w1, w2, resp2. split; [exact E1|]. split; [exact E2|].
  apply Hp; [apply list_elem_of_singleton; reflexivity|reflexivity].
Defined.

Lemma scrape_response_witness :
  ∃ w' data, Logic_HandleScrape logic1 (Some Background) (MkScrapeRequest [address1] [hash1; hash2] None) world1 =
      Some (w', (Some Background, Some data, None, MkScrapeRequest [address1] [hash1; hash2] None)) ∧
    Forall2 (scraped (st_view world1)) [hash1; hash2] data.
Proof.
  destruct (scrape_response 0 world1 1800 900 Background (MkScrapeRequest [address1] [hash1; hash2] None)
    (world1_inv _)) as (w' & data & E & _ & _ & Hd).
  - apply list.Forall_cons; split; [left; reflexivity|]. apply list.Forall_singleton. right; reflexivity.
  - reflexivity.
  - exists w', data. split; [exact E|exact Hd].
Defined.

Definition rejecting : Hook MemStore.world :=
  MkHook (λ _ req resp, mret (None, Some (ClientError (bs "no")), req, resp)) (λ c q r, mret (c, None, q, r)) None.

Lemma prehook_error_ends_witness :
  Logic_HandleAnnounce (NewLogic 1800 900 [rejecting] []) (Some Background) (announce1 Started hash1 0) world1 =
    Some (world1, (None, None, Some (ClientError (bs "no")), announce1 Started hash1 0)).
Proof.
  exact (prehook_error_ends (NewLogic 1800 900 [rejecting] []) [] [responseHook] rejecting
    (Some Background) (Some Background) None _ _ _ _ _ _ _ _ _ eq_refl eq_refl eq_refl).
Defined.

Lemma v2_seeder_counted_twice_witness :
  ∃ w', AfterAnnounce logic1 (Some Background) (announce1 Started hash2 0) response1 world1 = Some (w', ()) ∧
        count_of (st_view w') Seeder hash2 = 2.
Proof.
  refine (v2_seeder_counted_twice 0 world1 1800 900 Background (announce1 Started hash2 0) response1 peer1
    (world1_inv _) eq_refl eq_refl I eq_refl eq_refl eq_refl _).
  intros ih _. unfold st_view, MemStore.memory_StorageSpec, MemStore.store_view.
  cbn [MemStore.w_store world1]. by rewrite MemStore.new_tview.
Defined.

(** The storage after the seeder [peer1] announced itself. *)
Lemma seeded_world :
  ∃ w, st_inv (S := MemStore.world) 0 w ∧ peer1 ∈ st_view w Seeder hash1 ∧
    (∀ rl ih q, q ∈ st_view w rl ih → uint 16 (peer_Port q)) ∧
    0 <= total_available (st_view w) false (fetch_args hash1 false) <= 50.
Proof.
  destruct (plain_logic_after 1800 900 Background (announce1 Started hash1 0) response1 0 world1
    (world1_inv _) (or_introl eq_refl) (peers1_ok _ _ _) eq_refl) as (w & E & Hi & Hv).
  exists w. split; [exact Hi|]. split; [|split].
  - apply Hv. unfold announced. rewrite decide_True; [by left|].
    apply (in_announce_pairs (announce1 Started hash1 0)). apply list_elem_of_singleton. reflexivity.
  - intros rl ih q Hq%Hv. unfold announced in Hq. case_decide as Hd.
    + unfold announce_pairs in Hd. cbn [announce1 ar_RequestPeer Peers rp_Addresses] in Hd.
      apply list_elem_of_bind in Hd as (p & Hq2 & Hp). apply list_elem_of_fmap in Hq2 as (h & [= _ ->] & _).
      revert Hp. intros ->%list_elem_of_singleton. split; [discriminate|reflexivity].
    + exfalso. revert Hq. unfold st_view, MemStore.memory_StorageSpec, MemStore.store_view.
      cbn [MemStore.w_store world1]. rewrite MemStore.new_tview. apply not_elem_of_empty.
  - split; [apply total_available_nonneg|].
    assert ((λ x, bool_decide (total_available (st_view x.1) false (fetch_args hash1 false) ≤ 50)) <$>
      AfterAnnounce logic1 (Some Background) (announce1 Started hash1 0) response1 world1 = Some true) as Hb
      by (apply (bool_decide_eq_true_1 _); vm_cast_no_check (eq_refl true)).
    unfold logic1 in Hb. rewrite E in Hb. injection Hb as Hb. by apply bool_decide_eq_true in Hb.
Qed.
