(* ===== verification/Server.v ===== *)
(** * The server: [cmd/mochi]

    The composition of the tracker from its configuration and its shutdown
    (src/cmd/mochi/server.go), over the registries of the other files, and the
    configuration of a quick start (src/cmd/mochi/config.go). *)

From S2P Require Import Prelude GoStd Netip Bittorrent Storage Memory Frontend Hooks.

Local Open Scope Z_scope.

Section Server.
Context {S MapConfig St Fe : Type} `{PeerStorage S}.

(** A configured part: [conf.NamedMapConfig]. *)
Abbreviation NamedMapConfig := (bytes * MapConfig)%type.

Record Config := MkConfig {
  AnnounceInterval : Z;
  MinAnnounceInterval : Z;
  MetricsAddr : bytes;
  Frontends : list NamedMapConfig;
  cfg_Storage : NamedMapConfig;
  PreHooks : list NamedMapConfig;
  PostHooks : list NamedMapConfig;
}.

(** What a server closes first: the metrics server and the frontends. *)
Inductive listener := MetricsServer (addr : bytes) | FrontendListener (f : Fe).

Record Server := MkServer {
  srv_frontends : list listener;
  srv_hooks : list (Hook S);
  srv_storage : option St;
}.

Definition empty_server : Server := MkServer [] [] None.

Definition wrapped (msg : bytes) (err : GoError) : GoError := OtherError (msg ++ Error_msg err).
Definition errStorage : GoError → GoError := wrapped (bs "failed to create storage: ").
Definition errPreHooks : GoError → GoError := wrapped (bs "failed to configure pre-hooks: ").
Definition errPostHooks : GoError → GoError := wrapped (bs "failed to configure post-hooks: ").
Definition errFrontends : GoError → GoError := wrapped (bs "failed to configure frontends: ").
Definition errNoFrontends : GoError := OtherError (bs "no frontends configured").

(** The registries: the storage and error of [NewStorage], nil being [None]; a
    hook's builder is given the storage and a frontend's the logic.
    [is_closer]: the hook is an [io.Closer]. *)
Context (newStorage : NamedMapConfig → option St * error).
Context (hookBuilders : option St → gmap bytes (Hooks.Builder (S := S) (MapConfig := MapConfig))).
Context (frontendBuilders : Logic S → gmap bytes (Frontend.Builder (MapConfig := MapConfig) (Frontend := Fe))).
Context (is_closer : Hook S → bool).

(** The metrics server, unless its address is empty. *)
Definition metrics_listeners (cfg : Config) : list listener :=
  if decide (MetricsAddr cfg = []) then [] else [MetricsServer (MetricsAddr cfg)].

(** The server as far as it was built, and the error. *)
Definition Run (r : Server) (cfg : Config) : Server * error :=
  let r := MkServer (srv_frontends r ++ metrics_listeners cfg) (srv_hooks r) (srv_storage r) in
  let '(st, err) := newStorage (cfg_Storage cfg) in
  let r := MkServer (srv_frontends r) (srv_hooks r) st in
  match err with
  | Some e => (r, Some (errStorage e))
  | None =>
      let '(preHooks, err) := NewHooks (hookBuilders st) (PreHooks cfg) [] in
      match err with
      | Some e => (r, Some (errPreHooks e))
      | None =>
          let r := MkServer (srv_frontends r) (srv_hooks r ++ List.filter is_closer preHooks) (srv_storage r) in
          let '(postHooks, err) := NewHooks (hookBuilders st) (PostHooks cfg) [] in
          match err with
          | Some e => (r, Some (errPostHooks e))
          | None =>
              let r := MkServer (srv_frontends r) (srv_hooks r ++ List.filter is_closer postHooks) (srv_storage r) in
              if decide (Frontends cfg = []) then (r, Some errNoFrontends)
              else
                let logic := NewLogic (AnnounceInterval cfg) (MinAnnounceInterval cfg) preHooks postHooks in
                let '(fs, err) := NewFrontends (frontendBuilders logic) (Frontends cfg) [] in
                match err with
                | None => (MkServer (srv_frontends r ++ (FrontendListener <$> fs)) (srv_hooks r) (srv_storage r), None)
                | Some e => (r, Some (errFrontends e))
                end
          end
      end
  end.

(** What [Shutdown] closes, in order: each group is closed before the next. *)
Inductive closing :=
  | CloseListeners (ls : list listener)
  | CloseHooks (hs : list (Hook S))
  | CloseStorage (st : St).

Definition Shutdown (r : Server) : list closing :=
  [CloseListeners (srv_frontends r); CloseHooks (srv_hooks r)] ++
  match srv_storage r with Some st => [CloseStorage st] | None => [] end.

(** The configuration of a quick start; [c] is the empty map. *)
Definition QuickConfig (c : MapConfig) : Config :=
  MkConfig 0 0 [] [(bs "http", c); (bs "udp", c)] (bs "memory", c) [] [].

(** ** Facts *)

(** The hooks, or frontends, that a list of configurations gives when all of
    them can be built. *)
Lemma NewHooks_ok builders configs hooks hooks' :
  NewHooks builders configs hooks = (hooks', None) →
  ∃ hs, hooks' = hooks ++ hs ∧
    Forall2 (λ c h, ∃ b : Hooks.Builder (S := S) (MapConfig := MapConfig), builders !! c.1 = Some b ∧ b c.2 = Ok h) configs hs.
Proof.
  revert hooks. induction configs as [|[name c] configs IH]; intros hooks; cbn [NewHooks].
  { intros Hh%(f_equal fst). cbn [fst] in Hh. subst hooks'. exists []. by rewrite app_nil_r. }
  destruct (builders !! name) as [b|] eqn:Eb; [|done]. destruct (b c) as [h|e] eqn:E; [|done].
  intros (hs & -> & Hhs)%IH. exists (h :: hs). rewrite <-app_assoc. split; [done|].
  constructor; [by exists b|done].
Qed.

Lemma NewFrontends_ok (builders : gmap bytes (Frontend.Builder (MapConfig := MapConfig) (Frontend := Fe))) configs fs fs' :
  NewFrontends builders configs fs = (fs', None) →
  ∃ l, fs' = fs ++ l ∧ Forall2 (λ c f, ∃ b, builders !! c.1 = Some b ∧ b c.2 = Ok f) configs l.
Proof.
  revert fs. induction configs as [|[name c] configs IH]; intros fs; cbn [NewFrontends].
  { intros Hh%(f_equal fst). cbn [fst] in Hh. subst fs'. exists []. by rewrite app_nil_r. }
  destruct (builders !! name) as [b|] eqn:Eb; [|done]. destruct (b c) as [f|e] eqn:E; [|done].
  intros (l & -> & Hl)%IH. exists (f :: l). rewrite <-app_assoc. split; [done|].
  constructor; [by exists b|done].
Qed.

Definition built_hooks (st : option St) : list NamedMapConfig → list (Hook S) → Prop :=
  Forall2 (λ c h, ∃ b, hookBuilders st !! c.1 = Some b ∧ b c.2 = Ok h).

Definition built_frontends (logic : Logic S) : list NamedMapConfig → list Fe → Prop :=
  Forall2 (λ c f, ∃ b, frontendBuilders logic !! c.1 = Some b ∧ b c.2 = Ok f).

(** ** Properties *)

(** C35: a server that starts without an error has, for each configured frontend
    in order, the one its builder made with one and the same logic: that of the
    configured intervals, the configured pre-hooks before the response hook and
    the configured post-hooks before the swarm interaction, all hooks built on
    the one configured storage.  Shutting it down closes the metrics server and
    exactly these frontends, then exactly the hooks that can be closed, and the
    storage last. *)
Theorem Run_composes (cfg : Config) (r : Server) :
  Run empty_server cfg = (r, None) →
  ∃ st preHooks postHooks fs,
    newStorage (cfg_Storage cfg) = (st, None) ∧
    built_hooks st (PreHooks cfg) preHooks ∧ built_hooks st (PostHooks cfg) postHooks ∧
    built_frontends (NewLogic (AnnounceInterval cfg) (MinAnnounceInterval cfg) preHooks postHooks) (Frontends cfg) fs ∧
    fs ≠ [] ∧
    Shutdown r =
      [CloseListeners (metrics_listeners cfg ++ (FrontendListener <$> fs));
       CloseHooks (List.filter is_closer (preHooks ++ postHooks))] ++ (CloseStorage <$> option_list st).
Proof.
  unfold Run. destruct (newStorage (cfg_Storage cfg)) as [st [e|]]; [done|].
  destruct (NewHooks _ (PreHooks cfg) []) as [preHooks [e|]] eqn:Epre; [done|].
  destruct (NewHooks _ (PostHooks cfg) []) as [postHooks [e|]] eqn:Epost; [done|].
  destruct (decide (Frontends cfg = [])) as [|Hne]; [done|].
  destruct (NewFrontends _ _ []) as [fs [e|]] eqn:Efs; [done|].
  intros Hr%(f_equal fst). cbn [fst srv_frontends srv_hooks srv_storage] in Hr. subst r.
  apply NewHooks_ok in Epre as (? & -> & Hpre). apply NewHooks_ok in Epost as (? & -> & Hpost).
  apply NewFrontends_ok in Efs as (fs' & -> & Hfs).
  eexists st, _, _, fs'. split; [done|]. split; [exact Hpre|]. split; [exact Hpost|]. split; [exact Hfs|].
  split; [intros ->; by apply Forall2_nil_inv_r in Hfs|].
  unfold Shutdown. cbn [srv_frontends srv_hooks srv_storage empty_server app].
  rewrite List.filter_app. by destruct st.
Qed.

(** A server that failed to start holds no frontend: those that were built
    before the failing one run, and [Shutdown] does not close them. *)
Theorem Run_forgets_frontends (cfg : Config) (r : Server) (e : GoError) :
  Run empty_server cfg = (r, Some e) → srv_frontends r = metrics_listeners cfg.
Proof.
  unfold Run. intros Hr.
  destruct (newStorage (cfg_Storage cfg)) as [st [?|]]; [by simplify_eq|].
  destruct (NewHooks _ (PreHooks cfg) []) as [? [?|]]; [by simplify_eq|].
  destruct (NewHooks _ (PostHooks cfg) []) as [? [?|]]; [by simplify_eq|].
  destruct (decide (Frontends cfg = [])); [by simplify_eq|].
  destruct (NewFrontends _ _ []) as [fs [?|]]; by simplify_eq.
Qed.

End Server.

Arguments Config : clear implicits.
Arguments Server : clear implicits.

(** ** Witness: the quick start *)

#[local] Existing Instance MemStore.memory_PeerStorage.

(** The memory storage as the drivers register it, and frontends that keep
    their logic's interval. *)
Definition quick_run : Server MemStore.world unit (bytes * Z) * error :=
  Run (λ c : bytes * unit, if decide (c.1 = bs "memory") then (Some (), None) else (None, Some (ErrNoDriver c.1)))
      (λ _, ∅)
      (λ logic, <[bs "http" := λ _, Ok (bs "http", announceInterval logic)]>
                 {[bs "udp" := λ _, Ok (bs "udp", announceInterval logic)]})
      (λ _, false) empty_server (QuickConfig ()).

Lemma Run_composes_witness : ∃ fs : list (bytes * Z),
  Shutdown quick_run.1 = [CloseListeners (FrontendListener <$> fs); CloseHooks []; CloseStorage ()] ∧
  fs = [(bs "http", 0); (bs "udp", 0)].
Proof.
  assert (quick_run = (quick_run.1, None)) as Hrun by (vm_compute; reflexivity).
  destruct (Run_composes _ _ _ _ _ _ Hrun) as (st & pre & post & fs & Hst & Hpre & Hpost & Hfs & Hne & Hs).
  apply Forall2_nil_inv_l in Hpre. apply Forall2_nil_inv_l in Hpost. subst pre post.
  assert (st = Some ()) as -> by by (vm_compute in Hst; congruence).
  exists fs. split; [exact Hs|].
  apply Forall2_cons_inv_l in Hfs as (f1 & l1 & (b1 & Hb1 & Hf1) & Hl & ->).
  apply Forall2_cons_inv_l in Hl as (f2 & l2 & (b2 & Hb2 & Hf2) & Hl & ->).
  apply Forall2_nil_inv_l in Hl as ->.
  vm_compute in Hb1, Hb2. simplify_eq/=. done.
Defined.
