(* ===== verification/Main.v ===== *)
(** * The program: [main]

    src/cmd/mochi/main.go with the reading of the configuration file
    (src/cmd/mochi/config.go) and the closing of a group of parts by the server
    (src/cmd/mochi/server.go).  The command line, the file system and the YAML
    decoder are parameters. *)

From S2P Require Import Prelude GoStd Log Storage Frontend Hooks.
From S2P Require Server.

Local Open Scope Z_scope.

Module Main.

(** ** Closing a group

    [closeGroup]: as [CloseGroup] of [Frontend], with a goroutine for every
    element; none is nil. *)

Definition start (cls : list error) : group := start_group (Some <$> cls).

(** The errors logged once the wait returns. *)
Definition nnErrs (cls : list error) (g : group) : list GoError := noted (length cls) (g_errs g).

Lemma no_nils (cls : list error) : nils (Some <$> cls) = 0.
Proof. unfold nils. induction cls as [|e cls IH]; [done|]. by rewrite fmap_cons, list.filter_cons, decide_False. Qed.

(** However the goroutines interleave, closing goes on until all have finished,
    returns then only, and has every error, in the order of the elements. *)
Lemma closeGroup_returns (cls : list error) (g : group) :
  rtc group_step (start cls) g →
  (wait_returns g → nnErrs cls g = omap id cls) ∧ (¬ wait_returns g → ∃ g', group_step g g').
Proof.
  intros H. pose proof (group_counter _ _ H) as Hc. rewrite no_nils in Hc. unfold wait_returns. split.
  - intros Hw. unfold nnErrs. pose proof (group_noted _ _ H) as Hn. rewrite length_fmap in Hn. rewrite Hn.
    + clear. induction cls as [|e cls IH]; [done|]. cbn [fmap list_fmap omap list_omap mjoin option_join]. unfold id at 1. by rewrite IH.
    + apply nil_length_inv. lia.
  - intros Hw. destruct g as [n [|[i e] rs] errs]; cbn [g_counter g_running length] in *; [by destruct Hw|].
    eexists. apply (group_done n [] i e rs errs).
Qed.

Section Main.
Context `{Log.Zerolog} `{Unicode}.
Context {S MapConfig St Fe : Type} `{PeerStorage S}.
Context (newStorage : bytes * MapConfig → option St * error).
Context (hookBuilders : option St → gmap bytes (Hooks.Builder (S := S) (MapConfig := MapConfig))).
Context (frontendBuilders : Logic S → gmap bytes (Frontend.Builder (MapConfig := MapConfig) (Frontend := Fe))).
Context (is_closer : Hook S → bool).

Abbreviation Config := (Server.Config MapConfig).
Abbreviation Server := (Server.Server S St Fe).
Abbreviation closing := (@Server.closing S St Fe).

(** The file system and the decoder, which returns what it has read next to an
    error. *)
Context {OpenedFile : Type} (ExpandEnv : bytes → bytes) (Open : bytes → result OpenedFile).
Context (yaml_Decode : OpenedFile → Config * error) (empty_map : MapConfig).

Definition errNoPath : GoError := OtherError (bs "no config path specified").

Definition ParseConfigFile (path : bytes) : option Config * error :=
  if decide (path = []) then (None, Some errNoPath)
  else
    match Open (ExpandEnv path) with
    | Ok f => let '(cfgFile, err) := yaml_Decode f in (Some cfgFile, err)
    | Err e => (None, Some e)
    end.

(** The command line. *)
Record flags := MkFlags {
  logOut : bytes;
  logLevel : bytes;
  logPretty : bool;
  logColored : bool;
  configPath : bytes;
  quickStart : bool;
}.

(** How the program ends: by [log.Fatal], which exits without the deferred
    [Shutdown], or after a signal, with what was closed. *)
Inductive ending := Fatal (msg : bytes) (err : GoError) | Signalled (closed : list closing).

Definition main (a : flags) : ending :=
  match (Log.ConfigureLogger (logOut a) (logLevel a) (logPretty a) (logColored a) Log.initial).2 with
  | Some err => Fatal (bs "unable to configure logger: ") err
  | None =>
      let '(cfg, err) := if quickStart a then (Some (Server.QuickConfig empty_map), None)
                         else ParseConfigFile (configPath a) in
      match err, cfg with
      | Some err, _ => Fatal (bs "unable to read config file: ") err
      | None, None => Fatal (bs "unable to read config file: ") errNoPath (* not reached *)
      | None, Some cfg =>
          match Server.Run newStorage hookBuilders frontendBuilders is_closer Server.empty_server cfg with
          | (s, Some err) => Fatal (bs "unable to start server: ") err
          | (s, None) => Signalled (Server.Shutdown s)
          end
      end
  end.

Lemma ParseConfigFile_some path : (ParseConfigFile path).1 = None → (ParseConfigFile path).2 ≠ None.
Proof.
  unfold ParseConfigFile. case_decide; [done|].
  destruct (Open _) as [f|e']; [by destruct (yaml_Decode f)|done].
Qed.

(** The program waits for a signal and then closes what it started only if the
    whole server started; otherwise whatever was started is left to the end of
    the process. *)
Lemma main_signalled (a : flags) (closed : list closing) :
  main a = Signalled closed →
  ∃ cfg s, (quickStart a = true ∧ cfg = Server.QuickConfig empty_map ∨
            quickStart a = false ∧ ParseConfigFile (configPath a) = (Some cfg, None)) ∧
    Server.Run newStorage hookBuilders frontendBuilders is_closer Server.empty_server cfg = (s, None) ∧
    closed = Server.Shutdown s.
Proof.
  unfold main. destruct (Log.ConfigureLogger _ _ _ _ _).2; [done|].
  destruct (quickStart a) eqn:Eq.
  - destruct (Server.Run _ _ _ _ _ _) as [s [e|]] eqn:Er; [done|]. intros [= <-]. by eauto 8.
  - destruct (ParseConfigFile (configPath a)) as [[cfg|] [e|]] eqn:Ep; try done.
    destruct (Server.Run _ _ _ _ _ _) as [s [e|]] eqn:Er; [done|]. intros [= <-]. by eauto 8.
Qed.
End Main.
End Main.
