(* ===== verification/Approval.v ===== *)
(** * Middleware that approves clients and torrents

    [middleware/clientapproval] (a list of client IDs) and
    [middleware/torrentapproval] with its containers of info hashes
    (src/middleware/torrentapproval/container/...), as pre-hooks.  The containers
    keep their hashes in any data storage: the theorems are proved against
    [DataSpec]. *)

From S2P Require Import Prelude GoStd Netip Bittorrent Storage Memory DataStore Hooks Tracker.

Local Open Scope Z_scope.

(** A hook that lets scrapes pass. *)
Definition scrape_unaltered {S} : hook_fn S ScrapeRequest ScrapeResponse := λ ctx req resp,
  mret (ctx, None, req, resp).

(** ** Client approval *)

Module ClientApproval.

Definition ErrClientUnapproved : GoError := ClientError (bs "client not allowed by mochi").

(** [ClientID]: six bytes of a peer ID, behind a leading dash. *)
Definition NewClientID (pid : PeerID) : bytes :=
  match pid with
  | "-"%byte :: rest => take 6 rest
  | _ => take 6 pid
  end.

Record Config := MkConfig {
  ClientIDList : list bytes;
  Invert : bool;
}.

Record hook := MkHook {
  clientIDs : gset bytes;
  invert : bool;
}.

Definition ErrClientIDLength (cid : bytes) : GoError :=
  OtherError (bs "client ID " ++ cid ++ bs " must be 6 bytes").

Fixpoint add_ids (l : list bytes) (ids : gset bytes) : result (gset bytes) :=
  match l with
  | [] => Ok ids
  | cid :: l => if decide (length cid ≠ 6%nat) then Err (ErrClientIDLength cid) else add_ids l ({[cid]} ∪ ids)
  end.

Definition build (cfg : Config) : result hook :=
  ids ← add_ids (ClientIDList cfg) ∅;
  Ok (MkHook ids (Invert cfg)).

Definition HandleAnnounce {S} (h : hook) : hook_fn S AnnounceRequest AnnounceResponse := λ ctx req resp,
  let contains := bool_decide (NewClientID (rp_ID (ar_RequestPeer req)) ∈ clientIDs h) in
  let err := if bool_decide (contains = invert h) then Some ErrClientUnapproved else None in
  mret (ctx, err, req, resp).

Definition Hook_of {S} (h : hook) : Hook S := Hooks.MkHook (HandleAnnounce h) scrape_unaltered None.

End ClientApproval.

(** ** Containers of info hashes *)

Module Container.

Definition DefaultStorageCtxName : bytes := bs "MW_APPROVAL".
Definition ErrContainerDoesNotExist : GoError :=
  OtherError (bs "torrent hash container with that name does not exist").

Section Registry.
Context {MapConfig S : Type}.

(** What a container does, over a storage. *)
Definition Approved_fn : Type := option Context → InfoHash → M S bool.
Definition Builder : Type := MapConfig → M S (result Approved_fn).

(** A later builder replaces one of the same name; [None] is a panic. *)
Definition Register (n : bytes) (c : option Builder) : M (gmap bytes Builder) () := λ builders,
  if decide (n = []) then None
  else match c with
       | None => None
       | Some c => Some (<[n := c]> builders, ())
       end.

Definition GetContainer (builders : gmap bytes Builder) (name : bytes) (config : MapConfig)
    : M S (result Approved_fn) :=
  match builders !! name with
  | None => mret (Err ErrContainerDoesNotExist)
  | Some builder => builder config
  end.

End Registry.

End Container.

(** ** The list container *)

Module HashList.

Record Config := MkConfig {
  HashList : list bytes;
  Invert : bool;
  StorageCtx : bytes;
}.

Definition DUMMY : bytes := bs "_".

Record List := MkList {
  l_Invert : bool;
  l_StorageCtx : bytes;
}.

Definition ctx_or_default (ctx : bytes) : bytes :=
  if decide (ctx = []) then Container.DefaultStorageCtxName else ctx.

(** The entries of the configured hashes; a v2 hash is put in both forms. *)
Definition hash_entries (ih : InfoHash) : list Entry :=
  MkEntry ih DUMMY ::
  (if decide (length ih = InfoHashV2Len) then [MkEntry (TruncateV1 ih) DUMMY] else []).

Definition ErrHash (hashString : bytes) (err : GoError) : GoError :=
  OtherError (bs "whitelist : " ++ hashString ++ bs " : " ++ Error_msg err).
Definition ErrInitial (err : GoError) : GoError :=
  OtherError (bs "unable to put initial data: " ++ Error_msg err).

Fixpoint initial (hashes : list bytes) (init : list Entry) : result (list Entry) :=
  match hashes with
  | [] => Ok init
  | h :: hashes =>
      match NewInfoHashString h with
      | Err e => Err (ErrHash h e)
      | Ok ih => initial hashes (init ++ hash_entries ih)
      end
  end.

Section Storage.
Context {S : Type} `{DataStorage S}.

Definition build (c : Config) : M S (result List) :=
  let l := MkList (Invert c) (ctx_or_default (StorageCtx c)) in
  if decide (HashList c = []) then mret (Ok l)
  else
    match initial (HashList c) [] with
    | Err e => mret (Err e)
    | Ok init =>
        err ← Put (l_StorageCtx l) init;
        mret (match err with Some e => Err (ErrInitial e) | None => Ok l end)
    end.

(** The second error is looked up in the wrong variable and dropped. *)
Definition Approved (l : List) (hash : InfoHash) : M S bool :=
  '(contains, err) ← Contains (l_StorageCtx l) hash;
  contains ← (if bool_decide (err = None) && bool_decide (length hash = InfoHashV2Len) then
                '(containsV2, _) ← Contains (l_StorageCtx l) (TruncateV1 hash);
                mret ((contains : bool) || containsV2)
              else mret contains);
  mret (negb (bool_decide (contains = l_Invert l))).

End Storage.

End HashList.

(** ** The directory container *)

Module Directory.
Import HashList.

Record Config := MkConfig {
  dir_Config : HashList.Config;
  Path : bytes;
}.

(** An event of the directory watcher (a dependency), with what loading its
    torrent file gives: nothing, or the SHA-256 sum of its info dictionary and
    the name in it, when that can be decoded. *)
Inductive change := Added | Removed | OtherChange.
Record event := MkEvent {
  e_Change : change;
  e_InfoHash : InfoHash;
  e_loaded : option (bytes * option bytes);
}.

Definition torrent_name (info : option bytes) : bytes :=
  let name := default [] info in if decide (name = []) then DUMMY else name.

Section Storage.
Context {S : Type} `{DataStorage S}.

Definition ErrWatch (err : GoError) : GoError :=
  OtherError (bs "unable to initialize directory watch: " ++ Error_msg err).

(** [watch]: the error of starting the watcher. *)
Definition build (c : Config) (watch : error) : result List :=
  let d := MkList (Invert (dir_Config c)) (ctx_or_default (StorageCtx (dir_Config c))) in
  match watch with Some e => Err (ErrWatch e) | None => Ok d end.

(** The goroutine's handling of one event; errors of the storage are logged. *)
Definition handle_event (c : Config) (d : List) (e : event) : M S () :=
  match e_loaded e with
  | None => mret ()
  | Some (sum, info) =>
      let v2hash := match NewInfoHash sum with Ok ih => ih | Err _ => [] end in
      match e_Change e with
      | Added =>
          let bName := torrent_name info in
          _ ← Put (l_StorageCtx d)
                [MkEntry (e_InfoHash e) bName; MkEntry v2hash bName; MkEntry (TruncateV1 v2hash) bName];
          mret ()
      | Removed =>
          _ ← Delete (StorageCtx (dir_Config c)) [e_InfoHash e; v2hash; TruncateV1 v2hash];
          mret ()
      | OtherChange => mret ()
      end
  end.

Fixpoint handle_events (c : Config) (d : List) (es : list event) : M S () :=
  match es with
  | [] => mret ()
  | e :: es => _ ← handle_event c d e; handle_events c d es
  end.

End Storage.

End Directory.

(** ** Torrent approval *)

Module TorrentApproval.

Definition ErrTorrentUnapproved : GoError := ClientError (bs "torrent not allowed by mochi").

Record baseConfig (MapConfig : Type) := MkBaseConfig {
  Source : bytes;
  Preserve : bool;
  Configuration : option MapConfig;
}.
Arguments MkBaseConfig {MapConfig}.
Arguments Source {MapConfig}.
Arguments Preserve {MapConfig}.
Arguments Configuration {MapConfig}.

Definition ErrNoSource : GoError :=
  OtherError (bs "invalid config for middleware torrent approval: source not provided").
Definition ErrNoConfig : GoError :=
  OtherError (bs "invalid config for middleware torrent approval: config not provided").

(** The storage the container gets: the registered one, or a fresh in-memory one. *)
Inductive chosen := Registered | FreshMemory.

Definition choose_storage (preserve preservable : bool) : chosen :=
  if negb preserve && preservable then FreshMemory else Registered.

(** The checks of [build] before the container is made. *)
Definition check_config {MapConfig} (cfg : baseConfig MapConfig) (preservable : bool)
    : result (bytes * MapConfig * chosen) :=
  if decide (Source cfg = []) then Err ErrNoSource
  else
    match Configuration cfg with
    | None => Err ErrNoConfig
    | Some c => Ok (Source cfg, c, choose_storage (Preserve cfg) preservable)
    end.

Section Hook.
Context {S : Type}.

Definition HandleAnnounce (Approved : option Context → InfoHash → M S bool)
    : hook_fn S AnnounceRequest AnnounceResponse := λ ctx req resp,
  approved ← Approved ctx (ar_InfoHash req);
  let err := if (approved : bool) then None else Some ErrTorrentUnapproved in
  mret (ctx, err, req, resp).

Definition Hook_of (Approved : option Context → InfoHash → M S bool) : Hook S :=
  Hooks.MkHook (HandleAnnounce Approved) scrape_unaltered None.

End Hook.

End TorrentApproval.

(** ** Facts *)

Section ListFacts.
Import HashList.
Context {S : Type} `{DataSpec S}.

(** The configured hashes, in both forms when they are v2. *)
Definition listed_keys (hashes : list bytes) : list InfoHash :=
  h ← hashes; match NewInfoHashString h with Ok ih => targets ih | Err _ => [] end.

(** Whether an info hash, or its truncated form, is listed. *)
Definition listed (hashes : list bytes) (hash : InfoHash) : bool :=
  bool_decide (hash ∈ listed_keys hashes)
  || is_v2 hash && bool_decide (TruncateV1 hash ∈ listed_keys hashes).

Lemma hash_entries_keys ih : entry_Key <$> hash_entries ih = targets ih.
Proof. unfold hash_entries, targets, is_v2. by repeat case_decide; repeat case_bool_decide. Qed.

Lemma initial_spec hashes init :
  match initial hashes init with
  | Ok out => Forall (λ h, ∃ ih, NewInfoHashString h = Ok ih) hashes ∧
              entry_Key <$> out = (entry_Key <$> init) ++ listed_keys hashes
  | Err e => ∃ h e', h ∈ hashes ∧ NewInfoHashString h = Err e' ∧ e = ErrHash h e'
  end.
Proof.
  revert init. induction hashes as [|h hashes IH]; intros init; cbn [initial].
  { split; [done|]. by rewrite app_nil_r. }
  destruct (NewInfoHashString h) as [ih|e] eqn:E.
  - specialize (IH (init ++ hash_entries ih)). destruct (initial _ _) as [out|e].
    + destruct IH as [Hall Hk]. split; [constructor; eauto|].
      rewrite Hk, fmap_app, hash_entries_keys, <-app_assoc. unfold listed_keys at 2.
      cbn [mbind list_bind]. by rewrite E.
    + destruct IH as (h' & e' & Hin & ?). exists h', e'. split; [by apply list.elem_of_cons; right|done].
  - exists h, e. split; [apply list.elem_of_cons; by left|done].
Qed.

Lemma last_filter_key (vs : list Entry) k :
  is_Some (list.last (filter (λ e, entry_Key e = k) vs)) ↔ k ∈ entry_Key <$> vs.
Proof.
  rewrite list_elem_of_fmap. split.
  - intros [e He]. apply last_Some_elem_of, list_elem_of_filter in He as [<- ?]. by exists e.
  - intros (e & -> & He). destruct (list.last _) eqn:El; [eauto|].
    apply last_None in El. assert (e ∈ filter (λ e', entry_Key e' = entry_Key e) vs) as Hin
      by by apply list_elem_of_filter. rewrite El in Hin. by apply elem_of_nil in Hin.
Qed.

Lemma Approved_run (l : List) hash s :
  ds_ok s →
  let has k := bool_decide (is_Some (ds_get s (l_StorageCtx l) k)) in
  Approved l hash s =
    Some (s, xorb (has hash || is_v2 hash && has (TruncateV1 hash)) (l_Invert l)).
Proof.
  intros Hok has. unfold Approved. rewrite (M_bind_Some _ _ _ _ _ (ds_Contains s _ hash Hok)).
  rewrite bool_decide_eq_true_2 by done. cbn [andb]. fold (is_v2 hash). fold (has hash).
  assert (∀ b c : bool, negb (bool_decide (b = c)) = xorb b c) as Hx by (intros [] []; done).
  destruct (is_v2 hash); cbn [andb].
  - rewrite (M_bind_Some _ _ s s (has hash || has (TruncateV1 hash))).
    + unfold mret, Prelude.M_ret. by rewrite Hx.
    + by rewrite (M_bind_Some _ _ _ _ _ (ds_Contains s _ (TruncateV1 hash) Hok)).
  - rewrite (M_bind_Some _ _ s s (has hash)) by done. unfold mret, Prelude.M_ret. by rewrite Hx, orb_false_r.
Qed.

Lemma build_run (c : Config) s :
  ds_ok s →
  match initial (HashList c) [] with
  | Err e => HashList.build c s = Some (s, Err e)
  | Ok init =>
      ∃ s', HashList.build c s = Some (s', Ok (MkList (Invert c) (ctx_or_default (StorageCtx c)))) ∧ ds_ok s' ∧
        ∀ ctx k, is_Some (ds_get s' ctx k) ↔
          is_Some (ds_get s ctx k) ∨ ctx = ctx_or_default (StorageCtx c) ∧ k ∈ listed_keys (HashList c)
  end.
Proof.
  intros Hok. unfold HashList.build. pose proof (initial_spec (HashList c) []) as Hi.
  case_decide as Hd.
  { rewrite Hd in Hi |- *. cbn [initial]. exists s. split; [done|]. split; [done|].
    intros ctx k. split; [auto|]. intros [?|[_ ?%elem_of_nil]]; done. }
  destruct (initial _ _) as [init|e]; [|done]. destruct Hi as [_ Hk]. cbn [app fmap list_fmap] in Hk.
  destruct (ds_Put s (ctx_or_default (StorageCtx c)) init Hok) as (s' & E & Hok' & Hg).
  exists s'. cbn [l_StorageCtx]. rewrite (M_bind_Some _ _ _ _ _ E). split; [done|]. split; [done|].
  intros ctx k. rewrite Hg. rewrite <-Hk, <-last_filter_key.
  destruct (decide (ctx = _)) as [->|Hne]; [|naive_solver].
  destruct (list.last _) as [e|]; [|naive_solver]. split; [eauto|]. by eexists.
Qed.

End ListFacts.

(** ** Properties *)

(** Client approval: the hook is built exactly from lists of six-byte client
    IDs, and it then refuses an announce exactly when the client's ID is listed
    and the list is a blacklist, or is not listed and it is a whitelist. *)
Theorem client_approval {S} (cfg : ClientApproval.Config) :
  match ClientApproval.build cfg with
  | Ok h =>
      Forall (λ cid, length cid = 6%nat) (ClientApproval.ClientIDList cfg) ∧
      ∀ ctx req resp (s : S),
        HandleAnnounce (ClientApproval.Hook_of h) ctx req resp s =
          Some (s, (ctx,
            (if bool_decide (ClientApproval.NewClientID (rp_ID (ar_RequestPeer req)) ∈ ClientApproval.ClientIDList cfg)
             then if ClientApproval.Invert cfg then Some ClientApproval.ErrClientUnapproved else None
             else if ClientApproval.Invert cfg then None else Some ClientApproval.ErrClientUnapproved), req, resp))
  | Err e => ∃ cid, cid ∈ ClientApproval.ClientIDList cfg ∧ length cid ≠ 6%nat ∧
               e = ClientApproval.ErrClientIDLength cid
  end.
Proof.
  unfold ClientApproval.build.
  assert (∀ l ids, match ClientApproval.add_ids l ids with
    | Ok ids' => Forall (λ cid, length cid = 6%nat) l ∧ ∀ x, x ∈ ids' ↔ x ∈ ids ∨ x ∈ l
    | Err e => ∃ cid, cid ∈ l ∧ length cid ≠ 6%nat ∧ e = ClientApproval.ErrClientIDLength cid
    end) as Ha.
  { induction l as [|cid l IH]; intros ids; cbn [ClientApproval.add_ids].
    { split; [done|]. intros x. rewrite elem_of_nil. tauto. }
    case_decide as Hd; [exists cid; by rewrite list.elem_of_cons; auto|].
    specialize (IH ({[cid]} ∪ ids)). destruct (ClientApproval.add_ids _ _) as [ids'|e].
    - destruct IH as [Hall Hin]. split; [constructor; [lia|done]|].
      intros x. rewrite Hin, elem_of_union, elem_of_singleton, list.elem_of_cons. tauto.
    - destruct IH as (c & Hc & ?). exists c. rewrite list.elem_of_cons. auto. }
  specialize (Ha (ClientApproval.ClientIDList cfg) ∅).
  destruct (ClientApproval.add_ids _ _) as [ids|e]; [|exact Ha]. destruct Ha as [Hall Hin]. cbn [mbind result_bind].
  split; [done|]. intros ctx req resp s.
  cbn [HandleAnnounce ClientApproval.Hook_of]. unfold ClientApproval.HandleAnnounce.
  cbn [ClientApproval.clientIDs ClientApproval.invert].
  rewrite (bool_decide_ext (_ ∈ ids) (ClientApproval.NewClientID (rp_ID (ar_RequestPeer req))
    ∈ ClientApproval.ClientIDList cfg)) by (rewrite Hin, elem_of_empty; tauto).
  unfold mret, Prelude.M_ret. by destruct (bool_decide (_ ∈ _)), (ClientApproval.Invert cfg).
Qed.

(** C30: torrent approval with a list in its own context of any data storage: the
    container is built when every hash of the list is well formed, and then the
    middleware, put before the logic, lets an announce through unchanged when
    its info hash (or the truncated form of a v2 hash) is listed, or not listed
    for a blacklist, and otherwise ends it with [ErrTorrentUnapproved], nothing
    stored. *)
Theorem torrent_approval_gates {S} `{PeerStorage S} `{DataSpec S} (c : HashList.Config) (s : S)
    (ai mi : Z) (pre post : list (Hook S)) :
  ds_ok s → (∀ k, ds_get s (HashList.ctx_or_default (HashList.StorageCtx c)) k = None) →
  Forall (λ h, ∃ ih, NewInfoHashString h = Ok ih) (HashList.HashList c) →
  ∃ s' l, HashList.build c s = Some (s', Ok l) ∧ ds_ok s' ∧
    ∀ ctx req,
      let gate := TorrentApproval.Hook_of (λ _, HashList.Approved l) in
      Logic_HandleAnnounce (NewLogic ai mi (gate :: pre) post) ctx req s' =
        if xorb (listed (HashList.HashList c) (ar_InfoHash req)) (HashList.Invert c)
        then Logic_HandleAnnounce (NewLogic ai mi pre post) ctx req s'
        else Some (s', (None, None, Some TorrentApproval.ErrTorrentUnapproved, req)).
Proof.
  intros Hok Hfresh Hall. pose proof (build_run c s Hok) as Hb. pose proof (initial_spec (HashList.HashList c) []) as Hi.
  destruct (HashList.initial _ _) as [init|e].
  2: { destruct Hi as (h & e' & Hin & E & _). eapply list.Forall_forall in Hall as [ih E']; [|exact Hin]. congruence. }
  destruct Hb as (s' & E & Hok' & Hg). eexists s', _. split; [exact E|]. split; [done|]. intros ctx req gate.
  set (l := HashList.MkList _ _) in *.
  pose proof (Approved_run l (ar_InfoHash req) s' Hok') as Ha. cbv beta zeta in Ha.
  assert (∀ k, bool_decide (is_Some (ds_get s' (HashList.l_StorageCtx l) k)) = bool_decide (k ∈ listed_keys (HashList.HashList c))) as Hk.
  { intros k. apply bool_decide_ext. rewrite Hg. subst l. cbn [HashList.l_StorageCtx]. rewrite Hfresh.
    split; [intros [[? ?]|[_ ?]]; done|auto]. }
  rewrite !Hk in Ha. fold (listed (HashList.HashList c) (ar_InfoHash req)) in Ha.
  set (ok := xorb _ _). change (xorb (listed (HashList.HashList c) (ar_InfoHash req)) (HashList.l_Invert l)) with ok in Ha.
  rewrite (announce_gated gate ai mi pre post ctx req (if ok then None else Some TorrentApproval.ErrTorrentUnapproved)).
  { by destruct ok. }
  cbn [gate TorrentApproval.Hook_of HandleAnnounce]. unfold TorrentApproval.HandleAnnounce. by rewrite (M_bind_Some _ _ _ _ _ Ha).
Qed.

(** ** The directory container *)

Section Directory.
Import HashList Directory.
Context {S : Type} `{DataSpec S}.

(** The keys of one torrent file. *)
Definition event_keys (e : event) (sum : bytes) : list bytes :=
  let v2hash := match NewInfoHash sum with Ok ih => ih | Err _ => [] end in
  [e_InfoHash e; v2hash; TruncateV1 v2hash].

(** Whether a hash is held after some events, [was] saying whether it was before. *)
Definition held_after (removes : bool) (es : list event) (k : bytes) (was : bool) : bool :=
  foldl (λ b e,
    match e_loaded e, e_Change e with
    | Some (sum, _), Added => b || bool_decide (k ∈ event_keys e sum)
    | Some (sum, _), Removed => if removes then b && negb (bool_decide (k ∈ event_keys e sum)) else b
    | _, _ => b
    end) was es.

Definition held (d : List) (s : S) (k : bytes) : bool := bool_decide (is_Some (ds_get s (l_StorageCtx d) k)).

Lemma last_filter_none (vs : list Entry) k :
  k ∉ entry_Key <$> vs → list.last (filter (λ e, entry_Key e = k) vs) = None.
Proof.
  intros Hk. destruct (list.last _) eqn:E; [|done]. destruct Hk. apply last_filter_key. by rewrite E.
Qed.

Lemma handle_event_effect c d e s :
  Directory.build c None = Ok d → ds_ok s →
  ∃ s', handle_event c d e s = Some (s', ()) ∧ ds_ok s' ∧
    ∀ k, held d s' k = held_after (bool_decide (StorageCtx (dir_Config c) ≠ [])) [e] k (held d s k).
Proof.
  intros [= <-] Hok. set (d := MkList _ _). unfold handle_event, held_after, held. cbn [foldl].
  destruct (e_loaded e) as [[sum info]|]; [|by exists s].
  fold (event_keys e sum). destruct (e_Change e); [| |by exists s].
  - set (vs := [_; _; _]). destruct (ds_Put s (l_StorageCtx d) vs Hok) as (s' & E & Hok' & Hg).
    exists s'. rewrite (M_bind_Some _ _ _ _ _ E). split; [done|]. split; [done|]. intros k.
    assert (event_keys e sum = entry_Key <$> vs) as -> by done.
    rewrite Hg, decide_True by done.
    case (bool_decide_reflect (k ∈ entry_Key <$> vs)) as [Hin|Hin].
    + apply last_filter_key in Hin as [e' ->]. rewrite orb_true_r. by apply bool_decide_eq_true_2.
    + by rewrite last_filter_none, orb_false_r.
  - destruct (ds_Delete s (StorageCtx (dir_Config c)) (event_keys e sum) Hok) as (s' & E & Hok' & Hg).
    exists s'. unfold event_keys in E at 1. rewrite (M_bind_Some _ _ _ _ _ E). split; [done|]. split; [done|].
    intros k. rewrite Hg. subst d. cbn [l_StorageCtx]. unfold ctx_or_default.
    destruct (decide (StorageCtx (dir_Config c) = [])) as [->|Hne].
    + rewrite decide_False by (by intros [? _]). by rewrite (bool_decide_eq_false_2 (@nil byte ≠ [])) by tauto.
    + rewrite (bool_decide_eq_true_2 (_ ≠ [])) by done. rewrite andb_comm.
      case (bool_decide_reflect (k ∈ event_keys e sum)) as [Hin|Hin]; cbn [negb andb].
      * by rewrite decide_True.
      * by rewrite decide_False by tauto.
Qed.

(** The directory container follows its watched directory: after any events,
    the hashes it holds are those whose torrent files were added (an event whose
    file cannot be loaded changes nothing) less those removed since.  That
    holds when a storage context is configured; without one, removals never
    take effect, since they address the context named by the empty string while
    the hashes are in the default one. *)
Theorem directory_follows_events (c : Directory.Config) (d : List) (es : list event) (s : S) :
  Directory.build c None = Ok d → ds_ok s →
  ∃ s', handle_events c d es s = Some (s', ()) ∧ ds_ok s' ∧
    ∀ k, held d s' k = held_after (bool_decide (StorageCtx (dir_Config c) ≠ [])) es k (held d s k).
Proof.
  intros Hd. revert s. induction es as [|e es IH]; intros s Hok; [by exists s|].
  destruct (handle_event_effect c d e s Hd Hok) as (s1 & E1 & Hok1 & H1).
  destruct (IH s1 Hok1) as (s2 & E2 & Hok2 & H2).
  exists s2. cbn [handle_events]. rewrite (M_bind_Some _ _ _ _ _ E1). split; [done|]. split; [done|].
  intros k. by rewrite H2, H1.
Qed.

End Directory.

(** ** Witnesses *)

Import (hints) MemStore MemData.

(** The in-memory backend. *)
Definition backend1 : MemStore.world * MemData.dataStore := (world1, MemData.NewDataStorage).
Definition list1 : HashList.Config := HashList.MkConfig [hex_String hash1] false [].

Lemma torrent_approval_gates_witness :
  ∃ s' l, HashList.build list1 backend1 = Some (s', Ok l) ∧
    Logic_HandleAnnounce (NewLogic 1800 900 [TorrentApproval.Hook_of (λ _, HashList.Approved l)] [])
      (Some Background) (announce1 Started hash2 0) s' =
      Some (s', (None, None, Some TorrentApproval.ErrTorrentUnapproved, announce1 Started hash2 0)).
Proof.
  destruct (torrent_approval_gates list1 backend1 1800 900 [] []) as (s' & l & E & _ & Hg).
  - exact I.
  - intros k. reflexivity.
  - apply list.Forall_singleton. exists hash1. vm_compute. reflexivity.
  - exists s', l. split; [exact E|].
    specialize (Hg (Some Background) (announce1 Started hash2 0)). cbv zeta in Hg.
    assert (xorb (listed (HashList.HashList list1) (ar_InfoHash (announce1 Started hash2 0))) (HashList.Invert list1) = false)
      as Hx by (vm_compute; reflexivity).
    rewrite Hx in Hg. exact Hg.
Defined.

Definition dir1 : Directory.Config := Directory.MkConfig list1 [].
Definition added1 : Directory.event := Directory.MkEvent Directory.Added hash1 (Some (hash2, None)).
Definition removed1 : Directory.event := Directory.MkEvent Directory.Removed hash1 (Some (hash2, None)).

(** A torrent added and removed is still held: no context is configured. *)
Lemma directory_follows_events_witness :
  ∃ s' d, Directory.handle_events dir1 d [added1; removed1] backend1 = Some (s', ()) ∧
    held d s' hash1 = true.
Proof.
  destruct (directory_follows_events dir1 (HashList.MkList false Container.DefaultStorageCtxName)
    [added1; removed1] backend1) as (s' & E & _ & Hk).
  - vm_compute. reflexivity.
  - exact I.
  - exists s', (HashList.MkList false Container.DefaultStorageCtxName). split; [exact E|].
    rewrite Hk. vm_compute. reflexivity.
Defined.
