(* ===== verification/VarInterval.v ===== *)
(** * Middleware that varies the announce interval

    [middleware/varinterval]: a pre-hook that lengthens the intervals of some
    answers by a pseudo-random number of seconds derived from the request.
    Floating-point numbers are those of IEEE 754 ([SpecFloat]), the probability
    being a 32-bit one. *)

From S2P Require Import Prelude GoStd GoFloat Netip Pkg Bittorrent Storage Memory Hooks Tracker Approval.

Local Open Scope Z_scope.

(** ** Constants *)

(** [math.MaxUint64] as a [float64]: 2^64, the nearest one. *)
Definition MaxUint64 : spec_float := float64_of_Z (2 ^ 64 - 1).

Definition float32_zero : spec_float := S754_zero false.
Definition float32_one : spec_float := binary_normalize 24 128 1 0 false.

(** ** The hook *)

Record Config := MkConfig {
  ModifyResponseProbability : spec_float;   (* float32 *)
  MaxIncreaseDelta : Z;                     (* int, seconds *)
  ModifyMinInterval : bool;
}.

Definition ErrInvalidModifyResponseProbability : GoError :=
  OtherError (bs "invalid modify_response_probability").
Definition ErrInvalidMaxIncreaseDelta : GoError := OtherError (bs "invalid max_increase_delta").

Definition checkConfig (cfg : Config) : error :=
  if SFleb (ModifyResponseProbability cfg) float32_zero || SFltb float32_one (ModifyResponseProbability cfg) then
    Some ErrInvalidModifyResponseProbability
  else if MaxIncreaseDelta cfg <=? 0 then Some ErrInvalidMaxIncreaseDelta
  else None.

(** A sum of two big-endian words of the hash and of the peer ID. *)
Definition deriveEntropyFromRequest (req : AnnounceRequest) : Z * Z :=
  let word (b : bytes) := u64 (be_get (take 8 b) + be_get (take 8 (drop 8 b))) in
  let v0 := if decide (InfoHashV1Len ≤ length (ar_InfoHash req))%nat then word (ar_InfoHash req) else 0 in
  (v0, word (rp_ID (ar_RequestPeer req))).

Definition Second : Z := 1000000000.

(** The increase, in nanoseconds, if the response is modified. *)
Definition increase (cfg : Config) (req : AnnounceRequest) : option Z :=
  let '(e0, e1) := deriveEntropyFromRequest req in
  let '(p, s0, s1) := XoRoShiRo128SS e0 e1 in
  if SFltb (float32_of_float64 (float64_div (float64_of_Z p) MaxUint64)) (ModifyResponseProbability cfg) then
    let '(v, _, _) := XoRoShiRo128SS s0 s1 in
    Some (iwrap 64 (iwrap 64 (u64 (v mod u64 (MaxIncreaseDelta cfg) + 1)) * Second))
  else None.

Definition resp_later (add : Z) (minToo : bool) (resp : AnnounceResponse) : AnnounceResponse :=
  MkAnnounceResponse (resp_Complete resp) (resp_Incomplete resp)
    (iwrap 64 (resp_Interval resp + add))
    (if minToo then iwrap 64 (resp_MinInterval resp + add) else resp_MinInterval resp)
    (resp_IPv4Peers resp) (resp_IPv6Peers resp).

Section Hook.
Context {S : Type}.

Definition HandleAnnounce (cfg : Config) : hook_fn S AnnounceRequest AnnounceResponse := λ ctx req resp,
  mret (ctx, None, req,
    match increase cfg req with
    | Some add => resp_later add (ModifyMinInterval cfg) resp
    | None => resp
    end).

Definition Hook_of (cfg : Config) : Hook S := MkHook (HandleAnnounce cfg) scrape_unaltered None.

(** A nil hook: calling a method of it panics, and it is not a [Pinger]. *)
Definition nil_hook : Hook S := MkHook (λ _ _ _, panic) (λ _ _ _, panic) None.

(** The error of [checkConfig] is assigned to a variable of an inner scope: an
    invalid configuration gives no hook and no error. *)
Definition build (config : result Config) : result (Hook S) :=
  match config with
  | Err e => Err (OtherError (bs "middleware interval variation: " ++ Error_msg e))
  | Ok cfg => match checkConfig cfg with None => Ok (Hook_of cfg) | Some _ => Ok nil_hook end
  end.

End Hook.

(** ** Facts *)

Definition half : spec_float := binary_normalize 24 128 1 (-1) false.

Example checkConfig_half : checkConfig (MkConfig half 60 true) = None.
Proof. reflexivity. Qed.
Example checkConfig_one : checkConfig (MkConfig float32_one 60 true) = None.
Proof. reflexivity. Qed.
Example checkConfig_zero :
  checkConfig (MkConfig float32_zero 60 true) = Some ErrInvalidModifyResponseProbability.
Proof. reflexivity. Qed.
Example checkConfig_nan : checkConfig (MkConfig S754_nan 60 true) = None.
Proof. reflexivity. Qed.
Example checkConfig_delta : checkConfig (MkConfig half (-10) true) = Some ErrInvalidMaxIncreaseDelta.
Proof. reflexivity. Qed.

Lemma increase_bounds cfg req add :
  0 < MaxIncreaseDelta cfg → MaxIncreaseDelta cfg * Second < 2 ^ 63 → increase cfg req = Some add →
  ∃ k, 1 <= k <= MaxIncreaseDelta cfg ∧ add = k * Second.
Proof.
  unfold increase, Second. intros H0 H1. destruct (deriveEntropyFromRequest req) as [e0 e1].
  destruct (XoRoShiRo128SS e0 e1) as [[p s0] s1].
  destruct (SFltb _ _); [|done]. destruct (XoRoShiRo128SS s0 s1) as [[v ?] ?].
  intros Hadd%(inj Some). subst add. unfold u64. rewrite (wrap_small 64 (MaxIncreaseDelta cfg)) by (unfold uint; lia).
  pose proof (Z.mod_pos_bound v (MaxIncreaseDelta cfg) H0) as Hm.
  exists (v mod MaxIncreaseDelta cfg + 1). split; [lia|].
  rewrite wrap_small by (unfold uint; lia).
  rewrite (iwrap_small 64 (_ + 1)) by (unfold sint; lia).
  rewrite iwrap_small by (unfold sint; lia). done.
Qed.

(** ** Properties *)

Section Logic.
Context {S : Type} `{PeerStorage S}.

(** C32: the tracker with the interval variation answers every announce as the
    tracker without it does whose intervals are longer by a whole number of
    seconds, between one and the configured maximum, or the same; the minimum
    interval grows with it if configured. *)
Theorem varied_intervals (cfg : Config) (ai mi : Z) (pre post : list (Hook S)) ctx req s :
  checkConfig cfg = None →
  0 <= ai → 0 <= mi → ai + MaxIncreaseDelta cfg * Second < 2 ^ 63 → mi + MaxIncreaseDelta cfg * Second < 2 ^ 63 →
  ∃ h k, build (Ok cfg) = Ok h ∧ (k = 0 ∨ 1 <= k <= MaxIncreaseDelta cfg) ∧
    Logic_HandleAnnounce (NewLogic ai mi (h :: pre) post) ctx req s =
    Logic_HandleAnnounce (NewLogic (ai + k * Second)
      (if ModifyMinInterval cfg then mi + k * Second else mi) pre post) ctx req s.
Proof.
  intros Hc Ha Hm Hai Hmi. exists (Hook_of cfg).
  assert (0 < MaxIncreaseDelta cfg) as Hd.
  { revert Hc. unfold checkConfig. destruct (_ || _); [done|].
    by destruct (Z.leb_spec (MaxIncreaseDelta cfg) 0); [|intros _; lia]. }
  assert (∃ k, (k = 0 ∨ 1 <= k <= MaxIncreaseDelta cfg) ∧
    match increase cfg req with
    | Some add => resp_later add (ModifyMinInterval cfg) (MkAnnounceResponse 0 0 ai mi [] [])
    | None => MkAnnounceResponse 0 0 ai mi [] []
    end = MkAnnounceResponse 0 0 (ai + k * Second) (if ModifyMinInterval cfg then mi + k * Second else mi) [] [])
    as (k & Hk & E).
  { destruct (increase cfg req) as [add|] eqn:Ei.
    - apply increase_bounds in Ei as (k & Hk & ->); [|done|unfold Second in *; lia].
      exists k. split; [by right|]. unfold resp_later, Second in *. cbn [resp_Interval resp_MinInterval
        resp_Complete resp_Incomplete resp_IPv4Peers resp_IPv6Peers].
      rewrite !iwrap_small by (unfold sint; lia). done.
    - exists 0. split; [by left|]. rewrite Z.mul_0_l, !Z.add_0_r. by destruct (ModifyMinInterval cfg). }
  exists k. unfold build. rewrite Hc. split; [done|]. split; [done|].
  unfold Logic_HandleAnnounce, NewLogic. cbn [preHooks app fmap list_fmap run_hooks announceInterval minAnnounceInterval].
  cbn [Hooks.HandleAnnounce Hook_of]. unfold HandleAnnounce at 1. rewrite E. done.
Qed.

(** An invalid configuration of the interval variation is not refused: the
    hooks are built without an error, and then every announce that reaches the
    hook panics, whatever comes after it. *)
Theorem invalid_variation_panics (builders : gmap bytes (Hooks.Builder (S := S) (MapConfig := result Config)))
    (name : bytes) (cfg : Config) (ai mi : Z) (post : list (Hook S)) :
  builders !! name = Some build → checkConfig cfg ≠ None →
  ∃ hooks, NewHooks builders [(name, Ok cfg)] [] = (hooks, None) ∧
    ∀ ctx req s, Logic_HandleAnnounce (NewLogic ai mi hooks post) ctx req s = None ∧
                 ∀ req, Logic_HandleScrape (NewLogic ai mi hooks post) ctx req s = None.
Proof.
  intros Hb Hc. exists [nil_hook]. cbn [NewHooks]. rewrite Hb. unfold build.
  by destruct (checkConfig cfg).
Qed.

End Logic.

(** A probability of one does not modify every response: the quotient is
    rounded to a [float32], which is 1.0 near the end of the range. *)
Definition edge_hash : InfoHash := be_put 8 0x4fc71c71c71c71c7 ++ replicate 12 x00.
Definition edge_request : AnnounceRequest :=
  MkAnnounceRequest Started edge_hash true true 50 0 0 0 (MkRequestPeer (replicate 20 x01) 6881 [address1]) None.

Theorem certain_modification_can_fail :
  InfoHash_wf (ar_InfoHash edge_request) ∧ checkConfig (MkConfig float32_one 60 true) = None ∧
  increase (MkConfig float32_one 60 true) edge_request = None.
Proof. split; [by left|]. split; vm_compute; reflexivity. Qed.

(** ** Witnesses *)

Import (hints) MemStore.

Definition cfg1 : Config := MkConfig half 60 true.

Lemma varied_intervals_witness :
  ∃ h k, build (Ok cfg1) = Ok h ∧ (k = 0 ∨ 1 <= k <= 60) ∧
    Logic_HandleAnnounce (NewLogic (1800 * Second) (900 * Second) [h] []) (Some Background) (announce1 Started hash1 7) world1 =
    Logic_HandleAnnounce (NewLogic (1800 * Second + k * Second) (900 * Second + k * Second) [] [])
      (Some Background) (announce1 Started hash1 7) world1.
Proof.
  apply (varied_intervals cfg1 (1800 * Second) (900 * Second) [] [] (Some Background) (announce1 Started hash1 7) world1);
    unfold Second, cfg1; cbn [MaxIncreaseDelta]; [reflexivity|lia..].
Defined.

Lemma invalid_variation_panics_witness :
  ∃ hooks, NewHooks (S := MemStore.world) {[bs "interval variation" := build]}
      [(bs "interval variation", Ok (MkConfig half 0 true))] [] = (hooks, None) ∧
    Logic_HandleAnnounce (NewLogic 1800 900 hooks []) (Some Background) (announce1 Started hash1 7) world1 = None.
Proof.
  destruct (invalid_variation_panics (S := MemStore.world) {[bs "interval variation" := build]}
    (bs "interval variation") (MkConfig half 0 true) 1800 900 []) as (hooks & E & Hp).
  - apply lookup_singleton_eq.
  - discriminate.
  - exists hooks. split; [exact E|]. apply Hp.
Defined.
