(* ===== verification/Jwt.v ===== *)
(** * Middleware that asks for JSON web tokens

    [middleware/jwt]: a pre-hook that lets a request through only with a token
    that names its info hashes.  Fetching the key set and verifying a token
    (signature, algorithm, issuer, audience, times) are the work of dependencies:
    a [Verifier] is what they answer. *)

From S2P Require Import Prelude GoStd Netip Bittorrent Storage Memory Hooks Tracker Approval.

Local Open Scope Z_scope.

Module Jwt.

(** The claims of a token that verifies: its info hash, or its info hashes. *)
Record Verifier := MkVerifier {
  parse_announce : option Context → bytes → result bytes;
  parse_scrape : option Context → bytes → result (list bytes);
}.

Definition authorizationHeader : bytes := bs "authorization".
Definition bearerAuthPrefix : bytes := bs "bearer ".

Definition ErrMissingJWT : GoError := ClientError (bs "request not allowed by mochi: missing jwt").
Definition ErrInvalidJWT : GoError := ClientError (bs "request not allowed by mochi: invalid jwt").
Definition errJWKsNotSet : GoError :=
  OtherError (bs "required parameters not provided: Issuer/Audience/JWKSetURL").

Record Config := MkConfig {
  Header : bytes;
  Issuer : bytes;
  Audience : bytes;
  JWKSetURL : bytes;
  JWKUpdateInterval : Z;
  cfg_HandleAnnounce : bool;
  cfg_HandleScrape : bool;
}.

(** [jwks] is nil when no request is to be checked. *)
Record hook := MkHook {
  h_cfg : Config;
  h_jwks : option Verifier;
}.

Definition with_header (header : bytes) (cfg : Config) : Config :=
  MkConfig header (Issuer cfg) (Audience cfg) (JWKSetURL cfg) (JWKUpdateInterval cfg)
    (cfg_HandleAnnounce cfg) (cfg_HandleScrape cfg).

(** [fetch] is what parsing the URL and making the key function of it gives. *)
Definition build (config : result Config) (fetch : Config → result Verifier) : result hook :=
  match config with
  | Err e => Err (OtherError (bs "unable to deserialise configuration: " ++ Error_msg e))
  | Ok cfg =>
      if bool_decide (JWKSetURL cfg ≠ []) && bool_decide (Issuer cfg ≠ []) && bool_decide (Audience cfg ≠ []) then
        let cfg := if decide (Header cfg = []) then with_header authorizationHeader cfg else cfg in
        if cfg_HandleAnnounce cfg || cfg_HandleScrape cfg then
          v ← fetch cfg; Ok (MkHook cfg (Some v))
        else Ok (MkHook cfg None)
      else Err errJWKsNotSet
  end.

Section Hook.
Context {S : Type} `{Unicode}.

(** The token among the parameters; without one the empty string.  [None] is
    the panic of the slice. *)
Definition getJWTString (h : hook) (params : option Params) : option bytes :=
  match params with
  | None => Some []
  | Some params =>
      match params (Header (h_cfg h)) with
      | None => Some []
      | Some jwt =>
          if HasPrefix (ToLower jwt) bearerAuthPrefix
          then slice jwt (length bearerAuthPrefix) (length jwt)
          else Some jwt
      end
  end.

Definition HandleAnnounce (h : hook) : hook_fn S AnnounceRequest AnnounceResponse := λ ctx req resp,
  if negb (cfg_HandleAnnounce (h_cfg h)) then mret (ctx, None, req, resp)
  else
    jwtParam ← need (getJWTString h (ar_Params req));
    if decide (jwtParam = []) then mret (ctx, Some ErrMissingJWT, req, resp)
    else
      jwks ← need (h_jwks h);
      let err :=
        match parse_announce jwks ctx jwtParam with
        | Ok claim =>
            let '(claimIH, err) := match NewInfoHashString claim with
                                   | Ok ih => (ih, None)
                                   | Err _ => ([], Some ErrInvalidJWT)
                                   end in
            if decide (ar_InfoHash req ≠ claimIH) then Some ErrInvalidJWT else err
        | Err _ => Some ErrInvalidJWT
        end in
      mret (ctx, err, req, resp).

Definition claim_hash (s : bytes) : option InfoHash :=
  match NewInfoHashString s with Ok ih => Some ih | Err _ => None end.

(** The comparison of the requested hashes with those of the claim. *)
Definition same_hashes (requested claimed : list InfoHash) : bool :=
  bool_decide (length requested = length claimed)
  && forallb (λ rIH, existsb (λ cIH, bool_decide (rIH = cIH)) claimed) requested.

Definition HandleScrape (h : hook) : hook_fn S ScrapeRequest ScrapeResponse := λ ctx req resp,
  if negb (cfg_HandleScrape (h_cfg h)) then mret (ctx, None, req, resp)
  else
    jwtParam ← need (getJWTString h (sr_Params req));
    if decide (jwtParam = []) then mret (ctx, Some ErrMissingJWT, req, resp)
    else
      jwks ← need (h_jwks h);
      let err :=
        match parse_scrape jwks ctx jwtParam with
        | Ok claims =>
            let claimIHs := omap claim_hash claims in
            if same_hashes (sr_InfoHashes req) claimIHs then None else Some ErrInvalidJWT
        | Err _ => Some ErrInvalidJWT
        end in
      mret (ctx, err, req, resp).

Definition Hook_of (h : hook) : Hook S := Hooks.MkHook (HandleAnnounce h) (HandleScrape h) None.

End Hook.

(** ** Facts *)

Lemma build_keys config fetch h :
  build config fetch = Ok h → cfg_HandleAnnounce (h_cfg h) || cfg_HandleScrape (h_cfg h) = true → is_Some (h_jwks h).
Proof.
  unfold build. destruct config as [cfg|]; [|done]. destruct (_ && _); [|done].
  set (cfg' := if decide _ then _ else _). destruct (_ || _) eqn:E.
  - destruct (fetch cfg') as [v|]; [|done]. intros Hh%(f_equal (λ r, match r with Ok h => h_jwks h | Err _ => None end)).
    cbn in Hh. intros _. rewrite <-Hh. eauto.
  - intros [= <-]. cbn [h_cfg]. congruence.
Qed.

(** The token of a request, for a hook whose parameter can be read. *)
Section Gate.
Context {S : Type} `{PeerStorage S} `{Unicode}.

(** Whether a token lets an announce, or a scrape, through. *)
Definition announce_allowed (v : Verifier) ctx (token : bytes) (ih : InfoHash) : Prop :=
  ∃ claim, parse_announce v ctx token = Ok claim ∧ NewInfoHashString claim = Ok ih.

Definition scrape_allowed (v : Verifier) ctx (token : bytes) (ihs : list InfoHash) : Prop :=
  ∃ claims, parse_scrape v ctx token = Ok claims ∧
    length ihs = length (omap claim_hash claims) ∧ ∀ ih, ih ∈ ihs → ih ∈ omap claim_hash claims.

Lemma same_hashes_spec requested claimed :
  same_hashes requested claimed = true ↔
  length requested = length claimed ∧ ∀ ih, ih ∈ requested → ih ∈ claimed.
Proof.
  unfold same_hashes. rewrite andb_true_iff, bool_decide_eq_true, forallb_forall.
  setoid_rewrite existsb_exists. setoid_rewrite bool_decide_eq_true. setoid_rewrite <-list_elem_of_In.
  apply and_iff_compat_l. split; intros Hr ih Hih.
  - destruct (Hr ih Hih) as (ih' & ? & ->). done.
  - exists ih. auto.
Qed.

Lemma announce_gate (h : hook) v ctx req resp (s : S) token :
  h_jwks h = Some v → cfg_HandleAnnounce (h_cfg h) = true →
  getJWTString h (ar_Params req) = Some token →
  ∃ err, HandleAnnounce h ctx req resp s = Some (s, (ctx, err, req, resp)) ∧
    (err = None ↔ token ≠ [] ∧ announce_allowed v ctx token (ar_InfoHash req)) ∧
    (err = None ∨ err = Some (if decide (token = []) then ErrMissingJWT else ErrInvalidJWT)).
Proof.
  intros Hv Hc Ht. unfold HandleAnnounce. rewrite Hc, Ht, Hv. cbn [negb need].
  rewrite M_bind_ret_l. case_decide as Hd; [|rewrite M_bind_ret_l].
  { eexists. split; [done|]. split; [|by right]. split; [done|]. by intros [? _]. }
  eexists. split; [done|]. unfold announce_allowed.
  destruct (parse_announce v ctx token) as [claim|e].
  - destruct (NewInfoHashString claim) as [ih|e] eqn:E; case_decide as Hne;
      (split; [|by (left + right)]); split; try done.
    + intros (_ & claim' & [= <-] & E'). congruence.
    + intros _. split; [done|]. exists claim. split; [done|]. rewrite E.
      destruct (decide (ar_InfoHash req = ih)) as [->|]; [done|by destruct Hne].
    + intros (_ & claim' & [= <-] & E'). congruence.
    + intros (_ & claim' & [= <-] & E'). congruence.
  - split; [|by right]. split; [done|]. by intros (_ & ? & ? & _).
Qed.

Lemma scrape_gate (h : hook) v ctx req resp (s : S) token :
  h_jwks h = Some v → cfg_HandleScrape (h_cfg h) = true →
  getJWTString h (sr_Params req) = Some token →
  ∃ err, HandleScrape h ctx req resp s = Some (s, (ctx, err, req, resp)) ∧
    (err = None ↔ token ≠ [] ∧ scrape_allowed v ctx token (sr_InfoHashes req)) ∧
    (err = None ∨ err = Some (if decide (token = []) then ErrMissingJWT else ErrInvalidJWT)).
Proof.
  intros Hv Hc Ht. unfold HandleScrape. rewrite Hc, Ht, Hv. cbn [negb need].
  rewrite M_bind_ret_l. case_decide as Hd; [|rewrite M_bind_ret_l].
  { eexists. split; [done|]. split; [|by right]. split; [done|]. by intros [? _]. }
  eexists. split; [done|]. unfold scrape_allowed.
  destruct (parse_scrape v ctx token) as [claims|e].
  - pose proof (same_hashes_spec (sr_InfoHashes req) (omap claim_hash claims)) as Hs.
    destruct (same_hashes _ _); (split; [|by (left + right)]); split; try done.
    + intros _. split; [done|]. exists claims. split; [done|]. by apply Hs.
    + intros (_ & claims' & [= <-] & Ha). by apply Hs in Ha.
  - split; [|by right]. split; [done|]. by intros (_ & ? & ? & _).
Qed.

(** The parameter is read without a panic when it is ASCII. *)
Lemma getJWTString_ascii (h : hook) params :
  (∀ jwt, params (Header (h_cfg h)) = Some jwt → is_ascii jwt = true) →
  is_Some (getJWTString h (Some params)).
Proof.
  intros Ha. unfold getJWTString. destruct (params _) as [jwt|] eqn:Ej; [|eauto].
  specialize (Ha jwt eq_refl). destruct (HasPrefix _ _) eqn:Hp; [|eauto]. apply HasPrefix_length in Hp.
  unfold ToLower in Hp. rewrite Ha, length_map in Hp. rewrite slice_Some by lia. eauto.
Qed.

(** C22: the token gate, put before any logic.  With announces to be checked, an
    announce is answered as by the logic without the gate exactly when its token
    verifies and names its info hash; otherwise it ends with the error for a
    missing or an invalid token and nothing is stored.  With scrapes to be
    checked, the same holds of a scrape whose token names as many info hashes as
    it asks for, all of those among them. *)
Theorem jwt_gates config fetch (h : hook) (ai mi : Z) (pre post : list (Hook S)) ctx (s : S) :
  build config fetch = Ok h →
  let refused (token : bytes) := if decide (token = []) then ErrMissingJWT else ErrInvalidJWT in
  let gated := NewLogic ai mi (Hook_of h :: pre) post in
  let plain := NewLogic ai mi pre post in
  (∀ req token, cfg_HandleAnnounce (h_cfg h) = true → getJWTString h (ar_Params req) = Some token →
    ∃ v, h_jwks h = Some v ∧
      (token ≠ [] ∧ announce_allowed v ctx token (ar_InfoHash req) →
       Logic_HandleAnnounce gated ctx req s = Logic_HandleAnnounce plain ctx req s) ∧
      (¬ (token ≠ [] ∧ announce_allowed v ctx token (ar_InfoHash req)) →
       Logic_HandleAnnounce gated ctx req s = Some (s, (None, None, Some (refused token), req)))) ∧
  (∀ req token, cfg_HandleScrape (h_cfg h) = true → getJWTString h (sr_Params req) = Some token →
    ∃ v, h_jwks h = Some v ∧
      (token ≠ [] ∧ scrape_allowed v ctx token (sr_InfoHashes req) →
       Logic_HandleScrape gated ctx req s = Logic_HandleScrape plain ctx req s) ∧
      (¬ (token ≠ [] ∧ scrape_allowed v ctx token (sr_InfoHashes req)) →
       Logic_HandleScrape gated ctx req s = Some (s, (None, None, Some (refused token), req)))).
Proof.
  intros Hb refused gated plain. split; intros req token Hc Ht.
  - destruct (build_keys _ _ _ Hb) as [v Hv]; [by rewrite Hc|]. exists v. split; [done|].
    destruct (announce_gate h v ctx req (MkAnnounceResponse 0 0 ai mi [] []) s token Hv Hc Ht) as (err & E & Hi & He).
    pose proof (announce_gated (Hook_of h) ai mi pre post ctx req err s E) as Eg. fold gated plain in Eg. rewrite Eg.
    split; [intros Ha; by rewrite (proj2 Hi Ha)|]. intros Hn.
    destruct He as [->| ->]; [by destruct Hn; apply Hi|done].
  - destruct (build_keys _ _ _ Hb) as [v Hv]; [by rewrite Hc, orb_true_r|]. exists v. split; [done|].
    destruct (scrape_gate h v ctx req [] s token Hv Hc Ht) as (err & E & Hi & He).
    pose proof (scrape_gated (Hook_of h) ai mi pre post ctx req err s E) as Eg. fold gated plain in Eg. rewrite Eg.
    split; [intros Ha; by rewrite (proj2 Hi Ha)|]. intros Hn.
    destruct He as [->| ->]; [by destruct Hn; apply Hi|done].
Qed.

End Gate.

(** ** Witness *)

Import (hints) MemStore.

Definition jwt_cfg1 : Config := MkConfig [] (bs "CN=test") (bs "test") (bs "http://localhost") 60 true true.
(** A verifier that takes one token, for [hash1]. *)
Definition verifier1 : Verifier :=
  MkVerifier (λ _ t, if decide (t = bs "t") then Ok (hex_String hash1) else Err (OtherError (bs "bad")))
             (λ _ t, if decide (t = bs "t") then Ok [hex_String hash1] else Err (OtherError (bs "bad"))).
Definition hook1 : hook := MkHook (with_header authorizationHeader jwt_cfg1) (Some verifier1).
Definition unchanged_lower : Unicode := {| unicode_to_lower s := s |}.
Definition with_token (token : option bytes) : option Params :=
  Some (λ k, if decide (k = authorizationHeader) then token else None).
Definition jwt_request (ih : InfoHash) (token : option bytes) : AnnounceRequest :=
  MkAnnounceRequest Started ih true true 50 7 0 0 (MkRequestPeer (replicate 20 x01) 6881 [address1]) (with_token token).

Lemma jwt_gates_witness :
  let gated := NewLogic 1800 900 [@Hook_of MemStore.world unchanged_lower hook1] [] in
  Logic_HandleAnnounce gated (Some Background) (jwt_request hash1 (Some (bs "Bearer t"))) world1 =
    Logic_HandleAnnounce (NewLogic 1800 900 [] []) (Some Background) (jwt_request hash1 (Some (bs "Bearer t"))) world1 ∧
  Logic_HandleAnnounce gated (Some Background) (jwt_request hash1 None) world1 =
    Some (world1, (None, None, Some ErrMissingJWT, jwt_request hash1 None)).
Proof.
  destruct (@jwt_gates MemStore.world _ unchanged_lower (Ok jwt_cfg1) (λ _, Ok verifier1) hook1 1800 900 [] []
    (Some Background) world1 eq_refl) as [Ha _].
  split.
  - destruct (Ha (jwt_request hash1 (Some (bs "Bearer t"))) (bs "t")) as (v & Hv & H1 & _); [reflexivity..|].
    apply H1. split; [discriminate|]. revert Hv. intros [= <-]. exists (hex_String hash1).
    split; vm_compute; reflexivity.
  - destruct (Ha (jwt_request hash1 None) []) as (v & _ & _ & H2); [reflexivity..|].
    apply H2. intros [Hn _]. exact (Hn eq_refl).
Defined.

End Jwt.
