(* ===== verification/UdpParser.v ===== *)
(** * Package [frontend/udp]: parsing packets

    The URL query of BEP 41 (src/frontend/udp/params.go) and the announce and
    scrape packets of BEP 15 (src/frontend/udp/parser.go).  The parsers take
    the packet as it is on the wire; [None] is a run-time panic. *)

From S2P Require Import Prelude GoStd Netip Bittorrent Packet Frontend.

Local Open Scope Z_scope.

(** ** The query *)

Definition ErrInvalidQueryEscape : GoError := ClientError (bs "invalid query escape").

Definition is_char (c : byte) : byte → bool := byte_eqb c.
Definition is_delim (c : byte) : bool := byte_eqb c "&"%byte || byte_eqb c ";"%byte.

Abbreviation queryParams := (gmap bytes bytes).

Section Query.
Context `{Unicode}.

(** [s[:i], s[i+1:]]. *)
Definition cut (s : bytes) (i : nat) : option (bytes * bytes) :=
  before ← slice s 0 i;
  after ← slice s (i + 1) (length s);
  Some (before, after).

(** The body of the loop on one [key] or [key=value]. *)
Definition add_param (key : bytes) (params : queryParams) : option (result queryParams) :=
  if decide (key = []) then Some (Ok params)
  else
    '(key, value) ← match index_of (is_char "="%byte) key with
                    | Some i => cut key i
                    | None => Some (key, [])
                    end;
    match QueryUnescape key with
    | None => Some (Err ErrInvalidQueryEscape)
    | Some k =>
        match QueryUnescape value with
        | None => Some (Err ErrInvalidQueryEscape)
        | Some v => Some (Ok (<[ToLower k := v]> params))
        end
    end.

(** The loop; every turn shortens the query, so that its length is fuel enough:
    without fuel there is no result. *)
Fixpoint query_loop (fuel : nat) (query : bytes) (params : queryParams) : option (result queryParams) :=
  match fuel with
  | O => None
  | S fuel =>
      if decide (query = []) then Some (Ok params)
      else
        '(key, query) ← match index_of is_delim query with
                        | Some i => cut query i
                        | None => Some (query, [])
                        end;
        added ← add_param key params;
        match added with
        | Err e => Some (Err e)
        | Ok params => query_loop fuel query params
        end
  end.

Definition parseQuery (query : bytes) : option (result queryParams) :=
  query ← match index_of (is_char "?"%byte) query with
          | Some queryDelim => slice query (queryDelim + 1) (length query)
          | None => Some query
          end;
  query_loop (S (length query)) query ∅.

Definition GetString (qp : queryParams) : Params := λ key, qp !! ToLower key.

End Query.

(** ** Constants *)

Definition connectActionID : Z := 0.
Definition announceActionID : Z := 1.
Definition scrapeActionID : Z := 2.
Definition errorActionID : Z := 3.
Definition announceV6ActionID : Z := 4.

Definition optionEndOfOptions : Z := 0.
Definition optionNOP : Z := 1.
Definition optionURLData : Z := 2.

Definition initialConnectionID : bytes := [x00; x00; x04; x17; x27; x10; x19; x80]%byte.

Definition eventIDs : list Event := [EvNone; Completed; Started; Stopped].

Definition errMalformedPacket : GoError := ClientError (bs "malformed packet").
Definition errUnknownAction : GoError := ClientError (bs "unknown action ID").
Definition errBadConnectionID : GoError := ClientError (bs "bad connection ID").
Definition errUnknownOptionType : GoError := ClientError (bs "unknown option type").
Definition errInvalidInfoHash : GoError := ClientError (bs "invalid info hash").
Definition errInvalidPeerID : GoError := ClientError (bs "invalid info hash").

(** ** Packets *)

Record Request := MkRequest { r_Packet : bytes; r_IP : Addr }.

Section Parser.
Context `{Unicode} `{Shuffle}.

(** The loop of [handleOptionalParameters] from the index [i] on, with the URL
    data collected so far ([Write] to a buffer writes all and does not fail).
    Every turn raises [i]: more fuel than there are bytes is enough, and without
    fuel there is no result. *)
Fixpoint options_loop (fuel : nat) (packet : bytes) (i : nat) (buf : bytes) : option (result queryParams) :=
  match fuel with
  | O => None
  | S fuel =>
      if (i <? length packet)%nat then
        option ← packet !! i;
        if byte_to_Z option =? optionEndOfOptions then parseQuery buf
        else if byte_to_Z option =? optionNOP then options_loop fuel packet (i + 1) buf
        else if byte_to_Z option =? optionURLData then
          if (length packet <=? i + 1)%nat then Some (Err errMalformedPacket)
          else
            n ← packet !! (i + 1)%nat;
            let length' := Z.to_nat (byte_to_Z n) in
            if (length packet <? i + 2 + length')%nat then Some (Err errMalformedPacket)
            else
              chunk ← slice packet (i + 2) (i + 2 + length');
              options_loop fuel packet (i + (2 + length')) (buf ++ chunk)
        else Some (Err errUnknownOptionType)
      else parseQuery buf
  end.

Definition handleOptionalParameters (packet : bytes) : option (result queryParams) :=
  if (length packet =? 0)%nat then parseQuery []
  else options_loop (S (length packet)) packet 0 [].

Definition announce_addresses (r_ip : Addr) (allow_spoofing : bool) (ip : bytes) : RequestAddresses :=
  let aa := Add [] (MkRequestAddress r_ip false) in
  if allow_spoofing then
    match AddrFromSlice ip with
    | Some spoofed => Add aa (MkRequestAddress spoofed true)
    | None => aa
    end
  else aa.

Definition parseAnnounce (r : Request) (v6Action : bool) (opts : ParseOptions)
    : option (result AnnounceRequest) :=
  let packet := r_Packet r in
  let ipEnd := (84 + (if v6Action then 16 else 4))%nat in
  if (length packet <? ipEnd + 10)%nat then Some (Err errMalformedPacket)
  else
    ihb ← slice packet 16 36;
    match NewInfoHash ihb with
    | Err _ => Some (Err errInvalidInfoHash)
    | Ok ih =>
        idb ← slice packet 36 56;
        match NewPeerID idb with
        | Err _ => Some (Err errInvalidPeerID)
        | Ok id =>
            downloaded ← be_at packet 56 64;
            left ← be_at packet 64 72;
            uploaded ← be_at packet 72 80;
            eventID ← packet !! 83%nat;
            match eventIDs !! Z.to_nat (byte_to_Z eventID) with
            | None => Some (Err ErrUnknownEvent)
            | Some event =>
                ip ← slice packet 84 ipEnd;
                numWant ← be_at packet (ipEnd + 4) (ipEnd + 8);
                port ← be_at packet (ipEnd + 8) (ipEnd + 10);
                rest ← slice packet (ipEnd + 10) (length packet);
                parsed ← handleOptionalParameters rest;
                match parsed with
                | Err e => Some (Err e)
                | Ok params =>
                    let request :=
                      MkAnnounceRequest event ih true true numWant left downloaded uploaded
                        (MkRequestPeer id port (announce_addresses (r_IP r) (AllowIPSpoofing opts) ip))
                        (Some (GetString params)) in
                    Some (SanitizeAnnounce request (MaxNumWant opts) (DefaultNumWant opts)
                            (FilterPrivateIPs opts))
                end
            end
        end
    end.

(** The loop of [parseScrape]; every turn shortens the packet, as above. *)
Fixpoint info_hashes (fuel : nat) (packet : bytes) (acc : list InfoHash) : option (result (list InfoHash)) :=
  match fuel with
  | O => None
  | S fuel =>
      if (InfoHashV1Len <=? length packet)%nat then
        b ← slice packet 0 InfoHashV1Len;
        match NewInfoHash b with
        | Ok ih =>
            packet ← slice packet InfoHashV1Len (length packet);
            info_hashes fuel packet (acc ++ [ih])
        | Err e => Some (Err e)
        end
      else Some (Ok acc)
  end.

Definition parseScrape (r : Request) (opts : ParseOptions) : option (result ScrapeRequest) :=
  if (length (r_Packet r) <? 36)%nat then Some (Err errMalformedPacket)
  else
    packet ← slice (r_Packet r) 16 (length (r_Packet r));
    if negb (length packet mod InfoHashV1Len =? 0)%nat then Some (Err errMalformedPacket)
    else
      infoHashes ← info_hashes (S (length packet)) packet [];
      match infoHashes with
      | Err e => Some (Err e)
      | Ok infoHashes =>
          Some (SanitizeScrape (MkScrapeRequest [MkRequestAddress (r_IP r) false] infoHashes None)
                  (MaxScrapeInfoHashes opts) (FilterPrivateIPs opts))
      end.

End Parser.

(** ** Facts *)

(** The reference meaning of a query: its segments, in order. *)
Fixpoint segments (query : bytes) : list bytes :=
  match query with
  | [] => [[]]
  | c :: query =>
      if is_delim c then [] :: segments query
      else match segments query with [] => [[c]] | w :: ws => (c :: w) :: ws end
  end.

Definition read_pair `{Unicode} (key : bytes) (params : queryParams) : result queryParams :=
  if decide (key = []) then Ok params
  else
    let '(key, value) :=
      match index_of (is_char "="%byte) key with
      | Some i => (take i key, drop (S i) key)
      | None => (key, [])
      end in
    match QueryUnescape key, QueryUnescape value with
    | Some k, Some v => Ok (<[ToLower k := v]> params)
    | _, _ => Err ErrInvalidQueryEscape
    end.

Fixpoint add_params `{Unicode} (segs : list bytes) (params : queryParams) : result queryParams :=
  match segs with
  | [] => Ok params
  | key :: segs => params ← read_pair key params; add_params segs params
  end.

(** What follows the first "?", or everything. *)
Definition query_part (query : bytes) : bytes :=
  match index_of (is_char "?"%byte) query with Some i => drop (S i) query | None => query end.

Definition query_meaning `{Unicode} (query : bytes) : result queryParams := add_params (segments (query_part query)) ∅.

Lemma segments_none q : index_of is_delim q = None → segments q = [q].
Proof.
  induction q as [|c q IH]; [done|]. cbn [index_of segments].
  destruct (is_delim c); [done|]. destruct (index_of is_delim q); [done|].
  intros _. by rewrite IH.
Qed.

Lemma segments_delim q i :
  index_of is_delim q = Some i → segments q = take i q :: segments (drop (S i) q).
Proof.
  revert i. induction q as [|c q IH]; intros i; [done|]. cbn [index_of segments].
  destruct (is_delim c); [by intros [= <-]|].
  destruct (index_of is_delim q) as [j|]; [|done]. intros [= <-].
  by rewrite (IH j).
Qed.

Lemma cut_Some s i : (i < length s)%nat → cut s i = Some (take i s, drop (S i) s).
Proof.
  intros Hi. unfold cut. rewrite !slice_Some by lia. cbn [mbind option_bind]. rewrite drop_0, Nat.sub_0_r.
  rewrite (take_ge (drop _ _)) by (rewrite length_drop; lia). by rewrite Nat.add_1_r.
Qed.

Lemma add_param_pair `{Unicode} key m : add_param key m = Some (read_pair key m).
Proof.
  unfold add_param, read_pair. case_decide; [done|].
  destruct (index_of (is_char "="%byte) key) as [i|] eqn:Ei; [rewrite cut_Some by by eapply index_of_lt|]; cbn [mbind option_bind].
  - destruct (QueryUnescape (take i key)); [|done]. by destruct (QueryUnescape (drop (S i) key)).
  - destruct (QueryUnescape key); [|done]. by destruct (QueryUnescape []).
Qed.

(** The loop, with enough fuel, does the segments one after the other. *)
Lemma query_loop_segments `{Unicode} fuel q m :
  (length q < fuel)%nat → query_loop fuel q m = Some (add_params (segments q) m).
Proof.
  revert q m. induction fuel as [|fuel IH]; intros q m Hl; [lia|].
  cbn [query_loop]. case_decide as Hq; [by subst|].
  destruct (index_of is_delim q) as [i|] eqn:Hi.
  - rewrite (segments_delim q i Hi). apply index_of_lt in Hi. rewrite cut_Some by done. cbn [mbind option_bind add_params].
    rewrite add_param_pair. destruct (read_pair (take i q) m); [|done]. cbn. apply IH. rewrite length_drop. lia.
  - rewrite (segments_none q Hi). cbn [mbind option_bind add_params].
    rewrite add_param_pair. destruct (read_pair q m); [|done]. cbn. destruct fuel; [|done].
    destruct q; [done|simpl in Hl; lia].
Qed.

(** The parser of queries returns, with what a query means. *)
Lemma parseQuery_meaning `{Unicode} q : parseQuery q = Some (query_meaning q).
Proof.
  unfold parseQuery, query_meaning, query_part.
  destruct (index_of (is_char "?"%byte) q) as [i|] eqn:Ei; cbn [mbind option_bind].
  - apply index_of_lt in Ei. rewrite slice_Some by lia. cbn [mbind option_bind].
    rewrite take_ge by (rewrite length_drop; lia). rewrite Nat.add_1_r. apply query_loop_segments. lia.
  - apply query_loop_segments. lia.
Qed.

Lemma parseQuery_segments `{Unicode} path q :
  index_of (is_char "?"%byte) path = None →
  parseQuery (path ++ "?"%byte :: q) = Some (add_params (segments q) ∅).
Proof.
  intros Hp. rewrite parseQuery_meaning. unfold query_meaning, query_part.
  rewrite (index_of_app _ path "?"%byte q); [|by apply index_of_None|done].
  rewrite drop_app_ge by lia. by replace (S _ - _)%nat with 1%nat by lia.
Qed.

(** A text that [QueryUnescape] turns into [s] and that does not collide with
    the separators of a query. *)
Definition encodes (e s : bytes) : Prop :=
  QueryUnescape e = Some s ∧ index_of is_delim e = None ∧ index_of (is_char "="%byte) e = None.

Definition encoded_pair (kv : bytes * bytes) : bytes := kv.1 ++ "="%byte :: kv.2.

(** Appends a text without separators. *)
Lemma index_of_None_app p s t :
  index_of p s = None → index_of p t = None → index_of p (s ++ t) = None.
Proof. rewrite !index_of_None, forallb_app. by intros -> ->. Qed.

Lemma read_pair_encoded `{Unicode} ek ev k v m :
  encodes ek k → QueryUnescape ev = Some v →
  read_pair (encoded_pair (ek, ev)) m = Ok (<[ToLower k := v]> m).
Proof.
  intros (Hk & _ & Hke) Hv. unfold read_pair, encoded_pair. cbn [fst snd].
  rewrite decide_False by by destruct ek.
  rewrite (index_of_app _ ek "="%byte ev); [|by apply index_of_None|done].
  rewrite take_app_length, drop_app_ge by lia. replace (S _ - _)%nat with 1%nat by lia.
  change (drop 1 ("="%byte :: ev)) with ev. by rewrite Hk, Hv.
Qed.

(** One more pair in front of a query. *)
Lemma segments_cons s sep q :
  index_of is_delim s = None → is_delim sep = true →
  segments (s ++ sep :: q) = s :: segments q.
Proof.
  intros Hs Hsep.
  rewrite (segments_delim _ (length s)) by (apply index_of_app; [by apply index_of_None|done]).
  rewrite take_app_length, drop_app_ge by lia. by replace (S _ - _)%nat with 1%nat by lia.
Qed.


(** ** Properties *)

(** The last pair with the given key, letter case ignored. *)
Definition last_value `{Unicode} (kvs : list (bytes * bytes)) (key : bytes) : option bytes :=
  snd <$> list.last (filter (λ kv, ToLower kv.1 = ToLower key) kvs).

Lemma add_params_pairs `{Unicode} es kvs m :
  Forall2 (λ e kv, encodes e.1 kv.1 ∧ QueryUnescape e.2 = Some kv.2 ∧
                   index_of is_delim e.2 = None) es kvs →
  add_params (encoded_pair <$> es) m =
    Ok (foldl (λ m kv, <[ToLower kv.1 := kv.2]> m) m kvs).
Proof.
  intros Hes. revert m. induction Hes as [|[ek ev] [k v] es kvs (Hk & Hv & _) Hes IH]; intros m; [done|].
  rewrite fmap_cons. cbn [add_params foldl fst snd] in *.
  rewrite (read_pair_encoded ek ev k v m Hk Hv). apply IH.
Qed.

Lemma encoded_pair_no_delim ek k ev :
  encodes ek k → index_of is_delim ev = None → index_of is_delim (encoded_pair (ek, ev)) = None.
Proof.
  intros (_ & Hk & _) Hv. unfold encoded_pair. apply index_of_None_app; [done|].
  cbn [index_of snd]. by rewrite Hv.
Qed.

Lemma segments_join es :
  es ≠ [] → Forall (λ s, index_of is_delim s = None) es →
  segments (str_join (bs "&") es) = es.
Proof.
  intros Hne Hes. induction Hes as [|s es Hs Hes IH]; [done|].
  destruct es as [|s' es]; [by apply segments_none|].
  change (str_join (bs "&") (s :: s' :: es)) with (s ++ "&"%byte :: str_join (bs "&") (s' :: es)).
  by rewrite segments_cons, IH.
Qed.

Lemma lookup_insert_pairs `{Unicode} kvs key :
  foldl (λ m kv, <[ToLower kv.1 := kv.2]> m) (∅ : queryParams) kvs !! ToLower key = last_value kvs key.
Proof.
  unfold last_value. induction kvs as [|[k v] kvs IH] using rev_ind; [done|].
  rewrite foldl_snoc, list.filter_app, filter_cons, filter_nil. cbn [fst snd].
  case_decide as Hk.
  - rewrite Hk, lookup_insert_eq. by rewrite last_snoc.
  - by rewrite lookup_insert_ne, app_nil_r.
Qed.

(** The URL query of a request is parsed back: for a path without "?" and
    any pairs written as [key=value] with escapes [QueryUnescape] undoes, joined
    by "&", parsing succeeds and [GetString] finds for a key, whatever its letter
    case, the value of its last occurrence and nothing for the other keys. *)
Theorem parseQuery_roundtrip `{Unicode} (path : bytes) (es kvs : list (bytes * bytes)) :
  index_of (is_char "?"%byte) path = None → es ≠ [] →
  Forall2 (λ e kv, encodes e.1 kv.1 ∧ QueryUnescape e.2 = Some kv.2 ∧
                   index_of is_delim e.2 = None) es kvs →
  ∃ qp, parseQuery (path ++ "?"%byte :: str_join (bs "&") (encoded_pair <$> es)) = Some (Ok qp) ∧
    ∀ key, GetString qp key = last_value kvs key.
Proof.
  intros Hp Hne Hes. rewrite parseQuery_segments, segments_join; [|by destruct es| |done].
  - rewrite (add_params_pairs es kvs) by done. eexists. split; [done|].
    intros key. apply lookup_insert_pairs.
  - clear Hne. induction Hes as [|[ek ev] [k v] es kvs (Hk & _ & Hv)]; constructor; [|done].
    by eapply encoded_pair_no_delim.
Qed.

Definition ascii_only : Unicode := {| unicode_to_lower s := s |}.

Lemma parseQuery_roundtrip_witness :
  ∃ qp, @parseQuery ascii_only (bs "/announce?Info=a%20b&key=c+d&info=%31") = Some (Ok qp) ∧
    @GetString ascii_only qp (bs "INFO") = Some (bs "1").
Proof.
  destruct (@parseQuery_roundtrip ascii_only (bs "/announce")
    [(bs "Info", bs "a%20b"); (bs "key", bs "c+d"); (bs "info", bs "%31")]
    [(bs "Info", bs "a b"); (bs "key", bs "c d"); (bs "info", bs "1")]) as (qp & Hq & Hg).
  - reflexivity.
  - discriminate.
  - repeat constructor.
  - exists qp. split; [exact Hq|]. rewrite Hg. reflexivity.
Defined.

(** The packets of BEP 15 as a client writes them. *)
Definition encode_announce (connID txID key : bytes) (action : Z) (r : AnnounceRequest)
    (eventID : Z) (ip options : bytes) : bytes :=
  connID ++ be_put 4 action ++ txID ++ ar_InfoHash r ++ rp_ID (ar_RequestPeer r) ++
  be_put 8 (ar_Downloaded r) ++ be_put 8 (ar_Left r) ++ be_put 8 (ar_Uploaded r) ++
  be_put 4 eventID ++ ip ++ key ++ be_put 4 (ar_NumWant r) ++
  be_put 2 (rp_Port (ar_RequestPeer r)) ++ options.

Inductive udp_option := ONop | OURLData (chunk : bytes).

Definition encode_option (o : udp_option) : bytes :=
  match o with
  | ONop => [byte_of_Z optionNOP]
  | OURLData chunk => byte_of_Z optionURLData :: byte_of_Z (Z.of_nat (length chunk)) :: chunk
  end.

Definition option_data (o : udp_option) : bytes :=
  match o with ONop => [] | OURLData chunk => chunk end.

Definition option_wf (o : udp_option) : Prop := (length (option_data o) < 256)%nat.

(** The options, then nothing or the end mark and whatever follows it. *)
Definition options_end (t : bytes) : Prop :=
  match t with [] => True | c :: _ => byte_to_Z c = optionEndOfOptions end.

Section ParserFacts.
Context `{Unicode} `{Shuffle}.

(** From the index where the options begin, with more fuel than there are bytes,
    the loop reads every option. *)
Lemma options_loop_encoded os t pre buf fuel :
  Forall option_wf os → options_end t →
  (length ((os ≫= encode_option) ++ t) < fuel)%nat →
  options_loop fuel (pre ++ (os ≫= encode_option) ++ t) (length pre) buf = parseQuery (buf ++ (os ≫= option_data)).
Proof.
  intros Hos Ht. revert pre buf fuel.
  induction Hos as [|[|chunk] os Ho Hos IH]; intros pre buf fuel Hf; cbn [mbind list_bind app] in *;
    (destruct fuel as [|fuel]; [lia|]); cbn [options_loop].
  - rewrite app_nil_r, length_app. destruct t as [|c t]; [by rewrite (proj2 (Nat.ltb_ge _ _)) by (cbn [length]; lia)|].
    rewrite (proj2 (Nat.ltb_lt _ _)) by (simpl; lia). rewrite (list_lookup_middle pre _ _ (length pre) eq_refl). cbn [mbind option_bind].
    simpl in Ht. by rewrite Ht.
  - cbn [encode_option app length] in *. rewrite (proj2 (Nat.ltb_lt _ _)) by (rewrite length_app; simpl; lia).
    rewrite (list_lookup_middle pre _ _ (length pre) eq_refl). cbn [mbind option_bind].
    change (byte_to_Z (byte_of_Z optionNOP)) with optionNOP.
    change (optionNOP =? optionEndOfOptions) with false. change (optionNOP =? optionNOP) with true. cbv iota.
    rewrite (cons_middle (byte_of_Z optionNOP)), (assoc_L (++)).
    replace (length pre + 1)%nat with (length (pre ++ [byte_of_Z optionNOP])) by (rewrite length_app; simpl; lia).
    rewrite IH by (simpl in Hf; lia). done.
  - cbn [encode_option app] in *. unfold option_wf in Ho. cbn [option_data] in *.
    set (n := byte_of_Z (Z.of_nat (length chunk))) in *. set (u := byte_of_Z optionURLData) in *.
    rewrite <-!app_assoc in *. cbn [length] in Hf. rewrite !length_app in Hf.
    rewrite (proj2 (Nat.ltb_lt _ _)) by (rewrite length_app; simpl; lia).
    rewrite (list_lookup_middle pre _ _ (length pre) eq_refl). cbn [mbind option_bind].
    change (byte_to_Z u) with optionURLData.
    change (optionURLData =? optionEndOfOptions) with false.
    change (optionURLData =? optionNOP) with false.
    change (optionURLData =? optionURLData) with true. cbv iota.
    rewrite (proj2 (Nat.leb_gt _ _)) by (rewrite length_app; simpl; lia).
    rewrite (cons_middle u), (assoc_L (++)).
    replace (length pre + 1)%nat with (length (pre ++ [u])) by (rewrite length_app; simpl; lia).
    rewrite (list_lookup_middle (pre ++ [u]) _ _ _ eq_refl). cbn [mbind option_bind].
    assert (Z.to_nat (byte_to_Z n) = length chunk) as -> by (unfold n; rewrite byte_to_of_Z, Z.mod_small, Nat2Z.id by lia; done).
    rewrite (cons_middle n), (assoc_L (++) (pre ++ [u])).
    assert (length pre + 2 = length ((pre ++ [u]) ++ [n]))%nat as E by (rewrite !length_app; simpl; lia).
    rewrite E, (proj2 (Nat.ltb_ge _ _)) by (rewrite !length_app; simpl; lia).
    rewrite (slice_middle _ chunk) by done. cbn [mbind option_bind].
    rewrite (assoc_L (++) _ chunk).
    replace (length pre + (2 + length chunk))%nat with (length (((pre ++ [u]) ++ [n]) ++ chunk)) by (rewrite !length_app; simpl; lia).
    rewrite IH by (rewrite length_app; lia). by rewrite <-(assoc_L (++) buf).
Qed.

Lemma handleOptionalParameters_encoded os t :
  Forall option_wf os → options_end t →
  handleOptionalParameters ((os ≫= encode_option) ++ t) = Some (query_meaning (os ≫= option_data)).
Proof.
  intros Hos Ht. rewrite <-parseQuery_meaning. unfold handleOptionalParameters.
  destruct (Nat.eqb_spec (length ((os ≫= encode_option) ++ t)) 0) as [E|E].
  - apply nil_length_inv, app_nil in E as [E _]. destruct os as [|[|chunk] os]; done.
  - by apply (options_loop_encoded os t [] []); [..|lia].
Qed.

End ParserFacts.

(** What is well formed on the wire: the widths of the fields. *)
Record announce_wf (connID txID key : bytes) (r : AnnounceRequest) : Prop := {
  wf_connID : length connID = 8%nat;
  wf_txID : length txID = 4%nat;
  wf_key : length key = 4%nat;
  wf_ih : length (ar_InfoHash r) = InfoHashV1Len;
  wf_id : length (rp_ID (ar_RequestPeer r)) = PeerIDLen;
  wf_downloaded : uint 64 (ar_Downloaded r);
  wf_left : uint 64 (ar_Left r);
  wf_uploaded : uint 64 (ar_Uploaded r);
  wf_numwant : uint 32 (ar_NumWant r);
  wf_port : uint 16 (rp_Port (ar_RequestPeer r));
}.

(** The request a packet stands for: what the client wrote, from its address. *)
Definition announced_request `{Unicode} (src : Addr) (opts : ParseOptions) (ip : bytes)
    (r : AnnounceRequest) (params : queryParams) : AnnounceRequest :=
  MkAnnounceRequest (ar_Event r) (ar_InfoHash r) true true (ar_NumWant r) (ar_Left r)
    (ar_Downloaded r) (ar_Uploaded r)
    (MkRequestPeer (rp_ID (ar_RequestPeer r)) (rp_Port (ar_RequestPeer r))
       (announce_addresses src (AllowIPSpoofing opts) ip))
    (Some (GetString params)).

(** The fields of an encoded announce. *)
Lemma announce_fields connID txID key action r eventID ip options :
  let p := encode_announce connID txID key action r eventID ip options in
  let ipEnd := (84 + length ip)%nat in
  announce_wf connID txID key r → 0 <= eventID < 256 →
  length p = (ipEnd + 10 + length options)%nat ∧
  slice p 16 36 = Some (ar_InfoHash r) ∧ slice p 36 56 = Some (rp_ID (ar_RequestPeer r)) ∧
  be_at p 56 64 = Some (ar_Downloaded r) ∧ be_at p 64 72 = Some (ar_Left r) ∧
  be_at p 72 80 = Some (ar_Uploaded r) ∧ p !! 83%nat = Some (byte_of_Z eventID) ∧
  slice p 84 ipEnd = Some ip ∧
  be_at p (ipEnd + 4) (ipEnd + 8) = Some (ar_NumWant r) ∧
  be_at p (ipEnd + 8) (ipEnd + 10) = Some (rp_Port (ar_RequestPeer r)) ∧
  slice p (ipEnd + 10) (ipEnd + 10 + length options) = Some options.
Proof.
  intros p ipEnd [] Hev. subst p ipEnd. unfold encode_announce, InfoHashV1Len, PeerIDLen in *.
  rewrite !length_app, !length_be_put.
  split_and!; [lia|skip_fields..|].
  1,2,7: by rewrite slice_0 by lia.
  1,2,3: by rewrite (be_at_put 8 _ _ _ _ 64) by (done || lia).
  - by rewrite (lookup_be_put 3) by lia.
  - by rewrite (be_at_put 4 _ _ _ _ 32) by (done || lia).
  - by rewrite (be_at_put 2 _ _ _ _ 16) by (done || lia).
  - rewrite !app_assoc. apply slice_suffix; rewrite ?length_app, ?length_be_put; lia.
Qed.

(** C18: an announce packet is parsed to what the client wrote: for every
    request with fields of the right width, in both the BEP 15 and the "old
    opentracker" IPv6 form, with any BEP 41 options behind it, [parseAnnounce]
    gives the sanitized request with those fields, the address the packet came
    from and, when spoofing is allowed, the one inside it, and the URL data of
    the options, joined, as its parameters. *)
Theorem parseAnnounce_roundtrip `{Unicode} `{Shuffle} (connID txID key : bytes) (action : Z)
    (r : AnnounceRequest) (eventID : Z) (ip : bytes) (os : list udp_option) (t : bytes)
    (v6 : bool) (src : Addr) (opts : ParseOptions) :
  announce_wf connID txID key r →
  0 <= eventID < 256 → eventIDs !! Z.to_nat eventID = Some (ar_Event r) →
  length ip = (if v6 then 16 else 4)%nat →
  Forall option_wf os → options_end t →
  parseAnnounce
    (MkRequest (encode_announce connID txID key action r eventID ip ((os ≫= encode_option) ++ t)) src)
    v6 opts
  = Some (params ← query_meaning (os ≫= option_data);
          SanitizeAnnounce (announced_request src opts ip r params) (MaxNumWant opts)
            (DefaultNumWant opts) (FilterPrivateIPs opts)).
Proof.
  intros Hr Hev He Hip Hos Ht.
  pose proof (announce_fields connID txID key action r eventID ip ((os ≫= encode_option) ++ t) Hr Hev)
    as (Hl & Hih & Hid & Hd & Hle & Hu & Hevt & Hips & Hnw & Hport & Hrest).
  revert Hl Hih Hid Hd Hle Hu Hevt Hips Hnw Hport Hrest. rewrite Hip.
  set (p := encode_announce _ _ _ _ _ _ _ _). intros. destruct Hr.
  unfold parseAnnounce. cbn [r_Packet r_IP].
  rewrite (proj2 (Nat.ltb_ge _ _)) by lia.
  rewrite Hih, Hid, Hd, Hle, Hu, Hevt. cbn [mbind option_bind].
  rewrite NewInfoHash_raw, NewPeerID_Ok by (done || by left).
  rewrite byte_to_of_Z, Z.mod_small, He by done.
  rewrite Hips, Hnw, Hport, Hl, Hrest. cbn [mbind option_bind].
  rewrite handleOptionalParameters_encoded by done.
  by destruct (query_meaning _).
Qed.

Lemma parseAnnounce_roundtrip_witness :
  let id := replicate 20 x2d in
  let r := MkAnnounceRequest Started (replicate 20 x01) true true 7 5 6 8
             (MkRequestPeer id 6881 []) None in
  let opts := MkParseOptions true false 100 50 50 in
  let src := Addr4 0x01020304 in
  ∃ r', @parseAnnounce ascii_only shuffle_id
    (MkRequest (encode_announce initialConnectionID [x01; x02; x03; x04]%byte [x00; x00; x00; x00]%byte
        announceActionID r 2 (be_put 4 0x05060708)
        (([ONop; OURLData (bs "/?a="); OURLData (bs "b")] ≫= encode_option) ++ [])) src)
    false opts = Some (Ok r') ∧
    ar_Event r' = Started ∧
    ar_Addresses r' = [MkRequestAddress (Addr4 0x05060708) true; MkRequestAddress src false].
Proof.
  cbv zeta. eexists. split.
  - rewrite parseAnnounce_roundtrip; [vm_compute; reflexivity|..].
    + split; (reflexivity || (split; reflexivity || discriminate)).
    + split; [discriminate|reflexivity].
    + reflexivity.
    + reflexivity.
    + repeat constructor; unfold option_wf; simpl; lia.
    + exact I.
  - split; reflexivity.
Defined.

(** The packets of a scrape. *)
Definition encode_scrape (connID txID : bytes) (ihs : list InfoHash) : bytes :=
  connID ++ be_put 4 scrapeActionID ++ txID ++ concat ihs.

Lemma length_concat_const (k : nat) (l : list bytes) :
  Forall (λ x, length x = k) l → length (concat l) = (k * length l)%nat.
Proof.
  induction 1 as [|x l Hx Hl IH]; simpl; [lia|]. rewrite length_app, Hx, IH. lia.
Qed.

Lemma info_hashes_concat ihs acc fuel :
  Forall (λ ih, length ih = InfoHashV1Len) ihs → (length (concat ihs) < fuel)%nat →
  info_hashes fuel (concat ihs) acc = Some (Ok (acc ++ ihs)).
Proof.
  intros Hihs. revert acc fuel. unfold InfoHashV1Len in *.
  induction Hihs as [|ih ihs Hih Hihs IH]; intros acc fuel Hf.
  { rewrite app_nil_r. by destruct fuel; [simpl in Hf; lia|]. }
  cbn [concat] in *. rewrite length_app in Hf. destruct fuel as [|fuel]; [lia|].
  cbn [info_hashes]. unfold InfoHashV1Len in *.
  rewrite (proj2 (Nat.leb_le _ _)) by (rewrite length_app; lia).
  rewrite (slice_0 ih (concat ihs) 0 20 eq_refl Hih). cbn [mbind option_bind]. rewrite NewInfoHash_raw by by left.
  rewrite (slice_suffix ih (concat ihs) 20) by (rewrite ?length_app; lia). cbn [mbind option_bind].
  rewrite IH by lia. by rewrite <-app_assoc.
Qed.

(** A scrape packet with any positive number of V1 info hashes is parsed to
    the sanitized request for exactly those hashes, in their order, from the
    address the packet came from. *)
Theorem parseScrape_roundtrip `{Shuffle} (connID txID : bytes) (ihs : list InfoHash)
    (src : Addr) (opts : ParseOptions) :
  length connID = 8%nat → length txID = 4%nat → ihs ≠ [] →
  Forall (λ ih, length ih = InfoHashV1Len) ihs →
  parseScrape (MkRequest (encode_scrape connID txID ihs) src) opts
  = Some (SanitizeScrape (MkScrapeRequest [MkRequestAddress src false] ihs None)
            (MaxScrapeInfoHashes opts) (FilterPrivateIPs opts)).
Proof.
  intros Hc Ht Hne Hihs. pose proof (length_concat_const _ _ Hihs) as Hl.
  assert (0 < length ihs)%nat by (destruct ihs; simpl; [done|lia]).
  unfold parseScrape, encode_scrape. cbn [r_Packet r_IP]. unfold InfoHashV1Len in *.
  rewrite !length_app, length_be_put, (proj2 (Nat.ltb_ge _ _)) by lia.
  skip_fields.
  rewrite slice_Some, drop_0 by lia. rewrite take_ge by lia. cbn [mbind option_bind].
  rewrite Hl, Nat.mul_comm, Nat.Div0.mod_mul. cbn [Nat.eqb negb].
  rewrite info_hashes_concat by (done || lia). done.
Qed.

Lemma parseScrape_roundtrip_witness :
  ∃ r, @parseScrape shuffle_id
    (MkRequest (encode_scrape initialConnectionID [x01; x02; x03; x04]%byte
                  [replicate 20 x01; replicate 20 x02]) (Addr4 0x01020304))
    (MkParseOptions false false 100 50 50) = Some (Ok r) ∧
    sr_InfoHashes r = [replicate 20 x01; replicate 20 x02].
Proof.
  eexists. split.
  - rewrite parseScrape_roundtrip; [vm_compute; reflexivity|reflexivity..|discriminate|].
    repeat constructor.
  - reflexivity.
Defined.

Lemma info_hashes_never_panics fuel p acc : (length p < fuel)%nat → ∃ r, info_hashes fuel p acc = Some r.
Proof.
  revert p acc. induction fuel as [|fuel IH]; intros p acc Hf; [lia|]. cbn [info_hashes].
  destruct (Nat.leb_spec InfoHashV1Len (length p)) as [Hl|]; [|eauto].
  destruct (slice_ok p 0 InfoHashV1Len) as (b & -> & _); [lia|]. cbn [mbind option_bind].
  destruct (NewInfoHash b); [|eauto].
  destruct (slice_ok p InfoHashV1Len (length p)) as (p' & -> & Hp'); [lia|]. cbn [mbind option_bind].
  apply IH. unfold InfoHashV1Len in *. lia.
Qed.

Lemma options_loop_never_panics `{Unicode} fuel p i buf :
  (i ≤ length p)%nat → (length p - i < fuel)%nat → ∃ r, options_loop fuel p i buf = Some r.
Proof.
  revert i buf. induction fuel as [|fuel IH]; intros i buf Hi Hf; [lia|]. cbn [options_loop].
  destruct (Nat.ltb_spec i (length p)) as [Hl|]; [|rewrite parseQuery_meaning; eauto].
  destruct (lookup_lt_is_Some_2 p i Hl) as [c ->]. cbn [mbind option_bind].
  destruct (byte_to_Z c =? optionEndOfOptions); [rewrite parseQuery_meaning; eauto|].
  destruct (byte_to_Z c =? optionNOP); [apply IH; lia|].
  destruct (byte_to_Z c =? optionURLData); [|eauto].
  destruct (Nat.leb_spec (length p) (i + 1)) as [|Hl1]; [eauto|].
  destruct (lookup_lt_is_Some_2 p (i + 1) Hl1) as [n ->]. cbn [mbind option_bind].
  destruct (Nat.ltb_spec (length p) (i + 2 + Z.to_nat (byte_to_Z n))) as [|Hl2]; [eauto|].
  destruct (slice_ok p (i + 2) (i + 2 + Z.to_nat (byte_to_Z n))) as (chunk & -> & _); [lia|]. cbn [mbind option_bind].
  apply IH; lia.
Qed.

Lemma handleOptionalParameters_never_panics `{Unicode} p : ∃ r, handleOptionalParameters p = Some r.
Proof.
  unfold handleOptionalParameters. destruct (_ =? 0)%nat; [rewrite parseQuery_meaning; eauto|].
  apply options_loop_never_panics; lia.
Qed.

(** C33: no packet makes the parsers panic: whatever bytes arrive, [parseAnnounce]
    and [parseScrape] only read inside the packet and return a request or an
    error. *)
Theorem parsers_never_panic `{Unicode} `{Shuffle} (r : Request) (v6 : bool) (opts : ParseOptions) :
  (∃ res, parseAnnounce r v6 opts = Some res) ∧ (∃ res, parseScrape r opts = Some res).
Proof.
  split.
  - unfold parseAnnounce. set (ipEnd := (84 + _)%nat).
    assert (88 ≤ ipEnd)%nat by (subst ipEnd; destruct v6; lia).
    destruct (Nat.ltb_spec (length (r_Packet r)) (ipEnd + 10)) as [|Hl]; [eauto|].
    assert (Hlk : ∃ b, r_Packet r !! 83%nat = Some b) by (apply lookup_lt_is_Some; lia).
    destruct Hlk as [b Hb].
    repeat match goal with
      | |- context [slice ?p ?i ?j] =>
          destruct (slice_ok p i j) as (? & -> & _); [lia|]; cbn [mbind option_bind]
      | |- context [be_at ?p ?i ?j] =>
          destruct (be_at_ok p i j) as (? & ->); [lia|]; cbn [mbind option_bind]
      | |- context [NewInfoHash ?b] => destruct (NewInfoHash b); [|by eauto]
      | |- context [NewPeerID ?b] => destruct (NewPeerID b); [|by eauto]
      | |- context [r_Packet r !! 83%nat] => rewrite Hb; cbn [mbind option_bind]
      | |- context [eventIDs !! ?i] => destruct (eventIDs !! i); [|by eauto]
      | |- context [handleOptionalParameters ?b] =>
          destruct (handleOptionalParameters_never_panics b) as [[] ->]; cbn [mbind option_bind]; eauto
      end.
  - unfold parseScrape. destruct (Nat.ltb_spec (length (r_Packet r)) 36) as [|Hl]; [eauto|].
    destruct (slice_ok (r_Packet r) 16 (length (r_Packet r))) as (p & -> & _); [lia|].
    cbn [mbind option_bind]. destruct (negb _); [eauto|].
    destruct (info_hashes_never_panics (S (length p)) p [] ltac:(lia)) as [[] ->]; cbn; eauto.
Qed.
