(* ===== verification/UdpAlias.v ===== *)
(** * Parameters that share a pooled buffer

    The strings of [parseQuery] (src/frontend/udp/params.go) as they are in
    memory: made by [str2bytes.BytesToString] (src/pkg/str2bytes/str2bytes.go),
    they point into the array behind the buffer of [handleOptionalParameters]
    (src/frontend/udp/parser.go), which is back in the pool of
    src/pkg/bytepool/bufferpool.go when the parser returns.  The buffer is a
    [bytes.Buffer] with its capacity: what its next user writes goes into the same
    array as long as it fits, and into a new one then. *)

From S2P Require Import Prelude GoStd Netip Bittorrent Packet Frontend UdpParser.

Local Open Scope Z_scope.

(** ** Memory

    The arrays of the heap, as long as their capacity, and a [bytes.Buffer] over
    one of them, or over none as it is made.  The parser does not read from the
    buffer and the writers of src/frontend/udp/writer.go do so after their last
    write, before it is reset: what it holds begins at the array's start. *)

Abbreviation heap := (list bytes).

Definition mem (h : heap) (a : nat) : bytes := default [] (h !! a).

Record Buffer := MkBuffer { b_array : option nat; b_len : nat }.

Definition array (h : heap) (b : Buffer) : bytes := match b_array b with Some a => mem h a | None => [] end.
Definition Bytes (h : heap) (b : Buffer) : bytes := take (b_len b) (array h b).

(** How much is allocated for a wish: a size class of the runtime. *)
Class Allocator := { size_class : nat → nat; size_class_ge n : (n ≤ size_class n)%nat }.

Definition smallBufferSize : nat := 64.

(** [Buffer.Write] (and the writers' [WriteString] and [WriteByte]): in place when it fits; otherwise the bytes move to a new array
    (of 64 bytes for the first small write, else of at least twice the size), and
    the old one stays as it is. *)
Definition Write `{Allocator} (p : bytes) (hb : heap * Buffer) : heap * Buffer :=
  let '(h, b) := hb in
  let arr := array h b in
  let l := (b_len b + length p)%nat in
  if (l <=? length arr)%nat then
    (match b_array b with
     | Some a => <[a := take (b_len b) arr ++ p ++ drop l arr]> h
     | None => h
     end, MkBuffer (b_array b) l)
  else
    let c := if decide (b_array b = None ∧ length p ≤ smallBufferSize)%nat then smallBufferSize
             else size_class (l `max` (2 * length arr)) in
    (h ++ [take (b_len b) arr ++ p ++ replicate (c - l) x00], MkBuffer (Some (length h)) l).

Definition writes `{Allocator} (ps : list bytes) (hb : heap * Buffer) : heap * Buffer := foldl (flip Write) hb ps.

(** [ByteBufferPool.Put]: the buffer is reset; its array and the bytes in it stay. *)
Definition Reset (b : Buffer) : Buffer := MkBuffer (b_array b) 0.

(** Of the writes to a buffer with [room] bytes left, those that reach its array:
    up to the first one that does not fit. *)
Fixpoint in_place (room : nat) (ps : list bytes) : bytes :=
  match ps with
  | [] => []
  | p :: ps => if (length p <=? room)%nat then p ++ in_place (room - length p) ps else []
  end.

(** A part [buf[off : off+len]] of an array. *)
Record part := MkPart { p_off : nat; p_len : nat }.

Definition content (buf : bytes) (p : part) : bytes := take (p_len p) (drop (p_off p) buf).

(** A Go string: its own bytes, or a part of the array. *)
Inductive gostring := Own (s : bytes) | Shared (p : part).

Definition read (buf : bytes) (s : gostring) : bytes :=
  match s with Own s => s | Shared p => content buf p end.

(** [BytesToString]: no copy. *)
Definition BytesToString (p : part) : gostring := Shared p.

(** [url.QueryUnescape] returns its argument when there is nothing to unescape;
    [strings.ToLower] when nothing changes. *)
Definition is_escape (c : byte) : bool := byte_eqb c "%"%byte || byte_eqb c "+"%byte.

Definition unescape (buf : bytes) (s : gostring) : option gostring :=
  match index_of is_escape (read buf s) with
  | None => Some s
  | Some _ => Own <$> QueryUnescape (read buf s)
  end.

Section Alias.
Context `{HU : Unicode}.

Definition lower (buf : bytes) (s : gostring) : gostring :=
  if decide (ToLower (read buf s) = read buf s) then s else Own (ToLower (read buf s)).

(** [q.params]: for the key of each insertion, the stored key and value. *)
Abbreviation views := (gmap bytes (gostring * gostring)).

(** ** [parseQuery] *)

Definition add_view (buf : bytes) (key : part) (params : views) : result views :=
  if decide (p_len key = 0)%nat then Ok params
  else
    let '(key, value) :=
      match index_of (is_char "="%byte) (content buf key) with
      | Some i => (MkPart (p_off key) i, MkPart (p_off key + S i) (p_len key - S i))
      | None => (key, MkPart (p_off key) 0)
      end in
    match unescape buf (BytesToString key) with
    | None => Err ErrInvalidQueryEscape
    | Some k =>
        match unescape buf (BytesToString value) with
        | None => Err ErrInvalidQueryEscape
        | Some v => let k := lower buf k in Ok (<[read buf k := (k, v)]> params)
        end
    end.

Fixpoint view_loop (fuel : nat) (buf : bytes) (query : part) (params : views) : result views :=
  match fuel with
  | O => Ok params
  | S fuel =>
      if decide (p_len query = 0)%nat then Ok params
      else
        let '(key, query) :=
          match index_of is_delim (content buf query) with
          | Some i => (MkPart (p_off query) i, MkPart (p_off query + S i) (p_len query - S i))
          | None => (query, MkPart (p_off query) 0)
          end in
        params ← add_view buf key params;
        view_loop fuel buf query params
  end.

Definition parseQuery_views (buf : bytes) : result views :=
  let query := match index_of (is_char "?"%byte) buf with
               | Some i => MkPart (S i) (length buf - S i)
               | None => MkPart 0 (length buf)
               end in
  view_loop (p_len query) buf query ∅.

(** What the parameters are while the buffer holds [buf]. *)
Definition params_of (buf : bytes) (m : views) : gmap bytes bytes := (λ kv, read buf kv.2) <$> m.

(** ** Facts *)

Definition in_buf (buf : bytes) (p : part) : Prop := (p_off p + p_len p ≤ length buf)%nat.

Lemma length_content buf p : in_buf buf p → length (content buf p) = p_len p.
Proof. unfold in_buf, content. intros H. rewrite length_take, length_drop. lia. Qed.

Lemma content_front buf p i :
  (i ≤ p_len p)%nat → content buf (MkPart (p_off p) i) = take i (content buf p).
Proof. intros H. unfold content. cbn [p_off p_len]. rewrite take_take. f_equal. lia. Qed.

Lemma content_back buf p i :
  content buf (MkPart (p_off p + i) (p_len p - i)) = drop i (content buf p).
Proof. unfold content. cbn [p_off p_len]. by rewrite skipn_firstn_comm, drop_drop. Qed.

Lemma content_empty buf p : p_len p = 0%nat → content buf p = [].
Proof. unfold content. by intros ->. Qed.

Lemma in_buf_split buf p i : in_buf buf p → (i < p_len p)%nat →
  in_buf buf (MkPart (p_off p) i) ∧ in_buf buf (MkPart (p_off p + S i) (p_len p - S i)).
Proof. unfold in_buf. cbn [p_off p_len]. lia. Qed.

Lemma index_of_plain s : index_of is_escape s = None → QueryUnescape s = Some s.
Proof.
  induction s as [|c s IH]; [done|]. cbn [index_of QueryUnescape]. unfold is_escape at 1.
  destruct (byte_eqb c "%"%byte); [done|]. destruct (byte_eqb c "+"%byte); [done|]. cbn [orb].
  destruct (index_of is_escape s); [done|]. intros _. by rewrite (IH eq_refl).
Qed.

Lemma unescape_read buf s : read buf <$> unescape buf s = QueryUnescape (read buf s).
Proof.
  unfold unescape. destruct (index_of is_escape (read buf s)) eqn:E.
  - by destruct (QueryUnescape (read buf s)).
  - by rewrite index_of_plain.
Qed.

Lemma lower_read buf s : read buf (lower buf s) = ToLower (read buf s).
Proof. unfold lower. by case_decide. Qed.

Definition fmap_ok {A B} (f : A → B) (r : result A) : result B :=
  match r with Ok a => Ok (f a) | Err e => Err e end.

Lemma add_view_pair buf key m :
  in_buf buf key → fmap_ok (params_of buf) (add_view buf key m) = read_pair (content buf key) (params_of buf m).
Proof.
  intros Hb. unfold add_view, read_pair. pose proof (length_content buf key Hb) as Hlen.
  destruct (decide (p_len key = 0)%nat) as [E|E].
  { by rewrite (content_empty _ _ E), decide_True. }
  rewrite decide_False by (intros Hc; rewrite Hc in Hlen; cbn [length] in Hlen; lia).
  set (kv := match index_of (is_char "="%byte) (content buf key) with Some i => (MkPart _ _, MkPart _ _) | None => _ end).
  assert ((content buf kv.1, content buf kv.2) =
    match index_of (is_char "="%byte) (content buf key) with
    | Some i => (take i (content buf key), drop (S i) (content buf key))
    | None => (content buf key, [])
    end) as Hkv.
  { unfold kv. destruct (index_of (is_char "="%byte) (content buf key)) as [i|] eqn:Ei; cbn [fst snd].
    - apply index_of_lt in Ei. by rewrite content_front, content_back by lia.
    - by rewrite (content_empty buf (MkPart _ 0)). }
  rewrite <-Hkv. destruct kv as [k v]. cbn [fst snd].
  pose proof (unescape_read buf (Shared k)) as Hk. pose proof (unescape_read buf (Shared v)) as Hv.
  unfold BytesToString. cbn [read] in Hk, Hv. rewrite <-Hk.
  destruct (unescape buf (Shared k)) as [k'|]; [|done]. cbn [fmap option_fmap option_map].
  rewrite <-Hv. destruct (unescape buf (Shared v)) as [v'|]; [|done]. cbn [fmap option_fmap option_map fmap_ok].
  cbv zeta. cbn [fmap_ok]. unfold params_of. by rewrite fmap_insert, lower_read.
Qed.

Lemma view_loop_query fuel buf q m :
  in_buf buf q → (p_len q ≤ fuel)%nat →
  fmap_ok (params_of buf) (view_loop fuel buf q m) = add_params (segments (content buf q)) (params_of buf m).
Proof.
  revert q m. induction fuel as [|fuel IH]; intros q m Hb Hf.
  { by rewrite content_empty by lia. }
  cbn [view_loop]. pose proof (length_content buf q Hb) as Hlen. destruct (decide (p_len q = 0)%nat) as [E|E].
  { by rewrite (content_empty _ _ E). }
  destruct (index_of is_delim (content buf q)) as [i|] eqn:Ei.
  - rewrite (segments_delim _ _ Ei). apply index_of_lt in Ei. destruct (in_buf_split buf q i Hb ltac:(lia)) as [H1 H2].
    rewrite <-content_front, <-content_back by lia. cbn [add_params]. rewrite <-(add_view_pair _ _ m H1).
    destruct (add_view buf _ m) as [m'|e]; [|done]. apply IH; [done|cbn [p_len]; lia].
  - rewrite (segments_none _ Ei). cbn [add_params]. rewrite <-(add_view_pair _ _ m Hb).
    destruct (add_view buf q m) as [m'|e]; [|done]. cbn [mbind result_bind fmap_ok].
    rewrite IH; [by rewrite content_empty| |cbn [p_len]; lia]. unfold in_buf in *. cbn [p_off p_len]. lia.
Qed.

(** While the buffer is theirs the shared strings are the parameters of
    [UdpParser.parseQuery]. *)
Lemma parseQuery_views_read buf : parseQuery buf = Some (fmap_ok (params_of buf) (parseQuery_views buf)).
Proof.
  rewrite parseQuery_meaning. f_equal. unfold parseQuery_views, query_meaning, query_part.
  destruct (index_of (is_char "?"%byte) buf) as [i|] eqn:Ei.
  - apply index_of_lt in Ei. rewrite view_loop_query by (unfold in_buf; cbn [p_off p_len]; lia).
    unfold content. cbn [p_off p_len]. rewrite take_ge by (rewrite length_drop; lia).
    unfold params_of. by rewrite fmap_empty.
  - rewrite view_loop_query by (unfold in_buf; cbn [p_off p_len]; lia).
    unfold content. cbn [p_off p_len]. rewrite drop_0, take_ge by lia. unfold params_of. by rewrite fmap_empty.
Qed.

(** A pair without escapes: its value is a part of the buffer. *)
Definition plain (s : bytes) : Prop :=
  index_of is_escape s = None ∧ index_of is_delim s = None ∧ index_of (is_char "="%byte) s = None.

Lemma parseQuery_views_pair (k v : bytes) :
  plain k → plain v → k ≠ [] → v ≠ [] → index_of (is_char "?"%byte) k = None →
  let buf := "?"%byte :: k ++ "="%byte :: v in
  parseQuery_views buf =
    Ok {[ ToLower k := (lower buf (Shared (MkPart 1 (length k))), Shared (MkPart (length k + 2) (length v))) ]}.
Proof.
  intros (Hk1 & Hk2 & Hk3) (Hv1 & Hv2 & Hv3) Hkne Hvne Hq buf.
  unfold parseQuery_views. change (index_of (is_char "?"%byte) buf) with (Some 0%nat). cbn match.
  assert (length buf = S (length k + S (length v))) as Hlen by (unfold buf; cbn [length]; by rewrite length_app).
  set (q := MkPart 1 (length buf - 1)).
  assert (content buf q = k ++ "="%byte :: v) as Hc.
  { unfold content, q. cbn [p_off p_len]. change (drop 1 buf) with (k ++ "="%byte :: v). apply take_ge.
    rewrite length_app. cbn [length]. lia. }
  assert (p_len q = S (length k + length v)) as Hql by (unfold q; cbn [p_len]; lia). rewrite Hql.
  cbn [view_loop]. rewrite decide_False by lia. rewrite Hc, index_of_None_app; [|done|cbn [index_of]; by rewrite Hv2].
  cbn beta iota. assert (add_view buf q ∅ =
    Ok {[ ToLower k := (lower buf (Shared (MkPart 1 (length k))), Shared (MkPart (length k + 2) (length v))) ]}) as ->.
  { unfold add_view. rewrite decide_False by lia. rewrite Hc, (index_of_app _ k "="%byte v) by (by apply index_of_None || done).
    assert (content buf (MkPart (p_off q) (length k)) = k) as Hck
      by (rewrite content_front, Hc, take_app_length by lia; done).
    assert (content buf (MkPart (p_off q + S (length k)) (p_len q - S (length k))) = v) as Hcv.
    { rewrite content_back, Hc, drop_app_ge by lia. by replace (S _ - _)%nat with 1%nat by lia. }
    unfold BytesToString, unescape. cbn [read]. rewrite Hck, Hk1, Hcv, Hv1.
    assert (MkPart (p_off q + S (length k)) (p_len q - S (length k)) = MkPart (length k + 2) (length v)) as ->
      by (rewrite Hql; unfold q; cbn [p_off]; f_equal; lia).
    rewrite lower_read. cbn [read]. change (MkPart (p_off q) (length k)) with (MkPart 1 (length k)) in *.
    by rewrite Hck. }
  cbn [mbind result_bind]. destruct (length k + length v)%nat; [done|]. by cbn [view_loop p_len].
Qed.

(** [q.params[strings.ToLower(key)]]: a map compares the asked key with the
    stored ones as they read now.  It finds an entry only if they are equal, and
    misses one stored under the asked key only if they are not; whether it meets
    an entry stored under another key depends on the hashes. *)
Definition GetString (buf : bytes) (m : views) (key : bytes) (o : option bytes) : Prop :=
  match o with
  | Some value => ∃ k kv, m !! k = Some kv ∧ read buf kv.1 = ToLower key ∧ read buf kv.2 = value
  | None => ∀ kv, m !! ToLower key = Some kv → read buf kv.1 ≠ ToLower key
  end.

Lemma GetString_singleton buf k key value o :
  GetString buf {[ ToLower k := (key, value) ]} k o ↔
  o = if decide (read buf key = ToLower k) then Some (read buf value) else None.
Proof.
  destruct o as [x|]; cbn [GetString].
  - split.
    + intros (k' & kv & [_ <-]%lookup_singleton_Some & Hk & <-). cbn [fst snd] in *. by rewrite decide_True.
    + case_decide; [|done]. intros [= ->]. eexists _, _. split; [apply lookup_singleton_eq|done].
  - setoid_rewrite lookup_singleton_Some. split.
    + intros H. rewrite decide_False; [done|]. by apply (H (key, value)).
    + case_decide; [done|]. by intros _ kv [_ <-].
Qed.

(** ** The buffer *)

Section Buffers.
Context `{HA : Allocator}.

Record buffer_ok (h : heap) (b : Buffer) : Prop := {
  bo_array a : b_array b = Some a → (a < length h)%nat;
  bo_len : (b_len b ≤ length (array h b))%nat;
}.

Lemma mem_app h x a : (a < length h)%nat → mem (h ++ x) a = mem h a.
Proof. intros Ha. unfold mem. by rewrite lookup_app_l. Qed.

Lemma mem_last h x : mem (h ++ [x]) (length h) = x.
Proof. unfold mem. by rewrite list_lookup_middle. Qed.

Lemma length_overwrite (arr p : bytes) n :
  (n + length p ≤ length arr)%nat → length (take n arr ++ p ++ drop (n + length p) arr) = length arr.
Proof. intros H. rewrite !length_app, length_take, length_drop. lia. Qed.

Lemma mem_insert h a x : (a < length h)%nat → mem (<[a := x]> h) a = x.
Proof. intros Ha. unfold mem. by rewrite list_lookup_insert_eq. Qed.

Lemma take_written (s p r : bytes) n l : length s = n → l = (n + length p)%nat → take l (s ++ p ++ r) = s ++ p.
Proof. intros <- ->. rewrite (assoc_L (++)), take_app_le by (rewrite length_app; lia). apply take_ge. rewrite length_app. lia. Qed.

(** A write appends to the bytes of its buffer. *)
Lemma Write_appends p h b h' b' :
  buffer_ok h b → Write p (h, b) = (h', b') →
  buffer_ok h' b' ∧ (length h ≤ length h')%nat ∧ Bytes h' b' = Bytes h b ++ p.
Proof.
  intros [Ha Hl]. unfold Write, Bytes.
  assert (length (take (b_len b) (array h b)) = b_len b) as Hlen by (rewrite length_take; lia).
  destruct (Nat.leb_spec (b_len b + length p) (length (array h b))) as [Hfit|Hfit].
  - intros [= <- <-]. destruct b as [[a|] n]; cbn [b_array b_len] in *.
    + specialize (Ha a eq_refl). change (array h (MkBuffer (Some a) n)) with (mem h a) in *.
      set (arr := take n (mem h a) ++ p ++ drop (n + length p) (mem h a)).
      change (array (<[a := arr]> h) (MkBuffer (Some a) (n + length p))) with (mem (<[a := arr]> h) a).
      rewrite (mem_insert _ _ _ Ha). split; [split|split].
      * intros a' [= <-]. by rewrite length_insert.
      * change (n + length p ≤ length (mem (<[a := arr]> h) a))%nat. rewrite (mem_insert _ _ _ Ha).
        unfold arr. by rewrite length_overwrite.
      * by rewrite length_insert.
      * by apply (take_written _ _ _ n).
    + change (array h (MkBuffer None n)) with (@nil byte) in *. cbn [length] in *.
      destruct p; [|cbn [length] in *; lia].
      split; [split; [done|cbn; lia]|]. split; [done|]. change (take (n + 0) ([] : bytes) = take n [] ++ []). by rewrite !take_nil.
  - set (c := if decide _ then _ else _).
    assert (b_len b + length p ≤ c)%nat as Hc.
    { unfold c. case_decide as Hd; [|pose proof (size_class_ge ((b_len b + length p) `max` (2 * length (array h b)))); lia].
      destruct Hd as [E ?]. unfold array in Hl. rewrite E in Hl. cbn [length] in Hl. lia. }
    intros [= <- <-]. cbn [b_len].
    set (arr := take (b_len b) (array h b) ++ p ++ replicate (c - (b_len b + length p)) x00).
    change (array (h ++ [arr]) (MkBuffer (Some (length h)) (b_len b + length p))) with (mem (h ++ [arr]) (length h)).
    rewrite mem_last. split; [split|split].
    + intros a [= <-]. rewrite length_app. cbn [length]. lia.
    + change (b_len b + length p ≤ length (mem (h ++ [arr]) (length h)))%nat. rewrite mem_last. unfold arr.
      rewrite !length_app, length_replicate. lia.
    + rewrite length_app. lia.
    + by apply (take_written _ _ _ (b_len b)).
Qed.

Lemma writes_append ps h b h' b' :
  buffer_ok h b → writes ps (h, b) = (h', b') → buffer_ok h' b' ∧ (length h ≤ length h')%nat ∧ Bytes h' b' = Bytes h b ++ concat ps.
Proof.
  revert h b. induction ps as [|p ps IH]; intros h b Hb; cbn [writes foldl flip concat].
  { intros [= <- <-]. by rewrite app_nil_r. }
  destruct (Write p (h, b)) as [h1 b1] eqn:E1. destruct (Write_appends _ _ _ _ _ Hb E1) as (Hb1 & Hle1 & H1).
  intros E. destruct (IH h1 b1 Hb1 E) as (Hb' & Hle & H'). split; [done|]. split; [lia|].
  by rewrite H', H1, <-(assoc_L (++)).
Qed.

(** Arrays that a buffer does not write to stay. *)
Lemma writes_elsewhere ps h b h' b' a :
  buffer_ok h b → (a < length h)%nat → b_array b ≠ Some a → writes ps (h, b) = (h', b') → mem h' a = mem h a.
Proof.
  revert h b. induction ps as [|p ps IH]; intros h b Hb Ha Hne; cbn [writes foldl flip].
  { by intros [= <- <-]. }
  destruct (Write p (h, b)) as [h1 b1] eqn:E1. destruct (Write_appends _ _ _ _ _ Hb E1) as (Hb1 & Hle1 & _).
  intros E. assert (b_array b1 ≠ Some a ∧ mem h1 a = mem h a) as [Hne1 <-]; [|apply (IH h1 b1); [done|lia|done|done]].
  unfold Write in E1. destruct (_ <=? _)%nat; injection E1 as <- <-; cbn [b_array].
  - split; [done|]. destruct (b_array b) as [a'|]; [|done]. unfold mem. by rewrite list_lookup_insert_ne by congruence.
  - split; [intros [= <-]; lia|by apply mem_app].
Qed.

(** What writes make of the array they begin in. *)
Lemma writes_here ps h b h' b' a :
  buffer_ok h b → b_array b = Some a → writes ps (h, b) = (h', b') →
  let w := in_place (length (mem h a) - b_len b) ps in
  mem h' a = take (b_len b) (mem h a) ++ w ++ drop (b_len b + length w) (mem h a).
Proof.
  revert h b. induction ps as [|p ps IH]; intros h b Hb Ha; cbn [writes foldl flip in_place].
  { intros [= <- <-]. cbn [length app]. by rewrite Nat.add_0_r, take_drop. }
  destruct (Write p (h, b)) as [h1 b1] eqn:E1. destruct (Write_appends _ _ _ _ _ Hb E1) as (Hb1 & Hle1 & _).
  pose proof (bo_array _ _ Hb a Ha) as Hin. pose proof (bo_len _ _ Hb) as Hlen.
  unfold array in Hlen. rewrite Ha in Hlen. intros E. unfold Write, array in E1. rewrite Ha in E1.
  destruct (Nat.leb_spec (b_len b + length p) (length (mem h a))) as [Hfit|Hfit].
  - rewrite (proj2 (Nat.leb_le _ _)) by lia. injection E1 as <- <-.
    set (arr1 := take (b_len b) (mem h a) ++ p ++ drop (b_len b + length p) (mem h a)) in *.
    assert (mem (<[a := arr1]> h) a = arr1) as Em by (unfold mem at 1; by rewrite list_lookup_insert_eq).
    pose proof (IH _ _ Hb1 eq_refl E) as H. cbv zeta in H. cbn [b_len] in H. rewrite Em in H.
    assert (length arr1 = length (mem h a)) as El by by apply length_overwrite. rewrite El in H.
    replace (length (mem h a) - (b_len b + length p))%nat with (length (mem h a) - b_len b - length p)%nat in H by lia.
    set (w := in_place _ ps) in *. rewrite H. unfold arr1.
    assert (length (take (b_len b) (mem h a) ++ p) = b_len b + length p)%nat as Elp by (rewrite length_app, length_take; lia).
    rewrite (take_written _ _ _ (b_len b)) by (rewrite ?length_take; lia).
    rewrite (assoc_L (++) (take (b_len b) _) p), drop_app_ge by lia. rewrite Elp, drop_drop, length_app, <-!(assoc_L (++)).
    do 3 f_equal. f_equal. lia.
  - rewrite (proj2 (Nat.leb_gt _ _)) by lia. cbn [length app]. rewrite Nat.add_0_r, take_drop.
    injection E1 as <- <-. etrans; [|by apply (mem_app h)]. eapply writes_elsewhere; [exact Hb1|..|exact E]; cbn [b_array].
    + rewrite length_app. cbn [length]. lia.
    + intros [= <-]. lia.
Qed.
End Buffers.

(** Of an array only the bytes up to the end of a part matter. *)
Lemma content_prefix buf buf' p n :
  take n buf = take n buf' → (p_off p + p_len p ≤ n)%nat → content buf p = content buf' p.
Proof.
  intros H Hp. unfold content. rewrite !take_drop_commute. f_equal.
  rewrite <-(Nat.min_l (p_off p + p_len p) n Hp), <-!take_take. by rewrite H.
Qed.

Lemma overlay_prefix (w query rest : bytes) :
  take (length query) (w ++ drop (length w) (query ++ rest)) = take (length query) (w ++ drop (length w) query).
Proof.
  destruct (Nat.le_gt_cases (length w) (length query)) as [H|H].
  - rewrite (drop_app_le query rest) by done. rewrite (assoc_L (++) w).
    rewrite (take_app_le (w ++ _)); [done|]. rewrite length_app, length_drop. lia.
  - by rewrite !take_app_le by lia.
Qed.

(** What the value and the stored name of the pair read in an array that begins
    with [now]. *)
Lemma pair_reads (k v query now rest : bytes) (m := {[ ToLower k :=
    (lower query (Shared (MkPart 1 (length k))), Shared (MkPart (length k + 2) (length v))) ]} : gmap bytes (gostring * gostring)) o :
  query = "?"%byte :: k ++ "="%byte :: v →
  (∀ p, (p_off p + p_len p ≤ length query)%nat → content rest p = content now p) →
  let name := if decide (ToLower k = k) then take (length k) (drop 1 now) else ToLower k in
  GetString rest m k o ↔ o = if decide (name = ToLower k) then Some (take (length v) (drop (length k + 2) now)) else None.
Proof.
  intros Hq Hsame name. unfold m. rewrite GetString_singleton. subst name.
  assert (length query = length k + 2 + length v)%nat as Hlen by (rewrite Hq; cbn [length]; rewrite length_app; cbn [length]; lia).
  assert (read query (Shared (MkPart 1 (length k))) = k) as Hrk
    by (rewrite Hq; cbn [read]; unfold content; cbn [p_off p_len drop]; apply take_app_length).
  cbn [read]. rewrite (Hsame (MkPart (length k + 2) (length v))) by (cbn [p_off p_len]; lia).
  unfold lower. rewrite Hrk. destruct (decide (ToLower k = k)); [|done].
  cbn [read]. by rewrite (Hsame (MkPart 1 (length k))) by (cbn [p_off p_len]; lia).
Qed.

(** ** Properties *)

(** C40: the URL parameters of a UDP announce are read from memory that is no
    longer theirs.  Let the parser write the chunks of URL data to a buffer from the
    pool; then its parameter has its value.  Let the next user of the buffer, back
    in the pool, write the packets [ws]; the first of them that fit in the array,
    [w], lie over the old bytes.  Then the value is whatever bytes are where it
    was, and it is found only if its name was written with capitals (and so copied)
    or the bytes happen to hold the name.  When
    already the first write is too long for the array, the parameter is intact. *)
Theorem params_overwritten `{Allocator} (k v : bytes) (chunks ws : list bytes) (h : heap) (b : Buffer) :
  plain k → plain v → k ≠ [] → v ≠ [] → index_of (is_char "?"%byte) k = None →
  buffer_ok h b → b_len b = 0%nat →
  let query := "?"%byte :: k ++ "="%byte :: v in
  concat chunks = query →
  let '(h1, b1) := writes chunks (h, b) in
  let '(h2, _) := writes ws (h1, Reset b1) in
  ∃ a m, b_array b1 = Some a ∧ parseQuery_views (Bytes h1 b1) = Ok m ∧
    parseQuery (Bytes h1 b1) = Some (Ok {[ ToLower k := v ]}) ∧
    (∀ o, GetString (mem h1 a) m k o ↔ o = Some v) ∧
    let w := in_place (length (mem h1 a)) ws in
    let now := w ++ drop (length w) query in
    let name := if decide (ToLower k = k) then take (length k) (drop 1 now) else ToLower k in
    (∀ o, GetString (mem h2 a) m k o ↔
       o = if decide (name = ToLower k) then Some (take (length v) (drop (length k + 2) now)) else None) ∧
    (w = [] → ∀ o, GetString (mem h2 a) m k o ↔ o = Some v).
Proof.
  intros Hk Hv Hkne Hvne Hqm Hb Hb0 query Hchunks.
  destruct (writes chunks (h, b)) as [h1 b1] eqn:E1. destruct (writes ws (h1, Reset b1)) as [h2 b2] eqn:E2.
  destruct (writes_append _ _ _ _ _ Hb E1) as (Hb1 & _ & HB).
  assert (Bytes h1 b1 = query) as Hquery by (rewrite HB, Hchunks; unfold Bytes; by rewrite Hb0).
  assert (∃ a, b_array b1 = Some a) as [a Ha].
  { destruct (b_array b1) as [a|] eqn:E; [eauto|]. unfold Bytes, array in Hquery. by rewrite E, take_nil in Hquery. }
  pose proof (parseQuery_views_pair k v Hk Hv Hkne Hvne Hqm) as Hm. cbv zeta in Hm. fold query in Hm.
  rewrite Hquery. match type of Hm with _ = Ok ?x => set (m := x) in Hm; exists a, m end.
  split; [done|]. split; [exact Hm|].
  assert (length query = length k + 2 + length v)%nat as Hlen
    by (unfold query; cbn [length]; rewrite length_app; cbn [length]; lia).
  assert (take (length k) (drop 1 query) = k) as Hrk by (unfold query; cbn [drop]; apply take_app_length).
  assert (take (length v) (drop (length k + 2) query) = v) as Hrv.
  { unfold query. replace (length k + 2)%nat with (S (length k + 1)) by lia. cbn [drop]. rewrite drop_app_ge by lia.
    replace (length k + 1 - length k)%nat with 1%nat by lia. apply take_ge. cbn [drop]. lia. }
  set (rest := drop (length query) (mem h1 a)).
  assert (mem h1 a = query ++ rest) as Hmem.
  { pose proof (bo_len _ _ Hb1) as Hl. unfold Bytes, array in Hquery, Hl. rewrite Ha in Hquery, Hl.
    assert (b_len b1 = length query) as Hbl by (rewrite <-Hquery, length_take; lia).
    rewrite Hbl in Hquery. unfold rest. rewrite <-Hquery at 1. symmetry. apply take_drop. }
  assert (∀ o, GetString (mem h1 a) m k o ↔ o = Some v) as H1.
  { intros o. rewrite Hmem. unfold m. rewrite (pair_reads k v query query (query ++ rest) o eq_refl).
    - rewrite Hrk, Hrv. destruct (decide (ToLower k = k)) as [E|E]; by rewrite decide_True.
    - intros p Hp. apply (content_prefix _ _ _ (length query)); [|done]. by rewrite take_app_length, take_ge. }
  split; [|split; [exact H1|]].
  - rewrite parseQuery_views_read, Hm. cbn [fmap_ok]. unfold params_of, m. rewrite map_fmap_singleton. cbn [snd read].
    unfold content. cbn [p_off p_len]. by rewrite Hrv.
  - assert (buffer_ok h1 (Reset b1)) as Hreset by (destruct Hb1; split; cbn; [done|lia]).
    pose proof (writes_here ws h1 (Reset b1) h2 b2 a Hreset Ha E2) as H2. cbv zeta in H2. cbn [Reset b_len] in H2.
    rewrite Nat.sub_0_r in H2. cbv zeta. set (w := in_place _ ws) in *. rewrite take_0 in H2. cbn [app] in H2.
    rewrite Nat.add_0_l in H2. split.
    + intros o. apply (pair_reads k v query (w ++ drop (length w) query) (mem h2 a) o eq_refl).
      intros p Hp. apply (content_prefix _ _ _ (length query)); [|done]. rewrite H2, Hmem. apply overlay_prefix.
    + intros Hw o. rewrite H2, Hw. exact (H1 o).
Qed.
End Alias.

#[local] Instance plain_unicode : Unicode := {| unicode_to_lower s := s |}.

(** An allocator that rounds up to a multiple of 16. *)
#[local, refine] Instance sixteens : Allocator := {| size_class n := (16 * ((n + 15) / 16))%nat |}.
Proof. intros n. pose proof (Nat.div_mod_eq (n + 15) 16). pose proof (Nat.mod_upper_bound (n + 15) 16). lia. Defined.

(** A fresh buffer with the URL data of one option, given back and then used. *)
Definition used (query : bytes) (ws : list bytes) : heap * Buffer :=
  let '(h1, b1) := writes [query] ([], MkBuffer None 0) in writes ws (h1, Reset b1).

Lemma fresh_ok : buffer_ok [] (MkBuffer None 0).
Proof. split; [done|by cbn]. Qed.

(** The token of an announce is lost with the answer of 20 bytes to another one,
    or, if its name has a capital, has become a piece of that answer; an answer of
    100 bytes does not fit in the 64 of the first array. *)
Lemma params_overwritten_witness :
  (∃ m, parseQuery_views (bs "?jwt=secret") = Ok m ∧
     GetString (mem (used (bs "?jwt=secret") [replicate 20 x07]).1 0) m (bs "jwt") None ∧
     GetString (mem (used (bs "?jwt=secret") [replicate 100 x07]).1 0) m (bs "jwt") (Some (bs "secret"))) ∧
  (∃ m, parseQuery_views (bs "?Jwt=secret") = Ok m ∧
     GetString (mem (used (bs "?Jwt=secret") [replicate 20 x07]).1 0) m (bs "Jwt") (Some (replicate 6 x07))).
Proof.
  split.
  - destruct (params_overwritten (bs "jwt") (bs "secret") [bs "?jwt=secret"] [replicate 20 x07] [] (MkBuffer None 0))
      as (a & m & [= <-] & H1 & _ & _ & H2 & _);
      [by repeat split|by repeat split|discriminate|discriminate|reflexivity|exact fresh_ok|reflexivity|reflexivity|].
    destruct (params_overwritten (bs "jwt") (bs "secret") [bs "?jwt=secret"] [replicate 100 x07] [] (MkBuffer None 0))
      as (a & m' & [= <-] & H1' & _ & _ & _ & H3);
      [by repeat split|by repeat split|discriminate|discriminate|reflexivity|exact fresh_ok|reflexivity|reflexivity|].
    exists m. split; [exact H1|]. assert (m' = m) as -> by congruence.
    split; [apply H2; vm_compute; reflexivity|apply H3; [vm_compute; reflexivity|reflexivity]].
  - destruct (params_overwritten (bs "Jwt") (bs "secret") [bs "?Jwt=secret"] [replicate 20 x07] [] (MkBuffer None 0))
      as (a & m & [= <-] & H1 & _ & _ & H2 & _);
      [by repeat split|by repeat split|discriminate|discriminate|reflexivity|exact fresh_ok|reflexivity|reflexivity|].
    exists m. split; [exact H1|]. apply H2; vm_compute; reflexivity.
Defined.
