(* ===== verification/Udp.v ===== *)
(** * Package [frontend/udp]: the frontend

    Connection IDs (src/frontend/udp/connection_id.go), the packets it writes
    (src/frontend/udp/writer.go), its configuration and the handling of one
    request (src/frontend/udp/frontend.go).  A datagram is the bytes of it; a
    goroutine started by the handler is returned as a task. *)

From S2P Require Import Prelude GoStd Netip Pkg Bittorrent Packet Storage Memory Frontend Hooks Tracker UdpParser.

Local Open Scope Z_scope.

(** ** Connection IDs *)

(** [ttl]: nanoseconds. *)
Definition ttl : Z := 2 * Minute.
Definition connIDLen : nat := 8.
Definition buffLen : nat := 9.
Definition hmacLen : nat := 5.

(** The fields that outlive a call: the buffers and the hash are reset. *)
Record ConnectionIDGenerator := MkGenerator {
  g_maxClockSkew : Z;     (* int64 *)
  g_s : Z;                (* uint64 *)
}.

(** [mac] is the keyed HMAC over xxhash, from what was written to its sum. *)
Section ConnectionID.
Context (mac : bytes → bytes).

Definition NewConnectionIDGenerator (maxClockSkew : Z) : ConnectionIDGenerator :=
  MkGenerator maxClockSkew 0.

(** [entropy] is the number read from the system's generator, or the time. *)
Definition reset (g : ConnectionIDGenerator) (init : bool) (entropy : Z) : ConnectionIDGenerator :=
  if init then MkGenerator (g_maxClockSkew g) (u64 entropy) else g.

(** The input of the HMAC: salt, timestamp, address. *)
Definition mac_input (salt : byte) (ts : Z) (ip : Addr) : bytes := (salt :: be_put 8 ts) ++ AsSlice ip.

Definition Generate (g : ConnectionIDGenerator) (entropy : Z) (ip : Addr) (now : Z)
    : option (bytes * ConnectionIDGenerator) :=
  let g := reset g true entropy in
  let '(r, s) := XorShift64S (g_s g) in
  let g := MkGenerator (g_maxClockSkew g) s in
  let buff := byte_of_Z r :: be_put 8 now in
  let scratch := mac (buff ++ AsSlice ip) in
  c0 ← buff !! 0%nat; c1 ← buff !! 7%nat; c2 ← buff !! 8%nat;
  token ← slice scratch 0 hmacLen;
  Some ([c0; c1; c2] ++ token, g).

(** The timestamp with its low 16 bits replaced by those of the ID. *)
Definition restored_ts (nowTS : Z) (c1 c2 : byte) : Z :=
  Z.lor (Z.lor (Z.land nowTS (Z.shiftl (Z.shiftr (-1) 16) 16)) (Z.shiftl (byte_to_Z c1) 8)) (byte_to_Z c2).

Definition Validate (g : ConnectionIDGenerator) (connectionID : bytes) (ip : Addr) (nowTS : Z)
    : option bool :=
  let g := reset g false 0 in
  c0 ← connectionID !! 0%nat; c1 ← connectionID !! 1%nat; c2 ← connectionID !! 2%nat;
  let ts := restored_ts nowTS c1 c2 in
  let scratch := mac ((c0 :: be_put 8 ts) ++ AsSlice ip) in
  token ← slice scratch 0 hmacLen;
  expected ← slice connectionID (connIDLen - hmacLen) connIDLen;
  let res := bool_decide (token = expected) in
  let res := (iwrap 64 (ts - g_maxClockSkew g) <? nowTS) && res in
  let res := (nowTS <? iwrap 64 (iwrap 64 (ts + ttl) + g_maxClockSkew g)) && res in
  Some res.

End ConnectionID.

(** ** Writing packets *)

Definition writeHeader (txID : bytes) (action : Z) : bytes := be_put 4 action ++ txID.

Definition writeErrorResponse (txID : bytes) (err : GoError) : bytes :=
  writeHeader txID errorActionID ++ error_message err ++ [x00].

Definition writeAnnounceResponse (txID : bytes) (resp : AnnounceResponse) (v6Action v6Peers : bool) : bytes :=
  writeHeader txID (if v6Action then announceV6ActionID else announceActionID) ++
  be_put 4 (wrap 32 (Z.quot (resp_Interval resp) Second)) ++
  be_put 4 (resp_Incomplete resp) ++ be_put 4 (resp_Complete resp) ++
  (if v6Peers then resp_IPv6Peers resp else resp_IPv4Peers resp) ≫= write_peer.

Definition write_scrape (s : Scrape) : bytes :=
  be_put 4 (sc_Complete s) ++ be_put 4 (sc_Snatches s) ++ be_put 4 (sc_Incomplete s).

Definition writeScrapeResponse (txID : bytes) (resp : ScrapeResponse) : bytes :=
  writeHeader txID scrapeActionID ++ resp ≫= write_scrape.

Definition writeConnectionID (txID connID : bytes) : bytes :=
  writeHeader txID connectActionID ++ connID.

(** ** The configuration *)

Record Config := MkConfig {
  cfg_ListenOptions : ListenOptions;
  cfg_PrivateKey : bytes;
  cfg_MaxClockSkew : Z;         (* time.Duration *)
  cfg_ParseOptions : ParseOptions;
}.

Definition defaultKeyLen : nat := 32.
Definition maxAllowedClockSkew : Z := 30 * Second.
Definition defaultMaxClockSkew : Z := 10 * Second.
Definition allowedGeneratedPrivateKeyRunes : bytes :=
  bs "abcdefghijklmnopqrstuvwxyzABCDEFGHIJKLMNOPQRSTUVWXYZ1234567890".

Definition pick_rune (b : byte) : byte :=
  default x00 (allowedGeneratedPrivateKeyRunes !!
    Z.to_nat (byte_to_Z b mod Z.of_nat (length allowedGeneratedPrivateKeyRunes))).

(** The branch-free absolute value of an [int64]. *)
Definition abs64 (z : Z) : Z :=
  let sb := Z.shiftr z 63 in iwrap 64 (Z.lxor z sb + Z.land sb 1).

(** [random]: the bytes [rand.Read] gives. *)
Definition Config_Validate (random : bytes) (cfg : Config) : Config :=
  let lo := ListenOptions_Validate (cfg_ListenOptions cfg) in
  let workers := if lo_Workers (cfg_ListenOptions cfg) =? 0 then 1 else lo_Workers lo in
  let reuse := if (workers >? 1) && negb (lo_ReusePort lo) then true else lo_ReusePort lo in
  let lo := MkListenOptions (lo_Addr lo) reuse workers (lo_EnableRequestTiming lo) in
  let key := if decide (cfg_PrivateKey cfg = []) then map pick_rune (take defaultKeyLen random)
             else cfg_PrivateKey cfg in
  let skew := abs64 (cfg_MaxClockSkew cfg) in
  let skew := if (skew =? 0) || (skew >? maxAllowedClockSkew) then defaultMaxClockSkew else skew in
  MkConfig lo key skew (ParseOptions_Validate (cfg_ParseOptions cfg)).

(** ** One request *)

(** What [handleRequest] gives back: the name of the action, the error, the
    datagram written and the goroutine started. *)
Record outcome := MkOutcome {
  o_action : bytes;
  o_err : error;
  o_written : option bytes;
  o_task : option task;
}.

(** The parts of a [udpFE] a request uses; [mac] is the keyed hash of the
    generators in its pool. *)
Record udpFE (S : Type) := MkUdpFE {
  fe_mac : bytes → bytes;
  fe_maxClockSkew : Z;
  fe_logic : Logic S;
  fe_ParseOptions : ParseOptions;
}.
Arguments MkUdpFE {S}.
Arguments fe_mac {S}.
Arguments fe_maxClockSkew {S}.
Arguments fe_logic {S}.
Arguments fe_ParseOptions {S}.

Section Handler.
Context {S : Type} `{Unicode} `{Shuffle}.

Definition fail_with (name : bytes) (txID : bytes) (err : GoError) : outcome :=
  MkOutcome name (Some err) (Some (writeErrorResponse txID err)) None.

(** An error of the logic: nothing is written when the context was cancelled. *)
Definition logic_failed (name : bytes) (txID : bytes) (err : GoError) : outcome :=
  MkOutcome name (Some err)
    (if bool_decide (err = ContextCanceled) then None else Some (writeErrorResponse txID err)) None.

Definition handle_announce (f : udpFE S) (ctx : Context) (r : Request) (txID : bytes) (v6Action : bool)
    : M S outcome :=
  let name := bs "announce" in
  parsed ← need (parseAnnounce r v6Action (fe_ParseOptions f));
  match parsed with
  | Err e => mret (fail_with name txID e)
  | Ok req =>
      let ctx := InjectRouteParamsToContext ctx (Some []) in
      '(ctx, resp, err, req) ← Logic_HandleAnnounce (fe_logic f) (Some ctx) req;
      match err with
      | Some e => mret (logic_failed name txID e)
      | None =>
          ctx ← need ctx;
          match ctx_Err ctx with
          | Some e => mret (MkOutcome name (Some e) None None)
          | None =>
              resp ← need resp;
              mret (MkOutcome name None
                      (Some (writeAnnounceResponse txID resp v6Action (Is6 (r_IP r))))
                      (Some (AfterAnnounceTask (RemapRouteParamsToBgContext ctx) req resp)))
          end
      end
  end.

Definition handle_scrape (f : udpFE S) (ctx : Context) (r : Request) (txID : bytes) : M S outcome :=
  let name := bs "scrape" in
  parsed ← need (parseScrape r (fe_ParseOptions f));
  match parsed with
  | Err e => mret (fail_with name txID e)
  | Ok req =>
      let ctx := InjectRouteParamsToContext ctx (Some []) in
      '(ctx, resp, err, req) ← Logic_HandleScrape (fe_logic f) (Some ctx) req;
      match err with
      | Some e => mret (logic_failed name txID e)
      | None =>
          ctx ← need ctx;
          match ctx_Err ctx with
          | Some e => mret (MkOutcome name (Some e) None None)
          | None =>
              resp ← need resp;
              mret (MkOutcome name None (Some (writeScrapeResponse txID resp))
                      (Some (AfterScrapeTask (RemapRouteParamsToBgContext ctx) req resp)))
          end
      end
  end.

Definition handle_connect (f : udpFE S) (r : Request) (connID txID : bytes) (entropy now : Z) : M S outcome :=
  let name := bs "connect" in
  if decide (connID ≠ initialConnectionID) then mret (MkOutcome name (Some errMalformedPacket) None None)
  else
    '(id, _) ← need (Generate (fe_mac f) (NewConnectionIDGenerator (fe_maxClockSkew f)) entropy (r_IP r) now);
    mret (MkOutcome name None (Some (writeConnectionID txID id)) None).

(** [now] is [timecache.Now().Unix()]. *)
Definition handleRequest (f : udpFE S) (ctx : Context) (r : Request) (entropy now : Z) : M S outcome :=
  let packet := r_Packet r in
  if (length packet <? 16)%nat then mret (MkOutcome [] (Some errMalformedPacket) None None)
  else
    connID ← need (slice packet 0 8);
    actionID ← need (be_at packet 8 12);
    txID ← need (slice packet 12 16);
    valid ← (if actionID =? connectActionID then mret true
             else need (Validate (fe_mac f) (NewConnectionIDGenerator (fe_maxClockSkew f)) connID (r_IP r) now));
    if negb valid then mret (fail_with [] txID errBadConnectionID)
    else if actionID =? connectActionID then handle_connect f r connID txID entropy now
    else if (actionID =? announceActionID) || (actionID =? announceV6ActionID) then
      handle_announce f ctx r txID (actionID =? announceV6ActionID)
    else if actionID =? scrapeActionID then handle_scrape f ctx r txID
    else mret (fail_with [] txID errUnknownAction).

End Handler.

(** ** Facts: connection IDs *)

Definition epoch : Z := 65536.

(** The low 16 bits as the two bytes of an ID carry them. *)
Lemma be_put_8_split t : ∃ hi, length hi = 6%nat ∧
  be_put 8 t = hi ++ [byte_of_Z (t / 256); byte_of_Z t].
Proof.
  exists (be_put 6 (t / 256 / 256)). split; [apply length_be_put|].
  cbn [be_put]. by rewrite <-!app_assoc.
Qed.

(** Bits above the low [k] and the low [k] bits. *)
Lemma lor_low k a b : 0 <= k → 0 <= b < 2 ^ k → Z.lor (a * 2 ^ k) b = a * 2 ^ k + b.
Proof.
  intros Hk Hb. symmetry. apply Z.add_nocarry_lor. apply Z.bits_inj'. intros n Hn.
  rewrite Z.land_spec, Z.bits_0. destruct (Z.lt_ge_cases n k).
  - by rewrite Z.mul_pow2_bits_low.
  - rewrite andb_false_iff. right. destruct (Z.eq_dec b 0) as [->|]; [apply Z.bits_0|].
    apply Z.bits_above_log2; [lia|]. apply Z.log2_lt_pow2; [lia|].
    pose proof (Z.pow_le_mono_r 2 k n ltac:(lia) ltac:(done)). lia.
Qed.

(** The timestamp [Validate] restores: the epoch of now, the rest of the ID. *)
Lemma restored_ts_eq now t :
  restored_ts now (byte_of_Z (t / 256)) (byte_of_Z t) = now / epoch * epoch + t mod epoch.
Proof.
  unfold restored_ts, epoch. rewrite !byte_to_of_Z.
  change (Z.shiftl (Z.shiftr (-1) 16) 16) with (Z.lnot (Z.ones 16)).
  rewrite <-Z.ldiff_land, Z.ldiff_ones_r, Z.shiftr_div_pow2, !Z.shiftl_mul_pow2 by lia.
  change (2 ^ 16) with 65536. set (q := now / 65536).
  pose proof (Z.mod_pos_bound t 256 eq_refl). pose proof (Z.mod_pos_bound (t / 256) 256 eq_refl).
  assert (t mod 65536 = t mod 256 + 256 * ((t / 256) mod 256)) as ->
    by (change 65536 with (256 * 256); apply Z.rem_mul_r; lia).
  change 65536 with (2 ^ 16). rewrite (lor_low 16) by (change (2 ^ 8) with 256; lia).
  replace (q * 2 ^ 16 + (t / 256) mod 256 * 2 ^ 8) with ((q * 2 ^ 8 + (t / 256) mod 256) * 2 ^ 8)
    by (change (2 ^ 16) with (256 * 256); change (2 ^ 8) with 256; lia).
  rewrite (lor_low 8) by lia. change (2 ^ 16) with 65536. change (2 ^ 8) with 256. lia.
Qed.

(** Times a clock shows: non-negative seconds far from the end of an [int64]. *)
Definition clock_time (t : Z) : Prop := 0 <= t < 2 ^ 62.

Section ConnectionIDFacts.
Context (mac : bytes → bytes) (Hmac : ∀ m, (hmacLen ≤ length (mac m))%nat).

Definition token (salt : byte) (ts : Z) (ip : Addr) : bytes := take hmacLen (mac (mac_input salt ts ip)).

Lemma length_token salt ts ip : length (token salt ts ip) = hmacLen.
Proof. unfold token. rewrite length_take. specialize (Hmac (mac_input salt ts ip)). lia. Qed.

(** The ID: salt, low bytes of the time, token. *)
Lemma Generate_eq g entropy ip t :
  ∃ salt g', Generate mac g entropy ip t =
    Some ([salt; byte_of_Z (t / 256); byte_of_Z t] ++ token salt t ip, g').
Proof.
  unfold Generate. cbn [reset g_s g_maxClockSkew].
  destruct (XorShift64S _) as [x s']. exists (byte_of_Z x). eexists.
  destruct (be_put_8_split t) as (hi & Hhi & E).
  rewrite E. cbn [lookup list_lookup]. do 6 (destruct hi as [|? hi]; [done|]). destruct hi; [|done].
  cbn [app lookup list_lookup mbind option_bind]. rewrite slice_Some; [|lia|apply Hmac].
  cbn [mbind option_bind]. rewrite drop_0, Nat.sub_0_r. unfold token, mac_input. by rewrite E.
Qed.

Lemma Validate_eq g salt t tok ip now :
  length tok = hmacLen →
  65536 <= g_maxClockSkew g <= maxAllowedClockSkew → clock_time now →
  Validate mac g ([salt; byte_of_Z (t / 256); byte_of_Z t] ++ tok) ip now =
    Some (bool_decide (token salt (now / epoch * epoch + t mod epoch) ip = tok)).
Proof.
  intros Htok Hskew Hnow. unfold Validate. cbn [app lookup list_lookup mbind option_bind reset].
  rewrite restored_ts_eq. set (ts := now / epoch * epoch + t mod epoch).
  rewrite (slice_Some (mac _) 0 hmacLen); [|lia|apply Hmac]. cbn [mbind option_bind].
  rewrite drop_0, Nat.sub_0_r. fold (mac_input salt ts ip). fold (token salt ts ip).
  change (salt :: _ :: _ :: tok) with ([salt; byte_of_Z (t / 256); byte_of_Z t] ++ tok).
  rewrite slice_suffix by (rewrite ?Htok; reflexivity). cbn [mbind option_bind].
  assert (now - epoch < ts < now + epoch /\ 0 <= ts < 2 ^ 62 + epoch) as Hts.
  { unfold ts, epoch, clock_time in *. pose proof (Z.mod_pos_bound t 65536 eq_refl).
    pose proof (Z.mod_pos_bound now 65536 eq_refl). pose proof (Z.div_mod now 65536).
    pose proof (Z.div_pos now 65536). lia. }
  unfold clock_time, epoch, ttl, maxAllowedClockSkew, Minute, Second in *.
  rewrite !iwrap_small by (unfold sint; rewrite ?iwrap_small by (unfold sint; lia); lia).
  rewrite !(proj2 (Z.ltb_lt _ _)) by lia. done.
Qed.

End ConnectionIDFacts.

(** ** Facts: reading what is written *)

(** A client's reading of the packets of BEP 15; an address has [k] bytes. *)
Record announce_packet := MkAnnouncePacket {
  ap_action : Z; ap_txID : bytes; ap_interval : Z; ap_leechers : Z; ap_seeders : Z;
  ap_peers : list (bytes * Z);
}.

Definition decode_announce (k : nat) (p : bytes) : option announce_packet :=
  action ← be_at p 0 4; txID ← slice p 4 8; interval ← be_at p 8 12;
  leechers ← be_at p 12 16; seeders ← be_at p 16 20;
  rest ← slice p 20 (length p);
  peers ← decode_peers (length rest) k rest;
  Some (MkAnnouncePacket action txID interval leechers seeders peers).

Fixpoint decode_scrapes (fuel : nat) (l : bytes) : option (list (Z * Z * Z)) :=
  match fuel, l with
  | _, [] => Some []
  | O, _ => None
  | S fuel, _ =>
      c ← be_at l 0 4; d ← be_at l 4 8; i ← be_at l 8 12;
      rest ← decode_scrapes fuel (drop 12 l);
      Some ((c, d, i) :: rest)
  end.

Definition decode_scrape (p : bytes) : option (Z * bytes * list (Z * Z * Z)) :=
  action ← be_at p 0 4; txID ← slice p 4 8; rest ← slice p 8 (length p);
  scrapes ← decode_scrapes (length rest) rest;
  Some (action, txID, scrapes).

Lemma decode_write_scrapes resp fuel :
  Forall (λ s, uint 32 (sc_Complete s) ∧ uint 32 (sc_Snatches s) ∧ uint 32 (sc_Incomplete s)) resp →
  (length (resp ≫= write_scrape) ≤ fuel)%nat →
  decode_scrapes fuel (resp ≫= write_scrape) =
    Some ((λ s, (sc_Complete s, sc_Snatches s, sc_Incomplete s)) <$> resp).
Proof.
  intros Hr. revert fuel. induction Hr as [|s resp (Hc & Hd & Hi) Hr IH]; intros fuel Hf.
  { by destruct fuel. }
  rewrite fmap_cons. change ((s :: resp) ≫= write_scrape) with (write_scrape s ++ resp ≫= write_scrape) in *.
  unfold write_scrape at 1 in Hf. unfold write_scrape at 1.
  rewrite !length_app, !length_be_put in Hf.
  rewrite <-!app_assoc. destruct fuel as [|fuel]; [lia|].
  assert (∀ l, ∃ c t, be_put 4 (sc_Complete s) ++ l = c :: t) as Hcons.
  { intros l. pose proof (length_be_put 4 (sc_Complete s)).
    destruct (be_put 4 (sc_Complete s)); [done|]. by eexists _, _. }
  cbn [decode_scrapes]. match goal with |- context [be_put 4 (sc_Complete s) ++ ?l] =>
    destruct (Hcons l) as (c & t & E) end.
  rewrite E. rewrite <-E. clear E Hcons.
  rewrite (be_at_put 4 _ _ 0 4 32) by done. cbn [mbind option_bind].
  do 2 (skip_fields; rewrite (be_at_put 4 _ _ 0 4 32) by (done || lia); cbn [mbind option_bind]).
  assert (drop 12 (be_put 4 (sc_Complete s) ++ be_put 4 (sc_Snatches s) ++ be_put 4 (sc_Incomplete s)
    ++ (resp ≫= write_scrape)) = resp ≫= write_scrape) as ->.
  { rewrite !app_assoc. apply drop_app_length'. by rewrite !length_app, !length_be_put. }
  rewrite IH by lia. done.
Qed.

(** The header of a packet, and what is behind it. *)
Lemma header_fields txID action body :
  length txID = 4%nat → uint 32 action →
  let p := writeHeader txID action ++ body in
  be_at p 0 4 = Some action ∧ slice p 4 8 = Some txID ∧ slice p 8 (length p) = Some body.
Proof.
  intros Ht Ha p. subst p. unfold writeHeader. rewrite <-app_assoc. split_and!.
  - by rewrite (be_at_put 4 _ _ _ _ 32).
  - skip_fields. by rewrite slice_0 by lia.
  - rewrite app_assoc. apply slice_suffix; rewrite !length_app, length_be_put; lia.
Qed.

(** ** Properties *)

(** The packet a client reads from an announce response. *)
Lemma decode_announce_written txID resp (v6Action v6Peers : bool) :
  let peers := if v6Peers then resp_IPv6Peers resp else resp_IPv4Peers resp in
  length txID = 4%nat → uint 32 (resp_Complete resp) → uint 32 (resp_Incomplete resp) →
  Forall (peer_wf v6Peers) peers →
  decode_announce (addr_len v6Peers) (writeAnnounceResponse txID resp v6Action v6Peers) =
    Some (MkAnnouncePacket (if v6Action then announceV6ActionID else announceActionID) txID
            (wrap 32 (Z.quot (resp_Interval resp) Second)) (resp_Incomplete resp) (resp_Complete resp)
            ((λ p, (AsSlice (Peer_Addr p), peer_Port p)) <$> peers)).
Proof.
  intros peers Ht Hc Hi Hp. subst peers. unfold writeAnnounceResponse.
  set (act := if v6Action then _ else _). assert (uint 32 act) by by destruct v6Action.
  set (body := _ ++ _ ++ _ ++ (_ ≫= write_peer)).
  destruct (header_fields txID act body Ht) as (H1 & H2 & _); [done|].
  unfold decode_announce. rewrite H1, H2. cbn [mbind option_bind]. subst body.
  set (iv := wrap 32 _). assert (uint 32 iv) by (apply wrap_uint; lia).
  unfold writeHeader. rewrite <-app_assoc. clear H1 H2.
  do 3 (skip_fields; rewrite (be_at_put 4 _ _ 0 4 32) by (done || lia); cbn [mbind option_bind]).
  rewrite !app_assoc, slice_suffix by (rewrite !length_app, !length_be_put; lia).
  cbn [mbind option_bind]. by rewrite decode_write_peers.
Qed.

(** C19: a client reads back what the tracker answers to an announce: the packet
    of every response whose peers are of the family asked for decodes to its
    action, the transaction ID, the interval in seconds, the counts of leechers
    and seeders and exactly the peers of the response, in order. *)
Theorem writeAnnounceResponse_roundtrip (txID : bytes) (resp : AnnounceResponse) (v6Action v6Peers : bool) :
  let peers := if v6Peers then resp_IPv6Peers resp else resp_IPv4Peers resp in
  length txID = 4%nat → uint 32 (resp_Complete resp) → uint 32 (resp_Incomplete resp) →
  0 <= resp_Interval resp < 2 ^ 32 * Second →
  Forall (peer_wf v6Peers) peers →
  decode_announce (addr_len v6Peers) (writeAnnounceResponse txID resp v6Action v6Peers) =
    Some (MkAnnouncePacket (if v6Action then announceV6ActionID else announceActionID) txID
            (resp_Interval resp / Second) (resp_Incomplete resp) (resp_Complete resp)
            ((λ p, (AsSlice (Peer_Addr p), peer_Port p)) <$> peers)).
Proof.
  intros peers Ht Hc Hi Hiv Hp. rewrite decode_announce_written by done.
  rewrite Z.quot_div_nonneg, wrap_small by
    (done || unfold uint, Second in *; try split; try apply Z.div_pos; try apply Z.div_lt_upper_bound; lia).
  done.
Qed.

Lemma writeAnnounceResponse_roundtrip_witness :
  let p := MkPeer (replicate 20 x01) (Addr4 0x01020304) 6881 in
  decode_announce 4 (writeAnnounceResponse (bs "abcd")
      (MkAnnounceResponse 3 5 (1800 * Second) 0 [p] []) false false) =
    Some (MkAnnouncePacket 1 (bs "abcd") 1800 5 3 [([x01; x02; x03; x04]%byte, 6881)]).
Proof.
  cbv zeta.
  apply (writeAnnounceResponse_roundtrip (bs "abcd")
    (MkAnnounceResponse 3 5 (1800 * Second) 0 [MkPeer (replicate 20 x01) (Addr4 0x01020304) 6881] [])
    false false).
  - reflexivity.
  - split; [discriminate|reflexivity].
  - split; [discriminate|reflexivity].
  - split; [discriminate|reflexivity].
  - repeat constructor; discriminate.
Defined.

(** And to a scrape: the counts of every swarm, in the order of the response. *)
Theorem writeScrapeResponse_roundtrip (txID : bytes) (resp : ScrapeResponse) :
  length txID = 4%nat →
  Forall (λ s, uint 32 (sc_Complete s) ∧ uint 32 (sc_Snatches s) ∧ uint 32 (sc_Incomplete s)) resp →
  decode_scrape (writeScrapeResponse txID resp) =
    Some (scrapeActionID, txID, (λ s, (sc_Complete s, sc_Snatches s, sc_Incomplete s)) <$> resp).
Proof.
  intros Ht Hr. unfold writeScrapeResponse, decode_scrape.
  destruct (header_fields txID scrapeActionID (resp ≫= write_scrape) Ht) as (-> & -> & ->); [done|].
  cbn [mbind option_bind]. by rewrite decode_write_scrapes.
Qed.

Lemma writeScrapeResponse_roundtrip_witness :
  decode_scrape (writeScrapeResponse (bs "abcd") [MkScrape (replicate 20 x01) 1 2 3]) =
    Some (2, bs "abcd", [(2, 1, 3)]).
Proof.
  rewrite writeScrapeResponse_roundtrip; [reflexivity|reflexivity|].
  repeat constructor; discriminate.
Defined.

(** A connection ID made for an address at time [t0] is accepted from that
    address at any time of the same 65536-second period, before or after, and
    in another period only when the 40 bits of the hash of another time
    collide.  The two minutes of [ttl] play no part: they are nanoseconds, and
    the times they are added to are seconds. *)
Theorem connection_id_lives_one_period (mac : bytes → bytes) (g g' : ConnectionIDGenerator)
    (entropy : Z) (ip : Addr) (t0 t1 : Z) (id : bytes) :
  (∀ m, (hmacLen ≤ length (mac m))%nat) →
  65536 <= g_maxClockSkew g <= maxAllowedClockSkew → clock_time t0 → clock_time t1 →
  Generate mac g entropy ip t0 = Some (id, g') →
  length id = connIDLen ∧
  (t1 / epoch = t0 / epoch → Validate mac g id ip t1 = Some true) ∧
  (t1 / epoch ≠ t0 / epoch →
   Validate mac g id ip t1 = Some true ↔
   ∃ salt, head id = Some salt ∧
     token mac salt (t1 / epoch * epoch + t0 mod epoch) ip = token mac salt t0 ip).
Proof.
  intros Hmac Hskew Ht0 Ht1 HG.
  destruct (Generate_eq mac Hmac g entropy ip t0) as (salt & g1 & E).
  assert (id = [salt; byte_of_Z (t0 / 256); byte_of_Z t0] ++ token mac salt t0 ip) as -> by congruence.
  clear E HG. pose proof (length_token mac Hmac salt t0 ip) as Hlen.
  rewrite (Validate_eq mac Hmac g salt t0 _ ip t1 Hlen Hskew Ht1).
  split; [cbn [app length]; by rewrite Hlen|]. split.
  - intros ->. assert (t0 / epoch * epoch + t0 mod epoch = t0) as ->
      by (pose proof (Z.div_mod t0 epoch ltac:(done)); lia).
    by rewrite bool_decide_true.
  - intros _. split.
    + intros [= Hb%bool_decide_eq_true]. by exists salt.
    + intros (? & [= <-] & Hb). by rewrite bool_decide_true.
Qed.

(** A stand-in for the keyed hash in the witnesses. *)
Definition mac1 (m : bytes) : bytes := be_put 8 (be_get m).

Lemma mac1_long m : (hmacLen ≤ length (mac1 m))%nat.
Proof. unfold mac1. rewrite length_be_put. unfold hmacLen. lia. Qed.

Lemma connection_id_lives_one_period_witness :
  let g := MkGenerator defaultMaxClockSkew 0 in
  let id := [x1d; x00; x00; x00; x01; x00; x00; x00]%byte in
  fst <$> Generate mac1 g 1 (Addr4 7) 65536 = Some id ∧
  Validate mac1 g id (Addr4 7) 131071 = Some true ∧
  Validate mac1 g id (Addr4 7) 65535 ≠ Some true.
Proof.
  cbv zeta. split; [reflexivity|].
  destruct (Generate mac1 (MkGenerator defaultMaxClockSkew 0) 1 (Addr4 7) 65536) as [[id g']|] eqn:E;
    [|discriminate].
  assert (id = [x1d; x00; x00; x00; x01; x00; x00; x00]%byte) as -> by (vm_compute in E; congruence).
  assert (H : ∀ t1, clock_time t1 → _) by exact (λ t1 Ht1,
    connection_id_lives_one_period mac1 (MkGenerator defaultMaxClockSkew 0) g' 1 (Addr4 7) 65536 t1 _
      mac1_long ltac:(vm_compute; split; discriminate) ltac:(vm_compute; split; (reflexivity || discriminate)) Ht1 E).
  assert (clock_time 131071 ∧ clock_time 65535) as [H1 H2] by (vm_compute; repeat split; discriminate).
  split; [exact (proj1 (proj2 (H _ H1)) eq_refl)|]. intros Hv.
  apply (proj2 (proj2 (H _ H2)) ltac:(discriminate)) in Hv as (salt & [= <-] & Hs).
  vm_compute in Hs. discriminate.
Defined.

Section HandlerFacts.
Context {S : Type} `{Unicode} `{Shuffle}.

(** A step that runs gives its value to the rest. *)
Lemma need_bind_Some {A B} (o : option A) (k : A → M S B) s x :
  (need o ≫= k) s = Some x → ∃ a, o = Some a ∧ k a s = Some x.
Proof. destruct o; [eauto|done]. Qed.

Lemma M_bind_inv {A B} (m : M S A) (k : A → M S B) s x :
  (m ≫= k) s = Some x → ∃ s1 a, m s = Some (s1, a) ∧ k a s1 = Some x.
Proof. unfold mbind, M_bind. destruct (m s) as [[s1 a]|]; [eauto|done]. Qed.

Lemma handle_connect_inv (f : udpFE S) r connID txID entropy now s s' o :
  handle_connect (S := S) f r connID txID entropy now s = Some (s', o) →
  s' = s ∧ o_task o = None ∧
  (o_written o = None ∧ connID ≠ initialConnectionID ∨
   connID = initialConnectionID ∧ o_err o = None ∧
   ∃ id g, Generate (fe_mac f) (NewConnectionIDGenerator (fe_maxClockSkew f)) entropy (r_IP r) now = Some (id, g) ∧
     o_written o = Some (writeConnectionID txID id)).
Proof.
  unfold handle_connect. case_decide as Hc; [intros [= <- <-]; by eauto|].
  intros ([id g] & HG & [= <- <-])%need_bind_Some. split_and!; [done..|].
  right. eauto 10.
Qed.

(** C14: the connection ID guards the tracker: whatever bytes arrive, a request
    changes the storage or starts work after it only when it announces or
    scrapes with an ID that [Validate] accepts for the address it came from;
    in all other cases the state is as it was. *)
Theorem connection_id_guards (f : udpFE S) (ctx : Context) (r : Request) (entropy now : Z) (s s' : S) (o : outcome) :
  handleRequest f ctx r entropy now s = Some (s', o) →
  s' ≠ s ∨ o_task o ≠ None →
  ∃ connID action,
    slice (r_Packet r) 0 8 = Some connID ∧ be_at (r_Packet r) 8 12 = Some action ∧
    (action = announceActionID ∨ action = announceV6ActionID ∨ action = scrapeActionID) ∧
    Validate (fe_mac f) (NewConnectionIDGenerator (fe_maxClockSkew f)) connID (r_IP r) now = Some true.
Proof.
  unfold handleRequest. intros Hrun Hd.
  destruct (_ <? 16)%nat; [injection Hrun as <- <-; by destruct Hd|].
  apply need_bind_Some in Hrun as (connID & E1 & Hrun).
  apply need_bind_Some in Hrun as (action & E2 & Hrun).
  apply need_bind_Some in Hrun as (txID & _ & Hrun).
  exists connID, action. split; [done|]. split; [done|].
  destruct (Z.eqb_spec action connectActionID) as [->|Hne].
  { apply handle_connect_inv in Hrun as (-> & Ht & _). by destruct Hd. }
  apply need_bind_Some in Hrun as ([] & Hv & Hrun); cbn [negb] in Hrun;
    [|injection Hrun as <- <-; by destruct Hd].
  split; [|done].
  destruct (Z.eqb_spec action announceActionID); [by left|].
  destruct (Z.eqb_spec action announceV6ActionID); [by right; left|]. cbn [orb] in Hrun.
  destruct (Z.eqb_spec action scrapeActionID); [by right; right|].
  injection Hrun as <- <-. by destruct Hd.
Qed.

(** The datagrams of the two handlers carry the transaction ID and an action:
    the request's, or the error action. *)
Definition answers (o : outcome) (action : Z) (txID : bytes) : Prop :=
  ∀ p, o_written o = Some p →
    ∃ body, p = writeHeader txID (match o_err o with None => action | Some _ => errorActionID end) ++ body.

Lemma answers_error name txID err action : answers (fail_with name txID err) action txID.
Proof. intros p [= <-]. by eexists. Qed.

Lemma answers_logic name txID err action : answers (logic_failed name txID err) action txID.
Proof. intros p. unfold logic_failed. case_bool_decide; [done|]. intros [= <-]. by eexists. Qed.

Lemma answers_silent name err action txID : answers (MkOutcome name err None None) action txID.
Proof. by intros p. Qed.

Lemma handle_announce_answers (f : udpFE S) ctx r txID v6Action s s' o :
  handle_announce f ctx r txID v6Action s = Some (s', o) →
  answers o (if v6Action then announceV6ActionID else announceActionID) txID.
Proof.
  unfold handle_announce. intros ([req|e] & _ & Hrun)%need_bind_Some;
    [|injection Hrun as <- <-; apply answers_error].
  apply M_bind_inv in Hrun as (s1 & [[[c resp] err] req'] & _ & Hrun).
  destruct err as [e|]; [injection Hrun as <- <-; apply answers_logic|].
  apply need_bind_Some in Hrun as (c' & _ & Hrun).
  destruct (ctx_Err c'); [injection Hrun as <- <-; apply answers_silent|].
  apply need_bind_Some in Hrun as (resp' & _ & [= <- <-]). intros p [= <-].
  unfold writeAnnounceResponse. by eexists.
Qed.

Lemma handle_scrape_answers (f : udpFE S) ctx r txID s s' o :
  handle_scrape f ctx r txID s = Some (s', o) → answers o scrapeActionID txID.
Proof.
  unfold handle_scrape. intros ([req|e] & _ & Hrun)%need_bind_Some;
    [|injection Hrun as <- <-; apply answers_error].
  apply M_bind_inv in Hrun as (s1 & [[[c resp] err] req'] & _ & Hrun).
  destruct err as [e|]; [injection Hrun as <- <-; apply answers_logic|].
  apply need_bind_Some in Hrun as (c' & _ & Hrun).
  destruct (ctx_Err c'); [injection Hrun as <- <-; apply answers_silent|].
  apply need_bind_Some in Hrun as (resp' & _ & [= <- <-]). intros p [= <-].
  unfold writeScrapeResponse. by eexists.
Qed.

(** Every datagram the tracker sends answers the request it got: it starts
    with the action of the request, or the error action exactly when the handler
    reports an error, and the request's transaction ID; a packet shorter than
    16 bytes is never answered. *)
Theorem responses_carry_transaction (f : udpFE S) (ctx : Context) (r : Request) (entropy now : Z)
    (s s' : S) (o : outcome) (p : bytes) :
  handleRequest f ctx r entropy now s = Some (s', o) → o_written o = Some p →
  (16 ≤ length (r_Packet r))%nat ∧
  ∃ action txID body,
    be_at (r_Packet r) 8 12 = Some action ∧ slice (r_Packet r) 12 16 = Some txID ∧
    p = writeHeader txID (match o_err o with None => action | Some _ => errorActionID end) ++ body.
Proof.
  unfold handleRequest. intros Hrun Hp.
  destruct (Nat.ltb_spec (length (r_Packet r)) 16); [injection Hrun as <- <-; done|].
  split; [done|].
  apply need_bind_Some in Hrun as (connID & E1 & Hrun).
  apply need_bind_Some in Hrun as (action & E2 & Hrun).
  apply need_bind_Some in Hrun as (txID & E3 & Hrun).
  exists action, txID. cut (answers o action txID).
  { intros Ha. destruct (Ha p Hp) as [body ?]. by exists body. }
  destruct (Z.eqb_spec action connectActionID) as [->|Hne].
  { apply handle_connect_inv in Hrun as (_ & _ & [[Hn _]|(_ & He & id & g & _ & Hw)]); [congruence|].
    intros q Hq. rewrite Hw in Hq. injection Hq as <-. rewrite He. by eexists. }
  apply need_bind_Some in Hrun as ([] & Hv & Hrun); cbn [negb] in Hrun;
    [|injection Hrun as <- <-; apply answers_error].
  destruct (Z.eqb_spec action announceActionID) as [->|]; [by apply handle_announce_answers in Hrun|].
  destruct (Z.eqb_spec action announceV6ActionID) as [->|]; [by apply handle_announce_answers in Hrun|].
  destruct (Z.eqb_spec action scrapeActionID) as [->|]; [by apply handle_scrape_answers in Hrun|].
  injection Hrun as <- <-. apply answers_error.
Qed.

End HandlerFacts.

Section EndToEnd.
Context {S : Type} `{StorageSpec S} `{Unicode} `{Shuffle}.

(** A request with a valid ID reaches the handler of its action. *)
Lemma handleRequest_announce (f : udpFE S) ctx src connID txID body entropy now s :
  length connID = 8%nat → length txID = 4%nat →
  Validate (fe_mac f) (NewConnectionIDGenerator (fe_maxClockSkew f)) connID src now = Some true →
  let r := MkRequest (connID ++ be_put 4 announceActionID ++ txID ++ body) src in
  handleRequest f ctx r entropy now s = handle_announce f ctx r txID false s.
Proof.
  intros Hc Ht Hv r. unfold handleRequest. subst r. cbn [r_Packet r_IP].
  rewrite (proj2 (Nat.ltb_ge _ _)) by (rewrite !length_app, length_be_put; lia).
  rewrite (slice_0 _ _ 0 8) by done.
  assert (be_at (connID ++ be_put 4 announceActionID ++ txID ++ body) 8 12 = Some announceActionID) as ->.
  { skip_fields. by rewrite (be_at_put 4 _ _ 0 4 32). }
  assert (slice (connID ++ be_put 4 announceActionID ++ txID ++ body) 12 16 = Some txID) as ->.
  { skip_fields. by rewrite (slice_0 _ _ 0 4). }
  cbn [need]. rewrite !M_bind_ret_l. change (announceActionID =? connectActionID) with false. cbv iota.
  rewrite Hv. cbn [need]. by rewrite M_bind_ret_l.
Qed.

Lemma handle_announce_plain (f : udpFE S) ai mi ctx r txID req n s :
  fe_logic f = NewLogic ai mi [] [] → ctx_Err ctx = None → ctx_skip_response ctx = false →
  parseAnnounce r false (fe_ParseOptions f) = Some (Ok req) →
  st_inv n s → InfoHash_wf (ar_InfoHash req) → 0 ≤ ar_NumWant req →
  ∃ s' resp task, handle_announce f ctx r txID false s =
      Some (s', MkOutcome (bs "announce") None
                  (Some (writeAnnounceResponse txID resp false (Is6 (r_IP r)))) (Some task)) ∧
    st_view s' ≡ st_view s ∧ answers_announce (st_view s) req resp ∧ resp_Interval resp = ai.
Proof.
  intros Hl He Hsk Hp Hi Hih Hn.
  set (ctx1 := InjectRouteParamsToContext ctx (Some [])).
  destruct (plain_logic_announce ai mi ctx1 req n s Hi Hih Hn Hsk) as (s' & resp & E & _ & Hv & Ha & Hiv & _).
  exists s', resp. eexists. split; [|done].
  unfold handle_announce. rewrite Hp. cbn [need]. rewrite M_bind_ret_l. cbv beta iota zeta.
  rewrite Hl. fold ctx1. rewrite (M_bind_Some _ _ _ _ _ E). cbv beta iota.
  cbn [need]. rewrite M_bind_ret_l. assert (ctx_Err ctx1 = None) as -> by done.
  by rewrite M_bind_ret_l.
Qed.

(** C4: the tracker does its job over UDP: a client that got a connection ID
    and, within its period, announces itself as a leecher in a packet the parser
    accepts, asking for as many peers as there are, gets a packet it can decode;
    the packet carries its transaction ID, the configured interval and the
    address and port of every seeder of the torrent of the client's address
    family; and the storage is unchanged until the task after it runs. *)
Theorem udp_leecher_finds_seeder (n : nat) (s : S) (f : udpFE S) (ai mi : Z) (ctx : Context)
    (src : Addr) (entropy entropy' t0 t1 : Z) (id txID body : bytes) (g' : ConnectionIDGenerator)
    (req : AnnounceRequest) :
  let r := MkRequest (id ++ be_put 4 announceActionID ++ txID ++ body) src in
  fe_logic f = NewLogic ai mi [] [] → ctx_Err ctx = None → ctx_skip_response ctx = false →
  (∀ m, (hmacLen ≤ length (fe_mac f m))%nat) →
  65536 <= fe_maxClockSkew f <= maxAllowedClockSkew → clock_time t0 → clock_time t1 →
  Generate (fe_mac f) (NewConnectionIDGenerator (fe_maxClockSkew f)) entropy src t0 = Some (id, g') →
  t1 / epoch = t0 / epoch → length txID = 4%nat →
  parseAnnounce r false (fe_ParseOptions f) = Some (Ok req) →
  st_inv n s → InfoHash_wf (ar_InfoHash req) → ar_Left req ≠ 0 → IsValid src = true →
  uint 16 (rp_Port (ar_RequestPeer req)) → (∀ rl ih q, q ∈ st_view s rl ih → uint 16 (peer_Port q)) →
  0 <= total_available (st_view s) false (request_args req) <= ar_NumWant req →
  ∃ s' o p packet,
    handleRequest f ctx r entropy' t1 s = Some (s', o) ∧ st_view s' ≡ st_view s ∧
    o_err o = None ∧ o_written o = Some p ∧ decode_announce (addr_len (Is6 src)) p = Some packet ∧
    ap_action packet = announceActionID ∧ ap_txID packet = txID ∧
    ap_interval packet = wrap 32 (Z.quot ai Second) ∧
    ∀ q, q ∈ st_view s Seeder (ar_InfoHash req) → Peer_Is6 q = Is6 src → IsValid (Peer_Addr q) = true →
      (AsSlice (Peer_Addr q), peer_Port q) ∈ ap_peers packet.
Proof.
  intros r Hl He Hsk Hmac Hskew Ht0 Ht1 HG Hep Htx Hp Hi Hih Hleft Hsrc Hport Hports Htot.
  destruct (Generate_eq _ Hmac (NewConnectionIDGenerator (fe_maxClockSkew f)) entropy src t0) as (salt & g1 & E).
  assert (id = [salt; byte_of_Z (t0 / 256); byte_of_Z t0] ++ token (fe_mac f) salt t0 src) as Hid by congruence.
  pose proof (length_token _ Hmac salt t0 src) as Hlen.
  assert (Hv : Validate (fe_mac f) (NewConnectionIDGenerator (fe_maxClockSkew f)) id src t1 = Some true).
  { rewrite Hid, (Validate_eq _ Hmac) by done. rewrite Hep.
    assert (t0 / epoch * epoch + t0 mod epoch = t0) as -> by (pose proof (Z.div_mod t0 epoch ltac:(done)); lia).
    by rewrite bool_decide_true. }
  assert (length id = 8%nat) as Hidl by (rewrite Hid; cbn [app length]; by rewrite Hlen).
  destruct (handle_announce_plain f ai mi ctx r txID req n s) as (s' & resp & task & Er & Hview & Ha & Hiv);
    [done..|lia|].
  destruct Ha as (_ & H4 & H6 & Hin & _ & Hall & Hc & Hinc & _).
  assert (Hpeers : Forall (peer_wf (Is6 src)) (if Is6 src then resp_IPv6Peers resp else resp_IPv4Peers resp)).
  { apply list.Forall_forall. intros q Hq.
    assert (q ∈ response_peers resp) as Hq' by (unfold response_peers; apply elem_of_app; destruct (Is6 src); auto).
    split; [destruct (Is6 src); [by apply H6|by apply H4]|].
    apply Hin in Hq' as [Hcand|[_ Hq']].
    - by destruct (candidate_in_view _ _ _ _ Hcand) as (rl & ih & Hqv); eapply Hports.
    - unfold Peers in Hq'. apply list_elem_of_fmap in Hq' as (a & -> & _). done. }
  exists s'. do 3 eexists. split; [unfold r; rewrite handleRequest_announce by done; exact Er|].
  split; [done|]. split; [done|]. split; [done|]. split.
  { apply decode_announce_written; [done|rewrite Hc; apply wrap_uint; lia|rewrite Hinc; apply wrap_uint; lia|done]. }
  cbn [ap_action ap_txID ap_interval ap_peers]. rewrite Hiv. split_and!; [done..|].
  intros q Hq Hf Hval. apply list_elem_of_fmap. exists q. split; [done|].
  assert (q ∈ response_peers resp) as Hqr.
  { assert (seeding req = false) as Hse by (unfold seeding; by apply Z.eqb_neq).
    rewrite Hse in Hall. apply Hall; [lia| |done].
    exists (ar_InfoHash req, Peer_Is6 q). split; [apply request_args_families|]. by apply seeder_candidate. }
  unfold response_peers in Hqr. cbn [r_IP]. rewrite <-Hf. unfold Peer_Is6 in *.
  apply elem_of_app in Hqr as [Hqr|Hqr].
  - by rewrite (Is4_Is6 _ (H4 _ Hqr)).
  - by rewrite (H6 _ Hqr).
Qed.

End EndToEnd.

(** The frontend of the witnesses: an in-memory tracker. *)
Import (hints) MemStore.
Definition fe1 : udpFE MemStore.world :=
  MkUdpFE mac1 defaultMaxClockSkew logic1 (MkParseOptions false false 100 50 50).
Definition src1 : Addr := Addr4 0x05060708.
(** Connection IDs made by [fe1] for [src1] at time 65536. *)
Definition id1 : bytes := [x1d; x00; x00; x00; x01; x00; x00; x05]%byte.
Definition tx1 : bytes := bs "abcd".
(** The rest of an announce of a leecher, and the whole packet. *)
Definition body1 : bytes :=
  hash1 ++ replicate 20 x02 ++ be_put 8 0 ++ be_put 8 7 ++ be_put 8 0 ++ be_put 4 2 ++
  be_put 4 0 ++ be_put 4 0 ++ be_put 4 50 ++ be_put 2 6882.
Definition packet1 : bytes := id1 ++ be_put 4 announceActionID ++ tx1 ++ body1.
Definition request1 : AnnounceRequest :=
  MkAnnounceRequest Started hash1 true true 50 7 0 0
    (MkRequestPeer (replicate 20 x02) 6882 [MkRequestAddress src1 false])
    (Some (@GetString ascii_only ∅)).
Lemma fe1_generates :
  ∃ g, Generate mac1 (NewConnectionIDGenerator defaultMaxClockSkew) 1 src1 65536 = Some (id1, g).
Proof. eexists. vm_compute. reflexivity. Qed.

Lemma parse_packet1 :
  @parseAnnounce ascii_only shuffle_id (MkRequest packet1 src1) false (fe_ParseOptions fe1) = Some (Ok request1).
Proof. vm_compute. reflexivity. Qed.

Lemma udp_leecher_finds_seeder_witness :
  ∃ (w w' : MemStore.world) o p packet,
    @handleRequest _ ascii_only shuffle_id fe1 Background (MkRequest packet1 src1) 9 65537 w = Some (w', o) ∧
    o_written o = Some p ∧ decode_announce 4 p = Some packet ∧
    ap_txID packet = tx1 ∧ ([x01; x02; x03; x04]%byte, 6881) ∈ ap_peers packet.
Proof.
  destruct seeded_world as (w & Hi & Hin & Hports & Htot). destruct fe1_generates as [g Hg].
  assert (Hclock : ∀ t, 65536 <= t <= 65537 → clock_time t) by (unfold clock_time; lia).
  destruct (@udp_leecher_finds_seeder _ _ _ ascii_only shuffle_id 0%nat w fe1 1800 900 Background src1 1 9 65536 65537 id1 tx1 body1 g
    request1 eq_refl eq_refl eq_refl mac1_long
    ltac:(vm_compute; split; discriminate) (Hclock 65536 ltac:(lia)) (Hclock 65537 ltac:(lia)) Hg eq_refl eq_refl
    parse_packet1 Hi (or_introl eq_refl) ltac:(discriminate) eq_refl ltac:(split; [discriminate|reflexivity])
    Hports Htot) as (w' & o & p & packet & E & _ & _ & Ho & Hd & _ & Ht & _ & Hps).
  exists w, w', o, p, packet. split; [exact E|]. split; [exact Ho|]. split; [exact Hd|]. split; [exact Ht|].
  exact (Hps peer1 Hin eq_refl eq_refl).
Defined.

Lemma connection_id_guards_witness :
  ∃ w', @handleRequest _ ascii_only shuffle_id fe1 Background (MkRequest packet1 src1) 9 65537 world1 = Some w' ∧
  ∃ connID, slice packet1 0 8 = Some connID ∧
    Validate mac1 (NewConnectionIDGenerator defaultMaxClockSkew) connID src1 65537 = Some true.
Proof.
  destruct (@handleRequest _ ascii_only shuffle_id fe1 Background (MkRequest packet1 src1) 9 65537 world1)
    as [[w' o]|] eqn:E.
  - exists (w', o). split; [reflexivity|].
    assert (o_task o ≠ None) as Ht.
    { assert ((λ x : MemStore.world * outcome, bool_decide (is_Some (o_task x.2))) <$> Some (w', o) = Some true) as Hb.
      { rewrite <-E. vm_cast_no_check (eq_refl (Some true)). }
      injection Hb as Hb. apply bool_decide_eq_true in Hb as [t Ht]. rewrite Ht. discriminate. }
    destruct (@connection_id_guards _ ascii_only shuffle_id fe1 Background (MkRequest packet1 src1) 9 65537
      world1 w' o E (or_intror Ht)) as (connID & action & H1 & _ & _ & H2).
    exists connID. split; [exact H1|exact H2].
  - exfalso. assert (bool_decide (is_Some (@handleRequest _ ascii_only shuffle_id fe1 Background
      (MkRequest packet1 src1) 9 65537 world1)) = true) as Hb by (vm_cast_no_check (eq_refl true)).
    rewrite E in Hb. discriminate.
Defined.

Lemma responses_carry_transaction_witness :
  let r := MkRequest (initialConnectionID ++ be_put 4 connectActionID ++ tx1) src1 in
  let p := writeConnectionID tx1 id1 in
  @handleRequest _ ascii_only shuffle_id fe1 Background r 1 65536 world1 =
    Some (world1, MkOutcome (bs "connect") None (Some p) None) ∧
  ∃ body, p = writeHeader tx1 connectActionID ++ body.
Proof.
  assert (@handleRequest _ ascii_only shuffle_id fe1 Background
    (MkRequest (initialConnectionID ++ be_put 4 connectActionID ++ tx1) src1) 1 65536 world1 =
    Some (world1, MkOutcome (bs "connect") None (Some (writeConnectionID tx1 id1)) None)) as E by reflexivity.
  split; [exact E|].
  destruct (@responses_carry_transaction _ ascii_only shuffle_id _ _ _ _ _ _ _ _ _ E eq_refl)
    as (_ & action & txID & body & Ha & Ht & Hp).
  exists body. injection Ha as <-. injection Ht as <-. exact Hp.
Defined.

(** ** The configuration *)

Lemma abs64_spec z : sint 64 z → abs64 z = if decide (z = - 2 ^ 63) then - 2 ^ 63 else Z.abs z.
Proof.
  unfold sint. change (2 ^ (64 - 1)) with (2 ^ 63). intros Hz. unfold abs64.
  rewrite Z.shiftr_div_pow2 by lia. destruct (Z.le_gt_cases 0 z) as [Hp|Hn].
  - rewrite Z.div_small, Z.lxor_0_r, Z.land_0_l, Z.add_0_r, iwrap_small by (unfold sint; lia).
    rewrite decide_False by lia. lia.
  - assert (z / 2 ^ 63 = -1) as -> by (symmetry; apply (Z.div_unique _ _ _ (z + 2 ^ 63)); lia).
    rewrite Z.lxor_m1_r. unfold Z.lnot. change (Z.land (-1) 1) with 1.
    case_decide as Hd; [by rewrite Hd|]. rewrite iwrap_small by (unfold sint; lia). lia.
Qed.

Lemma length_pick_runes n random : (n ≤ length random)%nat → length (map pick_rune (take n random)) = n.
Proof. intros. rewrite length_map, length_take. lia. Qed.

(** C39: a validated UDP configuration can be run: there is a worker, several
    workers share the port, there is a private key, and the limits on requests
    are positive; the clock skew is between 1 ns and 30 s, with one exception:
    the most negative skew has no absolute value and is kept as it is.
    Validating again changes nothing. *)
Theorem Config_Validate_spec (random random' : bytes) (cfg : Config) :
  sint 64 (cfg_MaxClockSkew cfg) → 0 <= lo_Workers (cfg_ListenOptions cfg) →
  (defaultKeyLen ≤ length random)%nat →
  let cfg' := Config_Validate random cfg in
  let lo := cfg_ListenOptions cfg' in
  let po := cfg_ParseOptions cfg' in
  1 <= lo_Workers lo ∧ (1 < lo_Workers lo → lo_ReusePort lo = true) ∧
  lo_Addr lo ≠ [] ∧ cfg_PrivateKey cfg' ≠ [] ∧
  0 < MaxNumWant po ∧ 0 < DefaultNumWant po ∧ 0 < MaxScrapeInfoHashes po ∧
  (0 < cfg_MaxClockSkew cfg' <= maxAllowedClockSkew ∨
   cfg_MaxClockSkew cfg = - 2 ^ 63 ∧ cfg_MaxClockSkew cfg' = - 2 ^ 63) ∧
  Config_Validate random' cfg' = cfg'.
Proof.
  destruct cfg as [[addr reuse workers timing] key skew [sp priv mx df ms]].
  cbn [cfg_MaxClockSkew cfg_ListenOptions cfg_ParseOptions cfg_PrivateKey lo_Workers MaxNumWant
       DefaultNumWant MaxScrapeInfoHashes].
  intros Hsk Hw Hr.
  set (w' := if workers =? 0 then 1 else workers).
  set (reuse' := if (w' >? 1) && negb reuse then true else reuse).
  set (addr' := if decide (addr = []) then DefaultListenAddress else addr).
  set (key' := if decide (key = []) then map pick_rune (take defaultKeyLen random) else key).
  set (skew' := if (abs64 skew =? 0) || (abs64 skew >? maxAllowedClockSkew) then defaultMaxClockSkew else abs64 skew).
  set (po' := ParseOptions_Validate (MkParseOptions sp priv mx df ms)).
  assert (Hv : Config_Validate random (MkConfig (MkListenOptions addr reuse workers timing) key skew
      (MkParseOptions sp priv mx df ms)) = MkConfig (MkListenOptions addr' reuse' w' timing) key' skew' po').
  { unfold Config_Validate, ListenOptions_Validate, addr'. cbn [cfg_ListenOptions lo_Addr].
    by case_decide. }
  rewrite Hv. cbn [cfg_MaxClockSkew cfg_ListenOptions cfg_ParseOptions cfg_PrivateKey lo_Workers lo_ReusePort lo_Addr].
  assert (Hw1 : 1 <= w') by (unfold w'; destruct (Z.eqb_spec workers 0); lia).
  assert (Hre : 1 < w' → reuse' = true).
  { intros Hlt. unfold reuse'. rewrite Z.gtb_ltb, (proj2 (Z.ltb_lt _ _) Hlt). by destruct reuse. }
  assert (Ha : addr' ≠ []) by (unfold addr'; by case_decide).
  assert (Hk : key' ≠ []).
  { unfold key'. case_decide; [|done]. intros E. apply (f_equal length) in E.
    by rewrite length_pick_runes in E. }
  assert (Hs : 0 < skew' <= maxAllowedClockSkew ∨ skew = - 2 ^ 63 ∧ skew' = - 2 ^ 63).
  { unfold skew'. rewrite abs64_spec by done. case_decide; [right; subst; done|left].
    destruct (Z.eqb_spec (Z.abs skew) 0); [done|]. destruct (Z.gtb_spec (Z.abs skew) maxAllowedClockSkew); [done|].
    cbn [orb]. lia. }
  destruct (ParseOptions_Validate_pos (MkParseOptions sp priv mx df ms)) as (Hp1 & Hp2 & Hp3).
  split_and!; [done..|].
  unfold Config_Validate, ListenOptions_Validate. cbn [cfg_MaxClockSkew cfg_ListenOptions cfg_ParseOptions
    cfg_PrivateKey lo_Workers lo_ReusePort lo_Addr lo_EnableRequestTiming].
  rewrite decide_False by done. cbn [lo_Addr lo_Workers lo_ReusePort lo_EnableRequestTiming].
  rewrite (proj2 (Z.eqb_neq w' 0)), decide_False by (done || lia). f_equal.
  - f_equal. destruct (Z.gtb_spec w' 1); [|done]. rewrite Hre by lia. done.
  - destruct Hs as [Hs|[_ ->]]; [|done].
    rewrite abs64_spec by (unfold sint, maxAllowedClockSkew, Second in *; lia).
    rewrite decide_False, Z.abs_eq by lia.
    by rewrite (proj2 (Z.eqb_neq _ _)), Z.gtb_ltb, (proj2 (Z.ltb_ge _ _)) by lia.
  - apply ParseOptions_Validate_idemp.
Qed.

Lemma Config_Validate_spec_witness :
  let cfg := MkConfig (MkListenOptions [] false 4 false) [] (- 2 ^ 63) (MkParseOptions false false 0 0 0) in
  let cfg' := Config_Validate (replicate 32 x07) cfg in
  cfg_MaxClockSkew cfg' = - 2 ^ 63 ∧ Config_Validate [] cfg' = cfg' ∧ 1 <= lo_Workers (cfg_ListenOptions cfg').
Proof.
  cbv zeta. destruct (Config_Validate_spec (replicate 32 x07) []
    (MkConfig (MkListenOptions [] false 4 false) [] (- 2 ^ 63) (MkParseOptions false false 0 0 0)))
    as (Hw & _ & _ & _ & _ & _ & _ & _ & Hid).
  - split; [discriminate|reflexivity].
  - discriminate.
  - vm_compute. lia.
  - split; [reflexivity|]. split; [exact Hid|exact Hw].
Defined.
