(* ===== verification/UdpServe.v ===== *)
(** * The UDP frontend: sockets, buffers and shutdown

    [NewFrontend], [serve] and [Close] of src/frontend/udp/frontend.go over the
    pool of src/pkg/bytepool/bytepool.go, as a step relation: what each listening
    loop, each request goroutine and the closing goroutine do next.  A packet is a
    pointer into a pooled buffer, so that buffers live on a heap. *)

From S2P Require Import Prelude GoStd.

Local Open Scope Z_scope.

Module Serve.

(** ** Buffers *)

Definition loc := nat.

(** The length [serve] makes its pool with. *)
Definition bufferLen : nat := 2048.
Definition zeroed : bytes := replicate bufferLen x00.

(** [BytePool]: the buffers put back and not yet handed out again.  [Get] gives
    one of them or a new one, and [sync.Pool] may drop some at any time. *)
Definition bytepool := list loc.

(** Zeroes all of the buffer: [for i := range *b { ( *b)[i] = 0 }]. *)
Definition clear (b : bytes) : bytes := replicate (length b) x00.

(** What a read of [data] leaves in a buffer, [n] being its result: the kernel
    cuts a datagram off at the length of the buffer. *)
Definition read_into (data buffer : bytes) : bytes :=
  take (length buffer) data ++ drop (length data) buffer.

(** ** State *)

Inductive phase :=
  | Checking                    (* at the select on [closing] *)
  | Getting                     (* about to get a buffer *)
  | Reading (buffer : loc)      (* in [ReadFromUDPAddrPort] *)
  | Returned (failed : bool).

Record listener := MkListener { ln_pool : bytepool; ln_phase : phase }.

(** A goroutine that handles a request: the loop that started it, its buffer, the
    number of bytes read; [rq_datagram] is what was received, for the statements
    only. *)
Record request := MkRequest { rq_loop : nat; rq_buffer : loc; rq_n : nat; rq_datagram : bytes }.

(** [Close]: not called; [closing] closed and the first [n] sockets past their
    deadline; waiting for the goroutines; done. *)
Inductive shutdown := Open | Deadlines (n : nat) | Waiting | Closed.
#[export] Instance shutdown_eq_dec : EqDecision shutdown.
Proof. solve_decision. Defined.

Record frontend := MkFrontend {
  fe_heap : gmap loc bytes;
  fe_loops : list listener;
  fe_requests : list request;
  fe_wg : Z;
  fe_shutdown : shutdown;
}.

(** [NewFrontend], each loop started with an empty pool. *)
Definition start (sockets : nat) : frontend :=
  MkFrontend ∅ (replicate sockets (MkListener [] Checking)) [] (Z.of_nat sockets) Open.

Definition is_closing (f : frontend) : bool :=
  match fe_shutdown f with Open => false | _ => true end.

(** Whether reads on the socket of loop [i] fail with a timeout. *)
Definition past_deadline (f : frontend) (i : nat) : Prop :=
  match fe_shutdown f with Open => False | Deadlines n => (i < n)%nat | Waiting | Closed => True end.

(** What [( *buffer)[:n]] is now. *)
Definition packet (f : frontend) (r : request) : option bytes :=
  take (rq_n r) <$> fe_heap f !! rq_buffer r.

Definition set_loop (f : frontend) (i : nat) (l : listener) : frontend :=
  MkFrontend (fe_heap f) (<[i := l]> (fe_loops f)) (fe_requests f) (fe_wg f) (fe_shutdown f).
Definition set_heap (f : frontend) (h : gmap loc bytes) : frontend :=
  MkFrontend h (fe_loops f) (fe_requests f) (fe_wg f) (fe_shutdown f).
Definition set_shutdown (f : frontend) (s : shutdown) : frontend :=
  MkFrontend (fe_heap f) (fe_loops f) (fe_requests f) (fe_wg f) s.
Definition add_wg (f : frontend) (d : Z) : frontend :=
  MkFrontend (fe_heap f) (fe_loops f) (fe_requests f) (fe_wg f + d) (fe_shutdown f).
Definition set_requests (f : frontend) (rs : list request) : frontend :=
  MkFrontend (fe_heap f) (fe_loops f) rs (fe_wg f) (fe_shutdown f).

(** [pool.Put(buffer)] by loop [i], which goes on at [ph]; by a request. *)
Definition put_back (f : frontend) (i : nat) (l : listener) (b : loc) (ph : phase) : frontend :=
  set_loop (set_heap f (alter clear b (fe_heap f))) i (MkListener (b :: ln_pool l) ph).

(** ** Steps *)

Inductive step : frontend → frontend → Prop :=
  (* the loops *)
  | step_stop f i l :
      fe_loops f !! i = Some l → ln_phase l = Checking → is_closing f = true →
      step f (add_wg (set_loop f i (MkListener (ln_pool l) (Returned false))) (-1))
  | step_go_on f i l :
      fe_loops f !! i = Some l → ln_phase l = Checking → is_closing f = false →
      step f (set_loop f i (MkListener (ln_pool l) Getting))
  | step_get_pooled f i l bs1 b bs2 :
      fe_loops f !! i = Some l → ln_phase l = Getting → ln_pool l = bs1 ++ b :: bs2 →
      step f (set_loop f i (MkListener (bs1 ++ bs2) (Reading b)))
  | step_get_new f i l b :
      fe_loops f !! i = Some l → ln_phase l = Getting → fe_heap f !! b = None →
      step f (set_loop (set_heap f (<[b := zeroed]> (fe_heap f))) i (MkListener (ln_pool l) (Reading b)))
  | step_read f i l b data :
      fe_loops f !! i = Some l → ln_phase l = Reading b → ¬ past_deadline f i → data ≠ [] →
      let n := min bufferLen (length data) in
      step f (add_wg (set_requests
                (set_loop (set_heap f (alter (read_into data) b (fe_heap f))) i (MkListener (ln_pool l) Checking))
                (MkRequest i b n (take bufferLen data) :: fe_requests f)) 1)
  | step_read_nothing f i l b :
      fe_loops f !! i = Some l → ln_phase l = Reading b → ¬ past_deadline f i →
      step f (put_back f i l b Checking)
  | step_timeout f i l b :
      fe_loops f !! i = Some l → ln_phase l = Reading b →
      step f (put_back f i l b Checking)
  | step_fail f i l b :
      fe_loops f !! i = Some l → ln_phase l = Reading b → ¬ past_deadline f i →
      step f (add_wg (put_back f i l b (Returned true)) (-1))
  (* [sync.Pool] forgets a buffer *)
  | step_drop f i l bs1 b bs2 :
      fe_loops f !! i = Some l → ln_pool l = bs1 ++ b :: bs2 →
      step f (set_loop f i (MkListener (bs1 ++ bs2) (ln_phase l)))
  (* a request ends: its deferred calls *)
  | step_handled f rs1 r rs2 l :
      fe_requests f = rs1 ++ r :: rs2 → fe_loops f !! rq_loop r = Some l →
      step f (add_wg (set_requests (put_back f (rq_loop r) l (rq_buffer r) (ln_phase l)) (rs1 ++ rs2)) (-1))
  (* [Close] *)
  | step_close f :
      fe_shutdown f = Open → step f (set_shutdown f (Deadlines 0))
  | step_deadline f n :
      fe_shutdown f = Deadlines n → (n < length (fe_loops f))%nat → step f (set_shutdown f (Deadlines (S n)))
  | step_wait f n :
      fe_shutdown f = Deadlines n → (length (fe_loops f) ≤ n)%nat → step f (set_shutdown f Waiting)
  | step_closed f :
      fe_shutdown f = Waiting → fe_wg f = 0 → step f (set_shutdown f Closed).

(** ** Invariant *)

Definition pad (d : bytes) : bytes := d ++ replicate (bufferLen - length d) x00.

(** Who holds which buffer, with what it must contain. *)
Definition loop_holds (l : listener) : list (loc * bytes) :=
  (λ b, (b, zeroed)) <$> match ln_phase l with Reading b => b :: ln_pool l | _ => ln_pool l end.
Definition request_holds (r : request) : loc * bytes := (rq_buffer r, pad (rq_datagram r)).
Definition holdings (f : frontend) : list (loc * bytes) :=
  (fe_loops f ≫= loop_holds) ++ (request_holds <$> fe_requests f).

Definition running (l : listener) : bool := match ln_phase l with Returned _ => false | _ => true end.

Definition heap_ok (h : gmap loc bytes) (hs : list (loc * bytes)) : Prop :=
  NoDup hs.*1 ∧ Forall (λ e, h !! e.1 = Some e.2) hs.

Record inv (f : frontend) : Prop := {
  inv_heap : heap_ok (fe_heap f) (holdings f);
  inv_requests : Forall (λ r, rq_n r = length (rq_datagram r) ∧ (0 < rq_n r ≤ bufferLen)%nat ∧
                              (rq_loop r < length (fe_loops f))%nat) (fe_requests f);
  inv_wg : fe_wg f = Z.of_nat (length (List.filter running (fe_loops f)) + length (fe_requests f));
}.

#[export] Instance heap_ok_perm h : Proper ((≡ₚ) ==> iff) (heap_ok h).
Proof. intros hs hs' H. unfold heap_ok. by rewrite H. Qed.

(** Facts on one owner's buffers. *)
Lemma heap_ok_update h b x hs g : heap_ok h ((b, x) :: hs) → heap_ok (alter g b h) ((b, g x) :: hs).
Proof.
  intros [Hnd Hf]. cbn [fmap list_fmap fst] in *. apply list.NoDup_cons in Hnd as [Hb Hnd].
  apply list.Forall_cons in Hf as [Hx Hf]. cbn [fst snd] in Hx.
  split; [by apply list.NoDup_cons|]. apply list.Forall_cons. cbn [fst snd].
  split; [by rewrite lookup_alter_eq, Hx|]. apply list.Forall_forall. intros e He.
  rewrite lookup_alter_ne; [by apply (proj1 (list.Forall_forall _ _) Hf)|].
  intros ->. apply Hb. apply list_elem_of_fmap. by exists e.
Qed.

Lemma heap_ok_new h b x hs : h !! b = None → heap_ok h hs → heap_ok (<[b := x]> h) ((b, x) :: hs).
Proof.
  intros Hb [Hnd Hf]. assert (∀ e, e ∈ hs → h !! e.1 = Some e.2) as Hf' by by apply list.Forall_forall.
  split; cbn [fmap list_fmap fst].
  - apply list.NoDup_cons. split; [|done]. intros ([b' y] & -> & He)%list_elem_of_fmap.
    apply Hf' in He. cbn [fst snd] in *. congruence.
  - apply list.Forall_cons. cbn [fst snd]. split; [by rewrite lookup_insert_eq|].
    apply list.Forall_forall. intros e He. rewrite lookup_insert_ne; [by apply Hf'|].
    intros ->. apply Hf' in He. congruence.
Qed.

Lemma heap_ok_drop h e hs : heap_ok h (e :: hs) → heap_ok h hs.
Proof.
  intros [Hnd Hf]. cbn [fmap list_fmap] in Hnd. apply list.NoDup_cons in Hnd as [_ ?].
  by apply list.Forall_cons in Hf as [_ ?].
Qed.

Lemma clear_zeroed x : length x = bufferLen → clear x = zeroed.
Proof. unfold clear, zeroed. by intros ->. Qed.

Lemma length_pad d : (length d ≤ bufferLen)%nat → length (pad d) = bufferLen.
Proof. intros H. unfold pad. rewrite length_app, length_replicate. lia. Qed.

Lemma read_into_zeroed data : read_into data zeroed = pad (take bufferLen data).
Proof.
  unfold read_into, pad, zeroed. rewrite length_replicate, length_take. f_equal.
  rewrite drop_replicate. f_equal. lia.
Qed.

(** The listeners around the one that makes a step. *)
Lemma loop_frame (ls : list listener) i l :
  ls !! i = Some l → ∃ ls1 ls2, ls = ls1 ++ l :: ls2 ∧ ∀ l', <[i := l']> ls = ls1 ++ l' :: ls2.
Proof.
  intros (ls1 & ls2 & -> & ->)%list_elem_of_split_length. exists ls1, ls2. split; [done|].
  intros l'. by rewrite insert_app_r_alt, Nat.sub_diag.
Qed.

Lemma holdings_frame f i l :
  fe_loops f !! i = Some l →
  ∃ R, ∀ f' l', fe_loops f' = <[i := l']> (fe_loops f) →
    holdings f' ≡ₚ loop_holds l' ++ (request_holds <$> fe_requests f') ++ R.
Proof.
  intros Hl. destruct (loop_frame _ _ _ Hl) as (ls1 & ls2 & E & Hi). exists ((ls1 ++ ls2) ≫= loop_holds).
  intros f' l' Hf. unfold holdings. rewrite Hf, Hi, !bind_app. cbn [mbind list_bind]. solve_Permutation.
Qed.

(** The listener [l] at [i] becomes [l'], and the heap and requests change. *)
Lemma step_heap_ok f f' i l l' :
  inv f → fe_loops f !! i = Some l → fe_loops f' = <[i := l']> (fe_loops f) →
  (∀ R, heap_ok (fe_heap f) (loop_holds l ++ (request_holds <$> fe_requests f) ++ R) →
        heap_ok (fe_heap f') (loop_holds l' ++ (request_holds <$> fe_requests f') ++ R)) →
  heap_ok (fe_heap f') (holdings f').
Proof.
  intros Hinv Hl Hf H. destruct (holdings_frame f i l Hl) as [R HR]. rewrite (HR f' l' Hf). apply H.
  rewrite <-(HR f l); [apply Hinv|]. by rewrite list_insert_id.
Qed.

Lemma running_frame (ls : list listener) i l l' :
  ls !! i = Some l →
  (length (List.filter running (<[i := l']> ls)) + (if running l then 1 else 0) =
   length (List.filter running ls) + (if running l' then 1 else 0))%nat.
Proof.
  intros Hl. destruct (loop_frame _ _ _ Hl) as (ls1 & ls2 & E & Hi). rewrite Hi, E, !List.filter_app, !length_app.
  cbn [List.filter]. destruct (running l), (running l'); cbn [length]; lia.
Qed.

Lemma running_le (ls : list listener) : (length (List.filter running ls) ≤ length ls)%nat.
Proof. induction ls as [|l ls IH]; [done|]. cbn [List.filter]. destruct (running l); cbn [length]; lia. Qed.

(** A pooled or read buffer moves; the datagram is written; the buffer is cleared. *)
Lemma holds_perm h hs hs' : hs ≡ₚ hs' → heap_ok h hs → heap_ok h hs'.
Proof. by intros ->. Qed.

Lemma clear_held h b x hs : length x = bufferLen → heap_ok h ((b, x) :: hs) → heap_ok (alter clear b h) ((b, zeroed) :: hs).
Proof. intros Hx H. rewrite <-(clear_zeroed x Hx). by apply heap_ok_update. Qed.

Ltac holds l H :=
  unfold loop_holds in *; rewrite ?H in *; cbn [ln_phase ln_pool fe_requests fe_heap fe_loops set_loop set_heap set_requests add_wg put_back] in *.

Lemma step_inv_heap f f' : inv f → step f f' → heap_ok (fe_heap f') (holdings f').
Proof.
  intros Hinv Hs. destruct Hs as
    [f i l Hl Hp Hc|f i l Hl Hp Hc|f i l bs1 b bs2 Hl Hp E|f i l b Hl Hp Hb|f i l b data Hl Hp Hd Hne n
    |f i l b Hl Hp Hd|f i l b Hl Hp|f i l b Hl Hp Hd|f i l bs1 b bs2 Hl E|f rs1 r rs2 l Er Hl|f E|f n E Hn|f n E Hn|f E Hw].
  11-14: apply Hinv.
  all: eapply step_heap_ok; [exact Hinv|exact Hl|reflexivity|]; intros R; holds l Hp; intros H.
  - done.
  - done.
  - rewrite E in H. eapply holds_perm; [|exact H]. rewrite !fmap_app. cbn [fmap list_fmap]. rewrite !fmap_app. solve_Permutation.
  - by apply heap_ok_new.
  - apply (heap_ok_update _ _ _ _ (read_into data)) in H. rewrite read_into_zeroed in H.
    eapply holds_perm; [|exact H]. cbn [fmap list_fmap]. unfold request_holds at 1. cbn [rq_buffer rq_datagram]. solve_Permutation.
  - by apply (clear_held _ _ zeroed).
  - by apply (clear_held _ _ zeroed).
  - by apply (clear_held _ _ zeroed).
  - rewrite E in H. apply (heap_ok_drop _ (b, zeroed)). eapply holds_perm; [|exact H].
    destruct (ln_phase l); cbn [fmap list_fmap]; rewrite !fmap_app; cbn [fmap list_fmap]; solve_Permutation.
  - rewrite Er in H.
    assert (length (pad (rq_datagram r)) = bufferLen) as Hlen.
    { pose proof (inv_requests _ Hinv) as Hr. rewrite Er in Hr. apply list.Forall_app in Hr as [_ Hr].
      apply list.Forall_cons in Hr as [(Hn & ? & _) _]. apply length_pad. lia. }
    assert (heap_ok (fe_heap f) (request_holds r :: loop_holds l ++ (request_holds <$> rs1 ++ rs2) ++ R)) as H'.
    { eapply holds_perm; [|exact H]. rewrite !fmap_app. cbn [fmap list_fmap]. solve_Permutation. }
    apply (clear_held _ _ _ _ Hlen) in H'. eapply holds_perm; [|exact H'].
    unfold loop_holds. destruct (ln_phase l); cbn [fmap list_fmap]; solve_Permutation.
Qed.

Lemma step_inv_requests f f' : inv f → step f f' →
  Forall (λ r, rq_n r = length (rq_datagram r) ∧ (0 < rq_n r ≤ bufferLen)%nat ∧ (rq_loop r < length (fe_loops f'))%nat)
    (fe_requests f').
Proof.
  intros Hinv Hs. pose proof (inv_requests _ Hinv) as Hr.
  destruct Hs as
    [| | | |f i l b data Hl Hp Hd Hne n| | | | |f rs1 r rs2 l Er Hl| | | |];
    cbn [fe_requests fe_loops add_wg put_back set_loop set_heap set_requests set_shutdown]; rewrite ?length_insert; try exact Hr.
  - apply list.Forall_cons. split; [|exact Hr]. cbn [rq_n rq_datagram rq_loop]. unfold n.
    rewrite length_take. split; [done|]. split; [|by eapply lookup_lt_Some].
    assert (length data ≠ 0)%nat by by destruct data. assert (bufferLen = 2048)%nat as -> by reflexivity. lia.
  - rewrite Er in Hr. apply list.Forall_app in Hr as [H1 H2]. apply list.Forall_cons in H2 as [_ H2].
    by apply list.Forall_app.
Qed.

Lemma step_inv_wg f f' : inv f → step f f' →
  fe_wg f' = Z.of_nat (length (List.filter running (fe_loops f')) + length (fe_requests f')).
Proof.
  intros Hinv Hs. pose proof (inv_wg _ Hinv) as Hw.
  destruct Hs as
    [f i l Hl Hp Hc|f i l Hl Hp Hc|f i l bs1 b bs2 Hl Hp E|f i l b Hl Hp Hb|f i l b data Hl Hp Hd Hne n
    |f i l b Hl Hp Hd|f i l b Hl Hp|f i l b Hl Hp Hd|f i l bs1 b bs2 Hl E|f rs1 r rs2 l Er Hl|f E|f n E Hn|f n E Hn|f E Hw'];
    cbn [fe_requests fe_loops fe_wg add_wg put_back set_loop set_heap set_requests set_shutdown]; try exact Hw.
  all: match goal with H : fe_loops ?f !! ?i = Some ?l |- context [<[?i := ?l']> (fe_loops ?f)] =>
      pose proof (running_frame _ i l l' H) as Hr end;
    unfold running at 2 4 in Hr; rewrite ?Hp in Hr; cbn [ln_phase] in Hr.
  all: try (cbn [length]; lia).
  rewrite Er, length_app in Hw. cbn [length] in Hw. rewrite length_app. lia.
Qed.

Lemma step_inv f f' : inv f → step f f' → inv f'.
Proof. intros Hinv Hs. split; [by eapply step_inv_heap|by eapply step_inv_requests|by eapply step_inv_wg]. Qed.

Lemma start_inv n : inv (start n).
Proof.
  split.
  - assert (holdings (start n) = []) as ->.
    { unfold holdings, start. cbn [fe_loops fe_requests]. rewrite app_nil_r. by induction n. }
    by split; constructor.
  - constructor.
  - unfold start. cbn [fe_wg fe_loops fe_requests length]. f_equal. rewrite Nat.add_0_r.
    induction n as [|n IH]; [done|]. cbn [replicate List.filter running ln_phase length]. by rewrite <-IH.
Qed.

Lemma reachable_inv n f : rtc step (start n) f → inv f.
Proof.
  intros H. assert (inv (start n)) as H0 by apply start_inv. induction H as [|x y z Hxy _ IH]; [done|].
  by apply IH, (step_inv x).
Qed.

(** ** Shutdown *)

Definition phase_weight (ph : phase) : nat :=
  match ph with Getting => 3 | Reading _ => 2 | Checking => 1 | Returned _ => 0 end.
Definition loop_weight (l : listener) : nat := 2 * phase_weight (ln_phase l) + length (ln_pool l).

(** What is left to do once [Close] waits. *)
Definition work (f : frontend) : nat := sum_list_with loop_weight (fe_loops f) + 2 * length (fe_requests f).

Lemma weight_frame (ls : list listener) i l l' :
  ls !! i = Some l →
  (sum_list_with loop_weight (<[i := l']> ls) + loop_weight l = sum_list_with loop_weight ls + loop_weight l')%nat.
Proof.
  intros Hl. destruct (loop_frame _ _ _ Hl) as (ls1 & ls2 & E & Hi). rewrite Hi, E, !sum_list_with_app.
  cbn [sum_list_with]. lia.
Qed.

(** While [Close] waits every step is work done, or the return of [Close]. *)
Lemma waiting_step f f' :
  fe_shutdown f = Waiting → step f f' →
  (fe_shutdown f' = Waiting ∧ (work f' < work f)%nat) ∨ (fe_shutdown f' = Closed ∧ fe_wg f = 0).
Proof.
  intros Hw Hs. destruct Hs as
    [f i l Hl Hp Hc|f i l Hl Hp Hc|f i l bs1 b bs2 Hl Hp E|f i l b Hl Hp Hb|f i l b data Hl Hp Hd Hne n
    |f i l b Hl Hp Hd|f i l b Hl Hp|f i l b Hl Hp Hd|f i l bs1 b bs2 Hl E|f rs1 r rs2 l Er Hl|f E|f n E Hn|f n E Hn|f E Hw'].
  1-10: left; split; [exact Hw|].
  2: unfold is_closing in Hc; by rewrite Hw in Hc.
  4, 5, 7: by destruct Hd; unfold past_deadline; rewrite Hw.
  all: try (by rewrite E in Hw).
  all: match goal with |- _ ∨ _ => by right | _ => idtac end.
  all: unfold work; cbn [fe_requests fe_loops add_wg put_back set_loop set_heap set_requests];
    match goal with H : fe_loops ?f !! ?i = Some ?l |- context [<[?i := ?l']> (fe_loops ?f)] =>
      pose proof (weight_frame _ i l l' H) as Hr end;
    unfold loop_weight at 2 4 in Hr; cbn [ln_phase ln_pool] in Hr.
  all: rewrite ?Hp, ?E, ?Er, ?length_app in *; cbn [phase_weight length] in *; lia.
Qed.

(** As long as it waits for somebody, somebody can go on. *)
Lemma waiting_progress f : inv f → fe_shutdown f = Waiting → ∃ f', step f f'.
Proof.
  intros Hinv Hw. destruct (decide (fe_wg f = 0)) as [E|E]; [by eexists; apply step_closed|].
  destruct (fe_requests f) as [|r rs] eqn:Er.
  - rewrite (inv_wg _ Hinv), Er in E. cbn [length] in E.
    destruct (List.filter running (fe_loops f)) as [|l ls] eqn:El; [done|].
    assert (In l (fe_loops f) ∧ running l = true) as [Hin Hrun] by (apply List.filter_In; rewrite El; by left).
    apply list_elem_of_In, list_elem_of_lookup in Hin as [i Hi]. unfold running in Hrun.
    destruct (ln_phase l) as [| |b|] eqn:Hp; [| | |done].
    + eexists. by apply (step_stop f i l); [..|unfold is_closing; rewrite Hw].
    + eexists. apply (step_get_new f i l (base.fresh (dom (fe_heap f)))); [done..|].
      apply not_elem_of_dom, is_fresh.
    + eexists. by apply (step_timeout f i l b).
  - pose proof (inv_requests _ Hinv) as Hr. rewrite Er in Hr. apply list.Forall_cons in Hr as [(_ & _ & Hr) _].
    apply lookup_lt_is_Some_2 in Hr as [l Hl]. eexists. by apply (step_handled f [] r rs l).
Qed.

(** When the counter is down, everybody has gone; and nobody comes back. *)
Lemma counter_zero f : inv f → fe_wg f = 0 →
  fe_requests f = [] ∧ ∀ i l, fe_loops f !! i = Some l → running l = false.
Proof.
  intros Hinv E. rewrite (inv_wg _ Hinv) in E. split; [apply nil_length_inv; lia|].
  intros i l Hl. destruct (running l) eqn:Hr; [|done].
  assert (In l (List.filter running (fe_loops f))) as Hin
    by (apply List.filter_In; split; [by apply list_elem_of_In; eapply list_elem_of_lookup_2|done]).
  destruct (List.filter running (fe_loops f)); [done|cbn [length] in E; lia].
Qed.

Lemma closed_step f f' :
  inv f → (fe_shutdown f = Closed → fe_wg f = 0) → step f f' →
  (fe_shutdown f' = Closed → fe_wg f' = 0) ∧ (fe_shutdown f = Closed → fe_shutdown f' = Closed).
Proof.
  intros Hinv Hc Hs. split.
  - intros Hc'. destruct (decide (fe_shutdown f = Closed)) as [E|E].
    + destruct (counter_zero f Hinv (Hc E)) as [Hr Hl]. specialize (Hc E). unfold running in Hl.
      destruct Hs as [f i l H1 H2|f i l H1 H2|f i l ? ? ? H1 H2|f i l ? H1 H2|f i l ? ? H1 H2|f i l ? H1 H2
        |f i l ? H1 H2|f i l ? H1 H2|f i l ? ? ? H1|f rs1 r rs2 l Er| | | |]; try exact Hc; try congruence;
        try (specialize (Hl _ _ H1); by rewrite H2 in Hl).
      rewrite Er in Hr. by destruct rs1.
    + destruct Hs; cbn in Hc'; try done; congruence.
  - intros E. destruct Hs; cbn; try done; congruence.
Qed.

Lemma reachable_closed n f : rtc step (start n) f → fe_shutdown f = Closed → fe_wg f = 0.
Proof.
  intros H. apply rtc_nsteps in H as [k H]. revert f H. induction k as [|k IH]; intros f H.
  - inversion H. subst. done.
  - apply nsteps_inv_r in H as (g & Hg & Hs). apply (closed_step g f); [|by apply IH|done].
    apply (reachable_inv n). apply rtc_nsteps. by exists k.
Qed.

(** ** Properties *)

(** C15: however the listening loops, the request goroutines and the shutdown of
    a UDP frontend interleave, a request is handled on the datagram it was
    started for, whatever arrives meanwhile: the part of the pooled buffer given
    to it holds that datagram, nothing of an earlier one follows it, and no other
    request or read has its buffer. *)
Theorem requests_isolated (sockets : nat) (f : frontend) :
  rtc step (start sockets) f →
  (∀ r, r ∈ fe_requests f →
     packet f r = Some (rq_datagram r) ∧ fe_heap f !! rq_buffer r = Some (pad (rq_datagram r))) ∧
  NoDup (rq_buffer <$> fe_requests f) ∧
  ∀ i l b, fe_loops f !! i = Some l → ln_phase l = Reading b →
    b ∉ (rq_buffer <$> fe_requests f) ∧ fe_heap f !! b = Some zeroed.
Proof.
  intros H. apply reachable_inv in H as [[Hnd Hheap] Hreq _]. unfold holdings in *.
  assert ((request_holds <$> fe_requests f).*1 = rq_buffer <$> fe_requests f) as Hfst by by rewrite <-list_fmap_compose.
  rewrite fmap_app, Hfst in Hnd. apply list.NoDup_app in Hnd as (_ & Hdis & Hnd). split; [|split; [done|]].
  - intros r Hr. assert (fe_heap f !! rq_buffer r = Some (pad (rq_datagram r))) as Hb.
    { apply (proj1 (list.Forall_forall _ _) Hheap (request_holds r)), elem_of_app. right.
      apply list_elem_of_fmap. by exists r. }
    split; [|done]. unfold packet. rewrite Hb. cbn. f_equal.
    destruct (proj1 (list.Forall_forall _ _) Hreq r Hr) as (-> & _). unfold pad. by rewrite take_app_length.
  - intros i l b Hl Hp. assert ((b, zeroed) ∈ fe_loops f ≫= loop_holds) as Hin.
    { apply list_elem_of_bind. exists l. split; [|by eapply list_elem_of_lookup_2].
      unfold loop_holds. rewrite Hp. apply list.elem_of_cons. by left. }
    split.
    + apply Hdis. apply list_elem_of_fmap. by exists (b, zeroed).
    + by apply (proj1 (list.Forall_forall _ _) Hheap (b, zeroed)), elem_of_app; left.
Qed.

(** C16: [Close] of a UDP frontend returns: from when it waits, its goroutines
    can always go on until it returns, they have a bounded number of steps left,
    and when it has returned no loop runs and no request is being handled. *)
Theorem close_returns (sockets : nat) (f : frontend) :
  rtc step (start sockets) f →
  (fe_shutdown f = Waiting → ∀ n f', nsteps step n f f' →
     (fe_shutdown f' = Waiting ∧ (n + work f' ≤ work f)%nat ∧ ∃ f'', step f' f'') ∨ fe_shutdown f' = Closed) ∧
  (fe_shutdown f = Closed →
     fe_requests f = [] ∧ ∀ i l, fe_loops f !! i = Some l → ∃ failed, ln_phase l = Returned failed).
Proof.
  intros H. split.
  - intros Hw n. revert f H Hw. induction n as [|n IH]; intros f H Hw f' Hn.
    + inversion Hn. subst. left. split; [done|]. split; [lia|]. apply waiting_progress; [by eapply reachable_inv|done].
    + inversion Hn as [|? ? g ? Hg Hn']; subst. clear Hn. rename Hn' into Hn. assert (rtc step (start sockets) g) as Hrg by (by eapply rtc_r).
      destruct (waiting_step f g Hw Hg) as [[Hw' Hlt]|[Hc _]].
      * destruct (IH g Hrg Hw' f' Hn) as [(? & ? & ?)|?]; [left|by right]. split; [done|]. split; [lia|done].
      * right. clear - Hc Hrg Hn. induction Hn as [|n g g' f' Hs _ IH]; [done|].
        assert (rtc step (start sockets) g') by (by eapply rtc_r). apply IH; [done|].
        exact (proj2 (closed_step g g' (reachable_inv _ _ Hrg) (reachable_closed _ _ Hrg) Hs) Hc).
  - intros Hc. destruct (counter_zero f) as [Hr Hl]; [by eapply reachable_inv|by eapply reachable_closed|].
    split; [done|]. intros i l Hi. specialize (Hl i l Hi). unfold running in Hl.
    destruct (ln_phase l); [done..|]. by eexists.
Qed.

(** A loop reads a datagram, and is reading again while it is handled. *)
Definition reading1 : frontend :=
  set_loop (set_heap (set_loop (start 1) 0 (MkListener [] Getting)) {[ 0%nat := zeroed ]}) 0 (MkListener [] (Reading 0%nat)).
Definition data1 : bytes := replicate 16 xaa.
Definition handling1 : frontend :=
  add_wg (set_requests (set_loop (set_heap reading1 (alter (read_into data1) 0%nat (fe_heap reading1))) 0 (MkListener [] Checking))
    [MkRequest 0 0%nat 16 data1]) 1.

Lemma handling1_reachable : rtc step (start 1) handling1.
Proof.
  eapply rtc_l; [by apply (step_go_on (start 1) 0 (MkListener [] Checking))|].
  eapply rtc_l; [by apply (step_get_new _ 0 (MkListener [] Getting) 0%nat)|].
  eapply rtc_l; [|apply rtc_refl].
  apply (step_read reading1 0 (MkListener [] (Reading 0%nat)) 0%nat data1); [reflexivity|reflexivity|by intros []|done].
Qed.

Lemma requests_isolated_witness :
  packet handling1 (MkRequest 0 0%nat 16 data1) = Some data1 ∧ NoDup (rq_buffer <$> fe_requests handling1).
Proof.
  destruct (requests_isolated 1 handling1 handling1_reachable) as (H1 & H2 & _). split; [|exact H2].
  apply (H1 (MkRequest 0 0%nat 16 data1)). apply list.elem_of_cons. by left.
Defined.

Definition waiting1 : frontend := set_shutdown (set_shutdown (set_shutdown handling1 (Deadlines 0)) (Deadlines 1)) Waiting.

Lemma close_returns_witness :
  rtc step (start 1) waiting1 ∧ work waiting1 = 4%nat ∧ ∃ f'', step waiting1 f''.
Proof.
  assert (rtc step (start 1) waiting1) as Hr.
  { etrans; [exact handling1_reachable|].
    eapply rtc_l; [by apply step_close|]. eapply rtc_l; [apply step_deadline; [reflexivity|by vm_compute; lia]|].
    eapply rtc_l; [|apply rtc_refl]. apply (step_wait _ 1); [reflexivity|by vm_compute; lia]. }
  split; [exact Hr|]. split; [reflexivity|].
  destruct (proj1 (close_returns 1 waiting1 Hr) eq_refl 0%nat waiting1 (nsteps_O _ _)) as [(_ & _ & H)|H];
    [exact H|discriminate H].
Defined.

(** ** Construction *)

Section NewFrontend.
Context {Conn : Type}.

(** The loop over [f.sockets]: a socket or nil for each worker, and the error
    left in [err]. *)
Fixpoint listen_all (workers : nat) (ListenUDP : nat → result Conn) (i : nat) (err : error) : list (option Conn) * error :=
  match workers with
  | O => ([], err)
  | S workers =>
      let '(conn, err) := match ListenUDP i with Ok c => (Some c, None) | Err e => (None, Some e) end in
      let '(conns, err) := listen_all workers ListenUDP (S i) err in
      (conn :: conns, err)
  end.

(** The sockets that were opened, each with a loop, the error returned, and
    whether the frontend was closed again. *)
Definition NewFrontend (workers : nat) (ListenUDP : nat → result Conn) : list Conn * error * bool :=
  let '(conns, err) := listen_all workers ListenUDP 0 None in
  (omap id conns, err, if err is Some _ then true else false).

Lemma listen_all_err workers L i err :
  (listen_all workers L i err).2 =
    match workers with O => err | S w => match L (i + w)%nat with Ok _ => None | Err e => Some e end end.
Proof.
  revert i err. induction workers as [|w IH]; intros i err; [done|]. cbn [listen_all].
  destruct (match L i with Ok c => (Some c, None) | Err e => (None, Some e) end) as [c err'] eqn:E.
  pose proof (IH (S i) err') as H. destruct (listen_all w L (S i) err') as [cs err'']. cbn [snd] in *. rewrite H.
  destruct w as [|w]; [|by rewrite Nat.add_succ_comm]. rewrite Nat.add_0_r. destruct (L i); congruence.
Qed.

(** Only the last worker's socket decides: earlier ones that cannot be opened
    are left out without a word. *)
Lemma NewFrontend_err w L :
  (NewFrontend (S w) L).1.2 = match L w with Ok _ => None | Err e => Some e end.
Proof.
  unfold NewFrontend. pose proof (listen_all_err (S w) L 0 None) as H.
  destruct (listen_all (S w) L 0 None) as [cs err]. exact H.
Qed.

Example NewFrontend_hides_error c e :
  NewFrontend 2 (λ i, match i with O => Err e | _ => Ok c end) = ([c], None, false).
Proof. done. Qed.
End NewFrontend.
End Serve.
