(* ===== verification/Http.v ===== *)
(** * Package [frontend/http]

    Parsing of announces and scrapes (src/frontend/http/params.go, parser.go),
    the bencoded answers (src/frontend/http/writer.go), the configuration, the
    routes and their handlers (src/frontend/http/frontend.go).  The HTTP library
    (fasthttp) is the class [FastHTTP]. *)

From S2P Require Import Prelude GoStd Netip NetipText Bencode Bittorrent Packet Storage Memory Frontend Hooks Tracker.

Local Open Scope Z_scope.

(** ** The HTTP library

    The query arguments of a request and [AppendUint], which panics on negative
    numbers.  [GetUint] gives the number it returns next to its error. *)

Inductive uint_error := ErrNoArgValue | ErrBadUint.

#[export] Instance uint_error_eq_dec : EqDecision uint_error.
Proof. solve_decision. Defined.

Class FastHTTP := {
  Args : Type;
  Peek : Args → bytes → option bytes;
  PeekMulti : Args → bytes → list bytes;
  GetUint : Args → bytes → Z * option uint_error;
  GetBool : Args → bytes → bool;
  AppendUint : Z → option bytes;
  append_uint_spec n : 0 <= n → AppendUint n = Some (Itoa n);
}.

(** What the code uses of a [*fasthttp.RequestCtx]: [rc_header] is
    [Header.PeekAll], [rc_RemoteAddr] the text of the connection's address. *)
Record RequestCtx `{FastHTTP} := MkRequestCtx {
  rc_QueryArgs : Args;
  rc_header : bytes → list bytes;
  rc_RemoteAddr : bytes;
  rc_Path : bytes;
  rc_Context : Context;
}.

(** ** Configuration *)

Record HttpParseOptions := MkHttpParseOptions {
  hpo_ParseOptions : ParseOptions;
  RealIPHeader : bytes;
}.

Record Config := MkConfig {
  cfg_ListenOptions : ListenOptions;
  ReadTimeout : Z;
  WriteTimeout : Z;
  IdleTimeout : Z;
  EnableKeepAlive : bool;
  UseTLS : bool;
  TLSCertPath : bytes;
  TLSKeyPath : bytes;
  AnnounceRoutes : list bytes;
  ScrapeRoutes : list bytes;
  PingRoutes : list bytes;
  cfg_ParseOptions : HttpParseOptions;
}.

Definition defaultReadTimeout : Z := 2 * Second.
Definition defaultWriteTimeout : Z := 2 * Second.
Definition defaultIdleTimeout : Z := 30 * Second.
Definition DefaultAnnounceRoute : bytes := bs "/announce".
Definition DefaultScrapeRoute : bytes := bs "/scrape".
Definition errTLSNotProvided : GoError := OtherError (bs "tls certificate/key not provided").

Definition Config_Validate (cfg : Config) : result Config :=
  let lo := ListenOptions_Validate (cfg_ListenOptions cfg) in
  if UseTLS cfg && (bool_decide (TLSCertPath cfg = []) || bool_decide (TLSKeyPath cfg = [])) then
    Err errTLSNotProvided
  else
    let positive d v := if v <=? 0 then d else v in
    let routes (d : bytes) (l : list bytes) := if decide (l = []) then [d] else l in
    Ok (MkConfig lo
          (positive defaultReadTimeout (ReadTimeout cfg))
          (positive defaultWriteTimeout (WriteTimeout cfg))
          (positive defaultIdleTimeout (IdleTimeout cfg))
          (EnableKeepAlive cfg) (UseTLS cfg) (TLSCertPath cfg) (TLSKeyPath cfg)
          (routes DefaultAnnounceRoute (AnnounceRoutes cfg))
          (routes DefaultScrapeRoute (ScrapeRoutes cfg))
          (PingRoutes cfg)
          (MkHttpParseOptions (ParseOptions_Validate (hpo_ParseOptions (cfg_ParseOptions cfg)))
             (RealIPHeader (cfg_ParseOptions cfg)))).

(** ** Parsing *)

Definition errNoInfoHash : GoError := ClientError (bs "no info hash supplied").
Definition errMultipleInfoHashes : GoError := ClientError (bs "multiple info hashes supplied").
Definition errInvalidPeerID : GoError := ClientError (bs "peer ID invalid or not provided").
Definition errInvalidParameterLeft : GoError := ClientError (bs "parameter 'left' invalid or not provided").
Definition errInvalidParameterDownloaded : GoError :=
  ClientError (bs "parameter 'downloaded' invalid or not provided").
Definition errInvalidParameterUploaded : GoError :=
  ClientError (bs "parameter 'uploaded' invalid or not provided").
Definition errInvalidParameterNumWant : GoError :=
  ClientError (bs "parameter 'num want' invalid or not provided").

Section Parser.
Context `{FastHTTP} `{Unicode} `{Shuffle}.

Definition GetString (qp : Args) : Params := λ key, Peek qp key.

Definition InfoHashes (qp : Args) : list InfoHash :=
  omap (λ bb, match NewInfoHash bb with Ok ih => Some ih | Err _ => None end) (PeekMulti qp (bs "info_hash")).

Definition parseRequestAddress (s : bytes) (provided : bool) : RequestAddress :=
  match ParseAddr s with
  | Some addr => MkRequestAddress addr provided
  | None => MkRequestAddress AddrNone false
  end.

(** The addresses of the "ip", "ipv4" and "ipv6" parameters. *)
Definition spoofed (qp : Args) (aa : RequestAddresses) : RequestAddresses :=
  foldl (λ aa f, match GetString qp f with
                 | Some ipStr => Add aa (parseRequestAddress ipStr true)
                 | None => aa
                 end) aa [bs "ip"; bs "ipv4"; bs "ipv6"].

(** The addresses of the values of a header, each a comma-separated list. *)
Definition from_header (ipValues : list bytes) (aa : RequestAddresses) : RequestAddresses :=
  foldl (λ aa ipStr,
    foldl (λ aa ipStr,
      let ipStr := TrimSpace ipStr in
      if decide (ipStr = []) then aa else Add aa (parseRequestAddress ipStr false)) aa (Split ","%byte ipStr))
    aa ipValues.

Definition requestedIPs (r : RequestCtx) (qp : Args) (opts : HttpParseOptions) : RequestAddresses :=
  let addresses := if AllowIPSpoofing (hpo_ParseOptions opts) then spoofed qp [] else [] in
  let ipValues := rc_header r (RealIPHeader opts) in
  if bool_decide (ipValues ≠ []) && bool_decide (RealIPHeader opts ≠ []) then from_header ipValues addresses
  else
    let addr := match ParseAddrPort (rc_RemoteAddr r) with Some (a, _) => a | None => AddrNone end in
    Add addresses (MkRequestAddress addr false).

(** A parameter that must be a number. *)
Definition required (qp : Args) (key : bytes) (err : GoError) : result Z :=
  match GetUint qp key with (n, None) => Ok n | (_, Some _) => Err err end.

Definition parseAnnounce (r : RequestCtx) (opts : HttpParseOptions) : result AnnounceRequest :=
  let qp := rc_QueryArgs r in
  event ← match GetString qp (bs "event") with Some s => NewEvent s | None => Ok EvNone end;
  let EventProvided := bool_decide (is_Some (GetString qp (bs "event"))) in
  ih ← match InfoHashes qp with
       | [] => Err errNoInfoHash
       | [ih] => Ok ih
       | _ => Err errMultipleInfoHashes
       end;
  id ← match NewPeerID (default [] (Peek qp (bs "peer_id"))) with
       | Ok id => Ok id
       | Err _ => Err errInvalidPeerID
       end;
  left ← required qp (bs "left") errInvalidParameterLeft;
  downloaded ← required qp (bs "downloaded") errInvalidParameterDownloaded;
  uploaded ← required qp (bs "uploaded") errInvalidParameterUploaded;
  let '(numWant, err) := GetUint qp (bs "numwant") in
  if bool_decide (err ≠ None ∧ err ≠ Some ErrNoArgValue) then Err errInvalidParameterNumWant
  else
    port ← required qp (bs "port") ErrInvalidPort;
    SanitizeAnnounce
      (MkAnnounceRequest event ih EventProvided (bool_decide (err = None)) (wrap 32 numWant)
         (wrap 64 left) (wrap 64 downloaded) (wrap 64 uploaded)
         (MkRequestPeer id (wrap 16 port) (requestedIPs r qp opts)) (Some (GetString qp)))
      (MaxNumWant (hpo_ParseOptions opts)) (DefaultNumWant (hpo_ParseOptions opts))
      (FilterPrivateIPs (hpo_ParseOptions opts)).

Definition parseScrape (r : RequestCtx) (opts : HttpParseOptions) : result ScrapeRequest :=
  let qp := rc_QueryArgs r in
  let infoHashes := InfoHashes qp in
  if decide (infoHashes = []) then Err errNoInfoHash
  else SanitizeScrape (MkScrapeRequest (requestedIPs r qp opts) infoHashes (Some (GetString qp)))
         (MaxScrapeInfoHashes (hpo_ParseOptions opts)) (FilterPrivateIPs (hpo_ParseOptions opts)).

End Parser.

(** ** Writing *)

Section Writer.
Context `{FastHTTP} `{Shuffle}.

Definition writeErrorResponse (err : GoError) : bytes :=
  let message := error_message err in
  bs "d14:failure reason" ++ Itoa (Z.of_nat (length message)) ++ bs ":" ++ message ++ bs "e".

Definition write_port (port : Z) : bytes := [byte_of_Z (Z.shiftr port 8); byte_of_Z port].

(** [None] is a panic of [AppendUint]. *)
Definition compactAddresses (peers : list Peer) (v6 : bool) : option bytes :=
  let l := length peers in
  if decide (l = 0%nat) then Some []
  else
    let '(key, al) := if v6 then (bs "6:peers6", 16) else (bs "5:peers", 4) in
    n ← AppendUint ((al + 2) * Z.of_nat l);
    Some (key ++ n ++ bs ":" ++ peers ≫= λ peer, AsSlice (Peer_Addr peer) ++ write_port (peer_Port peer)).

Definition dictAddress (peer : Peer) (includePeerID : bool) : option bytes :=
  let addr := Addr_String (Peer_Addr peer) in
  n ← AppendUint (Z.of_nat (length addr));
  Some (bs "d2:ip" ++ n ++ bs ":" ++ addr ++
        (if includePeerID then bs "7:peer id20:" ++ peer_ID peer else []) ++
        bs "4:porti" ++ write_port (peer_Port peer) ++ bs "ee").

Fixpoint dictAddresses (peers : list Peer) (includePeerID : bool) : option bytes :=
  match peers with
  | [] => Some []
  | p :: peers => d ← dictAddress p includePeerID; ds ← dictAddresses peers includePeerID; Some (d ++ ds)
  end.

(** The intervals in seconds, as the writer leaves them in the response. *)
Definition in_seconds (resp : AnnounceResponse) : AnnounceResponse :=
  let interval := if resp_Interval resp >? 0 then Z.quot (resp_Interval resp) Second else resp_Interval resp in
  let minInterval := if interval >? 0 then Z.quot (resp_MinInterval resp) Second else resp_MinInterval resp in
  MkAnnounceResponse (resp_Complete resp) (resp_Incomplete resp) interval minInterval
    (resp_IPv4Peers resp) (resp_IPv6Peers resp).

Definition write_peers (resp : AnnounceResponse) (compact includePeerID : bool) : option bytes :=
  if compact then
    v4 ← compactAddresses (resp_IPv4Peers resp) false;
    v6 ← compactAddresses (resp_IPv6Peers resp) true;
    Some (v4 ++ v6)
  else
    v4 ← dictAddresses (resp_IPv4Peers resp) includePeerID;
    v6 ← dictAddresses (resp_IPv6Peers resp) includePeerID;
    Some (bs "5:peersl" ++ v4 ++ v6 ++ bs "e").

Definition writeAnnounceResponse (resp : AnnounceResponse) (compact includePeerID : bool)
    : option (bytes * AnnounceResponse) :=
  let resp := in_seconds resp in
  complete ← AppendUint (resp_Complete resp);
  incomplete ← AppendUint (resp_Incomplete resp);
  interval ← AppendUint (resp_Interval resp);
  minInterval ← AppendUint (resp_MinInterval resp);
  peers ← write_peers resp compact includePeerID;
  Some (bs "d8:completei" ++ complete ++ bs "e10:incompletei" ++ incomplete ++
        bs "e8:intervali" ++ interval ++ bs "e12:min intervali" ++ minInterval ++ bs "e" ++
        peers ++ bs "e", resp).

(** The order of Go strings. *)
Fixpoint str_le (a b : bytes) : bool :=
  match a, b with
  | [], _ => true
  | _ :: _, [] => false
  | x :: a, y :: b =>
      (byte_to_Z x <? byte_to_Z y) || (byte_to_Z x =? byte_to_Z y) && str_le a b
  end.

Definition scrape_le (a b : Scrape) : Prop := str_le (sc_InfoHash a) (sc_InfoHash b) = true.
#[local] Instance scrape_le_dec : RelDecision scrape_le.
Proof. intros a b. unfold scrape_le. apply _. Defined.

Definition write_file (scrape : Scrape) : option bytes :=
  n ← AppendUint (Z.of_nat (length (sc_InfoHash scrape)));
  complete ← AppendUint (sc_Complete scrape);
  downloaded ← AppendUint (sc_Snatches scrape);
  incomplete ← AppendUint (sc_Incomplete scrape);
  Some (n ++ bs ":" ++ sc_InfoHash scrape ++ bs "d8:completei" ++ complete ++
        bs "e10:downloadedi" ++ downloaded ++ bs "e10:incompletei" ++ incomplete ++ bs "ee").

Fixpoint write_files (data : list Scrape) : option bytes :=
  match data with
  | [] => Some []
  | s :: data => f ← write_file s; fs ← write_files data; Some (f ++ fs)
  end.

(** [sort.Slice] is not stable: a stable sort of a shuffled list gives any of
    its outcomes.  The response is sorted in place. *)
Definition writeScrapeResponse (resp : ScrapeResponse) : option (bytes * ScrapeResponse) :=
  let data := if (1 <? length resp)%nat then merge_sort scrape_le (shuffle resp) else resp in
  files ← write_files data;
  Some (bs "d5:filesd" ++ files ++ bs "ee", data).

End Writer.

(** ** Routes *)

(** [path.Clean]. *)
Definition clean_step (rooted : bool) (out : list bytes) (e : bytes) : list bytes :=
  if bool_decide (e = []) || bool_decide (e = bs ".") then out
  else if bool_decide (e = bs "..") then
    match list.last out with
    | Some x => if decide (x = bs "..") then out ++ [e] else removelast out
    | None => if rooted then out else [e]
    end
  else out ++ [e].

Definition is_abs (s : bytes) : bool := HasPrefix s (bs "/").

Definition Clean (s : bytes) : bytes :=
  let rooted := is_abs s in
  let out := (if rooted then bs "/" else []) ++ str_join (bs "/") (foldl (clean_step rooted) [] (Split "/"%byte s)) in
  if decide (out = []) then bs "." else out.

Inductive route := RouteAnnounce | RouteScrape | RoutePing.

Definition rooted_route (r : bytes) : bytes :=
  let r := Clean r in if is_abs r then r else bs "/" ++ r.

(** [pathRouting]: scrape routes replace announce routes, ping routes both. *)
Definition pathRouting (cfg : Config) : gmap bytes route :=
  let m := foldl (λ m r, <[rooted_route r := RouteAnnounce]> m) ∅ (AnnounceRoutes cfg) in
  let m := foldl (λ m r, <[Clean (rooted_route r) := RouteScrape]> m) m (ScrapeRoutes cfg) in
  foldl (λ m r, <[Clean (rooted_route r) := RoutePing]> m) m (PingRoutes cfg).

(** ** Handlers *)

(** The body and the status written, the error, and the goroutine started. *)
Record outcome := MkOutcome {
  o_body : option bytes;
  o_status : option Z;
  o_err : error;
  o_task : option task;
}.

Record httpFE (S : Type) := MkHttpFE {
  fe_logic : Logic S;
  fe_ParseOptions : HttpParseOptions;
}.
Arguments MkHttpFE {S}.
Arguments fe_logic {S}.
Arguments fe_ParseOptions {S}.

Section Handler.
Context {S : Type} `{FastHTTP} `{Unicode} `{Shuffle}.

Definition fail_with (err : GoError) : outcome := MkOutcome (Some (writeErrorResponse err)) None (Some err) None.

Definition logic_failed (err : GoError) : outcome :=
  if bool_decide (err = ContextCanceled) then MkOutcome None None (Some err) None else fail_with err.

Definition ar_without_params (r : AnnounceRequest) : AnnounceRequest :=
  MkAnnounceRequest (ar_Event r) (ar_InfoHash r) (ar_EventProvided r) (ar_NumWantProvided r) (ar_NumWant r)
    (ar_Left r) (ar_Downloaded r) (ar_Uploaded r) (ar_RequestPeer r) None.

(** [err_after] is what [reqCtx.Err()] returns once the logic has answered. *)
Definition announceRoute (f : httpFE S) (r : RequestCtx) (err_after : error) : M S outcome :=
  match parseAnnounce r (fe_ParseOptions f) with
  | Err e => mret (fail_with e)
  | Ok aReq =>
      let ctx := InjectRouteParamsToContext (rc_Context r) None in
      '(ctx, aResp, err, aReq) ← Logic_HandleAnnounce (fe_logic f) (Some ctx) aReq;
      match err with
      | Some e => mret (logic_failed e)
      | None =>
          match err_after with
          | Some e => mret (MkOutcome None None (Some e) None)
          | None =>
              aResp ← need aResp;
              let qArgs := rc_QueryArgs r in
              '(body, aResp) ← need (writeAnnounceResponse aResp (GetBool qArgs (bs "compact"))
                                       (negb (GetBool qArgs (bs "no_peer_id"))));
              ctx ← need ctx;
              mret (MkOutcome (Some body) None None
                      (Some (AfterAnnounceTask (RemapRouteParamsToBgContext ctx) (ar_without_params aReq) aResp)))
          end
      end
  end.

Definition scrapeRoute (f : httpFE S) (r : RequestCtx) (err_after : error) : M S outcome :=
  match parseScrape r (fe_ParseOptions f) with
  | Err e => mret (fail_with e)
  | Ok req =>
      let ctx := InjectRouteParamsToContext (rc_Context r) None in
      '(ctx, resp, err, req) ← Logic_HandleScrape (fe_logic f) (Some ctx) req;
      match err with
      | Some e => mret (logic_failed e)
      | None =>
          match err_after with
          | Some e => mret (MkOutcome None None (Some e) None)
          | None =>
              resp ← need resp;
              '(body, resp) ← need (writeScrapeResponse resp);
              ctx ← need ctx;
              mret (MkOutcome (Some body) None None
                      (Some (AfterScrapeTask (RemapRouteParamsToBgContext ctx)
                               (MkScrapeRequest (sr_Addresses req) (sr_InfoHashes req) None) resp)))
          end
      end
  end.

Definition StatusOK : Z := 200.
Definition StatusNotFound : Z := 404.
Definition StatusServiceUnavailable : Z := 503.

Definition ping (f : httpFE S) (r : RequestCtx) (err_after : error) : M S outcome :=
  err ← Logic_Ping (fe_logic f) (Some (rc_Context r));
  if bool_decide (err = Some ContextCanceled) then mret (MkOutcome None None err None)
  else
    let status := if bool_decide (err ≠ None) then StatusServiceUnavailable else StatusOK in
    mret (MkOutcome None (match err_after with None => Some status | Some _ => None end) err_after None).

(** The handler [NewFrontend] installs. *)
Definition Handler (f : httpFE S) (routing : gmap bytes route) (r : RequestCtx) (err_after : error) : M S outcome :=
  match routing !! rc_Path r with
  | Some RouteAnnounce => announceRoute f r err_after
  | Some RouteScrape => scrapeRoute f r err_after
  | Some RoutePing => ping f r err_after
  | None => mret (MkOutcome None (Some StatusNotFound) None None)
  end.

End Handler.

(** ** Facts *)

Section WriterFacts.
Context `{FastHTTP} `{Shuffle}.

Lemma write_port_be port : write_port port = be_put 2 port.
Proof. unfold write_port. cbn [be_put app]. by rewrite Z.shiftr_div_pow2. Qed.

(** The value an announce answer stands for; [resp] has its intervals in seconds. *)
Definition peers_entry (key : bytes) (peers : list Peer) : list (bytes * bvalue) :=
  if decide (peers = []) then [] else [(key, BStr (peers ≫= write_peer))].

Definition announce_value (resp : AnnounceResponse) : bvalue :=
  BDict ([(bs "complete", BInt (resp_Complete resp)); (bs "incomplete", BInt (resp_Incomplete resp));
          (bs "interval", BInt (resp_Interval resp)); (bs "min interval", BInt (resp_MinInterval resp))] ++
         peers_entry (bs "peers") (resp_IPv4Peers resp) ++ peers_entry (bs "peers6") (resp_IPv6Peers resp)).

Lemma length_write_peers v6 peers :
  Forall (peer_wf v6) peers → length (peers ≫= write_peer) = ((addr_len v6 + 2) * length peers)%nat.
Proof.
  induction 1 as [|p peers [Ha _] Hp IH]; [simpl; lia|].
  change ((p :: peers) ≫= write_peer) with (write_peer p ++ peers ≫= write_peer).
  rewrite length_app, IH. unfold write_peer. rewrite length_app, length_be_put, (length_AsSlice_family v6) by done.
  cbn [length]. lia.
Qed.

Definition bencode_entries (d : list (bytes * bvalue)) : bytes :=
  concat (map (λ kv, bencode_str kv.1 ++ bencode kv.2) d).

(** A compact list of peers is the entry of a dictionary. *)
Lemma compactAddresses_entry peers v6 :
  Forall (peer_wf v6) peers →
  compactAddresses peers v6 = Some (bencode_entries (peers_entry (if v6 then bs "peers6" else bs "peers") peers)).
Proof.
  intros Hp. unfold compactAddresses, peers_entry.
  destruct (decide (peers = [])) as [->|Hne]; [done|].
  rewrite decide_False by (by destruct peers).
  pose proof (length_write_peers v6 peers Hp) as Hl.
  assert (peers ≫= (λ peer, AsSlice (Peer_Addr peer) ++ write_port (peer_Port peer)) = peers ≫= write_peer) as ->.
  { clear -peers. induction peers as [|p peers IH]; [done|]. cbn [mbind list_bind] in *.
    by rewrite IH, write_port_be. }
  unfold bencode_entries. cbn [map concat fst snd bencode]. rewrite app_nil_r. unfold bencode_str at 2.
  rewrite Hl. destruct v6; cbv beta iota zeta; rewrite append_uint_spec by lia; cbn [mbind option_bind]; unfold addr_len.
  - change (bencode_str (bs "peers6")) with (bs "6:peers6").
    replace ((16 + 2) * Z.of_nat (length peers)) with (Z.of_nat ((16 + 2) * length peers)) by lia.
    reflexivity.
  - change (bencode_str (bs "peers")) with (bs "5:peers").
    replace ((4 + 2) * Z.of_nat (length peers)) with (Z.of_nat ((4 + 2) * length peers)) by lia.
    reflexivity.
Qed.

Lemma bencode_entries_app d1 d2 : bencode_entries (d1 ++ d2) = bencode_entries d1 ++ bencode_entries d2.
Proof. unfold bencode_entries. by rewrite map_app, concat_app. Qed.

(** The compact answer is the encoding of its value. *)
Lemma writeAnnounceResponse_bencode resp includePeerID :
  let r := in_seconds resp in
  0 <= resp_Complete r → 0 <= resp_Incomplete r → 0 <= resp_Interval r → 0 <= resp_MinInterval r →
  Forall (peer_wf false) (resp_IPv4Peers r) → Forall (peer_wf true) (resp_IPv6Peers r) →
  writeAnnounceResponse resp true includePeerID = Some (bencode (announce_value r), r).
Proof.
  intros r Hc Hi Hiv Hmi H4 H6. unfold writeAnnounceResponse. fold r.
  rewrite !append_uint_spec by done. cbn [mbind option_bind write_peers].
  rewrite !compactAddresses_entry by done. cbn [mbind option_bind]. do 2 f_equal.
  change (bencode (announce_value r)) with (bs "d" ++ bencode_entries (
    [(bs "complete", BInt (resp_Complete r)); (bs "incomplete", BInt (resp_Incomplete r));
     (bs "interval", BInt (resp_Interval r)); (bs "min interval", BInt (resp_MinInterval r))] ++
     peers_entry (bs "peers") (resp_IPv4Peers r) ++ peers_entry (bs "peers6") (resp_IPv6Peers r)) ++ bs "e").
  rewrite !bencode_entries_app. set (p4 := bencode_entries (peers_entry _ (resp_IPv4Peers r))).
  set (p6 := bencode_entries (peers_entry _ (resp_IPv6Peers r))).
  unfold bencode_entries at 1. cbn [map concat fst snd bencode].
  change (bencode_str (bs "complete")) with (bs "8:complete").
  change (bencode_str (bs "incomplete")) with (bs "10:incomplete").
  change (bencode_str (bs "interval")) with (bs "8:interval").
  change (bencode_str (bs "min interval")) with (bs "12:min interval").
  rewrite <-!app_assoc. reflexivity.
Qed.

Lemma peers_entry_wf key v6 peers :
  Forall (peer_wf v6) peers → (length key <= 100)%nat → Z.of_nat (length peers) < 2 ^ 32 →
  bvalue_wf (BDict (peers_entry key peers)).
Proof.
  intros Hp Hk Hl. unfold peers_entry. case_decide; [done|]. cbn [bvalue_wf foldr fst snd].
  split; [|done]. split; [by apply small_key|]. rewrite (length_write_peers v6) by done.
  unfold uint, addr_len. destruct v6; lia.
Qed.

Lemma bvalue_wf_app d1 d2 : bvalue_wf (BDict d1) → bvalue_wf (BDict d2) → bvalue_wf (BDict (d1 ++ d2)).
Proof.
  intros H1 H2. induction d1 as [|kv d1 IH]; [done|]. destruct H1 as [Hkv H1]. split; [exact Hkv|].
  apply IH, H1.
Qed.

Lemma announce_value_wf r :
  uint 32 (resp_Complete r) → uint 32 (resp_Incomplete r) →
  sint 64 (resp_Interval r) → sint 64 (resp_MinInterval r) →
  Forall (peer_wf false) (resp_IPv4Peers r) → Forall (peer_wf true) (resp_IPv6Peers r) →
  Z.of_nat (length (resp_IPv4Peers r)) < 2 ^ 32 → Z.of_nat (length (resp_IPv6Peers r)) < 2 ^ 32 →
  bvalue_wf (announce_value r).
Proof.
  intros Hc%uint32_sint64 Hi%uint32_sint64 Hiv Hmi H4 H6 Hl4 Hl6. unfold announce_value.
  apply bvalue_wf_app; [|apply bvalue_wf_app].
  - repeat split; cbn [fst snd bvalue_wf]; solve [small_key|apply Hc|apply Hi|apply Hiv|apply Hmi].
  - apply (peers_entry_wf _ false); [done| |done]. vm_compute. repeat constructor.
  - apply (peers_entry_wf _ true); [done| |done]. vm_compute. repeat constructor.
Qed.

(** The entry of a file in a scrape answer. *)
Definition file_value (s : Scrape) : bytes * bvalue :=
  (sc_InfoHash s, BDict [(bs "complete", BInt (sc_Complete s)); (bs "downloaded", BInt (sc_Snatches s));
                         (bs "incomplete", BInt (sc_Incomplete s))]).

Definition scrape_value (data : list Scrape) : bvalue := BDict [(bs "files", BDict (map file_value data))].

Definition scrape_wf (s : Scrape) : Prop :=
  uint 32 (sc_Complete s) ∧ uint 32 (sc_Snatches s) ∧ uint 32 (sc_Incomplete s) ∧
  uint 63 (Z.of_nat (length (sc_InfoHash s))).

Lemma write_files_entries data :
  Forall scrape_wf data → write_files data = Some (bencode_entries (map file_value data)).
Proof.
  induction 1 as [|s data ((? & _) & (? & _) & (? & _) & _) Hd IH]; [done|]. cbn [write_files map].
  unfold write_file. rewrite !append_uint_spec by lia. cbn [mbind option_bind]. rewrite IH. cbn [mbind option_bind].
  change (bencode_entries (file_value s :: map file_value data))
    with ((bencode_str (sc_InfoHash s) ++ bencode (BDict [(bs "complete", BInt (sc_Complete s));
      (bs "downloaded", BInt (sc_Snatches s)); (bs "incomplete", BInt (sc_Incomplete s))])) ++
      bencode_entries (map file_value data)).
  cbn [bencode map concat fst snd].
  change (bencode_str (bs "complete")) with (bs "8:complete").
  change (bencode_str (bs "downloaded")) with (bs "10:downloaded").
  change (bencode_str (bs "incomplete")) with (bs "10:incomplete").
  unfold bencode_str. rewrite <-!app_assoc. reflexivity.
Qed.

Lemma scrape_value_wf data : Forall scrape_wf data → bvalue_wf (scrape_value data).
Proof.
  intros Hd. unfold scrape_value. cbn [bvalue_wf foldr fst snd]. split; [|done].
  split; [small_key|].
  induction Hd as [|s data (Hc%uint32_sint64 & Hs%uint32_sint64 & Hi%uint32_sint64 & Hl) Hd IH]; [done|].
  cbn [map foldr file_value fst snd bvalue_wf]. split; [|exact IH]. split; [done|].
  split; [split; [small_key|done]|]. split; [split; [small_key|done]|]. split; [split; [small_key|done]|done].
Qed.

Lemma str_le_total a b : str_le a b = true ∨ str_le b a = true.
Proof.
  revert b. induction a as [|x a IH]; intros [|y b]; auto. simpl.
  destruct (Z.lt_trichotomy (byte_to_Z x) (byte_to_Z y)) as [Hl|[He|Hg]].
  - left. by rewrite (proj2 (Z.ltb_lt _ _) Hl).
  - rewrite He, Z.ltb_irrefl, Z.eqb_refl. simpl. apply IH.
  - right. by rewrite (proj2 (Z.ltb_lt _ _) Hg).
Qed.

#[local] Instance scrape_le_total : Total scrape_le.
Proof. intros a b. apply str_le_total. Qed.

(** What the scrape answer is written from. *)
Lemma writeScrapeResponse_bencode resp :
  Forall scrape_wf resp →
  ∃ data, writeScrapeResponse resp = Some (bencode (scrape_value data), data) ∧
    data ≡ₚ resp ∧ Sorted scrape_le data.
Proof.
  intros Hr. unfold writeScrapeResponse. set (data := if (1 <? length resp)%nat then _ else resp).
  assert (data ≡ₚ resp ∧ Sorted scrape_le data) as [Hp Hs].
  { subst data. destruct (Nat.ltb_spec 1 (length resp)) as [Hlt|Hle].
    - split; [by rewrite merge_sort_Permutation, shuffle_perm|]. apply Sorted_merge_sort, _.
    - split; [done|]. destruct resp as [|s [|]]; simpl in Hle; [constructor|by repeat constructor|lia]. }
  exists data. split; [|done]. rewrite write_files_entries by by rewrite Hp.
  cbn [mbind option_bind]. do 2 f_equal.
  change (bencode (scrape_value data)) with
    (bs "d" ++ (bencode_str (bs "files") ++ (bs "d" ++ bencode_entries (map file_value data) ++ bs "e") ++ []) ++ bs "e").
  change (bencode_str (bs "files")) with (bs "5:files"). rewrite app_nil_r, <-!app_assoc. reflexivity.
Qed.

(** Reading stops at the first entry that cannot be read. *)
Lemma read_many_None {A} (dec : bytes → option (A * bytes)) (enc : A → bytes) l fuel s :
  Forall (λ x, reads dec (enc x) x ∧ starts_value (enc x)) l → starts_value s → dec s = None →
  read_many fuel dec (concat (map enc l) ++ s) = None.
Proof.
  intros Hl (c & t & -> & Hne) Hn. revert fuel. induction Hl as [|x l [Hr (c' & t' & Hc & Hne')] Hl IH]; intros fuel.
  - destruct fuel; [done|]. cbn [map concat app read_many]. unfold byte_eqb. rewrite bool_decide_false by done.
    by rewrite Hn.
  - destruct fuel as [|fuel]; [done|]. cbn [map concat]. rewrite <-app_assoc.
    specialize (Hr (concat (map enc l) ++ c :: t)). rewrite Hc in Hr |- *.
    cbn [app read_many] in *. unfold byte_eqb at 1. rewrite bool_decide_false by done.
    rewrite Hr. cbn [mbind option_bind]. by rewrite IH.
Qed.

End WriterFacts.

(** ** Properties *)

Section Properties.
Context `{FastHTTP} `{Shuffle}.

(** C20: a client reads back what the tracker answers to an announce in the
    compact form: the body is one bencoded dictionary with the counts, both
    intervals in seconds and, per family that has any, the peers; reading those
    strings gives the address and port of every peer, in order. *)
Theorem http_announce_roundtrip (resp : AnnounceResponse) (includePeerID : bool) :
  uint 32 (resp_Complete resp) → uint 32 (resp_Incomplete resp) →
  Second <= resp_Interval resp → sint 64 (resp_Interval resp) →
  0 <= resp_MinInterval resp → sint 64 (resp_MinInterval resp) →
  Forall (peer_wf false) (resp_IPv4Peers resp) → Forall (peer_wf true) (resp_IPv6Peers resp) →
  Z.of_nat (length (resp_IPv4Peers resp)) < 2 ^ 32 → Z.of_nat (length (resp_IPv6Peers resp)) < 2 ^ 32 →
  let peers_at key peers := if decide (peers = []) then [] else [(key, BStr (peers ≫= write_peer))] in
  ∃ body resp', writeAnnounceResponse resp true includePeerID = Some (body, resp') ∧
    bdecode_all body = Some (BDict (
      [(bs "complete", BInt (resp_Complete resp)); (bs "incomplete", BInt (resp_Incomplete resp));
       (bs "interval", BInt (resp_Interval resp / Second));
       (bs "min interval", BInt (resp_MinInterval resp / Second))] ++
      peers_at (bs "peers") (resp_IPv4Peers resp) ++ peers_at (bs "peers6") (resp_IPv6Peers resp))) ∧
    ∀ v6 : bool, let peers := if v6 then resp_IPv6Peers resp else resp_IPv4Peers resp in
      decode_peers (length (peers ≫= write_peer)) (addr_len v6) (peers ≫= write_peer) =
        Some ((λ p, (AsSlice (Peer_Addr p), peer_Port p)) <$> peers).
Proof.
  intros Hc Hi Hiv Hiv' Hmi Hmi' H4 H6 Hl4 Hl6 peers_at.
  assert (1 <= resp_Interval resp / Second) as Hsec by (apply Z.div_le_lower_bound; unfold Second in *; lia).
  assert (in_seconds resp = MkAnnounceResponse (resp_Complete resp) (resp_Incomplete resp)
    (resp_Interval resp / Second) (resp_MinInterval resp / Second) (resp_IPv4Peers resp) (resp_IPv6Peers resp)) as Hr.
  { unfold in_seconds. rewrite Z.gtb_ltb, (proj2 (Z.ltb_lt _ _)) by (unfold Second in *; lia).
    rewrite !Z.quot_div_nonneg by (unfold Second in *; lia).
    rewrite Z.gtb_ltb, (proj2 (Z.ltb_lt _ _)) by lia. done. }
  assert (∀ z, 0 <= z → sint 64 z → sint 64 (z / Second) ∧ 0 <= z / Second) as Hdiv.
  { unfold sint, Second. intros z Hz Hb. assert (0 <= z / 1000000000) by (apply Z.div_pos; lia).
    assert (z / 1000000000 <= z) by (apply Z.div_le_upper_bound; lia). lia. }
  destruct (Hdiv (resp_Interval resp) ltac:(unfold Second in *; lia) Hiv') as [Hd1 Hd1']. destruct (Hdiv _ Hmi Hmi') as [Hd2 Hd2'].
  destruct Hc as [Hc Hc'], Hi as [Hi Hi'].
  pose proof (writeAnnounceResponse_bencode resp includePeerID) as Hw. cbv zeta in Hw. rewrite Hr in Hw.
  eexists _, _. split; [by apply Hw|]. split.
  - rewrite bdecode_all_bencode; [done|]. by apply announce_value_wf.
  - intros v6. apply decode_write_peers; [by destruct v6|done].
Qed.

(** C29: and to a scrape: the body is one bencoded dictionary that holds, sorted
    by info hash, the counts of every entry of the response. *)
Theorem http_scrape_roundtrip (resp : ScrapeResponse) :
  Forall scrape_wf resp →
  ∃ body data, writeScrapeResponse resp = Some (body, data) ∧
    data ≡ₚ resp ∧ Sorted scrape_le data ∧
    bdecode_all body = Some (BDict [(bs "files", BDict ((λ s, (sc_InfoHash s,
      BDict [(bs "complete", BInt (sc_Complete s)); (bs "downloaded", BInt (sc_Snatches s));
             (bs "incomplete", BInt (sc_Incomplete s))])) <$> data))]).
Proof.
  intros Hr. destruct (writeScrapeResponse_bencode resp Hr) as (data & E & Hp & Hs).
  eexists _, data. split; [exact E|]. split; [done|]. split; [done|].
  rewrite bdecode_all_bencode; [done|]. apply scrape_value_wf. by rewrite Hp.
Qed.

(** The port of a peer in the dictionary form, as a decoder meets it. *)
Lemma bdecode_int_raw_port port s :
  0 <= port < 0x2b00 → bdecode_int (write_port port ++ bs "ee" ++ s) = None.
Proof.
  intros Hp. unfold write_port, bdecode_int.
  set (hi := byte_of_Z (Z.shiftr port 8)). set (lo := byte_of_Z port).
  assert (byte_to_Z hi < 0x2b) as Hhi.
  { subst hi. rewrite byte_to_of_Z, Z.shiftr_div_pow2 by lia. change (2 ^ 8) with 256.
    assert (0 <= port / 256 < 0x2b) by (split; [apply Z.div_pos; lia|apply Z.div_lt_upper_bound; lia]).
    rewrite Z.mod_small; lia. }
  assert (∀ t, ParseInt (hi :: t) 64 = Err ErrSyntax) as Hpi.
  { intros t. unfold ParseInt. assert (is_digit hi = false) as Hd.
    { unfold is_digit. apply andb_false_iff. left. apply Z.leb_gt. lia. }
    assert (hi ≠ x2d ∧ hi ≠ x2b) as [H1 H2] by (split; intros E; rewrite E in Hhi; vm_compute in Hhi; done).
    assert (∀ b, ParseUint (hi :: t) b = Err ErrSyntax) as Hpu.
    { intros b. unfold ParseUint. cbn [forallb]. by rewrite Hd, orb_true_r. }
    destruct hi; try done; by rewrite Hpu. }
  assert (byte_eqb "e"%byte hi = false) as He.
  { unfold byte_eqb. apply bool_decide_eq_false_2. intros E. rewrite <-E in Hhi. vm_compute in Hhi. done. }
  cbn [app index_of]. rewrite He. destruct (byte_eqb "e"%byte lo); cbn [fmap option_fmap option_map].
  - cbn [mbind option_bind take]. by rewrite Hpi.
  - change (bs "ee" ++ s) with ("e"%byte :: "e"%byte :: s). cbn [index_of].
    change (byte_eqb "e"%byte "e"%byte) with true. cbn [fmap option_fmap option_map mbind option_bind take].
    by rewrite Hpi.
Qed.

(** An entry whose value cannot be read. *)
Definition entry_dec (fuel : nat) (s : bytes) : option ((bytes * bvalue) * bytes) :=
  '(k, s) ← bdecode_str s; '(v, s) ← bdecode fuel s; Some ((k, v), s).

Definition entry_enc (kv : bytes * bvalue) : bytes := bencode_str kv.1 ++ bencode kv.2.

Lemma entry_reads fuel kv :
  bvalue_wf (BDict [kv]) → (bsize kv.2 ≤ fuel)%nat → reads (entry_dec fuel) (entry_enc kv) kv ∧ starts_value (entry_enc kv).
Proof.
  destruct kv as [k v]. intros [[Hk Hv] _] Hf. unfold entry_dec, entry_enc. cbn [fst snd] in *. split.
  - intros rest. rewrite <-app_assoc, (bdecode_str_reads k Hk). cbn [mbind option_bind].
    by rewrite (bdecode_bencode v fuel Hv Hf rest).
  - destruct (bencode_str_starts k) as (c & t & -> & Hd). eexists _, _. split; [done|]. by intros ->.
Qed.

Lemma bdecode_dict_None fuel (d : list (bytes * bvalue)) k s :
  bvalue_wf (BDict d) → Forall (λ kv, bsize kv.2 = 1%nat) d → uint 63 (Z.of_nat (length k)) →
  (∀ fuel', (fuel' < fuel)%nat → bdecode fuel' s = None) →
  bdecode fuel (bs "d" ++ concat (map entry_enc d) ++ bencode_str k ++ s) = None.
Proof.
  intros Hwf Hsz Hk Hs. destruct fuel as [|fuel]; [done|]. change (bs "d") with ["d"%byte].
  cbn [app bdecode]. change (byte_eqb "d"%byte "i"%byte) with false. change (byte_eqb "d"%byte "l"%byte) with false.
  change (byte_eqb "d"%byte "d"%byte) with true. cbv iota. fold (entry_dec fuel).
  destruct fuel as [|fuel]; [done|].
  assert (Forall (λ kv, reads (entry_dec (S fuel)) (entry_enc kv) kv ∧ starts_value (entry_enc kv)) d) as Hd.
  { clear Hs. induction Hsz as [|kv d Hkv Hsz IH]; [by constructor|]. destruct Hwf as [Hw Hwf].
    constructor; [|by apply IH]. apply entry_reads; [by split|]. rewrite Hkv. lia. }
  change (λ s0, '(k0, s1) ← bdecode_str s0; '(v, s2) ← bdecode (S fuel) s1; Some (k0, v, s2)) with (entry_dec (S fuel)).
  rewrite (read_many_None _ entry_enc); [done|done| |].
  - destruct (bencode_str_starts k) as (c & t & -> & Hdg). eexists _, _. split; [done|]. by intros ->.
  - unfold entry_dec. rewrite (bdecode_str_reads k Hk). cbn [mbind option_bind]. rewrite Hs by lia. done.
Qed.

(** The dictionary of a peer whose port the decoder meets raw. *)
Lemma bdecode_dictAddress fuel p includePeerID d s :
  length (peer_ID p) = PeerIDLen → 0 <= peer_Port p < 0x2b00 →
  uint 63 (Z.of_nat (length (Addr_String (Peer_Addr p)))) →
  dictAddress p includePeerID = Some d → bdecode fuel (d ++ s) = None.
Proof.
  intros Hid Hport Hlen. unfold dictAddress. rewrite append_uint_spec by lia. cbn [mbind option_bind].
  intros <-%(inj Some).
  set (entries := (bs "ip", BStr (Addr_String (Peer_Addr p))) ::
    (if includePeerID then [(bs "peer id", BStr (peer_ID p))] else [])).
  assert (bvalue_wf (BDict entries)) as Hwf.
  { subst entries. split; [split; [small_key|exact Hlen]|]. destruct includePeerID; [|done].
    split; [split; [small_key|]|done]. apply small_key. cbn [snd]. rewrite Hid. unfold PeerIDLen. lia. }
  rewrite <-(bdecode_dict_None fuel entries (bs "port") (bs "i" ++ write_port (peer_Port p) ++ bs "ee" ++ s)).
  - f_equal. subst entries. unfold entry_enc. cbn [map concat fst snd bencode].
    change (bencode_str (bs "ip")) with (bs "2:ip"). change (bencode_str (bs "port")) with (bs "4:port").
    destruct includePeerID; cbn [map concat fst snd bencode].
    + change (bencode_str (bs "peer id")) with (bs "7:peer id"). unfold bencode_str. rewrite Hid.
      rewrite <-!app_assoc. reflexivity.
    + unfold bencode_str. rewrite <-!app_assoc. reflexivity.
  - exact Hwf.
  - subst entries. constructor; [done|]. destruct includePeerID; by repeat constructor.
  - small_key.
  - intros fuel' _. destruct fuel'; [done|]. change (bs "i") with ["i"%byte]. cbn [app bdecode].
    change (byte_eqb "i"%byte "i"%byte) with true. cbv iota. by rewrite bdecode_int_raw_port.
Qed.

Lemma dictAddress_starts p includePeerID d : dictAddress p includePeerID = Some d → ∃ u, d = "d"%byte :: u.
Proof.
  unfold dictAddress. destruct (AppendUint _); [|done]. intros <-%(inj Some). by eexists.
Qed.

(** The answer in dictionary form cannot be read: the port of a peer is
    written as its two raw bytes where bencoding has the digits of a number, so
    that the body of every answer whose first peer has a port below 11008 is
    refused by a decoder. *)
Theorem dict_answer_unreadable (resp : AnnounceResponse) (includePeerID : bool) (p : Peer) (ps : list Peer)
    (body : bytes) (resp' : AnnounceResponse) :
  resp_IPv4Peers resp ++ resp_IPv6Peers resp = p :: ps →
  length (peer_ID p) = PeerIDLen → 0 <= peer_Port p < 11008 →
  (length (Addr_String (Peer_Addr p)) <= 100)%nat →
  uint 32 (resp_Complete resp) → uint 32 (resp_Incomplete resp) →
  uint 63 (resp_Interval (in_seconds resp)) → uint 63 (resp_MinInterval (in_seconds resp)) →
  writeAnnounceResponse resp false includePeerID = Some (body, resp') →
  bdecode_all body = None.
Proof.
  intros Hps Hid Hport Hlen%small_key Hc Hi Hiv Hmi. unfold writeAnnounceResponse.
  set (r := in_seconds resp) in *.
  rewrite !append_uint_spec by (apply Hc || apply Hi || apply Hiv || apply Hmi). cbn [mbind option_bind write_peers].
  destruct (dictAddresses (resp_IPv4Peers r) includePeerID) as [v4|] eqn:E4; [|done]. cbn [mbind option_bind].
  destruct (dictAddresses (resp_IPv6Peers r) includePeerID) as [v6|] eqn:E6; [|done]. cbn [mbind option_bind].
  intros [E _]%(inj Some)%pair_equal_spec.
  assert (∃ d t, dictAddress p includePeerID = Some d ∧ v4 ++ v6 = d ++ t) as (d & t & Ed & Et).
  { revert E4 E6. change (resp_IPv4Peers r) with (resp_IPv4Peers resp). change (resp_IPv6Peers r) with (resp_IPv6Peers resp).
    destruct (resp_IPv4Peers resp) as [|p4 l4]; cbn [app] in Hps.
    - rewrite Hps. intros [= <-]. cbn [dictAddresses]. destruct (dictAddress p _) as [d|]; [|done]. cbn [mbind option_bind].
      destruct (dictAddresses ps _) as [ds|]; [|done]. intros [= <-]. by exists d, ds.
    - injection Hps as -> _. cbn [dictAddresses]. destruct (dictAddress p _) as [d|]; [|done]. cbn [mbind option_bind].
      destruct (dictAddresses l4 _) as [ds|]; [|done]. intros [= <-] _. exists d, (ds ++ v6). by rewrite <-app_assoc. }
  set (entries := [(bs "complete", BInt (resp_Complete r)); (bs "incomplete", BInt (resp_Incomplete r));
     (bs "interval", BInt (resp_Interval r)); (bs "min interval", BInt (resp_MinInterval r))]).
  assert (body = bs "d" ++ concat (map entry_enc entries) ++ bencode_str (bs "peers") ++
    (bs "l" ++ d ++ t ++ bs "ee")) as ->.
  { rewrite <-E. replace ((bs "5:peersl" ++ v4 ++ v6 ++ bs "e") ++ bs "e")
      with (bs "5:peersl" ++ (v4 ++ v6) ++ bs "ee") by (by rewrite <-!app_assoc).
    rewrite Et. subst entries. unfold entry_enc. cbn [map concat fst snd bencode].
    change (bencode_str (bs "complete")) with (bs "8:complete").
    change (bencode_str (bs "incomplete")) with (bs "10:incomplete").
    change (bencode_str (bs "interval")) with (bs "8:interval").
    change (bencode_str (bs "min interval")) with (bs "12:min interval").
    change (bencode_str (bs "peers")) with (bs "5:peers"). rewrite <-!app_assoc. reflexivity. }
  unfold bdecode_all. rewrite bdecode_dict_None; [done| | |small_key|].
  - subst entries. repeat split; cbn [fst snd bvalue_wf];
      first [small_key|apply uint32_sint64; [exact Hc || exact Hi]|unfold uint in Hiv, Hmi; lia].
  - repeat constructor.
  - intros fuel _. destruct fuel as [|fuel]; [done|]. change (bs "l") with ["l"%byte]. cbn [app bdecode].
    change (byte_eqb "l"%byte "i"%byte) with false. change (byte_eqb "l"%byte "l"%byte) with true. cbv iota.
    assert (read_many fuel (bdecode fuel) (d ++ t ++ bs "ee") = None) as ->; [|done].
    apply (read_many_None (bdecode fuel) bencode [] fuel (d ++ t ++ bs "ee")); [constructor| |].
    + destruct (dictAddress_starts _ _ _ Ed) as [u ->]. by eexists _, _.
    + by apply (bdecode_dictAddress _ p includePeerID).
Qed.

End Properties.

Section ParserFacts.
Context `{FastHTTP} `{Unicode} `{Shuffle}.

Lemma required_inv qp key err n : required qp key err = Ok n → GetUint qp key = (n, None).
Proof. unfold required. destruct (GetUint qp key) as [m [e|]]; [done|]. by intros [= ->]. Qed.

Lemma result_bind_Ok {A B} (r : result A) (f : A → result B) b :
  (r ≫= f) = Ok b → ∃ a, r = Ok a ∧ f a = Ok b.
Proof. destruct r; [|done]. eauto. Qed.

Lemma InfoHashes_wf (qp : Args) ih : ih ∈ InfoHashes qp → InfoHash_wf ih.
Proof.
  unfold InfoHashes. intros (b & _ & Hb)%list_elem_of_omap.
  destruct (NewInfoHash b) eqn:E; [|done]. injection Hb as ->. by eapply NewInfoHash_wf.
Qed.

(** What an accepted HTTP announce says: it has exactly one valid info hash
    and a peer ID of 20 bytes; "left", "downloaded" and "uploaded" are given;
    the port is given and is its value modulo 65536, which is not 0; the event
    is the one named, or none; at least one acceptable address is known; and
    the number of peers wanted, modulo 2^32, is cut at the maximum, or the
    default when it is not given. *)
Theorem http_announce_accepted (r : RequestCtx) (opts : HttpParseOptions) (req : AnnounceRequest) :
  let qp := rc_QueryArgs r in
  let po := hpo_ParseOptions opts in
  parseAnnounce r opts = Ok req →
  InfoHashes qp = [ar_InfoHash req] ∧ InfoHash_wf (ar_InfoHash req) ∧
  Peek qp (bs "peer_id") = Some (rp_ID (ar_RequestPeer req)) ∧
  length (rp_ID (ar_RequestPeer req)) = PeerIDLen ∧
  (∃ left downloaded uploaded port,
     GetUint qp (bs "left") = (left, None) ∧ ar_Left req = left mod 2 ^ 64 ∧
     GetUint qp (bs "downloaded") = (downloaded, None) ∧ ar_Downloaded req = downloaded mod 2 ^ 64 ∧
     GetUint qp (bs "uploaded") = (uploaded, None) ∧ ar_Uploaded req = uploaded mod 2 ^ 64 ∧
     GetUint qp (bs "port") = (port, None) ∧ rp_Port (ar_RequestPeer req) = port mod 65536) ∧
  rp_Port (ar_RequestPeer req) ≠ 0 ∧
  match Peek qp (bs "event") with
  | Some s => NewEvent s = Ok (ar_Event req)
  | None => ar_Event req = EvNone
  end ∧
  ar_Addresses req ≠ [] ∧ Forall (λ a, keeps (FilterPrivateIPs po) a = true) (ar_Addresses req) ∧
  ar_NumWant req =
    match GetUint qp (bs "numwant") with
    | (n, None) => Z.min (n mod 2 ^ 32) (MaxNumWant po)
    | (_, Some _) => DefaultNumWant po
    end.
Proof.
  intros qp po. unfold parseAnnounce. fold qp. fold po. intros Hp.
  apply result_bind_Ok in Hp as (event & Hev & Hp).
  apply result_bind_Ok in Hp as (ih & Hih & Hp).
  apply result_bind_Ok in Hp as (id & Hid & Hp).
  apply result_bind_Ok in Hp as (left & Hl%required_inv & Hp).
  apply result_bind_Ok in Hp as (downloaded & Hd%required_inv & Hp).
  apply result_bind_Ok in Hp as (uploaded & Hu%required_inv & Hp).
  destruct (GetUint qp (bs "numwant")) as [numWant err] eqn:Hn. case_bool_decide as He; [done|].
  apply result_bind_Ok in Hp as (port & Hport%required_inv & Hp).
  match type of Hp with SanitizeAnnounce ?r ?mx ?df ?priv = _ =>
    pose proof (SanitizeAnnounce_spec r mx df priv) as Hs end.
  rewrite Hp in Hs. cbn [ar_RequestPeer rp_Port rp_ID ar_InfoHash ar_Event ar_Left ar_Downloaded ar_Uploaded ar_NumWantProvided ar_NumWant] in Hs.
  destruct Hs as (Hpo & Hpo0 & Hid' & Hih' & Hev' & Hl' & Hdw & Huw & Hne & Hall & Hnw).
  assert (InfoHashes qp = [ih]) as Hihs by (destruct (InfoHashes qp) as [|? []]; [done|by injection Hih as ->|done]).
  destruct (NewPeerID _) as [id'|] eqn:Hnp; [|done]. apply NewPeerID_length in Hnp as [Hpk Hlen].
  injection Hid as ->.
  split; [by rewrite Hihs, Hih'|]. split.
  { rewrite Hih'. apply (InfoHashes_wf qp). rewrite Hihs. by apply list_elem_of_singleton. }
  rewrite Hid', Hpo. split.
  { destruct (Peek qp (bs "peer_id")) as [b|]; simpl in Hpk; [by rewrite Hpk|]. by rewrite <-Hpk in Hlen. }
  split; [done|]. split.
  { exists left, downloaded, uploaded, port. by rewrite Hl', Hdw, Huw. }
  split; [by rewrite <-Hpo|]. split.
  { rewrite Hev'. unfold GetString in Hev. destruct (Peek qp (bs "event")); [done|]. by injection Hev. }
  split; [done|]. split; [done|].
  rewrite Hnw. destruct err as [e|]; [by rewrite bool_decide_false|by rewrite bool_decide_true].
Qed.

Lemma elem_of_Add aa a x : x ∈ Add aa a → x ∈ aa ∨ x = MkRequestAddress (Unmap (ra_Addr a)) (ra_Provided a).
Proof. unfold Add. destruct (ra_IsValid a); [|by left]. by intros [?|?%list_elem_of_singleton]%elem_of_app; [left|right]. Qed.

Lemma from_header_not_provided ipValues aa :
  Forall (λ a, ra_Provided a = false) aa → Forall (λ a, ra_Provided a = false) (from_header ipValues aa).
Proof.
  unfold from_header. revert aa. induction ipValues as [|s ipValues IH]; intros aa Haa; [done|]. cbn [foldl].
  apply IH. clear IH. revert aa Haa. induction (Split ","%byte s) as [|w ws IH]; intros aa Haa; [done|].
  cbn [foldl]. apply IH. case_decide; [done|]. apply list.Forall_forall. intros a [Ha| ->]%elem_of_Add.
  - by eapply list.Forall_forall in Haa.
  - unfold parseRequestAddress. by destruct (ParseAddr _).
Qed.

(** With IP spoofing off, the addresses of a request are not the client's
    choice: none is marked as provided, they are the same for any query, and
    without a trusted header they are the connection's own address or nothing. *)
Theorem no_spoofing (r : RequestCtx) (opts : HttpParseOptions) :
  AllowIPSpoofing (hpo_ParseOptions opts) = false →
  Forall (λ a, ra_Provided a = false) (requestedIPs r (rc_QueryArgs r) opts) ∧
  (∀ qp, requestedIPs r qp opts = requestedIPs r (rc_QueryArgs r) opts) ∧
  (RealIPHeader opts = [] →
   ∀ a, a ∈ requestedIPs r (rc_QueryArgs r) opts →
     ∃ addr port, ParseAddrPort (rc_RemoteAddr r) = Some (addr, port) ∧ ra_Addr a = Unmap addr).
Proof.
  intros Hs. unfold requestedIPs. rewrite Hs. split; [|split; [done|]].
  - destruct (_ && _); [by apply from_header_not_provided|].
    apply list.Forall_forall. by intros a [?%elem_of_nil| ->]%elem_of_Add.
  - intros Hh a. rewrite (bool_decide_false (RealIPHeader opts ≠ [])) by (intros Hn; by apply Hn). rewrite andb_false_r.
    intros Ha. destruct (ParseAddrPort (rc_RemoteAddr r)) as [[addr port]|]; [|by apply elem_of_nil in Ha].
    apply elem_of_Add in Ha as [Ha| ->]; [by apply elem_of_nil in Ha|]. by exists addr, port.
Qed.

End ParserFacts.

(** A number within its bounds, by computation. *)
Ltac small_int := split; [apply Z.leb_le; vm_compute; reflexivity|apply Z.ltb_lt; vm_compute; reflexivity].

(** ** Witnesses: arguments as an association list *)

Definition arg (l : list (bytes * bytes)) (key : bytes) : option bytes :=
  snd <$> list.head (filter (λ kv : bytes * bytes, kv.1 = key) l).

#[refine] Instance simple_http : FastHTTP := {|
  Args := list (bytes * bytes);
  Peek := arg;
  PeekMulti l key := snd <$> filter (λ kv : bytes * bytes, kv.1 = key) l;
  GetUint l key :=
    match default [] (arg l key) with
    | [] => (-1, Some ErrNoArgValue)
    | s => match ParseUint s 63 with Ok n => (n, None) | Err _ => (-1, Some ErrBadUint) end
    end;
  GetBool l key := bool_decide (arg l key = Some (bs "1"));
  AppendUint n := if n <? 0 then None else Some (Itoa n);
|}.
Proof. intros n Hn. by rewrite (proj2 (Z.ltb_ge _ _)). Defined.

Definition ascii_lower : Unicode := {| unicode_to_lower s := s |}.

Definition args1 : @Args simple_http :=
  [(bs "info_hash", replicate 20 xaa); (bs "peer_id", replicate 20 x01); (bs "left", bs "7");
   (bs "downloaded", bs "0"); (bs "uploaded", bs "0"); (bs "port", bs "72417"); (bs "compact", bs "1");
   (bs "ip", bs "9.9.9.9")].
Definition rc1 : @RequestCtx simple_http :=
  @MkRequestCtx simple_http args1 (λ _, []) (bs "5.6.7.8:40000") (bs "/announce") Background.
Definition opts1 : HttpParseOptions := MkHttpParseOptions (MkParseOptions false false 100 50 50) [].
Definition response2 (p : Peer) : AnnounceResponse :=
  MkAnnounceResponse 3 5 (1800 * Second) (900 * Second) [p] [].
Definition peer2 : Peer := MkPeer (replicate 20 x01) (Addr4 0x01020304) 6881.

Lemma http_announce_roundtrip_witness :
  ∃ body resp', @writeAnnounceResponse simple_http (response2 peer2) true false = Some (body, resp') ∧
    bdecode_all body = Some (BDict
      [(bs "complete", BInt 3); (bs "incomplete", BInt 5); (bs "interval", BInt 1800);
       (bs "min interval", BInt 900); (bs "peers", BStr [x01; x02; x03; x04; x1a; xe1]%byte)]).
Proof.
  destruct (@http_announce_roundtrip simple_http (response2 peer2) false)
    as (body & resp' & E & Hd & _).
  - small_int.
  - small_int.
  - apply Z.leb_le. reflexivity.
  - small_int.
  - apply Z.leb_le. reflexivity.
  - small_int.
  - repeat constructor; discriminate.
  - constructor.
  - apply Z.ltb_lt. reflexivity.
  - apply Z.ltb_lt. reflexivity.
  - exists body, resp'. split; [exact E|exact Hd].
Defined.

Lemma http_scrape_roundtrip_witness :
  ∃ body data, @writeScrapeResponse simple_http shuffle_id [MkScrape [x02]%byte 1 2 3; MkScrape [x01]%byte 4 5 6] =
      Some (body, data) ∧ Sorted scrape_le data ∧ is_Some (bdecode_all body).
Proof.
  destruct (@http_scrape_roundtrip simple_http shuffle_id [MkScrape [x02]%byte 1 2 3; MkScrape [x01]%byte 4 5 6])
    as (body & data & E & _ & Hs & Hd).
  - repeat constructor; discriminate.
  - exists body, data. split; [exact E|]. split; [exact Hs|]. rewrite Hd. eexists. reflexivity.
Defined.

Lemma dict_answer_unreadable_witness :
  ∃ body resp', @writeAnnounceResponse simple_http (response2 peer2) false true = Some (body, resp') ∧
    bdecode_all body = None.
Proof.
  destruct (@writeAnnounceResponse simple_http (response2 peer2) false true) as [[body resp']|] eqn:E;
    [|discriminate].
  exists body, resp'. split; [reflexivity|].
  apply (@dict_answer_unreadable simple_http (response2 peer2) true peer2 [] body resp').
  - reflexivity.
  - reflexivity.
  - small_int.
  - vm_compute. repeat constructor.
  - small_int.
  - small_int.
  - small_int.
  - small_int.
  - exact E.
Defined.

Lemma http_announce_accepted_witness :
  ∃ req, @parseAnnounce simple_http ascii_lower shuffle_id rc1 opts1 = Ok req ∧
    rp_Port (ar_RequestPeer req) = 6881 ∧ InfoHash_wf (ar_InfoHash req).
Proof.
  assert (Hok : match @parseAnnounce simple_http ascii_lower shuffle_id rc1 opts1 with
                | Ok _ => true | Err _ => false end = true) by (vm_compute; reflexivity).
  destruct (@parseAnnounce simple_http ascii_lower shuffle_id rc1 opts1) as [req|] eqn:E; [clear Hok|discriminate Hok].
  exists req. split; [reflexivity|].
  destruct (@http_announce_accepted simple_http ascii_lower shuffle_id rc1 opts1 req E)
    as (_ & Hih & _ & _ & (l & d & u & port & _ & _ & _ & _ & _ & _ & Hp & Hport) & _).
  split; [|exact Hih]. rewrite Hport. vm_compute in Hp. injection Hp as <-. reflexivity.
Defined.

Lemma no_spoofing_witness :
  Forall (λ a, ra_Provided a = false) (@requestedIPs simple_http rc1 args1 opts1) ∧
  @requestedIPs simple_http rc1 args1 opts1 = [MkRequestAddress (Addr4 0x05060708) false].
Proof.
  destruct (@no_spoofing simple_http rc1 opts1 eq_refl) as (H1 & _).
  split; [exact H1|reflexivity].
Defined.

(** ** End to end *)

Section EndToEnd.
Context {S : Type} `{StorageSpec S} `{FastHTTP} `{Unicode} `{Shuffle}.

Lemma candidates_short v req resp : answers_announce v req resp →
  0 < total_available v (seeding req) (request_args req) <= ar_NumWant req →
  Z.of_nat (length (response_peers resp)) <= ar_NumWant req ∧
  ∀ q, q ∈ response_peers resp → candidate v (seeding req) (request_args req) q.
Proof.
  intros (_ & _ & _ & Hin & Hlen & _) Ht. rewrite decide_False in Hin, Hlen by lia.
  split; [by apply Hlen|]. intros q [?|[? _]]%Hin; done.
Qed.

(** The answer to an announce that the parser accepts and no hook filled. *)
Lemma announceRoute_plain (f : httpFE S) ai mi (r : RequestCtx) req n s :
  fe_logic f = NewLogic ai mi [] [] → Second <= ai → sint 64 ai → 0 <= mi → sint 64 mi →
  ctx_skip_response (rc_Context r) = false → GetBool (rc_QueryArgs r) (bs "compact") = true →
  parseAnnounce r (fe_ParseOptions f) = Ok req →
  st_inv n s → InfoHash_wf (ar_InfoHash req) → ar_NumWant req < 2 ^ 32 →
  (∀ rl ih q, q ∈ st_view s rl ih → uint 16 (peer_Port q)) →
  0 < total_available (st_view s) (seeding req) (request_args req) <= ar_NumWant req →
  ∃ s' resp task, announceRoute f r None s =
      Some (s', MkOutcome (Some (bencode (announce_value (in_seconds resp)))) None None (Some task)) ∧
    st_view s' ≡ st_view s ∧ answers_announce (st_view s) req resp ∧ resp_Interval resp = ai ∧
    bdecode_all (bencode (announce_value (in_seconds resp))) = Some (announce_value (in_seconds resp)) ∧
    Forall (peer_wf false) (resp_IPv4Peers resp) ∧ Forall (peer_wf true) (resp_IPv6Peers resp).
Proof.
  intros Hl Hai Hai' Hmi Hmi' Hsk Hco Hp Hi Hih Hnw Hports Htot.
  set (ctx1 := InjectRouteParamsToContext (rc_Context r) None).
  destruct (plain_logic_announce ai mi ctx1 req n s Hi Hih ltac:(lia) Hsk) as (s' & resp & E & _ & Hv & Ha & Hiv & Hmiv).
  destruct (candidates_short _ _ _ Ha Htot) as [Hlen Hcand].
  assert (Hps : ∀ q, q ∈ response_peers resp → uint 16 (peer_Port q)).
  { intros q (rl & ih & Hq)%Hcand%candidate_in_view. by eapply Hports. }
  pose proof Ha as (_ & H4 & H6 & _ & _ & _ & Hc & Hic & _). unfold response_peers in Hlen, Hps.
  rewrite length_app in Hlen.
  assert (Forall (peer_wf false) (resp_IPv4Peers resp)) as Hw4.
  { apply list.Forall_forall. intros q Hq. split; [by apply H4|]. apply Hps, elem_of_app. by left. }
  assert (Forall (peer_wf true) (resp_IPv6Peers resp)) as Hw6.
  { apply list.Forall_forall. intros q Hq. split; [by apply H6|]. apply Hps, elem_of_app. by right. }
  assert (uint 32 (resp_Complete resp) ∧ uint 32 (resp_Incomplete resp)) as [Hc32 Hi32].
  { rewrite Hc, Hic. split; apply wrap_uint; lia. }
  assert (∀ z, 0 <= z → sint 64 z → 0 <= Z.quot z Second ∧ sint 64 (Z.quot z Second)) as Hq.
  { intros z Hz Hs. rewrite Z.quot_div_nonneg by (unfold Second; lia). unfold sint, Second in *.
    assert (0 <= z / 1000000000) by (apply Z.div_pos; lia).
    assert (z / 1000000000 <= z) by (apply Z.div_le_upper_bound; lia). lia. }
  assert (1 <= Z.quot ai Second) as Hsec.
  { rewrite Z.quot_div_nonneg by (unfold Second in *; lia). apply Z.div_le_lower_bound; unfold Second in *; lia. }
  assert (in_seconds resp = MkAnnounceResponse (resp_Complete resp) (resp_Incomplete resp) (Z.quot ai Second)
    (Z.quot mi Second) (resp_IPv4Peers resp) (resp_IPv6Peers resp)) as Hr.
  { unfold in_seconds. rewrite Hiv, Hmiv, !Z.gtb_ltb, !(proj2 (Z.ltb_lt _ _)); [done|lia|unfold Second in *; lia..]. }
  destruct (Hq ai ltac:(unfold Second in *; lia) Hai') as [Hq1 Hq1']. destruct (Hq mi Hmi Hmi') as [Hq2 Hq2'].
  exists s', resp. eexists. split; [|split; [done|split; [done|split; [done|split; [|done]]]]].
  - unfold announceRoute. rewrite Hp. cbv beta iota zeta. rewrite Hl. fold ctx1.
    rewrite (M_bind_Some _ _ _ _ _ E). cbv beta iota. cbn [need]. rewrite M_bind_ret_l. rewrite Hco.
    rewrite writeAnnounceResponse_bencode by (rewrite Hr; simpl; first [done|apply Hc32|apply Hi32]).
    cbn [need]. rewrite M_bind_ret_l. cbv beta iota. by rewrite M_bind_ret_l.
  - apply bdecode_all_bencode. rewrite Hr. apply announce_value_wf; simpl; try done; lia.
Qed.

(** C5: the tracker does its job over HTTP: a leecher whose announce the parser
    accepts and that asks for the compact form and for as many peers as there
    are gets a bencoded dictionary whose list of peers of the seeder's family
    holds the address and port of any seeder of the torrent; the interval is the
    configured one and the storage is unchanged until the task after it runs. *)
Theorem http_leecher_finds_seeder (n : nat) (s : S) (f : httpFE S) (ai mi : Z) (r : RequestCtx)
    (req : AnnounceRequest) (q : Peer) :
  fe_logic f = NewLogic ai mi [] [] → Second <= ai → sint 64 ai → 0 <= mi → sint 64 mi →
  ctx_skip_response (rc_Context r) = false → GetBool (rc_QueryArgs r) (bs "compact") = true →
  parseAnnounce r (fe_ParseOptions f) = Ok req →
  st_inv n s → InfoHash_wf (ar_InfoHash req) → ar_Left req ≠ 0 → ar_NumWant req < 2 ^ 32 →
  (∀ rl ih q, q ∈ st_view s rl ih → uint 16 (peer_Port q)) →
  total_available (st_view s) false (request_args req) <= ar_NumWant req →
  q ∈ st_view s Seeder (ar_InfoHash req) → IsValid (Peer_Addr q) = true →
  ∃ s' o body d str peers, announceRoute f r None s = Some (s', o) ∧ st_view s' ≡ st_view s ∧
    o_body o = Some body ∧ bdecode_all body = Some (BDict d) ∧
    (bs "interval", BInt (ai / Second)) ∈ d ∧
    (if Peer_Is6 q then bs "peers6" else bs "peers", BStr str) ∈ d ∧
    decode_peers (length str) (addr_len (Peer_Is6 q)) str = Some peers ∧
    (AsSlice (Peer_Addr q), peer_Port q) ∈ peers.
Proof.
  intros Hl Hai Hai' Hmi Hmi' Hsk Hco Hp Hi Hih Hleft Hnw Hports Htot Hq Hval.
  assert (seeding req = false) as Hse by (unfold seeding; by apply Z.eqb_neq).
  assert (candidate (st_view s) false (request_args req) q) as Hcand.
  { exists (ar_InfoHash req, Peer_Is6 q). split; [apply request_args_families|]. by apply seeder_candidate. }
  pose proof (candidate_available _ _ _ _ Hcand) as Hpos.
  destruct (announceRoute_plain f ai mi r req n s) as (s' & resp & task & E & Hv & Ha & Hiv & Hd & H4 & H6);
    [done..|rewrite Hse; lia|].
  destruct Ha as (_ & H4' & H6' & _ & _ & Hall & _). rewrite Hse in Hall.
  specialize (Hall Htot q Hcand Hval).
  set (peers := if Peer_Is6 q then resp_IPv6Peers resp else resp_IPv4Peers resp).
  assert (q ∈ peers) as Hqp.
  { subst peers. unfold Peer_Is6, response_peers in *. apply elem_of_app in Hall as [Hall|Hall].
    - by rewrite (Is4_Is6 _ (H4' _ Hall)).
    - by rewrite (H6' _ Hall). }
  assert (peers ≠ []) as Hne by (intros E'; rewrite E' in Hqp; by apply elem_of_nil in Hqp).
  exists s'. eexists _, _, _, (peers ≫= write_peer), _. split; [exact E|]. split; [done|]. split; [done|].
  split; [exact Hd|]. unfold in_seconds. cbn [resp_Complete resp_Incomplete resp_Interval resp_MinInterval
    resp_IPv4Peers resp_IPv6Peers]. rewrite Hiv. split; [|split; [|split]].
  - apply elem_of_app. left. rewrite Z.gtb_ltb, (proj2 (Z.ltb_lt _ _)) by (unfold Second in *; lia).
    rewrite Z.quot_div_nonneg by (unfold Second in *; lia). rewrite !list.elem_of_cons. auto.
  - apply elem_of_app. right. apply elem_of_app. subst peers. unfold peers_entry.
    destruct (Peer_Is6 q); [right|left]; rewrite decide_False by done; by apply list_elem_of_singleton.
  - apply (decode_write_peers (Peer_Is6 q)); [subst peers; by destruct (Peer_Is6 q)|done].
  - apply list_elem_of_fmap. by exists q.
Qed.

End EndToEnd.

Import (hints) MemStore.
Definition http1 : httpFE MemStore.world := MkHttpFE (NewLogic (1800 * Second) (900 * Second) [] []) opts1.
(** The request that [rc1] is parsed to. *)
Definition http_request1 : AnnounceRequest :=
  match @parseAnnounce simple_http ascii_lower shuffle_id rc1 opts1 with
  | Ok req => req
  | Err _ => announce1 Started hash1 7
  end.

Lemma parse_rc1 : @parseAnnounce simple_http ascii_lower shuffle_id rc1 opts1 = Ok http_request1.
Proof.
  assert (Hok : match @parseAnnounce simple_http ascii_lower shuffle_id rc1 opts1 with
                | Ok _ => true | Err _ => false end = true) by (vm_compute; reflexivity).
  unfold http_request1. by destruct (@parseAnnounce simple_http ascii_lower shuffle_id rc1 opts1).
Qed.

Lemma http_request1_args :
  request_args http_request1 = fetch_args hash1 false ∧ ar_InfoHash http_request1 = hash1 ∧
  ar_NumWant http_request1 = 50 ∧ ar_Left http_request1 = 7.
Proof. vm_compute. repeat split. Qed.

Lemma http_leecher_finds_seeder_witness :
  ∃ (w w' : MemStore.world) o body d str peers,
    @announceRoute _ simple_http ascii_lower shuffle_id http1 rc1 None w = Some (w', o) ∧
    o_body o = Some body ∧ bdecode_all body = Some (BDict d) ∧ (bs "peers", BStr str) ∈ d ∧
    decode_peers (length str) 4 str = Some peers ∧ ([x01; x02; x03; x04]%byte, 6881) ∈ peers.
Proof.
  destruct seeded_world as (w & Hi & Hin & Hports & _ & Htot).
  destruct http_request1_args as (Hargs & Hih & Hnw & Hleft).
  destruct (@http_leecher_finds_seeder _ _ _ simple_http ascii_lower shuffle_id 0%nat w http1 (1800 * Second)
    (900 * Second) rc1 http_request1 peer1) as (w' & o & body & d & str & peers & E & _ & Hb & Hd & _ & Hs & Hdec & Hps).
  - reflexivity.
  - apply Z.leb_le. vm_compute. reflexivity.
  - small_int.
  - apply Z.leb_le. vm_compute. reflexivity.
  - small_int.
  - vm_compute. reflexivity.
  - vm_compute. reflexivity.
  - apply parse_rc1.
  - exact Hi.
  - rewrite Hih. left. reflexivity.
  - rewrite Hleft. discriminate.
  - rewrite Hnw. apply Z.ltb_lt. vm_compute. reflexivity.
  - exact Hports.
  - rewrite Hargs, Hnw. exact Htot.
  - rewrite Hih. exact Hin.
  - vm_compute. reflexivity.
  - exists w, w', o, body, d, str, peers. split; [exact E|]. split; [exact Hb|]. split; [exact Hd|].
    split; [exact Hs|]. split; [exact Hdec|exact Hps].
Defined.

(** ** Routes *)

Lemma lookup_routes (key : bytes → bytes) (x : route) (rs : list bytes) (m : gmap bytes route) (p : bytes) :
  foldl (λ m r, <[key r := x]> m) m rs !! p = if decide (p ∈ key <$> rs) then Some x else m !! p.
Proof.
  revert m. induction rs as [|r rs IH]; intros m; [done|]. cbn [foldl fmap list_fmap]. rewrite IH.
  destruct (decide (p ∈ key <$> rs)) as [Hin|Hout].
  - by rewrite decide_True by (apply list.elem_of_cons; by right).
  - destruct (decide (key r = p)) as [<-|Hne].
    + rewrite lookup_insert_eq, decide_True by (apply list.elem_of_cons; by left). done.
    + rewrite lookup_insert_ne, decide_False by (done || by intros [->|?]%list.elem_of_cons). done.
Qed.

(** A path is served by the ping, the scrape or the announce handler, the
    first of the three with a configured route that cleans to it, and is not
    found otherwise. *)
Theorem routing_precedence {S} `{FastHTTP} `{Unicode} `{Shuffle} (f : httpFE S) (cfg : Config)
    (r : RequestCtx) (err_after : error) (s : S) :
  let cleaned rt := Clean (rooted_route rt) in
  Handler f (pathRouting cfg) r err_after s =
    (if decide (rc_Path r ∈ cleaned <$> PingRoutes cfg) then ping f r err_after
     else if decide (rc_Path r ∈ cleaned <$> ScrapeRoutes cfg) then scrapeRoute f r err_after
     else if decide (rc_Path r ∈ rooted_route <$> AnnounceRoutes cfg) then announceRoute f r err_after
     else mret (MkOutcome None (Some StatusNotFound) None None)) s.
Proof.
  intros cleaned. unfold Handler, pathRouting. rewrite !lookup_routes. unfold cleaned.
  by repeat case_decide.
Qed.

(** A minimum interval is written in nanoseconds when the interval is shorter
    than a second: the test before its conversion looks at the interval. *)
Theorem min_interval_in_nanoseconds (resp : AnnounceResponse) :
  0 < resp_Interval resp < Second → resp_MinInterval (in_seconds resp) = resp_MinInterval resp.
Proof.
  intros Hi. unfold in_seconds. cbn [resp_MinInterval].
  rewrite !Z.gtb_ltb, (proj2 (Z.ltb_lt 0 (resp_Interval resp))) by lia.
  rewrite Z.quot_small by lia. done.
Qed.

Example clean_1 : Clean (bs "/a//b/../c/.") = bs "/a/c".
Proof. reflexivity. Qed.
Example clean_2 : Clean (bs "../a/../..") = bs "../..".
Proof. reflexivity. Qed.
Example clean_3 : rooted_route (bs "announce/") = bs "/announce".
Proof. reflexivity. Qed.
