(* ===== verification/HttpServe.v ===== *)
(** * The HTTP frontend as a running server

    [NewFrontend], [runServer] and [Close] of src/frontend/http/frontend.go.
    The fasthttp server is a parameter: what [Serve] and [Shutdown] return. *)

From S2P Require Import Prelude GoStd Pkg Storage Frontend Hooks.
From S2P Require Http.

Local Open Scope Z_scope.

Module HttpServe.

(** The settings of [fasthttp.Server] that the frontend chooses. *)
Record Server (Certificate : Type) := MkServer {
  s_ReadTimeout : Z;
  s_WriteTimeout : Z;
  s_IdleTimeout : Z;
  s_Concurrency : Z;                  (* int *)
  s_DisableKeepalive : bool;
  s_GetOnly : bool;
  s_TLSConfig : option Certificate;   (* with TLS 1.2 at least *)
  s_Handler : gmap bytes Http.route;
}.
Arguments MkServer {Certificate}.
Arguments s_ReadTimeout {Certificate}.
Arguments s_WriteTimeout {Certificate}.
Arguments s_IdleTimeout {Certificate}.
Arguments s_Concurrency {Certificate}.
Arguments s_DisableKeepalive {Certificate}.
Arguments s_GetOnly {Certificate}.
Arguments s_TLSConfig {Certificate}.
Arguments s_Handler {Certificate}.

Section HttpServe.
Context {S V Certificate TCPListener : Type}.
Context (Decode : gmap bytes V → Http.Config → Http.Config * error).
Context (LoadX509KeyPair : bytes → bytes → result Certificate).

Definition zero_config : Http.Config :=
  Http.MkConfig (MkListenOptions [] false 0 false) 0 0 0 false false [] [] [] [] []
    (Http.MkHttpParseOptions (MkParseOptions false false 0 0 0) []).

(** The frontend with the server it starts, and the configuration [runServer]
    is given. *)
Definition NewFrontend (c : MapConfig V) (logic : Logic S) : result (Http.httpFE S * Server Certificate * Http.Config) :=
  match Unmarshal Decode c zero_config with
  | (_, Some e) => Err e
  | (cfg, None) =>
      cfg ← Http.Config_Validate cfg;
      TLSConfig ← (if Http.UseTLS cfg then
                     cert ← LoadX509KeyPair (Http.TLSCertPath cfg) (Http.TLSKeyPath cfg); Ok (Some cert)
                   else Ok None);
      Ok (Http.MkHttpFE logic (Http.cfg_ParseOptions cfg),
          MkServer (Http.ReadTimeout cfg) (Http.WriteTimeout cfg) (Http.IdleTimeout cfg)
            (iwrap 64 (lo_Workers (Http.cfg_ListenOptions cfg))) (negb (Http.EnableKeepAlive cfg)) true TLSConfig
            (Http.pathRouting cfg),
          cfg)
  end.

(** How [runServer] ends: with the listener closed, or, by [logger.Fatal], with
    the process, whose deferred calls do not run. *)
Inductive ending := ListenerStopped | ListenerClosed | ProcessExit (err : GoError).

Definition ErrServerClosed : GoError := OtherError (bs "http: Server closed").

(** [Serve ln tls]: what [Serve] or [ServeTLS] returns. *)
Definition runServer (tcp : Net TCPListener) (Serve : TCPListener → bool → error)
    (s : Server Certificate) (cfg : Http.Config) : ending :=
  let err := match ListenTCP tcp (Http.cfg_ListenOptions cfg) with
             | Ok ln => Serve ln (if s_TLSConfig s is Some _ then true else false)
             | Err e => Some e
             end in
  match err with
  | None => ListenerStopped
  | Some e => if bool_decide (e = ErrServerClosed) then ListenerClosed else ProcessExit e
  end.

(** [Close], with the state of its once: what it returns, and whether it shut
    the server down. *)
Definition Close (onceCloser : bool) (Shutdown : error) : bool * error * bool :=
  if onceCloser then (true, None, false) else (true, Shutdown, true).

(** A frontend is built exactly from a configuration that decodes, is valid, and
    whose key pair, if it is to use one, loads; its timeouts are positive, it
    always has an announce and a scrape route, and it speaks TLS exactly when
    asked to.  Whether its address can be listened on is not known then: if it
    cannot, the process ends. *)
Lemma NewFrontend_spec c (logic : Logic S) f s cfg :
  NewFrontend c logic = Ok (f, s, cfg) →
  (∃ m cfg0, c = Some m ∧ Unmarshal Decode c zero_config = (cfg0, None) ∧ Http.Config_Validate cfg0 = Ok cfg) ∧
  0 < s_ReadTimeout s ∧ 0 < s_WriteTimeout s ∧ 0 < s_IdleTimeout s ∧
  (is_Some (s_TLSConfig s) ↔ Http.UseTLS cfg = true) ∧
  Http.fe_logic f = logic ∧ Http.AnnounceRoutes cfg ≠ [] ∧ Http.ScrapeRoutes cfg ≠ [] ∧
  (∀ tcp Serve e, ListenTCP tcp (Http.cfg_ListenOptions cfg) = Err e → e ≠ ErrServerClosed →
     runServer tcp Serve s cfg = ProcessExit e).
Proof.
  unfold NewFrontend. destruct (Unmarshal Decode c zero_config) as [cfg0 [e|]] eqn:Eu; [done|].
  destruct (Http.Config_Validate cfg0) as [cfg1|] eqn:Ev; [|done]. cbn [mbind result_bind].
  destruct (if Http.UseTLS cfg1 then _ else _) as [tls|] eqn:Et; [|done]. cbn [mbind result_bind]. intros [= <- <- <-].
  assert (∀ d v, 0 < d → 0 < if v <=? 0 then d else v) as Hd by (intros d v ?; destruct (Z.leb_spec v 0); lia).
  split. { destruct c as [m|]; [|done]. by exists m, cfg0. }
  assert (0 < Http.ReadTimeout cfg1 ∧ 0 < Http.WriteTimeout cfg1 ∧ 0 < Http.IdleTimeout cfg1 ∧
          Http.AnnounceRoutes cfg1 ≠ [] ∧ Http.ScrapeRoutes cfg1 ≠ []) as (H1 & H2 & H3 & H4 & H5).
  { unfold Http.Config_Validate in Ev. destruct (_ && _); [done|]. injection Ev as <-.
    cbn [Http.ReadTimeout Http.WriteTimeout Http.IdleTimeout Http.AnnounceRoutes Http.ScrapeRoutes].
    split_and!; try (by apply Hd); clear; by case_decide. }
  cbn [s_ReadTimeout s_WriteTimeout s_IdleTimeout s_TLSConfig Http.fe_logic].
  repeat (split; [done|]). split.
  { destruct (Http.UseTLS cfg1); [|injection Et as <-; split; [by intros []|done]].
    destruct (LoadX509KeyPair _ _); [|done]. injection Et as <-. split; [done|by eexists]. }
  repeat (split; [done|]). intros tcp Serve e El Hne. unfold runServer. rewrite El. by rewrite bool_decide_false.
Qed.
End HttpServe.
End HttpServe.
