(* ===== verification/Requests.v ===== *)
(** * The types of the requests that reach the logic

    What both parsers (src/frontend/udp/parser.go, src/frontend/http/parser.go)
    promise of an announce they accept: every field in the range of its Go type,
    the addresses usable as keys; and with it what the contract of the storages
    ([StorageSpec], [SwarmKeys.peer_ok]) asks of the calls made for it. *)

From S2P Require Import Prelude GoStd Netip NetipText Bittorrent Packet Storage SwarmKeys Frontend Hooks.
From S2P Require UdpParser Udp Http.

Local Open Scope Z_scope.

(** ** Well-formed addresses *)

Definition zone (a : Addr) : bytes := match a with Addr6 _ z => z | _ => [] end.

Definition address_ok (a : Addr) : Prop := Addr_wf a ∧ IsValid a = true ∧ Is4In6 a = false.

Lemma parseIPv4Fields_length s l : parseIPv4Fields s = Some l → length l = 4%nat.
Proof.
  unfold parseIPv4Fields. destruct (Split "."%byte s) as [|a [|b [|c [|d []]]]]; try done.
  destruct (parse_octet a), (parse_octet b), (parse_octet c), (parse_octet d); try done. by intros [= <-].
Qed.

Lemma ipv6_loop_length fuel s ip e rest ip' e' :
  ipv6_loop fuel s ip e = Some (rest, ip', e') →
  (length ip ≤ 16)%nat → Nat.Even (length ip) → (∀ n, e = Some n → n ≤ length ip)%nat →
  (length ip' ≤ 16)%nat ∧ (∀ n, e' = Some n → n ≤ length ip')%nat.
Proof.
  revert s ip e. induction fuel as [|fuel IH]; intros s ip e; cbn [ipv6_loop].
  { intros [= <- <- <-] H1 H2 H3. done. }
  destruct (Nat.leb_spec 16 (length ip)) as [Hl|Hl]; [intros [= <- <- <-] H1 H2 H3; done|].
  destruct (hex_group s 0 0) as [[[acc off] rest0]|]; [|done]. cbn [mbind option_bind].
  case_decide; [done|]. intros Hr H1 H2 H3.
  assert (length ip + 2 ≤ 16)%nat as Hl2 by (destruct H2 as [m Hm]; lia).
  assert (length (ip ++ be_put 2 acc) = length ip + 2)%nat as Hlen by (by rewrite length_app, length_be_put).
  assert (Nat.Even (length (ip ++ be_put 2 acc))) as Hev by (rewrite Hlen; destruct H2 as [m Hm]; exists (S m); lia).
  assert (∀ n, e = Some n → n ≤ length (ip ++ be_put 2 acc))%nat as He by (intros n ->%H3; lia).
  remember (ip ++ be_put 2 acc) as ip2 eqn:E2. clear E2.
  destruct rest0 as [|c rest']; [injection Hr as <- <- <-; split; [lia|done]|].
  destruct (byte_eqb c "."%byte).
  { destruct (_ && _); [done|]. destruct (Nat.ltb_spec 16 (length ip + 4)); [done|].
    destruct (parseIPv4Fields s) as [v4|] eqn:E4; [|done]. apply parseIPv4Fields_length in E4.
    injection Hr as <- <- <-. rewrite length_app. split; [lia|]. intros n Hn%H3. lia. }
  destruct (negb _); [done|]. destruct rest' as [|c' rest'']; [done|].
  destruct (byte_eqb c' ":"%byte); [|apply (IH _ _ _ Hr); [lia|done|done]].
  destruct (bool_decide _); [done|]. case_decide.
  - injection Hr as <- <- <-. split; [lia|]. by intros n [= <-].
  - apply (IH _ _ _ Hr); [lia|done|]. by intros n [= <-].
Qed.

Lemma expand_length ip e ip' :
  (length ip ≤ 16)%nat → (∀ n, e = Some n → n ≤ length ip)%nat → expand ip e = Some ip' → length ip' = 16%nat.
Proof.
  intros H1 H2. unfold expand. destruct (Nat.ltb_spec (length ip) 16).
  - destruct e as [n|]; [|done]. intros [= <-]. specialize (H2 n eq_refl).
    rewrite !length_app, length_take, length_replicate, length_drop. lia.
  - destruct e; [done|]. intros [= <-]. lia.
Qed.

Lemma ParseAddr_wf s a : ParseAddr s = Some a → Addr_wf a.
Proof.
  unfold ParseAddr. destruct (index_of _ s) as [i|]; [|done]. cbn [mbind option_bind].
  destruct (s !! i) as [c|]; [|done]. cbn [mbind option_bind]. destruct (byte_eqb c "."%byte).
  { unfold parseIPv4. destruct (parseIPv4Fields s) as [l|] eqn:E; [|done]. intros [= <-].
    apply parseIPv4Fields_length in E. cbn [Addr_wf compose]. apply be_get_uint. by rewrite E. }
  destruct (byte_eqb c ":"%byte); [|done]. unfold parseIPv6.
  set (sz := match index_of _ s with Some _ => _ | None => _ end). destruct sz as [[s' z]|]; [|done].
  cbn [mbind option_bind]. set (se := if HasPrefix s' _ then _ else _).
  assert (∀ n, se.2 = Some n → n = 0%nat) as He by (unfold se; destruct (HasPrefix _ _); by intros n [= <-]).
  destruct se as [s'' e]. cbn [snd] in He. destruct (_ && _); [by intros [= <-]|].
  destruct (ipv6_loop 8 s'' [] e) as [[[rest ip] e']|] eqn:Hl; [|done]. cbn [mbind option_bind].
  case_decide; [done|]. destruct (expand ip e') as [ip'|] eqn:Ex; [|done]. intros [= <-].
  assert ((length ip ≤ 16)%nat ∧ (∀ n, e' = Some n → n ≤ length ip)%nat) as [Hl1 Hl2].
  { apply (ipv6_loop_length _ _ _ _ _ _ _ Hl); [cbn; lia|by exists 0%nat|]. by intros n ->%He. }
  cbn [Addr_wf]. apply be_get_uint. by rewrite (expand_length _ _ _ Hl1 Hl2 Ex).
Qed.

Lemma ParseAddrPort_wf s a p : ParseAddrPort s = Some (a, p) → Addr_wf a.
Proof.
  unfold ParseAddrPort. destruct (last_index_of _ s); [|done]. cbn [mbind option_bind]. case_decide; [done|].
  set (iv := match take _ s with [] => _ | _ => _ end). destruct iv as [[ip v6]|]; [|done]. cbn [mbind option_bind].
  destruct (ParseUint _ _) as [port|]; [|done]. destruct (ParseAddr ip) as [b|] eqn:E; [|done]. cbn [mbind option_bind].
  destruct (_ && _); [done|]. destruct (_ && _); [done|]. intros [= -> _]. by eapply ParseAddr_wf.
Qed.

(** ** Well-typed announces *)

(** The ranges of the options, [uint32] in the code. *)
Definition options_typed (o : ParseOptions) : Prop := uint 32 (MaxNumWant o) ∧ uint 32 (DefaultNumWant o).

(** What the parsers fill in before the request is sanitized. *)
Record fields_typed (req : AnnounceRequest) : Prop := {
  ft_InfoHash : InfoHash_wf (ar_InfoHash req);
  ft_ID : length (rp_ID (ar_RequestPeer req)) = PeerIDLen;
  ft_Port : uint 16 (rp_Port (ar_RequestPeer req));
  ft_NumWant : uint 32 (ar_NumWant req);
  ft_Left : uint 64 (ar_Left req);
  ft_Downloaded : uint 64 (ar_Downloaded req);
  ft_Uploaded : uint 64 (ar_Uploaded req);
  ft_Addresses : Forall (λ a, address_ok (ra_Addr a)) (ar_Addresses req);
}.

Record announce_typed (o : ParseOptions) (req : AnnounceRequest) : Prop := {
  at_fields : fields_typed req;
  at_Port : rp_Port (ar_RequestPeer req) ≠ 0;
  at_nonempty : ar_Addresses req ≠ [];
  at_distinct : NoDup (ra_Addr <$> ar_Addresses req);
  at_kept : Forall (λ a, keeps (FilterPrivateIPs o) a = true) (ar_Addresses req);
}.

Lemma Add_ok aa a :
  Addr_wf (ra_Addr a) → Forall (λ a, address_ok (ra_Addr a)) aa → Forall (λ a, address_ok (ra_Addr a)) (Add aa a).
Proof.
  intros Ha Haa. unfold Add. destruct (ra_IsValid a) eqn:Hv; [|done]. apply list.Forall_app. split; [done|].
  repeat constructor; cbn [ra_Addr].
  - by apply Unmap_wf.
  - rewrite Unmap_IsValid. unfold ra_IsValid in Hv. by apply andb_prop in Hv as [? _].
  - apply Unmap_not_4In6.
Qed.

Lemma SanitizeAnnounce_typed `{Shuffle} o r r' :
  options_typed o → fields_typed r →
  SanitizeAnnounce r (MaxNumWant o) (DefaultNumWant o) (FilterPrivateIPs o) = Ok r' → announce_typed o r'.
Proof.
  intros [Hmx Hdf] [Hih Hid Hp Hn Hl Hd Hu Ha] E. revert E. unfold SanitizeAnnounce.
  destruct (Z.eqb_spec (rp_Port (ar_RequestPeer r)) 0) as [|Hp0]; [done|].
  destruct (Sanitize (ar_Addresses r) (FilterPrivateIPs o)) as [ok aa'] eqn:Hs.
  destruct (Sanitize_run _ _ _ _ Hs) as (Hok & Hnd & _ & Hin & Hk).
  assert (Forall (λ a, keeps (FilterPrivateIPs o) a = true) aa') as Hkeep
    by (apply list.Forall_forall; intros a Hx; by destruct (Hk a Hx)).
  assert (Forall (λ a, address_ok (ra_Addr a)) aa') as Haok.
  { apply list.Forall_forall. intros a Hx. destruct (proj1 (Hin (ra_Addr a))) as (b & Hb & <- & _);
      [by apply list_elem_of_fmap_2|]. by eapply list.Forall_forall in Ha. }
  destruct ok; [|done]. assert (aa' ≠ []) as Hne by by apply Hok. cbn [negb].
  destruct (ar_NumWantProvided _); cbn [negb]; [destruct (_ >? _)|]; intros [= <-];
    (split; [split|..]; done).
Qed.

Lemma be_at_uint p i j w z : be_at p i j = Some z → w = 8 * Z.of_nat (j - i) → uint w z.
Proof.
  unfold be_at, slice. case_decide; [|done]. intros [= <-] ->. apply be_get_uint.
  rewrite length_take, length_drop. lia.
Qed.

(** ** The parsers *)

Lemma udp_fields `{Unicode} `{Shuffle} (r : UdpParser.Request) v6 o req :
  Addr_wf (UdpParser.r_IP r) → UdpParser.parseAnnounce r v6 o = Some (Ok req) →
  ∃ raw, fields_typed raw ∧ SanitizeAnnounce raw (MaxNumWant o) (DefaultNumWant o) (FilterPrivateIPs o) = Ok req.
Proof.
  intros Hip. unfold UdpParser.parseAnnounce. set (ipEnd := (84 + _)%nat).
  destruct (_ <? _)%nat; [done|].
  destruct (slice _ 16 36) as [ihb|]; [|done]. cbn [mbind option_bind].
  destruct (NewInfoHash ihb) as [ih|] eqn:Hih; [|done].
  destruct (slice _ 36 56) as [idb|]; [|done]. cbn [mbind option_bind].
  destruct (NewPeerID idb) as [id|] eqn:Hid; [|done]. apply NewPeerID_length in Hid as [_ Hid].
  destruct (be_at _ 56 64) as [downloaded|] eqn:Hd; [|done]. cbn [mbind option_bind].
  destruct (be_at _ 64 72) as [left|] eqn:Hl; [|done]. cbn [mbind option_bind].
  destruct (be_at _ 72 80) as [uploaded|] eqn:Hu; [|done]. cbn [mbind option_bind].
  destruct (_ !! 83%nat) as [eventID|]; [|done]. cbn [mbind option_bind].
  destruct (UdpParser.eventIDs !! _) as [event|]; [|done].
  destruct (slice _ 84 ipEnd) as [ip|]; [|done]. cbn [mbind option_bind].
  destruct (be_at _ (ipEnd + 4) _) as [numWant|] eqn:Hn; [|done]. cbn [mbind option_bind].
  destruct (be_at _ (ipEnd + 8) _) as [port|] eqn:Hp; [|done]. cbn [mbind option_bind].
  destruct (slice _ (ipEnd + 10) _) as [rest|]; [|done]. cbn [mbind option_bind].
  destruct (UdpParser.handleOptionalParameters rest) as [[params|]|]; [|done|done]. cbn [mbind option_bind]. cbv zeta. intros [= E].
  eexists. split; [|exact E]. split; cbn [ar_InfoHash ar_RequestPeer rp_ID rp_Port ar_NumWant ar_Left ar_Downloaded ar_Uploaded].
  - by eapply NewInfoHash_wf.
  - done.
  - eapply be_at_uint; [done|lia].
  - eapply be_at_uint; [done|lia].
  - by eapply be_at_uint.
  - by eapply be_at_uint.
  - by eapply be_at_uint.
  - unfold ar_Addresses. cbn [ar_RequestPeer rp_Addresses]. unfold UdpParser.announce_addresses.
    assert (Forall (λ a, address_ok (ra_Addr a)) (Add [] (MkRequestAddress (UdpParser.r_IP r) false)))
      by by apply Add_ok.
    destruct (AllowIPSpoofing o); [|done]. destruct (AddrFromSlice ip) as [a|] eqn:Ea; [|done].
    apply Add_ok; [|done]. by eapply AddrFromSlice_wf.
Qed.

Lemma parseRequestAddress_wf s p : Addr_wf (ra_Addr (Http.parseRequestAddress s p)).
Proof.
  unfold Http.parseRequestAddress. destruct (ParseAddr s) as [a|] eqn:E; [|done]. by eapply ParseAddr_wf.
Qed.

Lemma foldl_ok {A} (f : RequestAddresses → A → RequestAddresses) l aa :
  (∀ aa x, Forall (λ a, address_ok (ra_Addr a)) aa → Forall (λ a, address_ok (ra_Addr a)) (f aa x)) →
  Forall (λ a, address_ok (ra_Addr a)) aa → Forall (λ a, address_ok (ra_Addr a)) (foldl f aa l).
Proof. intros Hf. revert aa. induction l as [|x l IH]; intros aa Haa; [done|]. apply IH. by apply Hf. Qed.

Lemma requestedIPs_ok `{Http.FastHTTP} r qp o :
  Forall (λ a, address_ok (ra_Addr a)) (Http.requestedIPs r qp o).
Proof.
  unfold Http.requestedIPs. set (aa := if AllowIPSpoofing _ then _ else _).
  assert (Forall (λ a, address_ok (ra_Addr a)) aa) as Haa.
  { unfold aa, Http.spoofed. destruct (AllowIPSpoofing _); [|constructor]. apply foldl_ok; [|constructor].
    intros aa' x Hx. destruct (Http.GetString qp x); [|done]. apply Add_ok; [apply parseRequestAddress_wf|done]. }
  destruct (_ && _).
  - unfold Http.from_header. apply foldl_ok; [|done]. intros aa' x Hx. apply foldl_ok; [|done].
    intros aa'' y Hy. cbv zeta. case_decide; [done|]. apply Add_ok; [apply parseRequestAddress_wf|done].
  - cbv zeta. apply Add_ok; [|done]. cbn [ra_Addr].
    destruct (ParseAddrPort _) as [[a p]|] eqn:E; [|done]. by eapply ParseAddrPort_wf.
Qed.

Lemma http_fields `{Http.FastHTTP} `{Unicode} `{Shuffle} r o req :
  Http.parseAnnounce r o = Ok req →
  let po := Http.hpo_ParseOptions o in
  ∃ raw, fields_typed raw ∧ SanitizeAnnounce raw (MaxNumWant po) (DefaultNumWant po) (FilterPrivateIPs po) = Ok req.
Proof.
  unfold Http.parseAnnounce. cbv zeta. set (qp := Http.rc_QueryArgs r). intros E.
  apply Http.result_bind_Ok in E as (event & _ & E).
  apply Http.result_bind_Ok in E as (ih & Hih & E).
  apply Http.result_bind_Ok in E as (id & Hid & E).
  apply Http.result_bind_Ok in E as (left & _ & E).
  apply Http.result_bind_Ok in E as (downloaded & _ & E).
  apply Http.result_bind_Ok in E as (uploaded & _ & E).
  destruct (Http.GetUint qp (bs "numwant")) as [numWant err]. case_bool_decide; [done|].
  apply Http.result_bind_Ok in E as (port & _ & E).
  eexists. split; [|exact E]. split; cbn [ar_InfoHash ar_RequestPeer rp_ID rp_Port ar_NumWant ar_Left ar_Downloaded ar_Uploaded];
    try by apply wrap_uint.
  - apply (Http.InfoHashes_wf qp). destruct (Http.InfoHashes qp) as [|x []]; [done|injection Hih as ->|done].
    by apply list_elem_of_singleton.
  - destruct (NewPeerID _) eqn:En; [|done]. injection Hid as ->. by apply NewPeerID_length in En as [_ ?].
  - apply requestedIPs_ok.
Qed.

Lemma typed_peers req :
  fields_typed req → Forall (λ a, zone (ra_Addr a) = []) (ar_Addresses req) →
  Forall (λ o, InfoHash_wf o.1 ∧ peer_ok o.2) (announce_pairs req).
Proof.
  intros [Hih Hid Hp _ _ _ _ Ha] Hz. apply list.Forall_forall. intros [ih p] Hin.
  unfold announce_pairs in Hin. apply list_elem_of_bind in Hin as (q & Hx & Hq).
  apply list_elem_of_fmap in Hx as (ih' & [= -> ->] & Hih'). cbn [fst snd].
  split; [by eapply targets_wf|]. unfold Peers in Hq. apply list_elem_of_fmap in Hq as (a & -> & Hin).
  eapply list.Forall_forall in Ha as (Hwf & Hv & H46); [|exact Hin]. eapply list.Forall_forall in Hz; [|exact Hin].
  repeat (split; [done|]). cbn [peer_addr]. unfold zone in Hz. by destruct (ra_Addr a).
Qed.

(** ** Properties *)

(** C34: every announce that a frontend accepts is well typed: its info hash has
    20 or 32 bytes and its peer ID 20, its numbers are in the range of their Go
    types, its port is not 0, and it has at least one address; the addresses are
    valid, unmapped, acceptable to the options, and distinct.  Then, unless an address
    carries an IPv6 zone, every swarm and peer that the storage is called with
    for it meets the contract of the storages. *)
Theorem accepted_announces_typed `{Http.FastHTTP} `{Unicode} `{Shuffle} (req : AnnounceRequest) :
  (∀ (r : UdpParser.Request) v6 o,
     options_typed o → Addr_wf (UdpParser.r_IP r) → UdpParser.parseAnnounce r v6 o = Some (Ok req) →
     announce_typed o req) ∧
  (∀ (r : Http.RequestCtx) o,
     options_typed (Http.hpo_ParseOptions o) → Http.parseAnnounce r o = Ok req →
     announce_typed (Http.hpo_ParseOptions o) req) ∧
  (∀ o, announce_typed o req → Forall (λ a, zone (ra_Addr a) = []) (ar_Addresses req) →
     Forall (λ call, InfoHash_wf call.1 ∧ peer_ok call.2) (announce_pairs req)).
Proof.
  split; [|split].
  - intros r v6 o Ho Hip E. destruct (udp_fields r v6 o req Hip E) as (raw & Hr & Es).
    by eapply SanitizeAnnounce_typed.
  - intros r o Ho E. destruct (http_fields r o req E) as (raw & Hr & Es). by eapply SanitizeAnnounce_typed.
  - intros o [Hf _ _ _ _]. by apply typed_peers.
Qed.

(** The announce of a client over either frontend, and the calls made for it. *)
Lemma accepted_announces_typed_witness :
  announce_typed (Udp.fe_ParseOptions Udp.fe1) Udp.request1 ∧
  Forall (λ call, InfoHash_wf call.1 ∧ peer_ok call.2) (announce_pairs Udp.request1) ∧
  ∃ req, @Http.parseAnnounce Http.simple_http Http.ascii_lower shuffle_id Http.rc1 Http.opts1 = Ok req ∧
    announce_typed (Http.hpo_ParseOptions Http.opts1) req.
Proof.
  destruct (@accepted_announces_typed Http.simple_http UdpParser.ascii_only shuffle_id Udp.request1) as (Hu & _ & Hc).
  assert (announce_typed (Udp.fe_ParseOptions Udp.fe1) Udp.request1) as Ht.
  { apply (Hu _ false _) with (3 := Udp.parse_packet1); repeat (done || split). }
  split; [exact Ht|]. split; [apply (Hc _ Ht); by repeat constructor|].
  assert (Hok : match @Http.parseAnnounce Http.simple_http Http.ascii_lower shuffle_id Http.rc1 Http.opts1 with
                | Ok _ => True | Err _ => False end) by (vm_compute; exact I).
  destruct (@Http.parseAnnounce Http.simple_http Http.ascii_lower shuffle_id Http.rc1 Http.opts1) as [req|] eqn:E;
    [clear Hok|destruct Hok].
  exists req. split; [reflexivity|].
  apply (proj1 (proj2 (@accepted_announces_typed Http.simple_http Http.ascii_lower shuffle_id req)) _ _) with (2 := E).
  split; split; [discriminate|reflexivity|discriminate|reflexivity].
Defined.

(** A zone, which neither the answers nor the keys of Redis carry, is kept: a
    client named with two zones in the trusted header is two peers. *)
Example zones_are_peers :
  let r := @Http.MkRequestCtx Http.simple_http Http.args1 (λ _, [bs "2001:db8::1%a, 2001:db8::1%b"])
             (bs "5.6.7.8:40000") (bs "/announce") Background in
  let o := Http.MkHttpParseOptions (MkParseOptions false false 100 50 50) (bs "X-Forwarded-For") in
  match @Http.parseAnnounce Http.simple_http Http.ascii_lower shuffle_id r o with
  | Ok req => length (Peers (ar_RequestPeer req)) = 2%nat ∧
      (AsSlice ∘ peer_addr <$> Peers (ar_RequestPeer req)) =
        replicate 2 (AsSlice (Addr6 0x20010db8000000000000000000000001 []))
  | Err _ => False
  end.
Proof. vm_compute. split; reflexivity. Qed.
