(* ===== verification/E2e.v ===== *)
(** * Program [mochi-e2e]

    The client that tries a running tracker (src/cmd/mochi-e2e/e2e.go).  The
    library that announces is not part of the repository: [Do] is what it does to
    the world and what it returns.  Against a tracker of [Hooks] the program
    succeeds; what it does not notice is a theorem as well. *)

From S2P Require Import Prelude GoStd Netip Bittorrent Storage Hooks Memory Tracker.

Local Open Scope Z_scope.

Module E2e.

(** The fields of the library's [AnnounceRequest] that the program sets; of its
    response the program reads the ports of the peers. *)
Record TrackerRequest := MkTrackerRequest {
  tr_InfoHash : bytes;
  tr_PeerId : bytes;
  tr_Downloaded : Z;
  tr_Left : Z;
  tr_Uploaded : Z;
  tr_Event : Event;
  tr_IPAddress : Z;
  tr_NumWant : Z;
  tr_Port : Z;
}.

(** The built-in [copy] of a string over an array. *)
Definition copy (dst src : bytes) : bytes := take (length dst) src ++ drop (length src) dst.

Definition peer_id (last : Z) : bytes := byte_of_Z <$> ([1; 2; 3; 4; 5; 6; 7; 8; 9; 10; 11; 12; 13; 14; 15; 16; 17; 18; 19] ++ [last]).

Definition ip_address (last : Z) : Z :=
  Z.lor (Z.lor (Z.lor (Z.shiftl 50 24) (Z.shiftl 10 16)) (Z.shiftl 12 8)) last.

Definition client_request (ih : bytes) (n : Z) : TrackerRequest :=
  MkTrackerRequest ih (peer_id (19 + n)) 50 100 50 Started (ip_address n) 50 (10000 + n).

Definition announce_failed (err : GoError) : GoError := OtherError (bs "announce failed: " ++ Error_msg err).
Definition wrong_count (what : bytes) (got : nat) : GoError :=
  OtherError (bs "expected " ++ what ++ bs ", got " ++ Itoa (Z.of_nat got)).
Definition wrong_port (expected got : Z) : GoError :=
  OtherError (bs "expected port " ++ Itoa expected ++ bs ", got " ++ Itoa got ++ bs " ").

Section Client.
Context {S : Type} (Do : bytes → TrackerRequest → M S (result (list Z))) (Sleep : Z → M S ()).

Definition testWithInfoHash (infoHash : InfoHash) (url : bytes) (delay : Z) : M S error :=
  let ih := replicate InfoHashV1Len x00 in
  resp ← Do url (client_request ih 1);
  match resp with
  | Err err => mret (Some (announce_failed err))
  | Ok peers =>
      if negb (length peers =? 1)%nat then mret (Some (wrong_count (bs "one peer") (length peers)))
      else
        _ ← Sleep delay;
        let ih := copy ih infoHash in
        let req := client_request ih 2 in
        resp ← Do url req;
        match resp with
        | Err err => mret (Some (announce_failed err))
        | Ok peers =>
            match peers with
            | [port] => mret (if port =? tr_Port req then None else Some (wrong_port (tr_Port req) port))
            | _ => mret (Some (wrong_count (bs "1 peers") (length peers)))
            end
        end
  end.

(** [rand]: what [rand.Read] returns. *)
Definition test (rand : result bytes) (addr : bytes) (delay : Z) : M S error :=
  match rand with
  | Err _ => panic
  | Ok b =>
      let ih := match NewInfoHash b with Ok ih => ih | Err _ => [] end in
      testWithInfoHash ih addr delay
  end.

(** The program on its flags; an error is printed and ends it with status 1. *)
Definition main (httpAddress udpAddress : bytes) (delay : Z) (rand : nat → result bytes) : M S error :=
  '(err, reads) ← (if negb (length httpAddress =? 0)%nat
                   then err ← test (rand 0%nat) httpAddress delay; mret (err, 1%nat)
                   else mret (None, 0%nat));
  match err with
  | Some _ => mret err
  | None => if negb (length udpAddress =? 0)%nat then test (rand reads) udpAddress delay else mret None
  end.

(** ** What it accepts *)

(** The test passes exactly when the first client, in the swarm of the hash of
    zeros, is given one peer, and the second one, in the swarm of the random hash,
    itself alone. *)
Theorem test_exact (ih : InfoHash) (url : bytes) (delay : Z) (w w' : S) :
  length ih = InfoHashV1Len →
  testWithInfoHash ih url delay w = Some (w', None) ↔
  ∃ w1 w2 port, Do url (client_request (replicate InfoHashV1Len x00) 1) w = Some (w1, Ok [port]) ∧
    Sleep delay w1 = Some (w2, ()) ∧ Do url (client_request ih 2) w2 = Some (w', Ok [10002]).
Proof.
  intros Hlen. unfold testWithInfoHash.
  assert (copy (replicate InfoHashV1Len x00) ih = ih) as ->.
  { unfold copy. rewrite length_replicate, take_ge, drop_ge, app_nil_r; [done|rewrite length_replicate, Hlen; done|lia]. }
  split.
  - unfold mbind, M_bind, mret, Prelude.M_ret. destruct (Do url _ w) as [[w1 [l|]]|] eqn:E1; [|done..].
    destruct l as [|port [|]]; [done| |done]. cbn [length Nat.eqb negb].
    destruct (Sleep delay w1) as [[w2 []]|] eqn:E2; [|done].
    destruct (Do url (client_request ih 2) w2) as [[w3 [l|]]|] eqn:E; [|done..].
    destruct l as [|p2 [|]]; [done| |done]. destruct (Z.eqb_spec p2 (tr_Port (client_request ih 2))) as [->|]; [|done].
    intros [= <-]. by exists w1, w2, port.
  - intros (w1 & w2 & port & E1 & E2 & E3). rewrite (M_bind_Some _ _ _ _ _ E1). cbn [length Nat.eqb negb].
    by rewrite (M_bind_Some _ _ _ _ _ E2), (M_bind_Some _ _ _ _ _ E3).
Qed.
End Client.

(** The test does not need a tracker that keeps anything: one that answers every
    client with itself passes, for the second client is not sent to the swarm of
    the first, and is expected to find itself. *)
Theorem blind_to_storage {S : Type} (Do : bytes → TrackerRequest → M S (result (list Z))) (Sleep : Z → M S ())
    (b : bytes) (url : bytes) (delay : Z) (w : S) :
  length b = InfoHashV1Len →
  (∀ url r w, Do url r w = Some (w, Ok [tr_Port r])) → (∀ d w, Sleep d w = Some (w, ())) →
  test Do Sleep (Ok b) url delay w = Some (w, None).
Proof.
  intros Hb HDo HSleep. unfold test. rewrite NewInfoHash_raw by by left.
  apply test_exact; [done|]. exists w, w, 10001. by rewrite !HDo, HSleep.
Qed.

(** ** Against the tracker *)

Section Alone.
Context {S : Type} {HSt : PeerStorage S} {HSpec : StorageSpec S}.

(** A swarm that nobody but [self] has announced to, as a leecher. *)
Definition only (self : Peer) (v : view) (ih : InfoHash) : Prop :=
  v Seeder ih = ∅ ∧ v Leecher ih ⊆ {[self]}.

Lemma only_available self v ih v6 : only self v ih → (available v ih false v6 ≤ 1)%nat.
Proof.
  intros [Hs Hl]. unfold available, candidates. cbn [fmap list_fmap sum_list_with]. rewrite Hs.
  assert (of_family v6 ∅ = ∅) as -> by (apply set_eq; intros q; unfold of_family; set_solver).
  rewrite size_empty.
  assert (size (of_family v6 (v Leecher ih)) ≤ size ({[self]} : gset Peer))%nat as H by (apply subseteq_size; unfold of_family; set_solver).
  rewrite size_singleton in H. cbn. lia.
Qed.

Lemma only_candidate self v ih args p :
  only self v ih → Forall (λ a, a.1 = ih) args → candidate v false args p → p = self ∧ self ∈ v Leecher ih.
Proof.
  intros [Hs Hl] Hargs (a & Ha & (X & HX & Hp)%elem_of_union_list).
  rewrite (proj1 (list.Forall_forall _ _) Hargs a Ha) in HX. unfold candidates, of_family in HX.
  rewrite Hs, !list.elem_of_cons in HX. destruct HX as [->|[->|HX]]; [set_solver| |by apply elem_of_nil in HX].
  apply elem_of_filter in Hp as [_ Hp]. assert (p = self) as -> by set_solver. done.
Qed.

(** A leecher without company, whether or not it announced before, is given
    itself. *)
Lemma lone_leecher self v req resp :
  answers_announce v req resp → only self v (ar_InfoHash req) → length (ar_InfoHash req) = InfoHashV1Len →
  Peers (ar_RequestPeer req) = [self] → IsValid (Peer_Addr self) = true → ar_Left req ≠ 0 → 2 ≤ ar_NumWant req →
  response_peers resp = [self].
Proof.
  intros (Hnd & _ & _ & Hin & _ & Hall & _ & _ & Halone) Ho Hlen Hps Hval Hl Hn.
  assert (seeding req = false) as Hse by (unfold seeding; by apply Z.eqb_neq). rewrite Hse in Hin, Hall, Halone.
  assert (is_v2 (ar_InfoHash req) = false) as Hv1 by (unfold is_v2; apply bool_decide_eq_false_2; rewrite Hlen; done).
  assert (Forall (λ a, a.1 = ar_InfoHash req) (request_args req)) as Hargs.
  { unfold request_args, fetch_args. rewrite Hv1. by repeat constructor. }
  assert (total_available v false (request_args req) ≤ ar_NumWant req) as Htot.
  { unfold request_args, fetch_args. rewrite Hv1. cbn [app total_available foldr fst snd].
    pose proof (only_available self v (ar_InfoHash req) (Is6 (GetFirst (ar_Addresses req))) Ho).
    pose proof (only_available self v (ar_InfoHash req) (negb (Is6 (GetFirst (ar_Addresses req)))) Ho). lia. }
  assert (self ∈ response_peers resp) as Hself.
  { destruct (decide (self ∈ v Leecher (ar_InfoHash req))) as [Hs|Hs].
    - apply Hall; [done| |done]. exists (ar_InfoHash req, Peer_Is6 self). split; [apply request_args_families|].
      apply elem_of_union_list. exists (of_family (Peer_Is6 self) (v Leecher (ar_InfoHash req))).
      split; [|by apply elem_of_filter]. unfold candidates. rewrite !list.elem_of_cons. tauto.
    - apply Halone; [|rewrite Hps; by left|done]. rewrite decide_True; [done|]. right.
      destruct (decide (total_available v false (request_args req) = 0)) as [|Hne]; [done|].
      pose proof Ho as [Hse0 Hle]. assert (v Leecher (ar_InfoHash req) = ∅) as He by set_solver.
      exfalso. apply Hne. unfold request_args, fetch_args. rewrite Hv1. cbn [app total_available foldr fst snd].
      assert (∀ b, available v (ar_InfoHash req) false b = 0%nat) as Hz; [|by rewrite !Hz].
      intros b. unfold available, candidates. rewrite Hse0, He.
      assert (of_family b ∅ = ∅) as -> by (apply set_eq; intros q; unfold of_family; set_solver).
      cbn. by rewrite size_empty. }
  assert (∀ p, p ∈ response_peers resp → p = self) as Heq.
  { intros p [Hc|[_ Hp]]%Hin; [by apply (only_candidate self v _ _ p Ho Hargs Hc)|].
    rewrite Hps in Hp. by apply list_elem_of_singleton in Hp. }
  destruct (response_peers resp) as [|p [|q l]]; [by apply elem_of_nil in Hself|by rewrite (Heq p (list_elem_of_here _ _))|].
  exfalso. apply list.NoDup_cons in Hnd as [Hp _]. apply Hp. rewrite (Heq p), (Heq q) by set_solver. set_solver.
Qed.
End Alone.

Section Tracked.
Context {S : Type} {HSt : PeerStorage S} {HSpec : StorageSpec S}.
Context (ai mi : Z) (ctx : Context) (addr : Addr).

(** What a frontend makes of the client's announce, its address being [addr]. *)
Definition as_request (r : TrackerRequest) : AnnounceRequest :=
  MkAnnounceRequest (tr_Event r) (tr_InfoHash r) true true (tr_NumWant r) (tr_Left r) (tr_Downloaded r) (tr_Uploaded r)
    (MkRequestPeer (tr_PeerId r) (tr_Port r) [MkRequestAddress addr false]) None.

(** The tracker's part of an announce, and what the client reads of it. *)
Definition tracked (r : TrackerRequest) : M S (result (list Z)) :=
  '(ctx', resp, err, req) ← Logic_HandleAnnounce (NewLogic ai mi [] []) (Some ctx) (as_request r);
  match resp with
  | None => mret (Err (default ErrResourceDoesNotExist err))
  | Some resp =>
      AfterAnnounce (NewLogic ai mi [] []) ctx' req resp;;
      mret (Ok (peer_Port <$> response_peers resp))
  end.

Definition client (n : Z) : Peer := MkPeer (peer_id (19 + n)) addr (10000 + n).

(** The library carries an announce to the tracker and its answer back; while the
    program sleeps nothing changes the swarms. *)
Context (Do : bytes → TrackerRequest → M S (result (list Z))) (Sleep : Z → M S ()).
Context (HDo : ∀ url r w w' ports, tracked r w = Some (w', Ok ports) → Do url r w = Some (w', Ok ports)).
Context (HSleep : ∀ n d w, st_inv n w → ∃ w', Sleep d w = Some (w', ()) ∧ st_inv n w' ∧ st_view w' ≡ st_view w).
Context (Hskip : ctx_skip_swarm ctx = false) (Hskip' : ctx_skip_response ctx = false).
Context (Hval : IsValid (Unmap addr) = true) (Hpeer : ∀ n, st_peer (client n)).

Lemma announce_alone k n w url h :
  st_inv (2 + n) w → length h = InfoHashV1Len → only (client k) (st_view w) h →
  ∃ w', Do url (client_request h k) w = Some (w', Ok [10000 + k]) ∧ st_inv n w' ∧
    only (client k) (st_view w') h ∧ ∀ p ih, ih ≠ h → only p (st_view w) ih → only p (st_view w') ih.
Proof.
  intros Hi Hlen Ho. set (req := as_request (client_request h k)).
  assert (is_v2 h = false) as Hv1 by (unfold is_v2; apply bool_decide_eq_false_2; rewrite Hlen; done).
  assert (announce_pairs req = [(h, client k)]) as Hpairs.
  { unfold announce_pairs, req, targets. cbn [ar_InfoHash as_request client_request tr_InfoHash]. by rewrite Hv1. }
  destruct (plain_logic_announce ai mi ctx req (2 + n) w Hi) as (w1 & resp & E1 & Hi1 & Hv & Ha & _);
    [by left|done|done|].
  destruct (plain_logic_after ai mi ctx req resp n w1) as (w2 & E2 & Hi2 & Hv2);
    [unfold announce_calls; by rewrite Hpairs|by left|by apply list.Forall_singleton, Hpeer|done|].
  exists w2.
  assert (response_peers resp = [client k]) as Hresp by (eapply lone_leecher; [exact Ha|exact Ho|done..]).
  assert (∀ r ih q, q ∈ st_view w2 r ih ↔ (ih = h ∧ q = client k ∧ r = Leecher) ∨ q ∈ st_view w r ih) as Hin.
  { intros r ih q. rewrite Hv2. unfold announced. rewrite Hpairs, (Hv r ih). unfold after_event.
    assert ((ih, q) ∈ [(h, client k)] ↔ ih = h ∧ q = client k) as Hp by (rewrite list_elem_of_singleton; naive_solver).
    case_decide as Hd; rewrite Hp in Hd; cbn; [rewrite !decide_False by done|]; tauto. }
  split; [|split; [done|split]].
  - apply HDo. unfold tracked. fold req. rewrite (M_bind_Some _ _ _ _ _ E1), (M_bind_Some _ _ _ _ _ E2). by rewrite Hresp.
  - destruct Ho as [Hs Hl]. split.
    + apply set_eq. intros q. rewrite Hin. set_solver.
    + intros q. rewrite Hin. set_solver.
  - intros p ih Hne [Hs Hl]. split.
    + apply set_eq. intros q. rewrite Hin. set_solver.
    + intros q. rewrite Hin. set_solver.
Qed.

Abbreviation zeros := (replicate InfoHashV1Len x00).

Lemma test_passes n w url delay b :
  st_inv (4 + n) w → length b = InfoHashV1Len → b ≠ zeros →
  only (client 1) (st_view w) zeros → only (client 2) (st_view w) b →
  ∃ w', test Do Sleep (Ok b) url delay w = Some (w', None) ∧ st_inv n w' ∧
    only (client 1) (st_view w') zeros ∧
    ∀ p ih, ih ≠ zeros → ih ≠ b → only p (st_view w) ih → only p (st_view w') ih.
Proof.
  intros Hi Hb Hne H1 H2.
  destruct (announce_alone 1 (2 + n) w url zeros Hi) as (w1 & E1 & Hi1 & Ho1 & Hk1); [done|done|].
  destruct (HSleep _ delay w1 Hi1) as (w2 & E2 & Hi2 & Hv2).
  assert (∀ p ih, only p (st_view w1) ih → only p (st_view w2) ih) as Hsl.
  { intros p ih [Hs Hl]. split; [by rewrite (Hv2 Seeder ih)|by rewrite (Hv2 Leecher ih)]. }
  destruct (announce_alone 2 n w2 url b Hi2 Hb) as (w3 & E3 & Hi3 & Ho3 & Hk3); [by apply Hsl, Hk1|].
  exists w3. split; [|split; [done|split]].
  - unfold test. rewrite NewInfoHash_raw by by left. apply test_exact; [done|]. by exists w1, w2, 10001.
  - apply Hk3; [done|]. by apply Hsl.
  - intros p ih Hz Hn Ho. apply Hk3; [done|]. by apply Hsl, Hk1.
Qed.
End Tracked.

(** ** Properties *)

(** The end-to-end program succeeds against the tracker, over HTTP and then
    over UDP: with any storage that keeps its contract, when the client library
    carries announces and answers, and the swarms of the two random hashes and of
    the hash of zeros are empty (or the last one left over from an earlier run),
    both clients are given themselves alone. *)
Theorem e2e_succeeds {S : Type} {HSt : PeerStorage S} {HSpec : StorageSpec S} (ai mi : Z) (ctx : Context) (addr : Addr)
    (Do : bytes → TrackerRequest → M S (result (list Z))) (Sleep : Z → M S ())
    (http udp : bytes) (delay : Z) (rand : nat → result bytes) (b1 b2 : bytes) (n : nat) (w : S) :
  (∀ url r w w' ports, tracked ai mi ctx addr r w = Some (w', Ok ports) → Do url r w = Some (w', Ok ports)) →
  (∀ n d w, st_inv n w → ∃ w', Sleep d w = Some (w', ()) ∧ st_inv n w' ∧ st_view w' ≡ st_view w) →
  ctx_skip_swarm ctx = false → ctx_skip_response ctx = false →
  IsValid (Unmap addr) = true → (∀ n, st_peer (client addr n)) →
  rand 0%nat = Ok b1 → rand 1%nat = Ok b2 → length b1 = InfoHashV1Len → length b2 = InfoHashV1Len →
  b1 ≠ replicate InfoHashV1Len x00 → b2 ≠ replicate InfoHashV1Len x00 → b1 ≠ b2 → http ≠ [] → udp ≠ [] →
  only (client addr 1) (st_view w) (replicate InfoHashV1Len x00) →
  only (client addr 2) (st_view w) b1 → only (client addr 2) (st_view w) b2 →
  st_inv (8 + n) w →
  ∃ w', main Do Sleep http udp delay rand w = Some (w', None) ∧ st_inv n w' ∧
    only (client addr 1) (st_view w') (replicate InfoHashV1Len x00).
Proof.
  intros HDo HSl Hs Hs' Hv Hp R0 R1 L1 L2 Z1 Z2 Hne Hh Hu Ho0 Ho1 Ho2 Hi.
  destruct (test_passes ai mi ctx addr Do Sleep HDo HSl Hs Hs' Hv Hp (4 + n) w http delay b1) as (w1 & E1 & Hi1 & H0 & Hk);
    [done..|].
  destruct (test_passes ai mi ctx addr Do Sleep HDo HSl Hs Hs' Hv Hp n w1 udp delay b2) as (w2 & E2 & Hi2 & H2 & _);
    [done..|by apply Hk|].
  exists w2. split; [|done]. unfold main. rewrite R0.
  destruct http as [|c1 http]; [done|]. destruct udp as [|c2 udp]; [done|]. cbn [length Nat.eqb negb].
  rewrite (M_bind_Some _ _ w w1 (None, 1%nat)); [by rewrite R1|]. by rewrite (M_bind_Some _ _ _ _ _ E1).
Qed.

(** ** Concrete runs *)

Import (hints) MemStore.

Definition do1 (url : bytes) (r : TrackerRequest) : M MemStore.world (result (list Z)) :=
  tracked 1800 900 Background (Addr4 0x320a0c01) r.
Definition sleep1 (d : Z) : M MemStore.world () := mret ().
Definition rand1 (n : nat) : result bytes := Ok (replicate 20 (if n is 0%nat then xaa else xbb)).

Lemma only_new p ih : only p (st_view world1) ih.
Proof.
  assert (∀ r, st_view world1 r ih = ∅) as Hw; [|split; by rewrite Hw].
  intros r. change (st_view world1 r ih) with (dom (MemStore.tview_of (MemStore.NewPeerStorage 2) r ih)).
  by rewrite MemStore.new_tview, dom_empty_L.
Qed.

Lemma blind_to_storage_witness :
  test (λ _ r (w : ()), Some (w, Ok [tr_Port r])) (λ _ w, Some (w, ())) (Ok (replicate 20 xaa)) [] 1 () = Some ((), None).
Proof. apply blind_to_storage; reflexivity. Defined.

Lemma e2e_succeeds_witness :
  ∃ w', main do1 sleep1 (bs "http://127.0.0.1:6969/announce") (bs "udp://127.0.0.1:6969") 1000 rand1 world1 = Some (w', None).
Proof.
  destruct (e2e_succeeds 1800 900 Background (Addr4 0x320a0c01) do1 sleep1 (bs "http://127.0.0.1:6969/announce")
    (bs "udp://127.0.0.1:6969") 1000 rand1 (replicate 20 xaa) (replicate 20 xbb) 0 world1) as (w' & E & _).
  { intros url r w w' ports H. exact H. }
  { intros n d w H. exists w. split; [reflexivity|]. split; [exact H|reflexivity]. }
  1-3: reflexivity. { intros n. exact I. } 1-4: reflexivity. 1-5: discriminate. 1-3: apply only_new.
  { apply world1_inv. }
  exists w'. exact E.
Defined.

End E2e.
