(* ===== verification/HooksConc.v ===== *)
(** * Announces carried out at the same time

    After its response every announce is carried out by a goroutine of its own
    (the swarm interaction of src/middleware/hooks.go), whose calls to the storage
    interleave with those of the others.  Here the hook is a program over any
    storage whose methods are programs ([ConcStorage]); [ConcSpec] is what such a
    storage promises of a call among others, and the in-memory store and those
    over Redis and KeyDB keep it. *)

From S2P Require Import Prelude GoStd Netip Bittorrent Storage Memory Threads MemoryConc Redis SwarmKeys RedisSpec RedisConc Keydb KeydbConc Hooks Tracker.

Local Open Scope Z_scope.

(** ** The interface *)

(** The writing methods, with the time that a call reads. *)
Class ConcStorage (St : Type) := conc_call : Z → wop → prog St error.

(** Effects that a sequence of writes may have: on its own peers, and together
    what the writes do. *)
Definition concerns (os es : list wop) : Prop := Forall (λ x, wop_args x ∈ wop_args <$> os) es.
Definition follows (os es : list wop) : Prop :=
  concerns os es ∧ ∀ v, foldl (flip view_wop) v es ≡ foldl (flip view_wop) v os.

Class ConcSpec (St : Type) `{ConcStorage St} := {
  cs_inv : St → Prop;
  cs_le : St → St → Prop;
  cs_preorder : PreOrder cs_le;
  cs_view : St → view;
  cs_peer : Peer → Prop;
  cs_call now o w : int64 now → InfoHash_wf (wop_args o).1 → cs_peer (wop_args o).2 →
    yields cs_inv cs_le cs_view (flip view_wop) (λ _ _, True) w (conc_call now o) (λ _, follows [o]);
}.
#[export] Existing Instance cs_preorder.

#[export] Instance view_wops_step_proper : Proper ((≡) ==> (=) ==> (≡)) (flip view_wop).
Proof. intros v w Hv o ? <-. by apply view_wop_proper. Qed.

Lemma concerns_app os1 os2 es1 es2 : concerns os1 es1 → concerns os2 es2 → concerns (os1 ++ os2) (es1 ++ es2).
Proof.
  unfold concerns. intros H1 H2. rewrite fmap_app. apply Forall_app. split.
  - eapply list.Forall_impl; [exact H1|]. intros x. rewrite elem_of_app. by left.
  - eapply list.Forall_impl; [exact H2|]. intros x. rewrite elem_of_app. by right.
Qed.

Lemma follows_refl o : follows [o] [o].
Proof. split; [|done]. apply list.Forall_singleton. by left. Qed.

(** ** The hook *)

Section Hook.
Context {St : Type} `{ConcStorage St} (clock : wop → Z).

Definition store (o : wop) : prog St error := conc_call (clock o) o.

Definition stop_fn (hash : InfoHash) (peer : Peer) : prog St error :=
  err ← store (WDeleteSeeder hash peer);
  if serious err then mret err
  else
    err ← store (WDeleteLeecher hash peer);
    if serious err then mret err else mret None.

Definition storeFn (req : AnnounceRequest) : InfoHash → Peer → prog St error :=
  if decide (ar_Event req = Stopped) then stop_fn
  else if decide (ar_Event req = Completed) then λ ih p, store (WGraduateLeecher ih p)
  else if ar_Left req =? 0 then λ ih p, store (WPutSeeder ih p)
  else λ ih p, store (WPutLeecher ih p).

Fixpoint interact (f : InfoHash → Peer → prog St error) (ih : InfoHash) (peers : list Peer) : prog St error :=
  match peers with
  | [] => mret None
  | p :: peers =>
      err ← f ih p;
      err ← (if bool_decide (err = None) && is_v2 ih then f (TruncateV1 ih) p else mret err);
      match err with None => interact f ih peers | Some e => mret (Some e) end
  end.

(** The hook on a request, its context being [ctx]. *)
Definition swarmInteraction_announce (ctx : Context) (req : AnnounceRequest) : prog St error :=
  if ctx_skip_swarm ctx then mret None
  else interact (storeFn req) (ar_InfoHash req) (Peers (ar_RequestPeer req)).
End Hook.

(** Alone, it is the hook of [Hooks]: over a storage whose calls alone are those
    of a sequential one. *)
Section Alone.
Context {St : Type} {HC : ConcStorage St} {HS : PeerStorage St} (clock : wop → Z).
Context (Hrun : ∀ o s, run (store clock o) s = run_wop o s).

Lemma run_ret {A} (a : A) (s : St) : run (mret a) s = Some (s, a).
Proof. done. Qed.

Lemma bind_cong {A B} (m m' : M St A) (g g' : A → M St B) s :
  m s = m' s → (∀ a s, g a s = g' a s) → (m ≫= g) s = (m' ≫= g') s.
Proof. intros Hm Hg. unfold mbind, M_bind. rewrite Hm. destruct (m' s) as [[s' a]|]; [apply Hg|done]. Qed.

Lemma run_storeFn req ih p s : run (storeFn clock req ih p) s = Hooks.storeFn req ih p s.
Proof.
  unfold storeFn, Hooks.storeFn. repeat case_decide; [|exact (Hrun (WGraduateLeecher ih p) s)|].
  - unfold stop_fn, Hooks.stop_fn. rewrite run_bind. apply bind_cong; [exact (Hrun (WDeleteSeeder ih p) s)|].
    intros e s1. destruct (serious e); [done|]. rewrite run_bind.
    apply bind_cong; [exact (Hrun (WDeleteLeecher ih p) s1)|]. intros e' s2. by destruct (serious e').
  - destruct (ar_Left req =? 0); [exact (Hrun (WPutSeeder ih p) s)|exact (Hrun (WPutLeecher ih p) s)].
Qed.

Lemma run_interact req ih ps s : run (interact (storeFn clock req) ih ps) s = Hooks.interact (Hooks.storeFn req) ih ps s.
Proof.
  revert s. induction ps as [|p ps IH]; intros s; [done|]. cbn [interact Hooks.interact].
  rewrite run_bind. apply bind_cong; [apply run_storeFn|]. intros e s1. rewrite run_bind. apply bind_cong.
  - destruct (bool_decide (e = None) && is_v2 ih); [apply run_storeFn|done].
  - intros e' s2. destruct e'; [done|apply IH].
Qed.
End Alone.

(** ** Among others *)

Section Effects.
Context {St : Type} {HC : ConcStorage St} {HSpec : ConcSpec St} (clock : wop → Z).

(** The writes of an announce, in order. *)
Definition announce_wops (req : AnnounceRequest) : list wop :=
  x ← announce_pairs req; event_wops req x.1 x.2.

(** What is known of a task: it only touches its own peers, and does all its
    writes unless it reports an error. *)
Definition partly (os : list wop) (err : error) (es : list wop) : Prop :=
  concerns os es ∧ (err = None → ∀ v, foldl (flip view_wop) v es ≡ foldl (flip view_wop) v os).

Lemma partly_app os1 os2 err1 err2 es1 es2 :
  (err2 = None → err1 = None) → partly os1 err1 es1 → partly os2 err2 es2 → partly (os1 ++ os2) err2 (es1 ++ es2).
Proof.
  intros He [H1 H1'] [H2 H2']. split; [by apply concerns_app|]. intros E v. rewrite !foldl_app.
  rewrite (H2' E). apply view_wops_proper. by apply H1', He.
Qed.

Lemma partly_stop os1 os2 err1 e es1 : partly os1 err1 es1 → partly (os1 ++ os2) (Some e) es1.
Proof.
  intros [H1 _]. split; [|done]. rewrite <-(app_nil_r es1). apply concerns_app; [done|]. apply list.Forall_nil, I.
Qed.

Lemma partly_nil : partly [] None [].
Proof. split; [|done]. apply list.Forall_nil, I. Qed.

Definition tries (os : list wop) (m : prog St error) : Prop :=
  ∀ w, yields cs_inv cs_le cs_view (flip view_wop) (λ _ _, True) w m (partly os).

Lemma tries_store o :
  int64 (clock o) → InfoHash_wf (wop_args o).1 → cs_peer (wop_args o).2 → tries [o] (store clock o).
Proof.
  intros Ht Hih Hp w. eapply (yields_weaken _ _ _ _ (λ _ _, True)); [done| |by apply cs_call].
  intros e es [H1 H2]. by split.
Qed.

(** What comes after the writes [os1] that ended with [e]. *)
Definition continues (os1 os2 : list wop) (e : error) (m : prog St error) : Prop :=
  ∀ w, yields cs_inv cs_le cs_view (flip view_wop) (λ _ _, True) w m
    (λ e' es, ∀ es1, partly os1 e es1 → partly (os1 ++ os2) e' (es1 ++ es)).

Lemma tries_seq os1 os2 (m : prog St error) k :
  tries os1 m → (∀ e, continues os1 os2 e (k e)) → tries (os1 ++ os2) (m ≫= k).
Proof.
  intros Hm Hk w. eapply (yields_bind _ _ _ _ (λ _ _, True)); [|apply Hm|intros w' e _ _; apply Hk].
  intros e e' es1 es2 H1 H2. by apply H2.
Qed.

Lemma continues_seq os1 os2 os3 e m k :
  continues os1 os2 e m → (∀ e', continues (os1 ++ os2) os3 e' (k e')) → continues os1 (os2 ++ os3) e (m ≫= k).
Proof.
  intros Hm Hk w. eapply (yields_bind _ _ _ _ (λ _ _, True)); [|apply Hm|intros w' e' _ _; apply Hk].
  intros e' e'' es1 es2 H1 H2 es0 H0. rewrite !(assoc_L (++)). by apply H2, H1.
Qed.

Lemma continues_tries os1 os2 m : tries os2 m → continues os1 os2 None m.
Proof. intros Hm w. eapply yields_weaken; [done| |by apply Hm]. intros e es H2 es1 H1. by eapply partly_app. Qed.

Lemma continues_error os1 os2 x : continues os1 os2 (Some x) (mret (Some x)).
Proof. intros w. split; [|done]. intros es1 H1. rewrite app_nil_r. by eapply partly_stop. Qed.

Lemma continues_ret os1 e : continues os1 [] e (mret e).
Proof. intros w. split; [|done]. intros es1 H1. by rewrite !app_nil_r. Qed.

Lemma tries_stop ih p :
  (∀ o, int64 (clock o)) → InfoHash_wf ih → cs_peer p → tries [WDeleteSeeder ih p; WDeleteLeecher ih p] (stop_fn clock ih p).
Proof.
  intros Ht Hih Hp w.
  apply (yields_bind _ _ _ _ (λ _ _, True) _ _ _ _ (λ _, follows [WDeleteSeeder ih p])
    (λ _ e es, partly [WDeleteLeecher ih p] e es ∨ es = [] ∧ e ≠ None)); [|by apply cs_call|].
  - intros _ e es1 es2 [H1 H1'] [H2|[-> He]].
    + by apply (partly_app [_] [_] None); [|split|].
    + rewrite app_nil_r. destruct e as [x|]; [|done]. by apply (partly_stop [_] [_] None).
  - intros w1 e _ _. destruct (serious e) eqn:Es.
    { split; [|done]. right. split; [done|]. by intros ->. }
    apply (yields_bind _ _ _ _ (λ _ _, True) _ _ _ _ (λ _, follows [WDeleteLeecher ih p]) (λ _ _, (.= []))); [|by apply cs_call|].
    + intros _ e' es1 es2 [H1 H1'] ->. rewrite app_nil_r. left. by split.
    + intros w2 e' _ _. by destruct (serious e').
Qed.

Lemma tries_storeFn req ih p :
  (∀ o, int64 (clock o)) → InfoHash_wf ih → cs_peer p → tries (event_wops req ih p) (storeFn clock req ih p).
Proof.
  intros Ht Hih Hp. unfold storeFn, event_wops. repeat case_decide; [by apply tries_stop|by apply tries_store|].
  destruct (ar_Left req =? 0); by apply tries_store.
Qed.

Lemma tries_interact req ih ps :
  (∀ o, int64 (clock o)) → InfoHash_wf ih → Forall cs_peer ps →
  tries (x ← (p ← ps; (λ h, (h, p)) <$> targets ih); event_wops req x.1 x.2) (interact (storeFn clock req) ih ps).
Proof.
  intros Ht Hih Hps. induction ps as [|p ps IH].
  { intros w. split; [apply partly_nil|done]. }
  apply list.Forall_cons in Hps as [Hp Hps]. rewrite bind_cons, bind_app. cbn [interact].
  set (rest := x ← (p ← ps; (λ h, (h, p)) <$> targets ih); event_wops req x.1 x.2) in *.
  assert ((x ← (λ h, (h, p)) <$> targets ih; event_wops req x.1 x.2) =
    event_wops req ih p ++ (if is_v2 ih then event_wops req (TruncateV1 ih) p else [])) as ->.
  { unfold targets. destruct (is_v2 ih); cbn; by rewrite ?app_nil_r. }
  rewrite <-(assoc_L (++)). apply tries_seq; [by apply tries_storeFn|]. intros e.
  apply continues_seq.
  - destruct (is_v2 ih).
    + destruct e as [x|]; [rewrite bool_decide_eq_false_2 by done; apply continues_error|].
      rewrite bool_decide_eq_true_2 by done. apply continues_tries, tries_storeFn; [done|by apply TruncateV1_wf|done].
    + rewrite andb_false_r. apply continues_ret.
  - intros [x|]; [apply continues_error|by apply continues_tries, IH].
Qed.

Lemma tries_announce ctx req :
  (∀ o, int64 (clock o)) → InfoHash_wf (ar_InfoHash req) → Forall cs_peer (Peers (ar_RequestPeer req)) →
  ctx_skip_swarm ctx = false → tries (announce_wops req) (swarmInteraction_announce clock ctx req).
Proof. intros ? ? ? Hsk. unfold swarmInteraction_announce. rewrite Hsk. by apply tries_interact. Qed.
End Effects.

(** ** Orders of writes on different peers *)

Section Orders.

Definition at_pair (x : InfoHash * Peer) (o : wop) : Prop := wop_args o = x.
#[export] Instance at_pair_dec x o : Decision (at_pair x o).
Proof. unfold at_pair. apply _. Defined.

(** A write changes the memberships of its own peer only. *)
Lemma view_wop_other o v r ih q : wop_args o ≠ (ih, q) → q ∈ view_wop o v r ih ↔ q ∈ v r ih.
Proof. destruct o; cbn [wop_args view_wop]; intros Hne; rewrite ?elem_of_view_add, ?elem_of_view_remove; naive_solver. Qed.

Lemma view_wop_same o v w ih q :
  (∀ r, q ∈ v r ih ↔ q ∈ w r ih) → ∀ r, q ∈ view_wop o v r ih ↔ q ∈ view_wop o w r ih.
Proof.
  intros H r. pose proof (H r). destruct o; cbn [view_wop]; rewrite ?elem_of_view_add, ?elem_of_view_remove; naive_solver.
Qed.

(** What becomes of a peer is told by the writes on it. *)
Lemma filter_view es : ∀ v w ih q,
  (∀ r, q ∈ v r ih ↔ q ∈ w r ih) →
  ∀ r, q ∈ foldl (flip view_wop) v es r ih ↔ q ∈ foldl (flip view_wop) w (filter (at_pair (ih, q)) es) r ih.
Proof.
  induction es as [|o es IH]; intros v w ih q H; [done|]. cbn [foldl flip]. rewrite filter_cons.
  destruct (decide (at_pair (ih, q) o)) as [Ho|Ho].
  - apply IH. by apply view_wop_same.
  - apply IH. intros r. by rewrite view_wop_other.
Qed.

Lemma interleaving_filter (P : wop → Prop) {HP : ∀ o, Decision (P o)} ls es i l :
  interleaving ls es → ls !! i = Some l → (∀ j l', j ≠ i → ls !! j = Some l' → Forall (λ o, ¬ P o) l') →
  filter P es = filter P l.
Proof.
  intros Hil. revert l. induction Hil as [ls Hls|ls j e l' es Hj _ IH]; intros l Hi Hother.
  - by rewrite (Forall_lookup_1 _ _ _ _ Hls Hi).
  - rewrite filter_cons. destruct (decide (j = i)) as [->|Hne].
    + simplify_eq. rewrite filter_cons, (IH l'); [done|by apply list_lookup_insert_eq, (lookup_lt_Some _ _ _ Hj)|].
      intros k l Hk. rewrite list_lookup_insert_ne by done. by apply Hother.
    + pose proof (Hother j _ Hne Hj) as [He Hl']%list.Forall_cons. rewrite decide_False by done.
      apply IH; [by rewrite list_lookup_insert_ne|]. intros k l0 Hk.
      destruct (decide (k = j)) as [->|Hkj].
      * rewrite list_lookup_insert_eq by (by eapply lookup_lt_Some). by intros [= <-].
      * rewrite list_lookup_insert_ne by done. by apply Hother.
Qed.

Lemma interleaving_none (P : wop → Prop) {HP : ∀ o, Decision (P o)} ls es :
  interleaving ls es → (∀ j l, ls !! j = Some l → Forall (λ o, ¬ P o) l) → filter P es = [].
Proof.
  induction 1 as [ls Hls|ls j e l' es Hj _ IH]; intros Hno; [done|].
  pose proof (Hno j _ Hj) as [He Hl']%list.Forall_cons. rewrite filter_cons, decide_False by done. apply IH.
  intros k l Hk. destruct (decide (k = j)) as [->|Hkj].
  - rewrite list_lookup_insert_eq in Hk by (by eapply lookup_lt_Some). by injection Hk as <-.
  - rewrite list_lookup_insert_ne in Hk by done. by eapply Hno.
Qed.

Lemma announce_wops_args req o : o ∈ announce_wops req → wop_args o ∈ announce_pairs req.
Proof.
  unfold announce_wops. intros ([ih p] & Ho & Hx)%list_elem_of_bind. cbn [fst snd] in Ho.
  assert (wop_args o = (ih, p)) as ->; [|done]. unfold event_wops in Ho.
  repeat case_decide; try destruct (ar_Left req =? 0); rewrite ?list.elem_of_cons, ?elem_of_nil in Ho; naive_solver.
Qed.

Lemma announce_wops_view req v r ih q :
  q ∈ foldl (flip view_wop) v (announce_wops req) r ih ↔ announced req v r ih q.
Proof.
  unfold announced. rewrite <-(events_view req (announce_pairs req) v r ih q). unfold announce_wops.
  generalize (announce_pairs req). intros l. assert (∀ v, foldl (flip view_wop) v (x ← l; event_wops req x.1 x.2) =
    foldl (λ v x, foldl (flip view_wop) v (event_wops req x.1 x.2)) v l) as ->; [|done].
  induction l as [|x l IH]; intros u; [done|]. by rewrite bind_cons, foldl_app, IH.
Qed.

Lemma concerns_pairs req es x : concerns (announce_wops req) es → x ∉ announce_pairs req → Forall (λ o, ¬ at_pair x o) es.
Proof.
  intros Hc Hx. eapply list.Forall_impl; [exact Hc|]. intros o (o' & E & Ho')%list_elem_of_fmap Hat.
  apply Hx. rewrite <-Hat, E. by apply announce_wops_args.
Qed.
End Orders.

(** ** Properties *)

(** A goroutine: the times its calls read, its context and its request. *)
Definition announce_task {St} `{ConcStorage St} (t : (wop → Z) * Context * AnnounceRequest) : prog St error :=
  swarmInteraction_announce t.1.1 t.1.2 t.2.

Definition task_ok {St} `{ConcSpec St} (t : (wop → Z) * Context * AnnounceRequest) : Prop :=
  (∀ o, int64 (t.1.1 o)) ∧ ctx_skip_swarm t.1.2 = false ∧
  InfoHash_wf (ar_InfoHash t.2) ∧ Forall cs_peer (Peers (ar_RequestPeer t.2)).

(** C3: announces of different clients do not disturb each other: over any storage
    that keeps its promise among concurrent calls (the in-memory store, lock by
    lock, and those over Redis and KeyDB, command by command, do), whatever way the
    goroutines that carry out announces interleave, none panics; and when they are
    done and no two of them concern the same peer of the same swarm, every swarm
    has exactly the members it would have had each announce been carried out alone,
    for every announce that reports no error; what no announce concerns is as it
    was. *)
Theorem concurrent_announces {St : Type} {HC : ConcStorage St} {HSpec : ConcSpec St}
    (ts : list ((wop → Z) * Context * AnnounceRequest)) (s s' : St) (ms' : list (prog St error)) :
  cs_inv s → Forall task_ok ts →
  (∀ i j t t' x, ts !! i = Some t → ts !! j = Some t' → x ∈ announce_pairs t.2 → x ∈ announce_pairs t'.2 → i = j) →
  rtc pool_step (announce_task <$> ts, s) (ms', s') →
  cs_inv s' ∧ (Panic ∉ ms') ∧
  ∀ errs, ms' = Ret <$> errs → ∀ r ih q,
    (∀ i t, ts !! i = Some t → errs !! i = Some None → (ih, q) ∈ announce_pairs t.2 →
       q ∈ cs_view s' r ih ↔ announced t.2 (cs_view s) r ih q) ∧
    ((∀ t, t ∈ ts → (ih, q) ∉ announce_pairs t.2) → q ∈ cs_view s' r ih ↔ q ∈ cs_view s r ih).
Proof.
  intros Hs Hts Hdis Hsteps.
  destruct (pool_yields cs_inv cs_le cs_view (flip view_wop) (λ _ _, True) (announce_task <$> ts) ms' s s'
    ((λ t, partly (announce_wops t.2)) <$> ts) Hsteps) as (H1 & H2 & _ & H4); [|done|].
  { apply Forall2_fmap_2, Forall_Forall2_diag. eapply list.Forall_impl; [exact Hts|].
    intros t (Ht & Hsk & Hih & Hp). by apply tries_announce. }
  split; [done|]. split; [done|]. intros errs E r ih q. destruct (H4 errs E) as (ess & es & Hess & Hil & Hv).
  assert (∀ j t l, ts !! j = Some t → ess !! j = Some l → concerns (announce_wops t.2) l) as Hcon.
  { intros j t l Ht Hl. destruct (Forall3_lookup_r _ _ _ _ j l Hess Hl) as (T & e & HT & _ & Hpt).
    rewrite list_lookup_fmap, Ht in HT. injection HT as <-. apply Hpt. }
  assert (∀ j l, ess !! j = Some l → ∃ t, ts !! j = Some t) as Hex.
  { intros j l Hl. destruct (Forall3_lookup_r _ _ _ _ j l Hess Hl) as (T & e & HT & _ & _).
    rewrite list_lookup_fmap in HT. destruct (ts !! j) as [t|]; [by exists t|done]. }
  assert (q ∈ cs_view s' r ih ↔ q ∈ foldl (flip view_wop) (cs_view s) (filter (at_pair (ih, q)) es) r ih) as Hq
    by by rewrite (Hv r ih), (filter_view es (cs_view s) (cs_view s) ih q).
  split.
  - intros i t Ht Herr Hin.
    assert (((λ t, partly (announce_wops t.2)) <$> ts) !! i = Some (partly (announce_wops t.2))) as HT
      by by rewrite list_lookup_fmap, Ht.
    destruct (Forall3_lookup_l _ _ _ _ i _ Hess HT) as (e & l & He & Hl & _ & Hfin). simplify_eq.
    rewrite Hq, (interleaving_filter (at_pair (ih, q)) ess es i l Hil Hl).
    + rewrite <-(filter_view l (cs_view s) (cs_view s) ih q) by done.
      rewrite (Hfin eq_refl (cs_view s) r ih). apply announce_wops_view.
    + intros j l' Hne Hl'. destruct (Hex j l' Hl') as [t' Ht']. eapply concerns_pairs; [by eapply Hcon|].
      intros Hin'. apply Hne. by eapply Hdis.
  - intros Hno. rewrite Hq, (interleaving_none (at_pair (ih, q)) ess es Hil); [done|].
    intros j l Hl. destruct (Hex j l Hl) as [t Ht]. eapply concerns_pairs; [by eapply Hcon|].
    by eapply Hno, list_elem_of_lookup_2.
Qed.

(** ** The storages *)

Import (hints) MemConc RedisConc.

(** The in-memory store, lock by lock. *)
#[export] Instance memory_conc : ConcStorage MemConc.cstore := λ now o,
  match o with
  | WPutSeeder ih p => MemConc.PutSeeder now ih p
  | WDeleteSeeder ih p => MemConc.DeleteSeeder ih p
  | WPutLeecher ih p => MemConc.PutLeecher now ih p
  | WDeleteLeecher ih p => MemConc.DeleteLeecher ih p
  | WGraduateLeecher ih p => MemConc.GraduateLeecher now ih p
  end.

Definition memory_effect (e : MemConc.effect) : option wop :=
  Some (match e with
        | MemConc.EPut Seeder _ ih p => WPutSeeder ih p
        | MemConc.EPut Leecher _ ih p => WPutLeecher ih p
        | MemConc.EDel Seeder ih p => WDeleteSeeder ih p
        | MemConc.EDel Leecher ih p => WDeleteLeecher ih p
        end).

Definition memory_view (s : MemConc.cstore) : view := λ r ih, dom (MemConc.view_of s r ih).

Lemma memory_effect_view s s' e :
  MemConc.view_of s' ≡ foldl MemConc.apply_effect (MemConc.view_of s) (option_list e) →
  memory_view s' ≡ foldl (flip view_wop) (memory_view s) (option_list (e ≫= memory_effect)).
Proof.
  intros Hv r' ih'. unfold memory_view at 1. rewrite (Hv r' ih'). destruct e as [e|]; [|done].
  destruct e as [[] now ih p|[] ih p]; cbn; unfold MemStore.t_update, MemStore.at_role, view_add, view_remove, view_update, memory_view;
    repeat case_decide; rewrite ?dom_insert_L, ?dom_delete_L; first [done|tauto].
Qed.

#[export, refine] Instance memory_conc_spec : ConcSpec MemConc.cstore := {|
  cs_inv := MemConc.conc_inv;
  cs_le := MemConc.grows;
  cs_view := memory_view;
  cs_peer _ := True;
|}.
Proof.
  intros now o w _ Hih _.
  assert (∃ es, MemConc.does (λ _ _, True) w (conc_call now o) es ∧ follows [o] (omap memory_effect es)) as (es & Hd & Hf).
  { destruct o as [ih p|ih p|ih p|ih p|ih p]; cbn [wop_args fst] in Hih.
    - exists [MemConc.EPut Seeder now ih p]. split; [by apply MemConc.does_put|apply follows_refl].
    - exists [MemConc.EDel Seeder ih p]. split; [by apply MemConc.does_del|apply follows_refl].
    - exists [MemConc.EPut Leecher now ih p]. split; [by apply MemConc.does_put|apply follows_refl].
    - exists [MemConc.EDel Leecher ih p]. split; [by apply MemConc.does_del|apply follows_refl].
    - exists [MemConc.EDel Leecher ih p; MemConc.EPut Seeder now ih p]. split; [by apply MemConc.does_graduate|].
      split; [|done]. by repeat (apply list.Forall_cons; split); try apply list.Forall_nil; try apply list_elem_of_singleton. }
  eapply (yields_weaken _ _ _ _ (λ _ _, True)); [done| |].
  2: { eapply (yields_map _ _ MemConc.view_of MemConc.apply_effect memory_view (flip view_wop) memory_effect);
       [| |apply carries_yields, Hd].
       - intros s s' e _ _ _. apply memory_effect_view.
       - intros _ l _. apply list.Forall_forall. by intros e _. }
  by intros a es2 (l & <- & ->).
Defined.

(** The store over Redis, command by command. *)
#[export] Instance redis_conc {S} {HRedis : Redis S} : ConcStorage S := RedisConc.exec_write.

Definition redis_effect (e : RedisConc.effect) : option wop :=
  match e with RedisConc.Did o => Some o | RedisConc.Expired _ _ _ => None end.

#[export, refine] Instance redis_conc_spec {S} {HRedis : Redis S} {HSpec : RedisSpec S} {HErr : RedisErrors S} : ConcSpec S := {|
  cs_inv := RedisConc.server_ok;
  cs_le := anytime;
  cs_view s := RedisFacts.db_view (rd_db s);
  cs_peer := peer_ok;
|}.
Proof.
  intros now o w Ht _ Hp.
  eapply (yields_weaken _ _ _ _ (λ _ _, True)); [done| |].
  2: { eapply (yields_map _ _ _ RedisConc.apply_effect _ (flip view_wop) redis_effect);
       [| |by apply (RedisConc.does_exec_write (λ _ _ _ _, True))].
       - intros s s' e _ _ He Hv. destruct e as [[o'|r ih ps]|]; [done| |done]. by destruct (He _ eq_refl).
       - intros _ l <-. apply list.Forall_singleton. by eexists. }
  intros a es2 (l & <- & ->). apply follows_refl.
Defined.

(** The store over KeyDB, likewise; not an instance, for a server of Redis is one
    of KeyDB too. *)
Definition keydb_conc {S} {HRedis : Redis S} (peerTTL : Z) : ConcStorage S := λ _, KeydbConc.exec_write peerTTL.

Definition keydb_effect (e : KeydbConc.effect) : option wop :=
  match e with KeydbConc.Did o => Some o | KeydbConc.Expired _ _ _ => None end.

Lemma keydb_follows o l : KeydbConc.write_effects o l →
  Forall (λ e, is_Some (keydb_effect e)) l ∧ follows [o] (omap keydb_effect l).
Proof.
  assert (∀ o', is_Some (keydb_effect (KeydbConc.Did o'))) as Hd by (intros o'; by eexists).
  intros [->|H]; [split; [by apply list.Forall_singleton|apply follows_refl]|].
  destruct o as [| | | |ih p]; try done. subst l. split; [by repeat (apply list.Forall_cons; split)|].
  split; [|done]. by repeat (apply list.Forall_cons; split); try apply list.Forall_nil; try apply list_elem_of_singleton.
Qed.

#[refine] Instance keydb_conc_spec {S} {HRedis : Redis S} {HSpec : KeyDBSpec S} {HExp : KeyDBExpiry S} (peerTTL : Z) :
    @ConcSpec S (keydb_conc peerTTL) :=
  @Build_ConcSpec S (keydb_conc peerTTL) (KeydbConc.conc_inv (λ _ _ _, True)) anytime _ (λ s, KeydbFacts.kd_view (kd_db s)) peer_ok _.
Proof.
  intros now o w _ _ Hp.
  apply (yields_weaken _ _ _ _ (λ _, KeydbConc.write_answer o) _ _ _
    (λ _ es, ∃ l, KeydbConc.write_effects o l ∧ es = omap keydb_effect l)); [done| |].
  { intros a es (l & Hl & ->). by apply keydb_follows. }
  apply (yields_map _ _ (λ s, KeydbFacts.kd_view (kd_db s)) KeydbConc.apply_effect _ (flip view_wop) keydb_effect
    _ _ _ (λ _, KeydbConc.write_effects o)).
  - intros s s' e _ _ He Hv. destruct e as [[o'|r ih ps]|]; [done| |done]. by destruct (He _ eq_refl).
  - intros _ l Hl. by apply (keydb_follows o).
  - by apply (KeydbConc.keydb_exec_write peerTTL (λ _ _ _, True)).
Defined.

(** ** A concrete run: two announces in turns *)

Definition announce2 (event : Event) (ih : InfoHash) (left : Z) : AnnounceRequest :=
  MkAnnounceRequest event ih true true 50 left 0 0 (MkRequestPeer (replicate 20 x02) 6882 [address1]) None.
Definition peer2 : Peer := MkPeer (replicate 20 x02) (Addr4 0x01020304) 6882.

Definition tasks1 : list ((wop → Z) * Context * AnnounceRequest) :=
  [(λ _, 10, Background, announce1 Completed hash2 0); (λ _, 20, Background, announce2 Started hash2 7)].
Definition tasks1_end : pool MemConc.cstore error :=
  schedule (concat (replicate 60 [0; 1])%nat) (announce_task <$> tasks1, MemConc.store1).

Lemma concurrent_announces_witness :
  Forall (λ ih, peer1 ∈ memory_view tasks1_end.2 Seeder ih ∧ peer2 ∈ memory_view tasks1_end.2 Leecher ih)
    [hash2; TruncateV1 hash2].
Proof.
  assert (rtc pool_step (announce_task <$> tasks1, MemConc.store1) (tasks1_end.1, tasks1_end.2)) as Hr
    by (rewrite <-surjective_pairing; apply schedule_steps).
  assert (Forall task_ok tasks1) as Hok.
  { repeat (apply list.Forall_cons; split); try apply list.Forall_nil, I;
      (split; [intros o; unfold int64; cbn; lia|]; split; [reflexivity|]; split; [by right|]; by apply list.Forall_singleton). }
  assert (∀ x, x ∈ announce_pairs (announce1 Completed hash2 0) → x ∉ announce_pairs (announce2 Started hash2 7)) as Hx.
  { assert (Forall (λ x, bool_decide (x ∉ announce_pairs (announce2 Started hash2 7))) (announce_pairs (announce1 Completed hash2 0)))
      as Hb by (vm_compute; repeat constructor).
    intros x Hx. apply (bool_decide_unpack _). by eapply list.Forall_forall in Hb. }
  destruct (@concurrent_announces _ memory_conc memory_conc_spec tasks1 MemConc.store1 tasks1_end.2 tasks1_end.1 MemConc.store1_inv Hok) as (_ & _ & Hend);
    [|exact Hr|].
  { intros [|[|i]] [|[|j]] t t' x Hi Hj H1 H2; try reflexivity; try discriminate Hi; try discriminate Hj;
      injection Hi as <-; injection Hj as <-; exfalso; [apply (Hx x)|apply (Hx x)]; assumption. }
  assert (tasks1_end.1 = Ret <$> [None; None]) as E by (vm_compute; reflexivity).
  specialize (Hend [None; None] E). clear -Hend. revert Hend. generalize tasks1_end.2. intros s Hend.
  assert (∀ ih, (ih, peer1) ∈ announce_pairs (announce1 Completed hash2 0) → peer1 ∈ memory_view s Seeder ih) as H1.
  { intros ih Hin. apply (proj1 (Hend Seeder ih peer1) 0%nat _ eq_refl eq_refl Hin).
    unfold announced. rewrite decide_True by exact Hin. reflexivity. }
  assert (∀ ih, (ih, peer2) ∈ announce_pairs (announce2 Started hash2 7) → peer2 ∈ memory_view s Leecher ih) as H2.
  { intros ih Hin. apply (proj1 (Hend Leecher ih peer2) 1%nat _ eq_refl eq_refl Hin).
    unfold announced. rewrite decide_True by exact Hin. by left. }
  repeat (apply list.Forall_cons; split); try apply list.Forall_nil, I;
    (split; [apply H1|apply H2]; apply (bool_decide_unpack _); vm_compute; exact I).
Defined.
